(* ===== verification/_CoqProject ===== *)
-Q . S2P
Prelude.v
Bytes.v
Key.v
Bucket.v
BucketSpec.v
BucketProofs.v
BucketRefine.v
BucketTrace.v
Testing.v
BucketPost.v
IpFilter.v
Table.v
TableProofs.v
Closest.v
ClosestProofs.v
TableTests.v
TableTrace.v
BTree.v
FindNode.v
FindNodeProofs.v
FindNodeTrace.v
QueryTests.v
QueryLive.v
Predicate.v
PredicateProofs.v
QueryPool.v
Rpc.v
RlpSample.v
QueryInfo.v
IpVote.v
RateLimiter.v
RateLimiterProofs.v
RateLimiterTrace.v
Maps.v
LruTimeCache.v
Packet.v
PacketProofs.v
NodeInfo.v
Crypto.v
CryptoSample.v
UnitTests.v
Display.v
ActiveRequests.v
ActiveRequestsProofs.v
Session.v
SessionProofs.v
WireTests.v
Errors.v
Globals.v
Config.v
Handler.v
HandlerLogic.v
HandlerAccount.v
HandlerInv.v
PacketCache.v
Filter.v
FilterProofs.v
Socket.v
HandlerSample.v
HandlerTriples.v
HandlerSync.v
HandlerRun.v
HandlerSettle.v
Node.v
Spawn.v
Service.v
ServiceNodes.v
ServiceSample.v
NodesExchange.v
NodesHandover.v
ServiceLogic.v
ServiceInv.v
ServiceRun.v
ServiceLive.v
Tasks.v
Discv5.v
System.v
SystemInv.v
SystemRun.v
Discv5Spec.v
