(* ===== verification/Prelude.v ===== *)
(** * A verification of discv5

    discv5 (src/src) is a node-discovery protocol over UDP: a node keeps a
    Kademlia routing table of signed node records (ENRs), looks up nodes with
    iterative queries, and exchanges encrypted messages with the nodes it knows.
    This library models the program as Rocq functions translated from the Rust
    sources and proves what makes them correct, from a single bucket up to a
    node with all its tasks.

    ** The program

    The user holds a [Discv5] (discv5.rs), built from a configuration
    (config.rs).  It shares the routing table (kbucket/) and the local record
    with the task of the service (service.rs), which it starts and talks to over
    a channel.  The service runs the queries (query_pool/), sends requests to
    the handler and answers the callbacks of the user.  The task of the handler
    (handler/) keeps the sessions and the requests in flight, encrypts and
    decrypts.  Two socket tasks (socket/) pass datagrams through the packet
    filter and the decoder (packet/) to the handler, and encode what it sends.
    The bans and permits (permit_ban.rs) are global.

    ** How the code is modelled

    - A panic ([unwrap], an index out of range, [unreachable!], a full
      [ArrayVec], an arithmetic overflow) is the value [Panic] of [outcome];
      [Result] is [result]; [Option] is [option].
    - A mutable value is passed and returned.  The handler and the service are
      written in a state monad over a world: the state of the task, what it sent,
      the values it took from its environment and the global lists.  Instants
      and durations are nanoseconds; every reading of the clock is an argument or
      a value of the environment, and so is every random value, the iteration
      order of a hash map, the answer of a channel and of the binding of a socket.
    - [Instant + Duration] panics when the sum is no instant.  The end of a ban
      that the API or the filter sets ([ban_expiry]) does so in the model, below
      [INSTANT_LIMIT], the 2^63 seconds of the clock of Unix; the capacity of the
      cache of packets is checked too.  The other sums (a ban by the service, the
      expiry of sessions, votes, queries and pending nodes) are plain sums of
      integers, and the maps that expire take any timeout: the theorems that
      nothing panics ([times_in_range], [in_range]) have the range in which the
      sums are instants, and the longest timeout the timers accept
      ([dm_max_timeout], [ds_max_timeout]), as hypotheses.
    - An operation of a machine integer that can overflow takes the build profile
      ([arith]): a debug build panics and a release build wraps around.
    - [select!] is a sequence of events in any order; a task is a state and its
      events; a future is a state that a poll advances; a callback is a number,
      and sending through it or dropping it is an output.
    - [u8] is [byte], arrays are [vec byte n], wider integers are [Z] with their
      ranges, [usize] counters are [nat] unless their width matters.
    - Third-party crates are type classes with their documented behaviour as
      laws: the rlp crate ([Rlp], [RlpLaws], [RlpSize]), the record codec and the
      enr crate ([EnrCodec], [EnrCrate], [EnrUpdate], [EnrEdit], [EnrBuilder],
      [EnrText]), k256 and the cryptographic primitives ([K256], [Primitives],
      [PrimitiveLaws]), AES-CTR ([Aes128Ctr]), the maps that expire or remember
      an order ([HashMapDelay], [HashMapDelayExpiry], [HashSetDelay],
      [LinkedHashMap], [LruCache]), libp2p keys ([Libp2p]).
      Each class has an instance, which the witnesses use (RlpSample,
      CryptoSample, HandlerSample, ServiceSample and the ends of the files).

    ** The routing table

    - Prelude, Bytes, Maps: shared definitions; big-endian integers and socket
      addresses; the maps of third-party crates.
    - Key (kbucket/key.rs): keys and the XOR metric.
    - Bucket (kbucket/bucket.rs, entry.rs): a k-bucket with its pending
      node, and views of it.  BucketSpec is the contract, two queues and a
      waiting slot; BucketProofs, BucketRefine and BucketTrace show that every
      history of a bucket refines it; BucketPost gives the postconditions.
    - IpFilter (kbucket/filter.rs): the limits of records per /24 network.
    - Table, TableProofs, TableTrace (kbucket.rs): the table of 256 buckets, its
      invariant over every history, and the behaviour of its methods.  Closest,
      ClosestProofs: the iterators that list it by distance.

    ** The queries

    - BTree: [BTreeMap] as a sorted association list.  FindNode, FindNodeProofs,
      FindNodeTrace (query_pool/peers/closest.rs): the iterative lookup and its
      invariant.  QueryLive: a lookup terminates, whatever the order of its
      polls and answers, and finds the closest nodes.
    - Predicate, PredicateProofs (peers/predicate.rs): the lookup with a
      predicate: what it returns was known or reported to match, and with a
      predicate that always holds it is the former.  QueryPool (query_pool.rs): the pool.
      QueryInfo (service/query_info.rs): the distances a query asks for.

    ** Packets, sessions and the handler

    - Rpc (rpc.rs), Packet, PacketProofs (packet/mod.rs): messages and raw
      packets; decoding inverts encoding, does not panic on any bytes, and what it
      accepts is an encoding of what it returns.
    - NodeInfo (node_info.rs, ipmode.rs, socket/mod.rs), Crypto
      (handler/crypto/), Session, SessionProofs (handler/session.rs): contacts
      and addresses; key derivation and signatures; both ends of a handshake
      agree and read what the other sends after any history, and nonces are not
      repeated.
    - LruTimeCache (lru_time_cache.rs): the expiring cache.  ActiveRequests,
      ActiveRequestsProofs (handler/active_requests.rs, request_call.rs): the
      requests in flight.
    - Handler (handler/mod.rs): every event of the loop.  HandlerLogic,
      HandlerAccount, HandlerInv, HandlerTriples, HandlerRun: no event panics,
      every request is accounted for, every response awaited is expected.
      HandlerSync: the two tables of requests stay in step when nonces are
      fresh.  HandlerSettle: when only time passes, every request in flight ends
      and is reported; the answer to a challenge that finds a session, as when
      two handshakes cross, leaves the requests that waited for it.
    - Display: the texts of messages, packets and nodes.

    ** The sockets and the filter

    - RateLimiter, RateLimiterProofs, RateLimiterTrace (socket/filter/
      rate_limiter.rs): the GCRA rate limiter refines token buckets.
    - Globals (permit_ban.rs, metrics.rs), PacketCache (socket/filter/cache.rs),
      Filter, FilterProofs (socket/filter/mod.rs): what passes the filter is
      bounded per address and per node.
    - Socket (socket/recv.rs, send.rs), Node: the socket tasks and the handler
      together.  Spawn ([Handler::spawn]): from a configuration of the builder
      whose durations and sizes are in range they run without a panic.

    ** The service, the API and the whole node

    - Config (config.rs), Errors (error.rs), IpVote (service/ip_vote.rs).
    - Service (service.rs): every event of the loop.  ServiceNodes,
      NodesExchange: the NODES responses of one service at another.
      NodesHandover: the same responses through the handler in between, and the
      totals with which the handler and the service disagree for good.
      ServiceLogic, ServiceInv, ServiceRun: no event panics, and no callback is
      lost or used twice.  ServiceLive: every query is answered.
    - Tasks: the task of the handler and the task of the service over their two
      channels and the list of bans.  In any order of turns nothing panics, each
      active request of the service is somewhere on its way, and when only time
      passes those in flight fail and are told.
    - Discv5 (discv5.rs): the calls of the user.  System: a node with the tasks
      it started and the futures it returned.  SystemInv, SystemRun: nothing
      panics in any order of calls and turns, futures resolve once and with
      their type, and all resolve after a shutdown.  Discv5Spec: what [add_enr]
      and [ban_node] promise, and a node that a ban does not reach.

    ** The unit tests of the sources

    A test is a function of its random draws that panics where an assertion
    fails (Testing).  What quickcheck tries at random inputs is proved for all
    inputs, except for the simulated lookup, which is evaluated on some draws;
    the tests on fixed values and the vectors of the specification are
    evaluated, which checks the model against known bytes.

    - TableTests (kbucket/bucket.rs, key.rs, kbucket.rs), QueryTests
      (query_pool/peers/closest.rs).
    - WireTests (rpc.rs, packet/mod.rs, handler/crypto/mod.rs), with an RLP codec
      (RlpSample), AES-128 in counter and Galois mode, SHA-256, HMAC and HKDF
      (CryptoSample).
    - UnitTests (lru_time_cache.rs, ip_vote.rs, query_info.rs, rate_limiter.rs,
      ipmode.rs).

    ** Fuel

    [Closest.next_loop] has fuel 1030: the iterator visits at most 257 buckets
    and each visit takes two turns; the theorems show the fuel is never used up.
    [QueryInfo.distance_loop] has [LOOP_FUEL], enough for the 127 distances that
    can be asked for.  [Service.list_closest] has [CLOSEST_FUEL], more than the
    nodes of all buckets visited twice.  [Lookup.lookup], a sample driver, takes
    its fuel as an argument.  The loops of the tests that draw until a bucket
    or a table is full, and the rounds of the simulated lookup, have the number
    of draws or rounds as fuel; the tests that pass did not use it up.  Every
    other recursion is structural.

    ** Bounds of the theorems

    The theorems on the handler hold up to 2^64 values taken from the
    environment, those on the service up to 2^64 events (the identifiers of
    queries wrap around), those on the filter up to 2^63 nanoseconds.  Debug
    assertions are those of a release build where a theorem says so, and nonces
    are fresh where a theorem needs the two tables of requests in step.  The
    liveness theorems take a clock that passes every time, in steps of any size,
    and the retries below 2^8.  Where nothing panics the clock readings and the
    durations are such that their sums are instants.

    ** Not modelled

    The sockets of the operating system and the executor (executor.rs, which
    spawns a task on tokio): their answers are arguments.  A place in a bounded
    channel between tasks is always found.  The tasks of the handler and the
    service run together in Tasks, the service and the user in System, the
    handler and the sockets in Node; there is no single run of all of them.  A
    future that the user drops before it resolves is not modelled.  Arithmetic
    on the curve secp256k1 is not evaluated: the product in the test of the key
    derivation is given, and the tests ref_test_ecdh and ref_nonce_signing are
    left out.  Logging, derived [Debug] texts, and the documentation and
    re-exports of lib.rs.  The tests with sockets (handler/tests.rs,
    service/test.rs, discv5/test.rs) and the examples, which print what the API
    returns. *)

From stdpp Require Export base decidable option list numbers sorting vector gmap.
From Stdlib Require Export ZArith Lia.

#[export] Set Default Goal Selector "!".

(** ** Panics

    Rust code that indexes a vector, unwraps an [Option], pushes into a full
    [ArrayVec] or reaches [unreachable!()] aborts the thread.  An operation
    that contains such a point returns an [outcome]; the safety theorems show
    that [Panic] is never its value on a well-formed state. *)

Inductive outcome (A : Type) : Type :=
  | Ret (a : A)
  | Panic.
Arguments Ret {A} a.
Arguments Panic {A}.

#[export] Instance outcome_ret : MRet outcome := @Ret.
#[export] Instance outcome_bind : MBind outcome := fun A B f m =>
  match m with Ret a => f a | Panic => Panic end.
#[export] Instance outcome_fmap : FMap outcome := fun A B f m =>
  match m with Ret a => Ret (f a) | Panic => Panic end.

(** [Result<A, E>], with [?] as bind. *)
Inductive result (E A : Type) := Ok (a : A) | Err (e : E).
Arguments Ok {E A} a.
Arguments Err {E A} e.
#[export] Instance result_ret {E} : MRet (result E) := fun A => @Ok E A.
#[export] Instance result_bind {E} : MBind (result E) := fun A B f m =>
  match m with Ok a => f a | Err e => Err e end.
#[export] Instance result_fmap {E} : FMap (result E) := fun A B f m =>
  match m with Ok a => Ok (f a) | Err e => Err e end.

(** [Option::unwrap] / [expect]: [None] aborts. *)
Definition unwrap {A} (o : option A) : outcome A :=
  match o with Some a => Ret a | None => Panic end.

Definition is_ret {A} (m : outcome A) : Prop := exists a, m = Ret a.

(** ** Standard-library iterators used by the sources *)

(** [Iterator::position]: index of the first element that satisfies [f]. *)
Fixpoint position {A} (f : A -> bool) (l : list A) : option nat :=
  match l with
  | [] => None
  | x :: l => if f x then Some 0 else S <$> position f l
  end.

(** [Iterator::find]. *)
Fixpoint find {A} (f : A -> bool) (l : list A) : option A :=
  match l with
  | [] => None
  | x :: l => if f x then Some x else find f l
  end.

(** [Iterator::filter(f).count()]. *)
Fixpoint countb {A} (f : A -> bool) (l : list A) : nat :=
  match l with
  | [] => 0
  | x :: l => if f x then S (countb f l) else countb f l
  end.

(** [Vec::insert] for an index in range: shift the tail right. *)
Definition insert_at {A} (i : nat) (x : A) (l : list A) : list A :=
  take i l ++ x :: drop i l.

(** ** [arrayvec::ArrayVec]: a vector with a fixed capacity [cap]

    The contents are a list; the operations abort where the crate documents a
    panic ([push] and [insert] on a full vector, an index out of range). *)
Definition is_full {A} (cap : nat) (l : list A) : bool := bool_decide (length l = cap).

Definition array_push {A} (cap : nat) (l : list A) (x : A) : outcome (list A) :=
  if decide (length l < cap) then Ret (l ++ [x]) else Panic.

Definition array_insert {A} (cap i : nat) (x : A) (l : list A) : outcome (list A) :=
  if decide (i <= length l /\ length l < cap) then Ret (insert_at i x l) else Panic.

Definition array_remove {A} (i : nat) (l : list A) : outcome (A * list A) :=
  match l !! i with Some x => Ret (x, delete i l) | None => Panic end.

(** [usize::checked_sub]. *)
Definition checked_sub (a b : nat) : option nat :=
  if decide (b <= a) then Some (a - b) else None.

#[global] Arguments checked_sub : simpl never.

Lemma checked_sub_S n : checked_sub (S n) 1 = Some n.
Proof. unfold checked_sub. rewrite decide_True by lia. f_equal. lia. Qed.

(** ** [u64] arithmetic

    An overflow aborts (the debug profile); a theorem that an operation returns
    shows that no overflow occurs, so that both profiles agree. *)
Definition U64_MODULUS : Z := (2 ^ 64)%Z.

Definition u64_add (a b : Z) : outcome Z :=
  if decide (a + b < U64_MODULUS)%Z then Ret (a + b)%Z else Panic.

Definition u64_mul (a b : Z) : outcome Z :=
  if decide (a * b < U64_MODULUS)%Z then Ret (a * b)%Z else Panic.

(** [saturating_sub] on unsigned integers. *)
Definition saturating_sub (a b : Z) : Z := Z.max 0 (a - b).

#[global] Opaque U64_MODULUS.

(** The result [x] of an operation on unsigned integers below [m]: an overflow
    panics in a debug build and wraps in a release build. *)
Definition arith (debug : bool) (m x : Z) : outcome Z :=
  if decide (0 <= x < m)%Z then Ret x else if debug then Panic else Ret (x mod m)%Z.

Lemma arith_ok debug m x : (0 <= x < m)%Z -> arith debug m x = Ret x.
Proof. intros Hx. unfold arith. by rewrite decide_True. Qed.

Lemma arith_release m x : is_ret (arith false m x).
Proof. unfold arith. case_decide; by eexists. Qed.

Lemma arith_mod debug m x y : arith debug m x = Ret y -> y = (x mod m)%Z.
Proof.
  unfold arith. case_decide; [intros [= <-]; by rewrite Z.mod_small|]. destruct debug; [done|]. by intros [= <-].
Qed.

(** ** [Duration] and [Instant]: nanoseconds *)
Definition from_secs (n : Z) : Z := (n * 1000000000)%Z.

(** The seconds of an [Instant] are an [i64]: [Instant + Duration] panics when
    the sum is not representable. *)
Definition INSTANT_LIMIT : Z := from_secs (2 ^ 63).

Definition instant_add (now duration : Z) : outcome Z :=
  if decide (now + duration < INSTANT_LIMIT)%Z then Ret (now + duration)%Z else Panic.

Lemma instant_add_ok now duration : (now + duration < INSTANT_LIMIT)%Z -> instant_add now duration = Ret (now + duration)%Z.
Proof. intros H. unfold instant_add. by rewrite decide_True. Qed.

#[global] Opaque INSTANT_LIMIT.

(** [duration.map(|v| Instant::now() + v)]: when a ban ends, if it does. *)
Definition ban_expiry (now : Z) (duration : option Z) : outcome (option Z) :=
  match duration with Some v => Some <$> instant_add now v | None => Ret None end.

Definition ban_representable (now : Z) (duration : option Z) : Prop :=
  match duration with Some v => (now + v < INSTANT_LIMIT)%Z | None => True end.

#[export] Instance ban_representable_dec now duration : Decision (ban_representable now duration).
Proof. destruct duration; simpl; apply _. Defined.

Lemma ban_expiry_overflow now duration : ~ ban_representable now duration -> ban_expiry now duration = Panic.
Proof. destruct duration as [v|]; simpl; [|done]. intros H. unfold instant_add. by rewrite decide_False. Qed.

Lemma ban_expiry_ok now duration : ban_representable now duration -> ban_expiry now duration = Ret (Z.add now <$> duration).
Proof. destruct duration as [v|]; [|done]. intros H. unfold ban_expiry. by rewrite instant_add_ok. Qed.

(** ** Automation *)

Create HintDb discv5.

(** Case analysis on every [match], [if] and [decide] in the goal or in a
    hypothesis, with equations, closing the contradictory branches. *)
Ltac split_cases :=
  repeat (case_match || case_decide || case_bool_decide); simplify_eq/=.

(** The operation at the head of a term, unfolded. *)
Ltac unfold_head m :=
  lazymatch m with
  | ?f _ => unfold_head f
  | ?h => unfold h
  end.

Lemma bind_ret_inv {A B} (m : outcome A) (k : A -> outcome B) b :
  m ≫= k = Ret b -> exists a, m = Ret a /\ k a = Ret b.
Proof. destruct m; [by eexists|done]. Qed.

Lemma fmap_ret_inv {A B} (f : A -> B) (m : outcome A) b : f <$> m = Ret b -> exists a, m = Ret a /\ b = f a.
Proof. destruct m; [intros [= <-]; by eexists|done]. Qed.

(** Splits the run of a sequence. *)
Ltac split_run :=
  repeat match goal with
  | H : mbind _ _ = Ret _ |- _ =>
      apply bind_ret_inv in H; destruct H as (? & ? & H);
      repeat match type of H with (let '(_, _) := ?x in _) = _ => destruct x end; cbn beta iota in H
  end.

(** ** Generic lemmas *)

Section Lists.
Context {A : Type}.
Implicit Types (l : list A) (f : A -> bool).

Lemma position_Some f l i :
  position f l = Some i <->
  exists l1 x l2, l = l1 ++ x :: l2 /\ length l1 = i /\ f x = true /\
                  Forall (fun y => f y = false) l1.
Proof.
  revert i; induction l as [|a l IH]; intros i; simpl.
  - split; [done|]. intros (l1 & x & l2 & Hl & _). by destruct l1.
  - destruct (f a) eqn:Hfa.
    + split.
      * intros [= <-]. exists [], a, l. by repeat split.
      * intros ([|b l1] & x & l2 & Hl & Hi & Hx & Hall); simplify_eq/=; [done|].
        apply Forall_cons in Hall as [Hb _]. congruence.
    + rewrite fmap_Some. split.
      * intros (j & Hj & ->). apply IH in Hj as (l1 & x & l2 & -> & <- & Hx & Hall).
        exists (a :: l1), x, l2. repeat split; auto.
      * intros ([|b l1] & x & l2 & Hl & Hi & Hx & Hall); simplify_eq/=; [congruence|].
        apply Forall_cons in Hall as [_ Hall].
        exists (length l1). split; [|done]. apply IH. by exists l1, x, l2.
Qed.

Lemma position_None f l :
  position f l = None <-> Forall (fun y => f y = false) l.
Proof.
  induction l as [|a l IH]; simpl; [split; auto|].
  destruct (f a) eqn:Hfa.
  - split; [done|]. intros H. apply Forall_cons in H as [H _]. congruence.
  - rewrite fmap_None, IH, Forall_cons. naive_solver.
Qed.

Lemma position_app_None f l1 l2 :
  position f l1 = None -> position f (l1 ++ l2) = Nat.add (length l1) <$> position f l2.
Proof.
  induction l1 as [|a l1 IH]; simpl.
  - intros _. by destruct (position f l2).
  - destruct (f a); [done|]. intros H. apply fmap_None in H. rewrite (IH H).
    by destruct (position f l2).
Qed.

Lemma find_position f l :
  find f l = position f l ≫= fun i => l !! i.
Proof.
  induction l as [|a l IH]; simpl; [done|].
  destruct (f a); [done|]. rewrite IH. by destruct (position f l).
Qed.

Lemma countb_app f l1 l2 : countb f (l1 ++ l2) = countb f l1 + countb f l2.
Proof. induction l1 as [|a l1 IH]; simpl; [done|]. destruct (f a); lia. Qed.

Lemma countb_ext f g l : (forall x, f x = g x) -> countb f l = countb g l.
Proof. intros H. induction l as [|a l IH]; simpl; [done|]. by rewrite H, IH. Qed.

Lemma countb_le_length f l : countb f l <= length l.
Proof. induction l as [|a l IH]; simpl; [lia|]. destruct (f a); lia. Qed.

Lemma countb_Forall_false f l : Forall (fun y => f y = false) l -> countb f l = 0.
Proof. induction 1 as [|a l Ha _ IH]; simpl; [done|]. by rewrite Ha. Qed.

Lemma countb_Forall_true f l : Forall (fun y => f y = true) l -> countb f l = length l.
Proof. induction 1 as [|a l Ha _ IH]; simpl; [done|]. by rewrite Ha, IH. Qed.

Lemma countb_Permutation f l1 l2 : l1 ≡ₚ l2 -> countb f l1 = countb f l2.
Proof. induction 1; simpl; repeat case_match; lia. Qed.

Lemma countb_sublist f l1 l2 : l1 `sublist_of` l2 -> countb f l1 <= countb f l2.
Proof. induction 1; simpl; repeat case_match; lia. Qed.

Lemma elem_of_sublist l1 l2 x : l1 `sublist_of` l2 -> x ∈ l1 -> x ∈ l2.
Proof. intros H%sublist_submseteq Hx. by eapply elem_of_submseteq. Qed.

Lemma Forall_sublist (P : A -> Prop) l1 l2 :
  Forall P l2 -> l1 `sublist_of` l2 -> Forall P l1.
Proof. rewrite !Forall_forall. intros HP Hs x Hx. eauto using elem_of_sublist. Qed.

Lemma delete_middle_eq l1 x l2 : delete (length l1) (l1 ++ x :: l2) = l1 ++ l2.
Proof. by rewrite delete_middle. Qed.

Lemma insert_at_length l1 x l2 : insert_at (length l1) x (l1 ++ l2) = l1 ++ x :: l2.
Proof. unfold insert_at. by rewrite take_app_length, drop_app_length. Qed.

Lemma insert_at_end x l : insert_at (length l) x l = l ++ [x].
Proof. unfold insert_at. by rewrite take_ge, drop_ge by lia. Qed.

End Lists.

Lemma position_fmap {A B} (g : A -> B) (f : B -> bool) (l : list A) :
  position f (g <$> l) = position (fun x => f (g x)) l.
Proof. induction l as [|a l IH]; csimpl; [done|]. by rewrite IH. Qed.

Lemma countb_fmap {A B} (g : A -> B) (f : B -> bool) (l : list A) :
  countb f (g <$> l) = countb (fun x => f (g x)) l.
Proof. induction l as [|a l IH]; csimpl; [done|]. by rewrite IH. Qed.

Lemma bind_ext_elem {A B} (f g : A -> list B) (l : list A) :
  (forall x, x ∈ l -> f x = g x) -> l ≫= f = l ≫= g.
Proof.
  induction l as [|x l IH]; intros Hfg; csimpl; [done|].
  rewrite Hfg by set_solver. f_equal. apply IH. set_solver.
Qed.

Lemma position_lookup {A} (f : A -> bool) l i :
  position f l = Some i -> exists x, l !! i = Some x /\ f x = true.
Proof.
  intros (l1 & x & l2 & -> & <- & Hx & _)%position_Some. exists x. by rewrite list_lookup_middle.
Qed.

Lemma zip_fmap_l {A A' B} (f : A -> A') (l : list A) (k : list B) :
  zip (f <$> l) k = prod_map f id <$> zip l k.
Proof. revert k; induction l as [|x l IH]; intros [|y k]; simpl; [done..|]. f_equal. apply IH. Qed.

Lemma result_bind_Ok {E A B} (m : result E A) (f : A -> result E B) b :
  m ≫= f = Ok b <-> exists a, m = Ok a /\ f a = Ok b.
Proof. destruct m; simpl; naive_solver. Qed.
