(* ===== verification/Bytes.v ===== *)
(** * Byte strings and big-endian integers

    [u8] values are [Byte.byte]; a byte array [[u8; n]] is a [vec byte n] and a
    [Vec<u8>] a [list byte].  [from_be_bytes] and [to_be_bytes] are the integer
    conversions of the Rust standard library ([u16], [u64], [u128]) and of the
    256-bit integers of the routing table.  Bitwise facts on [Z] that the XOR
    metric needs are at the end.

    [IpAddr] and [SocketAddr] of the Rust standard library (std::net), by octets,
    with the decidable equality and the encodings that make them keys of maps. *)

From Stdlib Require Export Init.Byte Strings.Byte.
From S2P Require Import Prelude.

Local Open Scope Z_scope.

#[export] Instance byte_eq_decision : EqDecision byte := byte_eq_dec.
#[export] Instance byte_countable : Countable byte :=
  inj_countable Byte.to_N Byte.of_N Byte.of_to_N.

(** The value of a byte, [u8 as usize]. *)
Definition byte_to_Z (b : byte) : Z := Z.of_N (Byte.to_N b).

(** [x as u8]: truncation to the low eight bits. *)
Definition byte_of_Z (z : Z) : byte :=
  match Byte.of_N (Z.to_N (z mod 256)) with Some b => b | None => x00 end.

(** [uN::from_be_bytes]: most significant byte first. *)
Definition from_be_bytes (l : list byte) : Z :=
  fold_left (fun acc b => acc * 256 + byte_to_Z b) l 0.

(** [uN::to_be_bytes] for an [n]-byte integer. *)
Fixpoint to_be_bytes (n : nat) (z : Z) : list byte :=
  match n with
  | O => []
  | S n => to_be_bytes n (z / 256) ++ [byte_of_Z z]
  end.

Lemma byte_to_Z_range b : 0 <= byte_to_Z b < 256.
Proof. unfold byte_to_Z. pose proof (Byte.to_N_bounded b). lia. Qed.

Lemma byte_to_Z_inj b1 b2 : byte_to_Z b1 = byte_to_Z b2 -> b1 = b2.
Proof.
  unfold byte_to_Z. intros H. apply N2Z.inj in H.
  assert (Some b1 = Some b2) as [=] by (rewrite <-!Byte.of_to_N; congruence). done.
Qed.

Lemma byte_to_of_Z z : byte_to_Z (byte_of_Z z) = z mod 256.
Proof.
  unfold byte_of_Z, byte_to_Z. pose proof (Z.mod_pos_bound z 256 ltac:(lia)).
  destruct (Byte.of_N (Z.to_N (z mod 256))) as [b|] eqn:E.
  - apply Byte.to_of_N in E. rewrite E. lia.
  - apply Byte.of_N_None_iff in E. lia.
Qed.

Lemma byte_of_to_Z b : byte_of_Z (byte_to_Z b) = b.
Proof.
  apply byte_to_Z_inj. rewrite byte_to_of_Z. apply Z.mod_small, byte_to_Z_range.
Qed.

Lemma from_be_bytes_snoc l b :
  from_be_bytes (l ++ [b]) = from_be_bytes l * 256 + byte_to_Z b.
Proof. unfold from_be_bytes. by rewrite fold_left_app. Qed.

Lemma from_be_bytes_range l : 0 <= from_be_bytes l < 256 ^ Z.of_nat (length l).
Proof.
  induction l as [|b l IH] using rev_ind; [done|].
  rewrite from_be_bytes_snoc, length_app. simpl.
  pose proof (byte_to_Z_range b).
  replace (Z.of_nat (length l + 1)) with (Z.succ (Z.of_nat (length l))) by lia.
  rewrite Z.pow_succ_r by lia. lia.
Qed.

Lemma length_to_be_bytes n z : length (to_be_bytes n z) = n.
Proof. revert z; induction n as [|n IH]; intros z; simpl; [done|].
  rewrite length_app, IH. simpl. lia. Qed.

(** Decoding the encoding of an integer gives it back modulo the width. *)
Lemma from_to_be_bytes n z : from_be_bytes (to_be_bytes n z) = z mod 256 ^ Z.of_nat n.
Proof.
  revert z; induction n as [|n IH]; intros z.
  - by rewrite Z.mod_1_r.
  - cbn [to_be_bytes]. rewrite from_be_bytes_snoc, IH, byte_to_of_Z.
    rewrite Nat2Z.inj_succ, Z.pow_succ_r by lia.
    pose proof (Z.pow_pos_nonneg 256 (Z.of_nat n) ltac:(lia) ltac:(lia)).
    rewrite Z.rem_mul_r by lia. lia.
Qed.

Lemma from_to_be_bytes_small n z :
  0 <= z < 256 ^ Z.of_nat n -> from_be_bytes (to_be_bytes n z) = z.
Proof. intros. by rewrite from_to_be_bytes, Z.mod_small. Qed.

Lemma to_from_be_bytes l : to_be_bytes (length l) (from_be_bytes l) = l.
Proof.
  induction l as [|b l IH] using rev_ind; [done|].
  rewrite length_app, Nat.add_comm, from_be_bytes_snoc. simpl.
  pose proof (byte_to_Z_range b).
  f_equal.
  - rewrite Z.div_add_l by lia. rewrite (Z.div_small (byte_to_Z b)) by lia.
    by rewrite Z.add_0_r.
  - f_equal. apply byte_to_Z_inj. rewrite byte_to_of_Z.
    rewrite Z.add_comm, Z.mod_add by lia. by apply Z.mod_small.
Qed.

Lemma from_be_bytes_inj l1 l2 :
  length l1 = length l2 -> from_be_bytes l1 = from_be_bytes l2 -> l1 = l2.
Proof.
  intros Hlen Heq. rewrite <-(to_from_be_bytes l1), <-(to_from_be_bytes l2). congruence.
Qed.

(** ** Bitwise facts on [Z] *)

(** The order of two integers is decided by their highest differing bit. *)
Lemma testbit_lt a b j :
  0 <= a -> 0 <= b -> 0 <= j ->
  (forall k, j < k -> Z.testbit a k = Z.testbit b k) ->
  Z.testbit a j = false -> Z.testbit b j = true -> a < b.
Proof.
  intros Ha Hb Hj Hhigh Haj Hbj.
  assert (Z.shiftr a (j + 1) = Z.shiftr b (j + 1)) as Hs.
  { apply Z.bits_inj'. intros n Hn. rewrite !Z.shiftr_spec by lia. apply Hhigh. lia. }
  rewrite Z.testbit_false in Haj by lia. rewrite Z.testbit_true in Hbj by lia.
  rewrite !Z.shiftr_div_pow2 in Hs by lia.
  rewrite !Z.pow_add_r, Z.pow_1_r in Hs by lia.
  pose proof (Z.pow_pos_nonneg 2 j ltac:(lia) Hj) as Hp.
  rewrite <-!Z.div_div in Hs by lia.
  pose proof (Z.div_mod (a / 2 ^ j) 2 ltac:(lia)).
  pose proof (Z.div_mod (b / 2 ^ j) 2 ltac:(lia)).
  assert (a / 2 ^ j < b / 2 ^ j) as Hlt by lia.
  pose proof (Z.div_mod a (2 ^ j) ltac:(lia)). pose proof (Z.mod_pos_bound a (2 ^ j) Hp).
  pose proof (Z.div_mod b (2 ^ j) ltac:(lia)). pose proof (Z.mod_pos_bound b (2 ^ j) Hp).
  nia.
Qed.

Lemma lxor_range a b n :
  0 <= n -> 0 <= a < 2 ^ n -> 0 <= b < 2 ^ n -> 0 <= Z.lxor a b < 2 ^ n.
Proof.
  intros Hn Ha Hb. assert (0 <= Z.lxor a b) as H0 by (apply Z.lxor_nonneg; lia).
  split; [done|].
  destruct (decide (Z.lxor a b = 0)) as [->|Hnz]; [lia|].
  apply Z.log2_lt_pow2; [lia|].
  pose proof (Z.log2_lxor a b ltac:(lia) ltac:(lia)).
  destruct (decide (a = 0)) as [->|]; [|destruct (decide (b = 0)) as [->|]].
  - rewrite Z.lxor_0_l in *. apply Z.log2_lt_pow2; lia.
  - rewrite Z.lxor_0_r in *. apply Z.log2_lt_pow2; lia.
  - assert (Z.log2 a < n) by (apply Z.log2_lt_pow2; lia).
    assert (Z.log2 b < n) by (apply Z.log2_lt_pow2; lia). lia.
Qed.

Lemma lxor_le_add a b : 0 <= a -> 0 <= b -> Z.lxor a b <= a + b.
Proof.
  intros Ha Hb. rewrite <-Z.add_lxor_2land.
  assert (0 <= Z.land a b) by (apply Z.land_nonneg; lia). lia.
Qed.

Lemma lxor_cancel_mid a b c : Z.lxor (Z.lxor a b) (Z.lxor b c) = Z.lxor a c.
Proof.
  rewrite Z.lxor_assoc, <-(Z.lxor_assoc b b c), Z.lxor_nilpotent, Z.lxor_0_l. done.
Qed.

#[export] Hint Resolve from_be_bytes_range byte_to_Z_range : discv5.
#[export] Hint Rewrite length_to_be_bytes from_be_bytes_snoc : discv5.

(** ** Arrays

    [<[u8; n]>::try_from(&[u8])]: a slice of exactly [n] bytes. *)
Definition array_from {n} (l : list byte) : option (vec byte n) :=
  match decide (length l = n) with
  | left H => Some (eq_rect _ (vec byte) (list_to_vec l) _ H)
  | right _ => None
  end.

Lemma vec_of_list {n} (v : vec byte n) (He : length (vec_to_list v) = n) :
  eq_rect _ (vec byte) (list_to_vec (vec_to_list v)) _ He = v.
Proof.
  apply vec_to_list_inj2. transitivity (vec_to_list (list_to_vec (vec_to_list v))).
  - by destruct He.
  - apply vec_to_list_to_vec.
Qed.

Lemma array_from_vec {n} (v : vec byte n) : array_from (vec_to_list v) = Some v.
Proof.
  unfold array_from. destruct (decide _) as [H|H]; [by rewrite vec_of_list|].
  by rewrite length_vec_to_list in H.
Qed.

Lemma array_from_Some {n} l (v : vec byte n) : array_from l = Some v -> vec_to_list v = l.
Proof.
  unfold array_from. destruct (decide _) as [H|H]; [|done]. intros [= <-].
  destruct H. simpl. apply vec_to_list_to_vec.
Qed.

(** Byte arrays as keys of maps, with an encoding that evaluates. *)
#[export] Instance byte_array_countable n : Countable (vec byte n) :=
  inj_countable vec_to_list array_from array_from_vec.

(** ** Network addresses *)

Notation Ipv4Addr := (vec byte 4).
Notation Ipv6Addr := (vec byte 16).

Inductive IpAddr := V4 (ip : Ipv4Addr) | V6 (ip : Ipv6Addr).

(** [SocketAddrV4] and [SocketAddrV6]; flow label and scope take part in equality. *)
Record SocketAddrV4 := mkSocketAddrV4 { v4_ip : Ipv4Addr; v4_port : Z }.
Record SocketAddrV6 := mkSocketAddrV6 {
  v6_ip : Ipv6Addr; v6_port : Z; v6_flowinfo : Z; v6_scope_id : Z }.

Inductive SocketAddr := SockV4 (a : SocketAddrV4) | SockV6 (a : SocketAddrV6).

(** [SocketAddr::ip] and [SocketAddr::port]. *)
Module SocketAddr.
Definition ip (a : SocketAddr) : IpAddr :=
  match a with SockV4 a => V4 (v4_ip a) | SockV6 a => V6 (v6_ip a) end.
Definition port (a : SocketAddr) : Z :=
  match a with SockV4 a => v4_port a | SockV6 a => v6_port a end.
Definition new (ip : IpAddr) (port : Z) : SocketAddr :=
  match ip with V4 ip => SockV4 (mkSocketAddrV4 ip port) | V6 ip => SockV6 (mkSocketAddrV6 ip port 0 0) end.
End SocketAddr.

#[export] Instance IpAddr_eq_dec : EqDecision IpAddr.
Proof. solve_decision. Defined.
#[export] Instance SocketAddrV4_eq_dec : EqDecision SocketAddrV4.
Proof. solve_decision. Defined.
#[export] Instance SocketAddrV6_eq_dec : EqDecision SocketAddrV6.
Proof. solve_decision. Defined.
#[export] Instance SocketAddr_eq_dec : EqDecision SocketAddr.
Proof. solve_decision. Defined.

#[export] Program Instance IpAddr_countable : Countable IpAddr :=
  inj_countable' (fun a => match a with V4 a => inl a | V6 a => inr a end)
                 (fun s => match s with inl a => V4 a | inr a => V6 a end) _.
Next Obligation. by intros []. Qed.
#[export] Program Instance SocketAddrV4_countable : Countable SocketAddrV4 :=
  inj_countable' (fun a => (v4_ip a, v4_port a)) (fun p => mkSocketAddrV4 p.1 p.2) _.
Next Obligation. by intros []. Qed.
#[export] Program Instance SocketAddrV6_countable : Countable SocketAddrV6 :=
  inj_countable' (fun a => (v6_ip a, v6_port a, v6_flowinfo a, v6_scope_id a))
                 (fun '(i, p, f, s) => mkSocketAddrV6 i p f s) _.
Next Obligation. by intros []. Qed.
#[export] Program Instance SocketAddr_countable : Countable SocketAddr :=
  inj_countable' (fun a => match a with SockV4 a => inl a | SockV6 a => inr a end)
                 (fun s => match s with inl a => SockV4 a | inr a => SockV6 a end) _.
Next Obligation. by intros []. Qed.
