(* ===== verification/Key.v ===== *)
(** * Keys and the XOR metric (src/src/kbucket/key.rs)

    A [Key] pairs a preimage with its 32-byte hash.  Distances are 256-bit
    unsigned integers ([U256], built by [construct_uint!]); they are modelled
    as [Z] with the value range proved ([distance_range]). *)

From S2P Require Import Prelude Bytes.
Local Open Scope Z_scope.

(** [GenericArray<u8, U32>], and the 32-byte array of [enr::NodeId]. *)
Notation Hash := (vec byte 32).
Notation NodeId := (vec byte 32).

(** A distance is a [U256]. *)
Notation Distance := Z (only parsing).

Module Key.

Record Key (T : Type) : Type := mkKey {
  preimage : T;
  hash : Hash;
}.
Arguments mkKey {T} preimage hash.
Arguments preimage {T} k : rename.
Arguments hash {T} k : rename.

(** [U256::from(&[u8])]: the big-endian value of the hash. *)
Definition u256_from (h : Hash) : Z := from_be_bytes (vec_to_list h).

(** [U256::leading_zeros]. *)
Definition leading_zeros (d : Z) : Z :=
  if Z.eqb d 0 then 256 else 255 - Z.log2 d.

Section Key.
Context {T U : Type}.

(** [PartialEq for Key]: only the hashes are compared. *)
Definition eqb (self other : Key T) : bool :=
  bool_decide (hash self = hash other).

(** [Key::new_raw]. *)
Definition new_raw (p : T) (h : Hash) : Key T := mkKey p h.

(** [Key::into_preimage]. *)
Definition into_preimage (k : Key T) : T := preimage k.

(** [Key::distance]. *)
Definition distance (self : Key T) (other : Key U) : Distance :=
  Z.lxor (u256_from (hash self)) (u256_from (hash other)).

(** [Key::log2_distance]. *)
Definition log2_distance (self : Key T) (other : Key U) : option Z :=
  let xor_dist := distance self other in
  let log_dist := 256 - leading_zeros xor_dist in
  if Z.eqb log_dist 0 then None else Some log_dist.
End Key.

(** [From<NodeId> for Key<NodeId>]. *)
Definition from_node_id (node_id : NodeId) : Key NodeId :=
  {| preimage := node_id; hash := node_id |}.

(** ** Lemmas *)

Lemma u256_from_range h : 0 <= u256_from h < 2 ^ 256.
Proof.
  unfold u256_from. pose proof (from_be_bytes_range (vec_to_list h)) as H.
  rewrite length_vec_to_list in H. change (256 ^ Z.of_nat 32) with (2 ^ 256) in H. done.
Qed.

Lemma u256_from_inj h1 h2 : u256_from h1 = u256_from h2 -> h1 = h2.
Proof.
  unfold u256_from. intros H. apply vec_to_list_inj2.
  apply from_be_bytes_inj; [|done]. by rewrite !length_vec_to_list.
Qed.

Lemma distance_range {T U} (a : Key T) (b : Key U) : 0 <= distance a b < 2 ^ 256.
Proof. apply lxor_range; [lia|apply u256_from_range..]. Qed.

Lemma distance_sym {T U} (a : Key T) (b : Key U) : distance a b = distance b a.
Proof. apply Z.lxor_comm. Qed.

Lemma distance_zero {T U} (a : Key T) (b : Key U) :
  distance a b = 0 <-> hash a = hash b.
Proof.
  unfold distance. rewrite Z.lxor_eq_0_iff. split.
  - apply u256_from_inj.
  - congruence.
Qed.

Lemma distance_triangle {T U W} (a : Key T) (b : Key U) (c : Key W) :
  distance a c <= distance a b + distance b c.
Proof.
  unfold distance. rewrite <-(lxor_cancel_mid _ (u256_from (hash b))).
  apply lxor_le_add; apply distance_range.
Qed.

Lemma distance_unidirectional {T U W} (a : Key T) (b : Key U) (c : Key W) :
  distance a b = distance a c -> hash b = hash c.
Proof.
  unfold distance. intros H. apply u256_from_inj.
  apply (f_equal (Z.lxor (u256_from (hash a)))) in H.
  by rewrite <-!Z.lxor_assoc, !Z.lxor_nilpotent, !Z.lxor_0_l in H.
Qed.

Lemma eqb_true {T} (a b : Key T) : eqb a b = true <-> hash a = hash b.
Proof. unfold eqb. apply bool_decide_eq_true. Qed.

Lemma eqb_false {T} (a b : Key T) : eqb a b = false <-> hash a <> hash b.
Proof. unfold eqb. apply bool_decide_eq_false. Qed.

Lemma eqb_refl {T} (a : Key T) : eqb a a = true.
Proof. by apply eqb_true. Qed.

Lemma eqb_sym {T} (a b : Key T) : eqb a b = eqb b a.
Proof. unfold eqb. apply bool_decide_ext. naive_solver. Qed.

(** The number of significant bits of a nonzero 256-bit value. *)
Lemma leading_zeros_spec d n :
  0 <= d < 2 ^ 256 -> 0 <= n ->
  256 - leading_zeros d = n + 1 <-> 2 ^ n <= d < 2 ^ (n + 1).
Proof.
  intros Hd Hn. unfold leading_zeros. destruct (Z.eqb_spec d 0) as [->|Hd0].
  - pose proof (Z.pow_pos_nonneg 2 n). lia.
  - split.
    + intros. assert (Z.log2 d = n) as <- by lia.
      pose proof (Z.log2_spec d ltac:(lia)). by rewrite Z.add_1_r.
    + intros. rewrite (Z.log2_unique d n); [lia|lia|by rewrite <-Z.add_1_r].
Qed.

Lemma leading_zeros_256 d : 0 <= d < 2 ^ 256 -> leading_zeros d = 256 <-> d = 0.
Proof.
  intros Hd. unfold leading_zeros. destruct (Z.eqb_spec d 0) as [->|Hd0]; [done|].
  pose proof (Z.log2_nonneg d). split; [lia|done].
Qed.

Lemma leading_zeros_range d : 0 <= d < 2 ^ 256 -> 0 <= leading_zeros d <= 256.
Proof.
  intros Hd. unfold leading_zeros. destruct (Z.eqb_spec d 0) as [->|Hd0]; [lia|].
  pose proof (Z.log2_nonneg d).
  assert (Z.log2 d < 256) by (apply Z.log2_lt_pow2; lia). lia.
Qed.

Lemma log2_distance_self {T} (a : Key T) : log2_distance a a = None.
Proof. unfold log2_distance. by rewrite (proj2 (distance_zero a a) eq_refl). Qed.

Lemma log2_distance_range {T U} (a : Key T) (b : Key U) d : log2_distance a b = Some d -> 1 <= d <= 256.
Proof.
  unfold log2_distance. pose proof (leading_zeros_range _ (distance_range a b)).
  destruct (Z.eqb_spec (256 - leading_zeros (distance a b)) 0); [done|]. intros [= <-]. lia.
Qed.
End Key.

#[export] Hint Resolve Key.distance_range Key.u256_from_range Key.eqb_refl : discv5.

Notation Key := Key.Key.

(** ** The metric laws *)

(** [Key::distance] is a metric on hashes with the Kademlia properties:
    it is symmetric, it is zero exactly for keys with equal hashes, it obeys
    the triangle inequality over the integers, and for every key and distance
    there is at most one hash at that distance (unidirectionality). *)
Theorem key_distance_metric {T U W} (a : Key T) (b : Key U) (c : Key W) :
  Key.distance a b = Key.distance b a /\
  (Key.distance a b = 0 <-> Key.hash a = Key.hash b) /\
  Key.distance a c <= Key.distance a b + Key.distance b c /\
  (Key.distance a b = Key.distance a c <-> Key.hash b = Key.hash c).
Proof.
  split_and!.
  - apply Key.distance_sym.
  - apply Key.distance_zero.
  - apply Key.distance_triangle.
  - split; [apply Key.distance_unidirectional|].
    unfold Key.distance. congruence.
Qed.

(** [Key::log2_distance] is [None] exactly for keys with equal hashes;
    otherwise it is the [d] in 1..=256 for which the XOR distance lies in the
    bucket range [2^(d-1) <= distance < 2^d]. *)
Theorem key_log2_distance_spec {T U} (a : Key T) (b : Key U) :
  match Key.log2_distance a b with
  | None => Key.hash a = Key.hash b
  | Some d => 1 <= d <= 256 /\ 2 ^ (d - 1) <= Key.distance a b < 2 ^ d
  end.
Proof.
  unfold Key.log2_distance. pose proof (Key.distance_range a b) as Hr.
  pose proof (Key.leading_zeros_range _ Hr) as Hlz.
  destruct (Z.eqb_spec (256 - Key.leading_zeros (Key.distance a b)) 0) as [H0|H0].
  - apply Key.distance_zero, Key.leading_zeros_256; [done|lia].
  - split; [lia|].
    set (d := 256 - Key.leading_zeros (Key.distance a b)) in *.
    pose proof (Key.leading_zeros_spec (Key.distance a b) (d - 1) Hr ltac:(lia)) as [H _].
    replace (d - 1 + 1) with d in H by lia. by apply H.
Qed.

(** Node ids for concrete instances: 31 zero bytes and a last byte. *)
Definition sample_id (z : Z) : NodeId := vinsert 31%fin (byte_of_Z z) (vreplicate 32 x00).
