(* ===== verification/Bucket.v ===== *)
(** * A single k-bucket: data and operations (src/src/kbucket/bucket.rs)

    [KBucket] keeps at most [MAX_NODES_PER_BUCKET] nodes in one array, the
    disconnected ones before the connected ones, with the index of the first
    connected node cached in [first_connected_pos] and at most one [pending]
    node that waits for the least-recently connected node to be evicted.
    Every method of [impl KBucket] is a definition of the same name.  The clock
    ([Instant::now()]) is the argument [now]; instants and durations are
    integers (nanoseconds).

    The entry API (src/src/kbucket/entry.rs): an [Entry] is a borrow of a bucket
    together with a key, tagged with what the bucket knows about the key.  Its
    methods write through the borrow: they return the bucket as it is left.  The
    [expect]s of the source are [unwrap]s; [entry_view] (in TableTrace.v) shows
    they cannot fail on an entry that [new] built. *)

From S2P Require Import Prelude Bytes Key.

(** ** Connection status (src/src/handler/mod.rs, src/src/kbucket/bucket.rs) *)

Inductive ConnectionDirection := Incoming | Outgoing.
Inductive ConnectionState := Connected | Disconnected.

Record NodeStatus := mkStatus {
  direction : ConnectionDirection;
  state : ConnectionState;
}.

#[export] Instance ConnectionDirection_eq_dec : EqDecision ConnectionDirection.
Proof. solve_decision. Defined.
#[export] Instance ConnectionState_eq_dec : EqDecision ConnectionState.
Proof. solve_decision. Defined.
#[export] Instance NodeStatus_eq_dec : EqDecision NodeStatus.
Proof. solve_decision. Defined.

Definition is_connected (s : NodeStatus) : bool :=
  match state s with Connected => true | Disconnected => false end.

Definition is_incoming (s : NodeStatus) : bool :=
  match direction s with Outgoing => false | Incoming => true end.

(** The trait [Filter]: the value to be inserted against the values present. *)
Notation Filter V := (V -> list V -> bool).

Module KBucket.

Definition MAX_NODES_PER_BUCKET : nat := 16.

Record Node (T V : Type) := mkNode {
  key : Key T;
  value : V;
  status : NodeStatus;
}.
Arguments mkNode {T V} key value status.
Arguments key {T V} n : rename.
Arguments value {T V} n : rename.
Arguments status {T V} n : rename.

Record PendingNode (T V : Type) := mkPending {
  node : Node T V;
  replace_at : Z;
}.
Arguments mkPending {T V} node replace_at.
Arguments node {T V} p : rename.
Arguments replace_at {T V} p : rename.

Record KBucket (T V : Type) := mkBucket {
  nodes : list (Node T V);
  first_connected_pos : option nat;
  pending : option (PendingNode T V);
  pending_timeout : Z;
  bucket_filter : option (Filter V);
  max_incoming : nat;
}.
Arguments mkBucket {T V} nodes first_connected_pos pending pending_timeout bucket_filter max_incoming.
Arguments nodes {T V} b : rename.
Arguments first_connected_pos {T V} b : rename.
Arguments pending {T V} b : rename.
Arguments pending_timeout {T V} b : rename.
Arguments bucket_filter {T V} b : rename.
Arguments max_incoming {T V} b : rename.

Inductive InsertResult (T : Type) :=
  | Inserted
  | Pending (disconnected : Key T)
  | FailedFilter
  | TooManyIncoming
  | Full
  | NodeExists.
Arguments Inserted {T}.
Arguments Pending {T} disconnected.
Arguments FailedFilter {T}.
Arguments TooManyIncoming {T}.
Arguments Full {T}.
Arguments NodeExists {T}.

Inductive FailureReason :=
  | Reason_TooManyIncoming
  | Reason_BucketFilter
  | Reason_TableFilter
  | Reason_KeyNonExistent
  | Reason_BucketFull
  | Reason_InvalidSelfUpdate.

Inductive UpdateResult :=
  | Updated
  | UpdatedAndPromoted
  | UpdatedPending
  | Failed (reason : FailureReason)
  | NotModified.

Definition failed (r : UpdateResult) : bool :=
  match r with Failed _ => true | _ => false end.

Record AppliedPending (T V : Type) := mkApplied {
  inserted : Key T;
  evicted : option (Node T V);
}.
Arguments mkApplied {T V} inserted evicted.
Arguments inserted {T V} a : rename.
Arguments evicted {T V} a : rename.

Section Operations.
Context {T V : Type} `{EqDecision V}.
Implicit Types (b : KBucket T V) (k : Key T) (n : Node T V).

(** Assignments to single fields. *)
Definition set_nodes b (l : list (Node T V)) : KBucket T V :=
  mkBucket l (first_connected_pos b) (pending b) (pending_timeout b) (bucket_filter b) (max_incoming b).
Definition set_first_connected_pos b (p : option nat) : KBucket T V :=
  mkBucket (nodes b) p (pending b) (pending_timeout b) (bucket_filter b) (max_incoming b).
Definition set_pending b (p : option (PendingNode T V)) : KBucket T V :=
  mkBucket (nodes b) (first_connected_pos b) p (pending_timeout b) (bucket_filter b) (max_incoming b).
Definition set_status n (s : NodeStatus) : Node T V := mkNode (key n) (value n) s.
Definition set_value n (v : V) : Node T V := mkNode (key n) v (status n).
Definition set_node (p : PendingNode T V) n : PendingNode T V := mkPending n (replace_at p).

(** [node.status.state = state; if let Some(direction) = direction {..}]. *)
Definition update_node_status n (st : ConnectionState) (dir : option ConnectionDirection) : Node T V :=
  set_status n (mkStatus (default (direction (status n)) dir) st).

Definition new (timeout : Z) (max_inc : nat) (f : option (Filter V)) : KBucket T V :=
  mkBucket [] None None timeout f max_inc.

(** [PendingNode::status] and [PendingNode::set_ready_at]. *)
Definition pending_status (p : PendingNode T V) : NodeStatus := status (node p).
Definition set_ready_at (p : PendingNode T V) (t : Z) : PendingNode T V := mkPending (node p) t.

Definition as_pending b k : option (PendingNode T V) :=
  match pending b with
  | Some p => if Key.eqb (key (node p)) k then Some p else None
  | None => None
  end.

Definition position_of b k : option nat :=
  position (fun p => Key.eqb (key p) k) (nodes b).

Definition get b k : option (Node T V) :=
  find (fun p => Key.eqb (key p) k) (nodes b).

(** [get_mut(key)] and [pending_mut()]: the write [f] that the caller performs
    through the returned reference; [None] when there is nothing to borrow. *)
Definition get_mut b k (f : Node T V -> Node T V) : option (KBucket T V) :=
  pos ← position_of b k;
  n ← nodes b !! pos;
  Some (set_nodes b (<[pos := f n]> (nodes b))).

Definition pending_mut b (f : PendingNode T V -> PendingNode T V) : option (KBucket T V) :=
  match pending b with Some p => Some (set_pending b (Some (f p))) | None => None end.

(** [status(pos)]: the worst status when there is no such position. *)
Definition status_at b (pos : nat) : NodeStatus :=
  match nodes b !! pos with
  | Some n => status n
  | None => mkStatus Incoming Disconnected
  end.

Definition num_entries b : nat := length (nodes b).

(** [first_connected_pos.map_or(0, |i| self.nodes.len() - i)]; the checked
    subtraction aborts on underflow. *)
Definition num_connected b : outcome nat :=
  match first_connected_pos b with
  | None => Ret 0
  | Some i => unwrap (checked_sub (length (nodes b)) i)
  end.

Definition num_disconnected b : outcome nat :=
  c ← num_connected b; unwrap (checked_sub (length (nodes b)) c).

(** A node that counts towards [max_incoming]. *)
Definition counts_incoming n : bool := is_connected (status n) && is_incoming (status n).

Definition is_max_incoming b : bool :=
  bool_decide (max_incoming b <= countb counts_incoming (nodes b)).

(** The custom filter against the current values; no filter passes. *)
Definition passes_filter b (v : V) : bool :=
  match bucket_filter b with
  | Some f => f v (value <$> nodes b)
  | None => true
  end.

Definition update_first_connected_pos_for_removal b (removed_pos : nat) : KBucket T V :=
  set_first_connected_pos b
    (fcp ← first_connected_pos b;
     if decide (removed_pos < fcp) then Some (fcp - 1)
     else if decide (fcp < length (nodes b)) then Some fcp else None).

Definition insert (now : Z) b n : outcome (KBucket T V * InsertResult T) :=
  if decide (is_Some (position_of b (key n))) then Ret (b, NodeExists)
  else if negb (passes_filter b (value n)) then Ret (b, FailedFilter)
  else
    let inserting_pending :=
      match pending b with Some p => Key.eqb (key (node p)) (key n) | None => false end in
    let clear_pending b' := if inserting_pending then set_pending b' None else b' in
    match state (status n) with
    | Connected =>
        if is_incoming (status n) && is_max_incoming b then Ret (b, TooManyIncoming)
        else if is_full MAX_NODES_PER_BUCKET (nodes b) then
          if bool_decide (first_connected_pos b = Some 0) || bool_decide (is_Some (pending b))
          then Ret (b, Full)
          else
            let b' := set_pending b (Some (mkPending n (now + pending_timeout b)%Z)) in
            first ← unwrap (nodes b !! 0);
            Ret (b', Pending (key first))
        else
          let pos := length (nodes b) in
          let fcp := match first_connected_pos b with Some p => Some p | None => Some pos end in
          l ← array_push MAX_NODES_PER_BUCKET (nodes b) n;
          Ret (clear_pending (set_nodes (set_first_connected_pos b fcp) l), Inserted)
    | Disconnected =>
        if is_full MAX_NODES_PER_BUCKET (nodes b) then Ret (b, Full)
        else
          match first_connected_pos b with
          | Some p =>
              l ← array_insert MAX_NODES_PER_BUCKET p n (nodes b);
              Ret (clear_pending (set_nodes (set_first_connected_pos b (Some (p + 1))) l), Inserted)
          | None =>
              l ← array_push MAX_NODES_PER_BUCKET (nodes b) n;
              Ret (clear_pending (set_nodes b l), Inserted)
          end
    end.

Definition apply_pending (now : Z) b : outcome (KBucket T V * option (AppliedPending T V)) :=
  match pending b with
  | None => Ret (b, None)
  | Some p =>
      let b := set_pending b None in
      if Z.leb (replace_at p) now then
        if is_full MAX_NODES_PER_BUCKET (nodes b) then
          first ← unwrap (nodes b !! 0);
          if is_connected (status first) then Ret (b, None)
          else if negb (passes_filter b (value (node p))) then Ret (b, None)
          else if is_connected (pending_status p) && is_incoming (pending_status p) && is_max_incoming b
          then Ret (b, None)
          else
            let ins := key (node p) in
            if is_connected (pending_status p) then
              '(ev, l) ← array_remove 0 (nodes b);
              let fcp := match first_connected_pos b with
                         | None => Some (length l)
                         | Some q => checked_sub q 1
                         end in
              l' ← array_push MAX_NODES_PER_BUCKET l (node p);
              Ret (set_nodes (set_first_connected_pos b fcp) l', Some (mkApplied ins (Some ev)))
            else
              match first_connected_pos b with
              | Some q =>
                  match checked_sub q 1 with
                  | Some insert_pos =>
                      '(ev, l) ← array_remove 0 (nodes b);
                      l' ← array_insert MAX_NODES_PER_BUCKET insert_pos (node p) l;
                      Ret (set_nodes b l', Some (mkApplied ins (Some ev)))
                  | None => Ret (b, None)
                  end
              | None =>
                  '(ev, l) ← array_remove 0 (nodes b);
                  l' ← array_push MAX_NODES_PER_BUCKET l (node p);
                  Ret (set_nodes b l', Some (mkApplied ins (Some ev)))
              end
        else
          let ins := key (node p) in
          '(b', r) ← insert now b (node p);
          match r with
          | Inserted => Ret (b', Some (mkApplied ins None))
          | Full => Panic
          | Pending _ | NodeExists | FailedFilter | TooManyIncoming => Ret (b', None)
          end
      else Ret (set_pending b (Some p), None)
  end.

Definition update_pending b (s : NodeStatus) : KBucket T V :=
  match pending b with
  | Some p => set_pending b (Some (set_node p (set_status (node p) s)))
  | None => b
  end.

Definition update_status (now : Z) b k (st : ConnectionState) (dir : option ConnectionDirection)
    : outcome (KBucket T V * UpdateResult) :=
  match position_of b k with
  | Some pos =>
      '(n, l) ← array_remove pos (nodes b);
      let old_status := status n in
      let n := update_node_status n st dir in
      let not_modified := bool_decide (old_status = status n) in
      let connected := match st with Connected => true | Disconnected => false end in
      let fcp :=
        match state old_status with
        | Connected =>
            if bool_decide (first_connected_pos b = Some pos) && bool_decide (pos = length l)
            then None else first_connected_pos b
        | Disconnected => p ← first_connected_pos b; checked_sub p 1
        end in
      let pend := if bool_decide (pos = 0) && connected then None else pending b in
      '(b', r) ← insert now (set_pending (set_first_connected_pos (set_nodes b l) fcp) pend) n;
      match r with
      | Inserted =>
          if not_modified then Ret (b', NotModified)
          else if negb (is_connected old_status) && connected then Ret (b', UpdatedAndPromoted)
          else Ret (b', Updated)
      | TooManyIncoming => Ret (b', Failed Reason_TooManyIncoming)
      | FailedFilter => Ret (b', Failed Reason_BucketFilter)
      | NodeExists | Full | Pending _ => Panic
      end
  | None =>
      match pending b with
      | Some p =>
          if Key.eqb (key (node p)) k
          then Ret (set_pending b (Some (set_node p (update_node_status (node p) st dir))), UpdatedPending)
          else Ret (b, Failed Reason_KeyNonExistent)
      | None => Ret (b, Failed Reason_KeyNonExistent)
      end
  end.

Definition update_value b k (v : V) : outcome (KBucket T V * UpdateResult) :=
  match position_of b k with
  | Some pos =>
      '(n, l) ← array_remove pos (nodes b);
      if decide (value n = v) then
        l' ← array_insert MAX_NODES_PER_BUCKET pos n l;
        Ret (set_nodes b l', NotModified)
      else
        let b' := set_nodes b l in
        if negb (passes_filter b' v) then
          Ret (update_first_connected_pos_for_removal b' pos, Failed Reason_BucketFilter)
        else
          l' ← array_insert MAX_NODES_PER_BUCKET pos (set_value n v) l;
          Ret (set_nodes b l', Updated)
  | None =>
      match pending b with
      | Some p =>
          if Key.eqb (key (node p)) k
          then Ret (set_pending b (Some (set_node p (set_value (node p) v))), UpdatedPending)
          else Ret (b, Failed Reason_KeyNonExistent)
      | None => Ret (b, Failed Reason_KeyNonExistent)
      end
  end.

Definition remove (now : Z) b k : outcome (KBucket T V * bool) :=
  match position_of b k with
  | Some pos =>
      '(_, l) ← array_remove pos (nodes b);
      '(b', _) ← apply_pending now (update_first_connected_pos_for_removal (set_nodes b l) pos);
      Ret (b', true)
  | None => Ret (b, false)
  end.

End Operations.
End KBucket.

(** ** Entries (src/src/kbucket/entry.rs) *)

Import KBucket.

Module Entry.

Record EntryRef (T V : Type) := mkRef {
  bucket : KBucket T V;
  ref_key : Key T;
}.
Arguments mkRef {T V} bucket ref_key.
Arguments bucket {T V} e : rename.
Arguments ref_key {T V} e : rename.

Inductive Entry (T V : Type) :=
  | Present (e : EntryRef T V) (s : NodeStatus)
  | PendingEntry (e : EntryRef T V) (s : NodeStatus)
  | Absent (e : EntryRef T V)
  | SelfEntry.
Arguments Present {T V} e s.
Arguments PendingEntry {T V} e s.
Arguments Absent {T V} e.
Arguments SelfEntry {T V}.

Section Entry.
Context {T V : Type} `{EqDecision V}.
Implicit Types (b : KBucket T V) (k : Key T) (e : EntryRef T V).

(** [Entry::new]. *)
Definition new b k : Entry T V :=
  match position_of b k with
  | Some pos => Present (mkRef b k) (status_at b pos)
  | None =>
      match as_pending b k with
      | Some p => PendingEntry (mkRef b k) (pending_status p)
      | None => Absent (mkRef b k)
      end
  end.

(** [PresentEntry::value]. *)
Definition present_value e : outcome V :=
  n ← unwrap (get (bucket e) (ref_key e)); Ret (value n).

(** [*entry.value_mut() = v] on a [PresentEntry]. *)
Definition present_value_mut e (v : V) : outcome (KBucket T V) :=
  unwrap (get_mut (bucket e) (ref_key e) (fun n => set_value n v)).

(** [PresentEntry::update]: [inl] is the entry after the update, [inr] the
    bucket after a failed update and the reason. *)
Definition present_update (now : Z) e (st : ConnectionState) (dir : option ConnectionDirection)
    : outcome (EntryRef T V + KBucket T V * FailureReason) :=
  '(b, r) ← update_status now (bucket e) (ref_key e) st dir;
  match r with
  | Failed reason => Ret (inr (b, reason))
  | UpdatedAndPromoted | Updated | UpdatedPending | NotModified => Ret (inl (mkRef b (ref_key e)))
  end.

(** [PresentEntry::remove] and [PendingEntry::remove]. *)
Definition entry_remove (now : Z) e : outcome (KBucket T V) :=
  '(b, _) ← remove now (bucket e) (ref_key e); Ret b.

(** [*entry.value() = v] on a [PendingEntry]. *)
Definition pending_value e (v : V) : outcome (KBucket T V) :=
  unwrap (pending_mut (bucket e) (fun p => set_node p (set_value (node p) v))).

(** [PendingEntry::update]. *)
Definition pending_update e (s : NodeStatus) : EntryRef T V :=
  mkRef (update_pending (bucket e) s) (ref_key e).

(** [AbsentEntry::insert]. *)
Definition absent_insert (now : Z) e (v : V) (s : NodeStatus)
    : outcome (KBucket T V * InsertResult T) :=
  insert now (bucket e) (mkNode (ref_key e) v s).

End Entry.
End Entry.
