(* ===== verification/BucketProofs.v ===== *)
(** * The k-bucket implements its specification

    Well-formedness of the abstract bucket is preserved by every abstract
    operation, and every [KBucket] method simulates its abstract counterpart
    without panicking. *)

From S2P Require Import Prelude Bytes Key Bucket BucketSpec.
Import KBucket BucketSpec.

Section Wf.
Context {T V : Type} `{EqDecision V}.
Implicit Types (s : SBucket T V) (n : Node T V) (k : Key T).

(** ** The abstract queues *)

Lemma keys_app (l1 l2 : list (Node T V)) : keys (l1 ++ l2) = keys l1 ++ keys l2.
Proof. apply fmap_app. Qed.

Lemma extract_Some k (l l' : list (Node T V)) n :
  extract k l = Some (n, l') <->
  exists l1 l2, l = l1 ++ n :: l2 /\ l' = l1 ++ l2 /\ Key.hash (key n) = Key.hash k /\
                Forall (fun m => Key.eqb (key m) k = false) l1.
Proof.
  revert l'; induction l as [|m l IH]; intros l'; simpl.
  - split; [done|]. intros (l1 & l2 & Hl & _). by destruct l1.
  - destruct (Key.eqb (key m) k) eqn:E.
    + split.
      * intros [= -> ->]. exists [], l'. repeat split; auto. by apply Key.eqb_true.
      * intros ([|m' l1] & l2 & Hl & -> & Hk & Hall); simplify_eq/=; [done|].
        apply Forall_cons in Hall as [Hm _]. congruence.
    + split.
      * destruct (extract k l) as [[n0 l0]|] eqn:El; simpl; [|done]. intros [= -> <-].
        destruct (proj1 (IH l0) eq_refl) as (l1 & l2 & -> & -> & Hk & Hall).
        exists (m :: l1), l2. repeat split; auto.
      * intros ([|m' l1] & l2 & Hl & -> & Hk & Hall); simplify_eq/=.
        { apply Key.eqb_false in E. congruence. }
        apply Forall_cons in Hall as [_ Hall].
        assert (extract k (l1 ++ n :: l2) = Some (n, l1 ++ l2)) as ->; [|done].
        apply IH. by exists l1, l2.
Qed.

Lemma extract_None k (l : list (Node T V)) :
  extract k l = None <-> Forall (fun m => Key.eqb (key m) k = false) l.
Proof.
  induction l as [|m l IH]; simpl; [split; auto|].
  rewrite Forall_cons, <-IH.
  destruct (Key.eqb (key m) k); [naive_solver|].
  destruct (extract k l) as [[]|]; naive_solver.
Qed.

Lemma not_in_keys k (l : list (Node T V)) :
  Key.hash k ∉ keys l <-> Forall (fun m => Key.eqb (key m) k = false) l.
Proof.
  induction l as [|m l IH]; csimpl; [split; [auto|intros _; set_solver]|].
  rewrite not_elem_of_cons, Forall_cons, IH, Key.eqb_false. naive_solver.
Qed.

(** ** Well-formedness *)

Lemma wf_with_slot_None s : wf s -> wf (with_slot s None).
Proof. intros []. by constructor. Qed.

Lemma wf_with_slot s p :
  wf s -> Key.hash (key (node p)) ∉ keys (all s) -> wf (with_slot s (Some p)).
Proof. intros [] Hp. constructor; simpl; try done. by intros ? [= <-]. Qed.

Lemma wf_shrink s ds cs :
  wf s -> ds `sublist_of` disc s -> cs `sublist_of` conn s -> wf (with_queues s ds cs).
Proof.
  intros [Hd Hc Hsz Hnd Hinc Hslot] Hds Hcs.
  assert (all (with_queues s ds cs) `sublist_of` all s) as Hall by by apply sublist_app.
  assert (keys (all (with_queues s ds cs)) `sublist_of` keys (all s)) as Hkeys
    by by apply fmap_sublist.
  constructor; simpl.
  - by eapply Forall_sublist.
  - by eapply Forall_sublist.
  - apply sublist_length in Hall. lia.
  - by eapply sublist_NoDup.
  - pose proof (countb_sublist counts_incoming _ _ Hcs). lia.
  - intros p Hp Hin. apply (Hslot p Hp). by eapply elem_of_sublist.
Qed.

Lemma wf_append s n :
  wf s -> length (all s) < MAX_NODES_PER_BUCKET ->
  Key.hash (key n) ∉ keys (all s) -> incoming_full s n = false ->
  (forall p, slot s = Some p -> Key.hash (key (node p)) <> Key.hash (key n)) ->
  wf (append s n).
Proof.
  intros [Hd Hc Hsz Hnd Hinc Hslot] Hlt Hn Hfull Hp.
  assert (all (append s n) ≡ₚ n :: all s) as Hperm.
  { unfold append, all. destruct (is_connected (status n)); simpl.
    - by rewrite app_assoc, Permutation_app_comm.
    - rewrite <-app_assoc. simpl. by rewrite <-Permutation_middle. }
  assert (keys (all (append s n)) ≡ₚ Key.hash (key n) :: keys (all s)) as Hkeys.
  { unfold keys at 1. by rewrite Hperm. }
  assert (slot (append s n) = slot s /\ limit (append s n) = limit s) as [Es El]
    by (unfold append; by destruct (is_connected (status n))).
  constructor.
  - unfold append. destruct (is_connected (status n)) eqn:E; simpl; [done|].
    apply Forall_app. auto.
  - unfold append. destruct (is_connected (status n)) eqn:E; simpl; [|done].
    apply Forall_app. auto.
  - rewrite Hperm. simpl. lia.
  - rewrite Hkeys. by constructor.
  - rewrite El. unfold append, incoming_full in *.
    destruct (is_connected (status n)) eqn:E; simpl; [|done].
    rewrite countb_app. simpl. destruct (counts_incoming n); simpl in *; [|lia].
    case_bool_decide; [done|lia].
  - intros p. rewrite Es, Hkeys, not_elem_of_cons. intros Hp'. auto.
Qed.

Lemma wf_drop_slot_of s k : wf s -> wf (drop_slot_of s k).
Proof. intros Hwf. unfold drop_slot_of. split_cases; auto using wf_with_slot_None. Qed.

Lemma drop_slot_of_slot s k p :
  slot (drop_slot_of s k) = Some p -> Key.hash (key (node p)) <> Key.hash k.
Proof.
  unfold drop_slot_of. destruct (slot s) as [q|] eqn:E; [|congruence].
  destruct (Key.eqb (key (node q)) k) eqn:Ek; simpl; [done|].
  rewrite E. intros [= <-]. by apply Key.eqb_false.
Qed.

Lemma all_drop_slot_of s k : all (drop_slot_of s k) = all s.
Proof. unfold drop_slot_of. by split_cases. Qed.

Lemma incoming_full_drop_slot_of s k n :
  incoming_full (drop_slot_of s k) n = incoming_full s n.
Proof. unfold drop_slot_of. by split_cases. Qed.

Lemma member_false s k : member s k = false <-> Key.hash k ∉ keys (all s).
Proof. unfold member. by rewrite bool_decide_eq_false. Qed.

Lemma full_false s : wf s -> full s = false -> length (all s) < MAX_NODES_PER_BUCKET.
Proof. intros [] Hf. unfold full in Hf. apply bool_decide_eq_false in Hf. lia. Qed.

Lemma wf_spec_insert now s n : wf s -> wf (fst (spec_insert now s n)).
Proof.
  intros Hwf. unfold spec_insert.
  destruct (member s (key n)) eqn:Em; [done|]. apply member_false in Em.
  destruct (negb (admits s (value n))); [done|].
  destruct (incoming_full s n) eqn:Ei; [done|].
  destruct (full s) eqn:Ef.
  - destruct (is_connected (status n)), (disc s), (slot s) eqn:Es; simpl; try done.
    by apply wf_with_slot.
  - simpl. apply wf_append; rewrite ?all_drop_slot_of, ?incoming_full_drop_slot_of;
      eauto using wf_drop_slot_of, full_false, drop_slot_of_slot.
Qed.

Lemma sublist_tail_disc s n ds : disc s = n :: ds -> ds `sublist_of` disc s.
Proof. intros ->. by apply sublist_cons. Qed.

Lemma wf_spec_apply_pending now s : wf s -> wf (fst (spec_apply_pending now s)).
Proof.
  intros Hwf. unfold spec_apply_pending. destruct (slot s) as [p|] eqn:Es; [|done].
  destruct (Z.leb (replace_at p) now); [|done].
  pose proof (wf_slot s Hwf p Es) as Hp.
  pose proof (wf_with_slot_None s Hwf) as Hwf0.
  destruct (negb (admits s (value (node p)))); [done|]. simpl.
  destruct (incoming_full s (node p)) eqn:Ei; [done|].
  destruct (full s) eqn:Ef.
  - destruct (disc s) as [|old ds] eqn:Ed; simpl; [done|].
    assert (wf (with_queues (with_slot s None) ds (conn s))) as Hwf1
      by (apply wf_shrink; simpl; eauto using sublist_tail_disc).
    apply wf_append; auto; simpl.
    + apply bool_decide_eq_true in Ef. unfold all in *. rewrite Ed in Ef. simpl in *. lia.
    + unfold all in Hp. rewrite Ed in Hp. unfold all. simpl in *. set_solver.
  - simpl. apply wf_append; simpl; auto using full_false.
Qed.

Lemma extract_sublist k (l l' : list (Node T V)) n :
  extract k l = Some (n, l') -> l' `sublist_of` l.
Proof.
  intros (l1 & l2 & -> & -> & _)%extract_Some. apply sublist_app; [done|].
  by apply sublist_cons.
Qed.

(** The state left when [n] has been taken out: there is room to put it back. *)
Record room_for s n : Prop := mkRoom {
  room_wf : wf s;
  room_size : length (all s) < MAX_NODES_PER_BUCKET;
  room_key : Key.hash (key n) ∉ keys (all s);
  room_slot : forall p, slot s = Some p -> Key.hash (key (node p)) <> Key.hash (key n);
}.

Lemma room_middle s n ds cs l1 l2 :
  wf s -> ds `sublist_of` disc s -> cs `sublist_of` conn s ->
  all s = l1 ++ n :: l2 -> ds ++ cs = l1 ++ l2 -> room_for (with_queues s ds cs) n.
Proof.
  intros Hwf Hds Hcs Hall Hrest.
  pose proof (wf_shrink s ds cs Hwf Hds Hcs) as Hwf'.
  destruct Hwf as [_ _ Hsz Hnd _ Hslot]. rewrite Hall, keys_app in Hnd, Hslot.
  rewrite Hall in Hsz. rewrite length_app in Hsz. csimpl in *.
  assert (all (with_queues s ds cs) = l1 ++ l2) as Hall' by done.
  constructor; rewrite ?Hall', ?keys_app, ?length_app; auto.
  - lia.
  - apply NoDup_app in Hnd as (_ & Hnd1 & Hnd2). apply NoDup_cons in Hnd2. set_solver.
  - intros p Hp. specialize (Hslot p Hp). set_solver.
Qed.

Lemma room_detach s k n s' : wf s -> detach s k = Some (n, s') -> room_for s' n.
Proof.
  intros Hwf. unfold detach.
  destruct (extract k (disc s)) as [[m ds]|] eqn:Ed.
  - intros [= <- <-]. pose proof (extract_sublist _ _ _ _ Ed) as Hs.
    apply extract_Some in Ed as (l1 & l2 & Hd & -> & _).
    eapply room_middle with l1 (l2 ++ conn s); auto; unfold all; rewrite ?Hd; by rewrite <-app_assoc.
  - destruct (extract k (conn s)) as [[m cs]|] eqn:Ec; [|done].
    intros [= <- <-]. pose proof (extract_sublist _ _ _ _ Ec) as Hs.
    apply extract_Some in Ec as (l1 & l2 & Hc & -> & _).
    eapply room_middle with (disc s ++ l1) l2; auto; unfold all; rewrite ?Hc; by rewrite <-app_assoc.
Qed.

Lemma wf_spec_remove now s k : wf s -> wf (fst (spec_remove now s k)).
Proof.
  intros Hwf. unfold spec_remove. destruct (detach s k) as [[n s']|] eqn:Ed; [|done].
  eapply wf_spec_apply_pending, room_wf, room_detach; eauto.
Qed.

Lemma wf_change_slot s k f :
  wf s -> (forall n, key (f n) = key n) -> wf (fst (change_slot s k f)).
Proof.
  intros Hwf Hf. unfold change_slot. destruct (slot s) as [p|] eqn:Es; [|done].
  destruct (Key.eqb _ _); [|done]. simpl. apply wf_with_slot; [done|]. simpl.
  rewrite Hf. by apply (wf_slot s Hwf p).
Qed.

Lemma wf_spec_update_pending s st : wf s -> wf (spec_update_pending s st).
Proof.
  intros Hwf. unfold spec_update_pending. destruct (slot s) as [p|] eqn:Es; [|done].
  apply wf_with_slot; [done|]. exact (wf_slot s Hwf p Es).
Qed.

Lemma wf_spec_update_status s k st dir : wf s -> wf (fst (spec_update_status s k st dir)).
Proof.
  intros Hwf. unfold spec_update_status.
  destruct (detach s k) as [[n s']|] eqn:Ed; [|by apply wf_change_slot].
  destruct (room_detach s k n s' Hwf Ed) as [Hwf' Hsz Hk Hp]. unfold reinsert.
  set (n' := update_node_status n st dir).
  set (b := is_oldest s k && is_connected (status n')).
  assert (wf (if b then with_slot s' None else s')) as Hwf2
    by (destruct b; auto using wf_with_slot_None).
  destruct (negb _); [done|]. destruct (incoming_full _ _) eqn:Ei; [done|].
  apply wf_append; auto; destruct b; simpl; auto; done.
Qed.

Lemma wf_revalue s k v :
  wf s -> wf (with_queues s (revalue k v (disc s)) (revalue k v (conn s))).
Proof.
  intros [Hd Hc Hsz Hnd Hinc Hslot].
  assert (forall n, status (if Key.eqb (key n) k then set_value n v else n) = status n) as Hst
    by (intros n; by destruct (Key.eqb (key n) k)).
  assert (keys (revalue k v (disc s) ++ revalue k v (conn s)) = keys (all s)) as Hk.
  { unfold all, revalue, keys. rewrite <-fmap_app, <-list_fmap_compose. apply list_fmap_ext.
    intros i n _. simpl. by destruct (Key.eqb (key n) k). }
  constructor; unfold all; simpl; rewrite ?Hk; auto.
  - unfold revalue. apply Forall_fmap. eapply Forall_impl; [done|]. intros n. simpl. by rewrite Hst.
  - unfold revalue. apply Forall_fmap. eapply Forall_impl; [done|]. intros n. simpl. by rewrite Hst.
  - unfold revalue. by rewrite <-fmap_app, length_fmap.
  - unfold revalue. rewrite countb_fmap. erewrite countb_ext; [done|].
    intros n. unfold counts_incoming. by rewrite Hst.
Qed.

Lemma wf_spec_update_value s k v : wf s -> wf (fst (spec_update_value s k v)).
Proof.
  intros Hwf. unfold spec_update_value.
  destruct (detach s k) as [[n s']|] eqn:Ed; [|by apply wf_change_slot].
  destruct (decide _); [done|]. destruct (negb _); simpl.
  - eapply room_wf, room_detach; eauto.
  - by apply wf_revalue.
Qed.
End Wf.

#[export] Hint Resolve wf_spec_insert wf_spec_apply_pending wf_spec_remove
  wf_spec_update_pending wf_spec_update_status wf_spec_update_value
  wf_with_slot_None : discv5.
