(* ===== verification/BucketRefine.v ===== *)
(** * Refinement of the abstract bucket by [KBucket]

    The forward simulation: each method on the array layout of a well-formed
    abstract bucket returns (no panic) the layout of the abstract result and
    the abstract answer. *)

From S2P Require Import Prelude Bytes Key Bucket BucketSpec BucketProofs.
Import KBucket BucketSpec.

Section Simulation.
Context {T V : Type} `{EqDecision V}.
Implicit Types (s : SBucket T V) (n : Node T V) (k : Key T).

Lemma detach_cases s k :
  (position_of (concrete s) k = None /\ detach s k = None /\ Key.hash k ∉ keys (all s)) \/
  (exists d1 n d2, disc s = d1 ++ n :: d2 /\ position_of (concrete s) k = Some (length d1) /\
     detach s k = Some (n, with_queues s (d1 ++ d2) (conn s)) /\
     Key.hash (key n) = Key.hash k /\ is_oldest s k = bool_decide (length d1 = 0)) \/
  (exists c1 n c2, conn s = c1 ++ n :: c2 /\
     position_of (concrete s) k = Some (length (disc s) + length c1) /\
     detach s k = Some (n, with_queues s (disc s) (c1 ++ c2)) /\
     Key.hash (key n) = Key.hash k /\
     is_oldest s k = bool_decide (length (disc s) + length c1 = 0)).
Proof.
  assert (forall l1 n l2, all s = l1 ++ n :: l2 -> Key.hash (key n) = Key.hash k ->
    Forall (fun m => Key.eqb (key m) k = false) l1 ->
    position_of (concrete s) k = Some (length l1) /\
    is_oldest s k = bool_decide (length l1 = 0)) as Hpos.
  { intros l1 n l2 Hall Hk Hl1. split.
    - apply position_Some. exists l1, n, l2. split_and!; auto. by apply Key.eqb_true.
    - unfold is_oldest. rewrite Hall. destruct l1 as [|m l1]; simpl.
      + by apply Key.eqb_true.
      + by apply Forall_cons in Hl1 as [-> _]. }
  unfold detach. destruct (extract k (disc s)) as [[n ds]|] eqn:Ed.
  - right; left. apply extract_Some in Ed as (d1 & d2 & Hd & -> & Hk & Hall).
    destruct (Hpos d1 n (d2 ++ conn s)) as [? ?]; auto.
    { unfold all. by rewrite Hd, <-app_assoc. }
    by exists d1, n, d2.
  - destruct (extract k (conn s)) as [[n cs]|] eqn:Ec.
    + right; right. apply extract_Some in Ec as (c1 & c2 & Hc & -> & Hk & Hall).
      apply extract_None in Ed.
      destruct (Hpos (disc s ++ c1) n c2) as [Hp Ho]; auto.
      { unfold all. by rewrite Hc, <-app_assoc. }
      { by apply Forall_app. }
      rewrite length_app in Hp, Ho. by exists c1, n, c2.
    + left. apply extract_None in Ed. apply extract_None in Ec.
      assert (Forall (fun m => Key.eqb (key m) k = false) (all s)) as Hall by by apply Forall_app.
      split_and!; auto; [by apply position_None|by apply not_in_keys].
Qed.

Lemma detach_sub s k n s' :
  detach s k = Some (n, s') ->
  all s' `sublist_of` all s /\ n ∈ all s /\ slot s' = slot s /\ sfilter s' = sfilter s.
Proof.
  unfold detach. intros Hd.
  destruct (extract k (disc s)) as [[m ds]|] eqn:E1;
    [|destruct (extract k (conn s)) as [[m cs]|] eqn:E2; [|done]]; simplify_eq.
  - pose proof (extract_sublist _ _ _ _ E1). apply extract_Some in E1 as (l1 & l2 & Hl & _).
    split_and!; auto; [by apply sublist_app|]. unfold all. rewrite Hl. set_solver.
  - pose proof (extract_sublist _ _ _ _ E2). apply extract_Some in E2 as (l1 & l2 & Hl & _).
    split_and!; auto; [by apply sublist_app|]. unfold all. rewrite Hl. set_solver.
Qed.

Lemma detach_hash s k n s' : detach s k = Some (n, s') -> Key.hash (key n) = Key.hash k.
Proof.
  intros Hd. destruct (detach_cases s k) as [(_ & Hn & _)|[(d1 & m & d2 & _ & _ & Hm & Hk & _)|
    (c1 & m & c2 & Hc)]]; [congruence|congruence|].
  destruct_and!. congruence.
Qed.

Lemma position_member s k :
  bool_decide (is_Some (position_of (concrete s) k)) = member s k.
Proof.
  unfold member. apply bool_decide_ext.
  destruct (position_of (concrete s) k) as [i|] eqn:Ep.
  - split; [intros _|eauto]. destruct (decide (Key.hash k ∈ keys (all s))) as [?|Hn]; [done|].
    apply not_in_keys in Hn. apply position_None in Hn. unfold position_of in Ep. simpl in Ep. congruence.
  - apply position_None in Ep. apply not_in_keys in Ep. split; [intros []; congruence|done].
Qed.

Lemma countb_all s : wf s -> countb counts_incoming (all s) = countb counts_incoming (conn s).
Proof.
  intros [Hd _ _ _ _ _]. unfold all. rewrite countb_app, countb_Forall_false; [done|].
  eapply Forall_impl; [done|]. intros n Hn. unfold counts_incoming. by rewrite Hn.
Qed.

Lemma is_max_incoming_concrete s n :
  wf s -> is_connected (status n) = true ->
  is_incoming (status n) && is_max_incoming (concrete s) = incoming_full s n.
Proof.
  intros Hwf Hc. unfold is_max_incoming, incoming_full, counts_incoming. simpl.
  by rewrite Hc, countb_all.
Qed.

Lemma incoming_full_disconnected s n : is_connected (status n) = false -> incoming_full s n = false.
Proof. intros Hc. unfold incoming_full, counts_incoming. by rewrite Hc. Qed.

Lemma is_connected_state st :
  is_connected st = match state st with Connected => true | Disconnected => false end.
Proof. done. Qed.

(** Pushing on the layout is appending to the queue. *)
Lemma concrete_append s n :
  concrete (append s n) =
  (if is_connected (status n)
   then set_nodes (set_first_connected_pos (concrete s)
          (match first_connected_pos (concrete s) with
           | Some p => Some p | None => Some (length (all s)) end)) (all s ++ [n])
   else match first_connected_pos (concrete s) with
        | Some p => set_nodes (set_first_connected_pos (concrete s) (Some (p + 1)))
                      (insert_at p n (all s))
        | None => set_nodes (concrete s) (all s ++ [n])
        end).
Proof.
  unfold append, concrete, all, set_nodes, set_first_connected_pos; simpl.
  destruct (is_connected (status n)); simpl.
  - rewrite app_assoc. f_equal. destruct (conn s); simpl; [|done]. by rewrite app_nil_r.
  - destruct (conn s) as [|c cs]; simpl.
    + by rewrite !app_nil_r.
    + rewrite insert_at_length, <-app_assoc, length_app. done.
Qed.

Lemma fcp_zero s : bool_decide (first_connected_pos (concrete s) = Some 0) =
  match disc s, conn s with [], _ :: _ => true | _, _ => false end.
Proof. unfold concrete; simpl. by destruct (disc s), (conn s). Qed.

Lemma concrete_drop_slot_of s k :
  concrete (drop_slot_of s k) =
  (if match slot s with Some p => Key.eqb (key (node p)) k | None => false end
   then set_pending (concrete s) None else concrete s).
Proof. unfold drop_slot_of. destruct (slot s) as [p|]; [|done]. by destruct (Key.eqb _ _). Qed.

Lemma slot_append s n : slot (append s n) = slot s.
Proof. unfold append. by destruct (is_connected _). Qed.

Lemma set_pending_concrete s p : set_pending (concrete s) p = concrete (with_slot s p).
Proof. done. Qed.

Lemma with_slot_append s n p : with_slot (append s n) p = append (with_slot s p) n.
Proof. unfold append. by destruct (is_connected _). Qed.

Lemma sim_insert now s n :
  wf s ->
  insert now (concrete s) n =
  Ret (concrete (fst (spec_insert now s n)), snd (spec_insert now s n)).
Proof.
  intros Hwf. unfold insert, spec_insert.
  rewrite <-position_member.
  destruct (decide (is_Some (position_of (concrete s) (key n)))) as [Hm|Hm];
    [by rewrite (bool_decide_eq_true_2 _ Hm)|rewrite (bool_decide_eq_false_2 _ Hm)].
  change (passes_filter (concrete s) (value n)) with (admits s (value n)).
  destruct (negb (admits s (value n))); [done|].
  change (is_full MAX_NODES_PER_BUCKET (nodes (concrete s))) with (full s).
  change (pending (concrete s)) with (slot s).
  set (clr := match slot s with Some p => Key.eqb (key (node p)) (key n) | None => false end).
  assert (concrete (append (drop_slot_of s (key n)) n) =
          (if clr then set_pending (concrete (append s n)) None else concrete (append s n))) as Hclr.
  { unfold drop_slot_of, clr. destruct (slot s) as [p|] eqn:Es; [|done].
    destruct (Key.eqb _ _); [|done]. by rewrite set_pending_concrete, with_slot_append. }
  rewrite (concrete_append s n) in Hclr.
  pose proof (is_connected_state (status n)) as Hst.
  destruct (state (status n)) eqn:Est.
  - rewrite is_max_incoming_concrete by done.
    destruct (incoming_full s n); [done|].
    destruct (full s) eqn:Ef.
    + rewrite fcp_zero. rewrite Hst.
      apply bool_decide_eq_true in Ef.
      destruct (disc s) as [|old ds] eqn:Ed.
      { unfold all in Ef. rewrite Ed in Ef. destruct (conn s); [done|]. by destruct (slot s). }
      destruct (slot s) as [p|] eqn:Es; [by destruct (conn s)|].
      assert (nodes (concrete s) !! 0 = Some old) as -> by (simpl; unfold all; by rewrite Ed).
      rewrite set_pending_concrete. by destruct (conn s).
    + unfold array_push. rewrite decide_True by (by apply full_false).
      cbn [fst snd]. by rewrite Hclr, Hst.
  - rewrite incoming_full_disconnected by done. rewrite Hst.
    destruct (full s) eqn:Ef; [done|].
    pose proof (full_false s Hwf Ef) as Hlt. rewrite Hst in Hclr.
    destruct (first_connected_pos (concrete s)) as [p|] eqn:Ep; simpl; rewrite Hclr.
    + unfold array_insert. rewrite decide_True; [done|].
      split; [|done]. unfold concrete in Ep. simpl in *. unfold all. rewrite length_app.
      destruct (conn s); simplify_eq. lia.
    + unfold array_push. by rewrite decide_True.
Qed.

Lemma with_slot_id s : with_slot s (slot s) = s.
Proof. by destruct s. Qed.

(** Eviction on the layout: the head goes and the new node joins its queue. *)
Lemma sim_evict s n old ds :
  wf s -> disc s = old :: ds -> full s = true ->
  (if is_connected (status n) then
     '(ev, l) ← array_remove 0 (nodes (concrete s));
     let fcp := match first_connected_pos (concrete s) with
                | None => Some (length l) | Some q => checked_sub q 1 end in
     l' ← array_push MAX_NODES_PER_BUCKET l n;
     Ret (set_nodes (set_first_connected_pos (concrete s) fcp) l',
          Some (mkApplied (key n) (Some ev)))
   else
     match first_connected_pos (concrete s) with
     | Some q =>
         match checked_sub q 1 with
         | Some insert_pos =>
             '(ev, l) ← array_remove 0 (nodes (concrete s));
             l' ← array_insert MAX_NODES_PER_BUCKET insert_pos n l;
             Ret (set_nodes (concrete s) l', Some (mkApplied (key n) (Some ev)))
         | None => Ret (concrete s, None)
         end
     | None =>
         '(ev, l) ← array_remove 0 (nodes (concrete s));
         l' ← array_push MAX_NODES_PER_BUCKET l n;
         Ret (set_nodes (concrete s) l', Some (mkApplied (key n) (Some ev)))
     end) =
  Ret (concrete (append (with_queues s ds (conn s)) n), Some (mkApplied (key n) (Some old))).
Proof.
  intros Hwf Hd Hf. apply bool_decide_eq_true in Hf.
  assert (length (ds ++ conn s) < MAX_NODES_PER_BUCKET) as Hlt
    by (unfold all in Hf; rewrite Hd in Hf; simpl in Hf; lia).
  unfold concrete, append, array_remove, array_push, array_insert, all.
  rewrite Hd. simpl. destruct (is_connected (status n)); simpl.
  - rewrite decide_True by done. simpl. rewrite app_assoc.
    by destruct (conn s); simpl; rewrite ?checked_sub_S, ?app_nil_r.
  - destruct (conn s) as [|c cs]; simpl.
    + rewrite decide_True by done. simpl. by rewrite !app_nil_r.
    + rewrite Nat.sub_0_r, decide_True by (rewrite length_app in *; simpl in *; lia). simpl.
      rewrite insert_at_length, <-app_assoc, length_app. simpl.
      unfold set_nodes; simpl. by rewrite Nat.add_comm.
Qed.

Lemma spec_insert_room now s n :
  room_for s n ->
  spec_insert now s n =
  if negb (admits s (value n)) then (s, FailedFilter)
  else if incoming_full s n then (s, TooManyIncoming) else (append s n, Inserted).
Proof.
  intros [Hwf Hsz Hk Hp]. unfold spec_insert.
  rewrite (proj2 (member_false s (key n)) Hk).
  destruct (negb _); [done|]. destruct (incoming_full s n); [done|].
  assert (full s = false) as -> by (apply bool_decide_eq_false; lia).
  unfold drop_slot_of. destruct (slot s) as [p|] eqn:Es; [|done].
  by rewrite (proj2 (Key.eqb_false _ _) (Hp p eq_refl)).
Qed.

Lemma sim_apply_pending now s :
  wf s ->
  apply_pending now (concrete s) =
  Ret (concrete (fst (spec_apply_pending now s)), snd (spec_apply_pending now s)).
Proof.
  intros Hwf. unfold apply_pending, spec_apply_pending.
  change (pending (concrete s)) with (slot s). destruct (slot s) as [p|] eqn:Es; [|done].
  rewrite !set_pending_concrete. set (s0 := with_slot s None).
  assert (wf s0) as Hwf0 by by apply wf_with_slot_None.
  destruct (Z.leb (replace_at p) now).
  2:{ change (with_slot s0 (Some p)) with (with_slot s (Some p)). by rewrite <-Es, with_slot_id. }
  change (is_full MAX_NODES_PER_BUCKET (nodes (concrete s0))) with (full s).
  unfold pending_status.
  assert (is_connected (status (node p)) && is_incoming (status (node p)) &&
            is_max_incoming (concrete s0) = incoming_full s (node p)) as Hinc.
  { destruct (is_connected (status (node p))) eqn:E; simpl.
    - by apply (is_max_incoming_concrete s0).
    - by rewrite incoming_full_disconnected. }
  destruct (full s) eqn:Ef.
  - change (passes_filter (concrete s0) (value (node p))) with (admits s (value (node p))).
    rewrite Hinc. pose proof Ef as Ef'. apply bool_decide_eq_true in Ef'.
    destruct (disc s) as [|old ds] eqn:Ed.
    + assert (exists c cs, conn s = c :: cs /\ is_connected (status c) = true) as (c & cs & Hc & Hcc).
      { pose proof (wf_conn s Hwf) as Hall. unfold all in Ef'. rewrite Ed in Ef'.
        destruct (conn s) as [|c cs]; [done|]. apply Forall_cons in Hall as [? _]. eauto. }
      assert (nodes (concrete s0) !! 0 = Some c) as -> by (simpl; unfold all; simpl; by rewrite Ed, Hc).
      simpl. rewrite Hcc. by destruct (negb _ || _).
    + assert (nodes (concrete s0) !! 0 = Some old) as -> by (simpl; unfold all; simpl; by rewrite Ed).
      pose proof (wf_disc s Hwf) as Hall. rewrite Ed in Hall.
      apply Forall_cons in Hall as [Hold _].
      cbn [unwrap mbind outcome_bind]. rewrite Hold.
      destruct (negb _); [done|]. simpl. destruct (incoming_full s (node p)); [done|].
      exact (sim_evict s0 (node p) old ds Hwf0 Ed Ef).
  - rewrite sim_insert by done. rewrite spec_insert_room.
    2:{ constructor; simpl; [done|by apply full_false|by apply (wf_slot s Hwf)|done]. }
    change (admits s0 (value (node p))) with (admits s (value (node p))).
    change (incoming_full s0 (node p)) with (incoming_full s (node p)).
    destruct (negb _); [done|]. simpl. by destruct (incoming_full s (node p)).
Qed.

Lemma array_remove_middle {A} (l1 l2 : list A) (x : A) :
  array_remove (length l1) (l1 ++ x :: l2) = Ret (x, l1 ++ l2).
Proof. unfold array_remove. by rewrite list_lookup_middle, delete_middle. Qed.

(** Taking a member out of the layout, with the index fixed up as
    [update_status] and [update_first_connected_pos_for_removal] do. *)
Lemma sim_detach s k n s' pos :
  wf s -> detach s k = Some (n, s') -> position_of (concrete s) k = Some pos ->
  array_remove pos (all s) = Ret (n, all s') /\
  is_oldest s k = bool_decide (pos = 0) /\
  match state (status n) with
  | Connected =>
      if bool_decide (first_connected_pos (concrete s) = Some pos) && bool_decide (pos = length (all s'))
      then None else first_connected_pos (concrete s)
  | Disconnected => p ← first_connected_pos (concrete s); checked_sub p 1
  end = first_connected_pos (concrete s') /\
  update_first_connected_pos_for_removal (set_nodes (concrete s) (all s')) pos = concrete s'.
Proof.
  intros Hwf Hd Hp.
  destruct (detach_cases s k) as
    [(Hp' & _)|[(d1 & m & d2 & Hdisc & Hp' & Hd' & _ & Ho)|(c1 & m & c2 & Hconn & Hp' & Hd' & _ & Ho)]];
    [congruence|rewrite Hd' in Hd; rewrite Hp' in Hp; simplify_eq..].
  - pose proof (wf_disc s Hwf) as Hall. rewrite Hdisc, Forall_app, Forall_cons in Hall.
    destruct Hall as (_ & Hm & _).
    assert (all s = d1 ++ n :: (d2 ++ conn s)) as Has by (unfold all; by rewrite Hdisc, <-app_assoc).
    assert (all (with_queues s (d1 ++ d2) (conn s)) = d1 ++ (d2 ++ conn s)) as Has'
      by (unfold all; simpl; by rewrite <-app_assoc).
    split_and!; [by rewrite Has, Has'; apply array_remove_middle|done|..].
    + unfold is_connected in Hm. destruct (state (status n)); [done|].
      simpl. rewrite Hdisc. destruct (conn s); simpl; [done|].
      rewrite !length_app; cbn [length]. by rewrite Nat.add_succ_r, checked_sub_S.
    + unfold update_first_connected_pos_for_removal, concrete, set_nodes, set_first_connected_pos; simpl.
      f_equal. rewrite Hdisc. destruct (conn s); simpl; [done|].
      rewrite decide_True by (rewrite length_app; simpl; lia).
      f_equal. rewrite !length_app. simpl. lia.
  - pose proof (wf_conn s Hwf) as Hall. rewrite Hconn, Forall_app, Forall_cons in Hall.
    destruct Hall as (_ & Hm & _).
    assert (all s = (disc s ++ c1) ++ n :: c2) as Has by (unfold all; by rewrite Hconn, <-app_assoc).
    assert (all (with_queues s (disc s) (c1 ++ c2)) = (disc s ++ c1) ++ c2) as Has'
      by (unfold all; simpl; by rewrite <-app_assoc).
    rewrite <-length_app in *.
    split_and!; [by rewrite Has, Has'; apply array_remove_middle|done|..].
    + unfold is_connected in Hm. destruct (state (status n)); [|done].
      simpl. rewrite Hconn, Has', !length_app.
      destruct c1 as [|c c1], c2 as [|c' c2]; simpl; rewrite ?Nat.add_0_r;
        repeat case_bool_decide; simplify_eq/=; try done; lia.
    + unfold update_first_connected_pos_for_removal, concrete, set_nodes, set_first_connected_pos; simpl.
      f_equal. rewrite Hconn, Has', !length_app.
      destruct c1 as [|c c1], c2 as [|c' c2]; simpl; repeat case_decide; try done; lia.
Qed.

Lemma sim_change_slot s k f :
  Ret (concrete (fst (change_slot s k f)), snd (change_slot s k f)) =
  match pending (concrete s) with
  | Some p =>
      if Key.eqb (key (node p)) k
      then Ret (set_pending (concrete s) (Some (set_node p (f (node p)))), UpdatedPending)
      else Ret (concrete s, Failed Reason_KeyNonExistent)
  | None => Ret (concrete s, Failed Reason_KeyNonExistent)
  end.
Proof.
  unfold change_slot; simpl. destruct (slot s) as [p|]; [|done]. by destruct (Key.eqb _ _).
Qed.

Lemma detach_position s k :
  match detach s k with
  | Some _ => exists pos, position_of (concrete s) k = Some pos
  | None => position_of (concrete s) k = None
  end.
Proof.
  destruct (detach_cases s k) as
    [(-> & -> & _)|[(d1 & n & d2 & _ & -> & -> & _)|(c1 & n & c2 & _ & -> & -> & _)]]; eauto.
Qed.

Lemma sim_update_status now s k st dir :
  wf s ->
  update_status now (concrete s) k st dir =
  Ret (concrete (fst (spec_update_status s k st dir)), snd (spec_update_status s k st dir)).
Proof.
  intros Hwf. unfold update_status, spec_update_status.
  pose proof (detach_position s k) as Hpos.
  destruct (detach s k) as [[n s']|] eqn:Ed; [destruct Hpos as [pos Hpos]|];
    rewrite Hpos; [|by rewrite sim_change_slot].
  destruct (sim_detach s k n s' pos Hwf Ed Hpos) as (Hrem & Hold & Hfcp & _).
  pose proof (room_detach s k n s' Hwf Ed) as Hroom.
  change (nodes (concrete s)) with (all s). rewrite Hrem. cbn [mbind outcome_bind].
  rewrite Hfcp. unfold reinsert. set (n' := update_node_status n st dir).
  change (match st with Connected => true | Disconnected => false end) with (is_connected (status n')).
  rewrite <-Hold.
  set (bb := is_oldest s k && is_connected (status n')).
  set (s1 := if bb then with_slot s' None else s').
  assert (set_pending (set_first_connected_pos (set_nodes (concrete s) (all s'))
            (first_connected_pos (concrete s'))) (if bb then None else pending (concrete s)) =
          concrete s1) as ->.
  { assert (slot s' = slot s /\ timeout s' = timeout s /\ sfilter s' = sfilter s /\ limit s' = limit s)
      as (E1 & E2 & E3 & E4) by (unfold detach in Ed; split_cases; done).
    unfold s1. destruct bb; unfold concrete, set_pending, set_nodes; simpl;
      by rewrite ?E1, ?E2, ?E3, ?E4. }
  assert (room_for s1 n') as Hroom1.
  { destruct Hroom as [? ? ? Hslot]. unfold s1.
    destruct bb; constructor; auto using wf_with_slot_None; done. }
  rewrite sim_insert by apply Hroom1. rewrite spec_insert_room by done.
  destruct (negb (admits s1 (value n'))); [done|]. destruct (incoming_full s1 n'); [done|]. simpl.
  by repeat match goal with |- context [if ?c then _ else _] => destruct c end.
Qed.

Lemma sim_remove now s k :
  wf s ->
  remove now (concrete s) k =
  Ret (concrete (fst (spec_remove now s k)), snd (spec_remove now s k)).
Proof.
  intros Hwf. unfold remove, spec_remove.
  pose proof (detach_position s k) as Hpos.
  destruct (detach s k) as [[n s']|] eqn:Ed; [destruct Hpos as [pos Hpos]|]; rewrite Hpos; [|done].
  destruct (sim_detach s k n s' pos Hwf Ed Hpos) as (Hrem & _ & _ & Hfcp).
  change (nodes (concrete s)) with (all s). rewrite Hrem. cbn [mbind outcome_bind].
  rewrite Hfcp, sim_apply_pending; [done|]. eapply room_wf, room_detach; eauto.
Qed.

Lemma revalue_all s k n s' pos v l1 l2 :
  wf s -> detach s k = Some (n, s') -> position_of (concrete s) k = Some pos ->
  all s = l1 ++ n :: l2 -> length l1 = pos ->
  revalue k v (all s) = l1 ++ set_value n v :: l2.
Proof.
  intros Hwf Hd Hp Hall <-. apply position_Some in Hp as (l1' & n' & l2' & Hall' & Hlen & Hk & _).
  change (nodes (concrete s)) with (all s) in Hall'. rewrite Hall in Hall'.
  apply app_inj_1 in Hall' as [<- [= <- <-]]; [|done].
  destruct Hwf as [_ _ _ Hnd _ _]. rewrite Hall, keys_app in Hnd.
  apply NoDup_app in Hnd as (_ & Hnd1 & Hnd2). csimpl in *. apply NoDup_cons in Hnd2 as [Hnd2 _].
  apply Key.eqb_true in Hk as Hh.
  assert (forall l, Key.hash (key n) ∉ keys l -> revalue k v l = l) as Hid.
  { intros l. rewrite Hh, not_in_keys. induction 1 as [|m l Hm _ IH]; [done|].
    change (revalue k v (m :: l)) with
      ((if Key.eqb (key m) k then set_value m v else m) :: revalue k v l).
    by rewrite Hm, IH. }
  rewrite Hall. change (revalue k v (l1 ++ n :: l2)) with
    ((fun n => if Key.eqb (key n) k then set_value n v else n) <$> (l1 ++ n :: l2)).
  rewrite fmap_app. csimpl. rewrite Hk.
  change (revalue k v l1 ++ set_value n v :: revalue k v l2 = l1 ++ set_value n v :: l2).
  rewrite !Hid; [done|done|]. set_solver.
Qed.

Lemma concrete_revalue s k v :
  concrete (with_queues s (revalue k v (disc s)) (revalue k v (conn s))) =
  set_nodes (concrete s) (revalue k v (all s)).
Proof.
  unfold concrete, set_nodes, all, revalue; simpl. rewrite fmap_app, length_fmap.
  by destruct (conn s).
Qed.

Lemma sim_update_value s k v :
  wf s ->
  update_value (concrete s) k v =
  Ret (concrete (fst (spec_update_value s k v)), snd (spec_update_value s k v)).
Proof.
  intros Hwf. unfold update_value, spec_update_value.
  pose proof (detach_position s k) as Hpos.
  destruct (detach s k) as [[n s']|] eqn:Ed; [destruct Hpos as [pos Hpos]|];
    rewrite Hpos; [|by rewrite (sim_change_slot s k (fun n => set_value n v))].
  destruct (sim_detach s k n s' pos Hwf Ed Hpos) as (Hrem & _ & _ & Hfcp).
  pose proof (room_detach s k n s' Hwf Ed) as [_ Hsz _ _].
  assert (exists l1 l2, all s = l1 ++ n :: l2 /\ all s' = l1 ++ l2 /\ length l1 = pos)
    as (l1 & l2 & Hall & Hall' & Hlen).
  { apply position_Some in Hpos as (l1 & m & l2 & Hall & <- & _).
    change (nodes (concrete s)) with (all s) in Hall.
    rewrite Hall, array_remove_middle in Hrem. simplify_eq. eauto. }
  change (nodes (concrete s)) with (all s). rewrite Hrem. cbn [mbind outcome_bind].
  assert (forall m, array_insert MAX_NODES_PER_BUCKET pos m (all s') = Ret (l1 ++ m :: l2)) as Hins.
  { intros m. unfold array_insert. rewrite Hall', length_app in *. rewrite decide_True by lia.
    by rewrite <-Hlen, insert_at_length. }
  destruct (decide (value n = v)) as [Hv|Hv].
  - rewrite Hins. cbn. rewrite <-Hall. done.
  - assert (passes_filter (set_nodes (concrete s) (all s')) v = admits s' v) as ->.
    { unfold detach in Ed. unfold passes_filter, admits. split_cases; done. }
    destruct (negb _); [by rewrite Hfcp|]. rewrite Hins. cbn.
    by rewrite concrete_revalue, (revalue_all s k n s' pos v l1 l2).
Qed.

Lemma sim_update_pending s st :
  update_pending (concrete s) st = concrete (spec_update_pending s st).
Proof. unfold update_pending, spec_update_pending; simpl. by destruct (slot s). Qed.

(** ** The counters *)

Lemma counts_all s :
  wf s ->
  countb (fun n => is_connected (status n)) (all s) = length (conn s) /\
  countb (fun n => negb (is_connected (status n))) (all s) = length (disc s).
Proof.
  intros [Hd Hc _ _ _ _]. unfold all. rewrite !countb_app. split.
  - rewrite countb_Forall_false, countb_Forall_true by done. done.
  - rewrite countb_Forall_true, countb_Forall_false; [lia|..];
      (eapply Forall_impl; [done|]; intros n Hn; simpl; by rewrite Hn).
Qed.

Lemma num_connected_concrete s :
  wf s ->
  num_connected (concrete s) = Ret (countb (fun n => is_connected (status n)) (nodes (concrete s))).
Proof.
  intros Hwf. change (nodes (concrete s)) with (all s).
  rewrite (proj1 (counts_all s Hwf)). unfold num_connected. simpl.
  destruct (conn s) as [|c cs] eqn:Ec; simpl; [done|].
  unfold all. rewrite Ec, length_app. unfold checked_sub. rewrite decide_True by lia.
  simpl. f_equal. lia.
Qed.

Lemma num_disconnected_concrete s :
  wf s ->
  num_disconnected (concrete s) =
  Ret (countb (fun n => negb (is_connected (status n))) (nodes (concrete s))).
Proof.
  intros Hwf. unfold num_disconnected. rewrite num_connected_concrete by done.
  change (nodes (concrete s)) with (all s).
  destruct (counts_all s Hwf) as [-> ->]. simpl. unfold checked_sub, all.
  rewrite length_app, decide_True by lia. simpl. f_equal. lia.
Qed.
End Simulation.
