(* ===== verification/BucketTrace.v ===== *)
(** * Histories of a k-bucket

    Sequences of method calls on a bucket, with a clock reading for each, run
    both on the implementation and on the abstract bucket. *)

From S2P Require Import Prelude Bytes Key Bucket BucketSpec BucketProofs BucketRefine.
Import KBucket BucketSpec.

Module BucketTrace.

(** The state-changing methods of [KBucket] and the writes through the
    references handed out by [get_mut] and [pending_mut]. *)
Inductive bucket_op (T V : Type) :=
  | OpInsert (n : Node T V)
  | OpApplyPending
  | OpUpdateStatus (k : Key T) (st : ConnectionState) (dir : option ConnectionDirection)
  | OpUpdateValue (k : Key T) (v : V)
  | OpRemove (k : Key T)
  | OpUpdatePending (s : NodeStatus)
  | OpValueMut (k : Key T) (v : V)
  | OpPendingValue (v : V).
Arguments OpInsert {T V} n.
Arguments OpApplyPending {T V}.
Arguments OpUpdateStatus {T V} k st dir.
Arguments OpUpdateValue {T V} k v.
Arguments OpRemove {T V} k.
Arguments OpUpdatePending {T V} s.
Arguments OpValueMut {T V} k v.
Arguments OpPendingValue {T V} v.

Inductive op_result (T V : Type) :=
  | RInsert (r : InsertResult T)
  | RApplied (a : option (AppliedPending T V))
  | RUpdate (r : UpdateResult)
  | RBool (found : bool)
  | RUnit.
Arguments RInsert {T V} r.
Arguments RApplied {T V} a.
Arguments RUpdate {T V} r.
Arguments RBool {T V} found.
Arguments RUnit {T V}.

Section Trace.
Context {T V : Type} `{EqDecision V}.
Implicit Types (s : SBucket T V) (b : KBucket T V) (op : bucket_op T V).

Definition run_op (now : Z) op b : outcome (KBucket T V * op_result T V) :=
  match op with
  | OpInsert n => '(b, r) ← insert now b n; Ret (b, RInsert r)
  | OpApplyPending => '(b, r) ← apply_pending now b; Ret (b, RApplied r)
  | OpUpdateStatus k st dir => '(b, r) ← update_status now b k st dir; Ret (b, RUpdate r)
  | OpUpdateValue k v => '(b, r) ← update_value b k v; Ret (b, RUpdate r)
  | OpRemove k => '(b, r) ← remove now b k; Ret (b, RBool r)
  | OpUpdatePending s => Ret (update_pending b s, RUnit)
  | OpValueMut k v =>
      match get_mut b k (fun n => set_value n v) with
      | Some b => Ret (b, RBool true)
      | None => Ret (b, RBool false)
      end
  | OpPendingValue v =>
      match pending_mut b (fun p => set_node p (set_value (node p) v)) with
      | Some b => Ret (b, RBool true)
      | None => Ret (b, RBool false)
      end
  end.

Fixpoint run_trace (tr : list (Z * bucket_op T V)) b
    : outcome (KBucket T V * list (op_result T V)) :=
  match tr with
  | [] => Ret (b, [])
  | (now, op) :: tr =>
      '(b, r) ← run_op now op b;
      '(b, rs) ← run_trace tr b;
      Ret (b, r :: rs)
  end.

(** The same histories on the abstract bucket. *)
Definition spec_op (now : Z) op s : SBucket T V * op_result T V :=
  match op with
  | OpInsert n => let '(s, r) := spec_insert now s n in (s, RInsert r)
  | OpApplyPending => let '(s, r) := spec_apply_pending now s in (s, RApplied r)
  | OpUpdateStatus k st dir => let '(s, r) := spec_update_status s k st dir in (s, RUpdate r)
  | OpUpdateValue k v => let '(s, r) := spec_update_value s k v in (s, RUpdate r)
  | OpRemove k => let '(s, r) := spec_remove now s k in (s, RBool r)
  | OpUpdatePending st => (spec_update_pending s st, RUnit)
  | OpValueMut k v =>
      if member s k
      then (with_queues s (revalue k v (disc s)) (revalue k v (conn s)), RBool true)
      else (s, RBool false)
  | OpPendingValue v =>
      match slot s with
      | Some p => (with_slot s (Some (set_node p (set_value (node p) v))), RBool true)
      | None => (s, RBool false)
      end
  end.

Fixpoint spec_trace (tr : list (Z * bucket_op T V)) s : SBucket T V * list (op_result T V) :=
  match tr with
  | [] => (s, [])
  | (now, op) :: tr =>
      let '(s, r) := spec_op now op s in
      let '(s, rs) := spec_trace tr s in
      (s, r :: rs)
  end.

(** The abstract bucket of a new [KBucket]. *)
Definition empty (timeout : Z) (max_inc : nat) (f : option (Filter V)) : SBucket T V :=
  mkS [] [] None timeout f max_inc.

Lemma wf_empty timeout max_inc f : wf (empty timeout max_inc f).
Proof. constructor; simpl; try done; [lia|constructor|lia]. Qed.

Lemma sim_get_mut s k v :
  wf s ->
  get_mut (concrete s) k (fun n => set_value n v) =
  if member s k
  then Some (concrete (with_queues s (revalue k v (disc s)) (revalue k v (conn s))))
  else None.
Proof.
  intros Hwf. rewrite <-position_member. unfold get_mut.
  pose proof (detach_position s k) as Hpos.
  destruct (detach s k) as [[n s']|] eqn:Ed; [destruct Hpos as [pos Hpos]|]; rewrite Hpos; simpl; [|done].
  destruct (sim_detach s k n s' pos Hwf Ed Hpos) as (Hrem & _).
  pose proof Hpos as Hpos'. apply position_Some in Hpos' as (l1 & m & l2 & Hall & Hlen & _).
  change (nodes (concrete s)) with (all s) in Hall.
  rewrite Hall, <-Hlen, array_remove_middle in Hrem. simplify_eq.
  rewrite Hall, list_lookup_middle by done. simpl.
  rewrite concrete_revalue, (revalue_all s k n s' (length l1) v l1 l2) by done.
  by rewrite insert_app_r_alt, Nat.sub_diag by lia.
Qed.

Lemma sim_op now op s :
  wf s ->
  run_op now op (concrete s) = Ret (concrete (fst (spec_op now op s)), snd (spec_op now op s)) /\
  wf (fst (spec_op now op s)).
Proof.
  intros Hwf. destruct op; simpl.
  - rewrite sim_insert by done. pose proof (wf_spec_insert now s n Hwf).
    by destruct (spec_insert now s n).
  - rewrite sim_apply_pending by done. pose proof (wf_spec_apply_pending now s Hwf).
    by destruct (spec_apply_pending now s).
  - rewrite sim_update_status by done. pose proof (wf_spec_update_status s k st dir Hwf).
    by destruct (spec_update_status s k st dir).
  - rewrite sim_update_value by done. pose proof (wf_spec_update_value s k v Hwf).
    by destruct (spec_update_value s k v).
  - rewrite sim_remove by done. pose proof (wf_spec_remove now s k Hwf).
    by destruct (spec_remove now s k).
  - rewrite sim_update_pending. split; [done|]. by apply wf_spec_update_pending.
  - rewrite sim_get_mut by done. destruct (member s k); simpl; auto using wf_revalue.
  - unfold pending_mut; simpl. destruct (slot s) as [p|] eqn:Es; simpl; [|done].
    split; [done|]. apply wf_with_slot; [done|]. exact (wf_slot s Hwf p Es).
Qed.

Lemma sim_trace tr s :
  wf s ->
  run_trace tr (concrete s) = Ret (concrete (fst (spec_trace tr s)), snd (spec_trace tr s)) /\
  wf (fst (spec_trace tr s)).
Proof.
  revert s; induction tr as [|[now op] tr IH]; intros s Hwf; simpl; [done|].
  destruct (sim_op now op s Hwf) as [-> Hwf1].
  destruct (spec_op now op s) as [s1 r]. simpl in *.
  destruct (IH s1 Hwf1) as [-> Hwf2]. by destruct (spec_trace tr s1).
Qed.
End Trace.
End BucketTrace.

Import BucketTrace.

(** ** What every reachable bucket satisfies *)

(** C11: Refinement.  Every finite history of bucket operations, whatever the
    clock readings, keys, values, filter and limits, runs on a new [KBucket]
    without a panic (no failed index, no overfull [ArrayVec], no
    [unreachable!]), gives the same answers as the two-queue specification,
    and ends in the array layout of a well-formed abstract bucket. *)
Theorem bucket_trace_refines {T V} `{EqDecision V} (tr : list (Z * bucket_op T V))
    (timeout : Z) (max_inc : nat) (f : option (Filter V)) :
  exists s rs,
    run_trace tr (KBucket.new timeout max_inc f) = Ret (concrete s, rs) /\
    spec_trace tr (empty timeout max_inc f) = (s, rs) /\ wf s.
Proof.
  destruct (sim_trace tr (empty timeout max_inc f) (wf_empty timeout max_inc f)) as [Hrun Hwf].
  exists (fst (spec_trace tr (empty timeout max_inc f))), (snd (spec_trace tr (empty timeout max_inc f))).
  split_and!; [done|by destruct (spec_trace _ _)|done].
Qed.

(** The invariant on the array layout, as [check_invariants] of the unit tests
    states it, with the capacity and uniqueness facts added. *)
Record bucket_inv {T V} (b : KBucket T V) : Prop := {
  inv_capacity : length (nodes b) <= MAX_NODES_PER_BUCKET;
  inv_first_connected_pos :
    first_connected_pos b = position (fun n => is_connected (status n)) (nodes b);
  inv_status_ordering : forall i n, nodes b !! i = Some n ->
    is_connected (status n) = true <-> exists p, first_connected_pos b = Some p /\ p <= i;
  inv_max_incoming : countb counts_incoming (nodes b) <= max_incoming b;
  inv_unique_keys : NoDup ((fun n => Key.hash (key n)) <$> nodes b);
  inv_pending : forall p n, pending b = Some p -> n ∈ nodes b ->
    Key.hash (key n) <> Key.hash (key (node p));
}.

Lemma concrete_inv {T V} (s : SBucket T V) : wf s -> bucket_inv (concrete s).
Proof.
  intros Hwf. pose proof (countb_all s Hwf) as Hcnt. destruct Hwf as [Hd Hc Hsz Hnd Hinc Hslot].
  constructor; simpl; auto.
  - unfold all. rewrite position_app_None by by apply position_None.
    destruct (conn s) as [|c cs]; simpl; [done|]. apply Forall_cons in Hc as [-> _].
    simpl. by rewrite Nat.add_0_r.
  - intros i n Hi. unfold all in Hi. apply lookup_app_Some in Hi as [Hi|[Hle Hi]].
    + assert (is_connected (status n) = false) as ->
        by (rewrite Forall_forall in Hd; eapply Hd, list_elem_of_lookup_2, Hi).
      apply lookup_lt_Some in Hi. split; [done|]. intros (p & Hp & ?).
      destruct (conn s); simplify_eq. lia.
    + assert (is_connected (status n) = true) as ->
        by (rewrite Forall_forall in Hc; eapply Hc, list_elem_of_lookup_2, Hi).
      split; [intros _|done]. destruct (conn s); [done|]. eauto.
  - lia.
  - intros p n Hp Hn Heq. apply (Hslot p Hp). rewrite <-Heq. unfold keys.
    by apply (list_elem_of_fmap_2 (fun n => Key.hash (key n))).
Qed.

Lemma reachable_inv {T V} `{EqDecision V} (tr : list (Z * bucket_op T V)) timeout max_inc f b rs :
  run_trace tr (KBucket.new timeout max_inc f) = Ret (b, rs) -> bucket_inv b.
Proof.
  destruct (sim_trace tr (empty timeout max_inc f) (wf_empty timeout max_inc f)) as [Hrun Hwf].
  change (KBucket.new timeout max_inc f) with (concrete (empty (T:=T) timeout max_inc f)).
  rewrite Hrun. intros [= <- _]. by apply concrete_inv.
Qed.

(** Invariant.  Every bucket reachable from a new one satisfies the checks of the
    unit tests: at most 16 nodes with distinct keys, [first_connected_pos] is
    the position of the first connected node, exactly the nodes from that
    position on are connected, at most [max_incoming] nodes are connected and
    incoming, and a pending node is not a member; and [num_connected] and
    [num_disconnected] do not underflow and count the two kinds of nodes. *)
Theorem bucket_reachable_inv {T V} `{EqDecision V} (tr : list (Z * bucket_op T V))
    (timeout : Z) (max_inc : nat) (f : option (Filter V)) :
  exists b rs,
    run_trace tr (KBucket.new timeout max_inc f) = Ret (b, rs) /\ bucket_inv b /\
    num_connected b = Ret (countb (fun n => is_connected (status n)) (nodes b)) /\
    num_disconnected b = Ret (countb (fun n => negb (is_connected (status n))) (nodes b)).
Proof.
  destruct (sim_trace tr (empty timeout max_inc f) (wf_empty timeout max_inc f)) as [Hrun Hwf].
  set (s := fst (spec_trace tr (empty timeout max_inc f))) in *.
  eexists _, _. split_and!; [done|by apply concrete_inv|..].
  - by apply num_connected_concrete.
  - by apply num_disconnected_concrete.
Qed.

(** The invariant characterises the layouts of well-formed abstract buckets. *)
Lemma inv_concrete {T V} (b : KBucket T V) :
  bucket_inv b -> exists s, b = concrete s /\ wf s.
Proof.
  intros [Hcap Hfcp Hord Hinc Hnd Hp].
  set (p := default (length (nodes b)) (first_connected_pos b)).
  set (s := mkS (take p (nodes b)) (drop p (nodes b)) (pending b) (pending_timeout b)
                (bucket_filter b) (max_incoming b)).
  assert (all s = nodes b) as Hall by apply take_drop.
  assert (Forall (fun n => is_connected (status n) = false) (disc s)) as Hd.
  { apply Forall_lookup. intros i n Hi. apply lookup_take_Some in Hi as [Hi Hlt].
    destruct (is_connected (status n)) eqn:E; [|done].
    apply (Hord i n Hi) in E as (q & Hq & Hle). unfold p in Hlt. rewrite Hq in Hlt. simpl in Hlt. lia. }
  assert (Forall (fun n => is_connected (status n) = true) (conn s)) as Hc.
  { apply Forall_lookup. intros i n Hi. simpl in Hi. rewrite lookup_drop in Hi.
    apply (Hord _ n Hi). unfold p in *. destruct (first_connected_pos b) as [q|]; simpl in *.
    - exists q. split; [done|lia].
    - apply lookup_lt_Some in Hi. lia. }
  exists s. split.
  - assert (first_connected_pos b = match conn s with [] => None | _ => Some (length (disc s)) end) as Hf.
    { rewrite Hfcp at 1. rewrite <-Hall. unfold all. rewrite position_app_None by by apply position_None.
      destruct (conn s) as [|c cs]; simpl; [done|]. apply Forall_cons in Hc as [-> _].
      simpl. by rewrite Nat.add_0_r. }
    unfold concrete. rewrite <-Hf, Hall. by destruct b.
  - constructor; rewrite ?Hall; auto.
    + eapply Nat.le_trans; [|exact Hinc]. apply countb_sublist. simpl. apply sublist_drop.
    + intros q Hq Hin. unfold keys in Hin. apply list_elem_of_fmap_1 in Hin as (n & Heq & Hn).
      by apply (Hp q n Hq Hn).
Qed.

Lemma append_nodes {T V} (s : SBucket T V) n : all (append s n) ≡ₚ n :: all s.
Proof.
  unfold append, all. destruct (is_connected (status n)); simpl.
  - by rewrite app_assoc, Permutation_app_comm.
  - rewrite <-app_assoc. simpl. by rewrite <-Permutation_middle.
Qed.

(** Eviction.  When [apply_pending] inserts the pending node, its timeout has elapsed
    and the slot is emptied; if a node is evicted, the bucket was full and the
    evicted node is the least-recently changed one and disconnected, and every
    other node stays; if none is evicted, there was a free place.  When nothing
    is inserted, no node leaves the bucket. *)
Theorem bucket_apply_pending_evicts {T V} `{EqDecision V} (b b' : KBucket T V) now r :
  bucket_inv b -> apply_pending now b = Ret (b', r) ->
  bucket_inv b' /\
  match r with
  | None => nodes b' = nodes b
  | Some a =>
      pending b' = None /\
      exists p, pending b = Some p /\ (replace_at p <= now)%Z /\ inserted a = key (node p) /\
      match evicted a with
      | Some old =>
          exists rest, length (nodes b) = MAX_NODES_PER_BUCKET /\
            nodes b = old :: rest /\ is_connected (status old) = false /\
            nodes b' ≡ₚ node p :: rest
      | None => length (nodes b) < MAX_NODES_PER_BUCKET /\ nodes b' ≡ₚ node p :: nodes b
      end
  end.
Proof.
  intros (s & -> & Hwf)%inv_concrete. rewrite sim_apply_pending by done. intros [= <- <-].
  split; [by apply concrete_inv, wf_spec_apply_pending|].
  unfold spec_apply_pending. destruct (slot s) as [p|] eqn:Es; [|done].
  destruct (Z.leb_spec (replace_at p) now); [|done].
  destruct (negb _); [done|]. simpl. destruct (incoming_full s (node p)); [done|].
  destruct (full s) eqn:Ef.
  - destruct (disc s) as [|old ds] eqn:Ed; [done|]. simpl.
    split; [by rewrite slot_append|]. exists p. split_and!; auto.
    exists (ds ++ conn s). apply bool_decide_eq_true in Ef.
    split_and!; auto; [unfold all; by rewrite Ed|..].
    + pose proof (wf_disc s Hwf) as Hd. rewrite Ed in Hd. by apply Forall_cons in Hd as [? _].
    + by rewrite append_nodes.
  - simpl. split; [by rewrite slot_append|]. exists p. split_and!; auto.
    + by apply full_false.
    + by rewrite append_nodes.
Qed.

Definition sample_node (z : Z) (st : ConnectionState) : Node unit Z :=
  mkNode (Key.mkKey tt (sample_id z)) z (mkStatus Outgoing st).

(** Sixteen disconnected nodes join, then a connected one. *)
Definition sample_trace : list (Z * bucket_op unit Z) :=
  pair 0%Z <$> ((fun z => OpInsert (sample_node (Z.of_nat z) Disconnected)) <$> seq 1 16) ++
    [OpInsert (sample_node 17 Connected)].

Lemma bucket_apply_pending_evicts_witness :
  exists b b' a,
    apply_pending 60 b = Ret (b', Some a) /\ evicted a = Some (sample_node 1 Disconnected) /\
    length (nodes b) = 16 /\ bucket_inv b' /\ pending b' = None.
Proof.
  destruct (run_trace sample_trace (KBucket.new 60 5 None)) as [[b rs]|] eqn:Eb; [|by vm_compute in Eb].
  pose proof (reachable_inv _ _ _ _ _ _ Eb) as Hinv.
  destruct (apply_pending 60 b) as [[b' r]|] eqn:Ea; [|by vm_compute in Eb; simplify_eq; vm_compute in Ea].
  destruct (bucket_apply_pending_evicts b b' 60 r Hinv Ea) as [Hinv' Hr].
  assert (exists a, r = Some a /\ evicted a = Some (sample_node 1 Disconnected) /\ length (nodes b) = 16)
    as (a & -> & Hev & Hlen).
  { vm_compute in Eb. injection Eb as <- _. vm_compute in Ea. injection Ea as _ <-. eexists. split_and!; reflexivity. }
  exists b, b', a. destruct Hr as [Hp _]. split_and!; auto.
Defined.
