(* ===== verification/Testing.v ===== *)
(** * The assertions of the unit tests

    The unit tests of the sources are translated as programs over the model:
    an assertion that fails panics, so that a test passes when it returns.
    Ids from [NodeId::random()] come from a stream that is an argument of the
    test, as does the clock. *)

From Stdlib Require Import Strings.String Strings.Ascii.
From S2P Require Import Prelude Bytes Key.

(** [assert!] and [assert_eq!]. *)
Definition assert (b : bool) : outcome unit := if b then Ret () else Panic.
Definition assert_eq {A} `{EqDecision A} (x y : A) : outcome unit := assert (bool_decide (x = y)).

Lemma assert_true b : b = true -> assert b = Ret ().
Proof. by intros ->. Qed.

Lemma assert_eq_refl {A} `{EqDecision A} (x y : A) : x = y -> assert_eq x y = Ret ().
Proof. intros ->. unfold assert_eq. by rewrite bool_decide_true. Qed.

(** [Option::is_some] and [Option::is_none]. *)
Definition is_some {A} (o : option A) : bool := match o with Some _ => true | None => false end.
Definition is_none {A} (o : option A) : bool := match o with Some _ => false | None => true end.

(** [Vec::insert]. *)
Definition vec_insert {A} (i : nat) (x : A) (l : list A) : outcome (list A) :=
  if decide (i <= length l) then Ret (insert_at i x l) else Panic.

(** [for x in l { f(x) }] with the state of the loop. *)
Fixpoint for_loop {A S} (l : list A) (f : A -> S -> outcome S) (s : S) : outcome S :=
  match l with
  | [] => Ret s
  | x :: l => s ← f x s; for_loop l f s
  end.

Lemma for_loop_inv {A S} (P : S -> Prop) (l : list A) (f : A -> S -> outcome S) s :
  (forall x s, P s -> exists s', f x s = Ret s' /\ P s') -> P s -> exists s', for_loop l f s = Ret s' /\ P s'.
Proof.
  intros Hf. revert s. induction l as [|x l IH]; intros s Hs; simpl; [eauto|].
  destruct (Hf x s Hs) as (s1 & -> & Hs1). by apply IH.
Qed.

(** Ids that are all different. *)
Definition distinct_ids (n : nat) : NodeId :=
  vinsert 30%fin (byte_of_Z (Z.of_nat n / 256)) (sample_id (Z.of_nat n)).

(** Evaluate the tests of a list. *)
Ltac run_tests := repeat (apply Forall_cons_2; [vm_compute; reflexivity|]); apply Forall_nil_2.

(** ** Bytes from text *)

(** The value of a digit, given the characters that follow each other. *)
Definition digit_in (first last : ascii) (offset : Z) (c : ascii) : option Z :=
  let n := Z.of_N (N_of_ascii c) in
  let a := Z.of_N (N_of_ascii first) in
  if decide (a <= n <= Z.of_N (N_of_ascii last))%Z then Some (n - a + offset)%Z else None.

Definition or_else {A} (a b : option A) : option A := match a with Some x => Some x | None => b end.

(** [hex::decode(s).unwrap()]. *)
Definition hex_digit (c : ascii) : option Z := or_else (digit_in "0" "9" 0 c) (digit_in "a" "f" 10 c).

Fixpoint hex_decode (s : string) : outcome (list byte) :=
  match s with
  | EmptyString => Ret []
  | String a (String b s) =>
      a ← unwrap (hex_digit a); b ← unwrap (hex_digit b); l ← hex_decode s;
      Ret (byte_of_Z (16 * a + b) :: l)
  | _ => Panic
  end.

(** The base64 of URLs, without padding. *)
Definition base64_digit (c : ascii) : option Z :=
  or_else (digit_in "A" "Z" 0 c) (or_else (digit_in "a" "z" 26 c) (or_else (digit_in "0" "9" 52 c)
    (or_else (digit_in "-" "-" 62 c) (digit_in "_" "_" 63 c)))).

Fixpoint base64_decode (s : string) : outcome (list byte) :=
  match s with
  | EmptyString => Ret []
  | String a (String b EmptyString) =>
      a ← unwrap (base64_digit a); b ← unwrap (base64_digit b);
      Ret [byte_of_Z (4 * a + b / 16)]
  | String a (String b (String c EmptyString)) =>
      a ← unwrap (base64_digit a); b ← unwrap (base64_digit b); c ← unwrap (base64_digit c);
      Ret [byte_of_Z (4 * a + b / 16); byte_of_Z (16 * b + c / 4)]
  | String a (String b (String c (String d s))) =>
      a ← unwrap (base64_digit a); b ← unwrap (base64_digit b); c ← unwrap (base64_digit c); d ← unwrap (base64_digit d);
      l ← base64_decode s;
      Ret (byte_of_Z (4 * a + b / 16) :: byte_of_Z (16 * b + c / 4) :: byte_of_Z (64 * c + d) :: l)
  | _ => Panic
  end.

(** The bytes of a record from its text form. *)
Definition parse_enr (s : string) : outcome (list byte) :=
  if String.prefix "enr:" s then base64_decode (String.substring 4 (String.length s) s) else base64_decode s.
