(* ===== verification/BucketPost.v ===== *)
(** * What the methods of a bucket leave behind

    Membership of a key after [insert], [update_status], [update_value] and
    [remove] on a bucket with the invariant, for every answer of the method. *)

From S2P Require Import Prelude Bytes Key Bucket BucketSpec BucketProofs BucketRefine BucketTrace.
Import KBucket BucketSpec BucketTrace.

Section Post.
Context {T V : Type} `{EqDecision V}.
Implicit Types (s : SBucket T V) (b : KBucket T V) (n : Node T V) (k : Key T).

(** Node [n] is the member of [b] with the key [k]. *)
Definition holds b k n : Prop := n ∈ nodes b /\ Key.hash (key n) = Key.hash k.

(** No member of [b] has the key [k]. *)
Definition absent b k : Prop := Forall (fun n => Key.hash (key n) <> Key.hash k) (nodes b).

Lemma absent_keys s k : absent (concrete s) k <-> Key.hash k ∉ keys (all s).
Proof.
  rewrite not_in_keys. unfold absent. simpl. apply Forall_iff. intros n. symmetry. apply Key.eqb_false.
Qed.

Lemma unique_member b n m :
  bucket_inv b -> n ∈ nodes b -> m ∈ nodes b -> Key.hash (key n) = Key.hash (key m) -> n = m.
Proof.
  intros Hinv Hn Hm Heq. pose proof (inv_unique_keys b Hinv) as Hnd.
  apply list_elem_of_lookup in Hn as [i Hi]. apply list_elem_of_lookup in Hm as [j Hj].
  assert (i = j) as ->; [|congruence].
  eapply NoDup_lookup; [exact Hnd|..]; rewrite list_lookup_fmap; [by rewrite Hi|].
  rewrite Hj. simpl. by rewrite Heq.
Qed.

Lemma get_holds b k n : bucket_inv b -> get b k = Some n <-> holds b k n.
Proof.
  intros Hinv. unfold get, holds. rewrite find_position. split.
  - intros (i & Hp & Hi)%bind_Some. apply position_Some in Hp as (l1 & m & l2 & Hl & Hlen & Hm & _).
    rewrite Hl, <-Hlen, list_lookup_middle in Hi by done. injection Hi as ->.
    split; [rewrite Hl; set_solver|by apply Key.eqb_true].
  - intros [Hn Hk]. destruct (position _ (nodes b)) as [i|] eqn:Hp; simpl.
    + apply position_Some in Hp as (l1 & m & l2 & Hl & Hlen & Hm & _).
      rewrite Hl, <-Hlen, list_lookup_middle by done. f_equal. apply Key.eqb_true in Hm.
      apply (unique_member b); [done|rewrite Hl; set_solver|done|congruence].
    + apply position_None in Hp. rewrite Forall_forall in Hp. apply Hp in Hn.
      by apply Key.eqb_false in Hn.
Qed.

Lemma get_absent b k : get b k = None <-> absent b k.
Proof.
  unfold get, absent. rewrite find_position. destruct (position _ (nodes b)) as [i|] eqn:Hp; simpl.
  - apply position_Some in Hp as (l1 & m & l2 & Hl & Hlen & Hm & _).
    rewrite Hl, <-Hlen, list_lookup_middle by done. split; [done|].
    intros (_ & [Hne _]%Forall_cons)%Forall_app. by apply Key.eqb_true in Hm.
  - apply position_None in Hp. split; [intros _|done].
    eapply Forall_impl; [exact Hp|]. intros n. apply Key.eqb_false.
Qed.

Lemma position_absent b k : position_of b k = None <-> absent b k.
Proof.
  unfold position_of, absent. rewrite position_None. apply Forall_iff. intros n. apply Key.eqb_false.
Qed.

Lemma holds_not_absent b k n : holds b k n -> ~ absent b k.
Proof. intros [Hn Hk] Ha. unfold absent in Ha. rewrite Forall_forall in Ha. by apply (Ha n). Qed.

(** After [insert]. *)
Lemma insert_post b b' now n r :
  bucket_inv b -> insert now b n = Ret (b', r) ->
  match r with
  | Inserted => absent b (key n) /\ holds b' (key n) n
  | Pending d =>
      absent b (key n) /\ nodes b' = nodes b /\ length (nodes b) = MAX_NODES_PER_BUCKET /\
      pending b = None /\ pending b' = Some (mkPending n (now + pending_timeout b)%Z) /\
      exists old rest, nodes b = old :: rest /\ key old = d /\ is_connected (status old) = false
  | NodeExists => b' = b /\ exists m, holds b (key n) m
  | _ => b' = b /\ absent b (key n)
  end.
Proof.
  intros (s & -> & Hwf)%inv_concrete. rewrite sim_insert by done. intros [= <- <-].
  unfold spec_insert. destruct (member s (key n)) eqn:Em.
  { split; [done|]. unfold member in Em. apply bool_decide_eq_true in Em.
    unfold keys in Em. apply list_elem_of_fmap_1 in Em as (m & Hk & Hm). by exists m. }
  apply member_false, absent_keys in Em. destruct (negb _); [done|].
  destruct (incoming_full s n); [done|]. destruct (full s) eqn:Ef.
  - destruct (is_connected _), (disc s) as [|old ds] eqn:Ed, (slot s) as [p|] eqn:Es; try done. simpl.
    unfold full in Ef. apply bool_decide_eq_true in Ef. split_and!; auto.
    exists old, (ds ++ conn s). unfold all. rewrite Ed. split_and!; auto.
    pose proof (wf_disc s Hwf) as Hd. rewrite Ed in Hd. by apply Forall_cons in Hd as [? _].
  - simpl. split; [done|]. split; [|done]. simpl. rewrite append_nodes. set_solver.
Qed.

Lemma detach_holds s k n :
  wf s -> holds (concrete s) k n -> exists s', detach s k = Some (n, s').
Proof.
  intros Hwf Hh. pose proof (detach_position s k) as Hp.
  destruct (detach s k) as [[m s']|] eqn:Ed.
  - exists s'. do 2 f_equal. destruct (detach_sub s k m s' Ed) as (_ & Hm & _).
    pose proof (detach_hash s k m s' Ed) as Hk. destruct Hh as [Hn Hk'].
    apply (unique_member (concrete s)); [by apply concrete_inv|done|done|congruence].
  - apply position_absent in Hp. by apply holds_not_absent in Hh.
Qed.

(** After [update_status] of a member: the new status, or the node is gone. *)
Lemma update_status_post b b' now k st dir n r :
  bucket_inv b -> holds b k n -> update_status now b k st dir = Ret (b', r) ->
  match r with
  | Failed reason =>
      absent b' k /\ (reason = Reason_BucketFilter \/ reason = Reason_TooManyIncoming)
  | UpdatedPending => False
  | UpdatedAndPromoted =>
      holds b' k (update_node_status n st dir) /\ is_connected (status n) = false /\ st = Connected
  | Updated => holds b' k (update_node_status n st dir)
  | NotModified => holds b' k n /\ update_node_status n st dir = n
  end.
Proof.
  intros (s & -> & Hwf)%inv_concrete Hh. rewrite sim_update_status by done. intros [= <- <-].
  destruct (detach_holds s k n Hwf Hh) as [s' Ed]. unfold spec_update_status. rewrite Ed.
  pose proof (detach_hash s k n s' Ed) as Hk. destruct (room_detach s k n s' Hwf Ed) as [_ _ Hnin _].
  rewrite Hk in Hnin. unfold reinsert. set (n' := update_node_status n st dir).
  set (s1 := if _ && _ then _ else _). assert (all s1 = all s') as Hall
    by (unfold s1; by destruct (_ && _)).
  destruct (negb _). { simpl. rewrite absent_keys, Hall. auto. }
  destruct (incoming_full s1 n'). { simpl. rewrite absent_keys, Hall. auto. }
  assert (holds (concrete (append s1 n')) k n') as Hin.
  { split; [simpl; rewrite append_nodes; set_solver|done]. }
  cbn [fst snd]. destruct (bool_decide (status n = status n')) eqn:Est.
  - apply bool_decide_eq_true in Est. assert (n' = n) as Heq; [|by rewrite <-Heq at 1].
    unfold n', update_node_status in *. simpl in Est. unfold set_status. rewrite <-Est. by destruct n.
  - destruct (negb (is_connected (status n)) && is_connected (status n')) eqn:Ec; [|done].
    apply andb_true_iff in Ec as [Ec1%negb_true_iff Ec2]. split_and!; auto. by destruct st.
Qed.

(** After [update_value] of a member: the new value, or the node is gone. *)
Lemma update_value_post b b' k v n r :
  bucket_inv b -> holds b k n -> update_value b k v = Ret (b', r) ->
  match r with
  | Failed reason => absent b' k /\ reason = Reason_BucketFilter
  | Updated => holds b' k (set_value n v) /\ value n <> v
  | NotModified => b' = b /\ value n = v
  | _ => False
  end.
Proof.
  intros (s & -> & Hwf)%inv_concrete Hh. rewrite sim_update_value by done. intros [= <- <-].
  destruct (detach_holds s k n Hwf Hh) as [s' Ed]. unfold spec_update_value. rewrite Ed.
  pose proof (detach_hash s k n s' Ed) as Hk. destruct (room_detach s k n s' Hwf Ed) as [_ _ Hnin _].
  rewrite Hk in Hnin. destruct (decide _); [done|]. destruct (negb _); simpl.
  { by rewrite absent_keys. }
  split; [|done]. split; [|done]. rewrite concrete_revalue. simpl. unfold revalue.
  apply list_elem_of_fmap. exists n. destruct Hh as [Hn _].
  assert (Key.eqb (key n) k = true) as -> by by apply Key.eqb_true. done.
Qed.

(** [update_status] and [update_value] of a key that is not a member touch the
    pending node only. *)
Lemma update_status_absent b b' now k st dir r :
  bucket_inv b -> absent b k -> update_status now b k st dir = Ret (b', r) ->
  nodes b' = nodes b /\ (r = UpdatedPending \/ r = Failed Reason_KeyNonExistent).
Proof.
  intros Hinv Ha. apply position_absent in Ha. unfold update_status. rewrite Ha.
  destruct (pending b) as [p|]; [destruct (Key.eqb _ _)|]; intros [= <- <-]; auto.
Qed.

Lemma update_value_absent b b' k v r :
  bucket_inv b -> absent b k -> update_value b k v = Ret (b', r) ->
  nodes b' = nodes b /\ (r = UpdatedPending \/ r = Failed Reason_KeyNonExistent).
Proof.
  intros Hinv Ha. apply position_absent in Ha. unfold update_value. rewrite Ha.
  destruct (pending b) as [p|]; [destruct (Key.eqb _ _)|]; intros [= <- <-]; auto.
Qed.

(** After [remove]: the key is gone, unless the pending node with the same key
    took the place, which the invariant excludes. *)
Lemma remove_post b b' now k r :
  bucket_inv b -> remove now b k = Ret (b', r) ->
  (r = true <-> ~ absent b k) /\ absent b' k /\ (absent b k -> b' = b).
Proof.
  intros (s & -> & Hwf)%inv_concrete. rewrite sim_remove by done. intros [= <- <-].
  unfold spec_remove. pose proof (detach_position s k) as Hp.
  destruct (detach s k) as [[n s']|] eqn:Ed.
  - pose proof (detach_hash s k n s' Ed) as Hk.
    destruct (detach_sub s k n s' Ed) as (_ & Hn & Hsl & _).
    destruct (room_detach s k n s' Hwf Ed) as [Hwf' _ Hnin _].
    assert (~ absent (concrete s) k) as Hna by by apply (holds_not_absent _ _ n).
    split_and!; [done| |done]. cbn [fst].
    rewrite absent_keys, <-Hk. unfold spec_apply_pending.
    destruct (slot s') as [p|] eqn:Es; [|done]. destruct (Z.leb _ _); [|done].
    destruct (negb _ || _); [done|].
    assert (Key.hash (key n) <> Key.hash (key (node p))) as Hne.
    { intros Heq. apply (wf_slot s Hwf p); [congruence|]. rewrite <-Heq.
      unfold keys. by apply (list_elem_of_fmap_2 (fun n => Key.hash (key n))). }
    destruct (full s').
    + destruct (disc s') as [|old ds] eqn:Ed'; [done|]. unfold keys in *. simpl.
      rewrite append_nodes. csimpl. unfold all in *. simpl. rewrite Ed' in Hnin. csimpl in *. set_solver.
    + unfold keys in *. simpl. rewrite append_nodes. csimpl. unfold all in *. simpl. set_solver.
  - apply position_absent in Hp. simpl. split_and!; [by split|done..].
Qed.
End Post.
