(* ===== verification/IpFilter.v ===== *)
(** * The IP filters (src/src/kbucket/filter.rs)

    [IpBucketFilter] and [IpTableFilter] limit the number of records from one
    /24 network per bucket and per table.  The record type and its accessors
    belong to the [enr] crate and are parameters: [ip4] is [Enr::ip4], and
    [node_id] is [Enr::node_id]. *)

From S2P Require Import Prelude Bytes Key Bucket BucketSpec BucketProofs BucketRefine BucketTrace.
Import KBucket.

Module IpFilter.

Definition MAX_NODES_PER_SUBNET_TABLE : nat := 10.
Definition MAX_NODES_PER_SUBNET_BUCKET : nat := 2.

Section Filter.
Context {Enr : Type} `{EqDecision Enr} (ip4 : Enr -> option Ipv4Addr).

(** [octets()[0..3]]. *)
Definition net24 (ip : Ipv4Addr) : list byte := take 3 (vec_to_list ip).

(** The loop of [ip_filter] over the other values. *)
Fixpoint ip_filter_loop (v : Enr) (ip : Ipv4Addr) (limit count : nat) (others : list Enr) : bool :=
  match others with
  | [] => true
  | enr :: others =>
      if decide (enr = v) then ip_filter_loop v ip limit count others
      else
        let count := match ip4 enr with
                     | Some other_ip => if decide (net24 other_ip = net24 ip) then S count else count
                     | None => count
                     end in
        if decide (limit <= count) then false else ip_filter_loop v ip limit count others
  end.

Definition ip_filter (v : Enr) (others : list Enr) (limit : nat) : bool :=
  match ip4 v with
  | Some ip => ip_filter_loop v ip limit 0 others
  | None => true
  end.

(** [impl Filter<Enr> for IpTableFilter] and [IpBucketFilter]. *)
Definition IpTableFilter : Filter Enr := fun v others => ip_filter v others MAX_NODES_PER_SUBNET_TABLE.
Definition IpBucketFilter : Filter Enr := fun v others => ip_filter v others MAX_NODES_PER_SUBNET_BUCKET.

(** ** What the filter decides *)

Definition in_net (net : list byte) (enr : Enr) : bool :=
  match ip4 enr with Some ip => bool_decide (net24 ip = net) | None => false end.

Lemma ip_filter_loop_spec v ip limit count others :
  count < limit ->
  ip_filter_loop v ip limit count others =
  bool_decide (count + countb (fun e => negb (bool_decide (e = v)) && in_net (net24 ip) e) others < limit).
Proof.
  revert count; induction others as [|e others IH]; intros count Hc; simpl.
  - symmetry. apply bool_decide_eq_true. lia.
  - destruct (decide (e = v)) as [->|Hne].
    { rewrite (bool_decide_eq_true_2 (v = v)) by done. simpl. by apply IH. }
    rewrite (bool_decide_eq_false_2 (e = v)) by done. simpl.
    assert (match ip4 e with
            | Some other_ip => if decide (net24 other_ip = net24 ip) then S count else count
            | None => count
            end = if in_net (net24 ip) e then S count else count) as ->.
    { unfold in_net. destruct (ip4 e); [|done]. by case_decide; case_bool_decide. }
    destruct (in_net (net24 ip) e); [|rewrite decide_False by lia; by apply IH].
    destruct (decide (limit <= S count)).
    + symmetry. apply bool_decide_eq_false. lia.
    + rewrite IH by lia. apply bool_decide_ext. lia.
Qed.

Lemma countb_distinct (v : Enr) (f : Enr -> bool) (l : list Enr) :
  v ∉ l -> countb (fun e => negb (bool_decide (e = v)) && f e) l = countb f l.
Proof.
  induction l as [|e l IH]; simpl; [done|]. rewrite not_elem_of_cons. intros [Hne Hnin].
  rewrite bool_decide_eq_false_2 by done. simpl. by rewrite IH.
Qed.
End Filter.
End IpFilter.

Import IpFilter.

(** [ip_filter] with a positive limit accepts a record exactly when it has no IPv4 address or
    fewer than [limit] of the other records, not counting records equal to it,
    are in its /24 network. *)
Theorem ip_filter_spec {Enr} `{EqDecision Enr} (ip4 : Enr -> option Ipv4Addr) v others limit :
  0 < limit ->
  ip_filter ip4 v others limit = true <->
  forall ip, ip4 v = Some ip ->
    countb (fun e => negb (bool_decide (e = v)) && in_net ip4 (net24 ip) e) others < limit.
Proof.
  intros Hl. unfold ip_filter. destruct (ip4 v) as [ip|]; [|naive_solver].
  rewrite ip_filter_loop_spec by done. rewrite bool_decide_eq_true. naive_solver.
Qed.

(** ** The limit per bucket *)

Section Limit.
Context {T Enr : Type} `{EqDecision Enr}.
Context (ip4 : Enr -> option Ipv4Addr) (node_id : Enr -> NodeId).
Import BucketSpec BucketTrace.
Implicit Types (s : SBucket T Enr) (n : Node T Enr).

(** A node stored under the key of its record. *)
Definition keyed n : Prop := node_id (value n) = Key.hash (key n).

(** The operations of the table and the service: every node and value is given
    under the key of its record, and nothing is written past the filters. *)
Definition op_keyed (op : bucket_op T Enr) : Prop :=
  match op with
  | OpInsert n => keyed n
  | OpUpdateValue k v => node_id v = Key.hash k
  | OpValueMut _ _ | OpPendingValue _ => False
  | _ => True
  end.

Definition net_count (net : list byte) (l : list (Node T Enr)) : nat :=
  countb (fun n => in_net ip4 net (value n)) l.

Record net_inv s : Prop := {
  net_filter : sfilter s = Some (IpBucketFilter ip4);
  net_keyed : Forall keyed (all s);
  net_slot : forall p, slot s = Some p -> keyed (node p);
  net_limit : forall net, net_count net (all s) <= MAX_NODES_PER_SUBNET_BUCKET;
}.

Lemma keyed_distinct n l :
  keyed n -> Forall keyed l -> Key.hash (key n) ∉ keys l -> value n ∉ (value <$> l).
Proof.
  intros Hn Hl Hk [m [Heq Hm]]%list_elem_of_fmap_1. rewrite Forall_forall in Hl.
  apply Hk. unfold keys. apply list_elem_of_fmap. exists m. split; [|done].
  rewrite <-(Hl m Hm), <-Hn. by f_equal.
Qed.

(** An admitted record finds less than the limit from its own network. *)
Lemma admits_count s n net :
  net_inv s -> keyed n -> Key.hash (key n) ∉ keys (all s) ->
  admits s (value n) = true -> in_net ip4 net (value n) = true ->
  net_count net (all s) < MAX_NODES_PER_SUBNET_BUCKET.
Proof.
  intros [Hf Hk _ _] Hn Hnin Ha Hnet. unfold admits in Ha. rewrite Hf in Ha.
  unfold IpBucketFilter, ip_filter in Ha. unfold in_net in Hnet.
  destruct (ip4 (value n)) as [ip|]; [|done]. apply bool_decide_eq_true in Hnet as <-.
  rewrite ip_filter_loop_spec, bool_decide_eq_true in Ha by (unfold MAX_NODES_PER_SUBNET_BUCKET; lia).
  rewrite countb_distinct in Ha by by apply keyed_distinct.
  unfold net_count. by rewrite countb_fmap in Ha.
Qed.

Lemma net_inv_sublist s s' :
  net_inv s -> sfilter s' = sfilter s -> all s' `sublist_of` all s ->
  (forall p, slot s' = Some p -> keyed (node p)) -> net_inv s'.
Proof.
  intros [Hf Hk Hp Hl] Hf' Hsub Hp'. constructor; auto; [congruence|by eapply Forall_sublist|].
  intros net. eapply Nat.le_trans; [by apply countb_sublist|apply Hl].
Qed.

Lemma net_inv_append s s' n :
  net_inv s -> net_inv s' -> all s' `sublist_of` all s -> keyed n ->
  Key.hash (key n) ∉ keys (all s) -> admits s (value n) = true -> net_inv (append s' n).
Proof.
  intros Hs [Hf' Hk' Hp' Hl'] Hsub Hn Hnin Ha.
  constructor.
  - rewrite <-Hf'. unfold append. by destruct (is_connected _).
  - rewrite append_nodes. by constructor.
  - rewrite slot_append. done.
  - intros net. unfold net_count. rewrite (countb_Permutation _ _ _ (append_nodes s' n)). simpl.
    destruct (in_net ip4 net (value n)) eqn:E; [|apply Hl'].
    pose proof (admits_count s n net Hs Hn Hnin Ha E).
    pose proof (countb_sublist (fun n => in_net ip4 net (value n)) _ _ Hsub).
    unfold net_count in *. lia.
Qed.

Lemma all_with_slot s p : all (with_slot s p) = all s.
Proof. done. Qed.

Lemma net_inv_detach s k n s' : net_inv s -> detach s k = Some (n, s') -> net_inv s' /\ keyed n.
Proof.
  intros Hs Hd. destruct (detach_sub s k n s' Hd) as (Hsub & Hn & Hsl & Hf). split.
  - eapply net_inv_sublist; eauto. rewrite Hsl. apply Hs.
  - pose proof (net_keyed s Hs) as Hk. rewrite Forall_forall in Hk. auto.
Qed.

Lemma net_inv_slot s (o : option (PendingNode T Enr)) :
  net_inv s -> (forall p, o = Some p -> keyed (node p)) -> net_inv (with_slot s o).
Proof. intros Hs Ho. by eapply net_inv_sublist. Qed.

(** A changed value takes the place of the old one. *)
Lemma revalue_permutation s k v n s' :
  wf s -> detach s k = Some (n, s') -> revalue k v (all s) ≡ₚ set_value n v :: all s'.
Proof.
  intros Hwf Ed. pose proof (detach_position s k) as Hpos. rewrite Ed in Hpos.
  destruct Hpos as [pos Hpos]. destruct (sim_detach s k n s' pos Hwf Ed Hpos) as (Hrem & _).
  pose proof Hpos as Hpos'. apply position_Some in Hpos' as (l1 & m & l2 & Hall & Hlen & _).
  change (nodes (concrete s)) with (all s) in Hall.
  rewrite Hall, <-Hlen, array_remove_middle in Hrem. injection Hrem as -> Hs'.
  rewrite (revalue_all s k n s' (length l1) v l1 l2), <-Hs' by congruence. by rewrite Permutation_middle.
Qed.

Lemma net_inv_permutation s s' :
  net_inv s -> sfilter s' = sfilter s -> slot s' = slot s -> all s' ≡ₚ all s -> net_inv s'.
Proof.
  intros [Hf Hk Hp Hl] Hf' Hs' Hall. constructor; [congruence|by rewrite Hall|by rewrite Hs'|].
  intros net. unfold net_count. rewrite (countb_Permutation _ _ _ Hall). apply Hl.
Qed.

Lemma net_inv_insert now s n : net_inv s -> keyed n -> net_inv (fst (spec_insert now s n)).
Proof.
  intros Hs Hn. unfold spec_insert. destruct (member s (key n)) eqn:Em; [done|].
  apply member_false in Em. destruct (admits s (value n)) eqn:Ea; simpl; [|done].
  destruct (incoming_full s n); [done|]. destruct (full s).
  { destruct (is_connected _), (disc s), (slot s); try done. apply net_inv_slot; [done|]. by intros ? [= <-]. }
  apply (net_inv_append s); [done| |by rewrite all_drop_slot_of|done..].
  unfold drop_slot_of. destruct (slot s) as [p|]; [|done]. destruct (Key.eqb _ _); [|done].
  by apply net_inv_slot.
Qed.

Lemma net_inv_apply_pending now s : wf s -> net_inv s -> net_inv (fst (spec_apply_pending now s)).
Proof.
  intros Hwf Hs. unfold spec_apply_pending. destruct (slot s) as [p|] eqn:Ep; [|done].
  destruct (Z.leb _ _); [|done]. pose proof (net_slot s Hs p Ep) as Hn.
  pose proof (wf_slot s Hwf p Ep) as Hnin.
  assert (net_inv (with_slot s None)) as Hs0 by by apply net_inv_slot.
  destruct (admits s (value (node p))) eqn:Ea; simpl; [|done].
  destruct (incoming_full s (node p)); [done|]. destruct (full s); simpl.
  - destruct (disc s) as [|old ds] eqn:Ed; [done|]. simpl.
    assert (ds ++ conn s `sublist_of` all s) as Hsub
      by (unfold all; rewrite Ed; by apply sublist_cons).
    eapply net_inv_append; [exact Hs| |exact Hsub|done..].
    by eapply net_inv_sublist; [exact Hs0|..].
  - by eapply net_inv_append; [exact Hs|..].
Qed.

Lemma net_inv_change_slot s k f :
  net_inv s -> (forall n, keyed n -> Key.hash (key n) = Key.hash k -> keyed (f n)) ->
  net_inv (fst (change_slot s k f)).
Proof.
  intros Hs Hf. unfold change_slot. destruct (slot s) as [p|] eqn:Ep; [|done].
  destruct (Key.eqb _ _) eqn:Ek; [|done]. apply net_inv_slot; [done|]. intros q [= <-]. simpl.
  apply Key.eqb_true in Ek. apply Hf; [by apply (net_slot s Hs)|done].
Qed.

Lemma net_inv_update_status s k st dir :
  wf s -> net_inv s -> net_inv (fst (spec_update_status s k st dir)).
Proof.
  intros Hwf Hs. unfold spec_update_status. destruct (detach s k) as [[n s']|] eqn:Ed.
  - destruct (net_inv_detach s k n s' Hs Ed) as [Hs' Hn].
    destruct (room_detach s k n s' Hwf Ed) as [_ _ Hnin _].
    unfold reinsert. set (n' := update_node_status n st dir).
    set (s1 := if is_oldest s k && is_connected (status n') then with_slot s' None else s').
    assert (net_inv s1 /\ all s1 = all s') as [Hs1 Hall].
    { unfold s1. destruct (_ && _); [|done]. split; [by apply net_inv_slot|done]. }
    destruct (admits s1 (value n')) eqn:Ea; simpl; [|done].
    destruct (incoming_full s1 n'); [done|]. simpl.
    apply (net_inv_append s1); try done. by rewrite Hall.
  - by apply net_inv_change_slot.
Qed.

Lemma net_inv_update_value s k v :
  wf s -> net_inv s -> node_id v = Key.hash k -> net_inv (fst (spec_update_value s k v)).
Proof.
  intros Hwf Hs Hv. unfold spec_update_value. destruct (detach s k) as [[n s']|] eqn:Ed.
  - destruct (net_inv_detach s k n s' Hs Ed) as [Hs' Hn].
    destruct (room_detach s k n s' Hwf Ed) as [_ _ Hnin _].
    destruct (decide _); [done|]. destruct (admits s' v) eqn:Ea; simpl; [|done].
    pose proof (detach_sub s k n s' Ed) as (_ & _ & Hsl & Hf).
    pose proof (detach_hash s k n s' Ed) as Hk.
    apply (net_inv_permutation (append s' (set_value n v))).
    + apply (net_inv_append s'); try done. unfold keyed. simpl. congruence.
    + unfold append. by destruct (is_connected _).
    + rewrite slot_append. simpl. congruence.
    + rewrite append_nodes. unfold all at 1. simpl. unfold revalue. rewrite <-fmap_app.
      by apply revalue_permutation.
  - apply net_inv_change_slot; [done|]. intros n Hn Hk. unfold keyed. simpl. congruence.
Qed.

Lemma net_inv_op now op s :
  wf s -> net_inv s -> op_keyed op -> net_inv (fst (spec_op now op s)).
Proof.
  intros Hwf Hs Hop. destruct op as [n| |k st dir|k v|k|st|k v|v]; simpl in *; try done.
  - pose proof (net_inv_insert now s n Hs Hop). by destruct (spec_insert _ _ _).
  - pose proof (net_inv_apply_pending now s Hwf Hs). by destruct (spec_apply_pending _ _).
  - pose proof (net_inv_update_status s k st dir Hwf Hs). by destruct (spec_update_status _ _ _ _).
  - pose proof (net_inv_update_value s k v Hwf Hs Hop). by destruct (spec_update_value _ _ _).
  - unfold spec_remove. destruct (detach s k) as [[n s']|] eqn:Ed; [|done]. simpl.
    apply net_inv_apply_pending; [eapply room_wf, room_detach; eauto|].
    by eapply net_inv_detach.
  - unfold spec_update_pending. destruct (slot s) as [p|] eqn:Ep; [|done].
    apply net_inv_slot; [done|]. intros q [= <-]. exact (net_slot s Hs p Ep).
Qed.

Lemma net_inv_trace tr s :
  wf s -> net_inv s -> Forall (fun '(_, op) => op_keyed op) tr -> net_inv (fst (spec_trace tr s)).
Proof.
  revert s; induction tr as [|[now op] tr IH]; intros s Hwf Hs Htr; simpl; [done|].
  apply Forall_cons in Htr as [Hop Htr].
  pose proof (net_inv_op now op s Hwf Hs Hop) as Hs1.
  destruct (sim_op now op s Hwf) as [_ Hwf1]. destruct (spec_op now op s) as [s1 r].
  pose proof (IH s1 Hwf1 Hs1 Htr). by destruct (spec_trace tr s1).
Qed.

Lemma net_inv_empty tmo mi : net_inv (empty tmo mi (Some (IpBucketFilter ip4))).
Proof. constructor; simpl; try done. intros net. unfold net_count. simpl. lia. Qed.
End Limit.

Import BucketTrace.

(** C19: With [IpBucketFilter] no bucket ever holds more than
    [MAX_NODES_PER_SUBNET_BUCKET] records of one /24 network.  It holds after
    every history of inserts, applied pending nodes, status and value updates
    and removals whose records are given under the key of their own node id,
    also for pending nodes, whose record the filter sees twice. *)
Theorem ip_bucket_limit {T Enr} `{EqDecision Enr} (ip4 : Enr -> option Ipv4Addr)
    (node_id : Enr -> NodeId) (tr : list (Z * bucket_op T Enr)) (tmo : Z) (mi : nat) :
  Forall (fun '(_, op) => op_keyed node_id op) tr ->
  exists b rs,
    run_trace tr (KBucket.new tmo mi (Some (IpBucketFilter ip4))) = Ret (b, rs) /\
    forall net, net_count ip4 net (nodes b) <= MAX_NODES_PER_SUBNET_BUCKET.
Proof.
  intros Htr. pose proof (wf_empty (T:=T) tmo mi (Some (IpBucketFilter ip4))) as Hwf.
  destruct (sim_trace tr _ Hwf) as [Hrun _].
  pose proof (net_inv_trace ip4 node_id tr _ Hwf (net_inv_empty ip4 node_id tmo mi) Htr) as Hinv.
  eexists _, _. split; [exact Hrun|]. exact (net_limit _ _ _ Hinv).
Qed.

(** Records of a node id and an address, under keys of their own ids. *)
Definition sample_enr (id : Z) (ip : list Z) : NodeId * option Ipv4Addr :=
  (sample_id id, match byte_of_Z <$> ip with [a; b; c; d] => Some [# a; b; c; d] | _ => None end).

Lemma ip_filter_spec_witness :
  0 < 2 /\ ip_filter snd (sample_enr 3 [10; 0; 0; 3]%Z)
             [sample_enr 1 [10; 0; 0; 1]%Z; sample_enr 3 [10; 0; 0; 3]%Z; sample_enr 2 [10; 0; 1; 1]%Z] 2 = true.
Proof.
  split; [lia|]. apply ip_filter_spec; [lia|]. intros ip [= <-]. vm_compute. lia.
Defined.

Definition sample_insert (e : NodeId * option Ipv4Addr) : bucket_op unit (NodeId * option Ipv4Addr) :=
  OpInsert (mkNode (Key.mkKey tt (fst e)) e (mkStatus Outgoing Connected)).

Lemma ip_bucket_limit_witness :
  exists b rs,
    run_trace (pair 0%Z <$> [sample_insert (sample_enr 1 [10; 0; 0; 1]%Z);
                             sample_insert (sample_enr 2 [10; 0; 0; 2]%Z);
                             sample_insert (sample_enr 3 [10; 0; 0; 3]%Z)])
      (KBucket.new 60 5 (Some (IpBucketFilter snd))) = Ret (b, rs) /\
    forall net, net_count snd net (nodes b) <= MAX_NODES_PER_SUBNET_BUCKET.
Proof. apply (ip_bucket_limit snd fst). repeat constructor. Defined.
