(* ===== verification/Table.v ===== *)
(** * The routing table (src/src/kbucket.rs)

    [KBucketsTable]: the local key, 256 buckets, the queue of applied pending
    entries and the table filter.  Every operation that reads the clock twice
    takes both readings ([now], then [now']).  Indexing [self.buckets[i]] is a
    lookup followed by [unwrap]. *)

From S2P Require Import Prelude Bytes Key Bucket BucketSpec BucketProofs BucketRefine BucketTrace.
Import KBucket.

Definition NUM_BUCKETS : nat := 256.

Module BucketIndex.

(** [BucketIndex::new]; [leading_zeros] is at most 256. *)
Definition new (d : Distance) : option nat :=
  checked_sub (NUM_BUCKETS - Z.to_nat (Key.leading_zeros d)) 1.

End BucketIndex.

Module Table.

Record KBucketsTable (T V : Type) := mkTable {
  local_key : Key T;
  buckets : list (KBucket T V);
  applied_pending : list (AppliedPending T V);
  table_filter : option (Filter V);
}.
Arguments mkTable {T V} local_key buckets applied_pending table_filter.
Arguments local_key {T V} t : rename.
Arguments buckets {T V} t : rename.
Arguments applied_pending {T V} t : rename.
Arguments table_filter {T V} t : rename.

(** [kbucket::InsertResult]. *)
Inductive TableInsertResult (T : Type) :=
  | TInserted
  | TPending (disconnected : Key T)
  | TStatusUpdated (promoted_to_connected : bool)
  | TValueUpdated
  | TUpdated (promoted_to_connected : bool)
  | TUpdatedPending
  | TFailed (reason : FailureReason).
Arguments TInserted {T}.
Arguments TPending {T} disconnected.
Arguments TStatusUpdated {T} promoted_to_connected.
Arguments TValueUpdated {T}.
Arguments TUpdated {T} promoted_to_connected.
Arguments TUpdatedPending {T}.
Arguments TFailed {T} reason.

Section Table.
Context {T V : Type} `{EqDecision V}.
Implicit Types (t : KBucketsTable T V) (k : Key T) (b : KBucket T V).

Definition set_bucket t (i : nat) b : KBucketsTable T V :=
  mkTable (local_key t) (<[i := b]> (buckets t)) (applied_pending t) (table_filter t).

Definition push_applied t (a : option (AppliedPending T V)) : KBucketsTable T V :=
  match a with
  | Some a => mkTable (local_key t) (buckets t) (applied_pending t ++ [a]) (table_filter t)
  | None => t
  end.

Definition new (local : Key T) (pending_timeout : Z) (max_incoming_per_bucket : nat)
    (tf bf : option (Filter V)) : KBucketsTable T V :=
  mkTable local
    ((fun _ => KBucket.new pending_timeout max_incoming_per_bucket bf) <$> seq 0 NUM_BUCKETS)
    [] tf.

Definition index_of t k : option nat := BucketIndex.new (Key.distance (local_key t) k).

(** [let bucket = &mut self.buckets[i]; if let Some(applied) =
    bucket.apply_pending() { self.applied_pending.push_back(applied) }]: the
    table with the bucket written back, and the bucket. *)
Definition apply_bucket (now : Z) t (i : nat) : outcome (KBucketsTable T V * KBucket T V) :=
  b ← unwrap (buckets t !! i);
  '(b, a) ← apply_pending now b;
  Ret (push_applied (set_bucket t i b) a, b).

Definition update_node_status (now now' : Z) t k (st : ConnectionState)
    (dir : option ConnectionDirection) : outcome (KBucketsTable T V * UpdateResult) :=
  match index_of t k with
  | Some i =>
      '(t, b) ← apply_bucket now t i;
      '(b, r) ← update_status now' b k st dir;
      Ret (set_bucket t i b, r)
  | None => Ret (t, NotModified)
  end.

(** [table_iter]: the values a table filter sees. *)
Definition table_iter t : list V :=
  buckets t ≫= fun b => value <$> nodes b.

(** The table filter at the head of [update_node] and [insert_or_update], with
    the check for a value that is already stored. *)
Definition duplicate t k (v : V) : outcome bool :=
  match index_of t k with
  | Some i =>
      b ← unwrap (buckets t !! i);
      Ret (match get b k with Some n => bool_decide (value n = v) | None => false end)
  | None => Ret false
  end.

Definition passes_table_filter t k (v : V) : outcome bool :=
  match table_filter t with
  | Some f =>
      d ← duplicate t k v;
      Ret (d || f v (table_iter t))
  | None => Ret true
  end.

(** The answer of [update_node] from the two updates. *)
Definition merge_updates (update_result status_result : UpdateResult) : UpdateResult :=
  match update_result, status_result with
  | _, Failed _ => status_result
  | Failed _, _ => update_result
  | _, UpdatedAndPromoted => UpdatedAndPromoted
  | UpdatedPending, _ => UpdatedPending
  | _, UpdatedPending => UpdatedPending
  | NotModified, NotModified => NotModified
  | _, _ => Updated
  end.

Definition update_node (now now' : Z) t k (v : V) (st : option ConnectionState)
    : outcome (KBucketsTable T V * UpdateResult) :=
  passed ← passes_table_filter t k v;
  match index_of t k with
  | Some i =>
      '(t, b) ← apply_bucket now t i;
      if negb passed then
        '(b, _) ← remove now' b k;
        Ret (set_bucket t i b, Failed Reason_TableFilter)
      else
        '(b, update_result) ← update_value b k v;
        if failed update_result then Ret (set_bucket t i b, update_result)
        else
          '(b, status_result) ←
            match st with
            | Some st => update_status now' b k st None
            | None => Ret (b, NotModified)
            end;
          Ret (set_bucket t i b, merge_updates update_result status_result)
  | None => Ret (t, NotModified)
  end.

(** The two [match]es of [insert_or_update]. *)
Definition from_bucket_insert (r : InsertResult T) : outcome (TableInsertResult T) :=
  match r with
  | NodeExists => Panic
  | Full => Ret (TFailed Reason_BucketFull)
  | TooManyIncoming => Ret (TFailed Reason_TooManyIncoming)
  | FailedFilter => Ret (TFailed Reason_BucketFilter)
  | Pending d => Ret (TPending d)
  | Inserted => Ret TInserted
  end.

Definition from_updates (update_value update_status : UpdateResult) : outcome (TableInsertResult T) :=
  match update_value, update_status with
  | Updated, Updated => Ret (TUpdated false)
  | Updated, UpdatedAndPromoted => Ret (TUpdated true)
  | Updated, (NotModified | UpdatedPending) => Ret TValueUpdated
  | NotModified, Updated => Ret (TStatusUpdated false)
  | NotModified, UpdatedAndPromoted => Ret (TStatusUpdated true)
  | NotModified, NotModified => Ret (TUpdated false)
  | UpdatedPending, _ | _, UpdatedPending => Ret TUpdatedPending
  | Failed reason, _ => Ret (TFailed reason)
  | _, Failed _ => Panic
  | UpdatedAndPromoted, _ => Panic
  end.

Definition insert_or_update (now now' : Z) t k (v : V) (s : NodeStatus)
    : outcome (KBucketsTable T V * TableInsertResult T) :=
  passed ← passes_table_filter t k v;
  match index_of t k with
  | Some i =>
      '(t, b) ← apply_bucket now t i;
      if negb passed then
        '(b, _) ← remove now' b k;
        Ret (set_bucket t i b, TFailed Reason_TableFilter)
      else
        match position_of b k with
        | None =>
            '(b, r) ← insert now' b (mkNode k v s);
            r ← from_bucket_insert r;
            Ret (set_bucket t i b, r)
        | Some _ =>
            '(b, us) ← update_status now' b k (state s) (Some (direction s));
            if failed us then Ret (set_bucket t i b, TFailed Reason_TooManyIncoming)
            else
              '(b, uv) ← update_value b k v;
              r ← from_updates uv us;
              Ret (set_bucket t i b, r)
        end
  | None => Ret (t, TFailed Reason_InvalidSelfUpdate)
  end.

(** [KBucketsTable::remove]. *)
Definition table_remove (now now' : Z) t k : outcome (KBucketsTable T V * bool) :=
  match index_of t k with
  | Some i =>
      '(t, b) ← apply_bucket now t i;
      '(b, r) ← remove now' b k;
      Ret (set_bucket t i b, r)
  | None => Ret (t, false)
  end.

(** [KBucketsTable::entry]: the table after the pending entry is applied, and
    the entry, which borrows its bucket. *)
Definition entry (now : Z) t k : outcome (KBucketsTable T V * Entry.Entry T V) :=
  match index_of t k with
  | Some i =>
      '(t, b) ← apply_bucket now t i;
      Ret (t, Entry.new b k)
  | None => Ret (t, Entry.SelfEntry)
  end.

(** [iter], run to its end: the pending entry of each bucket is applied before
    the bucket is listed, at the clock reading [clock i]. *)
Fixpoint iter_from (clock : nat -> Z) t (idxs : list nat)
    : outcome (KBucketsTable T V * list (Node T V)) :=
  match idxs with
  | [] => Ret (t, [])
  | i :: idxs =>
      '(t, b) ← apply_bucket (clock i) t i;
      '(t, l) ← iter_from clock t idxs;
      Ret (t, nodes b ++ l)
  end.
Definition iter (clock : nat -> Z) t : outcome (KBucketsTable T V * list (Node T V)) :=
  iter_from clock t (seq 0 (length (buckets t))).

Definition iter_ref t : list (Node T V) := buckets t ≫= nodes.

Definition take_applied_pending t : KBucketsTable T V * option (AppliedPending T V) :=
  match applied_pending t with
  | [] => (t, None)
  | a :: l => (mkTable (local_key t) (buckets t) l (table_filter t), Some a)
  end.

(** [nodes_by_distances]: the loop that applies pending entries (the [j]-th
    distance at clock reading [clock j]) and the loop that collects nodes. *)
Fixpoint apply_distances (clock : nat -> Z) (max_nodes j node_count : nat) t (distances : list Z)
    : outcome (KBucketsTable T V) :=
  match distances with
  | [] => Ret t
  | d :: ds =>
      let i := Z.to_nat (d - 1) in
      b ← unwrap (buckets t !! i);
      '(b, applied) ← apply_pending (clock j) b;
      let t := push_applied (set_bucket t i b) applied in
      match applied with
      | Some _ =>
          let node_count := node_count + num_entries b in
          if decide (max_nodes <= node_count) then Ret t
          else apply_distances clock max_nodes (S j) node_count t ds
      | None => apply_distances clock max_nodes (S j) node_count t ds
      end
  end.

(** The inner loop: push nodes until there are enough; [true] is the early return. *)
Fixpoint push_nodes (max_nodes : nat) (acc l : list (Node T V)) : list (Node T V) * bool :=
  match l with
  | [] => (acc, false)
  | n :: l =>
      let acc := acc ++ [n] in
      if decide (max_nodes <= length acc) then (acc, true) else push_nodes max_nodes acc l
  end.

Fixpoint collect_distances (max_nodes : nat) t (acc : list (Node T V)) (distances : list Z)
    : outcome (list (Node T V)) :=
  match distances with
  | [] => Ret acc
  | d :: ds =>
      b ← unwrap (buckets t !! Z.to_nat (d - 1));
      let '(acc, done) := push_nodes max_nodes acc (nodes b) in
      if done : bool then Ret acc else collect_distances max_nodes t acc ds
  end.

Definition valid_distance (d : Z) : bool := Z.ltb 0 d && Z.leb d (Z.of_nat NUM_BUCKETS).

Definition nodes_by_distances (clock : nat -> Z) t (log2_distances : list Z) (max_nodes : nat)
    : outcome (KBucketsTable T V * list (Node T V)) :=
  let distances := List.filter valid_distance log2_distances in
  t ← apply_distances clock max_nodes 0 0 t distances;
  l ← collect_distances max_nodes t [] distances;
  Ret (t, l).

Definition get_bucket t k : outcome (option (KBucket T V)) :=
  match index_of t k with
  | Some i => b ← unwrap (buckets t !! i); Ret (Some b)
  | None => Ret None
  end.

Definition get_index t k : option nat := index_of t k.

End Table.
End Table.
