(* ===== verification/TableProofs.v ===== *)
(** * The invariant of the routing table

    Every node and every pending node sits in the bucket of its distance to
    the local key, and every bucket satisfies [bucket_inv].  The operations of
    the table do not panic and keep this. *)

From S2P Require Import Prelude Bytes Key Bucket BucketSpec BucketProofs BucketRefine BucketTrace BucketPost Table.
Import KBucket BucketSpec BucketTrace Table.

Section Placed.
Context {T V : Type} `{EqDecision V}.
Implicit Types (s : SBucket T V) (b : KBucket T V) (n : Node T V) (P : Key T -> Prop).

(** Every key that a bucket stores satisfies [P]. *)
Definition placed P b : Prop :=
  Forall (fun n => P (key n)) (nodes b) /\ forall p, pending b = Some p -> P (key (node p)).

Definition bucket_ok P b : Prop := bucket_inv b /\ placed P b.

(** The keys an operation brings into the bucket. *)
Definition op_placed P (op : bucket_op T V) : Prop :=
  match op with OpInsert n => P (key n) | _ => True end.

Lemma placed_sublist P s s' :
  placed P (concrete s) -> all s' `sublist_of` all s ->
  (forall p, slot s' = Some p -> P (key (node p))) -> placed P (concrete s').
Proof. intros [Hn _] Hs Hp. split; [by eapply Forall_sublist|done]. Qed.

Lemma placed_append P s n : placed P (concrete s) -> P (key n) -> placed P (concrete (append s n)).
Proof.
  intros [Hn Hp] HP. split; simpl in *.
  - rewrite append_nodes. by constructor.
  - by rewrite slot_append.
Qed.

Lemma placed_slot P s (o : option (PendingNode T V)) :
  placed P (concrete s) -> (forall p, o = Some p -> P (key (node p))) ->
  placed P (concrete (with_slot s o)).
Proof. intros Hs Ho. by eapply placed_sublist. Qed.

Lemma placed_detach P s k n s' :
  placed P (concrete s) -> detach s k = Some (n, s') -> placed P (concrete s') /\ P (key n).
Proof.
  intros Hs Hd. destruct (detach_sub s k n s' Hd) as (Hsub & Hn & Hsl & _). split.
  - eapply placed_sublist; [done..|]. rewrite Hsl. apply Hs.
  - destruct Hs as [Hs _]. simpl in Hs. rewrite Forall_forall in Hs. auto.
Qed.

Lemma placed_revalue P s k v :
  placed P (concrete s) ->
  placed P (concrete (with_queues s (revalue k v (disc s)) (revalue k v (conn s)))).
Proof.
  intros [Hn Hp]. split; [|done]. rewrite concrete_revalue. simpl in *.
  unfold revalue. apply Forall_fmap. eapply Forall_impl; [exact Hn|]. intros n Hk. simpl.
  by destruct (Key.eqb (key n) k).
Qed.

Lemma placed_insert P now s n :
  placed P (concrete s) -> P (key n) -> placed P (concrete (fst (spec_insert now s n))).
Proof.
  intros Hs Hn. unfold spec_insert. destruct (member s (key n)); [done|].
  destruct (negb _); [done|]. destruct (incoming_full s n); [done|]. destruct (full s).
  { destruct (is_connected _), (disc s), (slot s); try done. apply placed_slot; [done|]. by intros ? [= <-]. }
  apply placed_append; [|done]. unfold drop_slot_of. destruct (slot s) as [p|]; [|done].
  destruct (Key.eqb _ _); [|done]. by apply placed_slot.
Qed.

Lemma placed_apply_pending P now s :
  placed P (concrete s) -> placed P (concrete (fst (spec_apply_pending now s))).
Proof.
  intros Hs. unfold spec_apply_pending. destruct (slot s) as [p|] eqn:Ep; [|done].
  destruct (Z.leb _ _); [|done]. pose proof (proj2 Hs p Ep) as Hn.
  assert (placed P (concrete (with_slot s None))) as Hs0 by by apply placed_slot.
  destruct (negb _ || _); [done|]. destruct (full s); simpl.
  - destruct (disc s) as [|old ds] eqn:Ed; [done|]. apply placed_append; [|done].
    eapply placed_sublist; [exact Hs0| |done].
    unfold all. simpl. rewrite Ed. by apply sublist_cons.
  - by apply placed_append.
Qed.

Lemma placed_change_slot P s k f :
  placed P (concrete s) -> (forall n, key (f n) = key n) ->
  placed P (concrete (fst (change_slot s k f))).
Proof.
  intros Hs Hf. unfold change_slot. destruct (slot s) as [p|] eqn:Ep; [|done].
  destruct (Key.eqb _ _); [|done]. apply placed_slot; [done|]. intros q [= <-]. simpl.
  rewrite Hf. by apply Hs.
Qed.

Lemma placed_op P now op s :
  placed P (concrete s) -> op_placed P op -> placed P (concrete (fst (spec_op now op s))).
Proof.
  intros Hs Hop. destruct op as [n| |k st dir|k v|k|st|k v|v]; simpl in *.
  - pose proof (placed_insert P now s n Hs Hop). by destruct (spec_insert _ _ _).
  - pose proof (placed_apply_pending P now s Hs). by destruct (spec_apply_pending _ _).
  - assert (placed P (concrete (fst (spec_update_status s k st dir)))); [|by destruct (spec_update_status _ _ _ _)].
    unfold spec_update_status. destruct (detach s k) as [[n s']|] eqn:Ed; [|by apply placed_change_slot].
    destruct (placed_detach P s k n s' Hs Ed) as [Hs' Hn]. unfold reinsert.
    set (s1 := if _ && _ then _ else _). assert (placed P (concrete s1)) as Hs1.
    { unfold s1. destruct (_ && _); [|done]. by apply placed_slot. }
    destruct (negb _); [done|]. destruct (incoming_full s1 _); [done|]. by apply placed_append.
  - assert (placed P (concrete (fst (spec_update_value s k v)))); [|by destruct (spec_update_value _ _ _)].
    unfold spec_update_value. destruct (detach s k) as [[n s']|] eqn:Ed; [|by apply placed_change_slot].
    destruct (decide _); [done|]. destruct (negb _); [|by apply placed_revalue].
    by eapply placed_detach.
  - unfold spec_remove. destruct (detach s k) as [[n s']|] eqn:Ed; [|done]. simpl.
    apply placed_apply_pending. by eapply placed_detach.
  - unfold spec_update_pending. destruct (slot s) as [p|] eqn:Ep; [|done].
    apply placed_slot; [done|]. intros q [= <-]. exact (proj2 Hs p Ep).
  - destruct (member s k); [|done]. by apply placed_revalue.
  - destruct (slot s) as [p|] eqn:Ep; [|done]. apply placed_slot; [done|]. intros q [= <-].
    exact (proj2 Hs p Ep).
Qed.

(** Every method of a bucket returns and keeps the invariant and the placement. *)
Lemma run_op_ok P now op b :
  bucket_ok P b -> op_placed P op ->
  exists b' r, run_op now op b = Ret (b', r) /\ bucket_ok P b'.
Proof.
  intros [(s & -> & Hwf)%inv_concrete Hp] Hop. destruct (sim_op now op s Hwf) as [Hrun Hwf'].
  eexists _, _. split; [exact Hrun|]. split; [by apply concrete_inv|by apply placed_op].
Qed.
End Placed.

(** ** Bucket indices *)

Section Index.
Open Scope Z_scope.

(** The bucket index is the position of the highest set bit of the distance. *)
Lemma bucket_index_spec (d : Z) (i : nat) :
  0 <= d < 2 ^ 256 -> BucketIndex.new d = Some i <-> 2 ^ Z.of_nat i <= d < 2 ^ (Z.of_nat i + 1).
Proof.
  intros Hd. rewrite <-(Key.leading_zeros_spec d (Z.of_nat i)) by lia.
  pose proof (Key.leading_zeros_range d Hd). unfold BucketIndex.new, NUM_BUCKETS, checked_sub.
  destruct (decide _); [|split; [done|lia]].
  split; [intros [= ?]; lia|intros; f_equal; lia].
Qed.

Lemma bucket_index_lt (d : Z) i : 0 <= d < 2 ^ 256 -> BucketIndex.new d = Some i -> (i < NUM_BUCKETS)%nat.
Proof.
  intros Hd Hi. apply bucket_index_spec in Hi as [Hi _]; [|done].
  unfold NUM_BUCKETS. assert (2 ^ Z.of_nat i < 2 ^ 256) as Hlt by lia.
  apply Z.pow_lt_mono_r_iff in Hlt; lia.
Qed.

Lemma bucket_index_None (d : Z) : 0 <= d < 2 ^ 256 -> BucketIndex.new d = None <-> d = 0.
Proof.
  intros Hd. rewrite <-(Key.leading_zeros_256 d Hd).
  pose proof (Key.leading_zeros_range d Hd). unfold BucketIndex.new, NUM_BUCKETS, checked_sub.
  destruct (decide _); split; intros; try done; lia.
Qed.
End Index.

Section Inv.
Context {T V : Type} `{EqDecision V}.
Implicit Types (t : KBucketsTable T V) (b : KBucket T V) (k : Key T).

Lemma index_of_lt t k i : index_of t k = Some i -> i < NUM_BUCKETS.
Proof. apply bucket_index_lt, Key.distance_range. Qed.

(** Where a key belongs. *)
Definition belongs t (i : nat) k : Prop := index_of t k = Some i.

Record table_inv t : Prop := {
  inv_buckets : length (buckets t) = NUM_BUCKETS;
  inv_bucket : forall i b, buckets t !! i = Some b -> bucket_ok (belongs t i) b;
}.

(** Tables with the same configuration. *)
Definition same_config t t' : Prop :=
  local_key t' = local_key t /\ table_filter t' = table_filter t.

#[export] Instance same_config_refl : Reflexive same_config.
Proof. by split. Qed.
#[export] Instance same_config_trans : Transitive same_config.
Proof. intros t1 t2 t3 [] []. split; congruence. Qed.

Lemma belongs_config t t' i k : same_config t t' -> belongs t' i k <-> belongs t i k.
Proof. intros [Hl _]. unfold belongs, index_of. by rewrite Hl. Qed.

Lemma set_bucket_config t i b : same_config t (set_bucket t i b).
Proof. done. Qed.

Lemma push_applied_config t a : same_config t (push_applied t a).
Proof. by destruct a. Qed.

Lemma push_applied_inv t a : table_inv t -> table_inv (push_applied t a).
Proof. intros [Hl Hb]. by destruct a. Qed.

Lemma set_bucket_inv t i b : table_inv t -> bucket_ok (belongs t i) b -> table_inv (set_bucket t i b).
Proof.
  intros [Hl Hb] Hok. constructor; simpl; [by rewrite length_insert|].
  intros j c Hj. apply list_lookup_insert_Some in Hj as [(<- & <- & _)|[_ Hj]]; [done|by apply Hb].
Qed.

Lemma lookup_bucket t i : table_inv t -> i < NUM_BUCKETS -> exists b, buckets t !! i = Some b.
Proof. intros [Hl _] Hi. apply lookup_lt_is_Some_2. by rewrite Hl. Qed.

(** A step on bucket [i]: the table after it has the invariant, the same
    configuration, the given bucket at [i], and all other buckets unchanged. *)
Definition bucket_step t i t' b : Prop :=
  table_inv t' /\ same_config t t' /\ buckets t' !! i = Some b /\ bucket_ok (belongs t i) b /\
  forall j, j <> i -> buckets t' !! j = buckets t !! j.

Lemma set_bucket_step t t' i b b' :
  bucket_step t i t' b -> bucket_ok (belongs t i) b' -> bucket_step t i (set_bucket t' i b') b'.
Proof.
  intros (Hinv & Hc & Hi & _ & Hj) Hok. split_and!; [|done| |done|].
  - apply set_bucket_inv; [done|]. destruct Hok as [Hb [Hn Hp]]. split; [done|]. split.
    + eapply Forall_impl; [exact Hn|]. intros n. by rewrite belongs_config.
    + intros p Hpp. rewrite belongs_config by done. by apply Hp.
  - simpl. apply list_lookup_insert_eq. by eapply lookup_lt_Some.
  - intros j Hne. simpl. rewrite list_lookup_insert_ne by done. by apply Hj.
Qed.

Lemma apply_bucket_ok now t i :
  table_inv t -> i < NUM_BUCKETS ->
  exists t' b, apply_bucket now t i = Ret (t', b) /\ bucket_step t i t' b.
Proof.
  intros Hinv Hi. destruct (lookup_bucket t i Hinv Hi) as [b Hb].
  pose proof (inv_bucket t Hinv i b Hb) as Hok.
  destruct (run_op_ok _ now OpApplyPending b Hok I) as (b' & r & Hrun & Hok').
  unfold apply_bucket. rewrite Hb. simpl in *.
  destruct (apply_pending now b) as [[b1 a]|]; simplify_eq/=.
  eexists _, _. split; [done|].
  assert (buckets (push_applied (set_bucket t i b') a) = <[i:=b']> (buckets t)) as Hbs by by destruct a.
  split_and!; [|by destruct a| |done|]; rewrite ?Hbs.
  - by apply push_applied_inv, set_bucket_inv.
  - apply list_lookup_insert_eq. by eapply lookup_lt_Some.
  - intros j Hne. by rewrite list_lookup_insert_ne.
Qed.

Lemma new_inv local tmo mi tf bf : table_inv (Table.new local tmo mi tf bf).
Proof.
  constructor; [done|].
  intros i b Hi. unfold Table.new in Hi. cbn [buckets] in Hi.
  apply list_lookup_fmap_Some in Hi as (j & -> & _). split.
  - by apply (reachable_inv [] tmo mi bf _ []).
  - by split; [constructor|].
Qed.
End Inv.

(** ** The methods of a bucket, one by one *)

Section Methods.
Context {T V : Type} `{EqDecision V}.
Implicit Types (b : KBucket T V) (n : Node T V) (k : Key T) (P : Key T -> Prop).

Lemma insert_ok P now b n :
  bucket_ok P b -> P (key n) -> exists b' r, insert now b n = Ret (b', r) /\ bucket_ok P b'.
Proof.
  intros Hok Hn. destruct (run_op_ok P now (OpInsert n) b Hok Hn) as (b' & r & Hrun & Hok').
  simpl in Hrun. destruct (insert now b n) as [[b1 r1]|]; simplify_eq/=. eauto.
Qed.

Lemma update_status_ok P now b k st dir :
  bucket_ok P b -> exists b' r, update_status now b k st dir = Ret (b', r) /\ bucket_ok P b'.
Proof.
  intros Hok. destruct (run_op_ok P now (OpUpdateStatus k st dir) b Hok I) as (b' & r & Hrun & Hok').
  simpl in Hrun. destruct (update_status now b k st dir) as [[b1 r1]|]; simplify_eq/=. eauto.
Qed.

Lemma update_value_ok P b k v :
  bucket_ok P b -> exists b' r, update_value b k v = Ret (b', r) /\ bucket_ok P b'.
Proof.
  intros Hok. destruct (run_op_ok P 0 (OpUpdateValue k v) b Hok I) as (b' & r & Hrun & Hok').
  simpl in Hrun. destruct (update_value b k v) as [[b1 r1]|]; simplify_eq/=. eauto.
Qed.

Lemma remove_ok P now b k :
  bucket_ok P b -> exists b' r, remove now b k = Ret (b', r) /\ bucket_ok P b'.
Proof.
  intros Hok. destruct (run_op_ok P now (OpRemove k) b Hok I) as (b' & r & Hrun & Hok').
  simpl in Hrun. destruct (remove now b k) as [[b1 r1]|]; simplify_eq/=. eauto.
Qed.
End Methods.

(** ** The operations of the table *)

Section Ops.
Context {T V : Type} `{EqDecision V}.
Implicit Types (t : KBucketsTable T V) (b : KBucket T V) (k : Key T) (n : Node T V).

Lemma passes_table_filter_ret t k v : table_inv t -> exists p, passes_table_filter t k v = Ret p.
Proof.
  intros Hinv. unfold passes_table_filter. destruct (table_filter t) as [f|]; [|eauto].
  unfold duplicate. destruct (index_of t k) as [i|] eqn:Ei; [|simpl; eauto].
  destruct (lookup_bucket t i Hinv (index_of_lt t k i Ei)) as [b ->]. simpl. eauto.
Qed.

(** What [insert_or_update] leaves in the bucket of the key, per answer. *)
Definition insert_or_update_result (now' : Z) b k (v : V) (s : NodeStatus) (r : TableInsertResult T) : Prop :=
  match r with
  | TInserted => holds b k (mkNode k v s)
  | TPending d =>
      absent b k /\ pending b = Some (mkPending (mkNode k v s) (now' + pending_timeout b)%Z) /\
      exists old rest, nodes b = old :: rest /\ key old = d /\ is_connected (status old) = false
  | TUpdated _ | TValueUpdated | TStatusUpdated _ => exists n, holds b k n /\ value n = v /\ status n = s
  | TUpdatedPending => False
  | TFailed _ => absent b k
  end.

Lemma insert_timeout b b' now n r :
  bucket_inv b -> insert now b n = Ret (b', r) -> pending_timeout b' = pending_timeout b.
Proof.
  intros (s & -> & Hwf)%inv_concrete. rewrite sim_insert by done. intros [= <- _].
  unfold spec_insert, append, drop_slot_of. simpl.
  repeat (case_match; simpl; try done).
Qed.

Lemma insert_new_result now' b b' k v s r :
  bucket_inv b -> absent b k -> insert now' b (mkNode k v s) = Ret (b', r) ->
  exists r', from_bucket_insert r = Ret r' /\ insert_or_update_result now' b' k v s r'.
Proof.
  intros Hinv Ha Hins. pose proof (insert_post _ _ _ _ _ Hinv Hins) as Hpost.
  pose proof (insert_timeout _ _ _ _ _ Hinv Hins) as Htmo.
  destruct r; simpl; simpl in Hpost; (try by destruct Hpost as [-> ?]; eauto).
  - eexists. split; [done|]. by destruct Hpost.
  - eexists. split; [done|]. destruct Hpost as (Ha' & Hn & _ & _ & Hp & old & rest & Hl & Hk & Hc).
    simpl. rewrite Htmo, Hp, Hn. split_and!; [|done|by exists old, rest].
    unfold absent. by rewrite Hn.
  - destruct Hpost as [_ [m Hm]]. by apply holds_not_absent in Hm.
Qed.

Lemma update_both_result now' b1 b2 b3 k v s us uv n :
  bucket_inv b1 -> bucket_inv b2 -> holds b1 k n ->
  update_status now' b1 k (state s) (Some (direction s)) = Ret (b2, us) -> failed us = false ->
  update_value b2 k v = Ret (b3, uv) ->
  exists r, from_updates uv us = Ret r /\ insert_or_update_result now' b3 k v s r.
Proof.
  intros Hinv1 Hinv2 Hh Hus Hf Huv.
  pose proof (update_status_post _ _ _ _ _ _ _ _ Hinv1 Hh Hus) as Hpost.
  set (n2 := KBucket.update_node_status n (state s) (Some (direction s))) in *.
  assert (holds b2 k n2 /\ status n2 = s) as [Hh2 Hst].
  { split; [|by destruct s]. destruct us; try done; destruct_and?; try done. congruence. }
  pose proof (update_value_post _ _ _ _ _ _ Hinv2 Hh2 Huv) as Hpost2.
  destruct uv; simpl in Hpost2; try done; destruct us; simpl in *; try done;
    destruct Hpost2 as [Hb Hv]; try subst b3; (eexists; split; [done|]; simpl; eauto).
Qed.

(** The bucket of a key after its pending entry is applied. *)
Lemma apply_index_ok now t k i :
  table_inv t -> index_of t k = Some i ->
  exists t' b, apply_bucket now t i = Ret (t', b) /\ bucket_step t i t' b.
Proof. intros Hinv Hi. apply apply_bucket_ok; [done|]. by eapply index_of_lt. Qed.

Lemma holds_or_absent b k : bucket_inv b -> absent b k \/ exists n, holds b k n.
Proof.
  intros Hinv. destruct (get b k) as [n|] eqn:E.
  - right. exists n. by apply get_holds.
  - left. by apply get_absent.
Qed.

Lemma insert_or_update_ok now now' t k v s :
  table_inv t ->
  exists t' r, insert_or_update now now' t k v s = Ret (t', r) /\
  match index_of t k with
  | None => t' = t /\ r = TFailed Reason_InvalidSelfUpdate
  | Some i => exists b, bucket_step t i t' b /\ insert_or_update_result now' b k v s r
  end.
Proof.
  intros Hinv. unfold insert_or_update.
  destruct (passes_table_filter_ret t k v Hinv) as [passed ->]. simpl.
  destruct (index_of t k) as [i|] eqn:Ei; [|eauto].
  destruct (apply_index_ok now t k i Hinv Ei) as (t1 & b & -> & Hstep). simpl.
  pose proof Hstep as (_ & _ & _ & Hok & _). destruct passed; simpl.
  2: { destruct (remove_ok _ now' b k Hok) as (b' & r & Hrem & Hok'). rewrite Hrem. simpl.
       eexists _, _. split; [done|]. exists b'. split; [by eapply set_bucket_step|].
       by apply (remove_post _ _ _ _ _ (proj1 Hok) Hrem). }
  destruct (holds_or_absent b k (proj1 Hok)) as [Ha|[n Hh]].
  - rewrite (proj2 (position_absent b k) Ha).
    destruct (insert_ok _ now' b (mkNode k v s) Hok Ei) as (b' & r & Hins & Hok'). rewrite Hins. simpl.
    destruct (insert_new_result _ _ _ _ _ _ _ (proj1 Hok) Ha Hins) as (r' & -> & Hr).
    simpl. eexists _, _. split; [done|]. exists b'. split; [by eapply set_bucket_step|done].
  - destruct (position_of b k) as [pos|] eqn:Ep; [|by apply position_absent in Ep; apply holds_not_absent in Hh].
    destruct (update_status_ok _ now' b k (state s) (Some (direction s)) Hok) as (b2 & us & Hus & Hok2).
    rewrite Hus. simpl. destruct (failed us) eqn:Ef.
    { eexists _, _. split; [done|]. exists b2. split; [by eapply set_bucket_step|].
      pose proof (update_status_post _ _ _ _ _ _ _ _ (proj1 Hok) Hh Hus) as Hpost.
      destruct us; try done. simpl. apply Hpost. }
    destruct (update_value_ok _ b2 k v Hok2) as (b3 & uv & Huv & Hok3). rewrite Huv. simpl.
    destruct (update_both_result _ _ _ _ _ _ _ _ _ _ (proj1 Hok) (proj1 Hok2) Hh Hus Ef Huv)
      as (r & -> & Hr). simpl.
    eexists _, _. split; [done|]. exists b3. split; [by eapply set_bucket_step|done].
Qed.

(** What [update_node] leaves in the bucket of the key. *)
Definition update_node_result b k (v : V) (st : option ConnectionState) (r : UpdateResult) : Prop :=
  match r with
  | Failed _ => absent b k
  | UpdatedPending => absent b k
  | _ => exists n, holds b k n /\ value n = v /\ (forall c, st = Some c -> state (status n) = c)
  end.

Lemma absent_nodes b b' k : nodes b' = nodes b -> absent b' k <-> absent b k.
Proof. intros Hn. unfold absent. by rewrite Hn. Qed.

(** The status update after a value update that did not fail. *)
Lemma update_node_tail now' b b' b'' k v st r r' n :
  bucket_inv b -> bucket_inv b' ->
  (absent b k /\ absent b' k /\ r = UpdatedPending \/
   holds b' k n /\ value n = v /\ (r = Updated \/ r = NotModified)) ->
  match st with Some st => update_status now' b' k st None | None => Ret (b', NotModified) end
    = Ret (b'', r') ->
  update_node_result b'' k v st (merge_updates r r').
Proof.
  intros Hinv Hinv' Hcase Hst.
  destruct Hcase as [(_ & Ha & ->)|(Hh & Hv & Hr)].
  - destruct st as [st|]; simplify_eq/=; [|done].
    destruct (update_status_absent _ _ _ _ _ _ _ Hinv' Ha Hst) as [Hn [-> | ->]]; simpl;
      by rewrite (absent_nodes b' b'').
  - destruct st as [st|]; simplify_eq/=.
    + pose proof (update_status_post _ _ _ _ _ _ _ _ Hinv' Hh Hst) as Hpost.
      destruct r'; simpl in Hpost; try done.
      * destruct Hr as [-> | ->]; simpl; (eexists; split; [done|]; split; [done|by intros c [= <-]]).
      * destruct Hr as [-> | ->]; simpl; (eexists; split; [apply Hpost|]; split; [done|by intros c [= <-]]).
      * destruct Hr as [-> | ->]; simpl; apply Hpost.
      * destruct Hpost as [Hpost Heq]. destruct Hr as [-> | ->]; simpl;
          (exists n; split; [done|]; split; [done|]; intros c [= <-]; by rewrite <-Heq).
    + destruct Hr as [-> | ->]; simpl; (exists n; split; [done|]; split; [done|by intros c]).
Qed.

Lemma update_node_ok now now' t k v st :
  table_inv t ->
  exists t' r, update_node now now' t k v st = Ret (t', r) /\
  match index_of t k with
  | None => t' = t /\ r = NotModified
  | Some i => exists b, bucket_step t i t' b /\ update_node_result b k v st r
  end.
Proof.
  intros Hinv. unfold update_node.
  destruct (passes_table_filter_ret t k v Hinv) as [passed ->]. simpl.
  destruct (index_of t k) as [i|] eqn:Ei; [|eauto].
  destruct (apply_index_ok now t k i Hinv Ei) as (t1 & b & -> & Hstep). simpl.
  pose proof Hstep as (_ & _ & _ & Hok & _). destruct passed; simpl.
  2: { destruct (remove_ok _ now' b k Hok) as (b' & r & Hrem & Hok'). rewrite Hrem. simpl.
       eexists _, _. split; [done|]. exists b'. split; [by eapply set_bucket_step|].
       by apply (remove_post _ _ _ _ _ (proj1 Hok) Hrem). }
  destruct (update_value_ok _ b k v Hok) as (b1 & r1 & Huv & Hok1). rewrite Huv. simpl.
  assert (exists n, match r1 with
          | Failed _ => absent b1 k
          | _ => absent b k /\ absent b1 k /\ r1 = UpdatedPending \/
                 holds b1 k n /\ value n = v /\ (r1 = Updated \/ r1 = NotModified)
          end) as [n Hcase].
  { destruct (holds_or_absent b k (proj1 Hok)) as [Ha|[n Hh]].
    - exists (mkNode k v (mkStatus Incoming Connected)).
      destruct (update_value_absent _ _ _ _ _ (proj1 Hok) Ha Huv) as [Hn [-> | ->]];
        rewrite (absent_nodes b b1) by done; auto.
    - pose proof (update_value_post _ _ _ _ _ _ (proj1 Hok) Hh Huv) as Hpost.
      destruct r1; simpl in Hpost; try done.
      + exists (set_value n v). right. split_and!; [apply Hpost|done|auto].
      + exists n. apply Hpost.
      + destruct Hpost as [-> <-]. exists n. right. auto. }
  destruct (failed r1) eqn:Ef.
  { eexists _, _. split; [done|]. exists b1. split; [by eapply set_bucket_step|]. by destruct r1. }
  assert (exists b2 r2, match st with Some st => update_status now' b1 k st None
            | None => Ret (b1, NotModified) end = Ret (b2, r2) /\ bucket_ok (belongs t i) b2)
    as (b2 & r2 & Hst & Hok2).
  { destruct st; [by apply update_status_ok|eauto]. }
  rewrite Hst. simpl. eexists _, _. split; [done|]. exists b2. split; [by eapply set_bucket_step|].
  eapply (update_node_tail now' b b1); [apply Hok|apply Hok1| |exact Hst]. by destruct r1.
Qed.

Lemma update_node_status_ok now now' t k st dir :
  table_inv t ->
  exists t' r, Table.update_node_status now now' t k st dir = Ret (t', r) /\
    table_inv t' /\ same_config t t'.
Proof.
  intros Hinv. unfold Table.update_node_status. destruct (index_of t k) as [i|] eqn:Ei; [|by eexists _, _].
  destruct (apply_index_ok now t k i Hinv Ei) as (t1 & b & -> & Hstep). simpl.
  pose proof Hstep as (_ & _ & _ & Hok & _).
  destruct (update_status_ok _ now' b k st dir Hok) as (b' & r & -> & Hok'). simpl.
  destruct (set_bucket_step _ _ _ _ _ Hstep Hok') as (? & ? & _). eauto.
Qed.

Lemma table_remove_ok now now' t k :
  table_inv t ->
  exists t' r, table_remove now now' t k = Ret (t', r) /\
  match index_of t k with
  | None => t' = t /\ r = false
  | Some i => exists b, bucket_step t i t' b /\ absent b k
  end.
Proof.
  intros Hinv. unfold table_remove. destruct (index_of t k) as [i|] eqn:Ei; [|eauto].
  destruct (apply_index_ok now t k i Hinv Ei) as (t1 & b & -> & Hstep). simpl.
  pose proof Hstep as (_ & _ & _ & Hok & _).
  destruct (remove_ok _ now' b k Hok) as (b' & r & Hrem & Hok'). rewrite Hrem. simpl.
  eexists _, _. split; [done|]. exists b'. split; [by eapply set_bucket_step|].
  by apply (remove_post _ _ _ _ _ (proj1 Hok) Hrem).
Qed.

Lemma entry_ok now t k :
  table_inv t ->
  exists t' e, entry now t k = Ret (t', e) /\
  match index_of t k with
  | None => t' = t /\ e = Entry.SelfEntry
  | Some i => exists b, bucket_step t i t' b /\ e = Entry.new b k
  end.
Proof.
  intros Hinv. unfold entry. destruct (index_of t k) as [i|] eqn:Ei; [|eauto].
  destruct (apply_index_ok now t k i Hinv Ei) as (t1 & b & -> & Hstep). simpl. eauto 10.
Qed.

Lemma iter_from_ok clock t idxs :
  table_inv t -> Forall (fun i => i < NUM_BUCKETS) idxs ->
  exists t' l, iter_from clock t idxs = Ret (t', l) /\ table_inv t' /\ same_config t t'.
Proof.
  revert t; induction idxs as [|i idxs IH]; intros t Hinv Hi; simpl; [by eexists _, _|].
  apply Forall_cons in Hi as [Hi Hidx].
  destruct (apply_bucket_ok (clock i) t i Hinv Hi) as (t1 & b & -> & Hinv1 & Hc1 & _). simpl.
  destruct (IH t1 Hinv1 Hidx) as (t2 & l & -> & Hinv2 & Hc2). simpl.
  eexists _, _. split_and!; [done..|]. by etransitivity.
Qed.

Lemma valid_distance_spec d : valid_distance d = true <-> (1 <= d <= 256)%Z.
Proof. unfold valid_distance, NUM_BUCKETS. rewrite andb_true_iff, Z.ltb_lt, Z.leb_le. lia. Qed.

Lemma apply_distances_ok clock max_nodes j count t ds :
  table_inv t -> Forall (fun d => valid_distance d = true) ds ->
  exists t', apply_distances clock max_nodes j count t ds = Ret t' /\ table_inv t' /\ same_config t t'.
Proof.
  revert j count t; induction ds as [|d ds IH]; intros j count t Hinv Hds; simpl; [by eexists|].
  apply Forall_cons in Hds as [Hd%valid_distance_spec Hds].
  assert (Z.to_nat (d - 1) < NUM_BUCKETS) as Hi by (unfold NUM_BUCKETS; lia).
  destruct (apply_bucket_ok (clock j) t _ Hinv Hi) as (t1 & b1 & Hab & Hinv1 & Hc1 & _).
  unfold apply_bucket in Hab. destruct (buckets t !! _) as [b|]; [|done]. simpl in *.
  destruct (apply_pending (clock j) b) as [[b' a]|]; simplify_eq/=.
  assert (forall j count, exists t', apply_distances clock max_nodes j count
    (push_applied (set_bucket t (Z.to_nat (d - 1)) b1) a) ds = Ret t' /\
    table_inv t' /\ same_config t t') as Hrest.
  { intros j' count'. destruct (IH j' count' _ Hinv1 Hds) as (t' & -> & Hinv' & Hc').
    eexists. split_and!; [done..|]. by etransitivity. }
  destruct a; [|apply Hrest]. case_decide; [|apply Hrest]. eauto.
Qed.

Lemma push_nodes_spec max_nodes acc (l : list (Node T V)) :
  length acc < Nat.max 1 max_nodes ->
  push_nodes max_nodes acc l =
  (take (Nat.max 1 max_nodes) (acc ++ l), bool_decide (Nat.max 1 max_nodes <= length (acc ++ l))).
Proof.
  revert acc; induction l as [|n l IH]; intros acc Hacc; simpl.
  - rewrite app_nil_r, take_ge by lia. f_equal. symmetry. apply bool_decide_eq_false. lia.
  - rewrite length_app. simpl. case_decide as Hc.
    + rewrite length_app. simpl. assert (Nat.max 1 max_nodes = length (acc ++ [n])) as Hm
        by (rewrite length_app; simpl; lia).
      rewrite Hm, (cons_middle n acc l), app_assoc, take_app_length.
      f_equal. symmetry. apply bool_decide_eq_true. rewrite length_app. simpl. lia.
    + rewrite IH by (rewrite length_app; simpl; lia). by rewrite <-app_assoc.
Qed.

(** The nodes at a log2 distance. *)
Definition nodes_at t (d : Z) : list (Node T V) :=
  match buckets t !! Z.to_nat (d - 1) with Some b => nodes b | None => [] end.

Lemma collect_distances_spec max_nodes t acc ds :
  table_inv t -> Forall (fun d => valid_distance d = true) ds -> length acc < Nat.max 1 max_nodes ->
  collect_distances max_nodes t acc ds =
  Ret (take (Nat.max 1 max_nodes) (acc ++ (ds ≫= nodes_at t))).
Proof.
  intros Hinv. revert acc; induction ds as [|d ds IH]; intros acc Hds Hacc; csimpl.
  { by rewrite app_nil_r, take_ge by lia. }
  apply Forall_cons in Hds as [Hd%valid_distance_spec Hds].
  assert (Z.to_nat (d - 1) < NUM_BUCKETS) as Hi by (unfold NUM_BUCKETS; lia).
  destruct (lookup_bucket t _ Hinv Hi) as [b Hb]. unfold nodes_at at 1. rewrite Hb. simpl.
  rewrite push_nodes_spec by done. case_bool_decide as Hc.
  - rewrite app_assoc, (take_app_le (acc ++ nodes b)) by done. done.
  - rewrite (take_ge (acc ++ nodes b)) by lia. rewrite IH by (done || lia). by rewrite app_assoc.
Qed.

Lemma filter_valid ds : Forall (fun d => valid_distance d = true) (List.filter valid_distance ds).
Proof. apply Forall_forall. intros d Hd. by apply list_elem_of_In, filter_In in Hd as [_ ?]. Qed.

Lemma nodes_by_distances_ok clock t ds max_nodes :
  table_inv t ->
  exists t' l, nodes_by_distances clock t ds max_nodes = Ret (t', l) /\ table_inv t' /\ same_config t t' /\
    l = take (Nat.max 1 max_nodes) (List.filter valid_distance ds ≫= nodes_at t').
Proof.
  intros Hinv. unfold nodes_by_distances.
  destruct (apply_distances_ok clock max_nodes 0 0 t _ Hinv (filter_valid ds)) as (t' & -> & Hinv' & Hc).
  simpl. rewrite (collect_distances_spec max_nodes t' []) by (apply filter_valid || done || simpl; lia).
  by eexists _, _.
Qed.

(** A node of the bucket at [d - 1] is at log2 distance [d]. *)
Lemma nodes_at_distance t d n :
  table_inv t -> (1 <= d <= 256)%Z -> n ∈ nodes_at t d ->
  Key.log2_distance (local_key t) (key n) = Some d.
Proof.
  intros Hinv Hd Hn. unfold nodes_at in Hn. destruct (buckets t !! _) as [b|] eqn:Hb; [|set_solver].
  destruct (inv_bucket t Hinv _ _ Hb) as [_ [Hp _]]. rewrite Forall_forall in Hp.
  specialize (Hp n Hn). unfold belongs, index_of in Hp.
  pose proof (Key.distance_range (local_key t) (key n)) as Hr.
  rewrite bucket_index_spec, <-Key.leading_zeros_spec in Hp by (done || lia).
  unfold Key.log2_distance. rewrite Hp. case_match eqn:E; [apply Z.eqb_eq in E; lia|]. f_equal. lia.
Qed.
End Ops.
