(* ===== verification/Closest.v ===== *)
(** * Iteration by distance (src/src/kbucket.rs)

    [ClosestBucketsIter] enumerates the buckets from the one that covers the
    target outwards; [ClosestIter] lists the nodes of each bucket sorted by
    their distance to the target.  [clock j] is the reading of the clock for
    the [j]-th bucket visited; the iterator carries the number of readings. *)

From S2P Require Import Prelude Bytes Key Bucket BucketSpec BucketProofs BucketRefine BucketTrace BucketPost Table TableProofs.
Import KBucket Table.

Module Closest.

Inductive ClosestBucketsIterState :=
  | Start (i : nat)
  | ZoomIn (i : nat)
  | ZoomOut (i : nat)
  | Done.

Record ClosestBucketsIter := mkBuckets {
  distance : Distance;
  state : ClosestBucketsIterState;
}.

(** [U256::bit]. *)
Definition bit (d : Distance) (i : nat) : bool := Z.testbit d (Z.of_nat i).

Definition buckets_new (d : Distance) : ClosestBucketsIter :=
  mkBuckets d (match BucketIndex.new d with Some i => Start i | None => Start 0 end).

Definition next_in (it : ClosestBucketsIter) (i : nat) : option nat :=
  find (fun i => bit (distance it) i) (rev (seq 0 i)).

Definition next_out (it : ClosestBucketsIter) (i : nat) : option nat :=
  find (fun i => negb (bit (distance it) i)) (seq (i + 1) (NUM_BUCKETS - (i + 1))).

Definition buckets_next (it : ClosestBucketsIter) : ClosestBucketsIter * option nat :=
  match state it with
  | Start i => (mkBuckets (distance it) (ZoomIn i), Some i)
  | ZoomIn i =>
      match next_in it i with
      | Some i => (mkBuckets (distance it) (ZoomIn i), Some i)
      | None => (mkBuckets (distance it) (ZoomOut 0), Some 0)
      end
  | ZoomOut i =>
      match next_out it i with
      | Some i => (mkBuckets (distance it) (ZoomOut i), Some i)
      | None => (mkBuckets (distance it) Done, None)
      end
  | Done => (it, None)
  end.

(** [ClosestValue], [PredicateKey] and [PredicateValue]. *)
Record ClosestValue (T V : Type) := mkCV { cv_key : Key T; cv_value : V }.
Arguments mkCV {T V} cv_key cv_value.
Arguments cv_key {T V} _.
Arguments cv_value {T V} _.
Record PredicateKey (T : Type) := mkPK { pk_key : Key T; pk_match : bool }.
Arguments mkPK {T} pk_key pk_match.
Arguments pk_key {T} _.
Arguments pk_match {T} _.
Record PredicateValue (T V : Type) := mkPV { pv_key : Key T; pv_match : bool; pv_value : V }.
Arguments mkPV {T V} pv_key pv_match pv_value.
Arguments pv_key {T V} _.
Arguments pv_match {T V} _.
Arguments pv_value {T V} _.

Definition to_key_value {T V} (pv : PredicateValue T V) : PredicateKey T * V :=
  (mkPK (pv_key pv) (pv_match pv), pv_value pv).

Record ClosestIter (T V U Out : Type) := mkIter {
  target : Key U;
  table : KBucketsTable T V;
  buckets_iter : ClosestBucketsIter;
  iter : option (list Out);
  fmap : KBucket T V -> list Out;
  as_ref : Out -> Key T;
  reads : nat;
}.
Arguments mkIter {T V U Out} target table buckets_iter iter fmap as_ref reads.
Arguments target {T V U Out} _.
Arguments table {T V U Out} _.
Arguments buckets_iter {T V U Out} _.
Arguments iter {T V U Out} _.
Arguments fmap {T V U Out} _.
Arguments as_ref {T V U Out} _.
Arguments reads {T V U Out} _.

Section Iter.
Context {T V U Out : Type} `{EqDecision V}.
Implicit Types (it : ClosestIter T V U Out) (t : KBucketsTable T V).

(** The comparison of [sort_by].  Keys at the same distance are equal, so the
    order of equal elements does not arise within a bucket. *)
Definition closer (tg : Key U) (f : Out -> Key T) (a b : Out) : Prop :=
  (Key.distance tg (f a) <= Key.distance tg (f b))%Z.

#[export] Instance closer_dec tg f : RelDecision (closer tg f).
Proof. intros a b. unfold closer. apply _. Defined.

Definition sort_by (tg : Key U) (f : Out -> Key T) (l : list Out) : list Out :=
  merge_sort (closer tg f) l.

Definition set_iter it (o : option (list Out)) : ClosestIter T V U Out :=
  mkIter (target it) (table it) (buckets_iter it) o (fmap it) (as_ref it) (reads it).

(** The [loop] of [ClosestIter::next]; [Panic] also stands for no fuel left. *)
Fixpoint next_loop (fuel : nat) (clock : nat -> Z) it : outcome (ClosestIter T V U Out * option Out) :=
  match fuel with
  | 0 => Panic
  | S fuel =>
      match iter it with
      | Some (k :: l) => Ret (set_iter it (Some l), Some k)
      | Some [] => next_loop fuel clock (set_iter it None)
      | None =>
          let '(bi, o) := buckets_next (buckets_iter it) in
          match o with
          | Some i =>
              '(t, b) ← apply_bucket (clock (reads it)) (table it) i;
              next_loop fuel clock
                (mkIter (target it) t bi (Some (sort_by (target it) (as_ref it) (fmap it b)))
                   (fmap it) (as_ref it) (S (reads it)))
          | None =>
              Ret (mkIter (target it) (table it) bi None (fmap it) (as_ref it) (reads it), None)
          end
      end
  end.

(** Each of at most 512 visits takes two turns of the loop. *)
Definition NEXT_FUEL : nat := 1030.
Definition next (clock : nat -> Z) it := next_loop NEXT_FUEL clock it.

Arguments next : simpl never.

(** [iter.take(n).collect()]. *)
Fixpoint take_next (n : nat) (clock : nat -> Z) it : outcome (ClosestIter T V U Out * list Out) :=
  match n with
  | 0 => Ret (it, [])
  | S n =>
      '(it, o) ← next clock it;
      match o with
      | Some k => '(it, l) ← take_next n clock it; Ret (it, k :: l)
      | None => Ret (it, [])
      end
  end.

Definition closest_by (f : KBucket T V -> list Out) (g : Out -> Key T) t (tg : Key U)
    : ClosestIter T V U Out :=
  mkIter tg t (buckets_new (Key.distance (local_key t) tg)) None f g 0.
End Iter.

Section Closest.
Context {T V U : Type} `{EqDecision V}.

Definition closest_keys (t : KBucketsTable T V) (tg : Key U) : ClosestIter T V U (Key T) :=
  closest_by (fun b => key <$> nodes b) (fun k => k) t tg.

Definition closest_values (t : KBucketsTable T V) (tg : Key U) : ClosestIter T V U (ClosestValue T V) :=
  closest_by (fun b => (fun n => mkCV (key n) (value n)) <$> nodes b) cv_key t tg.

Definition closest_values_predicate (t : KBucketsTable T V) (tg : Key U) (predicate : V -> bool)
    : ClosestIter T V U (PredicateValue T V) :=
  closest_by (fun b => (fun n => mkPV (key n) (predicate (value n)) (value n)) <$> nodes b) pv_key t tg.
End Closest.
End Closest.
