(* ===== verification/ClosestProofs.v ===== *)
(** * The order of [ClosestIter]

    The buckets are visited in the order of [order]; a bucket visited earlier
    holds nodes that are closer to the target.  Running the iterator lists the
    nodes of the table by increasing distance. *)

From Stdlib Require Import Sorting.Sorted.
From S2P Require Import Prelude Bytes Key Bucket BucketSpec BucketProofs BucketRefine BucketTrace BucketPost Table TableProofs Closest.
Import KBucket Table Closest.

(** ** The order of the buckets *)

Section Order.
Implicit Types (d : Z) (i j : nat).

Definition ones_below d i : list nat := List.filter (fun j => bit d j) (rev (seq 0 i)).
Definition zeros_from d i n : list nat := List.filter (fun j => negb (bit d j)) (seq i n).

(** What is left to visit in each state. *)
Definition rest (it : ClosestBucketsIter) : list nat :=
  let d := distance it in
  match state it with
  | Start i => i :: ones_below d i ++ 0 :: zeros_from d 1 255
  | ZoomIn i => ones_below d i ++ 0 :: zeros_from d 1 255
  | ZoomOut i => zeros_from d (i + 1) (NUM_BUCKETS - (i + 1))
  | Done => []
  end.

Definition order d : list nat := rest (buckets_new d).

Lemma find_filter {A} (f : A -> bool) l :
  match find f l with
  | Some x => exists l1 l2, l = l1 ++ x :: l2 /\ List.filter f l = x :: List.filter f l2
  | None => List.filter f l = []
  end.
Proof.
  induction l as [|y l IH]; simpl; [done|]. destruct (f y) eqn:E; simpl.
  - by exists [], l.
  - destruct (find f l) as [x|]; [|done]. destruct IH as (l1 & l2 & -> & Hf).
    exists (y :: l1), l2. split; [done|]. done.
Qed.

Lemma rev_seq_split n l1 j l2 : rev (seq 0 n) = l1 ++ j :: l2 -> l2 = rev (seq 0 j).
Proof.
  revert l1; induction n as [|n IH]; intros l1 Hl; [by destruct l1|].
  rewrite seq_S, rev_app_distr in Hl. simpl in Hl.
  destruct l1 as [|x l1]; simplify_eq/=; [done|]. by eapply IH.
Qed.

Lemma seq_split a n l1 j l2 :
  seq a n = l1 ++ j :: l2 -> l2 = seq (j + 1) (a + n - (j + 1)) /\ j < a + n.
Proof.
  revert a l1; induction n as [|n IH]; intros a l1 Hl; [by destruct l1|]. simpl in Hl.
  destruct l1 as [|x l1]; simpl in Hl.
  - injection Hl as <- <-. split; [|lia]. f_equal; lia.
  - injection Hl as <- Hl. destruct (IH (S a) l1 Hl) as [-> ?]. split; [|lia]. f_equal; lia.
Qed.

(** [next] pops the list of buckets left. *)
Lemma buckets_next_rest it :
  match rest it with
  | [] => snd (buckets_next it) = None /\ rest (fst (buckets_next it)) = []
  | i :: l => snd (buckets_next it) = Some i /\ rest (fst (buckets_next it)) = l
  end.
Proof.
  destruct it as [d [i|i|i|]]; unfold rest, buckets_next; simpl; [done| | |done].
  - unfold next_in, ones_below. simpl. pose proof (find_filter (fun j => bit d j) (rev (seq 0 i))) as Hf.
    destruct (find _ _) as [j|]; [|by rewrite Hf].
    destruct Hf as (l1 & l2 & Hl & ->). simpl. by rewrite (rev_seq_split i l1 j l2 Hl).
  - unfold next_out, zeros_from. cbn [distance].
    pose proof (find_filter (fun j => negb (bit d j)) (seq (i + 1) (NUM_BUCKETS - (i + 1)))) as Hf.
    destruct (find _ _) as [j|]; [|by rewrite Hf].
    destruct Hf as (l1 & l2 & Hl & ->). cbn [state distance fst snd].
    destruct (seq_split _ _ l1 j l2 Hl) as [-> Hj]. split; [done|]. do 2 f_equal.
    destruct (decide (i + 1 <= NUM_BUCKETS)); [lia|].
    replace (NUM_BUCKETS - (i + 1)) with 0 in Hl by lia. by destruct l1.
Qed.

(** A bucket that is visited before another one. *)
Definition before d i j : Prop :=
  (bit d i = true /\ j < i) \/ (bit d j = false /\ i < j) \/ (i = 0 /\ j = 0).

Lemma elem_of_ones d i j : j ∈ ones_below d i <-> bit d j = true /\ j < i.
Proof.
  unfold ones_below. rewrite list_elem_of_In, filter_In, <-in_rev, in_seq. simpl. naive_solver lia.
Qed.

Lemma elem_of_zeros d i n j : j ∈ zeros_from d i n <-> bit d j = false /\ i <= j < i + n.
Proof.
  unfold zeros_from. rewrite list_elem_of_In, filter_In, in_seq, negb_true_iff. naive_solver.
Qed.

Lemma StronglySorted_filter {A} (R : A -> A -> Prop) f l :
  StronglySorted R l -> StronglySorted R (List.filter f l).
Proof.
  induction 1 as [|x l Hl IH Hx]; simpl; [constructor|]. destruct (f x); [|done].
  constructor; [done|]. rewrite Forall_forall in *. intros y Hy. apply Hx.
  apply list_elem_of_In. apply list_elem_of_In, filter_In in Hy. by destruct Hy.
Qed.

Lemma StronglySorted_app_2 {A} (R : A -> A -> Prop) l1 l2 :
  StronglySorted R l1 -> StronglySorted R l2 -> (forall x y, x ∈ l1 -> y ∈ l2 -> R x y) ->
  StronglySorted R (l1 ++ l2).
Proof.
  intros H1 H2 H12. induction H1 as [|x l1 H1 IH Hx]; simpl; [done|].
  constructor; [apply IH; set_solver|]. apply Forall_app. split; [done|].
  apply Forall_forall. set_solver.
Qed.

Lemma StronglySorted_impl_elem {A} (R R' : A -> A -> Prop) l :
  StronglySorted R l -> (forall x y, x ∈ l -> y ∈ l -> R x y -> R' x y) -> StronglySorted R' l.
Proof.
  induction 1 as [|x l Hl IH Hx]; intros Hi; constructor; [apply IH; set_solver|].
  rewrite Forall_forall in *. set_solver.
Qed.

Lemma sorted_seq a n : StronglySorted lt (seq a n).
Proof.
  revert a; induction n as [|n IH]; intros a; simpl; constructor; auto.
  apply Forall_forall. intros y Hy%elem_of_seq. lia.
Qed.

Lemma sorted_rev_seq n : StronglySorted gt (rev (seq 0 n)).
Proof.
  induction n as [|n IH]; [constructor|]. rewrite seq_S, rev_app_distr. simpl. constructor; [done|].
  apply Forall_forall. intros y Hy. apply list_elem_of_In, in_rev, in_seq in Hy. lia.
Qed.

(** The first bucket holds the target, or is bucket 0 when the target is local. *)
Lemma order_start d :
  (0 <= d < 2 ^ 256)%Z ->
  exists i, order d = i :: ones_below d i ++ 0 :: zeros_from d 1 255 /\ i < NUM_BUCKETS /\
    (bit d i = true /\ (forall j, i < j -> bit d j = false) \/ i = 0 /\ d = 0%Z).
Proof.
  intros Hd. unfold order, buckets_new. destruct (BucketIndex.new d) as [i|] eqn:Ei.
  - exists i. split; [done|]. split; [by eapply bucket_index_lt|]. left.
    apply bucket_index_spec in Ei; [|done].
    assert (Z.log2 d = Z.of_nat i) as Hlog by (apply Z.log2_unique; lia).
    unfold bit. split.
    + rewrite <-Hlog. apply Z.bit_log2. lia.
    + intros j Hj. apply Z.bits_above_log2; lia.
  - apply bucket_index_None in Ei; [|done]. exists 0. unfold NUM_BUCKETS. split_and!; [done|lia|auto].
Qed.

Lemma order_sorted d : (0 <= d < 2 ^ 256)%Z -> StronglySorted (before d) (order d).
Proof.
  intros Hd. destruct (order_start d Hd) as (i & -> & _ & Hi). unfold before.
  assert (StronglySorted (before d) (0 :: zeros_from d 1 255)) as Hz.
  { constructor.
    - apply (StronglySorted_impl_elem lt); [apply StronglySorted_filter, sorted_seq|].
      intros x y Hx [Hy _]%elem_of_zeros Hlt. unfold before. auto.
    - apply Forall_forall. intros y [Hy ?]%elem_of_zeros. right. left. split; [done|lia]. }
  constructor.
  - apply StronglySorted_app_2; [|exact Hz|].
    + apply (StronglySorted_impl_elem gt); [apply StronglySorted_filter, sorted_rev_seq|].
      intros x y [Hx _]%elem_of_ones Hy Hgt. unfold before. left. split; [done|lia].
    + intros x y [Hx _]%elem_of_ones [->|[Hy ?]%elem_of_zeros]%elem_of_cons.
      * destruct (decide (x = 0)); [naive_solver|]. left. split; [done|lia].
      * destruct (decide (x < y)); [naive_solver|]. assert (x <> y) by congruence. left. split; [done|lia].
  - apply Forall_forall. intros y Hy. rewrite elem_of_app, elem_of_cons in Hy.
    destruct Hi as [[Hb Ha]|[-> ->]].
    + destruct Hy as [[Hy ?]%elem_of_ones|[->|[Hy ?]%elem_of_zeros]]; [auto| |].
      * destruct (decide (i = 0)); [auto|]. left. split; [done|lia].
      * destruct (decide (i < y)); [auto|]. assert (i <> y) by congruence. left. split; [done|lia].
    + destruct Hy as [[_ ?]%elem_of_ones|[->|[Hy ?]%elem_of_zeros]]; [lia|auto|].
      right. left. split; [done|lia].
Qed.

(** Every bucket is visited. *)
Lemma order_covers d i : (0 <= d < 2 ^ 256)%Z -> i < NUM_BUCKETS -> i ∈ order d.
Proof.
  intros Hd Hi. destruct (order_start d Hd) as (m & -> & _ & Hm). unfold NUM_BUCKETS in Hi.
  rewrite elem_of_cons, elem_of_app, elem_of_cons, elem_of_ones, elem_of_zeros.
  destruct (decide (i = 0)) as [->|]; [auto|]. destruct (bit d i) eqn:E.
  - destruct Hm as [[_ Ha]|[-> ->]]; [|by unfold bit in E; rewrite Z.testbit_0_l in E].
    destruct (decide (i = m)); [auto|]. right. left. split; [done|].
    destruct (decide (m < i)); [|lia]. by rewrite (Ha i) in E.
  - do 3 right. split; [done|lia].
Qed.

Lemma order_bound d : (0 <= d < 2 ^ 256)%Z -> Forall (fun i => i < NUM_BUCKETS) (order d).
Proof.
  intros Hd. destruct (order_start d Hd) as (m & -> & Hm & _). unfold NUM_BUCKETS in *.
  apply Forall_forall. intros y Hy. rewrite elem_of_cons, elem_of_app, elem_of_cons in Hy.
  destruct Hy as [->|[[_ ?]%elem_of_ones|[->|[_ ?]%elem_of_zeros]]]; lia.
Qed.
End Order.

(** ** Distances across buckets *)

Section Distances.
Open Scope Z_scope.

Lemma msb_bits (x : Z) (i : nat) :
  2 ^ Z.of_nat i <= x < 2 ^ (Z.of_nat i + 1) ->
  Z.testbit x (Z.of_nat i) = true /\ forall m, Z.of_nat i < m -> Z.testbit x m = false.
Proof.
  intros Hx. assert (Z.log2 x = Z.of_nat i) as Hlog by (apply Z.log2_unique; lia).
  split.
  - rewrite <-Hlog. apply Z.bit_log2. lia.
  - intros m Hm. apply Z.bits_above_log2; lia.
Qed.

(** A bucket visited before another one holds nodes closer to the target. *)
Lemma before_closer (d x y : Z) (i j : nat) :
  0 <= d -> before d i j ->
  2 ^ Z.of_nat i <= x < 2 ^ (Z.of_nat i + 1) -> 2 ^ Z.of_nat j <= y < 2 ^ (Z.of_nat j + 1) ->
  Z.lxor d x <= Z.lxor d y.
Proof.
  intros Hd0 Hb Hx Hy. destruct (msb_bits x i Hx) as [Hxi Hxa], (msb_bits y j Hy) as [Hyj Hya].
  assert (0 <= Z.lxor d x /\ 0 <= Z.lxor d y) as [Hpx Hpy] by (rewrite !Z.lxor_nonneg; lia).
  destruct Hb as [[Hbi Hlt]|[[Hbj Hlt]|[-> ->]]].
  - apply Z.lt_le_incl, (testbit_lt _ _ (Z.of_nat i)); try lia; rewrite ?Z.lxor_spec.
    + intros m Hm. rewrite !Z.lxor_spec, Hxa, Hya by lia. done.
    + unfold bit in Hbi. by rewrite Hbi, Hxi.
    + unfold bit in Hbi. by rewrite Hbi, Hya by lia.
  - apply Z.lt_le_incl, (testbit_lt _ _ (Z.of_nat j)); try lia; rewrite ?Z.lxor_spec.
    + intros m Hm. rewrite !Z.lxor_spec, Hxa, Hya by lia. done.
    + unfold bit in Hbj. by rewrite Hbj, Hxa by lia.
    + unfold bit in Hbj. by rewrite Hbj, Hyj.
  - replace x with y by (simpl in *; lia). lia.
Qed.

Lemma distance_shift {T U} (l : Key T) (t : Key U) (n : Key T) :
  Key.distance t n = Z.lxor (Key.distance l t) (Key.distance l n).
Proof. rewrite (Key.distance_sym l t). unfold Key.distance. symmetry. apply lxor_cancel_mid. Qed.
End Distances.

(** ** Running the iterator *)

Section Run.
Context {T V U Out : Type} `{EqDecision V}.
Context (clock : nat -> Z) (tg : Key U) (h : Node T V -> Out) (g : Out -> Key T).
Context (g_h : forall n, g (h n) = key n).
Implicit Types (t : KBucketsTable T V) (it : ClosestIter T V U Out).

Definition map_bucket (b : KBucket T V) : list Out := h <$> nodes b.

(** The chunks of the listing: one per bucket visited. *)
Fixpoint visit (reads : nat) t (idxs : list nat) : outcome (KBucketsTable T V * list (list Out)) :=
  match idxs with
  | [] => Ret (t, [])
  | i :: idxs =>
      '(t, b) ← apply_bucket (clock reads) t i;
      '(t, cs) ← visit (S reads) t idxs;
      Ret (t, sort_by tg g (map_bucket b) :: cs)
  end.

(** The iterator stands at the outputs [l], with the table [t'] at its end. *)
Definition remaining it t' (l : list Out) : Prop :=
  target it = tg /\ fmap it = map_bucket /\ as_ref it = g /\
  exists cs, visit (reads it) (table it) (rest (buckets_iter it)) = Ret (t', cs) /\
             l = default [] (iter it) ++ concat cs.

Lemma next_loop_remaining fuel it t' l :
  remaining it t' l ->
  2 * length (rest (buckets_iter it)) + match iter it with Some _ => 1 | None => 0 end + 1 <= fuel ->
  exists it', length (rest (buckets_iter it')) <= length (rest (buckets_iter it)) /\
  match l with
  | [] => next_loop fuel clock it = Ret (it', None) /\ remaining it' t' [] /\ table it' = t'
  | k :: l => next_loop fuel clock it = Ret (it', Some k) /\ remaining it' t' l
  end.
Proof.
  revert it; induction fuel as [|fuel IH]; intros it (Ht & Hf & Hg & cs & Hv & Hl) Hfuel; [lia|].
  simpl. destruct (iter it) as [[|k l1]|] eqn:Ei; simpl in Hl.
  - destruct (IH (set_iter it None)) as (it' & Hlen & Hit'); [|simpl; lia|by exists it'].
    split_and!; [done..|]. by exists cs.
  - subst l. eexists. split; [|split; [done|]]; [done|]. split_and!; [done..|]. by exists cs.
  - pose proof (buckets_next_rest (buckets_iter it)) as Hn.
    destruct (buckets_next (buckets_iter it)) as [bi o]. simpl in Hn.
    destruct (rest (buckets_iter it)) as [|i idxs]; destruct Hn as [-> Hn]; simpl in Hv.
    + simplify_eq/=. eexists. split; [|split; [done|]]; simpl; [by rewrite Hn|].
      split; [|done]. split_and!; [done..|]. exists []. simpl. by rewrite Hn.
    + destruct (apply_bucket _ _ _) as [[t1 b]|]; simplify_eq/=.
      destruct (visit (S (reads it)) t1 (rest bi)) as [[t2 cs']|] eqn:Hv'; simplify_eq/=.
      rewrite Hf. edestruct (IH (mkIter (target it) t1 bi
        (Some (sort_by (target it) (as_ref it) (map_bucket b))) map_bucket (as_ref it) (S (reads it))))
        as (it' & Hlen & Hit'); [|simpl; lia|exists it'; split; [simpl in *; lia|exact Hit']].
      split_and!; [done..|]. exists cs'. simpl. by rewrite Ht, Hg.
Qed.

Lemma take_next_remaining n it t' l :
  remaining it t' l -> 2 * length (rest (buckets_iter it)) + 2 <= NEXT_FUEL ->
  exists it', take_next n clock it = Ret (it', take n l) /\ remaining it' t' (drop n l) /\
    (length l < n -> table it' = t').
Proof.
  revert it l; induction n as [|n IH]; intros it l Hrem Hlen; simpl.
  { exists it. rewrite drop_0. split_and!; [done..|lia]. }
  unfold next. destruct (next_loop_remaining NEXT_FUEL it t' l Hrem) as (it1 & Hlen1 & Hnext);
    [destruct (iter it); lia|].
  destruct l as [|k l].
  - destruct Hnext as (-> & Hrem1 & Htab). simpl. by exists it1.
  - destruct Hnext as [-> Hrem1]. simpl.
    destruct (IH it1 l Hrem1) as (it2 & -> & Hrem2 & Htab2); [lia|].
    exists it2. simpl. split_and!; [done..|]. intros. apply Htab2. lia.
Qed.

(** ** What a visit of the buckets lists *)

Definition in_bucket t i (c : list Out) : Prop :=
  StronglySorted (closer tg g) c /\ Forall (fun o => belongs t i (g o)) c /\ length c <= MAX_NODES_PER_BUCKET.

Lemma closer_total : Total (closer (T:=T) tg g).
Proof. intros a b. unfold closer. lia. Qed.
Lemma closer_trans : Transitive (closer (T:=T) tg g).
Proof. intros a b c. unfold closer. lia. Qed.

Lemma sort_by_in_bucket t t' i b : bucket_step t i t' b -> in_bucket t i (sort_by tg g (map_bucket b)).
Proof.
  intros (_ & _ & _ & [Hb [Hn _]] & _). pose proof closer_total. pose proof closer_trans. split_and!.
  - apply Sorted_StronglySorted, Sorted_merge_sort, _. done.
  - unfold sort_by. rewrite merge_sort_Permutation. unfold map_bucket. apply Forall_fmap.
    eapply Forall_impl; [exact Hn|]. intros n. simpl. by rewrite g_h.
  - unfold sort_by, map_bucket. rewrite merge_sort_Permutation, length_fmap. apply Hb.
Qed.

Lemma visit_ok reads t idxs :
  table_inv t -> Forall (fun i => i < NUM_BUCKETS) idxs ->
  exists t' cs, visit reads t idxs = Ret (t', cs) /\ table_inv t' /\ same_config t t' /\
    Forall2 (in_bucket t) idxs cs /\
    (forall j, j ∉ idxs -> buckets t' !! j = buckets t !! j) /\
    (forall j b, j ∈ idxs -> buckets t' !! j = Some b -> sort_by tg g (map_bucket b) ∈ cs) /\
    (NoDup idxs -> Forall2 (fun i c => exists b, buckets t' !! i = Some b /\
                                        c = sort_by tg g (map_bucket b)) idxs cs).
Proof.
  revert reads t; induction idxs as [|i idxs IH]; intros reads t Hinv Hi; simpl.
  { exists t, []. split_and!; [done..|constructor|done|set_solver|by constructor]. }
  apply Forall_cons in Hi as [Hi Hidx].
  destruct (apply_bucket_ok (clock reads) t i Hinv Hi) as (t1 & b & -> & Hstep). simpl.
  pose proof Hstep as (Hinv1 & Hc1 & Hb1 & _ & Hj1).
  destruct (IH (S reads) t1 Hinv1 Hidx) as (t2 & cs & -> & Hinv2 & Hc2 & Hin & Hout & Hmem & Hnd). simpl.
  eexists _, _. split; [done|]. split_and!; [done|by etransitivity|..].
  - constructor; [by eapply sort_by_in_bucket|]. eapply Forall2_impl; [exact Hin|].
    intros j c (Hs & Hb & Hl). split_and!; [done| |done]. eapply Forall_impl; [exact Hb|]. intros o. simpl.
    by rewrite (belongs_config t t1).
  - intros j [Hne Hnin]%not_elem_of_cons. rewrite Hout by done. by apply Hj1.
  - intros j b' Hj Hb'. destruct (decide (j ∈ idxs)); [right; by apply (Hmem j)|].
    apply elem_of_cons in Hj as [->|]; [|done]. rewrite Hout, Hb1 in Hb' by done. simplify_eq. left.
  - intros [Hnin Hnd']%NoDup_cons. constructor; [|by apply Hnd].
    exists b. by rewrite Hout.
Qed.

(** Chunks in an order that respects [R] make a sorted list. *)
Lemma sorted_chunks d t idxs cs :
  (0 <= d < 2 ^ 256)%Z -> d = Key.distance (local_key t) tg ->
  StronglySorted (before d) idxs -> Forall2 (in_bucket t) idxs cs ->
  StronglySorted (closer tg g) (concat cs).
Proof.
  intros Hd Heq Hs Hin. induction Hin as [|i c idxs cs (Hsc & Hbc & _) Hin IH]; simpl; [constructor|].
  apply StronglySorted_inv in Hs as [Hs Hi]. apply StronglySorted_app_2; [done|by apply IH|].
  intros x y Hx Hy. apply list_elem_of_In, in_concat in Hy as (c' & Hc' & Hy).
  apply list_elem_of_In in Hc', Hy.
  apply list_elem_of_lookup in Hc' as [m Hm].
  destruct (Forall2_lookup_r _ _ _ _ _ Hin Hm) as (j & Hj & _ & Hbc' & _).
  rewrite Forall_forall in Hbc, Hbc'. rewrite Forall_forall in Hi. specialize (Hbc x Hx). specialize (Hbc' y Hy).
  assert (before d i j) as Hb by by eapply Hi, list_elem_of_lookup_2.
  unfold closer. rewrite !(distance_shift (local_key t) tg), <-Heq.
  unfold belongs, index_of in *. rewrite bucket_index_spec in Hbc, Hbc' by apply Key.distance_range.
  apply (before_closer d _ _ i j); auto. lia.
Qed.

Lemma chunks_length t idxs cs :
  Forall2 (in_bucket t) idxs cs -> length (concat cs) <= length idxs * MAX_NODES_PER_BUCKET.
Proof.
  induction 1 as [|i c idxs cs (_ & _ & Hc) _ IH]; [done|].
  rewrite concat_cons, length_app, length_cons, Nat.mul_succ_l. lia.
Qed.
End Run.

(** ** The listing as a whole *)

Definition bucket_nodes {T V} (t : KBucketsTable T V) (i : nat) : list (Node T V) :=
  from_option nodes [] (buckets t !! i).

Lemma iter_ref_indices {T V} (t : KBucketsTable T V) :
  iter_ref t = seq 0 (length (buckets t)) ≫= bucket_nodes t.
Proof.
  unfold iter_ref, bucket_nodes. induction (buckets t) as [|b l IH] using rev_ind; [done|].
  rewrite length_app, Nat.add_1_r, seq_S, !bind_app, IH. simpl. f_equal.
  - apply bind_ext_elem. intros i [_ Hi]%elem_of_seq. rewrite lookup_app_l; [done|lia].
  - rewrite lookup_app_r, Nat.sub_diag by lia. done.
Qed.

Lemma length_filter_le {A} (f : A -> bool) l : length (List.filter f l) <= length l.
Proof. induction l as [|x l IH]; simpl; [done|]. destruct (f x); simpl; lia. Qed.

Lemma order_length d : (0 <= d < 2 ^ 256)%Z -> length (order d) <= 512.
Proof.
  intros Hd. destruct (order_start d Hd) as (i & -> & Hi & _). rewrite length_cons, length_app, length_cons.
  unfold ones_below, zeros_from, NUM_BUCKETS in *.
  pose proof (length_filter_le (fun j => bit d j) (rev (seq 0 i))) as H1.
  pose proof (length_filter_le (fun j => negb (bit d j)) (seq 1 255)) as H2.
  rewrite length_rev, length_seq in H1. rewrite length_seq in H2. lia.
Qed.

Lemma order_permutation d :
  (0 <= d < 2 ^ 256)%Z -> d <> 0%Z -> bit d 0 = false -> order d ≡ₚ seq 0 NUM_BUCKETS.
Proof.
  intros Hd Hd0 Hb. apply NoDup_Permutation; [|apply NoDup_seq|].
  - destruct (order_start d Hd) as (i & -> & _ & [[Hi Ha]|[_ ?]]); [|done].
    assert (NoDup (zeros_from d 1 255)) by (apply NoDup_ListNoDup, List.NoDup_filter, NoDup_ListNoDup, NoDup_seq).
    assert (NoDup (ones_below d i)).
    { apply NoDup_ListNoDup, List.NoDup_filter, NoDup_rev, NoDup_ListNoDup, NoDup_seq. }
    apply NoDup_cons. split.
    + rewrite elem_of_app, elem_of_cons, elem_of_ones, elem_of_zeros. intros [[_ ?]|[->|[? _]]]; [lia|congruence..].
    + apply NoDup_app. split_and!; [done| |].
      * intros x [Hx _]%elem_of_ones. rewrite elem_of_cons, elem_of_zeros. intros [->|[? _]]; congruence.
      * apply NoDup_cons. split; [rewrite elem_of_zeros; lia|done].
  - intros i. rewrite elem_of_seq. split.
    + pose proof (order_bound d Hd) as Hall. rewrite Forall_forall in Hall. intros Hi. apply Hall in Hi. lia.
    + intros [_ Hi]. by apply order_covers.
Qed.

Section Listing.
Context {T V U Out : Type} `{EqDecision V}.
Context (clock : nat -> Z) (tg : Key U) (h : Node T V -> Out) (g : Out -> Key T).
Context (g_h : forall n, g (h n) = key n).
Implicit Types (t : KBucketsTable T V).

Lemma chunks_permutation t idxs cs :
  Forall2 (fun i c => exists b, buckets t !! i = Some b /\ c = sort_by tg g (map_bucket h b)) idxs cs ->
  concat cs ≡ₚ h <$> (idxs ≫= bucket_nodes t).
Proof.
  induction 1 as [|i c idxs cs (b & Hb & ->) Hall IH]; csimpl; [done|].
  rewrite fmap_app, IH. apply Permutation_app; [|done].
  unfold sort_by, map_bucket, bucket_nodes. rewrite merge_sort_Permutation, Hb. done.
Qed.

(** Running [closest_by] lists a sorted list that has every node of the table. *)
Lemma closest_by_listing t :
  table_inv t ->
  let d := Key.distance (local_key t) tg in
  exists l t',
    table_inv t' /\ same_config t t' /\ StronglySorted (closer tg g) l /\
    length l <= 512 * MAX_NODES_PER_BUCKET /\
    (forall n, n ∈ iter_ref t' -> h n ∈ l) /\
    (d <> 0%Z -> bit d 0 = false -> l ≡ₚ h <$> iter_ref t') /\
    forall n, exists it', take_next n clock (closest_by (map_bucket h) g t tg) = Ret (it', take n l) /\
                          (length l < n -> table it' = t').
Proof.
  intros Hinv d. pose proof (Key.distance_range (local_key t) tg) as Hd. fold d in Hd.
  destruct (visit_ok clock tg h g g_h 0 t (order d) Hinv (order_bound d Hd))
    as (t' & cs & Hv & Hinv' & Hc & Hin & _ & Hmem & Hnd).
  exists (concat cs), t'. split_and!; [done|done|..].
  - eapply (sorted_chunks tg g d t); [done|done|by apply order_sorted|done].
  - etransitivity; [by apply (chunks_length _ _ _ _ _ Hin)|]. apply Nat.mul_le_mono_r. by apply order_length.
  - intros n Hn. unfold iter_ref in Hn. apply list_elem_of_bind in Hn as (b & Hn & Hb).
    apply list_elem_of_lookup in Hb as [i Hi].
    assert (i ∈ order d) as Hio.
    { apply order_covers; [done|]. rewrite <-(inv_buckets t' Hinv'). by eapply lookup_lt_Some. }
    apply list_elem_of_In, in_concat. eexists. split; [apply list_elem_of_In, (Hmem i b Hio Hi)|].
    apply list_elem_of_In. unfold sort_by, map_bucket. rewrite merge_sort_Permutation.
    by apply list_elem_of_fmap_2.
  - intros Hd0 Hb. rewrite iter_ref_indices, (inv_buckets t' Hinv').
    pose proof (order_permutation d Hd Hd0 Hb) as Hperm.
    rewrite (chunks_permutation t' (order d) cs), Hperm; [done|]. apply Hnd. rewrite Hperm. apply NoDup_seq.
  - intros n. assert (remaining clock tg h g (closest_by (map_bucket h) g t tg) t' (concat cs)) as Hrem.
    { split_and!; [done..|]. by exists cs. }
    destruct (take_next_remaining clock tg h g n _ t' _ Hrem) as (it' & -> & _ & Htab); [|by exists it'].
    pose proof (order_length d Hd) as Hlen. change (rest _) with (order d). unfold NEXT_FUEL. lia.
Qed.
End Listing.
