(* ===== verification/TableTests.v ===== *)
(** * The unit tests of the routing table

    Of src/src/kbucket/bucket.rs, src/src/kbucket/key.rs and src/src/kbucket.rs.
    A test is a function of its random draws and of the clock that panics where
    an assertion fails.  The properties that quickcheck tries are proved for all
    inputs, the other tests are evaluated. *)

From stdpp Require Import gmap.
From S2P Require Import Prelude Bytes Key Bucket BucketSpec BucketProofs BucketRefine BucketTrace Testing Table Closest.

(** ** Buckets (src/src/kbucket/bucket.rs) *)

Import KBucket BucketSpec BucketTrace.

Module BucketTests.

#[export] Instance FailureReason_eq_dec : EqDecision FailureReason.
Proof. solve_decision. Defined.
#[export] Instance UpdateResult_eq_dec : EqDecision UpdateResult.
Proof. solve_decision. Defined.

Definition connected_state : NodeStatus := mkStatus Outgoing Connected.
Definition disconnected_state : NodeStatus := mkStatus Outgoing Disconnected.

(** [Duration::from_secs(1)]. *)
Definition SECOND : Z := 1000000000.

(** ** Invariants *)
Section Check.
Context {V : Type}.
Implicit Types (b : KBucket NodeId V).

Definition check_first_connected_pos b : outcome unit :=
  let first_connected_pos := position (fun n => is_connected (status n)) (nodes b) in
  assert_eq (KBucket.first_connected_pos b) first_connected_pos.

(** A range past the end of the nodes panics. *)
Definition check_status_ordering b : outcome unit :=
  let first_connected_pos := default (length (nodes b)) (first_connected_pos b) in
  _ ← assert (bool_decide (first_connected_pos <= length (nodes b)));
  _ ← assert (forallb (fun n => negb (is_connected (status n))) (take first_connected_pos (nodes b)));
  assert (forallb (fun n => is_connected (status n)) (drop first_connected_pos (nodes b))).

Definition check_max_incoming_nodes b : outcome unit :=
  let number_of_incoming_nodes := countb (fun n => is_connected (status n) && is_incoming (status n)) (nodes b) in
  assert (bool_decide (number_of_incoming_nodes <= max_incoming b)).

Definition check_invariants b : outcome unit :=
  _ ← check_first_connected_pos b;
  _ ← check_status_ordering b;
  check_max_incoming_nodes b.
End Check.

(** ** Generators *)

(** [NodeStatus::arbitrary] for the value of [g.gen_range(1, 4)], whose upper
    bound is exclusive. *)
Definition arbitrary_status (gen_range : Z) : outcome NodeStatus :=
  if decide (gen_range = 1)%Z then Ret (mkStatus Incoming Connected)
  else if decide (gen_range = 2)%Z then Ret (mkStatus Outgoing Connected)
  else if decide (gen_range = 3)%Z then Ret (mkStatus Incoming Disconnected)
  else if decide (gen_range = 4)%Z then Ret (mkStatus Outgoing Disconnected)
  else Panic.

(** [KBucket::arbitrary] for the nodes that [Node::arbitrary] generates;
    [None] when they do not suffice. *)
Fixpoint arbitrary_bucket {V} (now : Z) (num_nodes : nat) (generated : list (Node NodeId V)) (bucket : KBucket NodeId V)
    : outcome (option (KBucket NodeId V)) :=
  match num_nodes, generated with
  | 0, _ => Ret (Some bucket)
  | S _, [] => Ret None
  | S remaining, node :: generated =>
      '(bucket, r) ← insert now bucket node;
      match r with
      | Inserted => arbitrary_bucket now remaining generated bucket
      | TooManyIncoming => arbitrary_bucket now num_nodes generated bucket
      | _ => Panic
      end
  end.

(** [SetFilter]. *)
Definition set_filter {V} `{Countable V} (set : gset V) : Filter V := fun value _ => bool_decide (value ∈ set).

Inductive Action (V : Type) :=
  | ActInsert (n : Node NodeId V)
  | ActRemove (pos : nat)
  | ActUpdatePending (s : NodeStatus)
  | ActApplyPending
  | ActUpdateStatus (pos : nat) (s : NodeStatus)
  | ActUpdateValue (pos : nat) (v : V).
Arguments ActInsert {V} n.
Arguments ActRemove {V} pos.
Arguments ActUpdatePending {V} s.
Arguments ActApplyPending {V}.
Arguments ActUpdateStatus {V} pos s.
Arguments ActUpdateValue {V} pos v.

Section Actions.
Context {V : Type} `{!EqDecision V}.
Implicit Types (b : KBucket NodeId V).

Definition key_of_pos b (pos : nat) : outcome (option (Key.Key NodeId)) :=
  let num_nodes := num_entries b in
  if decide (0 < num_nodes) then
    let pos := pos mod num_nodes in
    n ← unwrap (nodes b !! pos);
    Ret (Some (key n))
  else Ret None.

Definition apply_action (now : Z) b (a : Action V) : outcome (KBucket NodeId V * result FailureReason unit) :=
  match a with
  | ActInsert node =>
      '(b, r) ← insert now b node;
      Ret (b, match r with
              | FailedFilter => Err Reason_BucketFilter
              | TooManyIncoming => Err Reason_TooManyIncoming
              | Full => Err Reason_BucketFull
              | _ => Ok ()
              end)
  | ActRemove pos =>
      k ← key_of_pos b pos;
      match k with
      | Some key => '(b, _) ← remove now b key; Ret (b, Ok ())
      | None => Ret (b, Ok ())
      end
  | ActUpdatePending status => Ret (update_pending b status, Ok ())
  | ActApplyPending => '(b, _) ← apply_pending now b; Ret (b, Ok ())
  | ActUpdateStatus pos s =>
      k ← key_of_pos b pos;
      match k with
      | Some key =>
          '(b, r) ← update_status now b key (state s) (Some (direction s));
          Ret (b, match r with Failed reason => Err reason | _ => Ok () end)
      | None => Ret (b, Ok ())
      end
  | ActUpdateValue pos v =>
      k ← key_of_pos b pos;
      match k with
      | Some key => '(b, r) ← update_value b key v; Ret (b, match r with Failed reason => Err reason | _ => Ok () end)
      | None => Ret (b, Ok ())
      end
  end.
End Actions.

(** ** The tests on random ids *)
Section Tests.
Variables (random : nat -> NodeId) (now : Z).

Definition random_node (i : nat) (s : NodeStatus) : Node NodeId unit := mkNode (Key.from_node_id (random i)) () s.

(** The ids from [random start] on. *)
Definition fill_bucket (start : nat) (b : KBucket NodeId unit) (s : NodeStatus) : outcome (KBucket NodeId unit) :=
  let num_entries_start := num_entries b in
  for_loop (seq 0 (MAX_NODES_PER_BUCKET - num_entries_start)) (fun i b =>
    '(b, r) ← insert now b (random_node (start + i) s);
    _ ← assert (match r with Inserted => true | _ => false end);
    _ ← assert_eq (num_entries b) (num_entries_start + i + 1);
    Ret b) b.

Definition is_Full {T} (r : InsertResult T) : bool := match r with Full => true | _ => false end.
Definition is_Pending {T} (r : InsertResult T) (disconnected : Key.Key T) : bool :=
  match r with Pending k => Key.eqb k disconnected | _ => false end.

Definition full_bucket : outcome unit :=
  let bucket := KBucket.new SECOND MAX_NODES_PER_BUCKET None in
  bucket ← fill_bucket 0 bucket disconnected_state;
  '(bucket, r) ← insert now bucket (random_node 100 disconnected_state);
  _ ← assert (is_Full r);
  bucket ← for_loop (seq 0 MAX_NODES_PER_BUCKET) (fun i bucket =>
    first_disconnected ← unwrap (nodes bucket !! 0);
    _ ← assert_eq (status first_disconnected) disconnected_state;
    let node := random_node (200 + i) connected_state in
    '(bucket, r) ← insert now bucket node;
    _ ← assert (is_Pending r (key first_disconnected));
    '(bucket, r) ← insert now bucket node;
    _ ← assert (is_Full r);
    _ ← assert (is_some (pending bucket));
    bucket ← unwrap (pending_mut bucket (fun p => set_ready_at p (now - SECOND)%Z));
    '(bucket, result) ← apply_pending now bucket;
    _ ← assert (match result with
                | Some a => Key.eqb (inserted a) (key node) &&
                    match evicted a with
                    | Some n => Key.eqb (key n) (key first_disconnected) && bool_decide (status n = status first_disconnected)
                    | None => false
                    end
                | None => false
                end);
    _ ← assert_eq (Some connected_state) (last (status <$> nodes bucket));
    _ ← assert (is_none (pending bucket));
    _ ← assert_eq (Some (MAX_NODES_PER_BUCKET - (i + 1))) (first_connected_pos bucket);
    Ret bucket) bucket;
  _ ← assert (is_none (pending bucket));
  _ ← assert_eq MAX_NODES_PER_BUCKET (num_entries bucket);
  '(bucket, r) ← insert now bucket (random_node 101 connected_state);
  assert (is_Full r).

Definition full_bucket_discard_pending : outcome unit :=
  let bucket := KBucket.new SECOND MAX_NODES_PER_BUCKET None in
  bucket ← fill_bucket 0 bucket disconnected_state;
  first_disconnected ← unwrap (nodes bucket !! 0);
  let node := random_node 100 connected_state in
  '(bucket, r) ← insert now bucket node;
  _ ← assert (is_Pending r (key first_disconnected));
  _ ← assert (is_some (pending bucket));
  '(bucket, _) ← update_status now bucket (key first_disconnected) Connected None;
  _ ← assert (is_none (pending bucket));
  _ ← assert (forallb (fun n => negb (Key.eqb (key n) (key node))) (nodes bucket));
  _ ← assert (match last (nodes bucket) with
              | Some v => Key.eqb (key first_disconnected) (key v) && bool_decide (connected_state = status v)
              | None => false
              end);
  _ ← assert_eq (position_of bucket (key first_disconnected)) (first_connected_pos bucket);
  connected ← num_connected bucket;
  _ ← assert_eq 1 connected;
  disconnected ← num_disconnected bucket;
  assert_eq (MAX_NODES_PER_BUCKET - 1) disconnected.

Definition full_bucket_applied_no_duplicates : outcome unit :=
  let bucket := KBucket.new SECOND MAX_NODES_PER_BUCKET None in
  bucket ← fill_bucket 0 bucket connected_state;
  first ← unwrap (nodes bucket !! 0);
  third ← unwrap (nodes bucket !! 2);
  '(bucket, r) ← update_status now bucket (key first) Disconnected None;
  _ ← assert_eq r Updated;
  let node := random_node 100 connected_state in
  '(bucket, r) ← insert now bucket node;
  _ ← assert (is_Pending r (key first));
  _ ← assert (is_some (pending bucket));
  '(bucket, _) ← remove now bucket (key third);
  '(bucket, r) ← apply_pending now bucket;
  _ ← assert (is_none r);
  '(bucket, r) ← insert now bucket node;
  _ ← assert (match r with Inserted => true | _ => false end);
  _ ← assert (is_none (pending bucket));
  let bucket := default bucket (pending_mut bucket (fun p => set_ready_at p (now - SECOND)%Z)) in
  '(bucket, r) ← apply_pending now bucket;
  _ ← assert (is_none r);
  '(bucket, r) ← update_status now bucket (key node) Connected None;
  assert_eq r NotModified.

Definition table_update_status_connection : outcome unit :=
  let max_incoming := 7 in
  let bucket := KBucket.new SECOND max_incoming None in
  '(bucket, keys, _) ← for_loop (seq 0 MAX_NODES_PER_BUCKET) (fun i '(bucket, keys, incoming_connected) =>
    let key := Key.from_node_id (random i) in
    let keys := keys ++ [key] in
    let incoming_connected := incoming_connected + 1 in
    let direction := if decide (incoming_connected <= max_incoming) then Incoming else Outgoing in
    '(bucket, r) ← insert now bucket (mkNode key () (mkStatus direction Connected));
    _ ← assert (match r with Inserted => true | _ => false end);
    Ret (bucket, keys, incoming_connected)) (bucket, [], 0);
  k ← unwrap (keys !! max_incoming);
  '(bucket, result) ← update_status now bucket k Disconnected (Some Incoming);
  _ ← assert_eq result Updated;
  '(bucket, result) ← update_status now bucket k Connected (Some Outgoing);
  _ ← assert_eq result UpdatedAndPromoted;
  '(bucket, result) ← update_status now bucket k Connected (Some Outgoing);
  _ ← assert_eq result NotModified;
  '(bucket, result) ← update_status now bucket k Connected (Some Incoming);
  assert_eq result (Failed Reason_TooManyIncoming).
End Tests.

(** ** The properties of [quickcheck] *)

(** Lists of statuses and keys; keys are equal when their hashes are. *)
Definition same (l1 l2 : list (NodeStatus * Key.Key NodeId)) : bool :=
  bool_decide (prod_map id Key.hash <$> l1 = prod_map id Key.hash <$> l2).

Section Props.
Variables (random : nat -> NodeId) (now : nat -> Z).

(** What the loops of [ordering] and [bucket_max_incoming_nodes] change. *)
Record Expected := mkExpected {
  bucket : KBucket NodeId unit;
  connected : list (NodeStatus * Key.Key NodeId);
  disconnected : list (NodeStatus * Key.Key NodeId);
}.

(** [if full { vec.pop_front() }; vec.push_back(..)] on the list of the kind. *)
Definition expect (full : bool) (s : NodeStatus) (k : Key.Key NodeId) (e : Expected) : Expected :=
  let push vec := (if full then tail vec else vec) ++ [(s, k)] in
  if is_connected s then mkExpected (bucket e) (push (connected e)) (disconnected e)
  else mkExpected (bucket e) (connected e) (push (disconnected e)).

Definition insert_status (i : nat) (s : NodeStatus) (e : Expected) : outcome (Expected * InsertResult NodeId) :=
  let node := random_node random i s in
  let full := bool_decide (num_entries (bucket e) = MAX_NODES_PER_BUCKET) in
  '(b, r) ← insert (now i) (bucket e) node;
  let e := mkExpected b (connected e) (disconnected e) in
  Ret (match r with Inserted => expect full s (key node) e | _ => e end, r).

Fixpoint ordering_loop (i : nat) (statuses : list NodeStatus) (e : Expected) : outcome Expected :=
  match statuses with
  | [] => Ret e
  | s :: statuses => '(e, _) ← insert_status i s e; ordering_loop (S i) statuses e
  end.

Definition listing (b : KBucket NodeId unit) : list (NodeStatus * Key.Key NodeId) := (fun n => (status n, key n)) <$> nodes b.

(** [p.map_or(Vec::new(), |p| nodes.split_off(p))]: what is left and what is split off. *)
Definition split_off {A} (p : option nat) (l : list A) : outcome (list A * list A) :=
  match p with
  | Some p => if decide (p <= length l) then Ret (take p l, drop p l) else Panic
  | None => Ret (l, [])
  end.

Definition ordering (statuses : list NodeStatus) : outcome bool :=
  e ← ordering_loop 0 statuses (mkExpected (KBucket.new SECOND MAX_NODES_PER_BUCKET None) [] []);
  let nodes := listing (bucket e) in
  let first_connected_pos := position (fun x => is_connected x.1) nodes in
  _ ← assert_eq (KBucket.first_connected_pos (bucket e)) first_connected_pos;
  '(nodes, tail) ← split_off first_connected_pos nodes;
  Ret (same (disconnected e) nodes && same (connected e) tail).

(** A refused filter ends the loop. *)
Fixpoint max_incoming_loop (i : nat) (statuses : list NodeStatus) (e : Expected) : outcome Expected :=
  match statuses with
  | [] => Ret e
  | s :: statuses =>
      '(e, r) ← insert_status i s e;
      match r with FailedFilter => Ret e | _ => max_incoming_loop (S i) statuses e end
  end.

Definition bucket_max_incoming_nodes (statuses : list NodeStatus) : outcome bool :=
  let max_incoming_nodes := 5 in
  e ← max_incoming_loop 0 statuses (mkExpected (KBucket.new SECOND max_incoming_nodes None) [] []);
  _ ← check_invariants (bucket e);
  '(nodes, tail) ← split_off (first_connected_pos (bucket e)) (listing (bucket e));
  Ret (same (disconnected e) nodes && same (connected e) tail).
End Props.

Definition bucket_update_status (now : Z) (bucket : KBucket NodeId unit) (pos : nat) (s : NodeStatus) : outcome bool :=
  let num_nodes := num_entries bucket in
  let pos := pos mod num_nodes in
  n ← unwrap (nodes bucket !! pos);
  let key := KBucket.key n in
  let expected := listing bucket in
  '(bucket, _) ← update_status now bucket key (state s) (Some (direction s));
  expected_pos ← (if is_connected s then unwrap (checked_sub num_nodes 1)
                  else unwrap (checked_sub (default num_nodes (first_connected_pos bucket)) 1));
  '(_, expected) ← array_remove pos expected;
  expected ← vec_insert expected_pos (s, key) expected;
  Ret (same expected (listing bucket)).

(** [Vec<(Key, u8)>] with keys equal when their hashes are. *)
Definition values (b : KBucket NodeId Z) : list (Hash * Z) := (fun n => (Key.hash (key n), value n)) <$> nodes b.

Definition bucket_update_value_with_filtering (bucket : KBucket NodeId Z) (pos : nat) (value : Z) (value_matches_filter : bool)
    : outcome bool :=
  let filter := set_filter (if value_matches_filter then {[value]} else ∅) in
  let bucket := mkBucket (nodes bucket) (first_connected_pos bucket) (pending bucket) (pending_timeout bucket) (Some filter) (max_incoming bucket) in
  let num_nodes := num_entries bucket in
  let pos := pos mod num_nodes in
  n ← unwrap (nodes bucket !! pos);
  let key := KBucket.key n in
  let expected := values bucket in
  '(bucket, _) ← update_value bucket key value;
  _ ← check_invariants bucket;
  at_pos ← unwrap (expected !! pos);
  expected ← (if value_matches_filter || bool_decide (at_pos.2 = value) then Ret (<[pos := (at_pos.1, value)]> expected)
              else '(_, expected) ← array_remove pos expected; Ret expected);
  Ret (bool_decide (expected = values bucket)).

Definition random_actions_with_filtering (now : nat -> Z) (initial_nodes : list (Node NodeId Z)) (pending_timeout : Z) (max_incoming : nat)
    (filter_set : gset Z) (actions : list (Action Z)) : outcome bool :=
  let kbucket := KBucket.new pending_timeout max_incoming (Some (set_filter filter_set)) in
  kbucket ← for_loop (imap pair initial_nodes) (fun '(i, node) kbucket => '(kbucket, _) ← insert (now i) kbucket node; Ret kbucket) kbucket;
  _ ← for_loop (imap (fun i => pair (length initial_nodes + i)) actions) (fun '(i, action) kbucket =>
    '(kbucket, _) ← apply_action (now i) kbucket action;
    _ ← check_invariants kbucket;
    Ret kbucket) kbucket;
  Ret true.

(** ** The tests on fixed inputs pass *)

Lemma fixed_tests :
  full_bucket distinct_ids 0 = Ret () /\ full_bucket_discard_pending distinct_ids 0 = Ret () /\
  full_bucket_applied_no_duplicates distinct_ids 0 = Ret () /\ table_update_status_connection distinct_ids 0 = Ret ().
Proof. split_and!; vm_compute; reflexivity. Qed.

(** ** The properties hold *)

Lemma check_invariants_ok {V} (s : SBucket NodeId V) : wf s -> check_invariants (concrete s) = Ret ().
Proof.
  intros Hwf. pose proof (concrete_inv s Hwf) as Hinv. unfold check_invariants, check_first_connected_pos.
  rewrite assert_eq_refl by apply Hinv. simpl. unfold check_status_ordering.
  assert (default (length (nodes (concrete s))) (first_connected_pos (concrete s)) = length (disc s)) as ->.
  { simpl. unfold all. rewrite length_app. destruct (conn s); simpl; lia. }
  simpl. unfold all. rewrite take_app_length, drop_app_length, length_app.
  rewrite bool_decide_true by lia. simpl.
  assert (forallb (fun n => negb (is_connected (status n))) (disc s) = true) as ->.
  { apply forallb_forall. intros n Hn%list_elem_of_In. apply negb_true_iff. exact (proj1 (Forall_forall _ _) (wf_disc s Hwf) n Hn). }
  assert (forallb (fun n => is_connected (status n)) (conn s) = true) as ->.
  { apply forallb_forall. intros n Hn%list_elem_of_In. exact (proj1 (Forall_forall _ _) (wf_conn s Hwf) n Hn). }
  apply assert_true, bool_decide_eq_true. apply (inv_max_incoming _ Hinv).
Qed.

Definition entries {V} (l : list (Node NodeId V)) : list (NodeStatus * Key.Key NodeId) := (fun n => (status n, key n)) <$> l.

Lemma same_listing l : same l l = true.
Proof. by apply bool_decide_eq_true. Qed.

(** The expected lists are the queues of the bucket. *)
Definition as_expected (e : Expected) : Prop := exists s,
  bucket e = concrete s /\ wf s /\ sfilter s = None /\ connected e = entries (conn s) /\ disconnected e = entries (disc s).

Lemma new_as_expected timeout max_inc : as_expected (mkExpected (KBucket.new timeout max_inc None) [] []).
Proof. exists (empty timeout max_inc None). split_and!; try done. apply wf_empty. Qed.

Lemma insert_status_ok random now i st e :
  as_expected e -> exists e' r, insert_status random now i st e = Ret (e', r) /\ as_expected e' /\ r <> FailedFilter.
Proof.
  intros (s & Hb & Hwf & Hf & Hc & Hd). unfold insert_status. rewrite Hb, sim_insert by done. cbn [mbind outcome_bind].
  pose proof (wf_spec_insert (now i) s (random_node random i st) Hwf) as Hwf'.
  change (num_entries (concrete s)) with (length (all s)). change (bool_decide (length (all s) = _)) with (full s).
  unfold spec_insert, admits in *. rewrite Hf in *. cbn [negb] in *.
  destruct (member s _); [by eexists _, _; split; [done|]; split; [|done]; exists s|].
  destruct (incoming_full s _); [by eexists _, _; split; [done|]; split; [|done]; exists s|].
  destruct (full s) eqn:Efull.
  - destruct (is_connected (status (random_node random i st))), (disc s) as [|old ds] eqn:Ed, (slot s) eqn:Es; eexists _, _; (split; [reflexivity|]); (split; [|done]);
      eexists; (split; [reflexivity|]); split_and!; first [exact Hwf'|done|simpl; by rewrite Ed].
  - eexists _, _. split; [reflexivity|]. split; [|done]. eexists. unfold expect. cbn [fst snd] in *.
    split; [by destruct (is_connected st)|]. split; [exact Hwf'|]. clear Hwf'.
    assert (forall k, conn (drop_slot_of s k) = conn s /\ disc (drop_slot_of s k) = disc s /\ sfilter (drop_slot_of s k) = None) as Hdrop
      by (intros k; unfold drop_slot_of; destruct (slot s); [destruct (Key.eqb _ _)|]; done).
    destruct (Hdrop (Key.from_node_id (random i))) as (Hc' & Hd' & Hf').
    unfold append. simpl. destruct (is_connected st); simpl; rewrite ?Hc', ?Hd', ?Hc, ?Hd; unfold entries; rewrite ?fmap_app; done.
Qed.

Lemma split_listing (s : SBucket NodeId unit) :
  split_off (first_connected_pos (concrete s)) (listing (concrete s)) = Ret (entries (disc s), entries (conn s)).
Proof.
  unfold split_off, listing. simpl. unfold all. rewrite fmap_app. destruct (conn s) as [|c cs] eqn:Ec; [by rewrite app_nil_r|].
  rewrite decide_True by (rewrite length_app, length_fmap; lia).
  rewrite <-(length_fmap (fun n => (status n, key n)) (disc s)). by rewrite take_app_length, drop_app_length.
Qed.

Lemma ordering_loop_ok random now i l e : as_expected e -> exists e', ordering_loop random now i l e = Ret e' /\ as_expected e'.
Proof.
  revert i e. induction l as [|st l IH]; intros i e He; simpl; [eauto|].
  destruct (insert_status_ok random now i st e He) as (e1 & r & -> & He1 & _). by apply IH.
Qed.

Lemma max_incoming_loop_ok random now i l e : as_expected e -> exists e', max_incoming_loop random now i l e = Ret e' /\ as_expected e'.
Proof.
  revert i e. induction l as [|st l IH]; intros i e He; simpl; [eauto|].
  destruct (insert_status_ok random now i st e He) as (e1 & r & -> & He1 & Hr). simpl. destruct r; try done; by apply IH.
Qed.

Lemma ordering_holds random now statuses : ordering random now statuses = Ret true.
Proof.
  unfold ordering. destruct (ordering_loop_ok random now 0 statuses _ (new_as_expected SECOND MAX_NODES_PER_BUCKET)) as (e & -> & He).
  destruct He as (s & Hb & Hwf & _ & Hc & Hd). cbn [mbind outcome_bind]. rewrite Hb.
  assert (position (fun x : NodeStatus * Key.Key NodeId => is_connected x.1) (listing (concrete s)) = first_connected_pos (concrete s)) as ->.
  { rewrite (inv_first_connected_pos _ (concrete_inv s Hwf)). unfold listing. generalize (nodes (concrete s)).
    induction l as [|n l IH]; [done|]. csimpl. destruct (is_connected (status n)); [done|]. by rewrite IH. }
  rewrite assert_eq_refl by done. cbn [mbind outcome_bind]. rewrite split_listing. simpl. by rewrite Hc, Hd, !same_listing.
Qed.

Lemma bucket_max_incoming_nodes_holds random now statuses : bucket_max_incoming_nodes random now statuses = Ret true.
Proof.
  unfold bucket_max_incoming_nodes. destruct (max_incoming_loop_ok random now 0 statuses _ (new_as_expected SECOND 5)) as (e & -> & He).
  destruct He as (s & Hb & Hwf & _ & Hc & Hd). cbn [mbind outcome_bind]. rewrite Hb, check_invariants_ok by done.
  cbn [mbind outcome_bind]. rewrite split_listing. simpl. by rewrite Hc, Hd, !same_listing.
Qed.

(** Generated buckets: no filter, no waiting node and room for all incoming nodes. *)
Lemma arbitrary_bucket_ok {V} `{!EqDecision V} now num (l : list (Node NodeId V)) (s : SBucket NodeId V) b :
  wf s -> arbitrary_bucket now num l (concrete s) = Ret (Some b) ->
  exists s', b = concrete s' /\ wf s' /\ sfilter s' = sfilter s /\ limit s' = limit s /\ length (all s') = num + length (all s).
Proof.
  revert num s. induction l as [|n l IH]; intros num s Hwf; destruct num as [|num]; simpl; try done;
    [intros [= <-]; by exists s..|]. rewrite sim_insert by done. cbn [mbind outcome_bind].
  pose proof (wf_spec_insert now s n Hwf) as Hwf'. unfold spec_insert in *.
  destruct (member s (key n)); [done|]. destruct (negb (admits s (value n))); [done|].
  destruct (incoming_full s n); [intros E; by apply (IH (S num) s)|].
  destruct (full s); [by destruct (is_connected _), (disc s), (slot s)|]. cbn [fst snd] in *.
  intros (s' & -> & Hs' & Hf & Hl & Hlen)%IH; [|done]. exists s'. split_and!; [done|done| | |].
  - rewrite Hf. unfold append, drop_slot_of. repeat case_match; done.
  - rewrite Hl. unfold append, drop_slot_of. repeat case_match; done.
  - rewrite Hlen, (Permutation_length (append_nodes _ n)). unfold drop_slot_of. repeat case_match; simpl; unfold all; simpl; lia.
Qed.

(** The key of the node at a position leads back to it. *)
Lemma position_key {V} (s : SBucket NodeId V) pos n :
  wf s -> all s !! pos = Some n -> position_of (concrete s) (key n) = Some pos.
Proof.
  intros Hwf Hn. pose proof (wf_nodup s Hwf) as Hnd. destruct (position_of (concrete s) (key n)) as [i|] eqn:Ep.
  - unfold position_of in Ep. apply position_Some in Ep as (l1 & m & l2 & Hl & <- & Hm & _). apply Key.eqb_true in Hm. f_equal.
    eapply (NoDup_lookup _ _ _ (Key.hash (key n)) Hnd); unfold keys; rewrite list_lookup_fmap.
    + change (nodes (concrete s)) with (all s) in Hl. rewrite Hl, list_lookup_middle by done. simpl. by rewrite Hm.
    + by rewrite Hn.
  - unfold position_of in Ep. apply position_None in Ep. rewrite Forall_lookup in Ep. specialize (Ep pos n Hn).
    apply Key.eqb_false in Ep. done.
Qed.

Lemma entries_app {V} (l1 l2 : list (Node NodeId V)) : entries (l1 ++ l2) = entries l1 ++ entries l2.
Proof. apply fmap_app. Qed.

Lemma countb_length {A} (f : A -> bool) l : countb f l <= length l.
Proof. induction l as [|x l IH]; simpl; [done|]. destruct (f x); simpl; lia. Qed.

(** With room for every node a member that changes its status is only moved. *)
Lemma reinsert_room {V} (s s' : SBucket NodeId V) k n st dir :
  sfilter s' = None -> length (all s') < limit s' ->
  exists s2, conn s2 = conn s' /\ disc s2 = disc s' /\ fst (reinsert s k s' n st dir) = append s2 (update_node_status n st dir).
Proof.
  intros Hf Hl. unfold reinsert, admits, incoming_full.
  set (s2 := if is_oldest s k && _ then _ else _).
  assert (conn s2 = conn s' /\ disc s2 = disc s' /\ sfilter s2 = None /\ limit s2 = limit s') as (Hc & Hd & -> & Hm)
    by (unfold s2; by destruct (_ && _)).
  rewrite (bool_decide_false (_ <= _)), andb_false_r; [by exists s2|].
  pose proof (countb_length counts_incoming (conn s2)). rewrite Hc, Hm in *. unfold all in Hl. rewrite length_app in Hl. lia.
Qed.

Lemma bucket_update_status_holds now (s : SBucket NodeId unit) pos st :
  wf s -> sfilter s = None -> limit s = MAX_NODES_PER_BUCKET -> 0 < length (all s) ->
  bucket_update_status now (concrete s) pos st = Ret true.
Proof.
  intros Hwf Hf Hm Hpos. unfold bucket_update_status. change (num_entries (concrete s)) with (length (all s)).
  change (nodes (concrete s)) with (all s). set (pos' := pos mod length (all s)).
  assert (pos' < length (all s)) as Hlt by (apply Nat.mod_upper_bound; lia).
  destruct (lookup_lt_is_Some_2 (all s) pos' Hlt) as [n Hn]. rewrite Hn. cbn [unwrap mbind outcome_bind].
  rewrite sim_update_status by done. cbn [mbind outcome_bind]. unfold spec_update_status.
  pose proof (position_key s pos' n Hwf Hn) as Hp. pose proof (detach_position s (key n)) as Hdp.
  destruct (detach s (key n)) as [[n0 s']|] eqn:Ed; [|congruence].
  destruct (sim_detach s (key n) n0 s' pos' Hwf Ed Hp) as (Hrem & _). unfold array_remove in Hrem. rewrite Hn in Hrem.
  injection Hrem as <- Hall. destruct (detach_sub s (key n) n s' Ed) as (_ & _ & _ & Hf').
  assert (length (all s) = S (length (all s'))) as Hlen by (rewrite <-Hall, length_delete by (by rewrite Hn); lia).
  assert (limit s' = limit s) as Hm'.
  { unfold detach in Ed. repeat case_match; by simplify_eq. }
  pose proof (wf_size s Hwf) as Hsz.
  destruct (reinsert_room s s' (key n) n (state st) (Some (direction st))) as (s2 & Hc2 & Hd2 & ->); [congruence|lia|].
  assert (array_remove pos' (listing (concrete s)) = Ret ((status n, key n), entries (disc s') ++ entries (conn s'))) as Hlist.
  { unfold array_remove, listing. simpl. rewrite list_lookup_fmap, Hn. simpl. do 2 f_equal.
    rewrite <-entries_app, <-list_fmap_delete. unfold entries. by rewrite Hall. }
  unfold update_node_status, append. change (default _ (Some (direction st))) with (direction st). assert (mkStatus (direction st) (state st) = st) as -> by by destruct st.
  cbn [status set_status]. destruct (is_connected st).
  - rewrite Hlen, checked_sub_S. cbn [unwrap mbind outcome_bind]. rewrite Hlist. cbn [mbind outcome_bind].
    unfold vec_insert. rewrite <-entries_app. change (disc s' ++ conn s') with (all s').
    replace (length (all s')) with (length (entries (all s'))) by apply length_fmap.
    rewrite decide_True, insert_at_end by done. simpl. f_equal. unfold listing. simpl. unfold all. simpl. rewrite Hc2, Hd2.
    apply bool_decide_eq_true. f_equal. unfold entries. by rewrite !fmap_app, app_assoc.
  - assert (checked_sub (default (length (all s)) (first_connected_pos (concrete (with_queues s2 (disc s2 ++ [set_status n st]) (conn s2))))) 1
      = Some (length (entries (disc s')))) as ->.
    { simpl. rewrite Hc2, Hd2. destruct (conn s') eqn:Ec; simpl; unfold entries; rewrite length_fmap.
      - rewrite Hlen, checked_sub_S. unfold all. by rewrite Ec, app_nil_r.
      - by rewrite length_app, Nat.add_1_r, checked_sub_S. }
    cbn [unwrap mbind outcome_bind]. rewrite Hlist. cbn [mbind outcome_bind]. unfold vec_insert.
    rewrite decide_True, insert_at_length by (rewrite length_app; lia). simpl. f_equal. unfold listing. simpl. unfold all. simpl.
    rewrite Hc2, Hd2. apply bool_decide_eq_true. f_equal. unfold entries. by rewrite !fmap_app, <-app_assoc.
Qed.

Lemma bucket_update_value_holds (s : SBucket NodeId Z) pos v matches :
  wf s -> 0 < length (all s) -> bucket_update_value_with_filtering (concrete s) pos v matches = Ret true.
Proof.
  intros Hwf Hpos. unfold bucket_update_value_with_filtering.
  set (f := set_filter (if matches then {[v]} else ∅)). set (s1 := mkS (disc s) (conn s) (slot s) (timeout s) (Some f) (limit s)).
  change (mkBucket _ _ _ _ _ _) with (concrete s1). assert (wf s1) as Hwf1 by (destruct Hwf; by split).
  change (num_entries (concrete s1)) with (length (all s1)). change (nodes (concrete s1)) with (all s1).
  set (pos' := pos mod length (all s1)). assert (pos' < length (all s1)) as Hlt by (apply Nat.mod_upper_bound; change (all s1) with (all s); lia).
  destruct (lookup_lt_is_Some_2 (all s1) pos' Hlt) as [n Hn]. rewrite Hn. cbn [unwrap mbind outcome_bind].
  rewrite sim_update_value by done. cbn [mbind outcome_bind]. rewrite check_invariants_ok by by apply wf_spec_update_value.
  cbn [mbind outcome_bind]. assert (values (concrete s1) !! pos' = Some (Key.hash (key n), value n)) as Hv
    by (unfold values; simpl; by rewrite list_lookup_fmap, Hn).
  rewrite Hv. cbn [unwrap mbind outcome_bind snd fst]. unfold spec_update_value.
  pose proof (position_key s1 pos' n Hwf1 Hn) as Hp. pose proof (detach_position s1 (key n)) as Hdp.
  destruct (detach s1 (key n)) as [[n0 s']|] eqn:Ed; [|congruence].
  destruct (sim_detach s1 (key n) n0 s' pos' Hwf1 Ed Hp) as (Hrem & _). unfold array_remove in Hrem. rewrite Hn in Hrem.
  injection Hrem as <- Hall. destruct (detach_sub s1 (key n) n s' Ed) as (_ & _ & _ & Hf').
  case_decide as Heq; [|rewrite (bool_decide_false _ Heq), orb_false_r; unfold admits; rewrite Hf'; change (sfilter s1) with (Some f); cbv iota beta].
  - rewrite (bool_decide_true _ Heq), orb_true_r. cbn [mbind outcome_bind]. f_equal. apply bool_decide_eq_true. subst v. simpl.
    by apply list_insert_id.
  - assert (f v (value <$> all s') = matches) as ->
      by (unfold f, set_filter; destruct matches; [apply bool_decide_true|apply bool_decide_false]; set_solver).
    destruct matches.
    + cbn [negb orb mbind outcome_bind fst]. f_equal. apply bool_decide_eq_true.
      rewrite concrete_revalue. unfold values at 2. cbn [nodes set_nodes].
      pose proof (take_drop_middle _ _ _ Hn) as Hl. symmetry in Hl. set (l1 := take pos' _) in *. set (l2 := drop _ _) in *.
      assert (length l1 = pos') as Hlen by (apply length_take_le; lia). rewrite (revalue_all s1 (key n) n s' pos' v l1 l2) by done.
      unfold values. simpl. rewrite Hl, !fmap_app. csimpl.
      by rewrite insert_app_r_alt, length_fmap, Hlen, Nat.sub_diag by (rewrite length_fmap; lia).
    + cbn [negb fst orb]. unfold array_remove. rewrite Hv. cbn [mbind outcome_bind]. f_equal.
      apply bool_decide_eq_true. unfold values. simpl. by rewrite <-Hall, list_fmap_delete.
Qed.

Definition laid_out {V} (b : KBucket NodeId V) : Prop := exists s, b = concrete s /\ wf s.

Lemma key_of_pos_ok {V} (b : KBucket NodeId V) pos : exists k, key_of_pos b pos = Ret k.
Proof.
  unfold key_of_pos. case_decide as Hn; [|eauto].
  destruct (lookup_lt_is_Some_2 (nodes b) (pos mod num_entries b)) as [n ->]; [unfold num_entries in *; apply Nat.mod_upper_bound; lia|simpl; eauto].
Qed.

Lemma apply_action_ok {V} `{!EqDecision V} now (b : KBucket NodeId V) a :
  laid_out b -> exists b' r, apply_action now b a = Ret (b', r) /\ laid_out b'.
Proof.
  intros (s & -> & Hwf). unfold apply_action.
  destruct a as [n|pos|st| |pos st|pos v]; try destruct (key_of_pos_ok (concrete s) pos) as [[k|] ->]; cbn [mbind outcome_bind];
    try (eexists _, _; split; [reflexivity|by exists s]).
  - rewrite sim_insert by done. eexists _, _. split; [reflexivity|]. eexists. split; [done|by apply wf_spec_insert].
  - rewrite sim_remove by done. eexists _, _. split; [reflexivity|]. eexists. split; [done|by apply wf_spec_remove].
  - rewrite sim_update_pending. eexists _, _. split; [reflexivity|]. eexists. split; [done|by apply wf_spec_update_pending].
  - rewrite sim_apply_pending by done. eexists _, _. split; [reflexivity|]. eexists. split; [done|by apply wf_spec_apply_pending].
  - rewrite sim_update_status by done. eexists _, _. split; [reflexivity|]. eexists. split; [done|by apply wf_spec_update_status].
  - rewrite sim_update_value by done. eexists _, _. split; [reflexivity|]. eexists. split; [done|by apply wf_spec_update_value].
Qed.

Lemma random_actions_hold now initial_nodes timeout max_inc set actions :
  random_actions_with_filtering now initial_nodes timeout max_inc set actions = Ret true.
Proof.
  unfold random_actions_with_filtering.
  edestruct (for_loop_inv (laid_out (V := Z)) (imap pair initial_nodes)) as (b & -> & Hb).
  3: cbn [mbind outcome_bind]; edestruct (for_loop_inv (laid_out (V := Z)) (imap (fun i => pair (length initial_nodes + i)) actions)) as (b' & -> & Hb');
     [|exact Hb|done].
  - intros [i n] b (s & -> & Hwf). simpl. rewrite sim_insert by done. eexists. split; [reflexivity|]. eexists. split; [done|by apply wf_spec_insert].
  - exists (empty timeout max_inc (Some (set_filter set))). split; [done|apply wf_empty].
  - intros [i a] b0 Hb0. simpl. destruct (apply_action_ok (now i) b0 a Hb0) as (b1 & r & -> & s & -> & Hwf).
    simpl. rewrite check_invariants_ok by done. eexists. split; [reflexivity|by exists s].
Qed.

(** A bucket that the generator of the tests produces. *)
Definition generated {V} `{!EqDecision V} (b : KBucket NodeId V) : Prop :=
  exists now timeout num nodes, arbitrary_bucket now (S num) nodes (KBucket.new timeout MAX_NODES_PER_BUCKET None) = Ret (Some b).

Lemma generated_ok {V} `{!EqDecision V} (b : KBucket NodeId V) :
  generated b -> exists s, b = concrete s /\ wf s /\ sfilter s = None /\ limit s = MAX_NODES_PER_BUCKET /\ 0 < length (all s).
Proof.
  intros (now & timeout & num & l & E).
  destruct (arbitrary_bucket_ok now (S num) l (empty timeout MAX_NODES_PER_BUCKET None) b) as (s & -> & Hwf & Hf & Hl & Hlen);
    [apply wf_empty|exact E|]. exists s. split_and!; try done. rewrite Hlen. lia.
Qed.

Lemma generated_sample : exists b : KBucket NodeId unit, generated b /\ num_entries b = 2.
Proof.
  eexists. split.
  - exists 0%Z, SECOND, 1, [random_node distinct_ids 1 connected_state; random_node distinct_ids 2 disconnected_state]. vm_compute. reflexivity.
  - reflexivity.
Qed.

(** The upper bound of [gen_range(1, 4)] is exclusive: no generated status is both outgoing and disconnected. *)
Lemma arbitrary_status_misses g : (1 <= g < 4)%Z -> arbitrary_status g <> Ret disconnected_state.
Proof. intros Hg. unfold arbitrary_status. repeat case_decide; try done. lia. Qed.
End BucketTests.

Import BucketTests.

(** C36: Functional.  The unit tests of the k-bucket.  The properties that the
    sources check with random inputs hold for all inputs: whatever is inserted,
    the nodes of each kind stand in the order of insertion, and at most
    [max_incoming] of them are incoming; a change of status moves a node to the
    end of its kind and leaves the others in order; a change of value keeps the
    place of the node or drops it when the filter refuses; and the checks of
    [check_invariants] pass after every sequence of actions, with any filter,
    limit, timeout and clock.  The tests on fixed inputs pass. *)
Theorem bucket_tests_pass :
  (forall random now statuses, ordering random now statuses = Ret true /\ bucket_max_incoming_nodes random now statuses = Ret true) /\
  (forall now b pos st, generated b -> bucket_update_status now b pos st = Ret true) /\
  (forall b pos v matches, generated b -> bucket_update_value_with_filtering b pos v matches = Ret true) /\
  (forall now nodes timeout max_inc set actions, random_actions_with_filtering now nodes timeout max_inc set actions = Ret true) /\
  full_bucket distinct_ids 0 = Ret () /\ full_bucket_discard_pending distinct_ids 0 = Ret () /\
  full_bucket_applied_no_duplicates distinct_ids 0 = Ret () /\ table_update_status_connection distinct_ids 0 = Ret ().
Proof.
  split_and!; [| | | |apply fixed_tests..].
  - split; [apply ordering_holds|apply bucket_max_incoming_nodes_holds].
  - intros now b pos st (s & -> & Hwf & Hf & Hl & Hp)%generated_ok. by apply bucket_update_status_holds.
  - intros b pos v matches (s & -> & Hwf & _ & _ & Hp)%generated_ok. by apply bucket_update_value_holds.
  - apply random_actions_hold.
Qed.

Lemma bucket_tests_pass_witness :
  exists b : KBucket NodeId unit, generated b /\ num_entries b = 2 /\ bucket_update_status 0 b 1 connected_state = Ret true.
Proof.
  destruct generated_sample as (b & Hg & Hn). exists b. split; [exact Hg|]. split; [exact Hn|].
  destruct bucket_tests_pass as (_ & Hu & _). exact (Hu 0%Z b 1 connected_state Hg).
Defined.

(** ** Keys and tables (src/src/kbucket/key.rs, src/src/kbucket.rs) *)

Import KBucket Table BucketTests.

Module KeyTests.

Definition identity (a : Key.Key NodeId) : bool := bool_decide (Key.distance a a = 0%Z).

Definition symmetry (a b : Key.Key NodeId) : bool := bool_decide (Key.distance a b = Key.distance b a).

(** [None] is a discarded test: the sum overflows. *)
Definition triangle_inequality (a b c : Key.Key NodeId) : option bool :=
  let ab := Key.distance a b in
  let bc := Key.distance b c in
  if decide (2 ^ 256 <= ab + bc)%Z then None
  else Some (bool_decide (Key.distance a c <= ab + bc)%Z).

Definition unidirectionality (random : nat -> NodeId) (a b : Key.Key NodeId) : bool :=
  let d := Key.distance a b in
  forallb (fun i => let c := Key.from_node_id (random i) in negb (bool_decide (Key.distance a c = d)) || Key.eqb b c) (seq 0 100).

Lemma key_tests a b c random :
  identity a = true /\ symmetry a b = true /\ triangle_inequality a b c <> Some false /\ unidirectionality random a b = true.
Proof.
  unfold identity, symmetry, triangle_inequality, unidirectionality. split_and!.
  - apply bool_decide_eq_true. by apply Key.distance_zero.
  - apply bool_decide_eq_true. apply Key.distance_sym.
  - case_decide; [done|]. rewrite bool_decide_true; [done|]. apply Key.distance_triangle.
  - apply forallb_forall. intros i _. case_bool_decide as Hd; [|done]. simpl. apply Key.eqb_true.
    by apply (Key.distance_unidirectional a); symmetry.
Qed.
End KeyTests.

Module TableTests.

Section Tests.
Variables (random : nat -> NodeId) (now : Z).
Notation Table := (KBucketsTable NodeId unit).

(** [Duration::from_secs(5)]. *)
Definition five_seconds : Z := 5 * SECOND.

(** [if let Entry::Absent(e) = table.entry(&key) { e.insert((), status) }]: the
    entry writes to its bucket in the table; [None] for another entry. *)
Definition insert_absent (table : Table) (k : Key.Key NodeId) (s : NodeStatus) : outcome (Table * option (InsertResult NodeId)) :=
  '(table, e) ← entry now table k;
  match e with
  | Entry.Absent e =>
      '(b, r) ← Entry.absent_insert now e () s;
      i ← unwrap (index_of table k);
      Ret (set_bucket table i b, Some r)
  | _ => Ret (table, None)
  end.

(** [table.closest_keys(&target).collect()]. *)
Definition closest_keys_of (table : Table) (target : Key.Key NodeId) : outcome (Table * list (Key.Key NodeId)) :=
  '(it, l) ← Closest.take_next (NUM_BUCKETS * (MAX_NODES_PER_BUCKET + 1)) (fun _ => now) (Closest.closest_keys table target);
  Ret (Closest.table it, l).

Definition basic_closest : outcome unit :=
  let local_key := Key.from_node_id (random 0) in
  let other_id := Key.from_node_id (random 1) in
  let table := Table.new local_key five_seconds MAX_NODES_PER_BUCKET None None in
  '(table, r) ← insert_absent table other_id connected_state;
  _ ← assert (match r with Some Inserted => true | _ => false end);
  '(table, res) ← closest_keys_of table other_id;
  _ ← assert_eq (length res) 1;
  k ← unwrap (res !! 0);
  assert (Key.eqb k other_id).

Definition update_local_id_fails : outcome unit :=
  let local_key := Key.from_node_id (random 0) in
  let table := Table.new (V := unit) local_key five_seconds MAX_NODES_PER_BUCKET None None in
  '(_, e) ← entry now table local_key;
  match e with Entry.SelfEntry => Ret () | _ => Panic end.

(** The loop that inserts until [count] is 100; [i] is the next random id and
    [fuel] bounds the ids drawn. *)
Fixpoint insert_hundred (fuel i count : nat) (table : Table) : outcome (Table * nat) :=
  if decide (count = 100) then Ret (table, count)
  else
    match fuel with
    | 0 => Panic
    | S fuel =>
        '(table, r) ← insert_absent table (Key.from_node_id (random i)) connected_state;
        match r with
        | Some Inserted => insert_hundred fuel (S i) (count + 1) table
        | Some _ => insert_hundred fuel (S i) count table
        | None => Panic
        end
    end.

Definition hashes (l : list (Key.Key NodeId)) : list Hash := Key.hash <$> l.

(** [sort_by_key(|k| k.distance(&target_key))]. *)
Definition nearer (target : Key.Key NodeId) (a b : Key.Key NodeId) : Prop := (Key.distance a target <= Key.distance b target)%Z.

#[export] Instance nearer_dec target : RelDecision (nearer target).
Proof. intros a b. unfold nearer. apply _. Defined.

Definition closest (fuel : nat) : outcome unit :=
  let local_key := Key.from_node_id (random 0) in
  let table := Table.new local_key five_seconds MAX_NODES_PER_BUCKET None None in
  '(table, _) ← insert_hundred fuel 1 0 table;
  let expected_keys := buckets table ≫= fun b => key <$> nodes b in
  _ ← for_loop (seq 0 10) (fun i '(table, expected_keys) =>
    let target_key := Key.from_node_id (random (fuel + 1 + i)) in
    '(table, keys) ← closest_keys_of table target_key;
    let expected_keys := merge_sort (nearer target_key) expected_keys in
    _ ← assert_eq (hashes keys) (hashes expected_keys);
    Ret (table, expected_keys)) (table, expected_keys);
  Ret ().

Definition closest_local (fuel : nat) : outcome unit :=
  let local_key := Key.from_node_id (random 0) in
  let table := Table.new local_key five_seconds MAX_NODES_PER_BUCKET None None in
  '(table, count) ← insert_hundred fuel 1 0 table;
  let local_key := Table.local_key table in
  '(_, l) ← closest_keys_of table local_key;
  assert_eq (length l) count.

(** The loop that fills a bucket: the table, the applied entry that is expected
    and the index of the full bucket. *)
Fixpoint fill_one (fuel i : nat) (local_key : Key.Key NodeId) (table : Table) : outcome (Table * AppliedPending NodeId unit * option nat) :=
  match fuel with
  | 0 => Panic
  | S fuel =>
      let key := Key.from_node_id (random i) in
      '(table, r) ← insert_absent table key disconnected_state;
      match r with
      | Some Full =>
          '(table, r) ← insert_absent table key connected_state;
          match r with
          | Some (Pending disconnected) =>
              Ret (table, mkApplied key (Some (mkNode disconnected () disconnected_state)), BucketIndex.new (Key.distance key local_key))
          | _ => Panic
          end
      | Some _ => fill_one fuel (S i) local_key table
      | None => Panic
      end
  end.

(** [AppliedPending] up to the equality of keys. *)
Definition same_applied (a b : AppliedPending NodeId unit) : bool :=
  Key.eqb (inserted a) (inserted b) &&
  match evicted a, evicted b with
  | Some n, Some m => Key.eqb (key n) (key m) && bool_decide (status n = status m)
  | None, None => true
  | _, _ => false
  end.

Definition applied_pending (fuel : nat) : outcome unit :=
  let local_key := Key.from_node_id (random 0) in
  let table := Table.new local_key (SECOND / 1000) MAX_NODES_PER_BUCKET None None in
  '(table, expected_applied, full_bucket_index) ← fill_one fuel 1 local_key table;
  i ← unwrap full_bucket_index;
  full_bucket ← unwrap (buckets table !! i);
  let elapsed := (now - SECOND)%Z in
  full_bucket ← unwrap (pending_mut full_bucket (fun p => set_ready_at p elapsed));
  let table := set_bucket table i full_bucket in
  '(table, e) ← entry now table (inserted expected_applied);
  _ ← assert (match e with Entry.Present _ s => is_connected s | _ => false end);
  evicted ← unwrap (evicted expected_applied);
  '(table, e) ← entry now table (key evicted);
  _ ← assert (match e with Entry.Absent _ => true | _ => false end);
  let '(table, applied) := take_applied_pending table in
  _ ← assert (match applied with Some a => same_applied expected_applied a | None => false end);
  let '(_, applied) := take_applied_pending table in
  assert (is_none applied).
End Tests.

(** The local id, and distinct ids that are spread over the buckets. *)
Definition spread_ids (n : nat) : NodeId :=
  match n with
  | 0 => vreplicate 32 x00
  | _ => vinsert 0%fin (byte_of_Z (2 ^ (Z.of_nat n mod 8))) (vinsert 1%fin (byte_of_Z (Z.of_nat n / 8)) (vreplicate 32 x00))
  end.
End TableTests.

Import KeyTests TableTests.

(** Functional.  The unit tests of the keys and of the routing table.  The
    distance between keys is zero from a key to itself, symmetric, and satisfies
    the triangle inequality when the sum does not overflow, and no two keys have
    the same distance to a third, for all keys.  On concrete tables: a key
    inserted is the closest to itself, the local key has no entry, the closest
    keys of 100 nodes are those of a scan of the whole table sorted by distance,
    for ten targets and for the local key; and a pending node takes the place of
    the disconnected one when its time has come, and this is reported once. *)
Theorem table_tests_pass :
  (forall a b c random, identity a = true /\ symmetry a b = true /\ triangle_inequality a b c <> Some false /\
     unidirectionality random a b = true) /\
  basic_closest spread_ids 0 = Ret () /\ update_local_id_fails spread_ids 0 = Ret () /\ closest spread_ids 0 200 = Ret () /\
  closest_local spread_ids 0 200 = Ret () /\ applied_pending spread_ids 0 200 = Ret ().
Proof. split_and!; [apply key_tests|vm_compute; reflexivity..]. Qed.
