(* ===== verification/TableTrace.v ===== *)
(** * Histories of the routing table

    Sequences of calls on a [KBucketsTable], writes through entries included,
    and the theorems on single operations.

    At the end: a property of keys that holds of every key inserted into the
    table holds of every key the table stores and lists, whatever happens to it. *)

From Stdlib Require Import Sorting.Sorted.
From S2P Require Import Prelude Bytes Key Bucket BucketSpec BucketProofs BucketRefine BucketTrace BucketPost IpFilter Table.
From S2P Require Import TableProofs Closest ClosestProofs.
Import KBucket BucketTrace IpFilter Table Closest.

Module TableTrace.

(** What a caller does with an [Entry]. *)
Inductive entry_action (V : Type) :=
  | ActValueMut (v : V)
  | ActUpdate (st : ConnectionState) (dir : option ConnectionDirection)
  | ActRemove
  | ActPendingValue (v : V)
  | ActPendingUpdate (s : NodeStatus)
  | ActInsert (v : V) (s : NodeStatus).
Arguments ActValueMut {V} v.
Arguments ActUpdate {V} st dir.
Arguments ActRemove {V}.
Arguments ActPendingValue {V} v.
Arguments ActPendingUpdate {V} s.
Arguments ActInsert {V} v s.

Inductive table_op (T V : Type) :=
  | OpUpdateNodeStatus (k : Key T) (st : ConnectionState) (dir : option ConnectionDirection)
  | OpUpdateNode (k : Key T) (v : V) (st : option ConnectionState)
  | OpInsertOrUpdate (k : Key T) (v : V) (s : NodeStatus)
  | OpTableRemove (k : Key T)
  | OpEntry (k : Key T) (a : entry_action V)
  | OpIter
  | OpTakeApplied
  | OpNodesByDistances (ds : list Z) (max_nodes : nat)
  | OpClosest (target : Key T) (n : nat).
Arguments OpUpdateNodeStatus {T V} k st dir.
Arguments OpUpdateNode {T V} k v st.
Arguments OpInsertOrUpdate {T V} k v s.
Arguments OpTableRemove {T V} k.
Arguments OpEntry {T V} k a.
Arguments OpIter {T V}.
Arguments OpTakeApplied {T V}.
Arguments OpNodesByDistances {T V} ds max_nodes.
Arguments OpClosest {T V} target n.

Section Trace.
Context {T V : Type} `{EqDecision V}.
Implicit Types (t : KBucketsTable T V) (b : KBucket T V) (k : Key T) (a : entry_action V).

(** The bucket behind an entry after an action that the entry offers; [None]
    when the entry does not offer it. *)
Definition run_action (now : Z) (e : Entry.Entry T V) a : outcome (option (KBucket T V)) :=
  match e, a with
  | Entry.Present e _, ActValueMut v => Some <$> Entry.present_value_mut e v
  | Entry.Present e _, ActUpdate st dir =>
      r ← Entry.present_update now e st dir;
      Ret (Some (match r with inl e => Entry.bucket e | inr (b, _) => b end))
  | Entry.Present e _, ActRemove => Some <$> Entry.entry_remove now e
  | Entry.PendingEntry e _, ActRemove => Some <$> Entry.entry_remove now e
  | Entry.PendingEntry e _, ActPendingValue v => Some <$> Entry.pending_value e v
  | Entry.PendingEntry e _, ActPendingUpdate s => Ret (Some (Entry.bucket (Entry.pending_update e s)))
  | Entry.Absent e, ActInsert v s => '(b, _) ← Entry.absent_insert now e v s; Ret (Some b)
  | _, _ => Ret None
  end.

(** One call; [clock] gives its readings of the clock. *)
Definition run_table_op (clock : nat -> Z) (op : table_op T V) t : outcome (KBucketsTable T V) :=
  match op with
  | OpUpdateNodeStatus k st dir => fst <$> Table.update_node_status (clock 0) (clock 1) t k st dir
  | OpUpdateNode k v st => fst <$> update_node (clock 0) (clock 1) t k v st
  | OpInsertOrUpdate k v s => fst <$> insert_or_update (clock 0) (clock 1) t k v s
  | OpTableRemove k => fst <$> table_remove (clock 0) (clock 1) t k
  | OpEntry k a =>
      '(t, e) ← entry (clock 0) t k;
      o ← run_action (clock 1) e a;
      Ret (match index_of t k, o with Some i, Some b => set_bucket t i b | _, _ => t end)
  | OpIter => fst <$> Table.iter clock t
  | OpTakeApplied => Ret (fst (take_applied_pending t))
  | OpNodesByDistances ds m => fst <$> nodes_by_distances clock t ds m
  | OpClosest tg n => (fun r => table (fst r)) <$> take_next n clock (closest_values t tg)
  end.

Fixpoint run_table (tr : list ((nat -> Z) * table_op T V)) t : outcome (KBucketsTable T V) :=
  match tr with
  | [] => Ret t
  | (clock, op) :: tr => t ← run_table_op clock op t; run_table tr t
  end.

(** The keys an action brings into the bucket. *)
Definition action_placed (P : Key T -> Prop) k a : Prop :=
  match a with ActInsert _ _ => P k | _ => True end.

Lemma run_action_ok (P : Key T -> Prop) now b k a :
  bucket_ok P b -> action_placed P k a ->
  exists o, run_action now (Entry.new b k) a = Ret o /\ forall b', o = Some b' -> bucket_ok P b'.
Proof.
  intros Hok HP. unfold Entry.new. destruct (position_of b k) as [pos|] eqn:Ep.
  - destruct a as [v|st dir| |v|s|v s]; simpl; try (by eexists).
    + destruct (run_op_ok P now (OpValueMut k v) b Hok I) as (b' & r & Hrun & Hok'). simpl in Hrun.
      unfold Entry.present_value_mut. simpl.
      destruct (position_lookup _ _ _ Ep) as (n & Hn & _).
      assert (get_mut b k (fun n => set_value n v) = Some (set_nodes b (<[pos:=set_value n v]> (nodes b))))
        as Hget by (unfold get_mut; rewrite Ep; simpl; by rewrite Hn).
      rewrite Hget in *. simplify_eq/=.
      eexists. split; [done|]. by intros ? [= <-].
    + unfold Entry.present_update. simpl.
      destruct (update_status_ok P now b k st dir Hok) as (b' & r & -> & Hok'). simpl.
      destruct r; simpl; eexists; (split; [done|]); by intros ? [= <-].
    + unfold Entry.entry_remove. simpl. destruct (remove_ok P now b k Hok) as (b' & r & -> & Hok').
      eexists. split; [done|]. by intros ? [= <-].
  - unfold as_pending. destruct (pending b) as [p|] eqn:Epe; [destruct (Key.eqb _ _)|];
      destruct a as [v|st dir| |v|s|v s]; simpl; try (by eexists).
    + unfold Entry.entry_remove. simpl. destruct (remove_ok P now b k Hok) as (b' & r & -> & Hok').
      eexists. split; [done|]. by intros ? [= <-].
    + destruct (run_op_ok P now (OpPendingValue v) b Hok I) as (b' & r & Hrun & Hok'). simpl in Hrun.
      unfold Entry.pending_value. simpl. unfold pending_mut in *. rewrite Epe in *. simplify_eq/=.
      eexists. split; [done|]. by intros ? [= <-].
    + destruct (run_op_ok P now (OpUpdatePending s) b Hok I) as (b' & r & Hrun & Hok'). simpl in Hrun.
      simplify_eq. eexists. split; [done|]. by intros ? [= <-].
    + unfold Entry.absent_insert. simpl. destruct (insert_ok P now b (mkNode k v s) Hok HP) as (b' & r & -> & Hok').
      eexists. split; [done|]. by intros ? [= <-].
    + unfold Entry.absent_insert. simpl. destruct (insert_ok P now b (mkNode k v s) Hok HP) as (b' & r & -> & Hok').
      eexists. split; [done|]. by intros ? [= <-].
Qed.

Lemma apply_bucket_inv now t i t' b :
  table_inv t -> apply_bucket now t i = Ret (t', b) -> table_inv t' /\ same_config t t'.
Proof.
  intros Hinv Ha. destruct (decide (i < NUM_BUCKETS)) as [Hi|Hi].
  - destruct (apply_bucket_ok now t i Hinv Hi) as (t1 & b1 & Ha1 & Hstep).
    rewrite Ha1 in Ha. simplify_eq. by destruct Hstep as (? & ? & _).
  - unfold apply_bucket in Ha. rewrite lookup_ge_None_2 in Ha; [done|].
    rewrite (inv_buckets t Hinv). lia.
Qed.

Lemma next_loop_inv {U Out} fuel clock (it it' : ClosestIter T V U Out) o :
  table_inv (table it) -> next_loop fuel clock it = Ret (it', o) ->
  table_inv (table it') /\ same_config (table it) (table it').
Proof.
  revert it; induction fuel as [|fuel IH]; intros it Hinv Hn; [done|]. simpl in Hn.
  destruct (Closest.iter it) as [[|k l]|].
  - by apply IH in Hn.
  - by simplify_eq.
  - destruct (buckets_next _) as [bi [i|]]; [|by simplify_eq].
    destruct (apply_bucket _ _ _) as [[t1 b]|] eqn:Ha; [|done]. simpl in Hn.
    apply apply_bucket_inv in Ha as [Hinv1 Hc1]; [|done].
    apply IH in Hn as [Hinv2 Hc2]; [|done]. split; [done|by etransitivity].
Qed.

Lemma next_inv {U Out} clock (it it' : ClosestIter T V U Out) o :
  table_inv (table it) -> next clock it = Ret (it', o) ->
  table_inv (table it') /\ same_config (table it) (table it').
Proof. unfold next. apply next_loop_inv. Qed.

Lemma take_next_S {U Out} n clock (it : ClosestIter T V U Out) :
  take_next (S n) clock it =
  ('(it, o) ← next clock it;
   match o with
   | Some k => '(it, l) ← take_next n clock it; Ret (it, k :: l)
   | None => Ret (it, [])
   end).
Proof. reflexivity. Qed.

Lemma take_next_inv {U Out} n clock (it it' : ClosestIter T V U Out) l :
  table_inv (table it) -> take_next n clock it = Ret (it', l) ->
  table_inv (table it') /\ same_config (table it) (table it').
Proof.
  revert it l; induction n as [|n IH]; intros it l Hinv Hn; [by simplify_eq/=|].
  rewrite take_next_S in Hn. destruct (next clock it) as [[it1 o]|] eqn:En; [|done]. simpl in Hn.
  apply next_inv in En as [Hinv1 Hc1]; [|done]. destruct o as [k|]; [|by simplify_eq].
  destruct (take_next n clock it1) as [[it2 l2]|] eqn:Et; [|done]. simplify_eq/=.
  apply IH in Et as [Hinv2 Hc2]; [|done]. split; [done|by etransitivity].
Qed.

Lemma run_table_op_ok clock op t :
  table_inv t -> exists t', run_table_op clock op t = Ret t' /\ table_inv t' /\ same_config t t'.
Proof.
  intros Hinv. destruct op as [k st dir|k v st|k v s|k|k a| | |ds m|tg n]; simpl.
  - destruct (update_node_status_ok (clock 0) (clock 1) t k st dir Hinv) as (t' & r & -> & ?). by eexists.
  - destruct (update_node_ok (clock 0) (clock 1) t k v st Hinv) as (t' & r & -> & Hcase).
    exists t'. split; [done|]. destruct (index_of t k); [|by destruct Hcase as [-> _]].
    by destruct Hcase as (b & (? & ? & _) & _).
  - destruct (insert_or_update_ok (clock 0) (clock 1) t k v s Hinv) as (t' & r & -> & Hcase).
    exists t'. split; [done|]. destruct (index_of t k); [|by destruct Hcase as [-> _]].
    by destruct Hcase as (b & (? & ? & _) & _).
  - destruct (table_remove_ok (clock 0) (clock 1) t k Hinv) as (t' & r & -> & Hcase).
    exists t'. split; [done|]. destruct (index_of t k); [|by destruct Hcase as [-> _]].
    by destruct Hcase as (b & (? & ? & _) & _).
  - destruct (entry_ok (clock 0) t k Hinv) as (t' & e & -> & Hcase). simpl.
    destruct (index_of t k) as [i|] eqn:Ei.
    + destruct Hcase as (b & Hstep & ->). pose proof Hstep as (Hinv' & Hc & _ & Hok & _).
      assert (action_placed (belongs t i) k a) as Ha by by destruct a.
      destruct (run_action_ok _ (clock 1) b k a Hok Ha) as (o & -> & Ho). simpl. eexists. split; [done|].
      destruct (index_of t' k) as [j|] eqn:Ej; [|done]. destruct o as [b'|]; [|done].
      apply (belongs_config t t' j k Hc) in Ej. unfold belongs in Ej. simplify_eq.
      destruct (set_bucket_step t t' i b b' Hstep (Ho b' eq_refl)) as (? & ? & _). done.
    + destruct Hcase as [-> ->]. simpl. rewrite Ei. by eexists.
  - destruct (iter_from_ok clock t (seq 0 (length (buckets t))) Hinv) as (t' & l & Hit & ?).
    + rewrite (inv_buckets t Hinv). apply Forall_forall. intros i Hi%elem_of_seq. lia.
    + unfold Table.iter. rewrite Hit. by eexists.
  - unfold take_applied_pending. eexists. split; [done|]. destruct (applied_pending t); [by split|].
    split; [|done]. destruct Hinv. by constructor.
  - destruct (nodes_by_distances_ok clock t ds m Hinv) as (t' & l & -> & ? & ? & _). by eexists.
  - destruct (closest_by_listing clock tg (fun n => mkCV (key n) (value n)) cv_key (fun _ => eq_refl) t Hinv)
      as (l & t' & _ & _ & _ & _ & _ & _ & Hrun).
    destruct (Hrun n) as (it' & Hit & _). change (closest_by _ _ t tg) with (closest_values t tg) in Hit.
    rewrite Hit. eexists. split; [done|]. by apply take_next_inv in Hit.
Qed.

Lemma run_table_ok tr t :
  table_inv t -> exists t', run_table tr t = Ret t' /\ table_inv t' /\ same_config t t'.
Proof.
  revert t; induction tr as [|[clock op] tr IH]; intros t Hinv; simpl; [by eexists|].
  destruct (run_table_op_ok clock op t Hinv) as (t1 & -> & Hinv1 & Hc1). simpl.
  destruct (IH t1 Hinv1) as (t2 & -> & Hinv2 & Hc2). eexists. split_and!; [done..|]. by etransitivity.
Qed.
End Trace.
End TableTrace.

Import TableTrace.

(** C12: Invariant.  Every history of calls on a new routing table (inserts,
    updates, removals, writes through entries, full and partial iterations,
    whatever the clock reads) returns without a panic, and leaves 256 buckets
    that each satisfy [bucket_inv] and hold, pending node included, only keys
    whose distance to the local key has that bucket's index. *)
Theorem table_reachable_inv {T V} `{EqDecision V} (tr : list ((nat -> Z) * table_op T V))
    (local : Key T) (tmo : Z) (mi : nat) (tf bf : option (Filter V)) :
  exists t, run_table tr (Table.new local tmo mi tf bf) = Ret t /\ table_inv t /\ local_key t = local.
Proof.
  destruct (run_table_ok tr (Table.new local tmo mi tf bf) (new_inv local tmo mi tf bf))
    as (t & Hrun & Hinv & [Hl _]). by exists t.
Qed.

(** C39: [insert_or_update] on a table with the invariant returns, touches no
    bucket but the one of the key, and does what its answer says: an inserted
    node is a member with the given value and status; an updated one too; a
    pending one waits with the timeout set behind a disconnected oldest node,
    the one named in the answer; after any failure the key is not a member.
    [UpdatedPending] is never answered, and the local key is always refused. *)
Theorem insert_or_update_post {T V} `{EqDecision V} now now' (t : KBucketsTable T V) k v s :
  table_inv t ->
  exists t' r, insert_or_update now now' t k v s = Ret (t', r) /\ table_inv t' /\
  match index_of t k with
  | None => t' = t /\ r = TFailed Reason_InvalidSelfUpdate
  | Some i =>
      exists b, buckets t' !! i = Some b /\ (forall j, j <> i -> buckets t' !! j = buckets t !! j) /\
      match r with
      | TInserted => holds b k (mkNode k v s)
      | TPending d =>
          absent b k /\ pending b = Some (mkPending (mkNode k v s) (now' + pending_timeout b)%Z) /\
          exists old rest, nodes b = old :: rest /\ key old = d /\ is_connected (status old) = false
      | TUpdated _ | TValueUpdated | TStatusUpdated _ => exists n, holds b k n /\ value n = v /\ status n = s
      | TUpdatedPending => False
      | TFailed _ => absent b k
      end
  end.
Proof.
  intros Hinv. destruct (insert_or_update_ok now now' t k v s Hinv) as (t' & r & Hret & Hcase).
  exists t', r. split; [done|]. destruct (index_of t k) as [i|]; [|by destruct Hcase as [-> ->]].
  destruct Hcase as (b & (Hinv' & _ & Hb & _ & Hj) & Hr). split; [done|]. by exists b.
Qed.

Lemma insert_or_update_post_witness :
  exists t' r, insert_or_update 0 0 (Table.new (Key.mkKey tt (sample_id 0)) 60 5 None None)
                 (Key.mkKey tt (sample_id 5)) 7%Z (mkStatus Outgoing Connected) = Ret (t', r) /\
    table_inv t' /\ r = TInserted.
Proof.
  destruct (insert_or_update_post 0 0 (Table.new (Key.mkKey tt (sample_id 0)) 60 5 None None)
    (Key.mkKey tt (sample_id 5)) 7%Z (mkStatus Outgoing Connected)) as (t' & r & Hret & Hinv & _);
    [apply new_inv|].
  exists t', r. split_and!; [exact Hret|exact Hinv|]. vm_compute in Hret. by injection Hret as _ <-.
Defined.

(** [update_node] on a table with the invariant returns and touches no
    bucket but the one of the key.  After [Failed] or [UpdatedPending] the key
    is not a member; after every other answer it is a member with the new value
    and, when a state was given, that state. *)
Theorem update_node_post {T V} `{EqDecision V} now now' (t : KBucketsTable T V) k v st :
  table_inv t ->
  exists t' r, update_node now now' t k v st = Ret (t', r) /\ table_inv t' /\
  match index_of t k with
  | None => t' = t /\ r = NotModified
  | Some i =>
      exists b, buckets t' !! i = Some b /\ (forall j, j <> i -> buckets t' !! j = buckets t !! j) /\
      match r with
      | Failed _ | UpdatedPending => absent b k
      | _ => exists n, holds b k n /\ value n = v /\ (forall c, st = Some c -> Bucket.state (status n) = c)
      end
  end.
Proof.
  intros Hinv. destruct (update_node_ok now now' t k v st Hinv) as (t' & r & Hret & Hcase).
  exists t', r. split; [done|]. destruct (index_of t k) as [i|]; [|by destruct Hcase as [-> ->]].
  destruct Hcase as (b & (Hinv' & _ & Hb & _ & Hj) & Hr). split; [done|]. exists b.
  split_and!; [done|done|]. by destruct r.
Qed.

Lemma update_node_post_witness :
  exists t' r, update_node 0 0 (Table.new (Key.mkKey tt (sample_id 0)) 60 5 None None)
                 (Key.mkKey tt (sample_id 5)) 7%Z (Some Connected) = Ret (t', r) /\
    table_inv t' /\ r = Failed Reason_KeyNonExistent.
Proof.
  destruct (update_node_post 0 0 (Table.new (Key.mkKey tt (sample_id 0)) 60 5 None None)
    (Key.mkKey tt (sample_id 5)) 7%Z (Some Connected)) as (t' & r & Hret & Hinv & _);
    [apply new_inv|].
  exists t', r. split_and!; [exact Hret|exact Hinv|]. vm_compute in Hret. by injection Hret as _ <-.
Defined.

(** [nodes_by_distances] on a table with the invariant returns the first
    [max_nodes] nodes (at least one) of the requested buckets, taken in the
    order of the request; distances outside 1..256 are ignored, and every node
    returned is at a requested log2 distance from the local key. *)
Theorem nodes_by_distances_spec {T V} `{EqDecision V} clock (t : KBucketsTable T V) ds max_nodes :
  table_inv t ->
  exists t' l, nodes_by_distances clock t ds max_nodes = Ret (t', l) /\ table_inv t' /\
    l = take (Nat.max 1 max_nodes) (List.filter valid_distance ds ≫= nodes_at t') /\
    forall n, n ∈ l -> exists d, d ∈ ds /\ Key.log2_distance (local_key t) (key n) = Some d.
Proof.
  intros Hinv. destruct (nodes_by_distances_ok clock t ds max_nodes Hinv) as (t' & l & Hret & Hinv' & [Hl _] & ->).
  eexists _, _. split_and!; [done..|]. intros n Hn.
  apply elem_of_take in Hn as (i & Hn%list_elem_of_lookup_2 & _). apply list_elem_of_bind in Hn as (d & Hn & Hd).
  apply list_elem_of_In, filter_In in Hd as [Hd Hv%valid_distance_spec].
  exists d. split; [by apply list_elem_of_In|]. rewrite <-Hl. by apply nodes_at_distance.
Qed.

Lemma nodes_by_distances_spec_witness :
  exists t' l, nodes_by_distances (fun _ => 0%Z)
      (Table.new (Key.mkKey tt (sample_id 0)) 60 5 None (None : option (Filter Z))) [3; 0; 256]%Z 16 = Ret (t', l) /\
    table_inv t' /\ l = [].
Proof.
  destruct (nodes_by_distances_spec (fun _ => 0%Z)
    (Table.new (Key.mkKey tt (sample_id 0)) 60 5 None (None : option (Filter Z))) [3; 0; 256]%Z 16)
    as (t' & l & Hret & Hinv & _); [apply new_inv|].
  exists t', l. split_and!; [exact Hret|exact Hinv|]. vm_compute in Hret. by injection Hret as _ <-.
Defined.

(** C16: [closest_values] of a table with the invariant lists a list [l] that
    is sorted by distance to the target and contains every node of the table
    (with pending nodes applied as the buckets are visited); unless bucket 0 is
    the first bucket or bit 0 of the target's distance is set, [l] is exactly
    the table, each node once.  Taking [n] elements gives the [n] first of [l],
    so every node not taken is at least as far away as those taken.  The search
    loops end within the fuel. *)
Theorem closest_values_listing {T V U} `{EqDecision V} (clock : nat -> Z)
    (t : KBucketsTable T V) (tg : Key U) :
  table_inv t ->
  exists l t',
    table_inv t' /\ local_key t' = local_key t /\ StronglySorted (closer tg cv_key) l /\
    (forall n, n ∈ iter_ref t' -> mkCV (key n) (value n) ∈ l) /\
    (Key.distance (local_key t) tg <> 0%Z -> bit (Key.distance (local_key t) tg) 0 = false ->
     l ≡ₚ (fun n => mkCV (key n) (value n)) <$> iter_ref t') /\
    forall n, exists it', take_next n clock (closest_values t tg) = Ret (it', take n l) /\
                          (length l < n -> table it' = t').
Proof.
  intros Hinv.
  destruct (closest_by_listing clock tg (fun n => mkCV (key n) (value n)) cv_key (fun _ => eq_refl) t Hinv)
    as (l & t' & Hinv' & [Hl _] & Hs & _ & Hall & Hperm & Hrun). by exists l, t'.
Qed.

Lemma closest_values_listing_witness :
  exists l t', StronglySorted (closer (Key.mkKey tt (sample_id 6)) cv_key) l /\
    forall n, exists it', take_next n (fun _ => 0%Z)
      (closest_values (Table.new (Key.mkKey tt (sample_id 0)) 60 5 None (None : option (Filter Z)))
         (Key.mkKey tt (sample_id 6))) = Ret (it', take n l) /\ (length l < n -> table it' = t').
Proof.
  destruct (closest_values_listing (fun _ => 0%Z)
    (Table.new (Key.mkKey tt (sample_id 0)) 60 5 None (None : option (Filter Z)))
    (Key.mkKey tt (sample_id 6))) as (l & t' & _ & _ & Hs & _ & _ & Hrun); [apply new_inv|].
  by exists l, t'.
Defined.

(** A table with the one node of bucket 0. *)
Definition sample_bucket0 : outcome (KBucketsTable unit Z) :=
  run_table [(fun _ => 0%Z, OpInsertOrUpdate (Key.mkKey tt (sample_id 1)) 1%Z (mkStatus Outgoing Connected))]
    (Table.new (Key.mkKey tt (sample_id 0)) 60 5 None None).

(** [closest_keys] lists the node of bucket 0 twice when bit 0 of the
    target's distance is set, because [ClosestBucketsIter] yields bucket 0
    again when zooming in has already reached it. *)
Theorem closest_keys_repeats_bucket0 :
  exists t it, sample_bucket0 = Ret t /\
    take_next 16 (fun _ => 0%Z) (closest_keys t (Key.mkKey tt (sample_id 3))) =
    Ret (it, [Key.mkKey tt (sample_id 1); Key.mkKey tt (sample_id 1)]).
Proof.
  destruct sample_bucket0 as [t|] eqn:Et; [|by vm_compute in Et].
  destruct (take_next 16 (fun _ => 0%Z) (closest_keys t (Key.mkKey tt (sample_id 3)))) as [[it l]|] eqn:El.
  - exists t, it. split; [done|]. rewrite El. vm_compute in Et. injection Et as <-.
    vm_compute in El. injection El as _ <-. vm_compute. reflexivity.
  - exfalso. vm_compute in Et. injection Et as <-. by vm_compute in El.
Qed.

(** An entry describes its bucket, and the [expect]s of its methods hold:
    a present entry carries the status of the member with the key and its
    [value] is found; a pending entry carries the status of the pending node,
    which can be written; an absent entry's key is neither member nor pending. *)
Theorem entry_view {T V} `{EqDecision V} (b : KBucket T V) (k : Key T) :
  bucket_inv b ->
  match Entry.new b k with
  | Entry.Present e s =>
      exists n, holds b k n /\ status n = s /\ Entry.present_value e = Ret (value n) /\
        forall v, exists b', Entry.present_value_mut e v = Ret b' /\ holds b' k (set_value n v)
  | Entry.PendingEntry e s =>
      absent b k /\ exists p, pending b = Some p /\ Key.hash (key (node p)) = Key.hash k /\
        status (node p) = s /\
        forall v, exists b', Entry.pending_value e v = Ret b' /\
          pending b' = Some (set_node p (set_value (node p) v))
  | Entry.Absent e =>
      absent b k /\ forall p, pending b = Some p -> Key.hash (key (node p)) <> Key.hash k
  | Entry.SelfEntry => False
  end.
Proof.
  intros Hinv. unfold Entry.new. destruct (position_of b k) as [pos|] eqn:Ep.
  - destruct (position_lookup _ _ _ Ep) as (n & Hn & Hk%Key.eqb_true). exists n.
    assert (holds b k n) as Hh by (split; [by eapply list_elem_of_lookup_2|done]).
    split_and!; [done|unfold status_at; by rewrite Hn|..].
    + unfold Entry.present_value. simpl. rewrite (proj2 (get_holds b k n Hinv) Hh). done.
    + intros v. unfold Entry.present_value_mut, get_mut. simpl. rewrite Ep. simpl. rewrite Hn. simpl.
      eexists. split; [done|]. split; [|done]. simpl.
      apply (list_elem_of_lookup_2 _ pos), list_lookup_insert_eq. by eapply lookup_lt_Some.
  - apply position_absent in Ep. unfold as_pending. destruct (pending b) as [p|] eqn:Epe; [|done].
    destruct (Key.eqb _ _) eqn:Ek.
    + apply Key.eqb_true in Ek. split; [done|]. exists p. split_and!; [done..|].
      intros v. unfold Entry.pending_value, pending_mut. simpl. rewrite Epe. by eexists.
    + apply Key.eqb_false in Ek. split; [done|]. by intros q [= <-].
Qed.

Lemma entry_view_witness :
  bucket_inv (KBucket.new 60 5 None : KBucket unit Z) /\
  absent (KBucket.new 60 5 None : KBucket unit Z) (Key.mkKey tt (sample_id 1)).
Proof.
  assert (bucket_inv (KBucket.new 60 5 None : KBucket unit Z)) as Hinv
    by by apply (reachable_inv [] 60 5 None _ []).
  split; [exact Hinv|]. exact (proj1 (entry_view _ (Key.mkKey tt (sample_id 1)) Hinv)).
Defined.

(** Records in the buckets 248 to 255 of the table of the zero id. *)
Definition sample_record (hi lo : Z) (ip : list Z) : NodeId * option Ipv4Addr :=
  (vinsert 0%fin (byte_of_Z hi) (sample_id lo), snd (sample_enr lo ip)).

Definition sample_put (now : Z) (st : ConnectionState) (r : NodeId * option Ipv4Addr)
    : (nat -> Z) * table_op NodeId (NodeId * option Ipv4Addr) :=
  (fun _ => now, OpInsertOrUpdate (Key.from_node_id (fst r)) r (mkStatus Outgoing st)).

(** Sixteen records without an address fill bucket 255, a record of 10.0.0.0/24
    waits there, ten records of 10.0.0.0/24 join five other buckets, and the
    table is listed after the timeout. *)
Definition sample_subnet_trace : list ((nat -> Z) * table_op NodeId (NodeId * option Ipv4Addr)) :=
  ((fun i => sample_put 0 Disconnected (sample_record 128 (Z.of_nat i) [])) <$> seq 1 16) ++
  [sample_put 0 Connected (sample_record 128 17 [10; 0; 0; 17]%Z)] ++
  ((fun i => sample_put 1 Connected
      (sample_record (2 ^ (Z.of_nat i / 2)) (Z.of_nat i) [10; 0; 0; Z.of_nat i]%Z)) <$> seq 0 10) ++
  [(fun _ => 60%Z, OpIter)].

(** The table filter does not bound the table: with [IpTableFilter] and
    [IpBucketFilter] in place, a record that waits in a pending slot is not
    counted when later records of its /24 network are checked, and the table
    filter is not asked again when the pending record is applied.  The history
    above ends with eleven records of one network where
    [MAX_NODES_PER_SUBNET_TABLE] is ten. *)
Theorem table_filter_exceeded :
  exists t,
    run_table sample_subnet_trace
      (Table.new (Key.from_node_id (sample_id 0)) 60 5
         (Some (IpTableFilter snd)) (Some (IpBucketFilter snd))) = Ret t /\
    countb (in_net snd (byte_of_Z <$> [10; 0; 0]%Z)) (table_iter t) = S MAX_NODES_PER_SUBNET_TABLE.
Proof.
  assert ((fun t => countb (in_net snd (byte_of_Z <$> [10; 0; 0]%Z)) (table_iter t)) <$>
    run_table sample_subnet_trace (Table.new (Key.from_node_id (sample_id 0)) 60 5
      (Some (IpTableFilter snd)) (Some (IpBucketFilter snd))) = Ret 11) as Hc
    by (vm_compute; reflexivity).
  destruct (run_table sample_subnet_trace _) as [t|]; [|done].
  exists t. split; [done|]. by injection Hc.
Qed.

(** ** The keys of a table *)

Import KBucket BucketTrace Table Closest TableTrace.

Create HintDb keys.

Section Keys.
Context {T V : Type} `{EqDecision V} (Q : Key T -> Prop).
Implicit Types (t : KBucketsTable T V) (b : KBucket T V) (k : Key T) (n : Node T V).

Definition table_keys t : Prop := Forall (bucket_ok Q) (buckets t).

Lemma new_keys local tmo mi tf bf : table_keys (Table.new local tmo mi tf bf).
Proof.
  unfold table_keys, Table.new. cbn [buckets]. apply Forall_fmap, Forall_forall. intros i _. split.
  - by apply (reachable_inv [] tmo mi bf _ []).
  - by split; [constructor|].
Qed.

Lemma insert_keys now b n b' r : bucket_ok Q b -> Q (key n) -> insert now b n = Ret (b', r) -> bucket_ok Q b'.
Proof. intros Hb Hn E. destruct (insert_ok Q now b n Hb Hn) as (? & ? & E' & ?). rewrite E in E'. by simplify_eq. Qed.
Lemma update_status_keys now b k st dir b' r :
  bucket_ok Q b -> update_status now b k st dir = Ret (b', r) -> bucket_ok Q b'.
Proof. intros Hb E. destruct (update_status_ok Q now b k st dir Hb) as (? & ? & E' & ?). rewrite E in E'. by simplify_eq. Qed.
Lemma update_value_keys b k v b' r : bucket_ok Q b -> update_value b k v = Ret (b', r) -> bucket_ok Q b'.
Proof. intros Hb E. destruct (update_value_ok Q b k v Hb) as (? & ? & E' & ?). rewrite E in E'. by simplify_eq. Qed.
Lemma remove_keys now b k b' r : bucket_ok Q b -> remove now b k = Ret (b', r) -> bucket_ok Q b'.
Proof. intros Hb E. destruct (remove_ok Q now b k Hb) as (? & ? & E' & ?). rewrite E in E'. by simplify_eq. Qed.
Lemma apply_pending_keys now b b' r : bucket_ok Q b -> apply_pending now b = Ret (b', r) -> bucket_ok Q b'.
Proof.
  intros Hb E. destruct (run_op_ok Q now OpApplyPending b Hb I) as (? & ? & E' & ?). simpl in E'. rewrite E in E'.
  by simplify_eq/=.
Qed.

Lemma set_bucket_keys t i b : table_keys t -> bucket_ok Q b -> table_keys (set_bucket t i b).
Proof. intros Ht Hb. by apply Forall_insert. Qed.

Lemma push_applied_keys t a : table_keys t -> table_keys (push_applied t a).
Proof. by destruct a. Qed.

Lemma apply_bucket_keys now t i t' b :
  table_keys t -> apply_bucket now t i = Ret (t', b) -> table_keys t' /\ bucket_ok Q b.
Proof.
  unfold apply_bucket. intros Ht E. destruct (buckets t !! i) as [b0|] eqn:Eb; [|done]. cbn [unwrap mbind outcome_bind] in E.
  split_run. simplify_eq. assert (bucket_ok Q b) as Hb.
  { eapply apply_pending_keys; [|done]. unfold table_keys in Ht. rewrite Forall_lookup in Ht. by eapply Ht. }
  split; [|done]. by apply push_applied_keys, set_bucket_keys.
Qed.

Hint Resolve insert_keys update_status_keys update_value_keys remove_keys set_bucket_keys : keys.

(** Runs an operation on the bucket of a key. *)
Ltac keys_tac :=
  split_run;
  repeat match goal with
  | H : apply_bucket _ _ _ = Ret _, Ht : table_keys _ |- _ =>
      apply (apply_bucket_keys _ _ _ _ _ Ht) in H as [? ?]
  end;
  repeat (case_match; split_run); simplify_eq; eauto with keys.

Lemma update_node_status_keys now now' t k st dir t' r :
  table_keys t -> Table.update_node_status now now' t k st dir = Ret (t', r) -> table_keys t'.
Proof. unfold Table.update_node_status. intros Ht E. destruct (index_of t k); keys_tac. Qed.

Lemma update_node_keys now now' t k v st t' r :
  table_keys t -> update_node now now' t k v st = Ret (t', r) -> table_keys t'.
Proof. unfold update_node. intros Ht E. split_run. destruct (index_of t k); keys_tac. Qed.

Lemma insert_or_update_keys now now' t k v s t' r :
  table_keys t -> Q k -> insert_or_update now now' t k v s = Ret (t', r) -> table_keys t'.
Proof.
  unfold insert_or_update. intros Ht Hk E. split_run. destruct (index_of t k); keys_tac.
  apply set_bucket_keys; [done|]. by eapply (insert_keys now' k1 (mkNode k v s)); [..|exact H4].
Qed.

Lemma table_remove_keys now now' t k t' r :
  table_keys t -> table_remove now now' t k = Ret (t', r) -> table_keys t'.
Proof. unfold table_remove. intros Ht E. destruct (index_of t k); keys_tac. Qed.

Lemma entry_keys now t k t' e :
  table_keys t -> entry now t k = Ret (t', e) ->
  table_keys t' /\ (e = Entry.SelfEntry \/ exists b, bucket_ok Q b /\ e = Entry.new b k).
Proof.
  unfold entry. intros Ht E. destruct (index_of t k); [|simplify_eq; auto].
  split_run. apply apply_bucket_keys in H as [? ?]; [|done]. simplify_eq. split; [done|]. right. eexists. split; [eassumption|done].
Qed.

Lemma iter_from_keys clock t idxs t' l :
  table_keys t -> iter_from clock t idxs = Ret (t', l) -> table_keys t' /\ Forall (fun n => Q (key n)) l.
Proof.
  revert t t' l. induction idxs as [|i idxs IH]; intros t t' l Ht E; simpl in E; [simplify_eq; auto|].
  split_run. apply apply_bucket_keys in H as [? [_ [Hb _]]]; [|done]. apply IH in H0 as [? ?]; [|done].
  simplify_eq. split; [done|]. by apply Forall_app.
Qed.

Lemma take_applied_keys t : table_keys t -> table_keys (fst (take_applied_pending t)).
Proof. unfold take_applied_pending. by destruct (applied_pending t). Qed.

Lemma apply_distances_keys clock max_nodes j c t ds t' :
  table_keys t -> apply_distances clock max_nodes j c t ds = Ret t' -> table_keys t'.
Proof.
  revert j c t. induction ds as [|d ds IH]; intros j c t Ht E; simpl in E; [by simplify_eq|].
  destruct (buckets t !! _) as [b0|] eqn:Eb; [|done]. cbn [unwrap mbind outcome_bind] in E. split_run.
  assert (bucket_ok Q b0) as Hb0. { unfold table_keys in Ht. rewrite Forall_lookup in Ht. by eapply Ht. }
  assert (table_keys (push_applied (set_bucket t (Z.to_nat (d - 1)) k) o)) as Ht1.
  { apply push_applied_keys, set_bucket_keys; [done|]. by eapply apply_pending_keys. }
  repeat case_match; simplify_eq; eauto.
Qed.

Lemma nodes_by_distances_keys clock t ds m t' l :
  table_keys t -> nodes_by_distances clock t ds m = Ret (t', l) -> table_keys t'.
Proof. unfold nodes_by_distances. intros Ht E. split_run. simplify_eq. by eapply apply_distances_keys. Qed.

(** ** The iterators *)

Section Iter.
Context {U Out : Type}.
Implicit Types (it : ClosestIter T V U Out).

(** What is left of the current bucket, and what other buckets give. *)
Record iter_keys it : Prop := {
  ik_table : table_keys (table it);
  ik_rest : Forall (fun o => Q (as_ref it o)) (default [] (Closest.iter it));
  ik_bucket b : bucket_ok Q b -> Forall (fun o => Q (as_ref it o)) (fmap it b);
}.

Lemma next_loop_keys fuel clock it it' o :
  iter_keys it -> next_loop fuel clock it = Ret (it', o) ->
  iter_keys it' /\ as_ref it' = as_ref it /\ forall x, o = Some x -> Q (as_ref it x).
Proof.
  revert it. induction fuel as [|fuel IH]; intros it Hk E; [done|]. simpl in E. destruct Hk as [Ht Hr Hb].
  destruct (Closest.iter it) as [[|x l]|] eqn:Ei.
  - apply IH in E as (? & ? & ?); [done|]. by split.
  - simplify_eq. simpl in Hr. apply Forall_cons in Hr as [? ?]. split_and!; [by split|done|by intros ? [= <-]].
  - destruct (buckets_next _) as [bi [i|]].
    + split_run. apply apply_bucket_keys in H as [Ht1 Hb1]; [|done]. apply IH in E as (? & ? & ?); [done|].
      split; simpl; [done| |done]. unfold sort_by. rewrite merge_sort_Permutation. by apply Hb.
    + simplify_eq. split_and!; [by split|done|done].
Qed.

Lemma next_keys clock it it' o :
  iter_keys it -> next clock it = Ret (it', o) ->
  iter_keys it' /\ as_ref it' = as_ref it /\ forall x, o = Some x -> Q (as_ref it x).
Proof. unfold next. apply next_loop_keys. Qed.

Lemma take_next_keys (n : nat) clock it it' l :
  iter_keys it -> take_next n clock it = Ret (it', l) ->
  table_keys (table it') /\ Forall (fun o => Q (as_ref it o)) l.
Proof.
  revert it it' l. induction n as [|n IH]; intros it it' l Hk E; [injection E as <- <-; split; [apply Hk|done]|].
  rewrite take_next_S in E. split_run. apply next_keys in H as (Hk' & Hr & Ho); [|done].
  case_match; split_run; simplify_eq; [|split; [apply Hk'|done]].
  apply IH in H0 as [? Hl]; [|done]. split; [done|]. constructor; [by apply Ho|by rewrite <-Hr].
Qed.
End Iter.

Lemma closest_by_keys {U Out} (h : Node T V -> Out) (g : Out -> Key T) t (tg : Key U) :
  table_keys t -> (forall n, g (h n) = key n) -> iter_keys (closest_by (fun b => h <$> nodes b) g t tg).
Proof.
  intros Ht Hg. split; simpl; [done|done|]. intros b [_ [Hb _]]. apply Forall_fmap.
  eapply Forall_impl; [exact Hb|]. intros n. simpl. by rewrite Hg.
Qed.

(** ** Calls of other tasks *)

(** The keys a call brings into the table. *)
Definition table_op_keys (op : table_op T V) : Prop :=
  match op with OpInsertOrUpdate k _ _ => Q k | OpEntry k a => action_placed Q k a | _ => True end.


Lemma run_table_op_keys clock op t t' :
  table_keys t -> table_op_keys op -> run_table_op clock op t = Ret t' -> table_keys t'.
Proof.
  intros Ht Hop E. destruct op as [k st dir|k v st|k v s|k|k a| | |ds m|tg n]; simpl in *;
    try apply fmap_ret_inv in E as ([? ?] & E & ->); simpl.
  - by eapply update_node_status_keys.
  - by eapply update_node_keys.
  - by eapply insert_or_update_keys.
  - by eapply table_remove_keys.
  - split_run. apply entry_keys in H as [Ht1 He]; [|done].
    repeat case_match; simplify_eq; try done. apply set_bucket_keys; [done|].
    destruct He as [->|(b & Hb & ->)]; [done|].
    destruct (run_action_ok Q (clock 1) b k a Hb Hop) as (o & E & Ho). rewrite E in H0. simplify_eq. by apply Ho.
  - by eapply iter_from_keys.
  - simplify_eq. by apply take_applied_keys.
  - by eapply nodes_by_distances_keys.
  - apply take_next_keys in E as [? _]; [done|]. by apply (closest_by_keys (fun n => mkCV (key n) (value n))).
Qed.
End Keys.
