(* ===== verification/BTree.v ===== *)
(** * [std::collections::BTreeMap] with integer keys

    A map as the list of its entries in the order of iteration: keys strictly
    increasing.  Used for the peers of a query, keyed by distance. *)

From Stdlib Require Import Sorting.Sorted.
From S2P Require Import Prelude.

Module BTree.

Notation BTreeMap V := (list (Z * V)).

Section BTree.
Context {V : Type}.
Implicit Types (m : BTreeMap V) (k : Z) (v : V).

Fixpoint get m k : option V :=
  match m with
  | [] => None
  | (k', v) :: m => if Z.eqb k k' then Some v else get m k
  end.

(** [insert]: the new value replaces the old one. *)
Fixpoint insert m k v : BTreeMap V :=
  match m with
  | [] => [(k, v)]
  | (k', v') :: m' =>
      if Z.ltb k k' then (k, v) :: m
      else if Z.eqb k k' then (k, v) :: m'
      else (k', v') :: insert m' k v
  end.

(** [entry(k).or_insert(v)]. *)
Definition or_insert m k v : BTreeMap V :=
  match get m k with Some _ => m | None => insert m k v end.

(** A write through the value of an occupied entry. *)
Definition update m k (f : V -> V) : BTreeMap V :=
  (fun '(k', v) => if Z.eqb k k' then (k', f v) else (k', v)) <$> m.

(** [iter.collect()]: of entries with equal keys the last one stays. *)
Definition collect (l : list (Z * V)) : BTreeMap V :=
  fold_left (fun m '(k, v) => insert m k v) l [].

Definition keys m : list Z := fst <$> m.
Definition values m : list V := snd <$> m.

(** Keys in strictly increasing order. *)
Definition sorted m : Prop := StronglySorted Z.lt (keys m).

Lemma sorted_nil : sorted [].
Proof. constructor. Qed.

Lemma sorted_cons k v m : sorted ((k, v) :: m) <-> sorted m /\ Forall (fun k' => k < k')%Z (keys m).
Proof.
  unfold sorted, keys. csimpl. split; [by intros Hs%StronglySorted_inv|].
  intros []. by constructor.
Qed.

Lemma elem_of_keys m k : k ∈ keys m <-> exists v, (k, v) ∈ m.
Proof.
  unfold keys. rewrite list_elem_of_fmap. split.
  - intros ([k' v] & -> & Hin). by exists v.
  - intros [v Hin]. by exists (k, v).
Qed.

Lemma sorted_NoDup m : sorted m -> NoDup (keys m).
Proof.
  unfold sorted. induction (keys m) as [|k l IH]; intros Hs; [constructor|].
  apply StronglySorted_inv in Hs as [Hs Hk]. constructor; [|by apply IH].
  rewrite Forall_forall in Hk. intros Hin. apply Hk in Hin. lia.
Qed.

Lemma get_elem m k v : sorted m -> get m k = Some v <-> (k, v) ∈ m.
Proof.
  induction m as [|[k' v'] m IH]; intros Hs; simpl; [split; [done|set_solver]|].
  apply sorted_cons in Hs as [Hs Hk]. rewrite Forall_forall in Hk.
  destruct (Z.eqb_spec k k') as [->|Hne].
  - split; [intros [= ->]; by left|]. intros [[= ->]|Hin]%elem_of_cons; [done|].
    assert (k' < k')%Z by (apply Hk, elem_of_keys; eauto). lia.
  - rewrite IH by done. rewrite elem_of_cons. naive_solver.
Qed.

Lemma get_None m k : get m k = None <-> k ∉ keys m.
Proof.
  induction m as [|[k' v'] m IH]; simpl; [split; [set_solver|done]|].
  destruct (Z.eqb_spec k k'); set_solver.
Qed.

(** [insert] splits the map around the key. *)
Lemma keys_insert m k v k' : k' ∈ keys (insert m k v) <-> k' = k \/ k' ∈ keys m.
Proof.
  induction m as [|[k1 v1] m IH]; simpl; [set_solver|].
  destruct (Z.ltb_spec k k1); [set_solver|].
  destruct (Z.eqb_spec k k1); [subst; set_solver|]. csimpl.
  rewrite !elem_of_cons, IH. naive_solver.
Qed.

Lemma sorted_insert m k v : sorted m -> sorted (insert m k v).
Proof.
  induction m as [|[k1 v1] m IH]; intros Hs; simpl.
  - apply sorted_cons. split; [apply sorted_nil|constructor].
  - pose proof Hs as [Hs' Hk]%sorted_cons. destruct (Z.ltb_spec k k1).
    + apply sorted_cons. split; [done|]. csimpl. constructor; [done|].
      eapply Forall_impl; [exact Hk|]. simpl. lia.
    + destruct (Z.eqb_spec k k1) as [->|]; apply sorted_cons; [done|].
      split; [by apply IH|]. rewrite Forall_forall in *. intros k' [->|Hk']%keys_insert; [lia|auto].
Qed.

Lemma elem_of_insert m k v k' v' :
  k ∉ keys m -> (k', v') ∈ insert m k v <-> (k', v') = (k, v) \/ (k', v') ∈ m.
Proof.
  induction m as [|[k1 v1] m IH]; intros Hk; simpl; [set_solver|].
  destruct (Z.ltb k k1); [set_solver|]. destruct (Z.eqb_spec k k1); [set_solver|].
  csimpl in Hk. rewrite !elem_of_cons, IH by set_solver. naive_solver.
Qed.

Lemma insert_Permutation m k v : k ∉ keys m -> insert m k v ≡ₚ (k, v) :: m.
Proof.
  induction m as [|[k1 v1] m IH]; intros Hk; simpl; [done|].
  destruct (Z.ltb k k1); [done|]. destruct (Z.eqb_spec k k1); [set_solver|].
  rewrite IH by set_solver. apply Permutation_swap.
Qed.

Lemma insert_elem m k v k' v' : (k', v') ∈ insert m k v -> (k', v') = (k, v) \/ (k', v') ∈ m.
Proof.
  induction m as [|[k1 v1] m IH]; simpl; [set_solver|].
  destruct (Z.ltb k k1); [set_solver|]. destruct (Z.eqb k k1); [set_solver|].
  rewrite !elem_of_cons. naive_solver.
Qed.

Lemma sorted_collect_from l m : sorted m -> sorted (fold_left (fun m '(k, v) => insert m k v) l m).
Proof.
  revert m; induction l as [|[k v] l IH]; intros m Hm; simpl; [done|]. by apply IH, sorted_insert.
Qed.

Lemma sorted_collect l : sorted (collect l).
Proof. apply sorted_collect_from, sorted_nil. Qed.

Lemma collect_elem l k v : (k, v) ∈ collect l -> (k, v) ∈ l.
Proof.
  unfold collect. intros Hin.
  assert (forall m, (k, v) ∈ fold_left (fun m '(k, v) => insert m k v) l m -> (k, v) ∈ l \/ (k, v) ∈ m) as Hgen.
  { clear Hin. induction l as [|[k1 v1] l IH]; intros m Hin; simpl in *; [auto|].
    apply IH in Hin as [Hin|Hin%insert_elem]; set_solver. }
  apply Hgen in Hin as [Hin|Hin]; [done|set_solver].
Qed.

Lemma keys_update m k f : keys (update m k f) = keys m.
Proof.
  unfold keys, update. rewrite <-list_fmap_compose. apply list_fmap_ext.
  intros i [k' v] _. simpl. by destruct (Z.eqb k k').
Qed.

Lemma sorted_update m k f : sorted m -> sorted (update m k f).
Proof. unfold sorted. by rewrite keys_update. Qed.

Lemma update_split m k v f :
  sorted m -> get m k = Some v ->
  exists m1 m2, m = m1 ++ (k, v) :: m2 /\ update m k f = m1 ++ (k, f v) :: m2.
Proof.
  induction m as [|[k1 v1] m IH]; intros Hs Hg; simpl in *; [done|].
  apply sorted_cons in Hs as [Hs Hk]. destruct (Z.eqb_spec k k1) as [->|Hne].
  - simplify_eq. exists [], m. split; [done|]. simpl. f_equal. unfold update.
    rewrite <-(list_fmap_id m) at 2. apply list_fmap_ext. intros i [k' v'] Hi. simpl.
    rewrite Forall_forall in Hk. destruct (Z.eqb_spec k1 k') as [->|]; [|done].
    assert (k' < k')%Z by (apply Hk, elem_of_keys; exists v'; by eapply list_elem_of_lookup_2). lia.
  - destruct (IH Hs Hg) as (m1 & m2 & -> & ->). by exists ((k1, v1) :: m1), m2.
Qed.

Lemma or_insert_cases m k v :
  or_insert m k v = m /\ k ∈ keys m \/ or_insert m k v = insert m k v /\ k ∉ keys m.
Proof.
  unfold or_insert. destruct (get m k) eqn:E.
  - left. split; [done|]. destruct (decide (k ∈ keys m)) as [|Hn]; [done|]. apply get_None in Hn. congruence.
  - right. split; [done|]. by apply get_None.
Qed.

Lemma sorted_or_insert m k v : sorted m -> sorted (or_insert m k v).
Proof. destruct (or_insert_cases m k v) as [[-> _]|[-> _]]; auto using sorted_insert. Qed.
End BTree.
End BTree.
