(* ===== verification/FindNode.v ===== *)
(** * The FINDNODE query (src/src/query_pool/peers.rs and peers/closest.rs)

    [FindNodeQuery] iterates towards a target over a map of peers ordered by
    distance.  The node id type comes with its conversion into a [Key]
    ([TNodeId: Into<Key<TNodeId>>]), the class [IntoKey].  Decrements of
    [num_waiting] abort on underflow, as the [debug_assert]s say. *)

From Stdlib Require Import Sorting.Sorted.
From S2P Require Import Prelude Bytes Key BTree.
Import BTree.

(** [TNodeId: Into<Key<TNodeId>>], with the law of [From<NodeId>]. *)
Class IntoKey (N : Type) := into_key : N -> Key N.
Class IntoKeyLaw (N : Type) `{IntoKey N} :=
  into_key_preimage : forall n, Key.preimage (into_key n) = n.

#[export] Instance node_id_into_key : IntoKey NodeId := Key.from_node_id.
#[export] Instance node_id_into_key_law : IntoKeyLaw NodeId.
Proof. done. Qed.

(** [peers::QueryState]. *)
Inductive QueryState (N : Type) :=
  | QWaiting (peer : option N)
  | QWaitingAtCapacity
  | QFinished.
Arguments QWaiting {N} peer.
Arguments QWaitingAtCapacity {N}.
Arguments QFinished {N}.

Module FindNode.

Record FindNodeQueryConfig := mkConfig {
  parallelism : nat;
  num_results : nat;
  peer_timeout : Z;
}.

Inductive QueryProgress :=
  | Iterating (no_progress : nat)
  | Stalled
  | Finished.

Inductive QueryPeerState :=
  | NotContacted
  | Waiting (timeout : Z)
  | Unresponsive
  | Failed
  | Succeeded.

Record QueryPeer (N : Type) := mkPeer {
  key : Key N;
  peers_returned : nat;
  state : QueryPeerState;
}.
Arguments mkPeer {N} key peers_returned state.
Arguments key {N} _.
Arguments peers_returned {N} _.
Arguments state {N} _.

Record FindNodeQuery (N : Type) := mkQuery {
  target_key : Key N;
  progress : QueryProgress;
  closest_peers : BTreeMap (QueryPeer N);
  num_waiting : nat;
  config : FindNodeQueryConfig;
}.
Arguments mkQuery {N} target_key progress closest_peers num_waiting config.
Arguments target_key {N} _.
Arguments progress {N} _.
Arguments closest_peers {N} _.
Arguments num_waiting {N} _.
Arguments config {N} _.

Section Query.
Context {N : Type} `{IntoKey N}.
Implicit Types (q : FindNodeQuery N) (p : QueryPeer N) (n : N) (m : BTreeMap (QueryPeer N)).

(** [QueryPeer::new]. *)
Definition peer_new (k : Key N) (st : QueryPeerState) : QueryPeer N := mkPeer k 0 st.

Definition set_state p (st : QueryPeerState) : QueryPeer N := mkPeer (key p) (peers_returned p) st.

Definition with_config (cfg : FindNodeQueryConfig) (target : Key N) (known_closest_peers : list (Key N))
    : FindNodeQuery N :=
  let peers := (fun k => (Key.distance k target, peer_new k NotContacted)) <$> known_closest_peers in
  mkQuery target (Iterating 0) (collect (take (num_results cfg) peers)) 0 cfg.

(** The reported peers join the map; [progress] is assigned for each of them. *)
Fixpoint incorporate (cfg : FindNodeQueryConfig) (target : Key N) (num_closest : nat)
    m (progress : bool) (closer_peers : list N) : BTreeMap (QueryPeer N) * bool :=
  match closer_peers with
  | [] => (m, progress)
  | peer :: closer_peers =>
      let k := into_key peer in
      let distance := Key.distance target k in
      let m := or_insert m distance (peer_new k NotContacted) in
      let progress := bool_decide (head (keys m) = Some distance) ||
                      bool_decide (num_closest < num_results cfg) in
      incorporate cfg target num_closest m progress closer_peers
  end.

Definition update_progress (cfg : FindNodeQueryConfig) (pr : QueryProgress) (progress : bool) : QueryProgress :=
  match pr with
  | Iterating no_progress =>
      let no_progress := if progress then 0 else no_progress + 1 in
      if decide (parallelism cfg <= no_progress) then Stalled else Iterating no_progress
  | Stalled => if progress then Iterating 0 else Stalled
  | Finished => Finished
  end.

Definition on_success q (node_id : N) (closer_peers : list N) : outcome (FindNodeQuery N) :=
  match progress q with
  | Finished => Ret q
  | _ =>
      let distance := Key.distance (into_key node_id) (target_key q) in
      let succeed p := mkPeer (key p) (peers_returned p + length closer_peers) Succeeded in
      let continue (nw : nat) :=
        let m := update (closest_peers q) distance succeed in
        let '(m, pr) := incorporate (config q) (target_key q) (length m) m false closer_peers in
        mkQuery (target_key q) (update_progress (config q) (progress q) pr) m nw (config q) in
      match get (closest_peers q) distance with
      | None => Ret q
      | Some p =>
          match state p with
          | Waiting _ => nw ← unwrap (checked_sub (num_waiting q) 1); Ret (continue nw)
          | Unresponsive => Ret (continue (num_waiting q))
          | NotContacted | Failed | Succeeded => Ret q
          end
      end
  end.

Definition on_failure q (peer : N) : outcome (FindNodeQuery N) :=
  match progress q with
  | Finished => Ret q
  | _ =>
      let distance := Key.distance (into_key peer) (target_key q) in
      let failed (nw : nat) :=
        mkQuery (target_key q) (progress q)
          (update (closest_peers q) distance (fun p => set_state p Failed)) nw (config q) in
      match get (closest_peers q) distance with
      | None => Ret q
      | Some p =>
          match state p with
          | Waiting _ => nw ← unwrap (checked_sub (num_waiting q) 1); Ret (failed nw)
          | Unresponsive => Ret (failed (num_waiting q))
          | _ => Ret q
          end
      end
  end.

Definition at_capacity q : bool :=
  match progress q with
  | Stalled => bool_decide (num_results (config q) <= num_waiting q)
  | Iterating _ => bool_decide (parallelism (config q) <= num_waiting q)
  | Finished => true
  end.

(** The loop of [next] over the peers: the peers and [num_waiting] as they are
    left, and the state returned from within the loop, if any. *)
Fixpoint scan (now : Z) (cfg : FindNodeQueryConfig) (at_cap : bool) (result_counter : option nat)
    (nw : nat) m : outcome (BTreeMap (QueryPeer N) * nat * option (QueryState N)) :=
  match m with
  | [] => Ret ([], nw, None)
  | (d, p) :: m' =>
      match state p with
      | NotContacted =>
          if negb at_cap then
            Ret ((d, set_state p (Waiting (now + peer_timeout cfg))) :: m', S nw,
                 Some (QWaiting (Some (Key.preimage (key p)))))
          else Ret (m, nw, Some QWaitingAtCapacity)
      | Waiting timeout =>
          if Z.leb timeout now then
            nw ← unwrap (checked_sub nw 1);
            '(m', nw, r) ← scan now cfg at_cap result_counter nw m';
            Ret ((d, set_state p Unresponsive) :: m', nw, r)
          else if at_cap then Ret (m, nw, Some QWaitingAtCapacity)
          else
            '(m', nw, r) ← scan now cfg at_cap None nw m';
            Ret ((d, p) :: m', nw, r)
      | Succeeded =>
          match result_counter with
          | Some cnt =>
              let cnt := S cnt in
              if decide (num_results cfg <= cnt) then Ret (m, nw, Some QFinished)
              else
                '(m', nw, r) ← scan now cfg at_cap (Some cnt) nw m';
                Ret ((d, p) :: m', nw, r)
          | None =>
              '(m', nw, r) ← scan now cfg at_cap None nw m';
              Ret ((d, p) :: m', nw, r)
          end
      | Failed | Unresponsive =>
          '(m', nw, r) ← scan now cfg at_cap result_counter nw m';
          Ret ((d, p) :: m', nw, r)
      end
  end.

Definition next (now : Z) q : outcome (FindNodeQuery N * QueryState N) :=
  match progress q with
  | Finished => Ret (q, QFinished)
  | _ =>
      '(m, nw, r) ← scan now (config q) (at_capacity q) (Some 0) (num_waiting q) (closest_peers q);
      let leave pr := mkQuery (target_key q) pr m nw (config q) in
      match r with
      | Some QFinished => Ret (leave Finished, QFinished)
      | Some st => Ret (leave (progress q), st)
      | None =>
          if decide (0 < nw) then Ret (leave (progress q), QWaiting None)
          else Ret (leave Finished, QFinished)
      end
  end.

Definition is_succeeded p : bool := match state p with Succeeded => true | _ => false end.

Definition into_result q : list N :=
  take (num_results (config q))
    (omap (fun '(_, p) => if is_succeeded p then Some (Key.into_preimage (key p)) else None)
       (closest_peers q)).
End Query.
End FindNode.
