(* ===== verification/FindNodeProofs.v ===== *)
(** * Invariants of the FINDNODE query *)

From Stdlib Require Import Sorting.Sorted.
From S2P Require Import Prelude Bytes Key BTree FindNode.
Import BTree FindNode.

Section Scan.
Context {N : Type} `{IntoKey N}.
Implicit Types (p : QueryPeer N) (m : BTreeMap (QueryPeer N)) (e : Z * QueryPeer N).

Definition is_waiting (e : Z * QueryPeer N) : bool :=
  match state (snd e) with Waiting _ => true | _ => false end.
Definition succeeded (e : Z * QueryPeer N) : bool := is_succeeded (snd e).

(** Contacted and not waited for any more. *)
Definition settled e : Prop :=
  match state (snd e) with Unresponsive | Failed | Succeeded => True | _ => False end.

(** A peer whose time is up becomes unresponsive. *)
Definition expire (now : Z) e : Z * QueryPeer N :=
  match state (snd e) with
  | Waiting t => if Z.leb t now then (fst e, set_state (snd e) Unresponsive) else e
  | _ => e
  end.

Definition contacted e : Prop := state (snd e) <> NotContacted.

(** What the loop leaves: the peers [pre] it went past, with timeouts applied,
    and the peer it stopped at. *)
Definition scan_result (now : Z) (cfg : FindNodeQueryConfig) (at_cap : bool) (cnt : option nat)
    pre rest m' (r : option (QueryState N)) : Prop :=
  match r with
  | None => rest = [] /\ m' = expire now <$> pre
  | Some (QWaiting None) => False
  | Some (QWaiting (Some n)) =>
      at_cap = false /\ exists d p tl, rest = (d, p) :: tl /\ state p = NotContacted /\
      n = Key.preimage (key p) /\
      m' = (expire now <$> pre) ++ (d, set_state p (Waiting (now + peer_timeout cfg))) :: tl
  | Some QWaitingAtCapacity =>
      at_cap = true /\ m' = (expire now <$> pre) ++ rest /\ exists d p tl, rest = (d, p) :: tl /\
      match state p with NotContacted => True | Waiting t => (now < t)%Z | _ => False end
  | Some QFinished =>
      m' = (expire now <$> pre) ++ rest /\ (exists d p tl, rest = (d, p) :: tl /\ state p = Succeeded) /\
      Forall settled (expire now <$> pre) /\
      exists c, cnt = Some c /\ c + countb succeeded pre + 1 = Nat.max (S c) (num_results cfg)
  end.

Lemma expire_fst now e : fst (expire now e) = fst e.
Proof. unfold expire. repeat case_match; done. Qed.

Lemma expire_key now e : key (snd (expire now e)) = key (snd e).
Proof. unfold expire. repeat case_match; done. Qed.

Lemma expire_contacted now e : contacted e -> contacted (expire now e).
Proof. unfold expire, contacted. intros Hc. repeat case_match; simpl; congruence. Qed.

Lemma expire_waiting now e : is_waiting (expire now e) = true -> is_waiting e = true.
Proof. unfold expire, is_waiting. repeat case_match; simpl; try done; congruence. Qed.

Lemma countb_cons {A} (f : A -> bool) x l : countb f (x :: l) = (if f x then 1 else 0) + countb f l.
Proof. simpl. by destruct (f x). Qed.

(** One more peer that the loop went past. *)
Lemma scan_result_cons now cfg at_cap cnt cnt' e pre rest m' r :
  scan_result now cfg at_cap cnt' pre rest m' r ->
  (forall c', cnt' = Some c' -> settled (expire now e) /\ exists c, cnt = Some c /\
     c' = c + (if succeeded e then 1 else 0) /\ Nat.max (S c) (num_results cfg) = Nat.max (S c') (num_results cfg)) ->
  scan_result now cfg at_cap cnt (e :: pre) rest (expire now e :: m') r.
Proof.
  intros Hr Hcnt. destruct r as [[[n|]| |]|]; simpl in *.
  - destruct Hr as (? & d & p & tl & -> & ? & ? & ->). split; [done|]. by exists d, p, tl.
  - done.
  - destruct Hr as (? & -> & Hr). by split_and!.
  - destruct Hr as (-> & ? & Hs & c' & Hc' & Heq). destruct (Hcnt c' Hc') as (Hse & c & -> & -> & Hmax).
    split_and!; [done|done|by constructor|]. exists c. split; [done|].
    destruct (succeeded e); lia.
  - by destruct Hr as [-> ->].
Qed.

(** The peers, the waiting counter and the answer of the loop. *)
Definition scan_ok now cfg at_cap cnt nw m (o : outcome (BTreeMap (QueryPeer N) * nat * option (QueryState N))) : Prop :=
  exists pre rest m' nw' r,
    o = Ret (m', nw', r) /\ m = pre ++ rest /\
    Forall contacted pre /\ scan_result now cfg at_cap cnt pre rest m' r /\
    nw' + countb is_waiting m = nw + countb is_waiting m'.

(** The loop goes past a peer and on. *)
Lemma scan_ok_step now cfg at_cap cnt cnt' nw nw1 e e' m :
  expire now e = e' ->
  scan_ok now cfg at_cap cnt' nw1 m (scan now cfg at_cap cnt' nw1 m) ->
  contacted e ->
  nw + (if is_waiting (expire now e) then 1 else 0) = nw1 + (if is_waiting e then 1 else 0) ->
  (forall c', cnt' = Some c' -> settled (expire now e) /\ exists c, cnt = Some c /\
     c' = c + (if succeeded e then 1 else 0) /\ Nat.max (S c) (num_results cfg) = Nat.max (S c') (num_results cfg)) ->
  scan_ok now cfg at_cap cnt nw (e :: m)
    ('(m', nw', r) ← scan now cfg at_cap cnt' nw1 m; Ret (e' :: m', nw', r)).
Proof.
  intros <- (pre & rest & m' & nw' & r & -> & -> & Hc & Hr & Hw) He Hnw Hcnt. simpl.
  eexists (e :: pre), rest, _, _, r. split_and!; [done..|by constructor|by eapply scan_result_cons|].
  rewrite !countb_cons. lia.
Qed.

(** The loop goes past a peer that it leaves as it is. *)
Lemma scan_ok_past now cfg at_cap cnt cnt' nw d p m :
  expire now (d, p) = (d, p) -> state p <> NotContacted ->
  scan_ok now cfg at_cap cnt' nw m (scan now cfg at_cap cnt' nw m) ->
  (forall c', cnt' = Some c' -> settled (d, p) /\ exists c, cnt = Some c /\
     c' = c + (if succeeded (d, p) then 1 else 0) /\ Nat.max (S c) (num_results cfg) = Nat.max (S c') (num_results cfg)) ->
  scan_ok now cfg at_cap cnt nw ((d, p) :: m)
    ('(m', nw', r) ← scan now cfg at_cap cnt' nw m; Ret ((d, p) :: m', nw', r)).
Proof.
  intros He Hs IH Hc. apply (scan_ok_step _ _ _ cnt cnt' nw nw _ _ _ He); [done|done|by rewrite He|by rewrite He].
Qed.

(** The loop stops at a peer. *)
Lemma scan_ok_stop now cfg at_cap cnt nw nw' e e' m r :
  scan_result now cfg at_cap cnt [] (e :: m) (e' :: m) (Some r) ->
  nw' + (if is_waiting e then 1 else 0) = nw + (if is_waiting e' then 1 else 0) ->
  scan_ok now cfg at_cap cnt nw (e :: m) (Ret (e' :: m, nw', Some r)).
Proof.
  intros Hr Hw. eexists [], (e :: m), _, _, _. split_and!; [done..|constructor|done|].
  rewrite !countb_cons. lia.
Qed.

Lemma scan_spec now cfg at_cap cnt nw m :
  countb is_waiting m <= nw -> scan_ok now cfg at_cap cnt nw m (scan now cfg at_cap cnt nw m).
Proof.
  revert cnt nw; induction m as [|[d p] m IH]; intros cnt nw Hnw.
  { exists [], [], [], nw, None. split_and!; try done. }
  rewrite countb_cons in Hnw. unfold is_waiting at 1 in Hnw. simpl in *.
  destruct (state p) as [|t| | |] eqn:Es.
  - destruct at_cap; simpl.
    + apply scan_ok_stop; [|done]. split_and!; [done..|]. exists d, p, m. by rewrite Es.
    + apply scan_ok_stop; [|unfold is_waiting; simpl; rewrite Es; lia].
      split; [done|]. by exists d, p, m.
  - destruct (Z.leb_spec t now).
    + destruct nw as [|nw]; [lia|]. rewrite checked_sub_S. simpl. rewrite ?Nat.sub_0_r.
      assert (expire now (d, p) = (d, set_state p Unresponsive)) as He
        by (unfold expire; simpl; rewrite Es; by destruct (Z.leb_spec t now); [|lia]).
      apply (scan_ok_step _ _ _ cnt cnt (S nw) nw _ _ _ He); [apply IH; lia|..].
      * unfold contacted. simpl. congruence.
      * rewrite He. unfold is_waiting. simpl. rewrite Es. lia.
      * intros c ->. rewrite He. split; [done|]. exists c. unfold succeeded, is_succeeded. simpl.
        rewrite Es. split_and!; lia || done.
    + destruct at_cap.
      * apply scan_ok_stop; [|done]. split_and!; [done..|]. exists d, p, m. by rewrite Es.
      * apply scan_ok_past; [|congruence|apply IH; lia|done].
        unfold expire. simpl. rewrite Es. by destruct (Z.leb_spec t now); [lia|].
  - apply scan_ok_past; [unfold expire; simpl; by rewrite Es|congruence|apply IH; lia|].
    intros c ->. unfold settled, succeeded, is_succeeded. simpl. rewrite Es. split; [done|]. exists c. split_and!; lia || done.
  - apply scan_ok_past; [unfold expire; simpl; by rewrite Es|congruence|apply IH; lia|].
    intros c ->. unfold settled, succeeded, is_succeeded. simpl. rewrite Es. split; [done|]. exists c. split_and!; lia || done.
  - assert (expire now (d, p) = (d, p)) as He by (unfold expire; simpl; by rewrite Es).
    destruct cnt as [c|]; [|apply scan_ok_past; [done|congruence|apply IH; lia|done]]. case_decide.
    + apply scan_ok_stop; [|done]. simpl. split_and!; [done|by exists d, p, m|constructor|].
      exists c. split; [done|lia].
    + apply scan_ok_past; [done|congruence|apply IH; lia|].
      intros c' [= <-]. unfold settled, succeeded, is_succeeded. simpl. rewrite Es.
      split; [done|]. exists c. split_and!; lia || done.
Qed.
End Scan.

Section Inv.
Context {N : Type} `{IntoKeyLaw N}.
Implicit Types (q : FindNodeQuery N) (p : QueryPeer N) (n : N) (m : BTreeMap (QueryPeer N)).

(** A result or a failure was reported. *)
Definition final p : Prop := state p = Succeeded \/ state p = Failed.

(** How the peers of a query evolve: none is lost, none is contacted again, and
    final states stay. *)
Definition evolves m m' : Prop :=
  forall d p, (d, p) ∈ m -> exists p', (d, p') ∈ m' /\ key p' = key p /\
    (state p <> NotContacted -> state p' <> NotContacted) /\ (final p -> p' = p).

#[export] Instance progress_eq_dec : EqDecision QueryProgress.
Proof. solve_decision. Defined.

#[export] Instance evolves_refl : Reflexive evolves.
Proof. intros m d p Hp. by exists p. Qed.
#[export] Instance evolves_trans : Transitive evolves.
Proof.
  intros m1 m2 m3 H1 H2 d p Hp. destruct (H1 d p Hp) as (p2 & Hp2 & Hk2 & Hc2 & Hf2).
  destruct (H2 d p2 Hp2) as (p3 & Hp3 & Hk3 & Hc3 & Hf3). exists p3.
  split_and!; [done|congruence|auto|]. intros Hf. rewrite (Hf2 Hf) in *. auto.
Qed.

(** Every peer is stored at its distance, under the key of its node id. *)
Definition peers_ok (target : Key N) m : Prop :=
  forall d p, (d, p) ∈ m -> d = Key.distance (key p) target /\ key p = into_key (Key.preimage (key p)).

(** The peers of a finished query: up to the last result that counts, or up to
    the end, every peer has settled. *)
Definition finished_peers q : Prop :=
  exists pre rest, closest_peers q = pre ++ rest /\ Forall settled pre /\
    (rest = [] \/ countb succeeded pre = Nat.max 1 (num_results (config q))).

Record base_inv q : Prop := {
  inv_sorted : sorted (closest_peers q);
  inv_peers : peers_ok (target_key q) (closest_peers q);
  inv_waiting : num_waiting q = countb is_waiting (closest_peers q);
  inv_parallel : num_waiting q <= Nat.max (parallelism (config q)) (num_results (config q));
}.

Definition query_inv q : Prop := base_inv q /\ (progress q = Finished -> finished_peers q).

Lemma or_insert_new target m k :
  sorted m -> peers_ok target m -> k = into_key (Key.preimage k) ->
  let m' := or_insert m (Key.distance target k) (peer_new k NotContacted) in
  sorted m' /\ peers_ok target m' /\ countb is_waiting m' = countb is_waiting m /\ evolves m m'.
Proof.
  intros Hs Hp Hk m'. split; [by apply sorted_or_insert|]. unfold m'.
  destruct (or_insert_cases m (Key.distance target k) (peer_new k NotContacted)) as [[-> _]|[-> Hnin]];
    [done|]. split_and!.
  - intros d p [[= -> ->]|Hin]%elem_of_insert; [|by apply Hp|done]. split; [apply Key.distance_sym|done].
  - rewrite (countb_Permutation _ _ _ (insert_Permutation m _ _ Hnin)). done.
  - intros d p Hin. exists p. split; [|done]. apply elem_of_insert; auto.
Qed.

Lemma incorporate_ok cfg target nc m pr ps :
  sorted m -> peers_ok target m ->
  let m' := fst (incorporate cfg target nc m pr ps) in
  sorted m' /\ peers_ok target m' /\ countb is_waiting m' = countb is_waiting m /\ evolves m m'.
Proof.
  revert m pr; induction ps as [|n ps IH]; intros m pr Hs Hp; simpl; [done|].
  destruct (or_insert_new target m (into_key n) Hs Hp) as (Hs1 & Hp1 & Hw1 & He1);
    [by rewrite into_key_preimage|].
  edestruct IH as (Hs2 & Hp2 & Hw2 & He2); [exact Hs1|exact Hp1|].
  split_and!; [exact Hs2|exact Hp2|by rewrite Hw2|]. by etransitivity.
Qed.

(** A write to one peer that is not final. *)
Lemma update_peer target m d p f :
  sorted m -> peers_ok target m -> get m d = Some p -> ~ final p ->
  (forall p, key (f p) = key p) -> is_waiting (d, f p) = false -> state (f p) <> NotContacted ->
  sorted (update m d f) /\ peers_ok target (update m d f) /\
  countb is_waiting (update m d f) + (if is_waiting (d, p) then 1 else 0) = countb is_waiting m /\
  evolves m (update m d f).
Proof.
  intros Hs Hp Hg Hnf Hk Hnw Hc. destruct (update_split m d p f Hs Hg) as (m1 & m2 & Hm & Hu).
  split; [by apply sorted_update|]. rewrite Hu, Hm in *. split_and!.
  - intros d' p' Hin. rewrite elem_of_app, elem_of_cons in Hin.
    destruct Hin as [Hin|[[= -> ->]|Hin]]; [apply Hp; set_solver| |apply Hp; set_solver].
    rewrite !Hk. apply Hp. set_solver.
  - rewrite !countb_app, !countb_cons, Hnw. lia.
  - intros d' p' Hin. rewrite elem_of_app, elem_of_cons in Hin.
    destruct Hin as [Hin|[[= -> ->]|Hin]].
    + exists p'. split; [set_solver|done].
    + exists (f p). split_and!; [set_solver|done|done|by intros ?%Hnf].
    + exists p'. split; [set_solver|done].
Qed.

(** One step of a query. *)
Definition step_base q q' : Prop :=
  base_inv q' /\ target_key q' = target_key q /\ config q' = config q /\
  evolves (closest_peers q) (closest_peers q').

Definition step_ok q q' : Prop := step_base q q' /\ (progress q' = Finished -> finished_peers q').

Lemma step_base_refl q : base_inv q -> step_base q q.
Proof. intros Hinv. by split_and!. Qed.

Lemma waiting_pos q d p :
  base_inv q -> (d, p) ∈ closest_peers q -> is_waiting (d, p) = true -> exists nw, num_waiting q = S nw.
Proof.
  intros Hinv Hin Hw. rewrite (inv_waiting q Hinv).
  apply list_elem_of_split in Hin as (m1 & m2 & ->). rewrite countb_app, countb_cons, Hw.
  exists (countb is_waiting m1 + countb is_waiting m2). lia.
Qed.

Lemma get_peer q d p : base_inv q -> get (closest_peers q) d = Some p -> (d, p) ∈ closest_peers q.
Proof. intros Hinv. apply get_elem, Hinv. Qed.

Lemma update_progress_finished cfg pr b : update_progress cfg pr b = Finished -> pr = Finished.
Proof. unfold update_progress. by repeat case_match. Qed.

Lemma on_success_base q n ps :
  base_inv q -> exists q', on_success q n ps = Ret q' /\ step_base q q' /\ (progress q' = Finished -> q' = q).
Proof.
  intros Hinv. unfold on_success.
  set (d := Key.distance (into_key n) (target_key q)).
  set (succeed := fun p => mkPeer (key p) (peers_returned p + length ps) Succeeded).
  set (m := update (closest_peers q) d succeed).
  assert (forall p nw, get (closest_peers q) d = Some p -> ~ final p -> progress q <> Finished ->
    num_waiting q = nw + (if is_waiting (d, p) then 1 else 0) ->
    let q' := let '(m, b) := incorporate (config q) (target_key q) (length m) m false ps in
              mkQuery (target_key q) (update_progress (config q) (progress q) b) m nw (config q) in
    step_base q q' /\ (progress q' = Finished -> q' = q)) as Hstep.
  { intros p nw Hg Hnf Hpr Hnw.
    destruct (update_peer (target_key q) (closest_peers q) d p succeed) as (Hs & Hp & Hw & He);
      try done; [apply Hinv..|].
    destruct (incorporate_ok (config q) (target_key q) (length m) m false ps Hs Hp)
      as (Hs1 & Hp1 & Hw1 & He1).
    destruct (incorporate _ _ _ m _ _) as [m1 b]. simpl in *.
    split; [|intros Hfin; by apply update_progress_finished in Hfin].
    split_and!; [|done|done|by etransitivity]. constructor; simpl; [done|done|..].
    - rewrite Hw1. pose proof (inv_waiting q Hinv). unfold m in *. lia.
    - pose proof (inv_parallel q Hinv). lia. }
  destruct (decide (progress q = Finished)) as [Epr|Epr].
  { rewrite Epr. eexists. split; [done|]. by split; [apply step_base_refl|]. }
  assert (forall A (x y : A), match progress q with Finished => x | _ => y end = y) as ->
    by (intros; by destruct (progress q)).
  destruct (get (closest_peers q) d) as [p|] eqn:Eg; [|by eexists; split; [|split; [apply step_base_refl|]]].
  destruct (state p) eqn:Es; try (by eexists; split; [|split; [apply step_base_refl|]]).
  - destruct (waiting_pos q d p Hinv (get_peer q d p Hinv Eg)) as [nw Hnw];
      [by unfold is_waiting; simpl; rewrite Es|].
    rewrite Hnw, checked_sub_S. simpl. rewrite ?Nat.sub_0_r. eexists. split; [done|].
    apply (Hstep p); [done|unfold final; rewrite Es; naive_solver|done|].
    unfold is_waiting; simpl; rewrite Es; lia.
  - eexists. split; [done|]. apply (Hstep p); [done|unfold final; rewrite Es; naive_solver|done|].
    unfold is_waiting; simpl; rewrite Es; lia.
Qed.

Lemma on_failure_base q n :
  base_inv q -> exists q', on_failure q n = Ret q' /\ step_base q q' /\ (progress q' = Finished -> q' = q).
Proof.
  intros Hinv. unfold on_failure. set (d := Key.distance (into_key n) (target_key q)).
  set (m := update (closest_peers q) d (fun p => set_state p Failed)).
  assert (forall p nw, get (closest_peers q) d = Some p -> ~ final p -> progress q <> Finished ->
    num_waiting q = nw + (if is_waiting (d, p) then 1 else 0) ->
    let q' := mkQuery (target_key q) (progress q) m nw (config q) in
    step_base q q' /\ (progress q' = Finished -> q' = q)) as Hstep.
  { intros p nw Hg Hnf Hpr Hnw.
    destruct (update_peer (target_key q) (closest_peers q) d p (fun p => set_state p Failed))
      as (Hs & Hp & Hw & He); try done; [apply Hinv..|].
    split; [|done]. split_and!; [|done|done|done]. constructor; simpl; [done|done|..].
    - pose proof (inv_waiting q Hinv). unfold m in *. lia.
    - pose proof (inv_parallel q Hinv). lia. }
  destruct (decide (progress q = Finished)) as [Epr|Epr].
  { rewrite Epr. eexists. split; [done|]. by split; [apply step_base_refl|]. }
  assert (forall A (x y : A), match progress q with Finished => x | _ => y end = y) as ->
    by (intros; by destruct (progress q)).
  destruct (get (closest_peers q) d) as [p|] eqn:Eg; [|by eexists; split; [|split; [apply step_base_refl|]]].
  destruct (state p) eqn:Es; try (by eexists; split; [|split; [apply step_base_refl|]]).
  - destruct (waiting_pos q d p Hinv (get_peer q d p Hinv Eg)) as [nw Hnw];
      [by unfold is_waiting; simpl; rewrite Es|].
    rewrite Hnw, checked_sub_S. simpl. rewrite ?Nat.sub_0_r. eexists. split; [done|].
    apply (Hstep p); [done|unfold final; rewrite Es; naive_solver|done|].
    unfold is_waiting; simpl; rewrite Es; lia.
  - eexists. split; [done|]. apply (Hstep p); [done|unfold final; rewrite Es; naive_solver|done|].
    unfold is_waiting; simpl; rewrite Es; lia.
Qed.

(** A peer moves on, in its place. *)
Definition moves (e e' : Z * QueryPeer N) : Prop :=
  fst e' = fst e /\ key (snd e') = key (snd e) /\
  (state (snd e) <> NotContacted -> state (snd e') <> NotContacted) /\ (final (snd e) -> e' = e).

Lemma moves_refl e : moves e e.
Proof. done. Qed.

Lemma moves_expire now e : moves e (expire now e).
Proof.
  split_and!; [apply expire_fst|apply expire_key|apply expire_contacted|].
  intros [Hf|Hf]; unfold expire; by rewrite Hf.
Qed.

Lemma moves_all target m m' :
  Forall2 moves m m' -> sorted m -> peers_ok target m ->
  sorted m' /\ peers_ok target m' /\ evolves m m'.
Proof.
  intros Hm Hs Hp. split_and!.
  - unfold sorted in *. replace (keys m') with (keys m); [done|]. unfold keys. clear Hs Hp.
    induction Hm as [|e e' m m' (He & _) Hm IH]; csimpl; [done|]. by rewrite He, IH.
  - intros d p Hin. apply list_elem_of_lookup in Hin as [i Hi].
    destruct (Forall2_lookup_r _ _ _ _ _ Hm Hi) as ([d' p'] & Hi' & Hd & Hk & _). simpl in *.
    rewrite Hd, Hk. apply Hp. by eapply list_elem_of_lookup_2.
  - intros d p Hin. apply list_elem_of_lookup in Hin as [i Hi].
    destruct (Forall2_lookup_l _ _ _ _ _ Hm Hi) as ([d' p'] & Hi' & Hd & Hk & Hc & Hf). simpl in *.
    subst d'. exists p'. split_and!; [by eapply list_elem_of_lookup_2|done|done|].
    intros Hfin. by specialize (Hf Hfin) as [= ->].
Qed.

Lemma Forall2_moves_refl m : Forall2 moves m m.
Proof. by apply Forall_Forall2_diag, Forall_forall. Qed.

Lemma Forall2_moves_expire now m : Forall2 moves m (expire now <$> m).
Proof. apply Forall2_fmap_r, Forall_Forall2_diag, Forall_forall. intros e _. apply moves_expire. Qed.

Lemma scan_result_moves now cfg at_cap cnt pre rest m' r :
  scan_result now cfg at_cap cnt pre rest m' r -> Forall2 moves (pre ++ rest) m'.
Proof.
  pose proof (Forall2_moves_expire now pre) as Hpre. intros Hr.
  destruct r as [[[n|]| |]|]; simpl in Hr.
  - destruct Hr as (_ & d & p & tl & -> & Hp & _ & ->). apply Forall2_app; [done|].
    constructor; [|apply Forall2_moves_refl]. split_and!; [done..|].
    intros [Hf|Hf]; simpl in Hf; congruence.
  - done.
  - destruct Hr as (_ & -> & _). by apply Forall2_app, Forall2_moves_refl.
  - destruct Hr as (-> & _). by apply Forall2_app, Forall2_moves_refl.
  - destruct Hr as [-> ->]. by rewrite app_nil_r.
Qed.

(** What [next] answers, on the peers it leaves. *)
Definition next_answer (now : Z) q q' (st : QueryState N) : Prop :=
  match st with
  | QWaiting (Some n) =>
      at_capacity q = false /\ (exists d p, (d, p) ∈ closest_peers q /\ n = Key.preimage (key p) /\
        state p = NotContacted /\ (d, set_state p (Waiting (now + peer_timeout (config q)))) ∈ closest_peers q') /\
      exists pre p tl, values (closest_peers q') = pre ++ p :: tl /\ Key.preimage (key p) = n /\
        Forall (fun p => state p <> NotContacted) pre
  | QWaiting None => Forall contacted (closest_peers q') /\ 0 < num_waiting q'
  | QWaitingAtCapacity => at_capacity q = true
  | QFinished => progress q' = Finished /\ finished_peers q'
  end.

Lemma expire_succeeded now m : countb succeeded (expire now <$> m) = countb succeeded m.
Proof.
  rewrite countb_fmap. apply countb_ext. intros e. unfold succeeded, is_succeeded, expire.
  destruct (state (snd e)) as [|t| | |] eqn:Es; simpl; rewrite ?Es; try done.
  destruct (Z.leb t now); simpl; by rewrite ?Es.
Qed.

Lemma countb_zero {A} (f : A -> bool) l : countb f l = 0 -> Forall (fun x => f x = false) l.
Proof.
  induction l as [|x l IH]; [constructor|]. rewrite countb_cons. destruct (f x) eqn:E; [lia|].
  intros Hc. constructor; [done|]. by apply IH.
Qed.

Lemma settled_all m : Forall contacted m -> countb is_waiting m = 0 -> Forall settled m.
Proof.
  intros Hc Hw%countb_zero. rewrite Forall_forall in *. intros e He. specialize (Hc e He). specialize (Hw e He).
  unfold contacted, is_waiting, settled in *. by destruct (state (snd e)).
Qed.

Lemma scan_waiting now cfg at_cap cnt pre rest m' n :
  Forall contacted pre -> scan_result now cfg at_cap cnt pre rest m' (Some (QWaiting (Some n))) ->
  at_cap = false /\ (exists d p, (d, p) ∈ pre ++ rest /\ n = Key.preimage (key p) /\ state p = NotContacted /\
     (d, set_state p (Waiting (now + peer_timeout cfg))) ∈ m') /\
  exists pre' p tl, values m' = pre' ++ p :: tl /\ Key.preimage (key p) = n /\
    Forall (fun p => state p <> NotContacted) pre'.
Proof.
  intros Hc (Hat & d & p & tl & -> & Hst & -> & ->). split_and!; [done|..].
  - exists d, p. split_and!; [set_solver|done|done|set_solver].
  - unfold values. rewrite fmap_app. csimpl. eexists _, _, _. split_and!; [done|done|].
    rewrite <-list_fmap_compose, Forall_fmap. eapply Forall_impl; [exact Hc|]. intros e. apply expire_contacted.
Qed.

Lemma scan_finished now cfg at_cap pre rest m' :
  scan_result now cfg at_cap (Some 0) pre rest m' (Some QFinished) ->
  exists pre' rest', m' = pre' ++ rest' /\ Forall settled pre' /\
    countb succeeded pre' = Nat.max 1 (num_results cfg).
Proof.
  intros (-> & (d & p & tl & -> & Hp) & Hs & c & [= <-] & Hcnt).
  exists ((expire now <$> pre) ++ [(d, p)]), tl. split_and!; [by rewrite <-app_assoc|..].
  - apply Forall_app. split; [done|]. constructor; [|done]. unfold settled. simpl. by rewrite Hp.
  - rewrite countb_app, countb_cons, expire_succeeded. unfold succeeded at 2, is_succeeded. simpl.
    rewrite Hp. simpl. lia.
Qed.

Lemma expire_waiting_le now m : countb is_waiting (expire now <$> m) <= countb is_waiting m.
Proof.
  rewrite countb_fmap. induction m as [|e m IH]; [done|]. rewrite !countb_cons.
  pose proof (expire_waiting now e) as He. destruct (is_waiting (expire now e)); [rewrite He by done|]; lia.
Qed.

Lemma scan_waiting_count now cfg at_cap cnt pre rest m' r :
  scan_result now cfg at_cap cnt pre rest m' r ->
  countb is_waiting m' <= countb is_waiting (pre ++ rest) \/
  countb is_waiting m' <= S (countb is_waiting (pre ++ rest)) /\ at_cap = false.
Proof.
  pose proof (expire_waiting_le now pre) as Hle.
  intros Hr. destruct r as [[[n|]| |]|]; simpl in Hr.
  - destruct Hr as (-> & d & p & tl & -> & Hst & _ & ->). right. split; [|done].
    rewrite !countb_app, !countb_cons. unfold is_waiting at 2 5. simpl. rewrite Hst. lia.
  - done.
  - destruct Hr as (_ & -> & _). rewrite !countb_app. lia.
  - destruct Hr as (-> & _). rewrite !countb_app. lia.
  - destruct Hr as [-> ->]. rewrite !app_nil_r. lia.
Qed.

Lemma scan_end_waiting now pre m' :
  Forall contacted pre -> m' = expire now <$> pre -> Forall contacted m'.
Proof.
  intros Hc ->. apply Forall_fmap. eapply Forall_impl; [exact Hc|]. intros e. apply expire_contacted.
Qed.

(** The query after the loop, whatever its progress is set to. *)
Lemma scan_step_base now cnt q pre rest m' nw' r pr :
  base_inv q -> progress q <> Finished -> closest_peers q = pre ++ rest ->
  scan_result now (config q) (at_capacity q) cnt pre rest m' r ->
  nw' + countb is_waiting (closest_peers q) = num_waiting q + countb is_waiting m' ->
  step_base q (mkQuery (target_key q) pr m' nw' (config q)).
Proof.
  intros Hinv Epr Hm Hr Hw.
  pose proof (scan_result_moves _ _ _ _ _ _ _ _ Hr) as Hmoves. rewrite <-Hm in Hmoves.
  destruct (moves_all (target_key q) _ _ Hmoves (inv_sorted q Hinv) (inv_peers q Hinv)) as (Hs & Hp & He).
  pose proof (inv_waiting q Hinv) as Hq.
  split_and!; [|done..]. constructor; simpl; [done|done|lia|].
  pose proof (inv_parallel q Hinv). rewrite Hm in Hq, Hw.
  pose proof (scan_waiting_count _ _ _ _ _ _ _ _ Hr) as [Hle|[Hle Hcap]]; [lia|].
  unfold at_capacity in Hcap. destruct (progress q); [| |done]; apply bool_decide_eq_false in Hcap; lia.
Qed.

Lemma next_ok now q :
  query_inv q -> exists q' st, next now q = Ret (q', st) /\ step_ok q q' /\ next_answer now q q' st.
Proof.
  intros [Hinv Hfin0]. unfold next. destruct (decide (progress q = Finished)) as [Epr|Epr].
  { rewrite Epr. eexists _, _. split; [done|]. split; [by split; [apply step_base_refl|]|]. split; [done|auto]. }
  assert (forall A (x y : A), match progress q with Finished => x | _ => y end = y) as ->
    by (intros; by destruct (progress q)).
  destruct (scan_spec now (config q) (at_capacity q) (Some 0) (num_waiting q) (closest_peers q))
    as (pre & rest & m' & nw' & r & -> & Hm & Hc & Hr & Hw); [by rewrite (inv_waiting q Hinv)|]. simpl.
  assert (nw' = countb is_waiting m') as Hnw by (pose proof (inv_waiting q Hinv); lia).
  assert (forall pr, (pr = Finished -> finished_peers (mkQuery (target_key q) pr m' nw' (config q))) ->
    step_ok q (mkQuery (target_key q) pr m' nw' (config q))) as Hstep.
  { intros pr Hfin. split; [|done]. by eapply scan_step_base. }
  destruct r as [[[n|]| |]|].
  - eexists _, _. split; [done|]. split; [by apply Hstep|]. unfold next_answer.
    rewrite Hm. by apply (scan_waiting now (config q) (at_capacity q) (Some 0) pre rest).
  - done.
  - eexists _, _. split; [done|]. split; [by apply Hstep|]. apply Hr.
  - apply scan_finished in Hr as (pre' & rest' & -> & Hset & Hcnt).
    eexists _, _. split; [done|]. split; [apply Hstep; intros _|split; [done|]]; exists pre', rest'; auto.
  - destruct Hr as [-> Hm']. pose proof (scan_end_waiting now pre m' Hc Hm') as Hcon. case_decide as Hpos.
    + eexists _, _. split; [done|]. split; [by apply Hstep|done].
    + assert (finished_peers (mkQuery (target_key q) Finished m' nw' (config q))) as Hfin.
      { exists m', []. split_and!; [by rewrite app_nil_r| |auto]. apply settled_all; [done|lia]. }
      eexists _, _. split; [done|]. split; [by apply Hstep|done].
Qed.

Lemma step_ok_inv q q' : step_ok q q' -> query_inv q'.
Proof. intros [(Hb & _) Hf]. by split. Qed.

Lemma on_success_ok q n ps : query_inv q -> exists q', on_success q n ps = Ret q' /\ step_ok q q'.
Proof.
  intros [Hinv Hfin]. destruct (on_success_base q n ps Hinv) as (q' & Hq & Hs & Hf).
  exists q'. split; [done|]. split; [done|]. intros Hp. rewrite (Hf Hp) in Hp |- *. auto.
Qed.

Lemma on_failure_ok q n : query_inv q -> exists q', on_failure q n = Ret q' /\ step_ok q q'.
Proof.
  intros [Hinv Hfin]. destruct (on_failure_base q n Hinv) as (q' & Hq & Hs & Hf).
  exists q'. split; [done|]. split; [done|]. intros Hp. rewrite (Hf Hp) in Hp |- *. auto.
Qed.

Lemma step_ok_refl q : query_inv q -> step_ok q q.
Proof. intros [Hinv Hfin]. by split; [apply step_base_refl|]. Qed.
End Inv.
