(* ===== verification/FindNodeTrace.v ===== *)
(** * Histories of the FINDNODE query *)

From Stdlib Require Import Sorting.Sorted.
From S2P Require Import Prelude Bytes Key BTree FindNode FindNodeProofs.
Import BTree FindNode.

Module FindNodeTrace.

(** The calls the pool makes on a query. *)
Inductive query_op (N : Type) :=
  | OpSuccess (n : N) (closer_peers : list N)
  | OpFailure (n : N)
  | OpNext (now : Z).
Arguments OpSuccess {N} n closer_peers.
Arguments OpFailure {N} n.
Arguments OpNext {N} now.

Section Trace.
Context {N : Type} `{IntoKeyLaw N}.
Implicit Types (q : FindNodeQuery N) (n : N).

Definition run_op q (op : query_op N) : outcome (FindNodeQuery N * option (QueryState N)) :=
  match op with
  | OpSuccess n ps => q ← on_success q n ps; Ret (q, None)
  | OpFailure n => q ← on_failure q n; Ret (q, None)
  | OpNext now => '(q, st) ← next now q; Ret (q, Some st)
  end.

(** The query after the calls, and the peers it asked to contact, in order. *)
Fixpoint run_query q (tr : list (query_op N)) : outcome (FindNodeQuery N * list N) :=
  match tr with
  | [] => Ret (q, [])
  | op :: tr =>
      '(q, o) ← run_op q op;
      '(q, ps) ← run_query q tr;
      Ret (q, match o with Some (QWaiting (Some n)) => n :: ps | _ => ps end)
  end.

(** The peers known to a query when it starts are keyed by their node ids. *)
Definition known_ok (known : list (Key N)) : Prop :=
  Forall (fun k => k = into_key (Key.preimage k)) known.

Lemma with_config_inv cfg target known : known_ok known -> query_inv (with_config cfg target known).
Proof.
  intros Hk. unfold with_config. set (l := _ <$> known).
  assert (forall d p, (d, p) ∈ collect (take (num_results cfg) l) ->
    exists k, k ∈ known /\ d = Key.distance k target /\ p = peer_new k NotContacted) as Hel.
  { intros d p Hin%collect_elem. apply elem_of_take in Hin as (i & Hi & _).
    unfold l in Hi. apply list_lookup_fmap_Some in Hi as (k & [= -> ->] & Hi).
    exists k. split; [by eapply list_elem_of_lookup_2|done]. }
  split; [|done]. constructor; cbn [closest_peers target_key num_waiting config progress]; [apply sorted_collect|..|lia].
  - intros d p Hin. destruct (Hel d p Hin) as (k & Hkk & -> & ->). split; [done|].
    unfold known_ok in Hk. rewrite Forall_forall in Hk. by apply Hk.
  - symmetry. apply countb_Forall_false, Forall_forall. intros [d p] Hin.
    destruct (Hel d p Hin) as (k & _ & -> & ->). done.
Qed.

(** The peers [ps] have been contacted. *)
Definition history q (ps : list N) : Prop :=
  forall n, n ∈ ps -> exists p, (Key.distance (into_key n) (target_key q), p) ∈ closest_peers q /\
    state p <> NotContacted.

Lemma history_step q q' ps : step_base q q' -> history q ps -> history q' ps.
Proof.
  intros (_ & Ht & _ & He) Hh n Hn. destruct (Hh n Hn) as (p & Hp & Hc).
  destruct (He _ p Hp) as (p' & Hp' & _ & Hc' & _). exists p'. rewrite Ht. auto.
Qed.

(** Between [q] and [q'] the peer [n] was contacted. *)
Definition contacts q q' n : Prop :=
  exists p p', (Key.distance (into_key n) (target_key q), p) ∈ closest_peers q /\ state p = NotContacted /\
    (Key.distance (into_key n) (target_key q), p') ∈ closest_peers q' /\ state p' <> NotContacted.

(** Sequences of steps, with the peers contacted on the way. *)
Inductive evolution : FindNodeQuery N -> list N -> FindNodeQuery N -> Prop :=
  | evolution_refl q : base_inv q -> evolution q [] q
  | evolution_silent q q1 q' ps : step_base q q1 -> evolution q1 ps q' -> evolution q ps q'
  | evolution_contact q q1 q' n ps :
      base_inv q -> step_base q q1 -> contacts q q1 n -> evolution q1 ps q' -> evolution q (n :: ps) q'.

Lemma evolution_step_base q ps q' : evolution q ps q' -> step_base q q'.
Proof.
  induction 1 as [q Hinv|q q1 q' ps (_ & Ht1 & Hc1 & He1) _ (Hinv2 & Ht2 & Hc2 & He2)
    |q q1 q' n ps Hinv (_ & Ht1 & Hc1 & He1) _ _ (Hinv2 & Ht2 & Hc2 & He2)].
  - by apply step_base_refl.
  - split_and!; [done|congruence|congruence|by etransitivity].
  - split_and!; [done|congruence|congruence|by etransitivity].
Qed.

(** No peer is contacted that has been contacted before. *)
Lemma evolution_once q ps q' :
  evolution q ps q' -> NoDup ps /\
    forall n, n ∈ ps -> ~ exists p, (Key.distance (into_key n) (target_key q), p) ∈ closest_peers q /\
                                    state p <> NotContacted.
Proof.
  assert (forall q q1 n, step_base q q1 ->
    (exists p, (Key.distance (into_key n) (target_key q), p) ∈ closest_peers q /\ state p <> NotContacted) ->
    exists p, (Key.distance (into_key n) (target_key q1), p) ∈ closest_peers q1 /\ state p <> NotContacted) as Hmono.
  { intros q0 q1 n Hs Hp. apply (history_step q0 q1 [n] Hs); [|set_solver].
    by intros n' ->%list_elem_of_singleton. }
  induction 1 as [q Hinv|q q1 q' ps Hs _ [Hnd Hnew]|q q1 q' n ps Hinv Hs Hn _ [Hnd Hnew]].
  - split; [constructor|set_solver].
  - split; [done|]. intros n Hn Hp. apply (Hnew n Hn). by eapply Hmono.
  - destruct Hn as (p & p' & Hp & Hst & Hp' & Hst'). pose proof Hs as (_ & Ht & _). split.
    + constructor; [|done]. intros Hn. apply (Hnew n Hn). exists p'. by rewrite Ht.
    + intros n' [->|Hn']%elem_of_cons.
      * intros (p2 & Hp2 & Hc2). apply (get_elem _ _ _ (inv_sorted q Hinv)) in Hp, Hp2. congruence.
      * intros Hp2. apply (Hnew n' Hn'). by eapply Hmono.
Qed.

Lemma run_qop_ok q op :
  query_inv q -> exists q' o, run_op q op = Ret (q', o) /\ step_ok q q' /\
  forall n, o = Some (QWaiting (Some n)) -> contacts q q' n.
Proof.
  intros Hinv. destruct op as [n ps|n|now]; simpl.
  - destruct (on_success_ok q n ps Hinv) as (q' & -> & Hs). by eexists _, _.
  - destruct (on_failure_ok q n Hinv) as (q' & -> & Hs). by eexists _, _.
  - destruct (next_ok now q Hinv) as (q' & st & -> & Hs & Ha). eexists _, _. split; [done|]. split; [done|].
    intros n [= ->]. destruct Ha as (_ & (d & p & Hp & -> & Hst & Hp') & _). unfold contacts.
    destruct (inv_peers q (proj1 Hinv) d p Hp) as [Hd Hk]. rewrite <-Hk, <-Hd. eauto 10.
Qed.

Lemma run_query_ok q tr :
  query_inv q -> exists q' ps, run_query q tr = Ret (q', ps) /\ evolution q ps q' /\ query_inv q'.
Proof.
  revert q; induction tr as [|op tr IH]; intros q Hinv; simpl.
  { exists q, []. split_and!; [done|apply evolution_refl, Hinv|done]. }
  destruct (run_qop_ok q op Hinv) as (q1 & o & -> & Hs1 & Ho). simpl.
  destruct (IH q1 (step_ok_inv _ _ Hs1)) as (q2 & ps & -> & Hev & Hinv2). simpl.
  eexists _, _. split; [done|]. split; [|done]. destruct Hs1 as [Hs1 _].
  destruct o as [[[n|]| |]|]; try (by eapply evolution_silent).
  eapply evolution_contact; [apply Hinv|done|by apply Ho|done].
Qed.
End Trace.
End FindNodeTrace.

Import FindNodeTrace.

(** C17: Every history of calls on a new FINDNODE query returns: [num_waiting]
    never underflows and is the number of peers in the state [Waiting], at most
    [max(parallelism, num_results)]; peers stay ordered by distance and stored
    under their own keys; no peer is ever asked to be contacted twice; and when
    the query is finished, every peer up to the last counted result has settled. *)
Theorem findnode_reachable {N} `{IntoKeyLaw N} (cfg : FindNodeQueryConfig) (target : Key N)
    (known : list (Key N)) (tr : list (query_op N)) :
  known_ok known ->
  exists q ps, run_query (with_config cfg target known) tr = Ret (q, ps) /\ NoDup ps /\
    sorted (closest_peers q) /\ peers_ok target (closest_peers q) /\
    num_waiting q = countb is_waiting (closest_peers q) /\
    num_waiting q <= Nat.max (parallelism cfg) (num_results cfg) /\
    (progress q = Finished -> finished_peers q).
Proof.
  intros Hk. destruct (run_query_ok _ tr (with_config_inv cfg target known Hk))
    as (q & ps & Hrun & Hev & [[Hs Hp Hw Hpar] Hfin]).
  destruct (evolution_once _ _ _ Hev) as [Hnd _]. destruct (evolution_step_base _ _ _ Hev) as (_ & Ht & Hc & _).
  exists q, ps. rewrite Hc in Hpar. rewrite Ht in Hp. by split_and!.
Qed.

Definition sample_config : FindNodeQueryConfig := mkConfig 3 16 10.

Lemma findnode_reachable_witness :
  known_ok [Key.from_node_id (sample_id 1); Key.from_node_id (sample_id 2)] /\
  exists q ps, run_query (with_config sample_config (Key.from_node_id (sample_id 0))
      [Key.from_node_id (sample_id 1); Key.from_node_id (sample_id 2)])
      [OpNext 0; OpNext 0; OpSuccess (sample_id 1) [sample_id 3]; OpNext 1; OpFailure (sample_id 2)] =
    Ret (q, ps) /\ NoDup ps.
Proof.
  assert (known_ok [Key.from_node_id (sample_id 1); Key.from_node_id (sample_id 2)]) as Hk
    by by repeat constructor.
  split; [exact Hk|].
  destruct (findnode_reachable sample_config (Key.from_node_id (sample_id 0)) _
    [OpNext 0; OpNext 0; OpSuccess (sample_id 1) [sample_id 3]; OpNext 1; OpFailure (sample_id 2)] Hk)
    as (q & ps & Hrun & Hnd & _). by exists q, ps.
Defined.

(** One call of [next] on a query with the invariant.  A peer is handed
    out only below capacity, it was not contacted before, every closer peer has
    been, and it is now waited for; [Waiting(None)] means that every known peer
    has been contacted and some are waited for; [WaitingAtCapacity] means the
    limit was reached; [Finished] means that up to the counted results, or up
    to the end, all peers have settled.  No peer is lost and final states stay. *)
Theorem findnode_next_spec {N} `{IntoKeyLaw N} (now : Z) (q : FindNodeQuery N) :
  query_inv q ->
  exists q' st, next now q = Ret (q', st) /\ query_inv q' /\
    evolves (closest_peers q) (closest_peers q') /\ next_answer now q q' st.
Proof.
  intros Hinv. destruct (next_ok now q Hinv) as (q' & st & Hn & Hs & Ha).
  exists q', st. split_and!; [done|by eapply step_ok_inv|by destruct Hs as [(_ & _ & _ & He) _]|done].
Qed.

Lemma findnode_next_spec_witness :
  exists q' st, next 0 (with_config sample_config (Key.from_node_id (sample_id 0))
      [Key.from_node_id (sample_id 2); Key.from_node_id (sample_id 1)]) = Ret (q', st) /\ query_inv q' /\
    st = QWaiting (Some (sample_id 1)).
Proof.
  destruct (findnode_next_spec 0 (with_config sample_config (Key.from_node_id (sample_id 0))
      [Key.from_node_id (sample_id 2); Key.from_node_id (sample_id 1)]))
    as (q' & st & Hn & Hinv & _); [by apply with_config_inv; repeat constructor|].
  exists q', st. split_and!; [exact Hn|exact Hinv|]. vm_compute in Hn. by injection Hn as _ <-.
Defined.

(** ** The result *)

Section Result.
Context {N : Type} `{IntoKeyLaw N}.
Implicit Types (q : FindNodeQuery N) (m : BTreeMap (QueryPeer N)).

(** The node ids of the peers that delivered a result, closest first. *)
Definition results m : list N :=
  omap (fun '(_, p) => if is_succeeded p then Some (Key.into_preimage (key p)) else None) m.

Lemma results_app m1 m2 : results (m1 ++ m2) = results m1 ++ results m2.
Proof. apply omap_app. Qed.

Lemma results_length m : length (results m) = countb succeeded m.
Proof.
  unfold results. induction m as [|[d p] m IH]; csimpl; [done|].
  unfold succeeded at 1. simpl. destruct (is_succeeded p); simpl; by rewrite IH.
Qed.

Lemma elem_of_results m n :
  n ∈ results m <-> exists d p, (d, p) ∈ m /\ state p = Succeeded /\ n = Key.preimage (key p).
Proof.
  unfold results. rewrite list_elem_of_omap. split.
  - intros ([d p] & Hin & Hp). unfold is_succeeded in Hp. destruct (state p) eqn:Es; simplify_eq. eauto 10.
  - intros (d & p & Hin & Hst & ->). exists (d, p). split; [done|]. unfold is_succeeded. by rewrite Hst.
Qed.

Lemma results_sorted target m :
  sorted m -> peers_ok target m ->
  StronglySorted (fun a b => Key.distance (into_key a) target < Key.distance (into_key b) target)%Z (results m).
Proof.
  induction m as [|[d p] m IH]; intros Hs Hp; [constructor|].
  apply sorted_cons in Hs as [Hs Hd]. assert (peers_ok target m) as Hp' by (intros ???; apply Hp; set_solver).
  specialize (IH Hs Hp'). unfold results. csimpl. destruct (is_succeeded p); [|exact IH].
  constructor; [exact IH|]. apply Forall_forall. intros n (d' & p' & Hin & _ & ->)%elem_of_results.
  destruct (Hp d p) as [Hdp Hkp]; [by left|]. destruct (Hp' d' p' Hin) as [Hdp' Hkp'].
  unfold Key.into_preimage. rewrite <-Hkp, <-Hkp', <-Hdp, <-Hdp'.
  rewrite Forall_forall in Hd. apply Hd, elem_of_keys. eauto.
Qed.
(** The result of a finished query comes from its settled peers. *)
Lemma into_result_finished q :
  query_inv q -> progress q = Finished -> exists pre rest,
    closest_peers q = pre ++ rest /\ Forall settled pre /\
    take (num_results (config q)) (results (closest_peers q)) = take (num_results (config q)) (results pre) /\
    (rest = [] \/ num_results (config q) <= length (results pre)).
Proof.
  intros Hinv Hf. destruct (proj2 Hinv Hf) as (pre & rest & Hm & Hs & Hc).
  exists pre, rest. rewrite Hm, results_app, results_length. split_and!; [done|done|..].
  - destruct Hc as [->|Hc]; [by rewrite app_nil_r|]. rewrite take_app_le; [done|].
    rewrite results_length. lia.
  - destruct Hc; [by left|right; lia].
Qed.

(** Where a node of a finished query is. *)
Lemma finished_places q d p :
  query_inv q -> progress q = Finished -> (d, p) ∈ closest_peers q ->
  Key.preimage (key p) ∈ into_result q \/ state p = Failed \/ state p = Unresponsive \/
  (length (into_result q) = num_results (config q) /\
   forall r, r ∈ into_result q -> (Key.distance (into_key r) (target_key q) < d)%Z).
Proof.
  intros Hinv Hfin Hin. destruct (into_result_finished q Hinv Hfin) as (pre & rest & Hm & Hset & Hres & Hlen).
  change (into_result q) with (take (num_results (config q)) (results (closest_peers q))). rewrite Hres.
  pose proof (inv_sorted q (proj1 Hinv)) as Hs. pose proof (inv_peers q (proj1 Hinv)) as Hpo.
  assert (forall r, r ∈ results pre -> exists d', (exists p', (d', p') ∈ pre) /\ Key.distance (into_key r) (target_key q) = d') as Hd.
  { intros r (d' & p' & Hp' & _ & ->)%elem_of_results. exists d'. split; [by exists p'|].
    destruct (Hpo d' p') as [-> Hk]; [rewrite Hm; set_solver|]. by rewrite <-Hk. }
  rewrite Hm, elem_of_app in Hin. destruct Hin as [Hin|Hin].
  - rewrite Forall_forall in Hset. specialize (Hset _ Hin). unfold settled in Hset. simpl in Hset.
    destruct (state p) eqn:Es; try done; [auto|auto|].
    apply list_elem_of_split in Hin as (pre1 & pre2 & ->).
    assert (results (pre1 ++ (d, p) :: pre2) = results pre1 ++ Key.preimage (key p) :: results pre2) as Hr.
    { rewrite results_app. f_equal. unfold results. csimpl. unfold is_succeeded. by rewrite Es. }
    rewrite Hr in *. destruct (decide (length (results pre1) < num_results (config q))) as [Hlt|Hge].
    + left. apply elem_of_take. exists (length (results pre1)). split; [|done]. by apply list_lookup_middle.
    + right. right. right. rewrite take_app_le by lia. split; [rewrite length_take; lia|].
      intros r (i & Hi%list_elem_of_lookup_2 & _)%elem_of_take. apply elem_of_results in Hi as (d' & p' & Hp' & _ & ->).
      destruct (Hpo d' p') as [Hd' Hk]; [rewrite Hm; set_solver|]. rewrite <-Hk, <-Hd'.
      rewrite Hm, <-app_assoc in Hs. unfold sorted, keys in Hs. rewrite fmap_app in Hs.
      eapply (StronglySorted_app_1_elem_of Z.lt); [exact Hs|apply list_elem_of_fmap; by exists (d', p')|].
      apply list_elem_of_fmap. exists (d, p). split; [done|]. simpl. by left.
  - destruct Hlen as [->|Hlen]; [by apply elem_of_nil in Hin|]. right. right. right. split; [rewrite length_take; lia|].
    intros r (i & Hi%list_elem_of_lookup_2 & _)%elem_of_take. destruct (Hd r Hi) as (d' & (p' & Hp') & ->).
    rewrite Hm in Hs. unfold sorted, keys in Hs. rewrite fmap_app in Hs.
    eapply (StronglySorted_app_1_elem_of Z.lt); [exact Hs|apply list_elem_of_fmap; by exists (d', p')|apply list_elem_of_fmap; by exists (d, p)].
Qed.
End Result.

Lemma StronglySorted_take {A} (R : A -> A -> Prop) n l : StronglySorted R l -> StronglySorted R (take n l).
Proof.
  intros Hs. revert n; induction Hs as [|x l Hs IH Hx]; intros [|n]; simpl; try constructor; [done|].
  by apply Forall_take.
Qed.

(** The result of a query has at most [num_results] node ids, strictly
    ordered by distance to the target, each of a peer that delivered a result.
    When the query is finished, the result is complete: with fewer than
    [num_results] ids every known peer has settled, and otherwise every known
    peer that is closer than the last id has settled. *)
Theorem findnode_into_result {N} `{IntoKeyLaw N} (q : FindNodeQuery N) :
  query_inv q ->
  length (into_result q) <= num_results (config q) /\
  StronglySorted (fun a b => Key.distance (into_key a) (target_key q) <
                             Key.distance (into_key b) (target_key q))%Z (into_result q) /\
  (forall n, n ∈ into_result q -> exists d p, (d, p) ∈ closest_peers q /\ state p = Succeeded /\
     n = Key.preimage (key p)) /\
  (progress q = Finished -> exists pre rest,
     closest_peers q = pre ++ rest /\ Forall settled pre /\
     into_result q = take (num_results (config q)) (results pre) /\
     (rest = [] \/ num_results (config q) <= length (results pre))).
Proof.
  intros Hinv. change (into_result q) with (take (num_results (config q)) (results (closest_peers q))).
  split_and!.
  - rewrite length_take. lia.
  - apply StronglySorted_take, results_sorted; apply (proj1 Hinv).
  - intros n (i & Hi%list_elem_of_lookup_2 & _)%elem_of_take. by apply elem_of_results.
  - apply into_result_finished, Hinv.
Qed.

Lemma findnode_into_result_witness :
  query_inv (with_config sample_config (Key.from_node_id (sample_id 0)) [Key.from_node_id (sample_id 2)]) /\
  length (into_result (with_config sample_config (Key.from_node_id (sample_id 0))
    [Key.from_node_id (sample_id 2)])) <= 16.
Proof.
  assert (query_inv (with_config sample_config (Key.from_node_id (sample_id 0))
    [Key.from_node_id (sample_id 2)])) as Hinv by by apply with_config_inv; repeat constructor.
  split; [exact Hinv|]. exact (proj1 (findnode_into_result _ Hinv)).
Defined.

(** ** Where the query departs from its documentation *)

(** The timeout of a peer is only looked at when the loop of [next] gets
    to the peer.  When the closest peer has not been contacted and the query is
    at capacity, [next] answers [WaitingAtCapacity] and changes nothing,
    however much time has passed since the peers waited for were contacted. *)
Theorem findnode_timeouts_blocked {N} `{IntoKey N} (q : FindNodeQuery N) d p m :
  closest_peers q = (d, p) :: m -> state p = NotContacted ->
  at_capacity q = true -> progress q <> Finished ->
  forall now, next now q = Ret (q, QWaitingAtCapacity).
Proof.
  intros Hm Hst Hcap Hpr now. unfold next. rewrite Hcap, Hm. simpl. rewrite Hst. simpl.
  destruct q as [t pr cp nw cfg]. simpl in *. subst cp. by destruct pr.
Qed.

(** With two requests at a time: peers 8 and 9 are contacted and expire, 10 and
    11 are contacted, and the late answer of 9 brings the closer peer 1. *)
Definition sample_blocked : outcome (FindNodeQuery NodeId * list NodeId) :=
  run_query (with_config (mkConfig 2 4 10) (Key.from_node_id (sample_id 0))
      (Key.from_node_id ∘ sample_id <$> [8; 9; 10; 11]%Z))
    [OpNext 0; OpNext 0; OpNext 10; OpNext 10; OpNext 10; OpNext 10; OpSuccess (sample_id 9) [sample_id 1]].

Lemma findnode_timeouts_blocked_witness :
  exists q ps d p m, sample_blocked = Ret (q, ps) /\ closest_peers q = (d, p) :: m /\
    num_waiting q = 2 /\ forall now, next now q = Ret (q, QWaitingAtCapacity).
Proof.
  destruct sample_blocked as [[q ps]|] eqn:Es; [|by vm_compute in Es].
  pose proof Es as Es'. vm_compute in Es'. injection Es' as <- <-. eexists _, _, _, _, _.
  split_and!; [exact Es|reflexivity|reflexivity|].
  eapply findnode_timeouts_blocked; [reflexivity|reflexivity|reflexivity|done].
Defined.

(** [next] tests the capacity once, before it expires peers: when the
    last peers waited for time out, it can answer [WaitingAtCapacity] with
    nothing waited for and peers left to contact. *)
Theorem findnode_capacity_stale :
  exists q ps q', run_query (with_config (mkConfig 1 16 10) (Key.from_node_id (sample_id 0))
      [Key.from_node_id (sample_id 1); Key.from_node_id (sample_id 2)]) [OpNext 0] = Ret (q, ps) /\
    next 10 q = Ret (q', QWaitingAtCapacity) /\ num_waiting q' = 0 /\ at_capacity q' = false.
Proof.
  destruct (run_query _ [OpNext 0]) as [[q ps]|] eqn:Eq; [|by vm_compute in Eq].
  pose proof Eq as Eq'. vm_compute in Eq'. injection Eq' as <- <-.
  eexists _, _, _. split; [exact Eq|]. split; [vm_compute; reflexivity|]. split; reflexivity.
Qed.

(** [on_success] overwrites the progress flag for each reported peer, so
    only the last one counts: with [num_results] peers known, a report that
    contains a closer peer but ends in a farther one is counted as no progress,
    while the same report in the other order resets the counter. *)
Theorem findnode_progress_last_peer :
  exists q ps qa qb, run_query (with_config (mkConfig 3 2 10) (Key.from_node_id (sample_id 0))
      [Key.from_node_id (sample_id 8); Key.from_node_id (sample_id 9)]) [OpNext 0] = Ret (q, ps) /\
    on_success q (sample_id 8) [sample_id 1; sample_id 20] = Ret qa /\ progress qa = Iterating 1 /\
    on_success q (sample_id 8) [sample_id 20; sample_id 1] = Ret qb /\ progress qb = Iterating 0 /\
    keys (closest_peers qa) = keys (closest_peers qb).
Proof.
  destruct (run_query _ [OpNext 0]) as [[q ps]|] eqn:Eq; [|by vm_compute in Eq].
  pose proof Eq as Eq'. vm_compute in Eq'. injection Eq' as <- <-.
  eexists _, _, _, _. split; [exact Eq|]. split; [vm_compute; reflexivity|]. split; [reflexivity|].
  split; [vm_compute; reflexivity|]. split; reflexivity.
Qed.
