(* ===== verification/QueryTests.v ===== *)
(** * The unit tests of the FINDNODE query (src/src/query_pool/peers/closest.rs, [mod tests])

    The generated query and the draws of the random number generator are
    arguments.  Three of the four properties hold for every generated query; the
    simulated lookup, which expects random ids to be new, is evaluated. *)

From Stdlib Require Import Sorting.Sorted.
From S2P Require Import Prelude Bytes Key BTree FindNode FindNodeProofs FindNodeTrace Testing.
Import BTree FindNode FindNodeTrace.

Module QueryTests.

Notation TestQuery := (FindNodeQuery NodeId).

#[export] Instance QueryState_eq_dec : EqDecision (QueryState NodeId).
Proof. solve_decision. Defined.

(** What [random_query] draws. *)
Record Generated := mkGenerated {
  known : list NodeId;
  target : NodeId;
  gen_parallelism : nat;
  gen_num_results : nat;
  gen_timeout : Z;
}.

(** The ranges of the draws; the upper bounds of [gen_range] are exclusive. *)
Definition in_range (g : Generated) : Prop :=
  1 <= length (known g) < 60 /\ 1 <= gen_parallelism g < 10 /\ 1 <= gen_num_results g < 25 /\ (10 <= gen_timeout g < 30)%Z.

Definition SECOND : Z := 1000000000.

Definition random_query (g : Generated) : TestQuery :=
  let known_closest_peers := Key.from_node_id <$> known g in
  let config := mkConfig (gen_parallelism g) (gen_num_results g) (gen_timeout g * SECOND) in
  with_config config (Key.from_node_id (target g)) known_closest_peers.

(** [peers.windows(2).all(|w| w[0].distance(target) < w[1].distance(target))]. *)
Fixpoint sorted (target : Key.Key NodeId) (peers : list (Key.Key NodeId)) : bool :=
  match peers with
  | a :: (b :: _) as l => bool_decide (Key.distance a target < Key.distance b target)%Z && sorted target l
  | _ => true
  end.

Definition peer_keys (q : TestQuery) : list (Key.Key NodeId) := (fun e => key e.2) <$> closest_peers q.

Definition new_query (g : Generated) : outcome unit :=
  let query := random_query g in
  let target := target_key query in
  let keys := peer_keys query in
  let states := (fun e => state e.2) <$> closest_peers query in
  let none_contacted := forallb (fun s => match s with NotContacted => true | _ => false end) states in
  _ ← assert none_contacted;
  _ ← assert (sorted target keys);
  _ ← assert_eq (num_waiting query) 0;
  assert (bool_decide (into_result query = [])).

(** ** A simulated lookup *)
Section Simulation.
Variables (random : nat -> NodeId) (gen_bool : nat -> bool) (gen_range : nat -> nat -> nat) (now : Z).

(** [for k in expected.iter() { match query.next(now) {..} }]; [true] is [break 'finished]. *)
Fixpoint advance (expected : list (Key.Key NodeId)) (query : TestQuery) : outcome (TestQuery * bool) :=
  match expected with
  | [] => Ret (query, false)
  | k :: expected =>
      '(query, s) ← next now query;
      match s with
      | QFinished => Ret (query, true)
      | QWaiting (Some p) => _ ← assert_eq p (Key.preimage k); advance expected query
      | QWaiting None => Panic
      | QWaitingAtCapacity => Panic
      end
  end.

(** The results reported for the peers: the query, the remaining peers, the
    failures and the number of draws. *)
Fixpoint report (num_waiting_before i : nat) (expected : list (Key.Key NodeId)) (st : TestQuery * list (Key.Key NodeId) * nat * nat)
    : outcome (TestQuery * list (Key.Key NodeId) * nat * nat) :=
  match expected with
  | [] => Ret st
  | k :: expected =>
      let '(query, remaining, num_failures, draws) := st in
      '(query, remaining, num_failures, draws) ←
        (if gen_bool draws then
           let num_closer := gen_range draws (num_results (config query) + 1) in
           let closer_peers := (fun j => random (draws + 1 + j)) <$> seq 0 num_closer in
           let remaining := remaining ++ (Key.from_node_id <$> closer_peers) in
           query ← on_success query (Key.preimage k) closer_peers;
           Ret (query, remaining, num_failures, draws + 1 + num_closer)
         else
           query ← on_failure query (Key.preimage k);
           Ret (query, remaining, num_failures + 1, draws + 1));
      expected_waiting ← unwrap (checked_sub num_waiting_before (i + 1));
      _ ← assert_eq (num_waiting query) expected_waiting;
      report num_waiting_before (i + 1) expected (query, remaining, num_failures, draws)
  end.

(** [sort_by_key(|k| target.distance(k))]. *)
Definition nearer (target : Key.Key NodeId) (a b : Key.Key NodeId) : Prop := (Key.distance target a <= Key.distance target b)%Z.

#[export] Instance nearer_dec target : RelDecision (nearer target).
Proof. intros a b. unfold nearer. apply _. Defined.

(** The loop ['finished]; [None] when the fuel does not suffice. *)
Fixpoint rounds (fuel max_parallelism : nat) (target : Key.Key NodeId) (expected : list (Key.Key NodeId)) (query : TestQuery)
    (num_failures draws : nat) : outcome (option (TestQuery * nat)) :=
  match fuel with
  | 0 => Ret None
  | S fuel =>
      if decide (expected = []) then Ret (Some (query, num_failures))
      else
        let '(expected, remaining) :=
          if decide (length expected < max_parallelism) then (expected, [])
          else (take max_parallelism expected, drop max_parallelism expected) in
        '(query, finished) ← advance expected query;
        if finished : bool then Ret (Some (query, num_failures))
        else
          let nw := num_waiting query in
          _ ← assert_eq nw (length expected);
          '(query, s) ← (if at_capacity query then
                           '(query, s) ← next now query;
                           _ ← assert_eq s QWaitingAtCapacity;
                           Ret (query, ())
                         else Ret (query, ()));
          '(query, remaining, num_failures, draws) ← report nw 0 expected (query, remaining, num_failures, draws);
          rounds fuel max_parallelism target (merge_sort (nearer target) remaining) query num_failures draws
  end.

Definition termination_and_parallelism (fuel : nat) (query : TestQuery) : outcome (option unit) :=
  let expected := peer_keys query in
  let num_known := length expected in
  let max_parallelism := Nat.min (parallelism (config query)) num_known in
  let target := target_key query in
  ended ← rounds fuel max_parallelism target expected query 0 0;
  match ended with
  | None => Ret None
  | Some (query, num_failures) =>
      '(query, s) ← next now query;
      _ ← assert_eq s QFinished;
      _ ← assert_eq (progress query) Finished;
      let all_contacted := forallb (fun e => match state e.2 with NotContacted | Waiting _ => false | _ => true end) (closest_peers query) in
      let target_key := target_key query in
      let num_results := num_results (config query) in
      let closest := Key.from_node_id <$> into_result query in
      _ ← assert (sorted target_key closest);
      _ ← (if decide (length closest < num_results) then
             _ ← assert (bool_decide (num_known < num_results) || bool_decide (0 < num_failures));
             assert all_contacted
           else assert_eq num_results (length closest));
      Ret (Some ())
  end.
End Simulation.

(** ** Duplicates and timeouts *)

Definition no_duplicates (now : Z) (closer : NodeId) (query : TestQuery) : outcome bool :=
  '(query, s) ← next now query;
  peer1 ← (match s with QWaiting (Some p) => Ret p | _ => Panic end);
  query ← on_success query peer1 [closer];
  query ← on_success query peer1 [closer];
  '(query, s) ← next now query;
  query ← (match s with
           | QWaiting (Some p) => on_success query p [closer]
           | QFinished => Ret query
           | _ => Panic
           end);
  let n := countb (fun e => bool_decide (Key.preimage (key e.2) = closer)) (closest_peers query) in
  _ ← assert_eq n 1;
  Ret true.

Definition timeout (now : Z) (query : TestQuery) : outcome bool :=
  first ← unwrap (head (closest_peers query));
  let peer := Key.into_preimage (key first.2) in
  '(query, s) ← next now query;
  _ ← (match s with QWaiting (Some id) => assert_eq id peer | _ => Panic end);
  let now := (now + peer_timeout (config query))%Z in
  '(query, _) ← next now query;
  first ← unwrap (head (closest_peers query));
  _ ← (match state first.2 with Unresponsive => assert_eq (Key.preimage (key first.2)) peer | _ => Panic end);
  let finished := bool_decide (progress query = Finished) in
  query ← on_success query peer [];
  let closest := into_result query in
  _ ← (if finished : bool then assert_eq [] closest else assert_eq [peer] closest);
  Ret true.

(** ** At sample draws *)

(** Ids from a multiplicative generator, all different below 65536. *)
Definition scattered_ids (n : nat) : NodeId :=
  let z := ((Z.of_nat n + 1) * 40503 mod 65536)%Z in
  vinsert 0%fin (byte_of_Z (z / 256)) (vinsert 1%fin (byte_of_Z z) (vreplicate 32 x00)).

Definition sample_generated (n p r : nat) : Generated :=
  mkGenerated ((fun i => scattered_ids (5000 + i)) <$> seq 0 n) (scattered_ids 4999) p r 10.

Definition sample_bool (k n : nat) : bool := negb (bool_decide ((n * 7 + k) mod 4 = 0)).
Definition sample_range (k n hi : nat) : nat := (n * 5 + k) mod hi.

Definition simulate (k n p r : nat) :=
  termination_and_parallelism scattered_ids (sample_bool k) (sample_range k) 0 100 (random_query (sample_generated n p r)).

(** ** The properties hold *)

Notation fresh := (Forall (fun e : Z * QueryPeer NodeId => state e.2 = NotContacted)).

Lemma known_keys g : known_ok (Key.from_node_id <$> known g).
Proof. apply Forall_fmap, Forall_forall. by intros n _. Qed.

Lemma random_query_inv g : query_inv (random_query g).
Proof. apply with_config_inv, known_keys. Qed.

Lemma random_query_fresh g : fresh (closest_peers (random_query g)).
Proof.
  apply Forall_forall. intros [d p] Hin%collect_elem. apply elem_of_take in Hin as (i & Hi & _).
  rewrite <-list_fmap_compose in Hi. by apply list_lookup_fmap_Some in Hi as (n & [= -> ->] & _).
Qed.

Lemma random_query_peers g : in_range g -> exists d p m, closest_peers (random_query g) = (d, p) :: m.
Proof.
  intros (Hk & _ & Hr & _). unfold random_query, with_config. cbn [closest_peers num_results].
  destruct (known g) as [|n l]; [simpl in Hk; lia|]. destruct (gen_num_results g) as [|r]; [lia|]. csimpl.
  set (l' := take r _). set (k := Key.distance _ _).
  assert (k ∈ keys (collect ((k, peer_new (Key.from_node_id n) NotContacted) :: l'))) as Hin.
  { unfold collect. simpl. generalize (peer_new (Key.from_node_id n) NotContacted).
    assert (forall m, k ∈ keys m -> k ∈ keys (fold_left (fun m '(k, v) => insert m k v) l' m)) as Hkeep.
    { clearbody k l'. induction l' as [|[k1 v1] l' IH]; intros m Hm; simpl; [done|]. apply IH, keys_insert. auto. }
    intros v. apply Hkeep. set_solver. }
  destruct (collect _) as [|[d p] m]; [by apply elem_of_nil in Hin|eauto].
Qed.

(** The map lists the keys by their distance. *)
Lemma keys_sorted target (m : BTreeMap (QueryPeer NodeId)) :
  BTree.sorted m -> peers_ok target m -> sorted target ((fun e => key e.2) <$> m) = true.
Proof.
  induction m as [|[d p] m IH]; intros Hs Hp; [done|]. apply sorted_cons in Hs as [Hs Hd].
  assert (peers_ok target m) as Hp' by (intros ???; apply Hp; by right). specialize (IH Hs Hp').
  destruct m as [|[d2 p2] m]; [done|]. csimpl. csimpl in IH. rewrite IH, andb_true_r. apply bool_decide_eq_true.
  destruct (Hp d p ltac:(by left)) as [<- _]. destruct (Hp' d2 p2 ltac:(by left)) as [<- _].
  rewrite Forall_forall in Hd. apply Hd. csimpl. by left.
Qed.

Lemma results_none (m : BTreeMap (QueryPeer NodeId)) : Forall (fun e => state e.2 <> Succeeded) m -> results m = [].
Proof.
  induction 1 as [|[d p] m Hp _ IH]; [done|]. unfold results in *. csimpl. unfold is_succeeded at 1. simpl in Hp. by destruct (state p).
Qed.

Lemma no_results (q : TestQuery) :
  Forall (fun e => state e.2 <> Succeeded) (closest_peers q) -> into_result q = [].
Proof. intros Hf%results_none. unfold into_result. fold (results (closest_peers q)). rewrite Hf. apply take_nil. Qed.

Lemma new_query_holds g : new_query g = Ret ().
Proof.
  pose proof (random_query_inv g) as [Hinv _]. pose proof (random_query_fresh g) as Hf. unfold new_query.
  assert (forallb (fun s => match s with NotContacted => true | _ => false end) ((fun e => state e.2) <$> closest_peers (random_query g)) = true) as ->.
  { apply forallb_forall. intros s (e & -> & He)%list_elem_of_In%list_elem_of_fmap. rewrite Forall_forall in Hf. by rewrite (Hf e He). }
  unfold peer_keys. rewrite keys_sorted by apply Hinv. cbn [assert mbind outcome_bind]. rewrite no_results; [done|].
  eapply Forall_impl; [exact Hf|]. intros e He. by rewrite He.
Qed.

(** The first poll of a generated query contacts the first peer. *)
Lemma first_poll g now d p m :
  in_range g -> closest_peers (random_query g) = (d, p) :: m ->
  let q := random_query g in
  next now q = Ret (mkQuery (target_key q) (Iterating 0) ((d, set_state p (Waiting (now + peer_timeout (config q)))) :: m) 1 (config q),
    QWaiting (Some (Key.preimage (key p)))).
Proof.
  intros (_ & Hp & _ & _) Hm q. unfold next. change (progress q) with (Iterating 0). change (closest_peers q) with (closest_peers (random_query g)).
  rewrite Hm. assert (at_capacity q = false) as ->.
  { unfold at_capacity. simpl. apply bool_decide_eq_false. lia. }
  pose proof (random_query_fresh g) as Hf. rewrite Hm in Hf. apply Forall_cons in Hf as [Hst _]. simpl in Hst. simpl. by rewrite Hst.
Qed.

(** The map without the first peer. *)
Lemma random_query_rest g d p m :
  closest_peers (random_query g) = (d, p) :: m -> fresh m /\ d ∉ keys m /\ state p = NotContacted /\
  d = Key.distance (into_key (Key.preimage (key p))) (target_key (random_query g)).
Proof.
  intros Hm. pose proof (random_query_fresh g) as Hf. destruct (random_query_inv g) as [Hinv _].
  pose proof (inv_sorted _ Hinv) as Hs. pose proof (inv_peers _ Hinv) as Hp. rewrite Hm in *.
  apply Forall_cons in Hf as [Hst Hf]. apply sorted_NoDup in Hs. apply NoDup_cons in Hs as [Hd _].
  destruct (Hp d p ltac:(by left)) as [Hdist Hk]. split_and!; [done..|]. by rewrite <-Hk.
Qed.

(** A poll when the time of the first peer is up. *)
Lemma second_poll now cfg target d p m :
  fresh m -> state p = Waiting now ->
  exists m' nw pr r, next now (mkQuery target (Iterating 0) ((d, p) :: m) 1 cfg) =
      Ret (mkQuery target pr ((d, set_state p Unresponsive) :: m') nw cfg, r) /\
    keys m' = keys m /\ Forall (fun e => state e.2 <> Succeeded) m'.
Proof.
  intros Hf Hst. unfold next. cbn [progress config closest_peers num_waiting scan]. rewrite Hst, Z.leb_refl.
  change (checked_sub 1 1) with (Some 0). cbn [unwrap mbind outcome_bind]. set (cap := at_capacity _).
  destruct Hf as [|[d2 p2] m H2 Hf]; [by eexists _, _, _, _|]. simpl in H2.
  assert (Forall (fun e : Z * QueryPeer NodeId => state e.2 <> Succeeded) m) as Hm
    by (eapply Forall_impl; [exact Hf|]; intros e He; by rewrite He).
  cbn [scan]. rewrite H2. destruct cap; cbn [negb mbind outcome_bind]; eexists _, _, _, _; (split; [reflexivity|]);
    (split; [done|]); constructor; simpl; rewrite ?H2; done.
Qed.

Lemma update_other {V} (m : BTreeMap V) k f : k ∉ keys m -> update m k f = m.
Proof.
  intros Hk. induction m as [|[k' v] m IH]; [done|]. csimpl in Hk. apply not_elem_of_cons in Hk as [Hne Hk].
  unfold update in *. csimpl. rewrite (proj2 (Z.eqb_neq k k')) by done. by rewrite IH.
Qed.

Lemma timeout_holds g now : in_range g -> timeout now (random_query g) = Ret true.
Proof.
  intros Hg. destruct (random_query_peers g Hg) as (d & p & m & Hm). destruct (random_query_rest g d p m Hm) as (Hf & Hd & Hst & Hdist).
  unfold timeout. rewrite Hm. cbn [head unwrap mbind outcome_bind snd]. rewrite (first_poll g now d p m Hg Hm).
  cbn [mbind outcome_bind]. unfold Key.into_preimage at 1. rewrite assert_eq_refl by done. cbn [mbind outcome_bind config].
  destruct (second_poll (now + peer_timeout (config (random_query g))) (config (random_query g)) (target_key (random_query g)) d
    (set_state p (Waiting (now + peer_timeout (config (random_query g))))) m Hf eq_refl) as (m' & nw & pr & r & -> & Hk & Hm').
  cbn [mbind outcome_bind closest_peers head unwrap snd state set_state key]. rewrite assert_eq_refl by done.
  cbn [mbind outcome_bind progress]. destruct (decide (pr = Finished)) as [->|Hpr].
  - rewrite bool_decide_true by done. unfold on_success. cbn [progress mbind outcome_bind]. rewrite no_results; [by rewrite assert_eq_refl|].
    by constructor.
  - rewrite bool_decide_false by done. unfold on_success. cbn [progress].
    assert (forall A (x y : A), match pr with Finished => x | _ => y end = y) as -> by (intros; by destruct pr).
    unfold Key.into_preimage. cbn [closest_peers target_key]. rewrite <-Hdist. cbn [get]. rewrite Z.eqb_refl. cbn [state mbind outcome_bind].
    unfold update. csimpl. rewrite Z.eqb_refl. change (_ <$> m') with (update m' d (fun p => mkPeer (key p) (peers_returned p + 0) Succeeded)).
    rewrite update_other by by rewrite Hk. unfold into_result. cbn [config closest_peers]. csimpl.
    fold (results m'). rewrite (results_none m' Hm').
    destruct Hg as (_ & _ & Hr & _). simpl. destruct (gen_num_results g) as [|n0]; [lia|]. simpl. rewrite take_nil. by rewrite assert_eq_refl.
Qed.

(** A peer is in the map once. *)
Lemma peer_once target (m : BTreeMap (QueryPeer NodeId)) c :
  BTree.sorted m -> peers_ok target m -> (exists d p, (d, p) ∈ m /\ Key.preimage (key p) = c) ->
  countb (fun e => bool_decide (Key.preimage (key e.2) = c)) m = 1.
Proof.
  intros Hs Hp (d & p & Hin & <-). apply list_elem_of_split in Hin as (m1 & m2 & ->).
  rewrite countb_app, countb_cons. rewrite bool_decide_true by done. apply sorted_NoDup in Hs.
  unfold keys in Hs. rewrite fmap_app, fmap_cons in Hs. apply NoDup_app in Hs as (_ & Hs1 & [Hs2 _]%NoDup_cons).
  assert (forall d' p', (d', p') ∈ m1 ++ (d, p) :: m2 -> Key.preimage (key p') = Key.preimage (key p) -> d' = d) as Hsame.
  { intros d' p' Hin Heq. destruct (Hp d' p' Hin) as [-> Hk']. destruct (Hp d p ltac:(set_solver)) as [-> Hk]. by rewrite Hk', Heq, <-Hk. }
  rewrite !countb_Forall_false; [done| |]; apply Forall_forall; intros [d' p'] Hin; apply bool_decide_eq_false; simpl; intros Heq;
    assert (d' = d) as -> by (apply (Hsame d' p'); [set_solver|done]).
  - apply (list_elem_of_fmap_2 fst) in Hin. by apply Hs2.
  - apply (list_elem_of_fmap_2 fst) in Hin. apply (Hs1 d Hin). by left.
Qed.

(** The peers that are reported join the map. *)
Lemma reported_present cfg target nc m pr c :
  peers_ok target m -> exists d p, (d, p) ∈ fst (incorporate cfg target nc m pr [c]) /\ Key.preimage (key p) = c.
Proof.
  intros Hp. simpl. set (d := Key.distance target _). destruct (or_insert_cases m d (peer_new (into_key c) NotContacted)) as [[-> Hk]|[-> Hk]].
  - apply elem_of_keys in Hk as [p Hin]. exists d, p. split; [done|]. destruct (Hp d p Hin) as [Hd Hkey].
    assert (Key.hash (into_key c) = Key.hash (key p)) as Hh.
    { apply (Key.distance_unidirectional target). fold d. by rewrite Hd, Key.distance_sym. }
    rewrite Hkey in Hh. done.
  - exists d, (peer_new (into_key c) NotContacted). split; [|done]. apply elem_of_insert; [done|]. by left.
Qed.

Lemma present_evolves (m m' : BTreeMap (QueryPeer NodeId)) c :
  evolves m m' -> (exists d p, (d, p) ∈ m /\ Key.preimage (key p) = c) -> exists d p, (d, p) ∈ m' /\ Key.preimage (key p) = c.
Proof. intros He (d & p & Hin & <-). destruct (He d p Hin) as (p' & Hin' & <- & _). eauto. Qed.

(** The loop of [next] ends, contacts a peer, or finds the query finished. *)
Definition idle (nw : nat) (o : outcome (BTreeMap (QueryPeer NodeId) * nat * option (QueryState NodeId))) : Prop :=
  exists m' r, match r with
    | Some (QWaiting (Some _)) => exists nw', o = Ret (m', nw', r)
    | Some QFinished | None => o = Ret (m', nw, r)
    | _ => False
    end.

Lemma idle_cons nw e o : idle nw o -> idle nw ('(m', nw, r) ← o; Ret (e :: m', nw, r)).
Proof.
  intros (m' & [[[n|]| |]|] & E); try done; [destruct E as [nw' ->]|rewrite E..].
  - eexists _, (Some (QWaiting (Some n))). by eexists.
  - by eexists _, (Some QFinished).
  - by eexists _, None.
Qed.

(** Without a peer in progress a query does not wait. *)
Lemma scan_idle now cfg cnt nw (m : BTreeMap (QueryPeer NodeId)) :
  countb is_waiting m = 0 -> idle nw (scan now cfg false cnt nw m).
Proof.
  revert cnt. induction m as [|[d p] m IH]; intros cnt Hw; [by exists [], None|]. rewrite countb_cons in Hw. unfold is_waiting in Hw at 1.
  cbn [scan]. simpl in Hw. destruct (state p) as [|t| | |]; simpl in Hw; [|lia|by apply idle_cons, IH..|].
  - eexists _, (Some (QWaiting (Some _))). eexists. reflexivity.
  - destruct cnt as [c|]; [case_decide; [by eexists _, (Some QFinished)|]|]; by apply idle_cons, IH.
Qed.

(** The queries after the first peer has answered. *)
Definition answered (q : TestQuery) (c : NodeId) : Prop :=
  query_inv q /\ num_waiting q = 0 /\ progress q <> Finished /\ 1 <= parallelism (config q) /\ 1 <= num_results (config q) /\
  exists d p, (d, p) ∈ closest_peers q /\ Key.preimage (key p) = c.

Lemma answered_next now q c :
  answered q c -> exists q' st, next now q = Ret (q', st) /\ query_inv q' /\ evolves (closest_peers q) (closest_peers q') /\
    match st with QWaiting (Some _) | QFinished => True | _ => False end.
Proof.
  intros (Hinv & Hw & Hpr & Hp & Hr & _). destruct (next_ok now q Hinv) as (q' & st & E & Hs & _). exists q', st.
  split_and!; [done|by eapply step_ok_inv|by destruct Hs as [(_ & _ & _ & He) _]|].
  assert (at_capacity q = false) as Hcap by (unfold at_capacity; rewrite Hw; destruct (progress q); [apply bool_decide_eq_false; lia..|done]).
  unfold next in E. rewrite Hcap, Hw in E.
  assert (forall A (x y : A), match progress q with Finished => x | _ => y end = y) as Hmatch by (intros; by destruct (progress q)).
  rewrite Hmatch in E. destruct (scan_idle now (config q) (Some 0) 0 (closest_peers q)) as (m' & [[[n|]| |]|] & Es);
    [destruct Hinv as [Hb _]; by rewrite <-(inv_waiting q Hb)|..]; try done; [destruct Es as [nw' Es]|..];
    rewrite Es in E; cbn [mbind outcome_bind] in E; repeat case_decide; first [by simplify_eq|lia].
Qed.

(** The first peer answers, and answers again. *)
Lemma first_answer cfg target d p m t c :
  let q := mkQuery target (Iterating 0) ((d, set_state p (Waiting t)) :: m) 1 cfg in
  query_inv q -> d = Key.distance (into_key (Key.preimage (key p))) target -> d ∉ keys m ->
  1 <= parallelism cfg -> 1 <= num_results cfg ->
  exists q', on_success q (Key.preimage (key p)) [c] = Ret q' /\ on_success q' (Key.preimage (key p)) [c] = Ret q' /\ answered q' c.
Proof.
  intros q Hinv Hd Hm Hp Hr. destruct (on_success_ok q (Key.preimage (key p)) [c] Hinv) as (q' & E & Hs).
  pose proof E as Ec. unfold on_success in Ec. cbn [progress q target_key closest_peers] in Ec. rewrite <-Hd in Ec. cbn [get] in Ec.
  rewrite Z.eqb_refl in Ec. cbn [state set_state num_waiting q] in Ec. change (checked_sub 1 1) with (Some 0) in Ec.
  cbn [unwrap mbind outcome_bind] in Ec. unfold update in Ec. csimpl in Ec. rewrite Z.eqb_refl in Ec.
  change (_ <$> m) with (update m d (fun p => mkPeer (key p) (peers_returned p + 1) Succeeded)) in Ec.
  rewrite update_other in Ec by done. cbn [key set_state] in Ec. set (p1 := mkPeer (key p) _ Succeeded) in Ec. injection Ec as Eq.
  assert (closest_peers q' = or_insert ((d, p1) :: m) (Key.distance target (into_key c)) (peer_new (into_key c) NotContacted)) as Hm' by by rewrite <-Eq.
  assert (progress q' <> Finished) as Hpr by (rewrite <-Eq; simpl; by case_decide).
  assert ((d, p1) ∈ closest_peers q') as Hin.
  { rewrite Hm'. destruct (or_insert_cases ((d, p1) :: m) (Key.distance target (into_key c)) (peer_new (into_key c) NotContacted)) as [[-> _]|[-> Hk]];
      [by left|]. apply elem_of_insert; [done|]. right. by left. }
  destruct (step_ok_inv _ _ Hs) as [Hinv' _]. exists q'. split_and!; [done| |split_and!].
  - unfold on_success. assert (forall A (x y : A), match progress q' with Finished => x | _ => y end = y) as -> by (intros; by destruct (progress q')).
    assert (target_key q' = target) as -> by by rewrite <-Eq. rewrite <-Hd. apply get_elem in Hin; [|apply Hinv']. by rewrite Hin.
  - by eapply step_ok_inv.
  - by rewrite <-Eq.
  - done.
  - by rewrite <-Eq.
  - by rewrite <-Eq.
  - rewrite Hm'. apply (reported_present cfg target 0 _ false). destruct Hinv as [Hb _]. pose proof (inv_peers q Hb) as Hok.
    intros d' p' [[= -> ->]|Hin']%elem_of_cons; [apply (Hok d (set_state p (Waiting t))); by left|apply Hok; by right].
Qed.

Lemma no_duplicates_holds g now c : in_range g -> no_duplicates now c (random_query g) = Ret true.
Proof.
  intros Hg. destruct (random_query_peers g Hg) as (d & p & m & Hm). destruct (random_query_rest g d p m Hm) as (Hf & Hd & Hst & Hdist).
  unfold no_duplicates. pose proof (first_poll g now d p m Hg Hm) as E1. cbv zeta in E1. set (q1 := mkQuery _ _ _ 1 _) in E1.
  assert (query_inv q1) as Hinv1.
  { destruct (next_ok now _ (random_query_inv g)) as (q & st & E & Hs & _). assert (q = q1) as <- by congruence. by eapply step_ok_inv. }
  rewrite E1. cbn [mbind outcome_bind]. pose proof Hg as (_ & Hpar & Hres & _).
  destruct (first_answer _ _ d p m _ c Hinv1 Hdist Hd) as (q2 & Eq2 & Hagain & Ha); [simpl; lia..|]. fold q1 in Eq2. rewrite Eq2.
  cbn [mbind outcome_bind]. rewrite Hagain. cbn [mbind outcome_bind].
  destruct (answered_next now q2 c Ha) as (q3 & st3 & -> & Hinv3 & He3 & Hst3). cbn [mbind outcome_bind].
  destruct Ha as (_ & _ & _ & _ & _ & Hc2). pose proof (present_evolves _ _ c He3 Hc2) as Hc3.
  assert (forall q, query_inv q -> (exists d p, (d, p) ∈ closest_peers q /\ Key.preimage (key p) = c) ->
    (_ ← assert_eq (countb (fun e => bool_decide (Key.preimage (key e.2) = c)) (closest_peers q)) 1; Ret true) = Ret true) as Hcount.
  { intros q [Hb _] Hc. rewrite (peer_once (target_key q)); [done|apply Hb|apply Hb|done]. }
  destruct st3 as [[n|]| |]; try done; [|by apply Hcount].
  destruct (on_success_ok q3 n [c] Hinv3) as (q4 & -> & Hs4). cbn [mbind outcome_bind].
  apply Hcount; [by eapply step_ok_inv|]. destruct Hs4 as [(_ & _ & _ & He4) _]. by eapply present_evolves.
Qed.
End QueryTests.

Import QueryTests.

(** C37: Functional.  The unit tests of the FINDNODE query, for every query that
    the tests generate: a new query has its peers sorted by distance, contacted
    none and has no result; a peer reported several times is in the query once;
    and the first peer is marked unresponsive when its time is up, and its late
    answer counts unless the query is finished.  The simulated lookup, with its
    checks of parallelism, order, termination and number of results, passes on
    concrete draws. *)
Theorem query_tests_pass :
  (forall g, new_query g = Ret ()) /\
  (forall g now closer, in_range g -> no_duplicates now closer (random_query g) = Ret true) /\
  (forall g now, in_range g -> timeout now (random_query g) = Ret true) /\
  simulate 0 8 3 4 = Ret (Some ()) /\ simulate 1 5 3 8 = Ret (Some ()) /\ simulate 3 1 1 1 = Ret (Some ()).
Proof.
  split_and!; [apply new_query_holds|intros; by apply no_duplicates_holds|intros; by apply timeout_holds|vm_compute; reflexivity..].
Qed.

Lemma query_tests_pass_witness :
  in_range (sample_generated 8 3 4) /\ timeout 0 (random_query (sample_generated 8 3 4)) = Ret true.
Proof.
  assert (in_range (sample_generated 8 3 4)) as Hg by (unfold in_range; simpl; lia).
  split; [exact Hg|]. destruct query_tests_pass as (_ & _ & Ht & _). exact (Ht (sample_generated 8 3 4) 0%Z Hg).
Defined.
