(* ===== verification/QueryLive.v ===== *)
(** * Termination of a lookup

    A FINDNODE query driven by the pool and the service: at any time it can be
    polled, which may hand out a peer to contact, and a peer that was contacted
    can answer or fail.  Whatever the order of these turns and the times of the
    polls, if all the peers ever reported are among finitely many, the lookup
    ends; and when the peers report all they are asked for, it has found the
    closest ones. *)

From Stdlib Require Import Sorting.Sorted.
From S2P Require Import Prelude Bytes Key BTree FindNode FindNodeProofs FindNodeTrace.
Import BTree FindNode FindNodeTrace.

Module Lookup.

Section Lookup.
Context {N : Type} `{IntoKeyLaw N}.
(** What a peer answers, [None] for a failure. *)
Variable respond : N -> option (list N).
Implicit Types (q : FindNodeQuery N) (n : N) (m : BTreeMap (QueryPeer N)) (out : list N).

(** The result of a contacted peer is passed on, as [QueryPool] does. *)
Definition answer q n : outcome (FindNodeQuery N) :=
  match respond n with Some peers => on_success q n peers | None => on_failure q n end.

(** The turns of a lookup: a query and the peers whose results are outstanding.  A
    poll that hands out no peer counts when it expires some. *)
Inductive turn : FindNodeQuery N * list N -> FindNodeQuery N * list N -> Prop :=
  | turn_contact now q q' n out : next now q = Ret (q', QWaiting (Some n)) -> turn (q, out) (q', n :: out)
  | turn_expire now q q' st out :
      next now q = Ret (q', st) -> st = QWaiting None \/ st = QWaitingAtCapacity -> q' <> q -> turn (q, out) (q', out)
  | turn_answer q q' n out1 out2 : answer q n = Ret q' -> turn (q, out1 ++ n :: out2) (q', out1 ++ out2).

(** One peer at a time: every peer answers before the next poll. *)
Fixpoint lookup (fuel : nat) (now : Z) q : outcome (option (FindNodeQuery N)) :=
  match fuel with
  | 0 => Ret None
  | S fuel =>
      '(q, st) ← next now q;
      match st with
      | QFinished => Ret (Some q)
      | QWaiting (Some n) => q ← answer q n; lookup fuel now q
      | _ => Ret None
      end
  end.

Lemma lookup_turns fuel now q q' :
  lookup fuel now q = Ret (Some q') ->
  exists k q1, nsteps turn k (q, []) (q1, []) /\ next now q1 = Ret (q', QFinished).
Proof.
  revert q. induction fuel as [|fuel IH]; intros q E; simpl in E; [done|].
  destruct (next now q) as [[q1 st]|] eqn:En; [|done]. simpl in E. destruct st as [[n|]| |]; try done.
  - destruct (answer q1 n) as [q2|] eqn:Ea; [|done]. simpl in E. destruct (IH q2 E) as (k & q3 & Hs & Hn).
    exists (S (S k)), q3. split; [|done]. eapply nsteps_l; [by eapply turn_contact|]. eapply nsteps_l; [|exact Hs].
    by apply (turn_answer q1 q2 n [] []).
  - injection E as <-. exists 0, q. split; [constructor|done].
Qed.

(** ** How far the peers are *)

Definition rank (st : QueryPeerState) : nat :=
  match st with NotContacted => 0 | Waiting _ => 1 | Unresponsive => 2 | Failed | Succeeded => 3 end.

Definition entry_rank (e : Z * QueryPeer N) : nat := rank (state (snd e)).
Definition ranks m : nat := sum_list_with entry_rank m.

Lemma ranks_cons e m : ranks (e :: m) = entry_rank e + ranks m.
Proof. done. Qed.

Lemma ranks_app m1 m2 : ranks (m1 ++ m2) = ranks m1 + ranks m2.
Proof. apply sum_list_with_app. Qed.

Lemma ranks_bound m : ranks m <= 3 * length m.
Proof.
  induction m as [|e m IH]; [done|]. rewrite ranks_cons. simpl. unfold entry_rank. destruct (state (snd e)); simpl; lia.
Qed.

Lemma expire_rank now e : expire now e = e \/ entry_rank e < entry_rank (expire now e).
Proof.
  unfold expire, entry_rank. destruct (state (snd e)) as [|t| | |] eqn:Es; auto.
  destruct (Z.leb t now); simpl; rewrite ?Es; auto.
Qed.

Lemma expire_ranks now m : (expire now <$> m) = m \/ ranks m < ranks (expire now <$> m).
Proof.
  induction m as [|e m IH]; [by left|]. rewrite fmap_cons, !ranks_cons.
  destruct (expire_rank now e) as [->|He], IH as [->|Hm]; [by left|right; lia..].
Qed.

Lemma scan_ranks now cfg at_cap cnt pre rest m' r :
  scan_result now cfg at_cap cnt pre rest m' r ->
  ranks (pre ++ rest) < ranks m' \/ (m' = pre ++ rest /\ forall n, r <> Some (QWaiting (Some n))).
Proof.
  intros Hr. assert (ranks pre <= ranks (expire now <$> pre)) as Hle by (destruct (expire_ranks now pre) as [->|]; lia).
  assert (m' = (expire now <$> pre) ++ rest -> (forall n, r <> Some (QWaiting (Some n))) ->
    ranks (pre ++ rest) < ranks m' \/ (m' = pre ++ rest /\ forall n, r <> Some (QWaiting (Some n)))) as Hsame.
  { intros -> Hn. rewrite !ranks_app. destruct (expire_ranks now pre) as [->|]; [by right|left; lia]. }
  destruct r as [[[n|]| |]|]; simpl in Hr.
  - left. destruct Hr as (_ & d & p & tl & -> & Hp & _ & ->). rewrite !ranks_app, !ranks_cons.
    unfold entry_rank at 1 2. simpl. rewrite Hp. simpl. lia.
  - done.
  - by apply Hsame; [apply Hr|].
  - by apply Hsame; [apply Hr|].
  - destruct Hr as [-> ->]. apply Hsame; [by rewrite app_nil_r|done].
Qed.

(** A poll that hands out a peer or changes something without ending the query gets ahead. *)
Lemma next_ranks now q q' st :
  query_inv q -> next now q = Ret (q', st) ->
  ranks (closest_peers q) <= ranks (closest_peers q') /\ keys (closest_peers q') = keys (closest_peers q) /\
  (st <> QFinished -> q' <> q -> ranks (closest_peers q) < ranks (closest_peers q')).
Proof.
  intros [Hinv _] E. unfold next in E. destruct (decide (progress q = Finished)) as [Epr|Epr].
  { rewrite Epr in E. injection E as <- <-. done. }
  assert (forall A (x y : A), match progress q with Finished => x | _ => y end = y) as Hpr
    by (intros; by destruct (progress q)). rewrite Hpr in E.
  destruct (scan_spec now (config q) (at_capacity q) (Some 0) (num_waiting q) (closest_peers q))
    as (pre & rest & m' & nw' & r & Es & Hm & _ & Hr & Hw); [by rewrite (inv_waiting q Hinv)|].
  rewrite Es in E. cbn [mbind outcome_bind] in E.
  assert (keys m' = keys (closest_peers q)) as Hk.
  { rewrite Hm. apply scan_result_moves in Hr. unfold keys. clear - Hr.
    induction Hr as [|e e' l l' (He & _) Hl IH]; csimpl; [done|]. by rewrite He, IH. }
  apply scan_ranks in Hr. rewrite <-Hm in Hr.
  assert (closest_peers q' = m' /\ (st <> QFinished -> m' = closest_peers q -> q' = q)) as [-> Hq].
  { destruct r as [[[n|]| |]|]; [| | | |case_decide]; injection E as <- <-; (split; [done|]); intros Hst Hsame; try done;
      (assert (nw' = num_waiting q) as -> by (rewrite Hsame in Hw; lia)); rewrite Hsame; by destruct q. }
  split_and!; [destruct Hr as [?|[-> _]]; lia|done|]. intros Hst Hne. destruct Hr as [?|[Hsame _]]; [done|].
  by destruct Hne; apply Hq.
Qed.

Lemma update_ranks m d p (f : QueryPeer N -> QueryPeer N) :
  sorted m -> get m d = Some p -> rank (state p) <= rank (state (f p)) -> ranks m <= ranks (update m d f).
Proof.
  intros Hs Hg Hr. destruct (update_split m d p f Hs Hg) as (m1 & m2 & -> & ->). rewrite !ranks_app, !ranks_cons.
  unfold entry_rank. simpl. lia.
Qed.

(** The distances a lookup can see. *)
Variables (target : Key N) (U : list N).
Definition seen q : Prop :=
  target_key q = target /\ forall d, d ∈ keys (closest_peers q) -> exists n, n ∈ U /\ d = Key.distance target (into_key n).

Lemma or_insert_keys m d p d' : d' ∈ keys (or_insert m d p) -> d' = d \/ d' ∈ keys m.
Proof. destruct (or_insert_cases m d p) as [[-> _]|[-> _]]; [by right|]. by rewrite keys_insert. Qed.

Lemma incorporate_keys cfg tg nc m pr ps d :
  d ∈ keys (fst (incorporate cfg tg nc m pr ps)) ->
  d ∈ keys m \/ exists n, n ∈ ps /\ d = Key.distance tg (into_key n).
Proof.
  revert m pr. induction ps as [|n ps IH]; intros m pr; simpl; [by left|].
  intros [[->|Hd]%or_insert_keys|(n' & Hn' & ->)]%IH; [right; exists n|by left|right; exists n']; split; (done || set_solver).
Qed.

Lemma incorporate_ranks cfg tg nc m pr ps : ranks m <= ranks (fst (incorporate cfg tg nc m pr ps)).
Proof.
  revert m pr. induction ps as [|n ps IH]; intros m pr; simpl; [done|]. etrans; [|apply IH].
  destruct (or_insert_cases m (Key.distance tg (into_key n)) (peer_new (into_key n) NotContacted)) as [[-> _]|[-> Hn]]; [done|].
  assert (ranks (insert m (Key.distance tg (into_key n)) (peer_new (into_key n) NotContacted)) =
    ranks ((Key.distance tg (into_key n), peer_new (into_key n) NotContacted) :: m)) as ->.
  { unfold ranks. by rewrite insert_Permutation. }
  rewrite ranks_cons. lia.
Qed.

(** ** Answers *)

(** Results of a peer that is not waited for any more change nothing. *)
Definition ignored q n : Prop :=
  progress q = Finished \/
  forall p, get (closest_peers q) (Key.distance (into_key n) (target_key q)) = Some p -> forall t, state p <> Waiting t.

Lemma on_success_shape q n ps q' :
  on_success q n ps = Ret q' ->
  (q' = q /\ ignored q n) \/
  exists p m, get (closest_peers q) (Key.distance (into_key n) (target_key q)) = Some p /\ rank (state p) <= 2 /\
    m = update (closest_peers q) (Key.distance (into_key n) (target_key q))
          (fun p => mkPeer (key p) (peers_returned p + length ps) Succeeded) /\
    closest_peers q' = fst (incorporate (config q) (target_key q) (length m) m false ps).
Proof.
  unfold on_success, ignored. set (d := Key.distance (into_key n) (target_key q)).
  destruct (decide (progress q = Finished)) as [Epr|Epr]; [rewrite Epr; intros [= <-]; auto|].
  assert (forall A (x y : A), match progress q with Finished => x | _ => y end = y) as -> by (intros; by destruct (progress q)).
  destruct (get (closest_peers q) d) as [p|] eqn:Eg; [|intros [= <-]; left; split; [done|by right]].
  assert (forall nw, let m := update (closest_peers q) d (fun p => mkPeer (key p) (peers_returned p + length ps) Succeeded) in
    closest_peers (let '(m, pr) := incorporate (config q) (target_key q) (length m) m false ps in
      mkQuery (target_key q) (update_progress (config q) (progress q) pr) m nw (config q)) =
    fst (incorporate (config q) (target_key q) (length m) m false ps)) as Hm
    by (intros nw m; by destruct (incorporate _ _ _ _ _ _)).
  destruct (state p) as [|t| | |] eqn:Es; intros E.
  - left. injection E as <-. split; [done|]. right. intros ? [= <-] t. congruence.
  - destruct (checked_sub (num_waiting q) 1) as [nw|]; [|done]. injection E as <-.
    right. exists p. eexists. split_and!; [done|rewrite Es; simpl; lia|reflexivity|apply Hm].
  - injection E as <-. right. exists p. eexists. split_and!; [done|rewrite Es; simpl; lia|reflexivity|apply Hm].
  - left. injection E as <-. split; [done|]. right. intros ? [= <-] t. congruence.
  - left. injection E as <-. split; [done|]. right. intros ? [= <-] t. congruence.
Qed.

Lemma on_failure_shape q n q' :
  on_failure q n = Ret q' ->
  (q' = q /\ ignored q n) \/
  exists p, get (closest_peers q) (Key.distance (into_key n) (target_key q)) = Some p /\ rank (state p) <= 2 /\
    closest_peers q' = update (closest_peers q) (Key.distance (into_key n) (target_key q)) (fun p => set_state p Failed).
Proof.
  unfold on_failure, ignored. set (d := Key.distance (into_key n) (target_key q)).
  destruct (decide (progress q = Finished)) as [Epr|Epr]; [rewrite Epr; intros [= <-]; auto|].
  assert (forall A (x y : A), match progress q with Finished => x | _ => y end = y) as -> by (intros; by destruct (progress q)).
  destruct (get (closest_peers q) d) as [p|] eqn:Eg; [|intros [= <-]; left; split; [done|by right]].
  destruct (state p) as [|t| | |] eqn:Es; intros E.
  - left. injection E as <-. split; [done|]. right. intros ? [= <-] t. congruence.
  - destruct (checked_sub (num_waiting q) 1) as [nw|]; [|done]. injection E as <-.
    right. exists p. split_and!; [done|rewrite Es; simpl; lia|done].
  - injection E as <-. right. exists p. split_and!; [done|rewrite Es; simpl; lia|done].
  - left. injection E as <-. split; [done|]. right. intros ? [= <-] t. congruence.
  - left. injection E as <-. split; [done|]. right. intros ? [= <-] t. congruence.
Qed.

Lemma incorporate_states cfg tg nc m pr ps d p :
  sorted m -> (d, p) ∈ fst (incorporate cfg tg nc m pr ps) -> (d, p) ∈ m \/ state p = NotContacted.
Proof.
  revert m pr. induction ps as [|n ps IH]; intros m pr Hs; simpl; [by left|].
  intros [Hin|Hin]%IH; [|by right|by apply sorted_or_insert].
  destruct (or_insert_cases m (Key.distance tg (into_key n)) (peer_new (into_key n) NotContacted)) as [[E _]|[E _]]; rewrite E in Hin; [by left|].
  apply insert_elem in Hin as [[= -> ->]|Hin]; [by right|by left].
Qed.

(** The entries of an update: those of other distances, and the new one. *)
Lemma update_entries m d (f : QueryPeer N -> QueryPeer N) d' p' :
  (d', p') ∈ update m d f -> (d' <> d /\ (d', p') ∈ m) \/ (d' = d /\ exists p, (d, p) ∈ m /\ p' = f p).
Proof.
  unfold update. rewrite list_elem_of_fmap. intros ([k v] & E & Hin). destruct (Z.eqb_spec d k) as [->|Hne]; injection E as -> ->.
  - right. split; [done|]. by exists v.
  - left. by split.
Qed.

(** ** What a turn leaves *)

(** A peer that is waited for or has succeeded was so before, unless it is the one
    handed out or the one that answered. *)
Lemma next_states now q q' st d p :
  query_inv q -> next now q = Ret (q', st) -> (d, p) ∈ closest_peers q' ->
  (d, p) ∈ closest_peers q \/ state p = Unresponsive \/
  exists n, st = QWaiting (Some n) /\ d = Key.distance (into_key n) (target_key q) /\ is_waiting (d, p) = true.
Proof.
  intros [Hinv Hf] E Hin. unfold next in E. destruct (decide (progress q = Finished)) as [Epr|Epr].
  { rewrite Epr in E. injection E as <- <-. by left. }
  assert (forall A (x y : A), match progress q with Finished => x | _ => y end = y) as Hpr
    by (intros; by destruct (progress q)). rewrite Hpr in E.
  destruct (scan_spec now (config q) (at_capacity q) (Some 0) (num_waiting q) (closest_peers q))
    as (pre & rest & m' & nw' & r & Es & Hm & _ & Hr & Hw); [by rewrite (inv_waiting q Hinv)|].
  rewrite Es in E. cbn [mbind outcome_bind] in E.
  assert (closest_peers q' = m' /\ forall n, r = Some (QWaiting (Some n)) -> st = QWaiting (Some n)) as [Em Hst].
  { destruct r as [[[n|]| |]|]; [| | | |case_decide]; injection E as <- <-; (split; [done|]); congruence. }
  rewrite Em in Hin. clear E Es Em.
  assert (forall x, x ∈ (expire now <$> pre) -> x ∈ pre \/ state (snd x) = Unresponsive) as Hex.
  { intros x (e & -> & He)%list_elem_of_fmap. unfold expire. destruct (state (snd e)) as [|t| | |]; try (by left).
    destruct (Z.leb t now); [by right|by left]. }
  assert ((exists n, r = Some (QWaiting (Some n))) \/ ~ exists n, r = Some (QWaiting (Some n))) as [[n ->]|Hno]
    by (destruct r as [[[n|]| |]|]; [left; by exists n|right; by intros [? ?]..]).
  - destruct Hr as (_ & d0 & p0 & tl & -> & Hp0 & -> & ->). rewrite elem_of_app, elem_of_cons in Hin.
    rewrite Hm, elem_of_app, elem_of_cons. destruct Hin as [[Hin|Hin]%Hex|[[= -> ->]|Hin]]; [auto|auto| |auto].
    right. right. eexists. split; [by apply Hst|]. split; [|done].
    destruct (inv_peers q Hinv d0 p0) as [-> Hk]; [rewrite Hm; set_solver|]. by rewrite <-Hk.
  - assert (m' = (expire now <$> pre) ++ rest) as ->.
    { destruct r as [[[n|]| |]|]; simpl in Hr; [by destruct Hno; exists n|done|apply Hr|apply Hr|].
      destruct Hr as [-> ->]. by rewrite app_nil_r. }
    rewrite Hm. rewrite elem_of_app in *. destruct Hin as [[Hin|Hin]%Hex|Hin]; auto.
Qed.

(** The results a lookup still waits for are outstanding. *)
Definition covered q out : Prop :=
  progress q = Finished \/
  forall d p, (d, p) ∈ closest_peers q -> is_waiting (d, p) = true -> exists n, n ∈ out /\ d = Key.distance (into_key n) (target_key q).

(** Every peer that has succeeded reported all of [U]. *)
Definition full q : Prop :=
  (exists d p, (d, p) ∈ closest_peers q /\ state p = Succeeded) -> forall u, u ∈ U -> Key.distance target (into_key u) ∈ keys (closest_peers q).

(** Peers report peers of [U] only. *)
Hypothesis reports : forall n peers, respond n = Some peers -> forall x, x ∈ peers -> x ∈ U.

(** After an answer the peers waited for are those of before, but the one that answered. *)
Lemma answer_waiting q n q' d p :
  query_inv q -> answer q n = Ret q' -> progress q <> Finished -> (d, p) ∈ closest_peers q' -> is_waiting (d, p) = true ->
  d <> Key.distance (into_key n) (target_key q) /\ (d, p) ∈ closest_peers q.
Proof.
  intros [Hinv _] E Hnf Hin Hw.
  assert (ignored q n -> q' = q -> d <> Key.distance (into_key n) (target_key q) /\ (d, p) ∈ closest_peers q) as Hig.
  { intros [?|Hg] ->; [done|]. split; [|done]. intros ->. apply (get_elem _ _ _ (inv_sorted q Hinv)) in Hin.
    unfold is_waiting in Hw. simpl in Hw. destruct (state p) as [|t| | |] eqn:Es; try done. by destruct (Hg p Hin t). }
  unfold answer in E. destruct (respond n) as [peers|].
  - apply on_success_shape in E as [[-> ?]|(p0 & m & Hg & Hr & -> & Hc)]; [auto|]. rewrite Hc in Hin.
    apply incorporate_states in Hin as [Hin|Hn]; [|unfold is_waiting in Hw; simpl in Hw; by rewrite Hn in Hw|apply sorted_update, Hinv].
    apply update_entries in Hin as [Hin|(-> & p1 & _ & ->)]; [done|]. by unfold is_waiting in Hw.
  - apply on_failure_shape in E as [[-> ?]|(p0 & Hg & Hr & Hc)]; [auto|]. rewrite Hc in Hin.
    apply update_entries in Hin as [Hin|(-> & p1 & _ & ->)]; [done|]. by unfold is_waiting in Hw.
Qed.

Lemma answer_seen q n q' :
  query_inv q -> answer q n = Ret q' -> seen q -> target_key q' = target_key q ->
  seen q' /\ ranks (closest_peers q) <= ranks (closest_peers q').
Proof.
  intros [Hinv _] E [Ht Hk] Ht'. unfold answer in E. destruct (respond n) as [peers|] eqn:En.
  - apply on_success_shape in E as [[-> _]|(p0 & m & Hg & Hr & -> & Hc)]; [by repeat split|]. split.
    + split; [congruence|]. rewrite Hc. intros d [Hd|(x & Hx & ->)]%incorporate_keys.
      * rewrite keys_update in Hd. by apply Hk.
      * exists x. split; [by eapply reports|by rewrite Ht].
    + rewrite Hc. etrans; [|apply incorporate_ranks]. eapply update_ranks; [apply Hinv|done|]. simpl. lia.
  - apply on_failure_shape in E as [[-> _]|(p0 & Hg & Hr & Hc)]; [by repeat split|]. split.
    + split; [congruence|]. rewrite Hc, keys_update. exact Hk.
    + rewrite Hc. eapply update_ranks; [apply Hinv|done|]. simpl. lia.
Qed.

Lemma answer_total q n : query_inv q -> exists q', answer q n = Ret q' /\ step_ok q q' /\ (progress q' = Finished -> q' = q).
Proof.
  intros [Hinv Hf]. unfold answer. destruct (respond n) as [peers|].
  - destruct (on_success_base q n peers Hinv) as (q' & E & Hs & Hfin). exists q'. split; [done|]. split; [|done].
    split; [done|]. intros Hp. rewrite (Hfin Hp) in Hp |- *. auto.
  - destruct (on_failure_base q n Hinv) as (q' & E & Hs & Hfin). exists q'. split; [done|]. split; [|done].
    split; [done|]. intros Hp. rewrite (Hfin Hp) in Hp |- *. auto.
Qed.

(** ** The invariant of a lookup *)

Record lookup_inv (s : FindNodeQuery N * list N) : Prop := {
  li_query : query_inv s.1;
  li_seen : seen s.1;
  li_covered : covered s.1 s.2;
}.

Definition measure (s : FindNodeQuery N * list N) : nat := 2 * (3 * length U - ranks (closest_peers s.1)) + length s.2.

Lemma seen_ranks q : query_inv q -> seen q -> ranks (closest_peers q) <= 3 * length U.
Proof.
  intros [Hinv _] [_ Hk]. etrans; [apply ranks_bound|]. assert (length (closest_peers q) <= length U); [|lia].
  rewrite <-(length_fmap fst (closest_peers q)), <-(length_fmap (fun n => Key.distance target (into_key n)) U).
  apply submseteq_length, NoDup_submseteq; [apply sorted_NoDup, Hinv|].
  intros d (n & Hn & ->)%Hk. apply list_elem_of_fmap. by exists n.
Qed.

Lemma poll_inv now q q' st out :
  lookup_inv (q, out) -> next now q = Ret (q', st) ->
  lookup_inv (q', match st with QWaiting (Some n) => n :: out | _ => out end) /\
  ranks (closest_peers q) <= ranks (closest_peers q') /\
  (st <> QFinished -> q' <> q -> ranks (closest_peers q) < ranks (closest_peers q')) /\
  config q' = config q.
Proof.
  intros [Hq [Ht Hk] Hc] E. simpl in *. destruct (next_ok now q Hq) as (q1 & st1 & E1 & Hs & Ha).
  rewrite E in E1. injection E1 as <- <-. pose proof Hs as [(_ & Ht' & Hcfg & _) _].
  destruct (next_ranks now q q' st Hq E) as (Hle & Hkeys & Hlt). split; [|done].
  split; simpl; [by eapply step_ok_inv|split; [congruence|by rewrite Hkeys]|].
  destruct Hc as [Hfin|Hc]; [left; unfold next in E; rewrite Hfin in E; by injection E as <- _|]. right.
  intros d p Hin Hw. rewrite Ht'. destruct (next_states now q q' st d p Hq E Hin) as [Hold|[Hu|(n & -> & Hd & _)]].
  - destruct (Hc d p Hold Hw) as (n & Hn & Hd). exists n. split; [|done]. destruct st as [[x|]| |]; [by right|done..].
  - unfold is_waiting in Hw. simpl in Hw. by rewrite Hu in Hw.
  - exists n. split; [by left|done].
Qed.

Lemma answer_inv q n q' out1 out2 :
  lookup_inv (q, out1 ++ n :: out2) -> answer q n = Ret q' ->
  lookup_inv (q', out1 ++ out2) /\ ranks (closest_peers q) <= ranks (closest_peers q') /\ config q' = config q.
Proof.
  intros [Hq Hs Hc] E. simpl in *. destruct (answer_total q n Hq) as (q1 & E1 & Hok & Hfin).
  rewrite E in E1. injection E1 as <-. pose proof Hok as [(_ & Ht' & Hcfg & _) _].
  destruct (answer_seen q n q' Hq E Hs Ht') as [Hs' Hr]. split; [|done].
  split; simpl; [by eapply step_ok_inv|done|]. destruct (decide (progress q' = Finished)) as [Hf|Hnf]; [by left|right].
  assert (progress q <> Finished) as Hnf0.
  { intros Hf. assert (q' = q) as ->; [|done]. unfold answer, on_success, on_failure in E. rewrite Hf in E.
    destruct (respond n); by injection E as <-. }
  intros d p Hin Hw. rewrite Ht'. destruct (answer_waiting q n q' d p Hq E Hnf0 Hin Hw) as [Hne Hold].
  destruct Hc as [?|Hc]; [done|]. destruct (Hc d p Hold Hw) as (n' & Hn' & ->). exists n'. split; [|done].
  rewrite elem_of_app, elem_of_cons in Hn'. rewrite elem_of_app. destruct Hn' as [?|[->|?]]; [auto|done|auto].
Qed.

(** Every turn gets ahead. *)
Lemma turn_measure s s' :
  lookup_inv s -> turn s s' -> lookup_inv s' /\ measure s' < measure s /\ config s'.1 = config s.1.
Proof.
  intros Hinv Ht. inversion Ht as [now q q' n out E|now q q' st out E Hst Hne|q q' n out1 out2 E]; subst; unfold measure; simpl.
  - destruct (poll_inv now q q' _ out Hinv E) as (Hinv' & _ & Hlt & Hc).
    assert (q' <> q) as Hne.
    { intros ->. pose proof (next_ok now q (li_query _ Hinv)) as (q1 & st1 & E1 & _ & Ha). simpl in E1. rewrite E in E1.
      injection E1 as <- <-. destruct Ha as (_ & (d & p & Hp & _ & Hs & Hp') & _).
      destruct (li_query _ Hinv) as [Hb _]. apply (get_elem _ _ _ (inv_sorted _ Hb)) in Hp, Hp'. rewrite Hp in Hp'.
      injection Hp' as Hp'. rewrite Hp' in Hs. done. }
    specialize (Hlt ltac:(done) Hne). pose proof (seen_ranks q' (li_query _ Hinv') (li_seen _ Hinv')). split_and!; [done|lia|done].
  - destruct (poll_inv now q q' st out Hinv E) as (Hinv' & _ & Hlt & Hc).
    assert (st <> QFinished) as Hnf by (by destruct Hst as [->| ->]). specialize (Hlt Hnf Hne).
    assert (lookup_inv (q', out)) as Hinv'' by (by destruct Hst as [-> | ->]).
    pose proof (seen_ranks q' (li_query _ Hinv'') (li_seen _ Hinv'')). simpl in *. split_and!; [done|lia|done].
  - destruct (answer_inv q n q' out1 out2 Hinv E) as (Hinv' & Hle & Hc). rewrite !length_app. simpl. split_and!; [done|lia|done].
Qed.

Lemma turns_measure k s s' :
  lookup_inv s -> nsteps turn k s s' -> lookup_inv s' /\ k + measure s' <= measure s /\ config s'.1 = config s.1.
Proof.
  intros Hinv Hs. induction Hs as [s|k s s1 s2 Ht Hs IH]; [split_and!; [done|lia|done]|].
  destruct (turn_measure s s1 Hinv Ht) as (Hinv1 & Hlt & Hc1). destruct (IH Hinv1) as (Hinv2 & Hle & Hc2).
  split_and!; [done|lia|congruence].
Qed.

(** When nothing is outstanding, a poll hands out a peer or ends the query. *)
Lemma idle_progress now q :
  lookup_inv (q, []) -> 1 <= parallelism (config q) -> 1 <= num_results (config q) ->
  exists q' st, next now q = Ret (q', st) /\ (st = QFinished \/ exists n, st = QWaiting (Some n)).
Proof.
  intros Hinv Hp Hr. pose proof Hinv as [Hq _ Hc]. simpl in *. destruct (next_ok now q Hq) as (q' & st & E & Hs & Ha).
  exists q', st. split; [done|].
  destruct (poll_inv now q q' st [] Hinv E) as ([_ _ Hc'] & _ & _ & _).
  destruct Hc as [Hfin|Hc]; [left; unfold next in E; rewrite Hfin in E; by injection E as _ <-|].
  assert (num_waiting q = 0) as Hz.
  { rewrite (inv_waiting q (proj1 Hq)). apply countb_Forall_false, Forall_forall. intros [d p] Hin.
    destruct (is_waiting (d, p)) eqn:Ew; [|done]. destruct (Hc d p Hin Ew) as (n & Hn & _). by apply elem_of_nil in Hn. }
  destruct st as [[n|]| |]; [eauto| | |eauto]; exfalso.
  - destruct Ha as [_ Hpos]. rewrite (inv_waiting q' (proj1 (step_ok_inv _ _ Hs))) in Hpos.
    assert (countb is_waiting (closest_peers q') = 0); [|lia]. apply countb_Forall_false, Forall_forall. intros [d p] Hin.
    destruct (is_waiting (d, p)) eqn:Ew; [|done].
    destruct (next_states now q q' _ d p Hq E Hin) as [Hold|[Hu|(n & Hn & _)]]; [|unfold is_waiting in Ew; simpl in Ew; by rewrite Hu in Ew|done].
    destruct (Hc d p Hold Ew) as (n & Hn & _). by apply elem_of_nil in Hn.
  - simpl in Ha. unfold at_capacity in Ha. rewrite Hz in Ha. destruct (progress q) eqn:Epr.
    + apply bool_decide_eq_true in Ha. lia.
    + apply bool_decide_eq_true in Ha. lia.
    + unfold next in E. rewrite Epr in E. done.
Qed.

(** A new query. *)
Lemma new_lookup_inv cfg known :
  known_ok known -> (forall k, k ∈ known -> Key.preimage k ∈ U) -> lookup_inv (with_config cfg target known, []).
Proof.
  intros Hk HU.
  assert (forall d p, (d, p) ∈ closest_peers (with_config cfg target known) ->
    exists k, k ∈ known /\ d = Key.distance k target /\ p = peer_new k NotContacted) as Hel.
  { intros d p Hin%collect_elem. apply elem_of_take in Hin as (i & Hi & _).
    apply list_lookup_fmap_Some in Hi as (k & [= -> ->] & Hi). exists k. split; [by eapply list_elem_of_lookup_2|done]. }
  split; simpl; [by apply with_config_inv|split; [done|]|right].
  - intros d (p & Hin)%elem_of_keys. destruct (Hel d p Hin) as (k & Hkk & -> & ->). exists (Key.preimage k). split; [by apply HU|].
    unfold known_ok in Hk. rewrite Forall_forall in Hk. rewrite <-(Hk k Hkk). apply Key.distance_sym.
  - intros d p Hin Hw. destruct (Hel d p Hin) as (k & _ & -> & ->). done.
Qed.

(** ** Complete reports *)

Section Complete.
(** A peer that answers reports every node. *)
Hypothesis complete : forall n peers, respond n = Some peers -> forall u, u ∈ U -> u ∈ peers.

Lemma incorporate_keeps cfg tg nc m pr ps d : d ∈ keys m -> d ∈ keys (fst (incorporate cfg tg nc m pr ps)).
Proof.
  revert m pr. induction ps as [|n ps IH]; intros m pr Hd; simpl; [done|]. apply IH.
  destruct (or_insert_cases m (Key.distance tg (into_key n)) (peer_new (into_key n) NotContacted)) as [[-> _]|[-> _]]; [done|].
  apply keys_insert. by right.
Qed.

Lemma incorporate_has cfg tg nc m pr ps n :
  n ∈ ps -> Key.distance tg (into_key n) ∈ keys (fst (incorporate cfg tg nc m pr ps)).
Proof.
  revert m pr. induction ps as [|n' ps IH]; intros m pr Hn; simpl; [by apply elem_of_nil in Hn|].
  apply elem_of_cons in Hn as [->|Hn]; [|by apply IH]. apply incorporate_keeps.
  destruct (or_insert_cases m (Key.distance tg (into_key n')) (peer_new (into_key n') NotContacted)) as [[-> Hin]|[-> _]]; [done|].
  apply keys_insert. by left.
Qed.

Lemma next_full now q q' st : query_inv q -> next now q = Ret (q', st) -> full q -> full q'.
Proof.
  intros Hq E Hf (d & p & Hin & Hp). destruct (next_ranks now q q' st Hq E) as (_ & -> & _). apply Hf. exists d, p.
  destruct (next_states now q q' st d p Hq E Hin) as [Hold|[Hu|(n & _ & _ & Hw)]]; [done|congruence|].
  unfold is_waiting in Hw. simpl in Hw. by rewrite Hp in Hw.
Qed.

Lemma answer_full q n q' : query_inv q -> seen q -> answer q n = Ret q' -> full q -> full q'.
Proof.
  intros [Hinv _] [Ht _] E Hf. unfold answer in E. destruct (respond n) as [peers|] eqn:En.
  - apply on_success_shape in E as [[-> _]|(p0 & m & Hg & Hr & -> & Hc)]; [done|]. intros _ u Hu. rewrite Hc, <-Ht.
    apply incorporate_has. by eapply complete.
  - apply on_failure_shape in E as [[-> _]|(p0 & Hg & Hr & Hc)]; [done|]. intros (d & p & Hin & Hp). rewrite Hc in *.
    rewrite keys_update. apply Hf. exists d, p. apply update_entries in Hin as [[_ Hin]|(-> & p1 & _ & ->)]; done.
Qed.

Lemma turns_full k s s' : lookup_inv s -> nsteps turn k s s' -> full s.1 -> full s'.1.
Proof.
  intros Hinv Hs. induction Hs as [s|k s s1 s2 Ht Hs IH]; [done|]. intros Hf.
  destruct (turn_measure s s1 Hinv Ht) as (Hinv1 & _). apply IH; [done|].
  inversion Ht as [now q q' n out E|now q q' st out E|q q' n out1 out2 E]; subst; simpl in *.
  - by eapply next_full; [apply Hinv|..].
  - by eapply next_full; [apply Hinv|..].
  - by eapply answer_full; [apply Hinv|apply Hinv|..].
Qed.
End Complete.
End Lookup.
End Lookup.

Import Lookup.

(** C5: Termination of a lookup.  When the peers known at the start and all the
    peers ever reported are among the nodes [U], every run of a FINDNODE query
    ends: whatever the order in which it is polled and the contacted peers answer
    or fail, and whatever the times of the polls, it takes at most [6 * |U|]
    turns.  It does not get stuck either: every outstanding answer can be passed
    on, and when none is outstanding a poll hands out another peer or finishes. *)
Theorem findnode_lookup_terminates {N} `{IntoKeyLaw N} (respond : N -> option (list N)) (U : list N)
    (cfg : FindNodeQueryConfig) (target : Key N) (known : list (Key N)) :
  known_ok known -> 1 <= parallelism cfg -> 1 <= num_results cfg ->
  (forall k, k ∈ known -> Key.preimage k ∈ U) ->
  (forall n peers, respond n = Some peers -> forall x, x ∈ peers -> x ∈ U) ->
  forall k q out, nsteps (turn respond) k (with_config cfg target known, []) (q, out) ->
    k <= 6 * length U /\
    (forall n, n ∈ out -> exists q', answer respond q n = Ret q') /\
    (out = [] -> forall now, exists q' st, next now q = Ret (q', st) /\ (st = QFinished \/ exists n, st = QWaiting (Some n))).
Proof.
  intros Hk Hp Hr HU Hrep k q out Hs.
  destruct (turns_measure respond target U Hrep k _ _ (new_lookup_inv target U cfg known Hk HU) Hs) as (Hinv & Hle & Hc).
  simpl in Hc. split_and!; [unfold measure in Hle; simpl in Hle; lia| |].
  - intros n _. destruct (answer_total respond q n (li_query _ _ _ Hinv)) as (q' & E & _). by exists q'.
  - intros -> now. apply (idle_progress target U now q Hinv); by rewrite Hc.
Qed.

(** A network of four nodes that know each other, one of which does not answer. *)
Definition sample_network : list NodeId := sample_id <$> [1; 2; 3; 4]%Z.
Definition sample_respond (n : NodeId) : option (list NodeId) :=
  if decide (n ∈ sample_network /\ n <> sample_id 2) then Some sample_network else None.

Lemma sample_known_ok : known_ok [Key.from_node_id (sample_id 4)].
Proof. by repeat constructor. Qed.

Lemma sample_known k : k ∈ [Key.from_node_id (sample_id 4)] -> Key.preimage k ∈ sample_network.
Proof. intros ->%list_elem_of_singleton. apply list_elem_of_fmap. exists 4%Z. split; [done|set_solver]. Qed.

Lemma sample_member : sample_id 2 ∈ sample_network.
Proof. apply list_elem_of_fmap. exists 2%Z. split; [done|set_solver]. Qed.

Lemma sample_reports n peers : sample_respond n = Some peers -> forall x, x ∈ peers <-> x ∈ sample_network.
Proof. unfold sample_respond. case_decide; [|done]. by intros [= <-]. Qed.

Lemma findnode_lookup_terminates_witness :
  exists k q, nsteps (turn sample_respond) k
      (with_config sample_config (Key.from_node_id (sample_id 0)) [Key.from_node_id (sample_id 4)], []) (q, []) /\ k <= 24 /\
    exists q', next 0 q = Ret (q', QFinished).
Proof.
  destruct (lookup sample_respond 5 0 (with_config sample_config (Key.from_node_id (sample_id 0)) [Key.from_node_id (sample_id 4)]))
    as [[q'|]|] eqn:El; [|vm_compute in El; discriminate..].
  destruct (lookup_turns sample_respond 5 0 _ q' El) as (k & q & Hs & Hn). exists k, q. split; [exact Hs|].
  split; [|exists q'; exact Hn].
  exact (proj1 (findnode_lookup_terminates sample_respond sample_network sample_config (Key.from_node_id (sample_id 0))
    [Key.from_node_id (sample_id 4)] sample_known_ok ltac:(simpl; lia) ltac:(simpl; lia) sample_known
    (fun n peers Hn x => proj1 (sample_reports n peers Hn x)) k q [] Hs)).
Defined.

(** C6: What a lookup finds.  When every peer that answers reports all the nodes
    [U], a finished lookup, however it was driven, has missed none of the closest:
    unless nobody answered at all, a node of [U] is in the result, or it failed or
    timed out when it was contacted, or the result is full with nodes that are
    all closer to the target. *)
Theorem findnode_lookup_closest (respond : NodeId -> option (list NodeId)) (U : list NodeId)
    (cfg : FindNodeQueryConfig) (target : Key NodeId) (known : list (Key NodeId)) :
  known_ok known -> (forall k, k ∈ known -> Key.preimage k ∈ U) ->
  (forall n peers, respond n = Some peers -> forall x, x ∈ peers <-> x ∈ U) ->
  forall k q out now q', nsteps (turn respond) k (with_config cfg target known, []) (q, out) ->
    next now q = Ret (q', QFinished) ->
    into_result q' = [] \/
    forall u, u ∈ U ->
      u ∈ into_result q' \/
      (exists d p, (d, p) ∈ closest_peers q' /\ Key.preimage (key p) = u /\ (state p = Failed \/ state p = Unresponsive)) \/
      (length (into_result q') = num_results cfg /\
       forall r, r ∈ into_result q' ->
         (Key.distance (Key.from_node_id r) target < Key.distance (Key.from_node_id u) target)%Z).
Proof.
  intros Hk HU Hrep k q out now q' Hs E. set (s0 := (with_config cfg target known, []) : FindNodeQuery NodeId * list NodeId) in *.
  pose proof (new_lookup_inv target U cfg known Hk HU) as Hinv0.
  destruct (turns_measure respond target U (fun n p Hn x => proj1 (Hrep n p Hn x)) k _ _ Hinv0 Hs) as (Hinv & _ & Hc).
  assert (full target U q) as Hf.
  { apply (turns_full respond target U (fun n p Hn x => proj1 (Hrep n p Hn x)) (fun n p Hn x => proj2 (Hrep n p Hn x)) k s0 (q, out) Hinv0 Hs).
    intros (d & p & Hin & Hp). apply collect_elem, elem_of_take in Hin as (i & Hi & _).
    apply list_lookup_fmap_Some in Hi as (k' & [= -> ->] & _). done. }
  destruct (poll_inv target U now q q' QFinished out Hinv E) as ([Hq' [Ht' _] _] & _ & _ & Hc'). simpl in *.
  pose proof (next_full target U now q q' _ (li_query _ _ _ Hinv) E Hf) as Hf'.
  destruct (next_ok now q (li_query _ _ _ Hinv)) as (q1 & st1 & E1 & _ & Ha). simpl in E1. rewrite E in E1. injection E1 as <- <-.
  destruct Ha as [Hfin _]. destruct (into_result q') as [|r0 l0] eqn:Er; [by left|right]. intros u Hu.
  assert (exists d p, (d, p) ∈ closest_peers q' /\ state p = Succeeded) as Hsome.
  { assert (r0 ∈ into_result q') as Hr by (rewrite Er; by left). apply elem_of_take in Hr as (i & Hi%list_elem_of_lookup_2 & _).
    apply elem_of_results in Hi as (d & p & Hp & Hst & _). by exists d, p. }
  destruct (proj1 (elem_of_keys _ _) (Hf' Hsome u Hu)) as (p & Hp).
  destruct (inv_peers q' (proj1 Hq') _ p Hp) as [Hd Hkey].
  assert (Key.preimage (key p) = u) as Hu'.
  { rewrite Ht', (Key.distance_sym (key p)) in Hd. apply Key.distance_unidirectional in Hd. rewrite Hkey in Hd. by symmetry. }
  rewrite <-Er. destruct (finished_places q' _ p Hq' Hfin Hp) as [Hr|[Hst|[Hst|[Hlen Hcl]]]].
  - left. by rewrite <-Hu'.
  - right. left. eauto 10.
  - right. left. eauto 10.
  - right. right. split; [congruence|]. intros r Hr. rewrite (Key.distance_sym (Key.from_node_id u) target).
    specialize (Hcl r Hr). by rewrite Ht' in Hcl.
Qed.

Lemma findnode_lookup_closest_witness :
  exists q', lookup sample_respond 5 0 (with_config sample_config (Key.from_node_id (sample_id 0)) [Key.from_node_id (sample_id 4)]) =
      Ret (Some q') /\ into_result q' = [sample_id 1; sample_id 3; sample_id 4] /\
    (sample_id 2 ∈ into_result q' \/
     (exists d p, (d, p) ∈ closest_peers q' /\ Key.preimage (key p) = sample_id 2 /\ (state p = Failed \/ state p = Unresponsive)) \/
     (length (into_result q') = 16 /\ forall r, r ∈ into_result q' ->
        (Key.distance (Key.from_node_id r) (Key.from_node_id (sample_id 0)) <
         Key.distance (Key.from_node_id (sample_id 2)) (Key.from_node_id (sample_id 0)))%Z)).
Proof.
  destruct (lookup sample_respond 5 0 (with_config sample_config (Key.from_node_id (sample_id 0)) [Key.from_node_id (sample_id 4)]))
    as [[q'|]|] eqn:El; [|vm_compute in El; discriminate..].
  exists q'. split; [reflexivity|].
  assert (into_result q' = [sample_id 1; sample_id 3; sample_id 4]) as Hr
    by (pose proof El as El'; vm_compute in El'; injection El' as <-; vm_compute; reflexivity).
  split; [exact Hr|]. destruct (lookup_turns sample_respond 5 0 _ q' El) as (k & q1 & Hs & Hn).
  destruct (findnode_lookup_closest sample_respond sample_network sample_config (Key.from_node_id (sample_id 0))
    [Key.from_node_id (sample_id 4)] sample_known_ok sample_known sample_reports k q1 [] 0 q' Hs Hn) as [He|Hall];
    [rewrite Hr in He; discriminate|].
  apply Hall, sample_member.
Defined.
