(* ===== verification/Predicate.v ===== *)
(** * The predicate query (src/src/query_pool/peers/predicate.rs)

    [PredicateQuery] is a FINDNODE query whose peers carry a flag that says
    whether their record matches a predicate; only matching peers count as
    results.  The record type comes with its node id ([TResult: Into<TNodeId>]).
    The configuration, the progress and the peer states are declared again in
    the source, with the same constructors as those of [FindNodeQuery]. *)

From S2P Require Import Prelude Bytes Key BTree Closest FindNode.
Import BTree.

Module Predicate.

Definition PredicateQueryConfig : Type := FindNode.FindNodeQueryConfig.
Definition QueryProgress : Type := FindNode.QueryProgress.
Definition QueryPeerState : Type := FindNode.QueryPeerState.
Import FindNode (parallelism, num_results, peer_timeout, Iterating, Stalled, Finished,
                 NotContacted, Waiting, Unresponsive, Failed, Succeeded).

Record QueryPeer (N : Type) := mkPeer {
  key : Key N;
  peers_returned : nat;
  predicate_match : bool;
  state : QueryPeerState;
}.
Arguments mkPeer {N} key peers_returned predicate_match state.
Arguments key {N} _.
Arguments peers_returned {N} _.
Arguments predicate_match {N} _.
Arguments state {N} _.

Record PredicateQuery (N R : Type) := mkQuery {
  target_key : Key N;
  progress : QueryProgress;
  closest_peers : BTreeMap (QueryPeer N);
  num_waiting : nat;
  predicate : R -> bool;
  config : PredicateQueryConfig;
}.
Arguments mkQuery {N R} target_key progress closest_peers num_waiting predicate config.
Arguments target_key {N R} _.
Arguments progress {N R} _.
Arguments closest_peers {N R} _.
Arguments num_waiting {N R} _.
Arguments predicate {N R} _.
Arguments config {N R} _.

Section Query.
Context {N R : Type} `{IntoKey N} (into_id : R -> N).
Implicit Types (q : PredicateQuery N R) (p : QueryPeer N) (m : BTreeMap (QueryPeer N)).

Definition peer_new (k : Key N) (st : QueryPeerState) (predicate_match : bool) : QueryPeer N :=
  mkPeer k 0 predicate_match st.

Definition set_state p (st : QueryPeerState) : QueryPeer N :=
  mkPeer (key p) (peers_returned p) (predicate_match p) st.

Definition with_config (cfg : PredicateQueryConfig) (target : Key N)
    (known_closest_peers : list (Closest.PredicateKey N)) (pred : R -> bool) : PredicateQuery N R :=
  let peers := (fun k =>
    (Key.distance (Closest.pk_key k) target,
     peer_new (Closest.pk_key k) NotContacted (Closest.pk_match k))) <$> known_closest_peers in
  mkQuery target (Iterating 0) (collect (take (num_results cfg) peers)) 0 pred cfg.

Fixpoint incorporate (cfg : PredicateQueryConfig) (target : Key N) (pred : R -> bool) (num_closest : nat)
    m (progress : bool) (closer_peers : list R) : BTreeMap (QueryPeer N) * bool :=
  match closer_peers with
  | [] => (m, progress)
  | result :: closer_peers =>
      let predicate_match := pred result in
      let k := into_key (into_id result) in
      let distance := Key.distance target k in
      let m := or_insert m distance (peer_new k NotContacted predicate_match) in
      let progress := bool_decide (head (keys m) = Some distance) ||
                      bool_decide (num_closest < num_results cfg) in
      incorporate cfg target pred num_closest m progress closer_peers
  end.

Definition update_progress (cfg : PredicateQueryConfig) (pr : QueryProgress) (progress : bool) : QueryProgress :=
  match pr with
  | Iterating no_progress =>
      let no_progress := if progress then 0 else no_progress + 1 in
      if decide (parallelism cfg <= no_progress) then Stalled else Iterating no_progress
  | Stalled => if progress then Iterating 0 else Stalled
  | Finished => Finished
  end.

Definition on_success q (node_id : N) (closer_peers : list R) : outcome (PredicateQuery N R) :=
  match progress q with
  | Finished => Ret q
  | _ =>
      let distance := Key.distance (into_key node_id) (target_key q) in
      let succeed p :=
        mkPeer (key p) (peers_returned p + length closer_peers) (predicate_match p) Succeeded in
      let continue (nw : nat) :=
        let m := update (closest_peers q) distance succeed in
        let '(m, pr) := incorporate (config q) (target_key q) (predicate q) (length m) m false closer_peers in
        mkQuery (target_key q) (update_progress (config q) (progress q) pr) m nw (predicate q) (config q) in
      match get (closest_peers q) distance with
      | None => Ret q
      | Some p =>
          match state p with
          | Waiting _ => nw ← unwrap (checked_sub (num_waiting q) 1); Ret (continue nw)
          | Unresponsive => Ret (continue (num_waiting q))
          | NotContacted | Failed | Succeeded => Ret q
          end
      end
  end.

(** Unlike [FindNodeQuery], a failure is recorded for a waiting peer only. *)
Definition on_failure q (peer : N) : outcome (PredicateQuery N R) :=
  match progress q with
  | Finished => Ret q
  | _ =>
      let distance := Key.distance (into_key peer) (target_key q) in
      match get (closest_peers q) distance with
      | Some p =>
          match state p with
          | Waiting _ =>
              nw ← unwrap (checked_sub (num_waiting q) 1);
              Ret (mkQuery (target_key q) (progress q)
                     (update (closest_peers q) distance (fun p => set_state p Failed))
                     nw (predicate q) (config q))
          | _ => Ret q
          end
      | None => Ret q
      end
  end.

Definition at_capacity q : bool :=
  match progress q with
  | Stalled => bool_decide (num_results (config q) <= num_waiting q)
  | Iterating _ => bool_decide (parallelism (config q) <= num_waiting q)
  | Finished => true
  end.

(** The loop of [next] over the peers. *)
Fixpoint scan (now : Z) (cfg : PredicateQueryConfig) (at_cap : bool) (result_counter : option nat)
    (nw : nat) m : outcome (BTreeMap (QueryPeer N) * nat * option (QueryState N)) :=
  match m with
  | [] => Ret ([], nw, None)
  | (d, p) :: m' =>
      match state p with
      | NotContacted =>
          if negb at_cap then
            Ret ((d, set_state p (Waiting (now + peer_timeout cfg))) :: m', S nw,
                 Some (QWaiting (Some (Key.preimage (key p)))))
          else Ret (m, nw, Some QWaitingAtCapacity)
      | Waiting timeout =>
          if Z.leb timeout now then
            nw ← unwrap (checked_sub nw 1);
            '(m', nw, r) ← scan now cfg at_cap result_counter nw m';
            Ret ((d, set_state p Unresponsive) :: m', nw, r)
          else if at_cap then Ret (m, nw, Some QWaitingAtCapacity)
          else
            '(m', nw, r) ← scan now cfg at_cap (if predicate_match p then None else result_counter) nw m';
            Ret ((d, p) :: m', nw, r)
      | Succeeded =>
          match result_counter with
          | Some cnt =>
              if predicate_match p then
                let cnt := S cnt in
                if decide (num_results cfg <= cnt) then Ret (m, nw, Some QFinished)
                else
                  '(m', nw, r) ← scan now cfg at_cap (Some cnt) nw m';
                  Ret ((d, p) :: m', nw, r)
              else
                '(m', nw, r) ← scan now cfg at_cap (Some cnt) nw m';
                Ret ((d, p) :: m', nw, r)
          | None =>
              '(m', nw, r) ← scan now cfg at_cap None nw m';
              Ret ((d, p) :: m', nw, r)
          end
      | Failed | Unresponsive =>
          '(m', nw, r) ← scan now cfg at_cap result_counter nw m';
          Ret ((d, p) :: m', nw, r)
      end
  end.

Definition next (now : Z) q : outcome (PredicateQuery N R * QueryState N) :=
  match progress q with
  | Finished => Ret (q, QFinished)
  | _ =>
      '(m, nw, r) ← scan now (config q) (at_capacity q) (Some 0) (num_waiting q) (closest_peers q);
      let leave pr := mkQuery (target_key q) pr m nw (predicate q) (config q) in
      match r with
      | Some QFinished => Ret (leave Finished, QFinished)
      | Some st => Ret (leave (progress q), st)
      | None =>
          if decide (0 < nw) then Ret (leave (progress q), QWaiting None)
          else Ret (leave Finished, QFinished)
      end
  end.

Definition is_result p : bool :=
  match state p with Succeeded => predicate_match p | _ => false end.

Definition into_result q : list N :=
  take (num_results (config q))
    (omap (fun '(_, p) => if is_result p then Some (Key.into_preimage (key p)) else None) (closest_peers q)).
End Query.
End Predicate.
