(* ===== verification/PredicateProofs.v ===== *)
(** * The predicate query against the FINDNODE query

    Forgetting the flags maps a predicate query to a FINDNODE query.  Results
    and failures commute with it; [next] does when every peer matches, and in
    general differs from it only by when it finishes.  The flags are those the
    peers were known with, or what the predicate says of a reported record. *)

From Stdlib Require Import Sorting.Sorted.
From S2P Require Import Prelude Bytes Key BTree Closest FindNode FindNodeProofs FindNodeTrace Predicate.
Import BTree.

Notation FQ := FindNode.FindNodeQuery.
Import FindNodeTrace Predicate.

Section Erase.
Context {N R : Type} `{IntoKeyLaw N} (into_id : R -> N).
Implicit Types (q : PredicateQuery N R) (p : QueryPeer N) (m : BTreeMap (QueryPeer N)).

Definition erase_peer p : FindNode.QueryPeer N := FindNode.mkPeer (key p) (peers_returned p) (state p).
Definition erase_entry (e : Z * QueryPeer N) : Z * FindNode.QueryPeer N := (fst e, erase_peer (snd e)).
Definition erase_map m : BTreeMap (FindNode.QueryPeer N) := erase_entry <$> m.
Definition erase q : FQ N :=
  FindNode.mkQuery (target_key q) (progress q) (erase_map (closest_peers q)) (num_waiting q) (config q).

Lemma erase_map_cons e m : erase_map (e :: m) = erase_entry e :: erase_map m.
Proof. done. Qed.

Lemma keys_erase m : keys (erase_map m) = keys m.
Proof. unfold keys, erase_map. rewrite <-list_fmap_compose. by apply list_fmap_ext. Qed.

Lemma get_erase m d : get (erase_map m) d = erase_peer <$> get m d.
Proof. induction m as [|[d' p] m IH]; csimpl; [done|]. by destruct (Z.eqb d d'). Qed.

Lemma insert_erase m d p : insert (erase_map m) d (erase_peer p) = erase_map (insert m d p).
Proof.
  induction m as [|[d' p'] m IH]; csimpl; [done|]. destruct (Z.ltb d d'); [done|].
  destruct (Z.eqb d d'); [done|]. csimpl. by rewrite IH.
Qed.

Lemma or_insert_erase m d p : or_insert (erase_map m) d (erase_peer p) = erase_map (or_insert m d p).
Proof. unfold or_insert. rewrite get_erase. destruct (get m d); [done|]. apply insert_erase. Qed.

Lemma update_erase m d f g :
  (forall p, g (erase_peer p) = erase_peer (f p)) -> update (erase_map m) d g = erase_map (update m d f).
Proof.
  intros Hfg. unfold update, erase_map. rewrite <-!list_fmap_compose. apply list_fmap_ext.
  intros i [d' p] _. simpl. unfold erase_entry. simpl. destruct (Z.eqb d d'); simpl; by rewrite ?Hfg.
Qed.

Lemma incorporate_erase cfg target pred nc m pr rs :
  FindNode.incorporate cfg target nc (erase_map m) pr (into_id <$> rs) =
  (fun '(m, b) => (erase_map m, b)) (incorporate into_id cfg target pred nc m pr rs).
Proof.
  revert m pr; induction rs as [|r rs IH]; intros m pr; csimpl; [done|].
  change (FindNode.peer_new (into_key (into_id r)) FindNode.NotContacted)
    with (erase_peer (peer_new (into_key (into_id r)) FindNode.NotContacted (pred r))).
  rewrite or_insert_erase, keys_erase. apply IH.
Qed.

Lemma length_erase m : length (erase_map m) = length m.
Proof. apply length_fmap. Qed.

(** A delivered result. *)
Lemma on_success_erase q n rs :
  FindNode.on_success (erase q) n (into_id <$> rs) = erase <$> on_success into_id q n rs.
Proof.
  unfold FindNode.on_success, on_success. cbn [FindNode.progress FindNode.closest_peers FindNode.target_key
    FindNode.num_waiting FindNode.config erase].
  set (d := Key.distance (into_key n) (target_key q)).
  assert (forall nw,
    (let mf := update (erase_map (closest_peers q)) d (fun x => FindNode.mkPeer (FindNode.key x)
        (FindNode.peers_returned x + length (into_id <$> rs)) FindNode.Succeeded) in
     let '(mf, pr) := FindNode.incorporate (config q) (target_key q) (length mf) mf false (into_id <$> rs) in
     FindNode.mkQuery (target_key q) (FindNode.update_progress (config q) (progress q) pr) mf nw (config q)) =
    erase (let m := update (closest_peers q) d (fun p => mkPeer (key p)
        (peers_returned p + length rs) (predicate_match p) FindNode.Succeeded) in
     let '(m, pr) := incorporate into_id (config q) (target_key q) (predicate q) (length m) m false rs in
     mkQuery (target_key q) (update_progress (config q) (progress q) pr) m nw (predicate q) (config q))) as Hgo.
  { intros nw. rewrite length_fmap.
    rewrite (update_erase _ d (fun p => mkPeer (key p) (peers_returned p + length rs) (predicate_match p)
      FindNode.Succeeded)) by done.
    cbv zeta. rewrite length_erase, (incorporate_erase _ _ (predicate q)).
    by destruct (incorporate _ _ _ _ _ _ _ _). }
  destruct (progress q) eqn:Ep; [..|done]; rewrite get_erase.
  all: destruct (get (closest_peers q) d) as [p|]; [|done]; simpl.
  all: destruct (state p); try done.
  1, 3: destruct (checked_sub (num_waiting q) 1); [|done]; cbn; f_equal; apply Hgo.
  all: cbn; f_equal; apply Hgo.
Qed.

(** A failure, except that of an unresponsive peer. *)
Lemma on_failure_erase q n :
  (forall p, get (closest_peers q) (Key.distance (into_key n) (target_key q)) = Some p ->
     state p <> FindNode.Unresponsive) ->
  FindNode.on_failure (erase q) n = erase <$> on_failure q n.
Proof.
  intros Hne. unfold FindNode.on_failure, on_failure. cbn [FindNode.progress FindNode.closest_peers
    FindNode.target_key FindNode.num_waiting FindNode.config erase].
  set (d := Key.distance (into_key n) (target_key q)) in *. rewrite get_erase.
  destruct (decide (progress q = FindNode.Finished)) as [Ep|Ep]; [by rewrite Ep|].
  assert (forall A (x y : A), match progress q with FindNode.Finished => x | _ => y end = y) as Hp
    by (intros; by destruct (progress q)).
  rewrite !Hp. destruct (get (closest_peers q) d) as [p|] eqn:Eg; [|done]. simpl.
  specialize (Hne p eq_refl). destruct (state p); try done.
  destruct (checked_sub (num_waiting q) 1) as [nw|]; [|done]. cbn. f_equal. unfold erase. simpl. f_equal.
  by apply update_erase.
Qed.

Lemma on_failure_unresponsive q n p :
  get (closest_peers q) (Key.distance (into_key n) (target_key q)) = Some p ->
  state p = FindNode.Unresponsive -> on_failure q n = Ret q.
Proof. intros Hg Hs. unfold on_failure. rewrite Hg, Hs. by destruct (progress q). Qed.

Lemma at_capacity_erase q : FindNode.at_capacity (erase q) = at_capacity q.
Proof. done. Qed.

(** A peer whose time is up. *)
Definition pexpire (now : Z) (e : Z * QueryPeer N) : Z * QueryPeer N :=
  match state (snd e) with
  | FindNode.Waiting t => if Z.leb t now then (fst e, set_state (snd e) FindNode.Unresponsive) else e
  | _ => e
  end.

Lemma pexpire_erase now e : erase_entry (pexpire now e) = expire now (erase_entry e).
Proof.
  unfold pexpire, expire. simpl. destruct (state (snd e)) as [|t| | |]; try done. by destruct (Z.leb t now).
Qed.

(** A matching peer has settled. *)
Definition match_settled (e : Z * QueryPeer N) : Prop := predicate_match (snd e) = true -> settled (erase_entry e).
Definition result (e : Z * QueryPeer N) : bool := is_result (snd e).

(** The loop stops at the last result it needs. *)
Definition scan_finishes (now : Z) cfg cnt (nw nw' : nat) m m' : Prop :=
  exists pre d p tl, m = pre ++ (d, p) :: tl /\ m' = (pexpire now <$> pre) ++ (d, p) :: tl /\
    is_result p = true /\ Forall contacted (erase_map pre) /\ Forall match_settled (pexpire now <$> pre) /\
    nw' + countb is_waiting (erase_map m) = nw + countb is_waiting (erase_map m') /\
    exists c, cnt = Some c /\ c + countb result pre + 1 = Nat.max (S c) (FindNode.num_results cfg).

Lemma scan_finishes_cons now cfg cnt cnt' nw nw1 nw' e m m' :
  scan_finishes now cfg cnt' nw1 nw' m m' -> contacted (erase_entry e) ->
  nw + (if is_waiting (expire now (erase_entry e)) then 1 else 0) =
    nw1 + (if is_waiting (erase_entry e) then 1 else 0) ->
  (forall c', cnt' = Some c' -> match_settled (pexpire now e) /\ exists c, cnt = Some c /\
     c' = c + (if result e then 1 else 0) /\
     Nat.max (S c) (FindNode.num_results cfg) = Nat.max (S c') (FindNode.num_results cfg)) ->
  scan_finishes now cfg cnt nw nw' (e :: m) (pexpire now e :: m').
Proof.
  intros (pre & d & p & tl & -> & -> & Hr & Hc & Hs & Hw & c' & Hc' & Heq) He Hnw Hcnt.
  destruct (Hcnt c' Hc') as (Hse & c & -> & -> & Hmax).
  exists (e :: pre), d, p, tl. split_and!; [done|done|done|by constructor|by constructor|..].
  - change ((pexpire now <$> e :: pre) ++ (d, p) :: tl)
      with (pexpire now e :: ((pexpire now <$> pre) ++ (d, p) :: tl)).
    change ((e :: pre) ++ (d, p) :: tl) with (e :: (pre ++ (d, p) :: tl)).
    rewrite !erase_map_cons, pexpire_erase, !countb_cons. lia.
  - exists c. split; [done|]. rewrite countb_cons. lia.
Qed.

(** The loop does what the loop of a FINDNODE query does that never finishes,
    unless it stops at the last result. *)
Definition scan_agrees now cfg cnt nw m
    (o : outcome (BTreeMap (QueryPeer N) * nat * option (QueryState N)))
    (o' : outcome (BTreeMap (FindNode.QueryPeer N) * nat * option (QueryState N))) : Prop :=
  (exists m' nw' r, o = Ret (m', nw', r) /\ o' = Ret (erase_map m', nw', r) /\ r <> Some QFinished) \/
  (exists m' nw', o = Ret (m', nw', Some QFinished) /\ scan_finishes now cfg cnt nw nw' m m') \/
  o' = Panic.

(** The loops go past a peer and on. *)
Lemma scan_agrees_cons now cfg cnt cnt' nw nw1 e e' m o o' :
  scan_agrees now cfg cnt' nw1 m o o' -> e' = pexpire now e -> contacted (erase_entry e) ->
  nw + (if is_waiting (expire now (erase_entry e)) then 1 else 0) =
    nw1 + (if is_waiting (erase_entry e) then 1 else 0) ->
  (forall c', cnt' = Some c' -> match_settled (pexpire now e) /\ exists c, cnt = Some c /\
     c' = c + (if result e then 1 else 0) /\
     Nat.max (S c) (FindNode.num_results cfg) = Nat.max (S c') (FindNode.num_results cfg)) ->
  scan_agrees now cfg cnt nw (e :: m)
    ('(m', nw', r) ← o; Ret (e' :: m', nw', r)) ('(m', nw', r) ← o'; Ret (erase_entry e' :: m', nw', r)).
Proof.
  intros [(m' & nw' & r & -> & -> & Hr)|[(m' & nw' & -> & Hf)| ->]] -> Hc Hnw Hcnt.
  - left. by eexists _, _, _.
  - right. left. eexists _, _. split; [done|]. by eapply scan_finishes_cons.
  - by do 2 right.
Qed.

Lemma scan_erase now cfg at_cap cnt nw m :
  scan_agrees now cfg cnt nw m (scan now cfg at_cap cnt nw m) (FindNode.scan now cfg at_cap None nw (erase_map m)).
Proof.
  revert cnt nw; induction m as [|[d p] m IH]; intros cnt nw; [left; by eexists _, _, _|].
  cbn [scan]. change (erase_map ((d, p) :: m)) with ((d, erase_peer p) :: erase_map m).
  cbn [FindNode.scan FindNode.state erase_peer].
  pose proof (fun nw1 cnt' e' => scan_agrees_cons now cfg cnt cnt' nw nw1 (d, p) e' m _ _ (IH cnt' nw1)) as Hgo.
  unfold result, match_settled, settled, contacted, is_waiting, is_result, pexpire, expire in Hgo.
  cbn [fst snd erase_entry FindNode.state erase_peer] in Hgo.
  destruct (state p) as [|t| | |] eqn:Es; cbn [fst snd] in Hgo.
  - left. destruct at_cap; by eexists _, _, _.
  - destruct (Z.leb t now) eqn:Et.
    + destruct (checked_sub nw 1) as [nw1|] eqn:Enw; [|by do 2 right]. simpl.
      apply Hgo; [done|done| |]; simpl.
      * destruct nw; [done|]. rewrite checked_sub_S in Enw. simplify_eq/=. lia.
      * intros c ->. split; [done|]. exists c. split_and!; [done|lia|done].
    + destruct at_cap; [left; by eexists _, _, _|].
      apply Hgo; [done|done| |]; simpl; rewrite ?Es; [done|].
      intros c' Hc'. destruct (predicate_match p) eqn:Em; [done|].
      split; [done|]. exists c'. split_and!; [done|lia|done].
  - apply Hgo; [done|done| |]; simpl; rewrite ?Es; [done|].
    intros c' ->. split; [done|]. exists c'. split_and!; [done|lia|done].
  - apply Hgo; [done|done| |]; simpl; rewrite ?Es; [done|].
    intros c' ->. split; [done|]. exists c'. split_and!; [done|lia|done].
  - destruct cnt as [c|].
    + destruct (predicate_match p) eqn:Em; simpl.
      * case_decide.
        -- right. left. eexists _, _. split; [done|]. exists [], d, p, m.
           split_and!; [done|done|unfold is_result; by rewrite Es|constructor|constructor|done|].
           exists c. split; [done|]. simpl. lia.
        -- apply Hgo; [done|done| |]; simpl; rewrite ?Es; [done|].
           intros c' [= <-]. split; [done|]. exists c. split_and!; [done|lia|lia].
      * apply Hgo; [done|done| |]; simpl; rewrite ?Es; [done|].
        intros c' [= <-]. split; [done|]. exists c. split_and!; [done|lia|done].
    + apply Hgo; [done|done| |done]; simpl; by rewrite ?Es.
Qed.

(** ** Invariant *)

(** Up to the last result that counts, or up to the end, every peer has been
    contacted and every matching peer has settled. *)
Definition pfinished q : Prop :=
  exists pre rest, closest_peers q = pre ++ rest /\ Forall contacted (erase_map pre) /\
    Forall match_settled pre /\ (rest = [] \/ countb result pre = Nat.max 1 (FindNode.num_results (config q))).

Definition pquery_inv q : Prop :=
  base_inv (erase q) /\ (progress q = FindNode.Finished -> pfinished q).

Definition pstep q q' : Prop :=
  step_base (erase q) (erase q') /\ (progress q' = FindNode.Finished -> pfinished q').

Lemma pstep_refl q : pquery_inv q -> pstep q q.
Proof. intros [Hb Hf]. by split; [apply step_base_refl|]. Qed.

Lemma pstep_inv q q' : pstep q q' -> pquery_inv q'.
Proof. intros [(Hb & _) Hf]. by split. Qed.

Lemma on_success_finished q n rs q' :
  on_success into_id q n rs = Ret q' -> progress q' = FindNode.Finished -> q' = q.
Proof.
  unfold on_success. intros Hq Hf. destruct (progress q) eqn:Ep; [..|congruence].
  all: destruct (get _ _) as [p|]; [|congruence]; destruct (state p); try congruence; simpl in Hq.
  1, 3: destruct (checked_sub _ _); [|done]; simpl in Hq.
  all: destruct (incorporate _ _ _ _ _ _ _ _) as [m b]; injection Hq as <-; simpl in Hf;
    by repeat case_match.
Qed.

Lemma on_success_pok q n rs : pquery_inv q -> exists q', on_success into_id q n rs = Ret q' /\ pstep q q'.
Proof.
  intros [Hb Hf]. destruct (on_success_base (erase q) n (into_id <$> rs) Hb) as (fq & Hq & Hs & _).
  rewrite on_success_erase in Hq. apply fmap_ret_inv in Hq as (q' & Hq & ->).
  exists q'. split; [done|]. split; [done|]. intros Hp.
  rewrite (on_success_finished _ _ _ _ Hq Hp) in Hp |- *. auto.
Qed.

Lemma on_failure_pok q n : pquery_inv q -> exists q', on_failure q n = Ret q' /\ pstep q q'.
Proof.
  intros [Hb Hf].
  assert ((exists p, get (closest_peers q) (Key.distance (into_key n) (target_key q)) = Some p /\
      state p = FindNode.Unresponsive) \/
    (forall p, get (closest_peers q) (Key.distance (into_key n) (target_key q)) = Some p ->
      state p <> FindNode.Unresponsive)) as [(p & Hg & Hst)|Hne].
  { destruct (get _ _) as [p|]; [|by right].
    destruct (state p) eqn:Es; (left; by exists p) || (right; intros ? [= <-]; congruence). }
  - exists q. split; [by eapply on_failure_unresponsive|]. by apply pstep_refl.
  - destruct (on_failure_base (erase q) n Hb) as (fq & Hq & Hs & Hfin).
    rewrite on_failure_erase in Hq by done. apply fmap_ret_inv in Hq as (q' & Hq & ->).
    exists q'. split; [done|]. split; [done|]. intros Hp. specialize (Hfin Hp).
    assert (q' = q) as ->; [|auto]. unfold on_failure in Hq.
    assert (progress q = FindNode.Finished) as Hpq by (injection Hfin; congruence).
    rewrite Hpq in Hq. congruence.
Qed.

Lemma erase_map_app m1 m2 : erase_map (m1 ++ m2) = erase_map m1 ++ erase_map m2.
Proof. apply fmap_app. Qed.

Lemma erase_pexpire now m : erase_map (pexpire now <$> m) = expire now <$> erase_map m.
Proof.
  unfold erase_map. rewrite <-!list_fmap_compose. apply list_fmap_ext. intros i e _. apply pexpire_erase.
Qed.

Lemma scan_finishes_step now cnt q m' nw' :
  base_inv (erase q) -> scan_finishes now (config q) cnt (num_waiting q) nw' (closest_peers q) m' ->
  step_base (erase q) (erase (mkQuery (target_key q) FindNode.Finished m' nw' (predicate q) (config q))).
Proof.
  intros Hb (pre & d & p & tl & Hm & -> & _ & _ & _ & Hw & _).
  assert (Forall2 moves (erase_map (closest_peers q)) (erase_map ((pexpire now <$> pre) ++ (d, p) :: tl))) as Hmv.
  { rewrite Hm, !erase_map_app, erase_pexpire.
    apply Forall2_app; [apply Forall2_moves_expire|apply Forall2_moves_refl]. }
  destruct (moves_all (target_key q) _ _ Hmv (inv_sorted _ Hb) (inv_peers _ Hb)) as (Hs & Hp & He).
  pose proof (inv_waiting _ Hb) as Hq. pose proof (inv_parallel _ Hb) as Hpar. simpl in Hq, Hpar.
  split_and!; [|done..]. constructor; cbn [erase FindNode.closest_peers FindNode.num_waiting FindNode.config
    FindNode.target_key closest_peers num_waiting config target_key]; [done|done|lia|].
  assert (countb is_waiting (erase_map ((pexpire now <$> pre) ++ (d, p) :: tl)) <=
          countb is_waiting (erase_map (closest_peers q))) as Hle; [|lia].
  rewrite Hm, !erase_map_app, erase_pexpire, !countb_app. pose proof (expire_waiting_le now (erase_map pre)). lia.
Qed.

Lemma scan_finishes_pfinished now q m' nw' :
  scan_finishes now (config q) (Some 0) (num_waiting q) nw' (closest_peers q) m' ->
  pfinished (mkQuery (target_key q) FindNode.Finished m' nw' (predicate q) (config q)).
Proof.
  intros (pre & d & p & tl & Hm & -> & Hr & Hc & Hs & _ & c & [= <-] & Hcnt).
  exists ((pexpire now <$> pre) ++ [(d, p)]), tl.
  assert (state p = FindNode.Succeeded) as Hst by (unfold is_result in Hr; by destruct (state p)).
  split_and!; [by rewrite <-app_assoc|..].
  - rewrite erase_map_app, erase_pexpire. apply Forall_app. split.
    + apply Forall_fmap. eapply Forall_impl; [exact Hc|]. intros e. apply expire_contacted.
    + constructor; [|done]. unfold contacted. simpl. by rewrite Hst.
  - apply Forall_app. split; [done|]. constructor; [|done]. intros _. unfold settled. simpl. by rewrite Hst.
  - right. rewrite countb_app, countb_cons. unfold result at 2. simpl. rewrite Hr.
    assert (countb result (pexpire now <$> pre) = countb result pre) as ->; [|simpl in *; lia].
    rewrite countb_fmap. apply countb_ext. intros e. unfold result, is_result, pexpire.
    destruct (state (snd e)) as [|t| | |] eqn:Es; simpl; rewrite ?Es; try done.
    destruct (Z.leb t now); simpl; by rewrite ?Es.
Qed.

Lemma next_pok now q :
  pquery_inv q -> exists q' st, next now q = Ret (q', st) /\ pstep q q' /\
    (st = QFinished -> progress q' = FindNode.Finished) /\
    forall n, st = QWaiting (Some n) -> contacts (erase q) (erase q') n /\ at_capacity q = false.
Proof.
  intros [Hb Hf]. unfold next. destruct (decide (progress q = FindNode.Finished)) as [Epr|Epr].
  { rewrite Epr. eexists _, _. split; [done|]. split; [by apply pstep_refl|done]. }
  assert (forall A (x y : A), match progress q with FindNode.Finished => x | _ => y end = y) as ->
    by (intros; by destruct (progress q)).
  destruct (scan_spec now (config q) (at_capacity q) None (num_waiting q) (erase_map (closest_peers q)))
    as (pre & rest & mf & nwf & rf & Hscan & Hm & Hc & Hr & Hw);
    [pose proof (inv_waiting _ Hb) as Hw0; simpl in Hw0; lia|].
  destruct (scan_erase now (config q) (at_capacity q) (Some 0) (num_waiting q) (closest_peers q))
    as [(m' & nw' & r & -> & Hscan' & Hne)|[(m' & nw' & -> & Hfin)|Hpanic]]; [| |congruence]; cbn [mbind outcome_bind].
  - rewrite Hscan in Hscan'. simplify_eq.
    assert (forall pr, step_base (erase q) (erase (mkQuery (target_key q) pr m' nw' (predicate q) (config q)))) as Hstep
      by (intros pr; by eapply (scan_step_base now None (erase q) pre rest)).
    destruct r as [[[n|]| |]|]; try done.
    + eexists _, _. split; [done|]. split; [split; [by apply Hstep|done]|]. split; [done|].
      intros n' [= <-]. apply scan_waiting in Hr as (Hcap & (d & p & Hp & -> & Hst & Hp') & _); [|done].
      split; [|done]. rewrite <-Hm in Hp. destruct (inv_peers _ Hb d p Hp) as [Hd Hk].
      unfold contacts. rewrite <-Hk, <-Hd. eexists _, _. split_and!; [exact Hp|done|exact Hp'|done].
    + eexists _, _. split; [done|]. by split; [split; [by apply Hstep|]|].
    + destruct Hr as [-> Hm']. case_decide as Hpos.
      { eexists _, _. split; [done|]. by split; [split; [by apply Hstep|]|]. }
      eexists _, _. split; [done|]. split; [|done]. split; [by apply Hstep|]. intros _.
      assert (Forall contacted (erase_map m')) as Hcon by by eapply scan_end_waiting.
      exists m', []. split_and!; [by rewrite app_nil_r|done| |by left].
      assert (Forall settled (erase_map m')) as Hset.
      { apply settled_all; [done|]. pose proof (inv_waiting _ Hb) as Hq. simpl in Hq. lia. }
      unfold erase_map in Hset. rewrite Forall_fmap in Hset. eapply Forall_impl; [exact Hset|].
      by intros e He _.
  - eexists _, _. split; [done|]. split; [|done]. split; [by eapply scan_finishes_step|]. intros _.
    by eapply scan_finishes_pfinished.
Qed.
End Erase.

Module PredicateTrace.

Inductive pquery_op (N R : Type) :=
  | POpSuccess (n : N) (closer_peers : list R)
  | POpFailure (n : N)
  | POpNext (now : Z).
Arguments POpSuccess {N R} n closer_peers.
Arguments POpFailure {N R} n.
Arguments POpNext {N R} now.

Section Trace.
Context {N R : Type} `{IntoKeyLaw N} (into_id : R -> N).
Implicit Types (q : PredicateQuery N R).

Definition run_pop q (op : pquery_op N R) : outcome (PredicateQuery N R * option (QueryState N)) :=
  match op with
  | POpSuccess n rs => q ← on_success into_id q n rs; Ret (q, None)
  | POpFailure n => q ← on_failure q n; Ret (q, None)
  | POpNext now => '(q, st) ← next now q; Ret (q, Some st)
  end.

(** The query after the calls, and the peers it asked to contact, in order. *)
Fixpoint run_pquery q (tr : list (pquery_op N R)) : outcome (PredicateQuery N R * list N) :=
  match tr with
  | [] => Ret (q, [])
  | op :: tr =>
      '(q, o) ← run_pop q op;
      '(q, ps) ← run_pquery q tr;
      Ret (q, match o with Some (QWaiting (Some n)) => n :: ps | _ => ps end)
  end.

(** The flags that the caller gives to the known peers. *)
Definition pknown_ok (known : list (Closest.PredicateKey N)) : Prop := known_ok (Closest.pk_key <$> known).

Lemma collect_erase (l : list (Z * QueryPeer N)) : collect (erase_map l) = erase_map (collect l).
Proof.
  unfold collect. change (@nil (Z * FindNode.QueryPeer N)) with (erase_map (@nil (Z * QueryPeer N))).
  generalize (@nil (Z * QueryPeer N)). induction l as [|[d p] l IH]; intros m; csimpl; [done|].
  by rewrite insert_erase, IH.
Qed.

Lemma with_config_erase cfg target (known : list (Closest.PredicateKey N)) (pred : R -> bool) :
  erase (with_config cfg target known pred) = FindNode.with_config cfg target (Closest.pk_key <$> known).
Proof.
  unfold with_config, FindNode.with_config, erase. simpl. f_equal. rewrite <-collect_erase. f_equal.
  unfold erase_map. rewrite fmap_take, <-!list_fmap_compose. done.
Qed.

Lemma with_config_pinv cfg target (known : list (Closest.PredicateKey N)) (pred : R -> bool) :
  pknown_ok known -> pquery_inv (with_config cfg target known pred).
Proof.
  intros Hk. split; [|done]. rewrite with_config_erase. by apply with_config_inv.
Qed.

Lemma run_pquery_ok q tr :
  pquery_inv q ->
  exists q' ps, run_pquery q tr = Ret (q', ps) /\ evolution (erase q) ps (erase q') /\ pquery_inv q'.
Proof.
  revert q; induction tr as [|op tr IH]; intros q Hinv; simpl.
  { exists q, []. split_and!; [done|apply evolution_refl, Hinv|done]. }
  assert (exists q1 o, run_pop q op = Ret (q1, o) /\ pstep q q1 /\
    forall n, o = Some (QWaiting (Some n)) -> contacts (erase q) (erase q1) n) as (q1 & o & -> & Hs1 & Ho).
  { destruct op as [n rs|n|now]; simpl.
    - destruct (on_success_pok into_id q n rs Hinv) as (q1 & -> & Hs). by eexists _, _.
    - destruct (on_failure_pok q n Hinv) as (q1 & -> & Hs). by eexists _, _.
    - destruct (next_pok now q Hinv) as (q1 & st & -> & Hs & _ & Hn). eexists _, _. split; [done|].
      split; [done|]. intros n [= ->]. by apply Hn. }
  simpl. destruct (IH q1 (pstep_inv _ _ Hs1)) as (q2 & ps & -> & Hev & Hinv2). simpl.
  eexists _, _. split; [done|]. split; [|done]. destruct Hs1 as [Hs1 _].
  destruct o as [[[n|]| |]|]; try (by eapply evolution_silent).
  eapply evolution_contact; [apply Hinv|done|by apply Ho|done].
Qed.
(** *** Flags

    The flag of a peer is set when it enters the query and never changes. *)

Definition flags (m : BTreeMap (QueryPeer N)) : list (Key N * bool) := (fun e => (key (snd e), predicate_match (snd e))) <$> m.

Lemma flags_update m d f :
  (forall p, key (f p) = key p /\ predicate_match (f p) = predicate_match p) -> flags (update m d f) = flags m.
Proof.
  intros Hf. unfold flags, update. rewrite <-list_fmap_compose. apply list_fmap_ext. intros i [d' p] _. simpl.
  destruct (Z.eqb d d'); simpl; [|done]. by destruct (Hf p) as [-> ->].
Qed.

Lemma scan_flags now cfg at_cap cnt nw m m' nw' r :
  scan now cfg at_cap cnt nw m = Ret (m', nw', r) -> flags m' = flags m.
Proof.
  revert cnt nw m' nw' r; induction m as [|[d p] m IH]; intros cnt nw m' nw' r; [by intros [= <- _ _]|].
  assert (forall cnt nw e', (key (snd e'), predicate_match (snd e')) = (key p, predicate_match p) ->
    ('(m', nw', r) ← scan now cfg at_cap cnt nw m; Ret (e' :: m', nw', r)) = Ret (m', nw', r) -> flags m' = flags ((d, p) :: m)) as Hgo.
  { intros cnt1 nw1 e' He. destruct (scan now cfg at_cap cnt1 nw1 m) as [[[m1 nw2] r1]|] eqn:E; [|done].
    intros [= <- _ _]. unfold flags in *. csimpl. rewrite He. f_equal. by eapply IH. }
  cbn [scan]. destruct (state p) as [|t| | |]; [| |by apply Hgo..|].
  - destruct at_cap; by intros [= <- _ _].
  - destruct (Z.leb t now); [destruct (checked_sub nw 1); [|done]; by apply Hgo|].
    destruct at_cap; [by intros [= <- _ _]|by apply Hgo].
  - destruct cnt; [|by apply Hgo]. destruct (predicate_match p) eqn:Em; [case_decide; [by intros [= <- _ _]|]|];
      apply Hgo; simpl; by rewrite Em.
Qed.

(** Every flag in a query was vouched for. *)
Definition flagged (V : Key N -> bool -> Prop) q : Prop := Forall (fun f => V (fst f) (snd f)) (flags (closest_peers q)).

Definition op_vouched (V : Key N -> bool -> Prop) (pred : R -> bool) (op : pquery_op N R) : Prop :=
  match op with POpSuccess _ rs => Forall (fun r => V (into_key (into_id r)) (pred r)) rs | _ => True end.

Lemma incorporate_flagged (V : Key N -> bool -> Prop) cfg target pred nc m b rs :
  Forall (fun f => V (fst f) (snd f)) (flags m) -> Forall (fun r => V (into_key (into_id r)) (pred r)) rs ->
  Forall (fun f => V (fst f) (snd f)) (flags (fst (incorporate into_id cfg target pred nc m b rs))).
Proof.
  intros Hm Hrs. revert m b Hm; induction Hrs as [|r rs Hr Hrs IH]; intros m b Hm; simpl; [done|]. apply IH.
  unfold flags in *. rewrite !Forall_fmap in *. rewrite Forall_forall in *. intros [d p] Hin.
  match type of Hin with context [or_insert ?m ?d ?p] => destruct (or_insert_cases m d p) as [[E _]|[E _]]; rewrite E in Hin end.
  - by apply (Hm (d, p)).
  - apply insert_elem in Hin as [[= -> ->]|Hin]; [done|by apply (Hm (d, p))].
Qed.

Lemma run_pop_flagged V q op q' o :
  flagged V q -> op_vouched V (predicate q) op -> run_pop q op = Ret (q', o) -> flagged V q' /\ predicate q' = predicate q.
Proof.
  intros Hq Ho. unfold flagged in *. destruct op as [n rs|n|now]; simpl in *.
  - unfold on_success. destruct (progress q); [..|by intros [= <- _]].
    all: destruct (get _ _) as [p|]; [|by intros [= <- _]]; destruct (state p); try (by intros [= <- _]); simpl.
    1, 3: destruct (checked_sub _ _); [|done]; simpl.
    all: destruct (incorporate _ _ _ _ _ _ _ _) as [m b] eqn:Ei; intros [= <- _]; split; [|done]; simpl;
      change m with (fst (m, b)); rewrite <-Ei; apply incorporate_flagged; [by rewrite flags_update|done].
  - unfold on_failure. destruct (progress q); [..|by intros [= <- _]].
    all: destruct (get _ _) as [p|]; [|by intros [= <- _]]; destruct (state p); try (by intros [= <- _]); simpl.
    all: destruct (checked_sub _ _); [|done]; intros [= <- _]; split; [|done]; simpl; by rewrite flags_update.
  - unfold next. destruct (progress q); [..|by intros [= <- _]].
    all: destruct (scan _ _ _ _ _ _) as [[[m nw] r]|] eqn:Es; [|done]; apply scan_flags in Es; simpl.
    all: destruct r as [[[?|]| |]|]; try case_decide; intros [= <- _]; simpl; by rewrite Es.
Qed.

Lemma run_pquery_flagged V q tr q' ps :
  flagged V q -> Forall (op_vouched V (predicate q)) tr -> run_pquery q tr = Ret (q', ps) -> flagged V q'.
Proof.
  intros Hq Ho. revert q ps Hq Ho; induction tr as [|op tr IH]; intros q ps Hq Ho; simpl; [by intros [= <- _]|].
  apply Forall_cons in Ho as [Ho Htr]. destruct (run_pop q op) as [[q1 o]|] eqn:E1; [|done]. simpl.
  destruct (run_pop_flagged V q op q1 o Hq Ho E1) as [Hq1 Hp1].
  destruct (run_pquery q1 tr) as [[q2 ps2]|] eqn:E2; [|done]. simpl. intros [= <- _].
  eapply IH; [done|by rewrite Hp1|done].
Qed.

Lemma with_config_flagged (V : Key N -> bool -> Prop) cfg target known (pred : R -> bool) :
  Forall (fun k => V (Closest.pk_key k) (Closest.pk_match k)) known -> flagged V (with_config cfg target known pred).
Proof.
  intros Hk. unfold flagged, flags. rewrite Forall_fmap, Forall_forall. intros [d p] Hin%collect_elem.
  apply elem_of_take in Hin as (i & Hi & _). apply list_lookup_fmap_Some in Hi as (k & [= -> ->] & Hi). simpl.
  rewrite Forall_forall in Hk. apply Hk. by eapply list_elem_of_lookup_2.
Qed.

(** The records that were reported. *)
Definition reported (tr : list (pquery_op N R)) : list R := tr ≫= fun op => match op with POpSuccess _ rs => rs | _ => [] end.

(** The key was known with the flag, or reported with a record of which the
    predicate says it. *)
Definition vouched (known : list (Closest.PredicateKey N)) (pred : R -> bool) (tr : list (pquery_op N R)) (k : Key N) (b : bool) : Prop :=
  (exists pk, pk ∈ known /\ Closest.pk_key pk = k /\ Closest.pk_match pk = b) \/
  (exists r, r ∈ reported tr /\ into_key (into_id r) = k /\ pred r = b).

Lemma run_pquery_vouched cfg target known pred tr q ps :
  run_pquery (with_config cfg target known pred) tr = Ret (q, ps) -> flagged (vouched known pred tr) q.
Proof.
  apply run_pquery_flagged.
  - apply with_config_flagged, Forall_forall. intros k Hk. left. eauto.
  - apply Forall_forall. intros [n rs| |] Hop; [|done..]. simpl. apply Forall_forall. intros r Hr. right. exists r.
    split; [|done]. apply list_elem_of_bind. exists (POpSuccess n rs). by split.
Qed.

(** A result was vouched to match. *)
Lemma into_result_flagged V q n : flagged V q -> n ∈ into_result q -> exists k, Key.preimage k = n /\ V k true.
Proof.
  unfold flagged, flags, into_result. rewrite Forall_fmap, Forall_forall. intros Hq (i & Hi & _)%elem_of_take.
  apply list_elem_of_lookup_2, list_elem_of_omap in Hi as ([d p] & Hin & Hr). specialize (Hq (d, p) Hin). simpl in Hq.
  unfold is_result in Hr. destruct (state p); try done. destruct (predicate_match p); [|done].
  injection Hr as <-. by exists (key p).
Qed.
End Trace.
End PredicateTrace.

Import PredicateTrace.

(** C22: Every history of calls on a new predicate query returns:
    [num_waiting] is the number of waiting peers and within the limits, no peer
    is asked to be contacted twice, and when the query is finished all peers up
    to the last result have been contacted and those flagged as matching have
    settled.  The flag of a peer is the one it was known with, or what the
    predicate says of a record it was reported with; so every result is known to
    match or was reported with a record that satisfies the predicate. *)
Theorem predicate_reachable {N R} `{IntoKeyLaw N} (into_id : R -> N) cfg (target : Key N)
    (known : list (Closest.PredicateKey N)) (pred : R -> bool) (tr : list (pquery_op N R)) :
  pknown_ok known ->
  exists q ps, run_pquery into_id (with_config cfg target known pred) tr = Ret (q, ps) /\ NoDup ps /\
    sorted (closest_peers q) /\ peers_ok target (erase_map (closest_peers q)) /\
    num_waiting q = countb is_waiting (erase_map (closest_peers q)) /\
    num_waiting q <= Nat.max (FindNode.parallelism cfg) (FindNode.num_results cfg) /\
    (progress q = FindNode.Finished -> pfinished q) /\
    (forall d p, (d, p) ∈ closest_peers q -> vouched into_id known pred tr (key p) (predicate_match p)) /\
    (forall n, n ∈ into_result q -> exists k, Key.preimage k = n /\ vouched into_id known pred tr k true).
Proof.
  intros Hk. destruct (run_pquery_ok into_id _ tr (with_config_pinv cfg target known pred Hk))
    as (q & ps & Hrun & Hev & [[Hs Hp Hw Hpar] Hfin]). pose proof (run_pquery_vouched into_id cfg target known pred tr q ps Hrun) as Hv.
  destruct (evolution_once _ _ _ Hev) as [Hnd _]. destruct (evolution_step_base _ _ _ Hev) as (_ & Ht & Hc & _).
  exists q, ps. simpl in *. rewrite Hc in Hpar. rewrite Ht in Hp. unfold sorted in *. rewrite keys_erase in Hs.
  split_and!; [done..| |by intros n; apply into_result_flagged].
  intros d p Hin. unfold flagged, flags in Hv. rewrite Forall_fmap, Forall_forall in Hv. by apply (Hv (d, p)).
Qed.

Lemma predicate_reachable_witness :
  exists q ps, run_pquery fst (with_config sample_config (Key.from_node_id (sample_id 0))
      [Closest.mkPK (Key.from_node_id (sample_id 1)) true; Closest.mkPK (Key.from_node_id (sample_id 2)) false]
      (fun r : NodeId * bool => snd r))
      [POpNext 0; POpNext 0; POpSuccess (sample_id 1) [(sample_id 3, true)]; POpNext 1] = Ret (q, ps) /\ NoDup ps.
Proof.
  destruct (predicate_reachable fst sample_config (Key.from_node_id (sample_id 0))
    [Closest.mkPK (Key.from_node_id (sample_id 1)) true; Closest.mkPK (Key.from_node_id (sample_id 2)) false]
    (fun r : NodeId * bool => snd r)
    [POpNext 0; POpNext 0; POpSuccess (sample_id 1) [(sample_id 3, true)]; POpNext 1])
    as (q & ps & Hrun & Hnd & _); [by repeat constructor|]. by exists q, ps.
Defined.

(** ** A predicate that always holds *)

Section AllMatch.
Context {N R : Type} `{IntoKeyLaw N} (into_id : R -> N).
Implicit Types (q : PredicateQuery N R) (m : BTreeMap (QueryPeer N)).

Definition all_flags m : Prop := Forall (fun e => predicate_match (snd e) = true) m.

Definition all_match q : Prop := all_flags (closest_peers q) /\ forall r, predicate q r = true.

Lemma scan_all_match now cfg at_cap cnt nw m :
  all_flags m ->
  FindNode.scan now cfg at_cap cnt nw (erase_map m) =
  (fun '(m', nw', r) => (erase_map m', nw', r)) <$> scan now cfg at_cap cnt nw m.
Proof.
  intros Hall. revert cnt nw; induction Hall as [|[d p] m Hp Hall IH]; intros cnt nw; [done|].
  simpl in Hp. cbn [scan]. change (erase_map ((d, p) :: m)) with ((d, erase_peer p) :: erase_map m).
  cbn [FindNode.scan FindNode.state erase_peer].
  assert (forall nw cnt e' f', f' = erase_entry e' ->
    ('(m', nw', r) ← FindNode.scan now cfg at_cap cnt nw (erase_map m); Ret (f' :: m', nw', r)) =
    (fun '(m', nw', r) => (erase_map m', nw', r)) <$>
      ('(m', nw', r) ← scan now cfg at_cap cnt nw m; Ret (e' :: m', nw', r))) as Hgo.
  { intros nw1 cnt1 e' f' ->. rewrite IH. by destruct (scan now cfg at_cap cnt1 nw1 m) as [[[m' nw'] r]|]. }
  destruct (state p) as [|t| | |].
  - by destruct at_cap.
  - destruct (Z.leb t now); [|destruct at_cap; [done|rewrite Hp; by apply Hgo]].
    destruct (checked_sub nw 1); [|done]. simpl. by apply Hgo.
  - by apply Hgo.
  - by apply Hgo.
  - destruct cnt as [c|]; [|by apply Hgo]. rewrite Hp. case_decide; [done|]. by apply Hgo.
Qed.

Lemma next_all_match now q :
  all_match q -> FindNode.next now (erase q) = (fun '(q', st) => (erase q', st)) <$> next now q.
Proof.
  intros [Hall _]. unfold FindNode.next, next. rewrite at_capacity_erase. simpl.
  rewrite scan_all_match by done.
  destruct (scan now (config q) _ _ _ _) as [[[m' nw'] r]|]; destruct (progress q); simpl; try done.
  all: destruct r as [[[n|]| |]|]; try done; by case_decide.
Qed.

Lemma into_result_all_match q : all_match q -> FindNode.into_result (erase q) = into_result q.
Proof.
  intros [Hall _]. unfold FindNode.into_result, into_result. simpl. f_equal. unfold all_flags in Hall.
  induction Hall as [|[d p] m Hp Hall IH]; [done|]. simpl in Hp. unfold erase_map in *. csimpl.
  assert (FindNode.is_succeeded (erase_peer p) = is_result p) as ->
    by (unfold FindNode.is_succeeded, is_result; simpl; by rewrite Hp).
  by destruct (is_result p); rewrite IH.
Qed.

Lemma all_match_flagged q : (forall r, predicate q r = true) -> all_match q <-> flagged (fun _ b => b = true) q.
Proof. intros Hp. unfold all_match, all_flags, flagged, flags. rewrite Forall_fmap. by split; [intros [? _]|]. Qed.

(** What a predicate query and a FINDNODE query do differently: the failure of a
    peer that is unresponsive. *)
Definition late q (op : pquery_op N R) : bool :=
  match op with
  | POpFailure n =>
      match get (closest_peers q) (Key.distance (into_key n) (target_key q)) with
      | Some p => match state p with FindNode.Unresponsive => true | _ => false end
      | None => false
      end
  | _ => false
  end.

Definition erase_op (op : pquery_op N R) : query_op N :=
  match op with
  | POpSuccess n rs => OpSuccess n (into_id <$> rs)
  | POpFailure n => OpFailure n
  | POpNext now => OpNext now
  end.

(** The history of the FINDNODE query: late failures are left out. *)
Fixpoint findnode_history q (tr : list (pquery_op N R)) : list (query_op N) :=
  match tr with
  | [] => []
  | op :: tr =>
      let rest := match run_pop into_id q op with Ret (q', _) => findnode_history q' tr | Panic => [] end in
      if late q op then rest else erase_op op :: rest
  end.

Lemma run_pop_late q op : late q op = true -> run_pop into_id q op = Ret (q, None).
Proof.
  destruct op as [| n|]; [done| |done]. simpl. destruct (get _ _) as [p|] eqn:Eg; [|done].
  destruct (state p) eqn:Es; try done. intros _. by rewrite (on_failure_unresponsive q n p Eg Es).
Qed.

Lemma run_pop_erase q op :
  all_match q -> late q op = false ->
  run_op (erase q) (erase_op op) = (fun '(q', o) => (erase q', o)) <$> run_pop into_id q op.
Proof.
  intros Hall Hl. destruct op as [n rs|n|now]; simpl.
  - rewrite on_success_erase. by destruct (on_success into_id q n rs).
  - rewrite on_failure_erase; [by destruct (on_failure q n)|]. intros p Hg Hs. simpl in Hl. by rewrite Hg, Hs in Hl.
  - rewrite next_all_match by done. by destruct (next now q) as [[q' st]|].
Qed.

Lemma run_pop_all_match q op q' o : all_match q -> run_pop into_id q op = Ret (q', o) -> all_match q'.
Proof.
  intros Hall Hr. pose proof Hall as [_ Hp]. apply all_match_flagged in Hall; [|done].
  destruct (run_pop_flagged into_id _ q op q' o Hall) as [Hf Hpq]; [|done|].
  - destruct op; [|done..]. apply Forall_forall. intros r _. apply Hp.
  - apply all_match_flagged; [|done]. by rewrite Hpq.
Qed.

Lemma run_pquery_erase q tr :
  all_match q ->
  run_query (erase q) (findnode_history q tr) = (fun '(q', ps) => (erase q', ps)) <$> run_pquery into_id q tr /\
  forall q' ps, run_pquery into_id q tr = Ret (q', ps) -> all_match q'.
Proof.
  revert q; induction tr as [|op tr IH]; intros q Hall; simpl; [by split; [|intros q' ps [= <- _]]|].
  destruct (late q op) eqn:El.
  { rewrite (run_pop_late q op El). simpl. destruct (IH q Hall) as [-> Hr].
    destruct (run_pquery into_id q tr) as [[q' ps]|]; simpl; [|done]. split; [done|]. intros ? ? [= <- _]. by eapply Hr. }
  simpl. rewrite run_pop_erase by done.
  destruct (run_pop into_id q op) as [[q1 o]|] eqn:E; simpl; [|done].
  destruct (IH q1) as [-> Hr]; [by eapply run_pop_all_match|].
  destruct (run_pquery into_id q1 tr) as [[q' ps]|]; simpl; [|done]. split; [done|]. intros ? ? [= <- _]. by eapply Hr.
Qed.
End AllMatch.

(** C23: Equivalence.  With a predicate that always holds and known peers that all
    match, a predicate query is a FINDNODE query over every history of calls:
    leaving out the failures of peers that are unresponsive, which the predicate
    query ignores, the same calls on the FINDNODE query with the same known peers
    give the same state but for the flags, ask to contact the same peers in the
    same order, or panic alike, and the results of the two queries are the same. *)
Theorem predicate_true_is_findnode {N R} `{IntoKeyLaw N} (into_id : R -> N) cfg (target : Key N)
    (known : list (Closest.PredicateKey N)) (pred : R -> bool) (tr : list (pquery_op N R)) :
  (forall r, pred r = true) -> Forall (fun k => Closest.pk_match k = true) known ->
  let q0 := with_config cfg target known pred in
  run_query (FindNode.with_config cfg target (Closest.pk_key <$> known)) (findnode_history into_id q0 tr) =
    (fun '(q, ps) => (erase q, ps)) <$> run_pquery into_id q0 tr /\
  forall q ps, run_pquery into_id q0 tr = Ret (q, ps) -> into_result q = FindNode.into_result (erase q).
Proof.
  intros Hp Hk q0. assert (all_match q0) as Hall by (by apply all_match_flagged, with_config_flagged).
  destruct (run_pquery_erase into_id q0 tr Hall) as [Hr Hm]. split; [by rewrite <-(with_config_erase cfg target known pred)|].
  intros q ps Hq. symmetry. by eapply into_result_all_match, Hm.
Qed.

(** The query contacts its peer, which answers in time and is the result. *)
Lemma predicate_true_is_findnode_witness :
  let q0 := with_config (R := NodeId) sample_config (Key.from_node_id (sample_id 0))
    [Closest.mkPK (Key.from_node_id (sample_id 1)) true] (fun _ => true) in
  match run_pquery (fun n => n) q0 [POpNext 0; POpSuccess (sample_id 1) []] with
  | Ret (q, ps) => into_result q = [sample_id 1] /\ FindNode.into_result (erase q) = [sample_id 1]
  | Panic => False
  end.
Proof.
  destruct (predicate_true_is_findnode (R := NodeId) (fun n => n) sample_config (Key.from_node_id (sample_id 0))
    [Closest.mkPK (Key.from_node_id (sample_id 1)) true] (fun _ => true) [POpNext 0; POpSuccess (sample_id 1) []])
    as [_ Hr]; [done|by repeat constructor|].
  intros q0. assert ((fun r => into_result (fst r)) <$> run_pquery (fun n => n) q0 [POpNext 0; POpSuccess (sample_id 1) []] =
    Ret [sample_id 1]) as Hq by (vm_compute; reflexivity).
  destruct (run_pquery (fun n => n) q0 _) as [[q ps]|] eqn:E; [|discriminate]. injection Hq as Hq.
  rewrite <-(Hr q ps E). by split.
Defined.
