(* ===== verification/QueryPool.v ===== *)
(** * The query pool (src/src/query_pool.rs)

    A pool owns the queries and drives them.  The order in which the hash map
    of queries is iterated is not specified; [poll] takes it as an argument, a
    list of the identifiers in the pool.  A [Waiting] answer names the query it
    borrows by its identifier. *)

From S2P Require Import Prelude Bytes Key BTree Closest FindNode FindNodeProofs FindNodeTrace Predicate PredicateProofs.

Module QueryPool.

(** [usize] on a 64-bit target. *)
Definition USIZE_MODULUS : Z := (2 ^ 64)%Z.

(** The trait [TargetKey]. *)
Class TargetKey (G N : Type) := target_key : G -> Key N.

Inductive QueryPeerIter (N R : Type) :=
  | IterFindNode (q : FindNode.FindNodeQuery N)
  | IterPredicate (q : Predicate.PredicateQuery N R).
Arguments IterFindNode {N R} q.
Arguments IterPredicate {N R} q.

Record Query (G N R : Type) := mkQuery {
  id : Z;
  peer_iter : QueryPeerIter N R;
  started : option Z;
  target : G;
}.
Arguments mkQuery {G N R} id peer_iter started target.
Arguments id {G N R} _.
Arguments peer_iter {G N R} _.
Arguments started {G N R} _.
Arguments target {G N R} _.

Record QueryPool (G N R : Type) := mkPool {
  next_id : Z;
  query_timeout : Z;
  queries : gmap Z (Query G N R);
}.
Arguments mkPool {G N R} next_id query_timeout queries.
Arguments next_id {G N R} _.
Arguments query_timeout {G N R} _.
Arguments queries {G N R} _.

Inductive QueryPoolState (G N R : Type) :=
  | Idle
  | PoolWaiting (request : option (Z * N))
  | PoolFinished (q : Query G N R)
  | Timeout (q : Query G N R).
Arguments Idle {G N R}.
Arguments PoolWaiting {G N R} request.
Arguments PoolFinished {G N R} q.
Arguments Timeout {G N R} q.

Section Pool.
Context {G N R : Type} `{TargetKey G N} `{IntoKey N} (into_id : R -> N).
Implicit Types (q : Query G N R) (pool : QueryPool G N R).

(** ** [Query] *)

Definition query_new (i : Z) (it : QueryPeerIter N R) (tg : G) : Query G N R := mkQuery i it None tg.

Definition on_failure q (peer : N) : outcome (Query G N R) :=
  it ← match peer_iter q with
       | IterFindNode it => IterFindNode <$> FindNode.on_failure it peer
       | IterPredicate it => IterPredicate <$> Predicate.on_failure it peer
       end;
  Ret (mkQuery (id q) it (started q) (target q)).

Definition on_success q (peer : N) (new_peers : list R) : outcome (Query G N R) :=
  it ← match peer_iter q with
       | IterFindNode it => IterFindNode <$> FindNode.on_success it peer (into_id <$> new_peers)
       | IterPredicate it => IterPredicate <$> Predicate.on_success into_id it peer new_peers
       end;
  Ret (mkQuery (id q) it (started q) (target q)).

Definition query_next (now : Z) q : outcome (Query G N R * QueryState N) :=
  '(it, st) ←
    match peer_iter q with
    | IterFindNode it => (fun '(it, st) => (IterFindNode it, st)) <$> FindNode.next now it
    | IterPredicate it => (fun '(it, st) => (IterPredicate it, st)) <$> Predicate.next now it
    end;
  Ret (mkQuery (id q) it (started q) (target q), st).

(** [Query::into_result]: the target and the closest peers. *)
Definition query_into_result q : G * list N :=
  (target q,
   match peer_iter q with
   | IterFindNode it => FindNode.into_result it
   | IterPredicate it => Predicate.into_result it
   end).

(** ** [QueryPool] *)

Definition new (timeout : Z) : QueryPool G N R := mkPool 0 timeout ∅.

Definition add pool (it : QueryPeerIter N R) (tg : G) : QueryPool G N R * Z :=
  let i := next_id pool in
  let q := query_new i it tg in
  (mkPool ((i + 1) mod USIZE_MODULUS) (query_timeout pool) (<[i := q]> (queries pool)), i).

Definition add_findnode_query pool (cfg : FindNode.FindNodeQueryConfig) (tg : G) (peers : list (Key N))
    : QueryPool G N R * Z :=
  add pool (IterFindNode (FindNode.with_config cfg (target_key tg) peers)) tg.

Definition add_predicate_query pool (cfg : Predicate.PredicateQueryConfig) (tg : G)
    (peers : list (Closest.PredicateKey N)) (pred : R -> bool) : QueryPool G N R * Z :=
  add pool (IterPredicate (Predicate.with_config cfg (target_key tg) peers pred)) tg.

(** [get_mut] and a write through the reference. *)
Definition get_mut pool (i : Z) (f : Query G N R -> outcome (Query G N R))
    : outcome (option (QueryPool G N R)) :=
  match queries pool !! i with
  | Some q => q ← f q; Ret (Some (mkPool (next_id pool) (query_timeout pool) (<[i := q]> (queries pool))))
  | None => Ret None
  end.

(** What ends the loop of [poll]. *)
Inductive poll_event :=
  | EvNone
  | EvFinished (i : Z)
  | EvWaiting (i : Z) (peer : N)
  | EvTimeout (i : Z).

(** [now - started] saturates at zero. *)
Definition elapsed (now : Z) q : Z := Z.max 0 (now - default now (started q)).

Fixpoint poll_loop (now timeout : Z) (qs : gmap Z (Query G N R)) (order : list Z)
    : outcome (gmap Z (Query G N R) * poll_event) :=
  match order with
  | [] => Ret (qs, EvNone)
  | i :: order =>
      q ← unwrap (qs !! i);
      let q := mkQuery (id q) (peer_iter q) (Some (default now (started q))) (target q) in
      '(q, st) ← query_next now q;
      let qs := <[i := q]> qs in
      match st with
      | QFinished => Ret (qs, EvFinished i)
      | QWaiting (Some peer) => Ret (qs, EvWaiting i peer)
      | QWaiting None | QWaitingAtCapacity =>
          if decide (timeout <= elapsed now q)%Z then Ret (qs, EvTimeout i)
          else poll_loop now timeout qs order
      end
  end.

Definition poll (now : Z) (order : list Z) pool : outcome (QueryPool G N R * QueryPoolState G N R) :=
  '(qs, ev) ← poll_loop now (query_timeout pool) (queries pool) order;
  let leave qs := mkPool (next_id pool) (query_timeout pool) qs in
  match ev with
  | EvWaiting i peer => _ ← unwrap (qs !! i); Ret (leave qs, PoolWaiting (Some (i, peer)))
  | EvFinished i => q ← unwrap (qs !! i); Ret (leave (delete i qs), PoolFinished q)
  | EvTimeout i => q ← unwrap (qs !! i); Ret (leave (delete i qs), Timeout q)
  | EvNone => if decide (qs = ∅) then Ret (leave qs, Idle) else Ret (leave qs, PoolWaiting None)
  end.
End Pool.
End QueryPool.

Import QueryPool.

Section PoolProofs.
Context {G N R : Type} `{TargetKey G N} `{IntoKeyLaw N} (into_id : R -> N).
Implicit Types (q : Query G N R) (pool : QueryPool G N R) (it : QueryPeerIter N R) (qs : gmap Z (Query G N R)).

Definition iter_inv it : Prop :=
  match it with IterFindNode q => query_inv q | IterPredicate q => pquery_inv q end.

Definition iter_finished it : Prop :=
  match it with
  | IterFindNode q => FindNode.progress q = FindNode.Finished
  | IterPredicate q => Predicate.progress q = FindNode.Finished
  end.

(** The peers of either kind of query, without flags. *)
Definition iter_erase it : FindNode.FindNodeQuery N :=
  match it with IterFindNode q => q | IterPredicate q => erase q end.

(** Every query is stored under its identifier, with its invariant. *)
Definition queries_inv qs : Prop :=
  forall i q, qs !! i = Some q -> id q = i /\ iter_inv (peer_iter q).

Lemma query_next_ok now q :
  iter_inv (peer_iter q) ->
  exists q' st, query_next now q = Ret (q', st) /\ iter_inv (peer_iter q') /\
    id q' = id q /\ started q' = started q /\ target q' = target q /\
    (st = QFinished -> iter_finished (peer_iter q')) /\
    (forall n, st = QWaiting (Some n) ->
       FindNodeTrace.contacts (iter_erase (peer_iter q)) (iter_erase (peer_iter q')) n).
Proof.
  intros Hinv. unfold query_next. destruct (peer_iter q) as [fq|pq]; simpl in Hinv.
  - destruct (FindNodeTrace.run_qop_ok fq (FindNodeTrace.OpNext now) Hinv) as (fq' & o & Hrun & Hs & Hn).
    destruct (next_ok now fq Hinv) as (fq1 & st & Hnext & Hs1 & Ha). simpl in Hrun. rewrite Hnext in *.
    simplify_eq/=. eexists _, _. split; [done|]. split_and!; simpl; try done.
    + by eapply step_ok_inv.
    + intros ->. by destruct Ha.
    + intros n ->. by apply Hn.
  - destruct (next_pok now pq Hinv) as (pq' & st & -> & Hs & Hf & Hn). simpl.
    eexists _, _. split; [done|]. split_and!; simpl; try done.
    + by eapply pstep_inv.
    + intros n ->. by apply Hn.
Qed.

(** What the loop leaves and why it stopped. *)
Definition loop_result (now timeout : Z) qs (order : list Z) qs' (ev : poll_event (N := N)) : Prop :=
  match ev with
  | EvNone => forall i, i ∈ order -> exists q, qs' !! i = Some q /\ is_Some (started q) /\ (elapsed now q < timeout)%Z
  | EvFinished i => i ∈ order /\ exists q, qs' !! i = Some q /\ iter_finished (peer_iter q)
  | EvWaiting i n => i ∈ order /\ exists q q', qs !! i = Some q /\ qs' !! i = Some q' /\
      FindNodeTrace.contacts (iter_erase (peer_iter q)) (iter_erase (peer_iter q')) n
  | EvTimeout i => i ∈ order /\ exists q, qs' !! i = Some q /\ (timeout <= elapsed now q)%Z
  end.

Lemma poll_loop_ok now timeout qs order :
  queries_inv qs -> NoDup order -> Forall (fun i => is_Some (qs !! i)) order ->
  exists qs' ev, poll_loop now timeout qs order = Ret (qs', ev) /\ queries_inv qs' /\
    (forall i, is_Some (qs' !! i) <-> is_Some (qs !! i)) /\
    (forall i, i ∉ order -> qs' !! i = qs !! i) /\ loop_result now timeout qs order qs' ev.
Proof.
  revert qs; induction order as [|i order IH]; intros qs Hinv Hnd Hdom; simpl.
  { exists qs, EvNone. split_and!; try done. intros i. set_solver. }
  apply NoDup_cons in Hnd as [Hi Hnd]. apply Forall_cons in Hdom as [[q Hq] Hdom]. rewrite Hq. simpl.
  set (q1 := mkQuery (id q) (peer_iter q) (Some (default now (started q))) (target q)).
  destruct (Hinv i q Hq) as [Hid Hit].
  destruct (query_next_ok now q1 Hit) as (q2 & st & -> & Hit2 & Hid2 & Hst2 & _ & Hfin & Hcon). simpl.
  assert (queries_inv (<[i:=q2]> qs)) as Hinv2.
  { intros j q' [[<- <-]|[_ Hj]]%lookup_insert_Some; [|by apply Hinv]. split; [|done]. by rewrite Hid2. }
  assert (forall j, is_Some (<[i:=q2]> qs !! j) <-> is_Some (qs !! j)) as Hdom2.
  { intros j. rewrite lookup_insert_is_Some'. split; [|auto]. intros [<-|]; [by rewrite Hq|done]. }
  assert (forall ev0, loop_result now timeout qs (i :: order) (<[i:=q2]> qs) ev0 ->
    exists qs' ev, Ret (<[i:=q2]> qs, ev0) = Ret (qs', ev) /\ queries_inv qs' /\
      (forall j, is_Some (qs' !! j) <-> is_Some (qs !! j)) /\
      (forall j, j ∉ i :: order -> qs' !! j = qs !! j) /\ loop_result now timeout qs (i :: order) qs' ev) as Hstop.
  { intros ev Hev. eexists _, ev. split_and!; [done|done|done| |done].
    intros j [Hne _]%not_elem_of_cons. by rewrite lookup_insert_ne. }
  assert ((elapsed now q2 < timeout)%Z ->
    exists qs' ev, poll_loop now timeout (<[i:=q2]> qs) order = Ret (qs', ev) /\ queries_inv qs' /\
      (forall j, is_Some (qs' !! j) <-> is_Some (qs !! j)) /\
      (forall j, j ∉ i :: order -> qs' !! j = qs !! j) /\ loop_result now timeout qs (i :: order) qs' ev) as Hgo.
  { intros Helapsed. destruct (IH (<[i:=q2]> qs) Hinv2 Hnd) as (qs' & ev & -> & Hinv' & Hdom' & Hout & Hres).
    { eapply Forall_impl; [exact Hdom|]. intros j. by rewrite Hdom2. }
    eexists _, ev. split_and!; [done|done|intros j; by rewrite Hdom', Hdom2|..].
    - intros j [Hne Hj]%not_elem_of_cons. rewrite Hout, lookup_insert_ne by done. done.
    - destruct ev as [|j|j n|j]; simpl in *.
      + intros j [->|Hj]%elem_of_cons; [|by apply Hres]. exists q2. rewrite Hout, lookup_insert_eq by done.
        split_and!; [done|by rewrite Hst2|done].
      + destruct Hres as [Hj Hr]. split; [set_solver|done].
      + destruct Hres as (Hj & q' & q'' & Hq' & Hr). split; [set_solver|]. exists q', q''.
        rewrite lookup_insert_ne in Hq' by set_solver. done.
      + destruct Hres as [Hj Hr]. split; [set_solver|done]. }
  destruct st as [[n|]| |].
  - apply (Hstop (EvWaiting i n)). split; [set_solver|]. exists q, q2. rewrite lookup_insert_eq.
    split_and!; [done|done|]. by apply (Hcon n).
  - case_decide; [|apply Hgo; lia].
    apply (Hstop (EvTimeout i)). split; [set_solver|]. exists q2. by rewrite lookup_insert_eq.
  - case_decide; [|apply Hgo; lia].
    apply (Hstop (EvTimeout i)). split; [set_solver|]. exists q2. by rewrite lookup_insert_eq.
  - apply (Hstop (EvFinished i)). split; [set_solver|]. exists q2. rewrite lookup_insert_eq. split; [done|]. by apply Hfin.
Qed.
End PoolProofs.

(** An order in which the map of queries may be iterated. *)
Definition iteration_order {G N R} (qs : gmap Z (Query G N R)) (order : list Z) : Prop :=
  order ≡ₚ (map_to_list qs).*1.

Lemma iteration_order_spec {G N R} (qs : gmap Z (Query G N R)) order :
  iteration_order qs order -> NoDup order /\ forall i, i ∈ order <-> is_Some (qs !! i).
Proof.
  unfold iteration_order. intros Hp. split; [rewrite Hp; apply NoDup_fst_map_to_list|]. intros i.
  rewrite Hp, list_elem_of_fmap. split.
  - intros ([j q] & -> & Hin%elem_of_map_to_list). by exists q.
  - intros [q Hq]. exists (i, q). split; [done|]. by apply elem_of_map_to_list.
Qed.

Lemma queries_inv_delete {G N R} `{IntoKeyLaw N} (qs : gmap Z (Query G N R)) i :
  queries_inv qs -> queries_inv (delete i qs).
Proof. intros Hinv j q [_ Hj]%lookup_delete_Some. by apply Hinv. Qed.

(** C24: One [poll] of a pool with the invariant, in any order of iteration,
    returns (the [expect]s hold) and keeps the invariant.  [Idle] means there is
    no query.  [Waiting(Some)] hands out a peer that the named query had not
    contacted.  [Finished] and [Timeout] remove exactly the query they return,
    which is finished, or has been running for the query timeout.
    [Waiting(None)] means that every query was advanced and is within its time. *)
Theorem pool_poll_spec {G N R} `{TargetKey G N} `{IntoKeyLaw N} (now : Z) (order : list Z) (pool : QueryPool G N R) :
  queries_inv (queries pool) -> iteration_order (queries pool) order ->
  exists pool' st, poll now order pool = Ret (pool', st) /\ queries_inv (queries pool') /\
  match st with
  | Idle => queries pool = ∅ /\ pool' = pool
  | PoolWaiting (Some (i, n)) => exists q q', queries pool !! i = Some q /\ queries pool' !! i = Some q' /\
      FindNodeTrace.contacts (iter_erase (peer_iter q)) (iter_erase (peer_iter q')) n
  | PoolWaiting None => queries pool <> ∅ /\
      forall i, is_Some (queries pool !! i) ->
        exists q, queries pool' !! i = Some q /\ is_Some (started q) /\ (elapsed now q < query_timeout pool)%Z
  | PoolFinished q => iter_finished (peer_iter q) /\
      is_Some (queries pool !! id q) /\ queries pool' !! id q = None /\
      forall i, i <> id q -> is_Some (queries pool' !! i) <-> is_Some (queries pool !! i)
  | Timeout q => (query_timeout pool <= elapsed now q)%Z /\
      is_Some (queries pool !! id q) /\ queries pool' !! id q = None /\
      forall i, i <> id q -> is_Some (queries pool' !! i) <-> is_Some (queries pool !! i)
  end.
Proof.
  intros Hinv [Hnd Hdom]%iteration_order_spec. unfold poll.
  destruct (poll_loop_ok now (query_timeout pool) (queries pool) order Hinv Hnd)
    as (qs' & ev & -> & Hinv' & Hdom' & _ & Hres); [by apply Forall_forall; intros i; rewrite Hdom|]. simpl.
  destruct ev as [|i|i n|i]; simpl in Hres.
  - case_decide as He.
    + eexists _, _. split; [done|]. split; [by rewrite He|].
      assert (queries pool = ∅) as Hq.
      { apply map_empty. intros i. apply eq_None_not_Some. rewrite <-Hdom', He, lookup_empty. by intros [? ?]. }
      split; [done|]. simpl. rewrite He, <-Hq. by destruct pool.
    + eexists _, _. split; [done|]. split; [done|]. simpl. split.
      * intros Hq. apply He, map_empty. intros i. apply eq_None_not_Some. rewrite Hdom', Hq, lookup_empty. by intros [? ?].
      * intros i Hi. apply Hres. by apply Hdom.
  - destruct Hres as (Hi & q & Hq & Hfin). rewrite Hq. simpl. eexists _, _. split; [done|].
    destruct (Hinv' i q Hq) as [Hid _]. subst i. split; [by apply queries_inv_delete|]. split_and!; [done|by apply Hdom|..]; simpl.
    + apply lookup_delete_eq.
    + intros j Hj. rewrite lookup_delete_ne by done. apply Hdom'.
  - destruct Hres as (Hi & q & q' & Hq & Hq' & Hc). rewrite Hq'. simpl. eexists _, _. split; [done|].
    split; [done|]. by exists q, q'.
  - destruct Hres as (Hi & q & Hq & Hfin). rewrite Hq. simpl. eexists _, _. split; [done|].
    destruct (Hinv' i q Hq) as [Hid _]. subst i. split; [by apply queries_inv_delete|]. split_and!; [done|by apply Hdom|..]; simpl.
    + apply lookup_delete_eq.
    + intros j Hj. rewrite lookup_delete_ne by done. apply Hdom'.
Qed.

#[export] Instance sample_target : TargetKey NodeId NodeId := Key.from_node_id.

(** A pool with one query towards the zero id. *)
Definition sample_pool : QueryPool NodeId NodeId NodeId :=
  fst (add_findnode_query (QueryPool.new 60) sample_config (sample_id 0) [Key.from_node_id (sample_id 1)]).

Lemma pool_poll_spec_witness :
  queries_inv (queries sample_pool) /\
  exists pool' st, poll 0 [0%Z] sample_pool = Ret (pool', st) /\ queries_inv (queries pool') /\
    st = PoolWaiting (Some (0%Z, sample_id 1)).
Proof.
  assert (queries_inv (queries sample_pool)) as Hinv.
  { intros i q Hi. unfold sample_pool, add_findnode_query, add, QueryPool.new in Hi.
    cbn [fst queries next_id] in Hi.
    apply lookup_insert_Some in Hi as [[<- <-]|[_ Hi]]; [|by rewrite lookup_empty in Hi].
    split; [done|]. by apply FindNodeTrace.with_config_inv; repeat constructor. }
  split; [exact Hinv|].
  destruct (pool_poll_spec 0 [0%Z] sample_pool Hinv) as (pool' & st & Hp & Hinv' & _).
  { unfold iteration_order, sample_pool, add_findnode_query, add, QueryPool.new. cbn [fst queries next_id].
    by rewrite map_to_list_insert, map_to_list_empty by apply lookup_empty. }
  exists pool', st. split_and!; [exact Hp|exact Hinv'|]. vm_compute in Hp. by injection Hp as _ <-.
Defined.
