(* ===== verification/Rpc.v ===== *)
(** * RPC messages (src/src/rpc.rs)

    Requests and responses with their encoding.  RLP belongs to the [rlp]
    crate: the class [Rlp] has the functions of [RlpStream] and [Rlp] that the
    source calls, and [RlpLaws] the documented behaviour of a stream that is
    read back.  A run of [begin_list] and [append] calls is the tree it builds.
    The record type [Enr<CombinedKey>] is a parameter. *)

From stdpp Require Import strings.
From S2P Require Import Prelude Bytes.

(** [rlp::DecoderError]. *)
Inductive DecoderError :=
  | RlpIsTooBig
  | RlpIsTooShort
  | RlpExpectedToBeList
  | RlpExpectedToBeData
  | RlpIncorrectListLen
  | RlpDataLenWithZeroPrefix
  | RlpListLenWithZeroPrefix
  | RlpInvalidIndirection
  | RlpInconsistentLengthAndData
  | RlpInvalidLength
  | Custom (msg : string).

(** The calls on an [RlpStream], as the tree they build. *)
Inductive rlp_item (E : Type) :=
  | IBytes (b : list byte)
  | IUint (n : Z)
  | IEnr (e : E)
  | IList (l : list (rlp_item E)).
Arguments IBytes {E} b.
Arguments IUint {E} n.
Arguments IEnr {E} e.
Arguments IList {E} l.

(** The functions of the [rlp] crate on the bytes of an [Rlp]. *)
Class Rlp (E : Type) := {
  rlp_out : rlp_item E -> list byte;
  item_count : list byte -> result DecoderError nat;
  payload_info : list byte -> result DecoderError (nat * nat);
  val_at_bytes : list byte -> nat -> result DecoderError (list byte);
  val_at_u64 : list byte -> nat -> result DecoderError Z;
  val_at_u16 : list byte -> nat -> result DecoderError Z;
  list_at_u64 : list byte -> nat -> result DecoderError (list Z);
  rlp_at : list byte -> nat -> result DecoderError (list byte);
  rlp_is_empty : list byte -> bool;
  as_list_enr : list byte -> result DecoderError (list E);
}.

(** Reading back what a stream wrote, and the range of the integers read. *)
Class RlpLaws (E : Type) `{Rlp E} := {
  item_count_out : forall l, item_count (rlp_out (IList l)) = Ok (length l);
  payload_info_out : forall l, exists h v, payload_info (rlp_out (IList l)) = Ok (h, v) /\
    length (rlp_out (IList l)) = h + v;
  rlp_out_length : forall l, length l < length (rlp_out (IList l));
  val_at_bytes_out : forall l i b, l !! i = Some (IBytes b) -> val_at_bytes (rlp_out (IList l)) i = Ok b;
  val_at_u64_out : forall l i n, l !! i = Some (IUint n) -> (0 <= n < 2 ^ 64)%Z ->
    val_at_u64 (rlp_out (IList l)) i = Ok n;
  val_at_u16_out : forall l i n, l !! i = Some (IUint n) -> (0 <= n < 2 ^ 16)%Z ->
    val_at_u16 (rlp_out (IList l)) i = Ok n;
  list_at_u64_out : forall l i ns, l !! i = Some (IList (IUint <$> ns)) ->
    Forall (fun n => 0 <= n < 2 ^ 64)%Z ns -> list_at_u64 (rlp_out (IList l)) i = Ok ns;
  rlp_at_out : forall l i x, l !! i = Some x -> rlp_at (rlp_out (IList l)) i = Ok (rlp_out x);
  rlp_is_empty_out : forall l, rlp_is_empty (rlp_out (IList l)) = bool_decide (l = []);
  as_list_enr_out : forall es, as_list_enr (rlp_out (IList (IEnr <$> es))) = Ok es;
  val_at_u64_range : forall d i n, val_at_u64 d i = Ok n -> (0 <= n < 2 ^ 64)%Z;
  val_at_u16_range : forall d i n, val_at_u16 d i = Ok n -> (0 <= n < 2 ^ 16)%Z;
  list_at_u64_range : forall d i ns, list_at_u64 d i = Ok ns -> Forall (fun n => 0 <= n < 2 ^ 64)%Z ns;
}.

Module Rpc.

(** [RequestId(Vec<u8>)]. *)
Definition RequestId : Type := list byte.

Definition id_decode (data : list byte) : result DecoderError RequestId :=
  if decide (8 < length data) then Err (Custom "Invalid ID length") else Ok data.

Inductive RequestBody :=
  | Ping (enr_seq : Z)
  | FindNode (distances : list Z)
  | Talk (protocol request : list byte).

Inductive ResponseBody (E : Type) :=
  | Pong (enr_seq : Z) (ip : IpAddr) (port : Z)
  | Nodes (total : Z) (nodes : list E)
  | TalkResponse (response : list byte).
Arguments Pong {E} enr_seq ip port.
Arguments Nodes {E} total nodes.
Arguments TalkResponse {E} response.

Record Request := mkRequest { req_id : RequestId; req_body : RequestBody }.
Record Response (E : Type) := mkResponse { resp_id : RequestId; resp_body : ResponseBody E }.
Arguments mkResponse {E} resp_id resp_body.
Arguments resp_id {E} _.
Arguments resp_body {E} _.

Inductive Message (E : Type) := MRequest (r : Request) | MResponse (r : Response E).
Arguments MRequest {E} r.
Arguments MResponse {E} r.

Section Rpc.
Context {E : Type} `{Rlp E}.

Definition request_msg_type (r : Request) : Z :=
  match req_body r with Ping _ => 1 | FindNode _ => 3 | Talk _ _ => 5 end.

Definition response_msg_type (r : Response E) : Z :=
  match resp_body r with Pong _ _ _ => 2 | Nodes _ _ => 4 | TalkResponse _ => 6 end.

Definition match_request (r : Response E) (req : RequestBody) : bool :=
  match resp_body r, req with
  | Pong _ _ _, Ping _ | Nodes _ _, FindNode _ | TalkResponse _, Talk _ _ => true
  | _, _ => false
  end.

Definition ip_octets (ip : IpAddr) : list byte :=
  match ip with V4 a => vec_to_list a | V6 a => vec_to_list a end.

Definition request_encode (r : Request) : list byte :=
  byte_of_Z (request_msg_type r) ::
  rlp_out (match req_body r with
           | Ping enr_seq => IList [IBytes (req_id r); IUint enr_seq]
           | FindNode distances => IList [IBytes (req_id r); IList (IUint <$> distances)]
           | Talk protocol request => IList [IBytes (req_id r); IBytes protocol; IBytes request]
           end).

Definition response_encode (r : Response E) : list byte :=
  byte_of_Z (response_msg_type r) ::
  rlp_out (match resp_body r with
           | Pong enr_seq ip port =>
               IList [IBytes (resp_id r); IUint enr_seq; IBytes (ip_octets ip); IUint port]
           | Nodes total nodes =>
               IList [IBytes (resp_id r); IUint total; IList (IEnr <$> nodes)]
           | TalkResponse response => IList [IBytes (resp_id r); IBytes response]
           end).

Definition encode (m : Message E) : list byte :=
  match m with MRequest r => request_encode r | MResponse r => response_encode r end.

(** [Ipv6Addr::is_loopback] and [Ipv6Addr::to_ipv4] (compatible and mapped addresses). *)
Definition is_loopback (ip : Ipv6Addr) : bool :=
  bool_decide (vec_to_list ip = replicate 15 x00 ++ [x01]).

Definition to_ipv4 (ip : Ipv6Addr) : option Ipv4Addr :=
  let l := vec_to_list ip in
  if decide (take 12 l = replicate 12 x00 \/ take 12 l = replicate 10 x00 ++ [xff; xff])
  then Some [# ip !!! 12%fin; ip !!! 13%fin; ip !!! 14%fin; ip !!! 15%fin]
  else None.

(** The address of a PONG, from its bytes. *)
Definition simplify_ip (ipv6 : Ipv6Addr) : IpAddr :=
  if is_loopback ipv6 then V6 ipv6
  else match to_ipv4 ipv6 with Some ipv4 => V4 ipv4 | None => V6 ipv6 end.

Definition decode_ip (ip_bytes : list byte) : result DecoderError IpAddr :=
  match decide (length ip_bytes = 4) with
  | left H4 => Ok (V4 (eq_rect _ (vec byte) (list_to_vec ip_bytes) _ H4))
  | right _ =>
      match decide (length ip_bytes = 16) with
      | left H16 => Ok (simplify_ip (eq_rect _ (vec byte) (list_to_vec ip_bytes) _ H16))
      | right _ => Err RlpIncorrectListLen
      end
  end.

Definition check_len (list_len n : nat) : result DecoderError unit :=
  if decide (list_len = n) then Ok tt else Err RlpIncorrectListLen.

Definition check_distances (distances : list Z) : result DecoderError unit :=
  if decide (Exists (fun d => 256 < d)%Z distances)
  then Err (Custom "FINDNODE request distance invalid") else Ok tt.

(** The body of a message of type [msg_type]. *)
Definition decode_body (msg_type : Z) (rlp : list byte) (list_len : nat) (id : RequestId)
    : result DecoderError (Message E) :=
  match msg_type with
  | 1%Z =>
      _ ← check_len list_len 2;
      enr_seq ← val_at_u64 rlp 1;
      Ok (MRequest (mkRequest id (Ping enr_seq)))
  | 2%Z =>
      _ ← check_len list_len 4;
      ip_bytes ← val_at_bytes rlp 2;
      ip ← decode_ip ip_bytes;
      raw_port ← val_at_u16 rlp 3;
      if decide (raw_port <> 0%Z) then
        enr_seq ← val_at_u64 rlp 1;
        Ok (MResponse (mkResponse id (Pong enr_seq ip raw_port)))
      else Err (Custom "PONG response port number invalid")
  | 3%Z =>
      _ ← check_len list_len 2;
      distances ← list_at_u64 rlp 1;
      _ ← check_distances distances;
      Ok (MRequest (mkRequest id (FindNode distances)))
  | 4%Z =>
      _ ← check_len list_len 3;
      enr_list_rlp ← rlp_at rlp 2;
      nodes ← (if rlp_is_empty enr_list_rlp then Ok [] else as_list_enr enr_list_rlp);
      total ← val_at_u64 rlp 1;
      Ok (MResponse (mkResponse id (Nodes total nodes)))
  | 5%Z =>
      _ ← check_len list_len 3;
      protocol ← val_at_bytes rlp 1;
      request ← val_at_bytes rlp 2;
      Ok (MRequest (mkRequest id (Talk protocol request)))
  | 6%Z =>
      _ ← check_len list_len 2;
      response ← val_at_bytes rlp 1;
      Ok (MResponse (mkResponse id (TalkResponse response)))
  | _ => Err (Custom "Unknown RPC message type")
  end.

Definition decode (data : list byte) : result DecoderError (Message E) :=
  if decide (length data < 3) then Err RlpIsTooShort
  else
    match data with
    | [] => Err RlpIsTooShort
    | msg_type :: rlp =>
        list_len ← (size ← item_count rlp;
                    if decide (size < 2) then Err RlpIncorrectListLen else Ok size);
        '(header_len, value_len) ← payload_info rlp;
        if decide (length rlp <> header_len + value_len) then Err RlpInconsistentLengthAndData
        else
          raw_id ← val_at_bytes rlp 0;
          id ← id_decode raw_id;
          decode_body (byte_to_Z msg_type) rlp list_len id
    end.
End Rpc.
End Rpc.

Import Rpc.

Section RpcProofs.
Context {E : Type} `{RlpLaws E}.

(** The messages that the protocol allows. *)
Definition u64 (n : Z) : Prop := (0 <= n < 2 ^ 64)%Z.

Definition message_ok (m : Message E) : Prop :=
  match m with
  | MRequest r => length (req_id r) <= 8 /\
      match req_body r with
      | Ping enr_seq => u64 enr_seq
      | FindNode distances => Forall (fun d => 0 <= d <= 256)%Z distances
      | Talk _ _ => True
      end
  | MResponse r => length (resp_id r) <= 8 /\
      match resp_body r with
      | Pong enr_seq _ port => u64 enr_seq /\ (0 < port < 2 ^ 16)%Z
      | Nodes total _ => u64 total
      | TalkResponse _ => True
      end
  end.

(** A PONG carries IPv4 addresses in IPv6 form as IPv4 addresses. *)
Definition normal_ip (ip : IpAddr) : IpAddr :=
  match ip with V4 a => V4 a | V6 a => simplify_ip a end.

Definition normalize (m : Message E) : Message E :=
  match m with
  | MResponse (mkResponse id (Pong enr_seq ip port)) => MResponse (mkResponse id (Pong enr_seq (normal_ip ip) port))
  | m => m
  end.

Lemma decode_ip_octets ip : decode_ip (ip_octets ip) = Ok (normal_ip ip).
Proof.
  unfold decode_ip. destruct ip as [a|a]; simpl.
  - destruct (decide (length (vec_to_list a) = 4)) as [H4|Hne].
    + by rewrite vec_of_list.
    + by rewrite length_vec_to_list in Hne.
  - destruct (decide (length (vec_to_list a) = 4)) as [H4|Hne].
    + exfalso. by rewrite length_vec_to_list in H4.
    + destruct (decide (length (vec_to_list a) = 16)) as [H16|Hne'].
      * by rewrite vec_of_list.
      * by rewrite length_vec_to_list in Hne'.
Qed.

Lemma simplify_ip_idem a : normal_ip (simplify_ip a) = simplify_ip a.
Proof.
  unfold simplify_ip. destruct (is_loopback a) eqn:El; simpl; [unfold simplify_ip; by rewrite El|].
  destruct (to_ipv4 a) eqn:Et; simpl; [done|]. unfold simplify_ip. by rewrite El, Et.
Qed.

Lemma decode_ip_normal l ip : decode_ip l = Ok ip -> normal_ip ip = ip.
Proof.
  unfold decode_ip. destruct (decide _); [by intros [= <-]|]. destruct (decide _); [|done].
  intros [= <-]. apply simplify_ip_idem.
Qed.

(** The head of [decode] on the bytes of a list whose first item is the id. *)
Lemma decode_head t (l : list (rlp_item E)) (id : RequestId) :
  l !! 0 = Some (IBytes id) -> 2 <= length l -> length id <= 8 -> (0 <= t < 256)%Z ->
  decode (byte_of_Z t :: rlp_out (IList l)) = decode_body t (rlp_out (IList l)) (length l) id.
Proof.
  intros Hid Hl Hlen Ht. unfold decode. pose proof (rlp_out_length l) as Hout.
  rewrite decide_False by (simpl; lia). rewrite item_count_out. simpl. rewrite decide_False by lia. simpl.
  destruct (payload_info_out l) as (h & v & -> & Hhv). simpl. rewrite decide_False by lia.
  rewrite (val_at_bytes_out l 0 id Hid). simpl. unfold id_decode. rewrite decide_False by lia. simpl.
  by rewrite byte_to_of_Z, Z.mod_small.
Qed.

Lemma check_distances_Ok ds tt' :
  check_distances ds = Ok tt' -> Forall (fun n => 0 <= n < 2 ^ 64)%Z ds -> Forall (fun d => 0 <= d <= 256)%Z ds.
Proof.
  unfold check_distances. case_decide as Hex; [done|]. intros _ Hr.
  rewrite Forall_forall in *. intros d Hd. specialize (Hr d Hd). rewrite Exists_exists in Hex.
  assert (~ (256 < d)%Z) by eauto. simpl in Hr. lia.
Qed.

Lemma decode_body_ok t rlp n id (m : Message E) :
  length id <= 8 -> decode_body t rlp n id = Ok m -> message_ok m /\ normalize m = m.
Proof.
  intros Hid. unfold decode_body. destruct t as [|p|p]; try done.
  do 3 (try destruct p as [p|p|]; try done); intros (? & _ & Hd)%result_bind_Ok.
  - apply result_bind_Ok in Hd as (proto & _ & (req & _ & [= <-])%result_bind_Ok). done.
  - apply result_bind_Ok in Hd as (ds & Hds & (u & Hu & [= <-])%result_bind_Ok).
    split; [|done]. split; [done|]. eapply check_distances_Ok; [done|]. by eapply list_at_u64_range.
  - apply result_bind_Ok in Hd as (resp & _ & [= <-]). done.
  - apply result_bind_Ok in Hd as (sub & _ & (es & _ & (total & Ht & [= <-])%result_bind_Ok)%result_bind_Ok).
    split; [|done]. split; [done|]. by eapply val_at_u64_range.
  - apply result_bind_Ok in Hd as (ipb & _ & (ip & Hip & (port & Hport & Hd)%result_bind_Ok)%result_bind_Ok).
    case_decide; [|done]. apply result_bind_Ok in Hd as (seq & Hseq & [= <-]).
    apply val_at_u16_range in Hport. apply val_at_u64_range in Hseq.
    split; [split; [done|split; [done|lia]]|]. simpl. by rewrite (decode_ip_normal _ _ Hip).
  - apply result_bind_Ok in Hd as (seq & Hseq & [= <-]). split; [|done]. split; [done|]. by eapply val_at_u64_range.
Qed.
End RpcProofs.

(** C25: Round trip.  Decoding the encoding of an allowed message gives the
    message back, with IPv4-mapped and IPv4-compatible addresses of a PONG
    (other than the loopback address) turned into IPv4 addresses. *)
Theorem rpc_roundtrip {E} `{RlpLaws E} (m : Message E) :
  message_ok m -> decode (encode m) = Ok (normalize m).
Proof.
  destruct m as [[id [seq|ds|proto req]]|[id [seq ip port|total es|resp]]]; simpl; intros [Hid Hok];
    unfold request_encode, response_encode, request_msg_type, response_msg_type;
    cbn [req_id req_body resp_id resp_body];
    rewrite (decode_head _ _ id) by (done || simpl; lia); unfold decode_body, check_len; simpl.
  - by rewrite (val_at_u64_out _ 1 seq).
  - rewrite (list_at_u64_out _ 1 ds); [|done|eapply Forall_impl; [exact Hok|]; simpl; lia]. simpl.
    unfold check_distances. rewrite decide_False; [done|]. rewrite Exists_exists. intros (d & Hd & Hgt).
    rewrite Forall_forall in Hok. specialize (Hok d Hd). simpl in Hok. lia.
  - by rewrite (val_at_bytes_out _ 1 proto), (val_at_bytes_out _ 2 req).
  - destruct Hok as [Hseq Hport].
    rewrite (val_at_bytes_out _ 2 (ip_octets ip)) by done. simpl. rewrite decode_ip_octets. simpl.
    rewrite (val_at_u16_out _ 3 port) by (done || lia). simpl. rewrite decide_True by lia.
    by rewrite (val_at_u64_out _ 1 seq).
  - rewrite (rlp_at_out _ 2 (IList (IEnr <$> es))) by done. simpl. rewrite rlp_is_empty_out.
    rewrite as_list_enr_out, (val_at_u64_out _ 1 total) by done. by destruct es.
  - by rewrite (val_at_bytes_out _ 1 resp).
Qed.

(** Whatever bytes are received, a message that decodes is allowed: its id
    has at most 8 bytes, a FINDNODE request has distances up to 256, a PONG has
    a nonzero port, and its address is in normal form. *)
Theorem rpc_decode_allowed {E} `{RlpLaws E} (data : list byte) (m : Message E) :
  decode data = Ok m -> message_ok m /\ normalize m = m.
Proof.
  unfold decode. case_decide; [done|]. destruct data as [|t rlp]; [done|].
  intros (size & _ & ([h v] & _ & Hd)%result_bind_Ok)%result_bind_Ok. case_decide; [done|].
  apply result_bind_Ok in Hd as (raw & _ & (id & Hid & Hd)%result_bind_Ok).
  eapply decode_body_ok; [|done]. unfold id_decode in Hid. case_decide; [done|]. simplify_eq. lia.
Qed.
