(* ===== verification/RlpSample.v ===== *)
(** * Instances of the interface of the rlp crate

    [RlpCodec]: the format of the Ethereum RLP specification, with what its
    reader refuses: items that are cut off, lengths with leading zeros and forms
    that are longer than need be.  A record is its own encoding.  The reference
    vectors of the unit tests are evaluated with it.

    [RlpSample]: a tag, the length of the payload in unary and the payload.  It
    is not RLP: it shows that the laws the RPC theorems assume can be
    implemented. *)

From stdpp Require Import strings.
From S2P Require Import Prelude Bytes Rpc.

Module RlpCodec.

(** ** Writing *)

(** Big-endian without leading zeros. *)
Definition minimal (n : Z) : list byte :=
  if decide (n = 0)%Z then [] else to_be_bytes (Z.to_nat (Z.log2 n / 8 + 1)) n.

Definition header (base : Z) (n : nat) : list byte :=
  if decide (n <= 55) then [byte_of_Z (base + Z.of_nat n)]
  else let l := minimal (Z.of_nat n) in byte_of_Z (base + 55 + Z.of_nat (length l)) :: l.

Definition put_string (b : list byte) : list byte :=
  match b with
  | [x] => if decide (byte_to_Z x < 128)%Z then b else header 128 1 ++ b
  | _ => header 128 (length b) ++ b
  end.

Definition put_list (b : list byte) : list byte := header 192 (length b) ++ b.

Fixpoint out (i : rlp_item (list byte)) : list byte :=
  match i with
  | IBytes b => put_string b
  | IUint n => put_string (minimal n)
  | IEnr e => e
  | IList l => put_list ((fix go l := match l with [] => [] | i :: l => out i ++ go l end) l)
  end.

(** ** Reading *)

(** A length given by the next [n] bytes; the short form is for lengths below 56. *)
Definition long_length (n : nat) (l : list byte) : result DecoderError (nat * nat) :=
  let bytes := take n l in
  if decide (length bytes < n) then Err RlpIsTooShort
  else if decide (head bytes = Some x00) then Err RlpDataLenWithZeroPrefix
  else
    let len := Z.to_nat (from_be_bytes bytes) in
    if decide (len <= 55) then Err RlpInvalidIndirection else Ok (1 + n, len).

(** The lengths of the header and of the payload of the first item, and whether it is a list. *)
Definition item_info (l : list byte) : result DecoderError (bool * nat * nat) :=
  match l with
  | [] => Err RlpIsTooShort
  | b :: rest =>
      let b := byte_to_Z b in
      if decide (b < 128)%Z then Ok (false, 0, 1)
      else if decide (b <= 183)%Z then Ok (false, 1, Z.to_nat (b - 128))
      else if decide (b <= 191)%Z then '(h, n) ← long_length (Z.to_nat (b - 183)) rest; Ok (false, h, n)
      else if decide (b <= 247)%Z then Ok (true, 1, Z.to_nat (b - 192))
      else '(h, n) ← long_length (Z.to_nat (b - 247)) rest; Ok (true, h, n)
  end.

(** An item: whether it is a list, its payload and all its bytes. *)
Record item := mkItem { is_list : bool; payload : list byte; raw : list byte }.

Definition take_item (l : list byte) : result DecoderError (item * list byte) :=
  '(is_list, h, n) ← item_info l;
  if decide (length l < h + n) then Err RlpIsTooShort
  else Ok (mkItem is_list (take n (drop h l)) (take (h + n) l), drop (h + n) l).

Fixpoint items (fuel : nat) (l : list byte) : result DecoderError (list item) :=
  match fuel, l with
  | S fuel, _ :: _ => '(i, l) ← take_item l; its ← items fuel l; Ok (i :: its)
  | _, _ => Ok []
  end.

Definition list_items (l : list byte) : result DecoderError (list item) :=
  '(i, _) ← take_item l;
  if is_list i then items (length (payload i)) (payload i) else Err RlpExpectedToBeList.

Definition item_at (l : list byte) (n : nat) : result DecoderError item :=
  its ← list_items l;
  match its !! n with Some i => Ok i | None => Err RlpIsTooShort end.

(** The data of an item; a single byte below 128 stands for itself. *)
Definition data (i : item) : result DecoderError (list byte) :=
  if is_list i then Err RlpExpectedToBeData
  else
    match payload i, raw i with
    | [b], [_; _] => if decide (byte_to_Z b < 128)%Z then Err RlpInvalidIndirection else Ok [b]
    | b, _ => Ok b
    end.

(** An unsigned integer of at most [n] bytes. *)
Definition uint (n : nat) (i : item) : result DecoderError Z :=
  b ← data i;
  if decide (n < length b) then Err RlpIsTooBig
  else if decide (head b = Some x00) then Err RlpInvalidIndirection
  else Ok (from_be_bytes b).

Fixpoint all_uint (n : nat) (l : list item) : result DecoderError (list Z) :=
  match l with
  | [] => Ok []
  | i :: l => x ← uint n i; xs ← all_uint n l; Ok (x :: xs)
  end.

Definition at_item {A} (l : list byte) (n : nat) (f : item -> result DecoderError A) : result DecoderError A :=
  i ← item_at l n; f i.

Definition of_items {A} (l : list byte) (f : list item -> result DecoderError A) : result DecoderError A :=
  its ← list_items l; f its.

Definition whole_item (l : list byte) : result DecoderError (nat * nat) :=
  '(_, h, n) ← item_info l; if decide (length l < h + n) then Err RlpIsTooShort else Ok (h, n).

#[export] Instance rlp_codec : Rlp (list byte) := {|
  rlp_out := out;
  item_count l := of_items l (fun its => Ok (length its));
  payload_info := whole_item;
  val_at_bytes l n := at_item l n data;
  val_at_u64 l n := at_item l n (uint 8);
  val_at_u16 l n := at_item l n (uint 2);
  list_at_u64 l n := at_item l n (fun i => of_items (raw i) (all_uint 8));
  rlp_at l n := at_item l n (fun i => Ok (raw i));
  rlp_is_empty l := bool_decide (head l = Some (byte_of_Z 192)) || bool_decide (head l = Some (byte_of_Z 128));
  as_list_enr l := of_items l (fun its => Ok (raw <$> its));
|}.
End RlpCodec.

Module RlpSample.

Definition sample_record : Type := list byte.

Definition unary (n : nat) : list byte := replicate n x01 ++ [x00].

Definition put (tag : byte) (payload : list byte) : list byte := tag :: unary (length payload) ++ payload.

Fixpoint out (i : rlp_item sample_record) : list byte :=
  match i with
  | IBytes b => put x80 b
  | IUint n => put x81 (to_be_bytes 8 n)
  | IEnr e => put x82 e
  | IList l => put xc0 ((fix go l := match l with [] => [] | i :: l => out i ++ go l end) l)
  end.

Definition outs (l : list (rlp_item sample_record)) : list byte := l ≫= out.

Fixpoint read_unary (l : list byte) : option (nat * list byte) :=
  match l with
  | x00 :: l => Some (0, l)
  | x01 :: l => '(n, l) ← read_unary l; Some (S n, l)
  | _ => None
  end.

(** An item off the front: tag, payload, and the bytes after it. *)
Definition take_item (l : list byte) : option (byte * list byte * list byte) :=
  match l with
  | [] => None
  | tag :: l => '(n, l) ← read_unary l; if decide (n <= length l) then Some (tag, take n l, drop n l) else None
  end.

Fixpoint items (fuel : nat) (l : list byte) : list (byte * list byte) :=
  match fuel with
  | 0 => []
  | S fuel =>
      match take_item l with
      | Some (tag, payload, l) => (tag, payload) :: items fuel l
      | None => []
      end
  end.

(** The items of a list. *)
Definition list_items (l : list byte) : result DecoderError (list (byte * list byte)) :=
  match take_item l with
  | Some (xc0, payload, _) => Ok (items (length payload) payload)
  | _ => Err RlpExpectedToBeList
  end.

Definition nth_item (l : list byte) (i : nat) : result DecoderError (byte * list byte) :=
  its ← list_items l;
  match its !! i with Some x => Ok x | None => Err RlpIsTooShort end.

Definition to_uint (bound : Z) (x : byte * list byte) : result DecoderError Z :=
  match x with
  | (x81, payload) =>
      let n := from_be_bytes payload in if decide (0 <= n < bound)%Z then Ok n else Err RlpIsTooBig
  | _ => Err RlpExpectedToBeData
  end.

Fixpoint to_uints (l : list (byte * list byte)) : result DecoderError (list Z) :=
  match l with
  | [] => Ok []
  | x :: l => n ← to_uint (2 ^ 64) x; ns ← to_uints l; Ok (n :: ns)
  end.

Definition at_item {A} (l : list byte) (i : nat) (f : byte * list byte -> result DecoderError A)
    : result DecoderError A := x ← nth_item l i; f x.

Definition of_items {A} (l : list byte) (f : list (byte * list byte) -> A) : result DecoderError A :=
  its ← list_items l; Ok (f its).

#[export] Instance sample_rlp : Rlp sample_record := {|
  rlp_out := out;
  item_count l := of_items l length;
  payload_info l :=
    match take_item l with
    | Some (_, payload, rest) => Ok (length l - length payload - length rest, length payload)
    | None => Err RlpIsTooShort
    end;
  val_at_bytes l i := at_item l i (fun x => Ok (snd x));
  val_at_u64 l i := at_item l i (to_uint (2 ^ 64));
  val_at_u16 l i := at_item l i (to_uint (2 ^ 16));
  list_at_u64 l i := at_item l i (fun x => to_uints (items (length (snd x)) (snd x)));
  rlp_at l i := at_item l i (fun x => Ok (put (fst x) (snd x)));
  rlp_is_empty l := match take_item l with Some (_, [], _) => true | _ => false end;
  as_list_enr l := of_items l (fun its => snd <$> its);
|}.

Lemma read_unary_app n l : read_unary (unary n ++ l) = Some (n, l).
Proof. induction n as [|n IH]; simpl; [done|]. unfold unary in IH. by rewrite IH. Qed.

Lemma take_item_put tag payload l : take_item (put tag payload ++ l) = Some (tag, payload, l).
Proof.
  unfold put, take_item. simpl. rewrite <-app_assoc, read_unary_app. simpl.
  rewrite decide_True by (rewrite length_app; lia). by rewrite take_app_length, drop_app_length.
Qed.

Lemma out_put i : exists tag payload, out i = put tag payload.
Proof. destruct i; eexists _, _; done. Qed.

Lemma out_list l : out (IList l) = put xc0 (outs l).
Proof.
  assert ((fix go l := match l with [] => [] | i :: l => out i ++ go l end) l = outs l) as Hgo.
  { unfold outs. induction l as [|i l IH]; csimpl; [done|]. by rewrite IH. }
  cbn [out]. by rewrite Hgo.
Qed.

(** Tag and payload of an item. *)
Definition parts (i : rlp_item sample_record) : byte * list byte :=
  match take_item (out i) with Some (tag, payload, _) => (tag, payload) | None => (x00, []) end.

Lemma out_parts i : out i = put (fst (parts i)) (snd (parts i)).
Proof.
  destruct (out_put i) as (tag & payload & Ho). unfold parts. rewrite Ho.
  rewrite <-(app_nil_r (put tag payload)) at 2 3. by rewrite take_item_put.
Qed.

Lemma items_outs fuel l : length l <= fuel -> items fuel (outs l) = parts <$> l.
Proof.
  revert fuel; induction l as [|i l IH]; intros fuel Hf; [by destruct fuel|].
  destruct fuel as [|fuel]; simpl in Hf; [lia|]. csimpl.
  change (outs (i :: l)) with (out i ++ outs l). rewrite (out_parts i), take_item_put, IH by lia.
  by destruct (parts i).
Qed.

Lemma outs_length l : length l <= length (outs l).
Proof.
  induction l as [|i l IH]; [done|]. change (outs (i :: l)) with (out i ++ outs l).
  rewrite (out_parts i), length_app. simpl. lia.
Qed.

Lemma take_item_list l : take_item (out (IList l)) = Some (xc0, outs l, []).
Proof. rewrite out_list, <-(app_nil_r (put xc0 (outs l))). apply take_item_put. Qed.

Lemma list_items_out l : list_items (out (IList l)) = Ok (parts <$> l).
Proof. unfold list_items. rewrite take_item_list, items_outs; [done|]. apply outs_length. Qed.

Lemma nth_item_out l i x : l !! i = Some x -> nth_item (out (IList l)) i = Ok (parts x).
Proof. intros Hi. unfold nth_item. rewrite list_items_out. simpl. by rewrite list_lookup_fmap, Hi. Qed.

Lemma parts_eq i tag payload : out i = put tag payload -> parts i = (tag, payload).
Proof. intros Ho. unfold parts. by rewrite Ho, <-(app_nil_r (put tag payload)), take_item_put. Qed.

Lemma to_uint_parts bound n :
  (0 <= n < 2 ^ 64)%Z -> (0 <= n < bound)%Z -> to_uint bound (parts (IUint n)) = Ok n.
Proof.
  intros H64 Hb. rewrite (parts_eq _ x81 (to_be_bytes 8 n)) by done. unfold to_uint.
  rewrite from_to_be_bytes_small by done. by rewrite decide_True.
Qed.

Lemma to_uint_range bound x n : to_uint bound x = Ok n -> (0 <= n < bound)%Z.
Proof.
  destruct x as [tag payload]. unfold to_uint. destruct tag; try done. case_decide; [|done]. by intros [= <-].
Qed.

Lemma to_uints_cons x l : to_uints (x :: l) = (n ← to_uint (2 ^ 64) x; ns ← to_uints l; Ok (n :: ns)).
Proof. done. Qed.

Lemma to_uints_parts ns :
  Forall (fun n => 0 <= n < 2 ^ 64)%Z ns -> to_uints (parts <$> (IUint <$> ns)) = Ok ns.
Proof.
  induction 1 as [|n ns Hn Hns IH]; [done|].
  change (parts <$> (IUint <$> n :: ns)) with (parts (IUint n) :: (parts <$> (IUint <$> ns))).
  by rewrite to_uints_cons, to_uint_parts, IH.
Qed.

#[export] Instance sample_rlp_laws : RlpLaws sample_record.
Proof.
  split; cbn [item_count payload_info rlp_out val_at_bytes val_at_u64 val_at_u16 list_at_u64 rlp_at
    rlp_is_empty as_list_enr sample_rlp]; unfold at_item, of_items.
  - intros l. rewrite list_items_out. simpl. by rewrite length_fmap.
  - intros l. rewrite take_item_list. eexists _, _. split; [done|]. rewrite out_list. unfold put. simpl.
    rewrite length_app. lia.
  - intros l. rewrite out_list. unfold put. simpl. rewrite length_app. pose proof (outs_length l). lia.
  - intros l i b Hi. rewrite (nth_item_out l i _ Hi). simpl. by rewrite (parts_eq _ x80 b).
  - intros l i n Hi Hn. rewrite (nth_item_out l i _ Hi). by apply to_uint_parts.
  - intros l i n Hi Hn. rewrite (nth_item_out l i _ Hi). apply to_uint_parts; lia.
  - intros l i ns Hi Hns. rewrite (nth_item_out l i _ Hi). cbn [mbind result_bind].
    rewrite (parts_eq _ xc0 (outs (IUint <$> ns))) by apply out_list. cbn [snd].
    rewrite items_outs by apply outs_length. by apply to_uints_parts.
  - intros l i x Hi. rewrite (nth_item_out l i _ Hi). simpl. by rewrite <-out_parts.
  - intros l. rewrite take_item_list. destruct l as [|i l]; [done|].
    pose proof (outs_length (i :: l)) as Hlen. destruct (outs (i :: l)); [simpl in Hlen; lia|done].
  - intros es. rewrite list_items_out. simpl. f_equal. rewrite <-!list_fmap_compose.
    rewrite <-(list_fmap_id es) at 2. apply list_fmap_ext. intros i e _. simpl. by rewrite (parts_eq _ x82 e).
  - intros d i n (x & _ & Hn)%result_bind_Ok. by eapply to_uint_range.
  - intros d i n (x & _ & Hn)%result_bind_Ok. by eapply to_uint_range.
  - intros d i ns (x & _ & Hns)%result_bind_Ok. revert ns Hns.
    induction (items _ _) as [|y l IH]; intros ns Hns; [by simplify_eq/=|].
    rewrite to_uints_cons in Hns. apply result_bind_Ok in Hns as (n & Hn & (ns' & Hns' & [= <-])%result_bind_Ok).
    constructor; [by eapply to_uint_range|by apply IH].
Qed.
End RlpSample.

Import RlpSample Rpc.

Lemma rpc_roundtrip_witness :
  decode (encode (MResponse (mkResponse [x07] (Pong 5 (V4 [# x7f; x00; x00; x01]) 9000))
                  : Message sample_record)) =
  Ok (MResponse (mkResponse [x07] (Pong 5 (V4 [# x7f; x00; x00; x01]) 9000))).
Proof.
  rewrite (rpc_roundtrip (MResponse (mkResponse [x07] (Pong 5 (V4 [# x7f; x00; x00; x01]) 9000)))).
  - reflexivity.
  - simpl. unfold u64. lia.
Defined.

Lemma rpc_decode_allowed_witness :
  exists m : Message sample_record,
    decode (encode (MRequest (mkRequest [x01] (FindNode [255; 256]%Z)) : Message sample_record)) = Ok m /\
    message_ok m.
Proof.
  exists (MRequest (mkRequest [x01] (FindNode [255; 256]%Z))). split; [vm_compute; reflexivity|].
  apply (rpc_decode_allowed (encode (MRequest (mkRequest [x01] (FindNode [255; 256]%Z)) : Message sample_record))).
  vm_compute. reflexivity.
Defined.
