(* ===== verification/QueryInfo.v ===== *)
(** * What a query asks a peer (src/src/service/query_info.rs)

    [findnode_log2distance] lists the distances around the distance of the
    target from the peer.  Its loop runs with fuel; the callback channel of a
    [QueryInfo] is the name of the channel. *)

From Stdlib Require Import Sorting.Sorted.
From S2P Require Import Prelude Bytes Key Rpc FindNode QueryPool.

Module QueryInfo.

Inductive QueryType := FindNode (node_id : NodeId).

Record QueryInfo (E : Type) := mkInfo {
  query_type : QueryType;
  untrusted_enrs : list E;
  callback : nat;
  distances_to_request : nat;
}.
Arguments mkInfo {E} query_type untrusted_enrs callback distances_to_request.
Arguments query_type {E} _.
Arguments untrusted_enrs {E} _.
Arguments callback {E} _.
Arguments distances_to_request {E} _.

(** The [while] loop. *)
Fixpoint distance_loop (fuel : nat) (distance : Z) (size : nat) (difference : Z) (result_list : list Z)
    : outcome (list Z) :=
  match fuel with
  | 0 => Panic
  | S fuel =>
      if decide (length result_list < size) then
        let result_list := if decide (distance + difference <= 256)%Z
                           then result_list ++ [(distance + difference)%Z] else result_list in
        let result_list := if decide (length result_list < size) then
                             if decide (difference <= distance)%Z
                             then result_list ++ [(distance - difference)%Z] else result_list
                           else result_list in
        distance_loop fuel distance size (difference + 1) result_list
      else Ret result_list
  end.

(** A list of [size <= 127] distances takes at most 128 turns. *)
Definition LOOP_FUEL : nat := 128.

Definition findnode_log2distance (target peer : NodeId) (size : nat) : outcome (option (list Z)) :=
  if decide (127 < size) then Panic
  else
    match Key.log2_distance (Key.from_node_id peer) (Key.from_node_id target) with
    | None => Ret None
    | Some distance =>
        l ← distance_loop LOOP_FUEL distance size 1 [distance];
        if decide (size <= length l) then Ret (Some (take size l)) else Panic
    end.

Definition rpc_request {E} (self : QueryInfo E) (peer : NodeId) : outcome Rpc.RequestBody :=
  match query_type self with
  | FindNode node_id =>
      o ← findnode_log2distance node_id peer (distances_to_request self);
      Ret (Rpc.FindNode (default [0%Z] o))
  end.

(** [impl TargetKey<NodeId> for QueryInfo]. *)
Definition key {E} (self : QueryInfo E) : Key NodeId :=
  match query_type self with FindNode node_id => Key.new_raw node_id node_id end.

#[export] Instance query_info_target {E} : QueryPool.TargetKey (QueryInfo E) NodeId := key.

Section Loop.
Open Scope Z_scope.
Context (d : Z).

(** Closer to [d] first. *)
Definition around (a b : Z) : Prop := Z.abs (a - d) <= Z.abs (b - d).

(** Distinct valid distances, closest first. *)
Definition ordered (l : list Z) : Prop :=
  NoDup l /\ Forall (fun x => 0 <= x <= 256) l /\ StronglySorted around l.

(** The list has exactly the distances closer than [k]. *)
Definition listed (k : Z) (l : list Z) : Prop :=
  ordered l /\ forall x, x ∈ l <-> 0 <= x <= 256 /\ Z.abs (x - d) < k.

(** No distance is left out that is closer than a listed one. *)
Definition closest_distances (l : list Z) : Prop :=
  ordered l /\ forall x y, 0 <= x <= 256 -> x ∉ l -> y ∈ l -> around y x.

Lemma ordered_snoc l x :
  ordered l -> 0 <= x <= 256 -> x ∉ l -> (forall y, y ∈ l -> around y x) -> ordered (l ++ [x]).
Proof.
  intros (Hn & Hr & Hs) Hx Hnin Hy. split_and!.
  - apply NoDup_app. split_and!; [done|set_solver|apply NoDup_singleton].
  - apply Forall_app. by split; [|constructor].
  - clear Hn Hr Hnin. induction Hs as [|z l Hs IH Hz]; simpl; [repeat constructor|].
    constructor; [apply IH; set_solver|]. apply Forall_app. split; [done|]. constructor; [|done].
    apply Hy. by left.
Qed.

(** The two pushes of one turn. *)
Definition add_up (k : Z) (l : list Z) : list Z := if decide (d + k <= 256) then l ++ [d + k] else l.
Definition add_down (k : Z) (l : list Z) : list Z := if decide (k <= d) then l ++ [d - k] else l.

Lemma elem_of_add_up k l x : x ∈ add_up k l <-> x ∈ l \/ x = d + k /\ d + k <= 256.
Proof. unfold add_up. case_decide; [rewrite elem_of_app, list_elem_of_singleton|]; naive_solver. Qed.

Lemma elem_of_add_down k l x : x ∈ add_down k l <-> x ∈ l \/ x = d - k /\ k <= d.
Proof. unfold add_down. case_decide; [rewrite elem_of_app, list_elem_of_singleton|]; naive_solver. Qed.

Lemma add_up_ordered k l : 0 < k -> 0 <= d -> listed k l -> ordered (add_up k l).
Proof.
  intros Hk Hd [Ho Hl]. unfold add_up. case_decide; [|done]. apply ordered_snoc; [done|lia|..].
  - rewrite Hl. lia.
  - intros y Hy%Hl. unfold around. lia.
Qed.

Lemma listed_add k l : 0 < k -> 0 <= d <= 256 -> listed k l -> listed (k + 1) (add_down k (add_up k l)).
Proof.
  intros Hk Hd Hl. pose proof (add_up_ordered k l Hk ltac:(lia) Hl) as Ho1. destruct Hl as [Ho Hl]. split.
  - unfold add_down. case_decide; [|done]. apply ordered_snoc; [done|lia|..].
    + rewrite elem_of_add_up, Hl. lia.
    + intros y [[_ Hy]%Hl|[-> _]]%elem_of_add_up; unfold around; lia.
  - intros x. rewrite elem_of_add_down, elem_of_add_up, Hl. lia.
Qed.

Lemma listed_closest k l : listed k l -> closest_distances l.
Proof.
  intros [Ho Hl]. split; [done|]. intros x y Hx Hnin Hy%Hl. unfold around. rewrite Hl in Hnin. lia.
Qed.

Lemma add_up_closest k l : 0 < k -> 0 <= d -> listed k l -> closest_distances (add_up k l).
Proof.
  intros Hk Hd Hl. split; [by apply add_up_ordered|]. destruct Hl as [_ Hl].
  intros x y Hx Hnin Hy. rewrite elem_of_add_up, Hl in Hnin, Hy. unfold around. lia.
Qed.

Lemma take_closest n l : closest_distances l -> closest_distances (take n l).
Proof.
  intros [(Hn & Hr & Hs) Hc]. split; [split_and!|].
  - eapply sublist_NoDup; [exact Hn|]. apply sublist_take.
  - by apply Forall_take.
  - clear Hn Hr Hc. revert n; induction Hs as [|z l Hs IH Hz]; intros [|n]; simpl; try constructor; [done|].
    by apply Forall_take.
  - intros x y Hx Hnin Hy. destruct (decide (x ∈ l)) as [Hin|Hin].
    + rewrite <-(take_drop n l) in Hin, Hs. apply elem_of_app in Hin as [|Hin]; [done|].
      clear Hnin Hn Hr Hc. induction (take n l) as [|z tl IH]; [set_solver|].
      apply StronglySorted_inv in Hs as [Hs Hz]. apply elem_of_cons in Hy as [->|Hy]; [|by apply IH].
      rewrite Forall_forall in Hz. apply Hz. set_solver.
    + apply Hc; [done|done|]. eapply elem_of_sublist; [apply (sublist_take l n)|done].
Qed.

Lemma distance_loop_ok fuel size k l :
  (size <= 127)%nat -> 0 <= d <= 256 -> 0 < k -> (Z.to_nat k <= length l)%nat -> (128 <= fuel + Z.to_nat k)%nat ->
  (1 <= fuel)%nat -> listed k l ->
  exists l' t, distance_loop fuel d size k l = Ret l' /\ closest_distances l' /\ (size <= length l')%nat /\ l' = l ++ t.
Proof.
  revert k l; induction fuel as [|fuel IH]; intros k l Hsize Hd Hk Hlen Hfuel Hf Hl; [lia|]. simpl.
  case_decide as Hlt; [|exists l, []; rewrite app_nil_r; split_and!; [done|by eapply listed_closest|lia|done]].
  fold (add_up k l). assert (exists u, add_up k l = l ++ u) as [u Hu].
  { unfold add_up. case_decide; eexists; [done|]. by rewrite app_nil_r. }
  case_decide as Hlt1.
  - fold (add_down k (add_up k l)). assert (exists w, add_down k (add_up k l) = l ++ w) as [w Hw].
    { unfold add_down. rewrite Hu. case_decide; eexists; [|done]. by rewrite <-app_assoc. }
    destruct (IH (k + 1) (add_down k (add_up k l))) as (l' & t & Hret & Hc & Hsz & ->); try lia.
    + unfold add_down, add_up. case_decide; case_decide; rewrite ?length_app; simpl; lia.
    + apply listed_add; [done|lia|done].
    + exists (add_down k (add_up k l) ++ t), (w ++ t). split_and!; [done|done|done|]. by rewrite Hw, app_assoc.
  - destruct fuel as [|fuel]; [lia|]. exists (add_up k l), u. simpl. rewrite decide_False by lia.
    split_and!; [done|by apply add_up_closest; [..|done]; lia|lia|done].
Qed.
End Loop.
End QueryInfo.

Import QueryInfo.

Lemma findnode_log2distance_cases (target peer : NodeId) (size : nat) :
  if decide (127 < size) then findnode_log2distance target peer size = Panic
  else
    match Key.log2_distance (Key.from_node_id peer) (Key.from_node_id target) with
    | None => findnode_log2distance target peer size = Ret None
    | Some d => exists l, findnode_log2distance target peer size = Ret (Some l) /\
        length l = size /\ closest_distances d l /\ head l = (if decide (0 < size) then Some d else None)
    end.
Proof.
  unfold findnode_log2distance. case_decide as Hs; [done|].
  destruct (Key.log2_distance _ _) as [d|] eqn:Ed; [|done].
  assert (1 <= d <= 256)%Z as Hd by by apply Key.log2_distance_range in Ed.
  destruct (distance_loop_ok d LOOP_FUEL size 1 [d]) as (l & t & -> & Hc & Hlen & ->);
    [lia|lia|lia|simpl; lia|unfold LOOP_FUEL; lia|unfold LOOP_FUEL; lia| |].
  { split; [split_and!; [apply NoDup_singleton|constructor; [lia|done]|repeat constructor]|].
    intros x. rewrite list_elem_of_singleton. lia. }
  simpl. rewrite decide_True by done. eexists. split; [done|]. split_and!.
  - rewrite length_take. simpl in *. lia.
  - by apply (take_closest d size).
  - by destruct size.
Qed.

(** The request of a query for a peer. *)
Lemma rpc_request_total {E} (q : QueryInfo E) (peer : NodeId) :
  distances_to_request q <= 127 -> exists distances, rpc_request q peer = Ret (Rpc.FindNode distances).
Proof.
  intros Hd. unfold rpc_request. destruct (query_type q) as [target].
  pose proof (findnode_log2distance_cases target peer (distances_to_request q)) as H. rewrite decide_False in H by lia.
  destruct (Key.log2_distance _ _); [destruct H as (l & -> & _)|rewrite H]; by eexists.
Qed.

(** For a size up to 127 and different ids, [findnode_log2distance]
    returns (its loop ends) exactly [size] distinct distances from 0 to 256,
    the first one the distance of the target from the peer, ordered by how far
    they are from it, and no distance left out is closer to it than a listed
    one.  For equal ids it returns [None]; a larger size panics. *)
Theorem findnode_log2distance_spec (target peer : NodeId) (size : nat) :
  if decide (127 < size) then findnode_log2distance target peer size = Panic
  else
    match Key.log2_distance (Key.from_node_id peer) (Key.from_node_id target) with
    | None => findnode_log2distance target peer size = Ret None
    | Some d => exists l, findnode_log2distance target peer size = Ret (Some l) /\
        length l = size /\ closest_distances d l /\ head l = (if decide (0 < size) then Some d else None)
    end.
Proof. apply findnode_log2distance_cases. Qed.
