(* ===== verification/IpVote.v ===== *)
(** * Votes on the external address (src/src/service/ip_vote.rs)

    [IpVote] keeps the last vote of every node until it expires.  The orders in
    which the hash maps are iterated are arguments. *)

From S2P Require Import Prelude Bytes Key.

Module IpVote.

Record IpVote := mkIpVote {
  votes : gmap NodeId (SocketAddr * Z);
  minimum_threshold : nat;
  vote_duration : Z;
}.

Definition new (minimum_threshold : nat) (vote_duration : Z) : outcome IpVote :=
  if decide (minimum_threshold < 2) then Panic else Ret (mkIpVote ∅ minimum_threshold vote_duration).

Definition insert (v : IpVote) (now : Z) (key : NodeId) (socket : SocketAddr) : IpVote :=
  mkIpVote (<[key := (socket, (now + vote_duration v)%Z)]> (votes v)) (minimum_threshold v) (vote_duration v).

(** [Iterator::max_by_key]: the last of the greatest. *)
Definition max_by_key {A} (f : A -> nat) (l : list A) : option A :=
  foldl (fun best x => match best with
                       | Some y => if decide (f y <= f x) then Some x else Some y
                       | None => Some x
                       end) None l.

Definition majority_of {K} (iter : list (K * nat)) (threshold : nat) : option K :=
  fst <$> max_by_key snd (filter (fun kc => threshold <= kc.2) iter).

(** [*count.entry(k).or_insert_with(|| 0) += 1]. *)
Definition count {K} `{Countable K} (m : gmap K nat) (k : K) : gmap K nat := <[k := S (default 0 (m !! k))]> m.

Definition count_vote (counts : gmap SocketAddrV4 nat * gmap SocketAddrV6 nat) (vote : SocketAddr * Z) :=
  let '(ip4_count, ip6_count) := counts in
  match fst vote with
  | SockV4 socket => (count ip4_count socket, ip6_count)
  | SockV6 socket => (ip4_count, count ip6_count socket)
  end.

(** [values], [order4] and [order6] list what the maps hold in the order of their iteration. *)
Definition majority (v : IpVote) (instant : Z)
    (values : gmap NodeId (SocketAddr * Z) -> list (NodeId * (SocketAddr * Z)))
    (order4 : gmap SocketAddrV4 nat -> list (SocketAddrV4 * nat)) (order6 : gmap SocketAddrV6 nat -> list (SocketAddrV6 * nat))
    : IpVote * (option SocketAddrV4 * option SocketAddrV6) :=
  let kept := filter (fun kv => (instant < kv.2.2)%Z) (votes v) in
  let v := mkIpVote kept (minimum_threshold v) (vote_duration v) in
  let '(ip4_count, ip6_count) := foldl count_vote (∅, ∅) (values kept).*2 in
  let ip4_majority := majority_of (order4 ip4_count) (minimum_threshold v) in
  let ip6_majority := majority_of (order6 ip6_count) (minimum_threshold v) in
  (v, (ip4_majority, ip6_majority)).
End IpVote.
Import IpVote.

(** An order of the iteration of a map. *)
Definition iterates {K} `{Countable K} {V} (order : gmap K V -> list (K * V)) : Prop :=
  forall m, order m ≡ₚ map_to_list m.

(** ** The majority of a map *)

Lemma max_by_key_snoc {A} (f : A -> nat) l x :
  max_by_key f (l ++ [x]) =
  match max_by_key f l with Some y => if decide (f y <= f x) then Some x else Some y | None => Some x end.
Proof. unfold max_by_key. by rewrite foldl_app. Qed.

Lemma max_by_key_spec {A} (f : A -> nat) l :
  match max_by_key f l with
  | Some x => x ∈ l /\ forall y, y ∈ l -> f y <= f x
  | None => l = []
  end.
Proof.
  induction l as [|x l IH] using rev_ind; [done|]. rewrite max_by_key_snoc.
  destruct (max_by_key f l) as [y|].
  - destruct IH as [Hin Hmax]. case_decide.
    + split; [set_solver|]. intros z [Hz| ->%list_elem_of_singleton]%elem_of_app; [|done]. specialize (Hmax z Hz). lia.
    + split; [set_solver|]. intros z [Hz| ->%list_elem_of_singleton]%elem_of_app; [by apply Hmax|lia].
  - subst l. split; [set_solver|]. intros z. simpl. by intros ->%list_elem_of_singleton.
Qed.

(** What a majority is, for the votes each address has. *)
Definition is_majority {K} (support : K -> nat) (threshold : nat) (r : option K) : Prop :=
  match r with
  | Some a => threshold <= support a /\ forall b, support b <= support a
  | None => forall b, support b < threshold
  end.

Lemma is_majority_proper {K} (f g : K -> nat) threshold r :
  (forall a, g a = f a) -> is_majority g threshold r -> is_majority f threshold r.
Proof.
  intros E. destruct r as [a|]; simpl; [|intros H b; by rewrite <-E].
  intros [H1 H2]. rewrite <-E. split; [done|]. intros b. by rewrite <-E.
Qed.

Lemma majority_of_spec {K} `{Countable K} (m : gmap K nat) (order : gmap K nat -> list (K * nat)) threshold :
  iterates order -> 0 < threshold ->
  is_majority (fun a => default 0 (m !! a)) threshold (majority_of (order m) threshold).
Proof.
  intros Ho Ht. unfold majority_of.
  assert (forall a c, (a, c) ∈ filter (fun kc => threshold <= kc.2) (order m) <-> threshold <= c /\ m !! a = Some c) as Hin.
  { intros a c. rewrite list_elem_of_filter, (Ho m), elem_of_map_to_list. done. }
  pose proof (max_by_key_spec snd (filter (fun kc => threshold <= kc.2) (order m))) as Hm.
  destruct (max_by_key _ _) as [[a c]|]; simpl.
  - destruct Hm as [[Hc E]%Hin Hmax]. rewrite E. simpl. split; [done|]. intros b.
    destruct (m !! b) as [c'|] eqn:Eb; simpl; [|lia].
    destruct (decide (threshold <= c')); [|lia]. apply (Hmax (b, c')). by apply Hin.
  - intros b. destruct (m !! b) as [c|] eqn:Eb; simpl; [|done].
    destruct (decide (threshold <= c)) as [Hc|]; [|lia].
    assert ((b, c) ∈ filter (fun kc => threshold <= kc.2) (order m)) as Hb by (by apply Hin). rewrite Hm in Hb. by apply elem_of_nil in Hb.
Qed.

(** ** The counts *)

Definition votes_for (s : SocketAddr) (l : list (SocketAddr * Z)) : nat := length (filter (fun v => v.1 = s) l).

Lemma count_lookup {K} `{Countable K} (m : gmap K nat) k a :
  default 0 (count m k !! a) = (if decide (k = a) then 1 else 0) + default 0 (m !! a).
Proof. unfold count. case_decide; subst; [by rewrite lookup_insert_eq|by rewrite lookup_insert_ne]. Qed.

Lemma count_votes l c4 c6 :
  let '(r4, r6) := foldl count_vote (c4, c6) l in
  (forall a, default 0 (r4 !! a) = default 0 (c4 !! a) + votes_for (SockV4 a) l) /\
  (forall a, default 0 (r6 !! a) = default 0 (c6 !! a) + votes_for (SockV6 a) l).
Proof.
  revert c4 c6. induction l as [|[s t] l IH]; intros c4 c6; simpl; [unfold votes_for; simpl; split; intros; lia|].
  unfold votes_for in *. destruct s as [s|s]; simpl.
  - specialize (IH (count c4 s) c6). destruct (foldl _ _ _) as [r4 r6]. destruct IH as [I4 I6]. split; intros a.
    + rewrite I4, count_lookup, filter_cons. simpl. repeat case_decide; simplify_eq; simpl; lia.
    + rewrite I6, filter_cons. simpl. repeat case_decide; simplify_eq; simpl; lia.
  - specialize (IH c4 (count c6 s)). destruct (foldl _ _ _) as [r4 r6]. destruct IH as [I4 I6]. split; intros a.
    + rewrite I4, filter_cons. simpl. repeat case_decide; simplify_eq; simpl; lia.
    + rewrite I6, count_lookup, filter_cons. simpl. repeat case_decide; simplify_eq; simpl; lia.
Qed.

(** ** Histories *)

Inductive vote_event :=
  | Vote (now : Z) (node : NodeId) (socket : SocketAddr)
  | Majority (now : Z).

Definition event_time (e : vote_event) : Z := match e with Vote now _ _ => now | Majority now => now end.

Section History.
Variables (values : gmap NodeId (SocketAddr * Z) -> list (NodeId * (SocketAddr * Z))).
Variables (order4 : gmap SocketAddrV4 nat -> list (SocketAddrV4 * nat)) (order6 : gmap SocketAddrV6 nat -> list (SocketAddrV6 * nat)).
Hypothesis values_iterates : iterates values.
Hypothesis order4_iterates : iterates order4.
Hypothesis order6_iterates : iterates order6.

Definition vote_step (v : IpVote) (e : vote_event) : IpVote :=
  match e with Vote now node socket => insert v now node socket | Majority now => fst (majority v now values order4 order6) end.

(** The last vote of a node. *)
Fixpoint last_vote (node : NodeId) (evs : list vote_event) : option (SocketAddr * Z) :=
  match evs with
  | [] => None
  | Vote now n s :: evs =>
      match last_vote node evs with Some v => Some v | None => if decide (n = node) then Some (s, now) else None end
  | Majority _ :: evs => last_vote node evs
  end.

(** The nodes that ever voted. *)
Fixpoint voters (evs : list vote_event) : gset NodeId :=
  match evs with [] => ∅ | Vote _ n _ :: evs => {[n]} ∪ voters evs | Majority _ :: evs => voters evs end.

(** Whether the last vote of a node is for an address and has not expired. *)
Definition supports (duration now : Z) (evs : list vote_event) (s : SocketAddr) (n : NodeId) : bool :=
  match last_vote n evs with Some (s', t) => bool_decide (s' = s) && (now <? t + duration)%Z | None => false end.
Definition supporters (duration now : Z) (evs : list vote_event) (s : SocketAddr) : gset NodeId :=
  filter (fun n => supports duration now evs s n) (voters evs).

Lemma last_vote_snoc node evs e :
  last_vote node (evs ++ [e]) =
  match e with
  | Vote now n s => if decide (n = node) then Some (s, now) else last_vote node evs
  | Majority _ => last_vote node evs
  end.
Proof.
  induction evs as [|[now n s|now] evs IH]; simpl.
  - by destruct e.
  - rewrite IH. destruct e as [now' n' s'|]; [|done]. by destruct (decide (n' = node)).
  - exact IH.
Qed.

Lemma last_vote_voters node evs v : last_vote node evs = Some v -> node ∈ voters evs.
Proof.
  induction evs as [|[now n s|now] evs IH]; simpl; [done| |done].
  destruct (last_vote node evs); [set_solver|]. case_decide; set_solver.
Qed.

(** The state after a history: the last votes, without some that have expired. *)
Definition tracks (duration last : Z) (evs : list vote_event) (v : IpVote) : Prop :=
  vote_duration v = duration /\
  forall n, match votes v !! n with
            | Some (s, t) => last_vote n evs = Some (s, (t - duration)%Z)
            | None => forall s t, last_vote n evs = Some (s, t) -> (t + duration <= last)%Z
            end.

Lemma tracks_step duration last evs v e :
  tracks duration last evs v -> (last <= event_time e)%Z -> tracks duration (event_time e) (evs ++ [e]) (vote_step v e).
Proof.
  intros [Hd Hv] Hle. destruct e as [now n s|now]; simpl in *.
  - split; [done|]. intros n'. rewrite last_vote_snoc. simpl. specialize (Hv n'). case_decide as Hn.
    + subst. rewrite lookup_insert_eq. do 2 f_equal. lia.
    + rewrite lookup_insert_ne by done. destruct (votes v !! n') as [[]|]; [done|]. intros s' t' E. specialize (Hv s' t' E). lia.
  - unfold majority. destruct (foldl _ _ _). simpl. split; [done|]. intros n'. rewrite last_vote_snoc. simpl.
    specialize (Hv n'). destruct (votes v !! n') as [[s t]|] eqn:E.
    + destruct (decide (now < t)%Z).
      * by rewrite (map_lookup_filter_Some_2 _ _ _ (s, t)).
      * rewrite map_lookup_filter_None_2; [|right; intros x; rewrite E; by intros [= <-]].
        intros s' t'. rewrite Hv. intros [= <- <-]. lia.
    + rewrite map_lookup_filter_None_2 by (by left). intros s' t' E'. specialize (Hv s' t' E'). lia.
Qed.

Fixpoint ordered (last : Z) (evs : list vote_event) : Prop :=
  match evs with [] => True | e :: evs => (last <= event_time e)%Z /\ ordered (event_time e) evs end.
Fixpoint final_time (last : Z) (evs : list vote_event) : Z :=
  match evs with [] => last | e :: evs => final_time (event_time e) evs end.

Lemma run_tracks duration last pre evs v :
  tracks duration last pre v -> ordered last evs ->
  tracks duration (final_time last evs) (pre ++ evs) (foldl vote_step v evs).
Proof.
  revert last pre v. induction evs as [|e evs IH]; intros last pre v Ht Ho; simpl; [by rewrite app_nil_r|].
  destruct Ho as [Hle Ho]. rewrite cons_middle, app_assoc. apply IH; [|done]. by eapply tracks_step.
Qed.

(** The votes that count are those of the supporters. *)
Lemma votes_supporters duration last evs v now s :
  tracks duration last evs v -> (last <= now)%Z ->
  votes_for s (values (filter (fun kv => (now < kv.2.2)%Z) (votes v))).*2 = size (supporters duration now evs s).
Proof.
  intros [Hd Hv] Hle. set (kept := filter _ (votes v)).
  assert (supporters duration now evs s = dom (filter (fun kv => kv.2.1 = s) kept)) as ->.
  { apply set_eq. intros n. unfold supporters. rewrite elem_of_filter, elem_of_dom. unfold supports.
    specialize (Hv n). unfold is_Some. setoid_rewrite map_lookup_filter_Some. unfold kept. setoid_rewrite map_lookup_filter_Some.
    destruct (votes v !! n) as [[s' t]|].
    - rewrite Hv. split.
      + intros [[->%bool_decide_unpack ?%Is_true_true%Z.ltb_lt]%andb_prop_elim _]. exists (s, t). simpl. split_and!; [done|lia|done].
      + intros (x & [[= <-] ?] & ?). simpl in *. split; [|by eapply last_vote_voters].
        apply andb_prop_intro. split; [by apply bool_decide_pack|]. apply Is_true_true, Z.ltb_lt. lia.
    - split; [|by intros (x & [? ?] & ?)]. destruct (last_vote n evs) as [[s' t]|]; [|by intros [? _]].
      intros [[->%bool_decide_unpack ?%Is_true_true%Z.ltb_lt]%andb_prop_elim _]. specialize (Hv s t eq_refl). lia. }
  rewrite size_dom, <-length_map_to_list. unfold votes_for.
  rewrite (map_filter_alt (fun kv => kv.2.1 = s) kept), map_to_list_to_map.
  - rewrite <-(values_iterates kept). clear. induction (values kept) as [|[k [s' t]] l IH]; [done|].
    rewrite fmap_cons, !filter_cons. simpl. case_decide; simpl; by rewrite IH.
  - eapply sublist_NoDup; [apply (NoDup_fst_map_to_list kept)|]. apply fmap_sublist, sublist_filter.
Qed.

(** C32: the external address the node adopts.  After every history of votes and
    counts with a clock that does not go back, [majority] answers, for each
    family, an address that the most nodes support and at least
    [minimum_threshold] of them, or no address when none has that many; a node
    supports the address of its last vote until the vote expires.  The orders of
    the hash maps only decide between addresses with equal support. *)
Theorem ip_vote_majority minimum_threshold vote_duration v0 start evs now :
  new minimum_threshold vote_duration = Ret v0 -> ordered start evs -> (final_time start evs <= now)%Z ->
  let v := foldl vote_step v0 evs in
  let '(v', (ip4, ip6)) := majority v now values order4 order6 in
  let support s := size (supporters vote_duration now evs s) in
  is_majority (fun a => support (SockV4 a)) minimum_threshold ip4 /\
  is_majority (fun a => support (SockV6 a)) minimum_threshold ip6.
Proof.
  unfold new. case_decide; [done|]. intros E. injection E as <-. intros Ho Hnow. set (v := foldl _ _ evs).
  assert (tracks vote_duration (final_time start evs) evs v) as Ht.
  { apply (run_tracks vote_duration start []); [|done]. split; [done|]. intros n. simpl. rewrite lookup_empty. done. }
  assert (IpVote.minimum_threshold v = minimum_threshold) as Hm.
  { unfold v. generalize (mkIpVote ∅ minimum_threshold vote_duration) (eq_refl minimum_threshold : IpVote.minimum_threshold
      (mkIpVote ∅ minimum_threshold vote_duration) = minimum_threshold). clear.
    induction evs as [|e evs IH]; intros v Hv; [done|]. apply IH. destruct e; simpl; [done|].
    unfold majority. by destruct (foldl _ _ _). }
  unfold majority. rewrite Hm.
  pose proof (count_votes (values (filter (fun kv => (now < kv.2.2)%Z) (votes v))).*2 ∅ ∅) as Hc.
  destruct (foldl count_vote _ _) as [c4 c6]. destruct Hc as [H4 H6]. simpl.
  split; eapply is_majority_proper; [|by apply majority_of_spec; [|lia]| |by apply majority_of_spec; [|lia]]; intros a; simpl.
  - rewrite H4, lookup_empty. simpl. by eapply votes_supporters.
  - rewrite H6, lookup_empty. simpl. by eapply votes_supporters.
Qed.
End History.

(** Three nodes vote; the vote of the first is replaced, that of the second expires. *)
Lemma ip_vote_majority_witness :
  let addr n := SockV4 (mkSocketAddrV4 [# x7f; x00; x00; n] 9000) in
  let node n := vreplicate 32 n : NodeId in
  let evs := [Vote 0 (node x01) (addr x01); Vote 1 (node x02) (addr x01); Majority 2; Vote 5 (node x01) (addr x02);
              Vote 6 (node x03) (addr x02)] in
  exists v0, new 2 10 = Ret v0 /\
    snd (majority (foldl (vote_step map_to_list map_to_list map_to_list) v0 evs) 12 map_to_list map_to_list map_to_list) =
      (Some (mkSocketAddrV4 [# x7f; x00; x00; x02] 9000), None) /\
    is_majority (fun a => size (supporters 10 12 evs (SockV4 a))) 2 (Some (mkSocketAddrV4 [# x7f; x00; x00; x02] 9000)).
Proof.
  intros addr node evs. exists (mkIpVote ∅ 2 10). split; [reflexivity|].
  assert (snd (majority (foldl (vote_step map_to_list map_to_list map_to_list) (mkIpVote ∅ 2 10) evs) 12
      map_to_list map_to_list map_to_list) = (Some (mkSocketAddrV4 [# x7f; x00; x00; x02] 9000), None)) as E by (by vm_compute).
  split; [exact E|].
  pose proof (ip_vote_majority map_to_list map_to_list map_to_list (fun _ => reflexivity _) (fun _ => reflexivity _) (fun _ => reflexivity _)
    2 10 (mkIpVote ∅ 2 10) 0 evs 12 eq_refl) as H.
  assert (ordered 0 evs) as Ho by (unfold evs; simpl; lia). assert (final_time 0 evs <= 12)%Z as Hf by (unfold evs; simpl; lia).
  specialize (H Ho Hf). cbv zeta in H.
  destruct (majority _ 12 _ _ _) as [v' [ip4 ip6]]. cbn [snd] in E. injection E as -> ->. exact (proj1 H).
Defined.
