(* ===== verification/RateLimiter.v ===== *)
(** * The rate limiter (src/src/socket/filter/rate_limiter.rs)

    [Limiter] is the GCRA limiter of one kind of key, [RateLimiter] the three
    limiters of the packet filter.  Durations and instants are integers of
    nanoseconds, the clock reading of a call is an argument.

    [F32]: the IEEE single-precision floats the quotas are computed with. *)

From Stdlib Require Import Floats.SpecFloat.
From stdpp Require Import strings.
From S2P Require Import Prelude Bytes Key.

(** ** Single-precision floats *)

Local Open Scope Z_scope.

Module F32.

Definition prec : Z := 24.
Definition emax : Z := 128.

Definition f32 : Type := spec_float.

(** [n as f32]: the nearest float, ties to even. *)
Definition of_int (n : Z) : f32 := binary_normalize prec emax n 0 false.

Definition add : f32 -> f32 -> f32 := SFadd prec emax.
Definition mul : f32 -> f32 -> f32 := SFmul prec emax.
Definition div : f32 -> f32 -> f32 := SFdiv prec emax.

(** [f32::round]: the nearest integer, halves away from zero. *)
Definition round (x : f32) : f32 :=
  match x with
  | S754_finite s m e =>
      if decide (0 <= e) then x
      else
        let d := 2 ^ (- e) in
        let n := (2 * Zpos m + d) / (2 * d) in
        match n with
        | Zpos _ => binary_normalize prec emax (if s then - n else n) 0 s
        | _ => S754_zero s
        end
  | _ => x
  end.

(** [x as usize]: truncation, saturating, and zero for NaN. *)
Definition to_usize (x : f32) : Z :=
  match x with
  | S754_zero _ | S754_nan => 0
  | S754_infinity s => if s then 0 else U64_MODULUS - 1
  | S754_finite true _ _ => 0
  | S754_finite false m e =>
      Z.min (U64_MODULUS - 1) (if decide (0 <= e) then Zpos m * 2 ^ e else Zpos m / 2 ^ (- e))
  end.

(** [Duration::as_secs_f32], for a duration in nanoseconds. *)
Definition as_secs_f32 (nanos : Z) : f32 :=
  add (of_int (nanos / 1000000000)) (div (of_int (nanos mod 1000000000)) (of_int 1000000000)).

End F32.

(** ** The limiter *)

Local Open Scope Z_scope.

Record Quota := mkQuota {
  replenish_all_every : Z;
  max_tokens : Z;
}.

Inductive RateLimitedErr :=
  | TooLarge
  | TooSoon (wait : Z).

(** [TryInto<u64>] on a [u128], with the error of the caller. *)
Definition try_into_u64 {E} (e : E) (n : Z) : result E Z :=
  if decide (n < U64_MODULUS) then Ok n else Err e.

Module Limiter.

Record Limiter (K : Type) `{Countable K} := mkLimiter {
  tau : Z;
  t : Z;
  tat_per_key : gmap K Z;
}.
Arguments mkLimiter {K _ _} tau t tat_per_key.
Arguments tau {K _ _} l : rename.
Arguments t {K _ _} l : rename.
Arguments tat_per_key {K _ _} l : rename.

Section Limiter.
Context {K : Type} `{Countable K}.
Implicit Types (l : Limiter K) (key : K).

Definition from_quota (quota : Quota) : result string (Limiter K) :=
  if decide (max_tokens quota = 0) then Err "Max number of tokens should be positive"%string
  else
    let tau := replenish_all_every quota in
    if decide (tau = 0) then Err "Replenish time must be positive"%string
    else
      t ← try_into_u64 "total replenish time is too long"%string (tau / max_tokens quota);
      tau ← try_into_u64 "total replenish time is too long"%string tau;
      Ok (mkLimiter tau t ∅).

Definition set_tat l key tat : Limiter K := mkLimiter (tau l) (t l) (<[key := tat]> (tat_per_key l)).

Definition allows l (time_since_start : Z) key (tokens : Z)
    : outcome (Limiter K * result RateLimitedErr unit) :=
  let time_since_start := time_since_start mod U64_MODULUS in
  additional_time ← u64_mul (t l) tokens;
  if decide (additional_time > tau l) then Ret (l, Err TooLarge)
  else
    (* tat_per_key.entry(key).or_insert(time_since_start) *)
    let tat := default time_since_start (tat_per_key l !! key) in
    let l := set_tat l key tat in
    full_time ← u64_add tat additional_time;
    let earliest_time := saturating_sub full_time (tau l) in
    if decide (time_since_start < earliest_time) then
      Ret (l, Err (TooSoon (earliest_time - time_since_start)))
    else
      new_tat ← u64_add (Z.max time_since_start tat) additional_time;
      Ret (set_tat l key new_tat, Ok tt).

Definition prune l (time_limit : Z) : Limiter K :=
  let lim := time_limit mod U64_MODULUS in
  mkLimiter (tau l) (t l) (filter (fun kv => kv.2 >= lim) (tat_per_key l)).

End Limiter.
End Limiter.

(** [RateLimiterBuilder]. *)
Module RateLimiterBuilder.

Record RateLimiterBuilder := mkBuilder {
  total_quota : option Quota;
  node_quota : option Quota;
  ip_quota : option Quota;
}.

Definition new : RateLimiterBuilder := mkBuilder None None None.

(** The private setters [total_quota], [node_quota] and [ip_quota]. *)
Definition set_total_quota (self : RateLimiterBuilder) (q : Quota) : RateLimiterBuilder :=
  mkBuilder (Some q) (node_quota self) (ip_quota self).
Definition set_node_quota (self : RateLimiterBuilder) (q : Quota) : RateLimiterBuilder :=
  mkBuilder (total_quota self) (Some q) (ip_quota self).
Definition set_ip_quota (self : RateLimiterBuilder) (q : Quota) : RateLimiterBuilder :=
  mkBuilder (total_quota self) (node_quota self) (Some q).

Definition total_one_every self (time_period : Z) := set_total_quota self (mkQuota time_period 1).
Definition node_one_every self (time_period : Z) := set_node_quota self (mkQuota time_period 1).
Definition ip_one_every self (time_period : Z) := set_ip_quota self (mkQuota time_period 1).
Definition total_n_every self (n time_period : Z) := set_total_quota self (mkQuota time_period n).
Definition node_n_every self (n time_period : Z) := set_node_quota self (mkQuota time_period n).
Definition ip_n_every self (n time_period : Z) := set_ip_quota self (mkQuota time_period n).

End RateLimiterBuilder.

Module RateLimiter.
Import Limiter.

Record RateLimiter := mkRateLimiter {
  total_requests_per_second : F32.f32;
  init_time : Z;
  total_rl : Limiter unit;
  node_rl : option (Limiter NodeId);
  ip_rl : option (Limiter IpAddr);
}.

Inductive LimitKind :=
  | Total
  | LNodeId (node_id : NodeId)
  | LIp (ip_addr : IpAddr).

(** The limiter of an optional quota. *)
Definition from_optional {K} `{Countable K} (q : option Quota) : result string (option (Limiter K)) :=
  match q with Some q => Some <$> from_quota q | None => Ok None end.

(** The estimate of [total_requests_per_second]. *)
Definition requests_per_second (q : Quota) : F32.f32 :=
  let per_second := F32.as_secs_f32 1000000000 in
  if decide (max_tokens q = 1) then
    F32.round (F32.div (F32.div (F32.of_int 1) (F32.as_secs_f32 (replenish_all_every q))) per_second)
  else
    F32.round (F32.div (F32.div (F32.mul (F32.of_int 2) (F32.of_int (max_tokens q)))
                                (F32.as_secs_f32 (replenish_all_every q))) per_second).

(** [RateLimiterBuilder::build]. *)
Definition build (self : RateLimiterBuilder.RateLimiterBuilder) (now : Z) : result string RateLimiter :=
  total_quota ← match RateLimiterBuilder.total_quota self with
                | Some q => Ok q
                | None => Err "Total quota not specified and must be set."%string
                end;
  total_rl ← from_quota total_quota;
  node_rl ← from_optional (RateLimiterBuilder.node_quota self);
  ip_rl ← from_optional (RateLimiterBuilder.ip_quota self);
  Ok (mkRateLimiter (requests_per_second total_quota) now total_rl node_rl ip_rl).

(** [Instant::elapsed], which saturates at zero. *)
Definition elapsed (since now : Z) : Z := saturating_sub now since.

(** One limiter that may be absent. *)
Definition allows_optional {K} `{Countable K} (l : option (Limiter K)) (time : Z) (key : K) (tokens : Z)
    : outcome (option (Limiter K) * result RateLimitedErr unit) :=
  match l with
  | Some l => '(l, r) ← Limiter.allows l time key tokens; Ret (Some l, r)
  | None => Ret (None, Ok tt)
  end.

Definition allows (self : RateLimiter) (now : Z) (request : LimitKind)
    : outcome (RateLimiter * result RateLimitedErr unit) :=
  let '(mkRateLimiter rps init total_rl node_rl ip_rl) := self in
  let time_since_start := elapsed init now in
  let tokens := 1 in
  match request with
  | Total =>
      '(total_rl, r) ← Limiter.allows total_rl time_since_start tt tokens;
      Ret (mkRateLimiter rps init total_rl node_rl ip_rl, r)
  | LIp ip_addr =>
      '(ip_rl, r) ← allows_optional ip_rl time_since_start ip_addr tokens;
      Ret (mkRateLimiter rps init total_rl node_rl ip_rl, r)
  | LNodeId node_id =>
      '(node_rl, r) ← allows_optional node_rl time_since_start node_id tokens;
      Ret (mkRateLimiter rps init total_rl node_rl ip_rl, r)
  end.

Definition prune (self : RateLimiter) (now : Z) : RateLimiter :=
  let '(mkRateLimiter rps init total_rl node_rl ip_rl) := self in
  let time_since_start := elapsed init now in
  mkRateLimiter rps init (Limiter.prune total_rl time_since_start)
    ((fun l => Limiter.prune l time_since_start) <$> node_rl)
    ((fun l => Limiter.prune l time_since_start) <$> ip_rl).

End RateLimiter.
