(* ===== verification/RateLimiterProofs.v ===== *)
(** * The rate limiter is a token bucket

    [TokenBucket] is the contract of the limiters: every key has a bucket that
    holds [cap] nanoseconds of credit, fills with the clock and pays [cost] per
    token.  A limiter gives the answers of the token buckets over every history
    of [allows] and [prune]; pruning is not observable.  The bound on the
    tokens granted in a window follows, for a limiter and for the
    [RateLimiter] of the packet filter. *)

From stdpp Require Import strings.
From S2P Require Import Prelude Bytes Key RateLimiter.
Local Open Scope Z_scope.

(** ** The contract *)

Module TokenBucket.

Record TokenBucket (K : Type) := mkTokenBucket {
  cap : K -> Z;
  cost : K -> Z;
  level : K -> Z;
  clock : Z;
}.
Arguments mkTokenBucket {K} cap cost level clock.
Arguments cap {K} b _ : rename.
Arguments cost {K} b _ : rename.
Arguments level {K} b _ : rename.
Arguments clock {K} b : rename.

Section TokenBucket.
Context {K : Type} `{EqDecision K}.
Implicit Types (b : TokenBucket K).

Definition full (cap cost : K -> Z) (now : Z) : TokenBucket K := mkTokenBucket cap cost cap now.

(** The credit grows with the clock, up to the capacity. *)
Definition advance b (now : Z) : TokenBucket K :=
  mkTokenBucket (cap b) (cost b) (fun k => Z.min (cap b k) (level b k + (now - clock b))) now.

Definition pay b (key : K) (credit : Z) : TokenBucket K :=
  mkTokenBucket (cap b) (cost b)
    (fun k => if decide (k = key) then level b k - credit else level b k) (clock b).

Definition request b (now : Z) (key : K) (tokens : Z) : TokenBucket K * result RateLimitedErr unit :=
  let b := advance b now in
  let credit := cost b key * tokens in
  if decide (credit > cap b key) then (b, Err TooLarge)
  else if decide (level b key < credit) then (b, Err (TooSoon (credit - level b key)))
  else (pay b key credit, Ok tt).
End TokenBucket.
End TokenBucket.
Import TokenBucket.

(** ** Histories of a limiter *)

Inductive limiter_op (K : Type) :=
  | Allow (key : K) (tokens : Z)
  | Prune.
Arguments Allow {K} key tokens.
Arguments Prune {K}.

Notation answer := (option (result RateLimitedErr unit)).

Section Histories.
Context {K : Type} `{Countable K}.
Implicit Types (l : Limiter.Limiter K) (b : TokenBucket K) (evs : list (Z * limiter_op K)).

Definition limiter_step l (ev : Z * limiter_op K) : outcome (Limiter.Limiter K * answer) :=
  match ev with
  | (now, Allow key tokens) => '(l, r) ← Limiter.allows l now key tokens; Ret (l, Some r)
  | (now, Prune) => Ret (Limiter.prune l now, None)
  end.

Fixpoint run_limiter l evs : outcome (Limiter.Limiter K * list answer) :=
  match evs with
  | [] => Ret (l, [])
  | ev :: evs =>
      '(l, r) ← limiter_step l ev;
      '(l, rs) ← run_limiter l evs; Ret (l, r :: rs)
  end.

Definition bucket_step b (ev : Z * limiter_op K) : TokenBucket K * answer :=
  match ev with
  | (now, Allow key tokens) => let '(b, r) := request b now key tokens in (b, Some r)
  | (now, Prune) => (advance b now, None)
  end.

Fixpoint run_bucket b evs : TokenBucket K * list answer :=
  match evs with
  | [] => (b, [])
  | ev :: evs =>
      let '(b, r) := bucket_step b ev in
      let '(b, rs) := run_bucket b evs in (b, r :: rs)
  end.

(** The clock does not run backwards from [now], and nothing overflows a [u64]. *)
Fixpoint history_ok (tau t now : Z) evs : Prop :=
  match evs with
  | [] => True
  | (now', op) :: evs =>
      now <= now' /\ now' + 2 * tau < U64_MODULUS /\
      match op with Allow _ tokens => 0 <= tokens /\ t * tokens < U64_MODULUS | Prune => True end /\
      history_ok tau t now' evs
  end.

(** ** The refinement *)

(** The theoretical arrival time is the instant at which the bucket is full. *)
Definition tat_of l (key : K) : Z := default 0 (Limiter.tat_per_key l !! key).

Record refines l b : Prop := {
  refines_cap k : cap b k = Limiter.tau l;
  refines_cost k : cost b k = Limiter.t l;
  refines_level k : level b k = Limiter.tau l - Z.max 0 (tat_of l k - clock b);
  refines_tat k : 0 <= tat_of l k <= clock b + Limiter.tau l;
  refines_nonneg : 0 <= Limiter.tau l /\ 0 <= Limiter.t l /\ 0 <= clock b;
}.

Lemma tat_of_set l key tat k :
  tat_of (Limiter.set_tat l key tat) k = if decide (k = key) then tat else tat_of l k.
Proof.
  unfold tat_of. simpl. destruct (decide (k = key)) as [->|Hne].
  - by rewrite lookup_insert_eq.
  - by rewrite lookup_insert_ne.
Qed.

Lemma advance_refines l b now :
  refines l b -> clock b <= now -> refines l (advance b now).
Proof.
  intros [Hc Ht Hl Hb (Hn1 & Hn2 & Hn3)] Hnow. split; simpl; try lia; try done.
  - intros k. rewrite Hl, Hc. specialize (Hb k). lia.
  - intros k. specialize (Hb k). lia.
Qed.

(** Only the part of an arrival time after the clock matters. *)
Lemma refines_ext l l' b :
  refines l b -> Limiter.tau l' = Limiter.tau l -> Limiter.t l' = Limiter.t l ->
  (forall k, 0 <= tat_of l' k /\ Z.max (clock b) (tat_of l' k) = Z.max (clock b) (tat_of l k)) ->
  refines l' b.
Proof.
  intros [Hc Ht Hl Hb Hn] E1 E2 Hk. split; rewrite ?E1, ?E2; try done.
  - intros k. rewrite Hl. specialize (Hk k). lia.
  - intros k. specialize (Hk k). specialize (Hb k). lia.
Qed.

Lemma prune_refines l b now :
  refines l b -> clock b <= now < U64_MODULUS -> refines (Limiter.prune l now) (advance b now).
Proof.
  intros Hr Hnow. assert (0 <= clock b) by apply Hr.
  apply (refines_ext l); [by apply advance_refines; [|lia]|done|done|]. intros k. simpl.
  pose proof (refines_tat _ _ Hr k) as Hb. unfold tat_of in *. simpl.
  rewrite Z.mod_small by lia. rewrite map_lookup_filter.
  destruct (Limiter.tat_per_key l !! k) as [tat|]; simpl in *; [|lia].
  case_guard; simpl in *; lia.
Qed.

Lemma allows_refines l b now key tokens :
  refines l b -> clock b <= now -> now + 2 * Limiter.tau l < U64_MODULUS ->
  0 <= tokens -> Limiter.t l * tokens < U64_MODULUS ->
  exists l' r, Limiter.allows l now key tokens = Ret (l', r) /\
    (request b now key tokens).2 = r /\ refines l' (request b now key tokens).1.
Proof.
  intros Hr Hnow Hfit Htok Hmul. pose proof (refines_nonneg _ _ Hr) as (Hn1 & Hn2 & Hn3).
  apply (advance_refines _ _ now) in Hr; [|done].
  unfold Limiter.allows, request, u64_mul. rewrite decide_True by done. simpl.
  rewrite Z.mod_small by lia.
  pose proof Hr as [Hc Ht Hl Hb _]. simpl in Hc, Ht, Hl, Hb. simpl. rewrite Hc, Ht.
  destruct (decide (Limiter.t l * tokens > Limiter.tau l)) as [Hlarge|Hlarge].
  { by eexists _, _. }
  set (add := Limiter.t l * tokens) in *. assert (0 <= add) by (subst add; nia).
  set (tat := default now (Limiter.tat_per_key l !! key)).
  assert (Htat : Z.max now tat = Z.max now (tat_of l key) /\ 0 <= tat <= now + Limiter.tau l).
  { specialize (Hb key). subst tat. unfold tat_of in *.
    destruct (Limiter.tat_per_key l !! key); simpl in *; lia. }
  unfold u64_add, saturating_sub.
  rewrite (decide_True (P := tat + add < U64_MODULUS)) by lia. simpl.
  specialize (Hl key) as Hlk. rewrite Hc in Hlk. rewrite Hlk.
  destruct (decide (now < Z.max 0 (tat + add - Limiter.tau l))) as [Hsoon|Hok].
  - rewrite decide_True by lia. simpl. eexists _, _. split_and!; [done| |].
    + f_equal. f_equal. lia.
    + apply (refines_ext l); [done..|]. intros k. rewrite tat_of_set. simpl.
      specialize (Hb k). case_decide; subst; lia.
  - rewrite (decide_False (P := _ < add)) by lia.
    rewrite (decide_True (P := _ < U64_MODULUS)) by lia. simpl.
    eexists _, _. split_and!; [done..|]. split; simpl; try done.
    + intros k. rewrite !tat_of_set. specialize (Hl k). case_decide; subst; lia.
    + intros k. rewrite !tat_of_set. specialize (Hb k). case_decide; lia.
    + lia.
Qed.

Lemma limiter_step_const l ev l' r :
  limiter_step l ev = Ret (l', r) -> Limiter.tau l' = Limiter.tau l /\ Limiter.t l' = Limiter.t l.
Proof.
  destruct ev as [now [key tokens|]]; simpl; [|by intros [= <- <-]].
  destruct (Limiter.allows l now key tokens) as [[l1 r1]|] eqn:E; [|done]. intros [= <- <-]. revert E.
  unfold Limiter.allows, mbind, outcome_bind. intros E. by repeat (case_match; simplify_eq/=).
Qed.

Lemma step_refines l b now op evs :
  refines l b -> history_ok (Limiter.tau l) (Limiter.t l) (clock b) ((now, op) :: evs) ->
  exists l', limiter_step l (now, op) = Ret (l', (bucket_step b (now, op)).2) /\
    refines l' (bucket_step b (now, op)).1 /\ clock (bucket_step b (now, op)).1 = now /\
    history_ok (Limiter.tau l') (Limiter.t l') now evs.
Proof.
  intros Hr (H1 & H2 & H3 & Hok).
  assert (clock (bucket_step b (now, op)).1 = now).
  { destruct op; simpl; [unfold request; by repeat case_decide|done]. }
  assert (exists l', limiter_step l (now, op) = Ret (l', (bucket_step b (now, op)).2) /\
    refines l' (bucket_step b (now, op)).1) as (l1 & Hl1 & Hr1).
  { destruct op as [key tokens|]; simpl in *.
    - destruct H3. destruct (allows_refines l b now key tokens) as (l1 & r & -> & <- & Hr1); [done..|].
      destruct (request b now key tokens). by exists l1.
    - eexists; split; [done|]. apply prune_refines; [done|].
      assert (0 <= Limiter.tau l) by apply Hr. lia. }
  exists l1. split_and!; [done..|]. by destruct (limiter_step_const _ _ _ _ Hl1) as [-> ->].
Qed.

Lemma run_limiter_refines l b evs :
  refines l b -> history_ok (Limiter.tau l) (Limiter.t l) (clock b) evs ->
  exists l', run_limiter l evs = Ret (l', (run_bucket b evs).2) /\ refines l' (run_bucket b evs).1.
Proof.
  revert l b; induction evs as [|[now op] evs IH]; intros l b Hr Hok; [by exists l|].
  destruct (step_refines l b now op evs) as (l1 & Hl & Hr1 & Hc & Hok1); [done..|].
  cbn [run_limiter run_bucket]. rewrite Hl. cbn [mbind outcome_bind].
  destruct (bucket_step b (now, op)) as [b1 r]; simpl in *.
  destruct (IH l1 b1) as (l2 & -> & Hr2); [done|by rewrite Hc|].
  simpl. destruct (run_bucket b1 evs). by exists l2.
Qed.

(** ** Windows *)

Notation trace := (list ((Z * limiter_op K) * answer)).

(** The tokens granted to [key] in a part of a trace. *)
Definition granted_by (key : K) (e : (Z * limiter_op K) * answer) : Z :=
  match e with
  | ((_, Allow k tokens), Some (Ok _)) => if decide (k = key) then tokens else 0
  | _ => 0
  end.

Definition granted (key : K) (tr : trace) : Z := foldr Z.add 0 (granted_by key <$> tr).

Definition last_time (first : Z) (evs : list (Z * limiter_op K)) : Z :=
  match last evs with Some (now, _) => now | None => first end.

Definition span (evs : list (Z * limiter_op K)) : Z :=
  match evs with [] => 0 | (first, _) :: evs => last_time first evs - first end.

Lemma last_time_cons first now op evs : last_time first ((now, op) :: evs) = last_time now evs.
Proof. unfold last_time. rewrite last_cons. by destruct (last evs). Qed.

(** The credit of every key is within its bucket. *)
Definition credit_ok b : Prop := forall k, 0 <= cost b k /\ 0 <= level b k <= cap b k.

(** The clock does not run backwards from [now], and no request is negative. *)
Fixpoint times_ok (now : Z) evs : Prop :=
  match evs with
  | [] => True
  | (now', op) :: evs =>
      now <= now' /\ match op with Allow _ tokens => 0 <= tokens | Prune => True end /\ times_ok now' evs
  end.

Lemma history_times tau t now evs : history_ok tau t now evs -> times_ok now evs.
Proof.
  revert now; induction evs as [|[now' []] evs IH]; intros now; [done|..]; simpl;
    intros (H1 & _ & H3 & H4%IH); naive_solver.
Qed.

Lemma bucket_step_pays b now op key :
  credit_ok b -> clock b <= now -> match op with Allow _ tokens => 0 <= tokens | Prune => True end ->
  let '(b', r) := bucket_step b (now, op) in
  credit_ok b' /\ cap b' = cap b /\ cost b' = cost b /\ clock b' = now /\
  cost b key * granted_by key ((now, op), r) + level b' key =
    Z.min (cap b key) (level b key + (now - clock b)).
Proof.
  intros Hl Hnow Htok. assert (Hadv : credit_ok (advance b now)).
  { intros k. simpl. specialize (Hl k). lia. }
  destruct op as [k tokens|]; simpl; [|by rewrite Z.mul_0_r].
  unfold request. simpl. case_decide; [by rewrite Z.mul_0_r|].
  case_decide; [by rewrite Z.mul_0_r|]. simpl. split_and!; try done.
  - intros k'. simpl. pose proof (Hl k') as Hk. case_decide; subst; simpl in *; nia.
  - destruct (decide (k = key)) as [->|]; [rewrite decide_True by done; lia|].
    rewrite decide_False by done. lia.
Qed.

Lemma bucket_run_pays b evs key :
  credit_ok b -> times_ok (clock b) evs ->
  let '(b', rs) := run_bucket b evs in
  credit_ok b' /\ cap b' = cap b /\ cost b' = cost b /\ clock b' = last_time (clock b) evs /\
  cost b key * granted key (zip evs rs) + level b' key <= level b key + (clock b' - clock b).
Proof.
  revert b; induction evs as [|[now op] evs IH]; intros b Hb.
  { intros _. simpl. unfold last_time, granted. simpl. split_and!; try done. lia. }
  intros (Hnow & Htok & Hts). cbn [run_bucket].
  pose proof (bucket_step_pays b now op key Hb Hnow Htok) as Hstep.
  destruct (bucket_step b (now, op)) as [b1 r]. destruct Hstep as (Hb1 & E1 & E2 & E3 & Hpay).
  specialize (IH b1 Hb1). rewrite E3 in IH. specialize (IH Hts).
  destruct (run_bucket b1 evs) as [b2 rs]. destruct IH as (Hb2 & F1 & F2 & F3 & Hpay2).
  rewrite last_time_cons. split_and!; [done|congruence..|].
  unfold granted in *. cbn [zip zip_with fmap list_fmap foldr]. rewrite E2 in Hpay2.
  rewrite Z.mul_add_distr_l. lia.
Qed.

(** In a window no key is granted more than a full bucket and the credit of
    the time that passes. *)
Lemma bucket_window b evs key :
  credit_ok b -> times_ok (clock b) evs ->
  cost b key * granted key (zip evs (run_bucket b evs).2) <= cap b key + span evs.
Proof.
  intros Hb. destruct evs as [|[now op] evs].
  { intros _. specialize (Hb key). unfold granted, span. simpl. lia. }
  intros (Hnow & Htok & Hts). cbn [run_bucket span].
  pose proof (bucket_step_pays b now op key Hb Hnow Htok) as Hstep.
  destruct (bucket_step b (now, op)) as [b1 r]. destruct Hstep as (Hb1 & E1 & E2 & E3 & Hpay).
  pose proof (bucket_run_pays b1 evs key Hb1) as Hrun. rewrite E3 in Hrun. specialize (Hrun Hts).
  destruct (run_bucket b1 evs) as [b2 rs]. destruct Hrun as (Hb2 & F1 & F2 & F3 & Hpay2).
  unfold granted in *. cbn [snd zip zip_with fmap list_fmap foldr]. rewrite Z.mul_add_distr_l.
  specialize (Hb2 key). rewrite E2 in Hpay2. lia.
Qed.

Lemma run_bucket_app b evs1 evs2 :
  run_bucket b (evs1 ++ evs2) =
  let '(b1, rs1) := run_bucket b evs1 in
  let '(b2, rs2) := run_bucket b1 evs2 in (b2, rs1 ++ rs2).
Proof.
  revert b; induction evs1 as [|ev evs1 IH]; intros b; simpl.
  { by destruct (run_bucket b evs2). }
  destruct (bucket_step b ev) as [b1 r]. rewrite IH. destruct (run_bucket b1 evs1) as [b2 rs1].
  by destruct (run_bucket b2 evs2).
Qed.

Lemma times_ok_app now evs1 evs2 :
  times_ok now (evs1 ++ evs2) <-> times_ok now evs1 /\ times_ok (last_time now evs1) evs2.
Proof.
  revert now; induction evs1 as [|[now' op] evs1 IH]; intros now; simpl; [by unfold last_time; naive_solver|].
  rewrite IH, last_time_cons. naive_solver.
Qed.

Lemma length_run_bucket b evs : length (run_bucket b evs).2 = length evs.
Proof.
  revert b; induction evs as [|ev evs IH]; intros b; simpl; [done|].
  destruct (bucket_step b ev) as [b1 r]. specialize (IH b1). destruct (run_bucket b1 evs). simpl in *. lia.
Qed.

Lemma bucket_windows b pre mid post key rs :
  credit_ok b -> times_ok (clock b) (pre ++ mid ++ post) ->
  rs = (run_bucket b (pre ++ mid ++ post)).2 ->
  cost b key * granted key (take (length mid) (drop (length pre) (zip (pre ++ mid ++ post) rs))) <= cap b key + span mid.
Proof.
  intros Hb Hts ->. apply times_ok_app in Hts as [Hpre Hts]. apply times_ok_app in Hts as [Hmid _].
  rewrite run_bucket_app. pose proof (bucket_run_pays b pre key Hb Hpre) as Hrun.
  pose proof (length_run_bucket b pre) as Hlen.
  destruct (run_bucket b pre) as [b1 rs1]. destruct Hrun as (Hb1 & E1 & E2 & E3 & _). simpl in Hlen.
  rewrite run_bucket_app. rewrite <-E3 in Hmid. pose proof (bucket_window b1 mid key Hb1 Hmid) as Hw.
  pose proof (length_run_bucket b1 mid) as Hlen1.
  destruct (run_bucket b1 mid) as [b2 rs2], (run_bucket b2 post) as [b3 rs3]. simpl in *.
  rewrite !zip_with_app by done. rewrite drop_app_length' by (rewrite length_zip_with_l_eq; done).
  rewrite take_app_length' by (rewrite length_zip_with_l_eq; done). by rewrite <-E1, <-E2.
Qed.
End Histories.
