(* ===== verification/RateLimiterTrace.v ===== *)
(** * Histories of the rate limiter

    A limiter built from a quota refines full token buckets, and so does the
    [RateLimiter] of the packet filter, whose three limiters are token buckets
    keyed by the kind of limit.  The bound on the requests accepted in a window
    is derived from the token buckets. *)

From stdpp Require Import strings.
From S2P Require Import Prelude Bytes Key RateLimiter RateLimiterProofs.
Import TokenBucket RateLimiter.
Local Open Scope Z_scope.

(** The fields of a quota are unsigned. *)
Definition quota_ok (q : Quota) : Prop := 0 <= replenish_all_every q /\ 0 <= max_tokens q.

(** The time in which one token is replenished. *)
Definition token_time (q : Quota) : Z := replenish_all_every q / max_tokens q.

Definition quota_bucket {K} (q : Quota) : TokenBucket K :=
  full (fun _ => replenish_all_every q) (fun _ => token_time q) 0.

Lemma from_quota_refines {K} `{Countable K} q (l : Limiter.Limiter K) :
  quota_ok q -> Limiter.from_quota q = Ok l ->
  Limiter.tau l = replenish_all_every q /\ Limiter.t l = token_time q /\
  0 < max_tokens q /\ 0 < replenish_all_every q /\ refines l (quota_bucket q).
Proof.
  intros [Hr Hm]. unfold Limiter.from_quota, try_into_u64. do 2 (case_decide; [done|]).
  repeat case_decide; simpl; try done. intros [= <-]. simpl.
  assert (0 <= token_time q) by (apply Z.div_pos; lia).
  split_and!; try done; try lia. split; unfold tat_of; simpl; try done; try lia.
  all: intros k; rewrite lookup_empty; simpl; lia.
Qed.

(** C29: Every history of [allows] and [prune] on a limiter built from a quota,
    with a clock that does not run backwards and while no [u64] overflows,
    returns, and its answers are those of a token bucket per key that is full at
    the start, holds the replenish time and pays one token time per token;
    [prune] answers nothing and has no effect there.  In particular a refused
    request is told exactly the credit that is missing. *)
Theorem limiter_trace_refines {K} `{Countable K} q (l : Limiter.Limiter K) evs :
  quota_ok q -> Limiter.from_quota q = Ok l ->
  history_ok (replenish_all_every q) (token_time q) 0 evs ->
  exists l', run_limiter l evs = Ret (l', (run_bucket (quota_bucket q) evs).2) /\
    refines l' (run_bucket (quota_bucket q) evs).1.
Proof.
  intros Hq Hl Hok. destruct (from_quota_refines q l Hq Hl) as (E1 & E2 & _ & _ & Hr).
  apply run_limiter_refines; [done|]. by rewrite E1, E2.
Qed.

(** Four tokens every two seconds, as in the unit tests: the burst of four is
    granted, then one token every half second. *)
Lemma limiter_trace_refines_witness :
  let q := mkQuota 2000000000 4 in
  let evs := [(0, Allow 10 4); (100000000, Prune); (100000000, Allow 10 1); (500000000, Allow 10 1);
              (1000000000, Allow 10 1); (1400000000, Allow 10 1); (2000000000, Allow 10 2)] in
  exists l, Limiter.from_quota q = Ok l /\ history_ok (replenish_all_every q) (token_time q) 0 evs /\
  exists l', run_limiter l evs = Ret (l', (run_bucket (quota_bucket q) evs).2) /\
  (run_bucket (quota_bucket q) evs).2 =
    [Some (Ok tt); None; Some (Err (TooSoon 400000000)); Some (Ok tt); Some (Ok tt);
     Some (Err (TooSoon 100000000)); Some (Ok tt)].
Proof.
  intros q evs. eexists. split; [vm_compute; reflexivity|].
  assert (history_ok (replenish_all_every q) (token_time q) 0 evs) as Hok.
  { vm_compute. repeat split; discriminate. }
  split; [exact Hok|].
  destruct (limiter_trace_refines q (Limiter.mkLimiter 2000000000 500000000 ∅) evs) as (l' & Hrun & _).
  - by vm_compute.
  - by vm_compute.
  - exact Hok.
  - exists l'. split; [exact Hrun|]. by vm_compute.
Defined.

(** ** The rate limiter of the packet filter *)

#[export] Instance LimitKind_eq_dec : EqDecision LimitKind.
Proof. solve_decision. Defined.

Inductive rl_op :=
  | RAllow (kind : LimitKind)
  | RPrune.

Definition rl_step (rl : RateLimiter) (ev : Z * rl_op) : outcome (RateLimiter * answer) :=
  match ev with
  | (now, RAllow kind) => '(rl, r) ← allows rl now kind; Ret (rl, Some r)
  | (now, RPrune) => Ret (prune rl now, None)
  end.

Fixpoint run_rate_limiter (rl : RateLimiter) (evs : list (Z * rl_op)) : outcome (RateLimiter * list answer) :=
  match evs with
  | [] => Ret (rl, [])
  | ev :: evs =>
      '(rl, r) ← rl_step rl ev;
      '(rl, rs) ← run_rate_limiter rl evs; Ret (rl, r :: rs)
  end.

(** The same call on token buckets keyed by the kind of limit. *)
Definition to_event (init : Z) (ev : Z * rl_op) : Z * limiter_op LimitKind :=
  (elapsed init ev.1, match ev.2 with RAllow kind => Allow kind 1 | RPrune => Prune end).

Definition quota_of (self : RateLimiterBuilder.RateLimiterBuilder) (kind : LimitKind) : option Quota :=
  match kind with
  | Total => RateLimiterBuilder.total_quota self
  | LNodeId _ => RateLimiterBuilder.node_quota self
  | LIp _ => RateLimiterBuilder.ip_quota self
  end.

(** Without a quota a request costs nothing. *)
Definition quota_buckets (self : RateLimiterBuilder.RateLimiterBuilder) : TokenBucket LimitKind :=
  full (fun kind => default 0 (replenish_all_every <$> quota_of self kind))
       (fun kind => default 0 (token_time <$> quota_of self kind)) 0.

Definition restrict {K} (f : K -> LimitKind) (b : TokenBucket LimitKind) : TokenBucket K :=
  mkTokenBucket (fun k => cap b (f k)) (fun k => cost b (f k)) (fun k => level b (f k)) (clock b).

#[local] Instance total_inj : Inj (=) (=) (fun _ : unit => Total).
Proof. by intros [] []. Qed.
#[local] Instance node_inj : Inj (=) (=) LNodeId.
Proof. by intros ?? [=]. Qed.
#[local] Instance ip_inj : Inj (=) (=) LIp.
Proof. by intros ?? [=]. Qed.

Section Refinement.
Variables (init horizon : Z).

Definition opt_refines {K} `{Countable K} (ol : option (Limiter.Limiter K)) (b : TokenBucket K) : Prop :=
  match ol with
  | Some l => refines l b /\ Limiter.t l <= Limiter.tau l /\ horizon + 2 * Limiter.tau l < U64_MODULUS
  | None => forall k, cap b k = 0 /\ cost b k = 0 /\ level b k = 0
  end.

Record rl_refines (rl : RateLimiter) (b : TokenBucket LimitKind) : Prop := {
  rl_init : init_time rl = init;
  rl_total : opt_refines (Some (total_rl rl)) (restrict (fun _ => Total) b);
  rl_node : opt_refines (node_rl rl) (restrict LNodeId b);
  rl_ip : opt_refines (ip_rl rl) (restrict LIp b);
}.

Lemma opt_refines_ext {K} `{Countable K} ol (b b' : TokenBucket K) :
  (forall k, cap b' k = cap b k /\ cost b' k = cost b k /\ level b' k = level b k) ->
  clock b' = clock b -> opt_refines ol b -> opt_refines ol b'.
Proof.
  intros Hk Hc. destruct ol as [l|]; simpl.
  - intros [[H1 H2 H3 H4 H5] H6]. split; [|done].
    split; rewrite ?Hc; try done; intros k; destruct (Hk k) as (E1 & E2 & E3); rewrite ?E1, ?E2, ?E3; auto.
  - intros H0 k. destruct (Hk k) as (-> & -> & ->). auto.
Qed.

Lemma opt_refines_advance {K} `{Countable K} ol (b : TokenBucket K) now :
  clock b <= now -> opt_refines ol b -> opt_refines ol (advance b now).
Proof.
  intros Hnow. destruct ol as [l|]; simpl.
  - intros [Hr H0]. split; [|done]. by apply advance_refines.
  - intros H0 k. destruct (H0 k) as (-> & -> & ->). split_and!; lia.
Qed.

Lemma opt_refines_prune {K} `{Countable K} ol (b : TokenBucket K) now :
  clock b <= now <= horizon -> opt_refines ol b ->
  opt_refines ((fun l => Limiter.prune l now) <$> ol) (advance b now).
Proof.
  intros Hnow Hr. destruct ol as [l|]; simpl in *; [|by apply (opt_refines_advance None); [lia|]].
  destruct Hr as [Hr [H1 H2]]. assert (0 <= Limiter.tau l) by apply Hr.
  split; [apply prune_refines; [done|lia]|done].
Qed.

Lemma opt_refines_allows {K} `{Countable K} ol (b : TokenBucket K) now k :
  clock b <= now <= horizon -> opt_refines ol b ->
  exists ol', allows_optional ol now k 1 = Ret (ol', (request b now k 1).2) /\
    opt_refines ol' (request b now k 1).1.
Proof.
  intros Hnow Hr. destruct ol as [l|]; simpl in Hr.
  - destruct Hr as [Hr [H1 H2]]. pose proof (refines_nonneg _ _ Hr).
    destruct (allows_refines l b now k 1) as (l' & r & Hl & <- & Hr'); [done|lia..|].
    simpl. rewrite Hl. simpl. eexists; split; [done|]. split; [done|].
    destruct (limiter_step_const l (now, Allow k 1) l' (Some (request b now k 1).2)) as [-> ->]; [|done].
    simpl. by rewrite Hl.
  - exists None. destruct (Hr k) as (E1 & E2 & E3). unfold request. simpl. rewrite E1, E2, E3.
    rewrite decide_False by lia. rewrite decide_False by lia. split; [done|]. intros k'. simpl.
    destruct (Hr k') as (-> & -> & ->). case_decide; split_and!; lia.
Qed.

(** A call of one kind moves the buckets of that kind and only advances the others. *)
Lemma request_restrict {K} `{Countable K} (f : K -> LimitKind) `{!Inj (=) (=) f} b now k ol :
  opt_refines ol (request (restrict f b) now k 1).1 ->
  opt_refines ol (restrict f (request b now (f k) 1).1).
Proof.
  apply opt_refines_ext; [|unfold request; simpl; by repeat case_decide].
  intros k'. unfold request. simpl. repeat case_decide; simpl; try done.
  split_and!; [done..|]. destruct (decide (k' = k)) as [->|Hne]; [by rewrite decide_True|].
  rewrite decide_False; [done|]. by intros ?%(inj f).
Qed.

Lemma request_answer {K} `{Countable K} (f : K -> LimitKind) b now k :
  (request (restrict f b) now k 1).2 = (request b now (f k) 1).2.
Proof. unfold request. simpl. by repeat case_decide. Qed.

Lemma request_others {K} `{Countable K} (f : K -> LimitKind) b now kind ol :
  (forall k, f k <> kind) -> clock b <= now ->
  opt_refines ol (restrict f b) -> opt_refines ol (restrict f (request b now kind 1).1).
Proof.
  intros Hne Hnow Hr. apply (opt_refines_advance _ _ now) in Hr; [|done]. revert Hr.
  apply opt_refines_ext; [|unfold request; simpl; by repeat case_decide].
  intros k. unfold request. simpl. repeat case_decide; simpl; try done.
  specialize (Hne k). by rewrite decide_False.
Qed.

Lemma request_clock (b : TokenBucket LimitKind) now kind : clock (request b now kind 1).1 = now.
Proof. unfold request. by repeat case_decide. Qed.

Lemma rl_allows_refines rl b now kind :
  rl_refines rl b -> clock b <= elapsed init now <= horizon ->
  exists rl', allows rl now kind = Ret (rl', (request b (elapsed init now) kind 1).2) /\
    rl_refines rl' (request b (elapsed init now) kind 1).1.
Proof.
  intros [<- Ht Hn Hi] Hnow. destruct rl as [rps init' tl nl il]; simpl in *.
  set (time := elapsed init' now) in *. destruct kind as [|x|x]; simpl.
  - destruct (opt_refines_allows (Some tl) (restrict (fun _ => Total) b) time tt Hnow Ht) as (ol & Hol & Hr).
    simpl in Hol. destruct (Limiter.allows tl time tt 1) as [[tl' r]|]; simpl in *; [|done].
    injection Hol as <- ->. rewrite request_answer. eexists; split; [done|]. split; simpl; [done|..].
    + by apply (request_restrict (fun _ : unit => Total) b time tt (Some tl')).
    + apply request_others; [done|lia|done].
    + apply request_others; [done|lia|done].
  - destruct (opt_refines_allows nl (restrict LNodeId b) time x Hnow Hn) as (ol & Hol & Hr).
    rewrite Hol, request_answer. simpl. eexists; split; [done|]. split; simpl; [done|..].
    + apply (request_others (fun _ : unit => Total) b time (LNodeId x) (Some tl)); [done|lia|done].
    + by apply (request_restrict LNodeId b time x ol).
    + apply request_others; [done|lia|done].
  - destruct (opt_refines_allows il (restrict LIp b) time x Hnow Hi) as (ol & Hol & Hr).
    rewrite Hol, request_answer. simpl. eexists; split; [done|]. split; simpl; [done|..].
    + apply (request_others (fun _ : unit => Total) b time (LIp x) (Some tl)); [done|lia|done].
    + apply request_others; [done|lia|done].
    + by apply (request_restrict LIp b time x ol).
Qed.

Lemma rl_step_refines rl b ev :
  rl_refines rl b -> clock b <= elapsed init ev.1 <= horizon ->
  exists rl', rl_step rl ev = Ret (rl', (bucket_step b (to_event init ev)).2) /\
    rl_refines rl' (bucket_step b (to_event init ev)).1 /\
    clock (bucket_step b (to_event init ev)).1 = elapsed init ev.1.
Proof.
  destruct ev as [now [kind|]]; simpl; intros Hr Hnow.
  - destruct (rl_allows_refines rl b now kind Hr Hnow) as (rl' & -> & Hr'). simpl.
    pose proof (request_clock b (elapsed init now) kind) as Hc.
    destruct (request b (elapsed init now) kind 1). by exists rl'.
  - eexists; split; [done|]. split; [|done]. destruct Hr as [<- Ht Hn Hi].
    destruct rl as [rps init' tl nl il]; simpl in *. split; simpl; [done|..].
    + by apply (opt_refines_prune (Some tl) (restrict (fun _ => Total) b) (elapsed init' now)).
    + by apply (opt_refines_prune nl (restrict LNodeId b) (elapsed init' now)).
    + by apply (opt_refines_prune il (restrict LIp b) (elapsed init' now)).
Qed.

(** The clock readings: not backwards, and within the horizon. *)
Fixpoint readings_ok (now : Z) (evs : list (Z * rl_op)) : Prop :=
  match evs with
  | [] => True
  | (now', _) :: evs => now <= now' <= init + horizon /\ readings_ok now' evs
  end.

Lemma run_rl_refines rl b now evs :
  rl_refines rl b -> init <= now -> clock b = elapsed init now -> readings_ok now evs ->
  exists rl', run_rate_limiter rl evs = Ret (rl', (run_bucket b (to_event init <$> evs)).2).
Proof.
  revert rl b now; induction evs as [|[now' op] evs IH]; intros rl b now Hr Hi Hc Hok; [by exists rl|].
  destruct Hok as [Hnow Hok]. unfold elapsed, saturating_sub in *.
  destruct (rl_step_refines rl b (now', op)) as (rl1 & Hrl & Hr1 & Hc1);
    [done|unfold elapsed, saturating_sub; simpl; lia|].
  cbn [run_rate_limiter fmap list_fmap run_bucket]. rewrite Hrl. cbn [mbind outcome_bind].
  destruct (bucket_step b (to_event init (now', op))) as [b1 r]; simpl in *.
  destruct (IH rl1 b1 now') as (rl2 & ->); [done|lia|done|done|].
  simpl. destruct (run_bucket b1 (to_event init <$> evs)). by exists rl2.
Qed.
End Refinement.

Section Windows.
Variables (self : RateLimiterBuilder.RateLimiterBuilder) (start horizon : Z).

Definition quotas_ok : Prop :=
  forall kind q, quota_of self kind = Some q -> quota_ok q /\ horizon + 2 * replenish_all_every q < U64_MODULUS.

Lemma opt_quota_refines {K} `{Countable K} (f : K -> LimitKind) q ol :
  (forall k, quota_of self (f k) = q) ->
  (forall q', q = Some q' -> quota_ok q' /\ horizon + 2 * replenish_all_every q' < U64_MODULUS) ->
  from_optional q = Ok ol -> opt_refines horizon ol (restrict f (quota_buckets self)).
Proof.
  intros Hf Hq Ho. unfold from_optional in Ho. destruct q as [q|].
  - destruct (Limiter.from_quota q) as [l|] eqn:El; [|done]. injection Ho as <-.
    destruct (Hq q eq_refl) as [Hok Hfit].
    destruct (from_quota_refines q l Hok El) as (E1 & E2 & Hm & Hr0 & Hr).
    apply (opt_refines_ext horizon _ (quota_bucket q)); [|done|].
    + intros k. simpl. by rewrite Hf.
    + split; [done|]. rewrite E1, E2. split; [|done].
      apply Z.div_le_upper_bound; [done|]. nia.
  - injection Ho as <-. intros k. simpl. by rewrite Hf.
Qed.

Lemma build_refines rl :
  quotas_ok -> build self start = Ok rl -> rl_refines start horizon rl (quota_buckets self).
Proof.
  intros Hq. unfold build.
  destruct (RateLimiterBuilder.total_quota self) as [q|] eqn:Et; simpl; [|done].
  destruct (Limiter.from_quota q) as [tl|] eqn:El; simpl; [|done].
  destruct (from_optional (RateLimiterBuilder.node_quota self)) as [nl|] eqn:En; simpl; [|done].
  destruct (from_optional (RateLimiterBuilder.ip_quota self)) as [il|] eqn:Ei; simpl; [|done].
  intros [= <-]. split; [done|..]; cbn [total_rl node_rl ip_rl].
  - apply (opt_quota_refines (fun _ : unit => Total) (Some q)); [by intros|intros q' Hq'|].
    + apply (Hq Total). simpl. congruence.
    + simpl. by rewrite El.
  - apply (opt_quota_refines LNodeId (RateLimiterBuilder.node_quota self)); [done|intros q'|done].
    apply (Hq (LNodeId (vreplicate 32 x00))).
  - apply (opt_quota_refines LIp (RateLimiterBuilder.ip_quota self)); [done|intros q'|done].
    apply (Hq (LIp (V4 (vreplicate 4 x00)))).
Qed.

Lemma quota_buckets_credit : quotas_ok -> credit_ok (quota_buckets self).
Proof.
  intros Hq kind. simpl. destruct (quota_of self kind) as [q|] eqn:E; simpl; [|lia].
  destruct (Hq kind q E) as [[H1 H2] _]. unfold token_time.
  destruct (decide (max_tokens q = 0)) as [->|]; [rewrite Zdiv_0_r; lia|].
  pose proof (Z.div_pos (replenish_all_every q) (max_tokens q)). lia.
Qed.

Lemma readings_times now evs :
  start <= now -> readings_ok start horizon now evs -> times_ok (elapsed start now) (to_event start <$> evs).
Proof.
  revert now; induction evs as [|[now' op] evs IH]; intros now Hs Hok; [done|].
  destruct Hok as [Hn Hok]. cbn [fmap list_fmap to_event times_ok fst snd]. split_and!.
  - unfold elapsed, saturating_sub. lia.
  - by destruct op.
  - apply IH; [lia|done].
Qed.

(** The requests of one kind accepted in a part of a trace. *)
Definition accepts (kind : LimitKind) (e : (Z * rl_op) * answer) : bool :=
  match e with
  | ((_, RAllow k), Some (Ok _)) => bool_decide (k = kind)
  | _ => false
  end.

Definition accepted (kind : LimitKind) (tr : list ((Z * rl_op) * answer)) : Z :=
  Z.of_nat (countb (accepts kind) tr).

Lemma granted_accepted kind tr :
  granted kind (prod_map (to_event start) id <$> tr) = accepted kind tr.
Proof.
  unfold granted, accepted. induction tr as [|[[now op] r] tr IH]; [done|].
  cbn [fmap list_fmap foldr countb]. rewrite IH. clear IH.
  destruct op as [k|]; simpl; [|lia]. destruct r as [[]|]; try lia.
  case_decide; case_bool_decide; try done; lia.
Qed.

(** What a request of [kind] can be answered. *)
Definition answer_ok (ev : Z * rl_op) (r : answer) : Prop :=
  match ev with
  | (_, RAllow kind) =>
      r <> Some (Err TooLarge) /\ (quota_of self kind = None -> r = Some (Ok tt))
  | (_, RPrune) => r = None
  end.

Lemma run_answers b evs :
  quotas_ok -> (forall k, 0 < default 1 (max_tokens <$> quota_of self k)) ->
  credit_ok b -> times_ok (clock b) (to_event start <$> evs) ->
  (forall k, cap b k = cap (quota_buckets self) k /\ cost b k = cost (quota_buckets self) k) ->
  Forall2 answer_ok evs (run_bucket b (to_event start <$> evs)).2.
Proof.
  intros Hq Hm. revert b; induction evs as [|[now op] evs IH]; intros b Hb Hts Hk; [constructor|].
  destruct Hts as (Hnow & Htok & Hts). cbn [fmap list_fmap run_bucket to_event fst snd] in *.
  pose proof (bucket_step_pays b _ _ Total Hb Hnow Htok) as Hstep.
  destruct (bucket_step b _) as [b1 r] eqn:Es. destruct Hstep as (Hb1 & E1 & E2 & E3 & _).
  specialize (IH b1 Hb1). rewrite E3 in IH. specialize (IH Hts).
  destruct (run_bucket b1 (to_event start <$> evs)) as [b2 rs]. simpl in IH. constructor.
  2: { apply IH. intros k. rewrite E1, E2. apply Hk. }
  destruct op as [kind|]; simpl in *; [|by injection Es as <- <-].
  destruct (Hk kind) as [Hcap Hcost]. unfold request in Es. simpl in *. rewrite Hcap, Hcost in Es.
  pose proof (Hb kind) as Hlevel. specialize (Hm kind). specialize (Hq kind).
  destruct (quota_of self kind) as [q|] eqn:Eq; simpl in *.
  - destruct (Hq q eq_refl) as [[? ?] _]. unfold token_time in *.
    assert (replenish_all_every q / max_tokens q <= replenish_all_every q).
    { apply Z.div_le_upper_bound; [done|nia]. }
    rewrite decide_False in Es by lia. case_decide; injection Es as <- <-; done.
  - rewrite !decide_False in Es by lia. injection Es as <- <-. done.
Qed.
End Windows.

Lemma from_optional_positive {K} `{Countable K} q (ol : option (Limiter.Limiter K)) :
  (forall q', q = Some q' -> quota_ok q') -> from_optional q = Ok ol -> 0 < default 1 (max_tokens <$> q).
Proof.
  intros Hq Ho. destruct q as [q|]; simpl in *; [|lia].
  destruct (Limiter.from_quota q) as [l|] eqn:El; [|done].
  by destruct (from_quota_refines q l (Hq q eq_refl) El) as (_ & _ & Hm & _).
Qed.

Lemma build_positive self start horizon rl :
  quotas_ok self horizon -> build self start = Ok rl ->
  forall k, 0 < default 1 (max_tokens <$> quota_of self k).
Proof.
  intros Hq Hb k. assert (Hq' : forall q, quota_of self k = Some q -> quota_ok q) by (intros q Hqq; by apply (Hq k q)).
  revert Hb. unfold build.
  destruct (RateLimiterBuilder.total_quota self) as [q|] eqn:Et; simpl; [|done].
  destruct (Limiter.from_quota q) as [tl|] eqn:El; simpl; [|done].
  destruct (from_optional (RateLimiterBuilder.node_quota self)) as [nl|] eqn:En; simpl; [|done].
  destruct (from_optional (RateLimiterBuilder.ip_quota self)) as [il|] eqn:Ei; simpl; [|done].
  intros _. destruct k; simpl in *.
  - rewrite Et in *. apply (from_optional_positive (K := unit) (Some q) (Some tl)); [done|]. simpl. by rewrite El.
  - by apply (from_optional_positive _ nl).
  - by apply (from_optional_positive _ il).
Qed.

(** Every history of [allows] and [prune] on a built rate limiter, with a
    clock that does not run backwards and stays within a horizon that fits a
    [u64] of nanoseconds, returns without a panic.  No request is ever answered
    [TooLarge]; a kind of limit without a quota accepts every request.  For a
    kind with a quota, the requests of one node, one address or in total that
    are accepted in any window of the history cost at most the replenish time
    plus the time that passes in the window; and, for a quota whose replenish
    time is at least the square of its number of tokens (nanoseconds), an
    instantaneous burst is at most the number of tokens. *)
Theorem rate_limiter_windows self start horizon rl pre mid post :
  build self start = Ok rl -> quotas_ok self horizon ->
  readings_ok start horizon start (pre ++ mid ++ post) ->
  exists rl' rs, run_rate_limiter rl (pre ++ mid ++ post) = Ret (rl', rs) /\
    Forall2 (answer_ok self) (pre ++ mid ++ post) rs /\
    forall kind q, quota_of self kind = Some q ->
      let window := take (length mid) (drop (length pre) (zip (pre ++ mid ++ post) rs)) in
      let time := span (to_event start <$> mid) in
      token_time q * accepted kind window <= replenish_all_every q + time /\
      (max_tokens q * max_tokens q <= replenish_all_every q -> time = 0 ->
       accepted kind window <= max_tokens q).
Proof.
  intros Hb Hq Hok. pose proof (build_positive _ _ _ _ Hq Hb) as Hm.
  assert (Ht : times_ok (clock (quota_buckets self)) (to_event start <$> (pre ++ mid ++ post))).
  { pose proof (readings_times start horizon start _ ltac:(lia) Hok) as Ht.
    unfold elapsed, saturating_sub in Ht. by rewrite Z.sub_diag in Ht. }
  destruct (run_rl_refines start horizon rl (quota_buckets self) start (pre ++ mid ++ post)) as (rl' & Hrun);
    [by apply build_refines|lia|unfold elapsed, saturating_sub; simpl; lia|done|].
  pose proof (quota_buckets_credit self horizon Hq) as Hc.
  eexists _, _. split_and!; [done|by eapply run_answers|].
  intros kind q Hkq window time. specialize (Hm kind).
  assert (Hw : token_time q * accepted kind window <= replenish_all_every q + time).
  { rewrite !fmap_app in Ht. pose proof (bucket_windows _ _ _ _ kind _ Hc Ht eq_refl) as Hw.
    simpl in Hw. rewrite Hkq, !length_fmap, <-!fmap_app, zip_fmap_l, <-fmap_drop, <-fmap_take in Hw.
    by rewrite granted_accepted in Hw. }
  split; [done|]. intros Hsq H0. rewrite Hkq in Hm. simpl in Hm. unfold token_time in Hw.
  pose proof (Z.div_mod (replenish_all_every q) (max_tokens q) ltac:(lia)).
  pose proof (Z.mod_pos_bound (replenish_all_every q) (max_tokens q) ltac:(lia)).
  assert (max_tokens q <= replenish_all_every q / max_tokens q) by (apply Z.div_le_lower_bound; lia).
  nia.
Qed.

(** The quotas of the default configuration, and eleven packets at once: ten
    are accepted in total, and the eleventh must wait for a tenth of a second. *)
Definition default_quotas : RateLimiterBuilder.RateLimiterBuilder :=
  RateLimiterBuilder.ip_n_every
    (RateLimiterBuilder.node_n_every
      (RateLimiterBuilder.total_n_every RateLimiterBuilder.new 10 1000000000) 8 1000000000) 9 1000000000.

Lemma rate_limiter_windows_witness :
  let evs := replicate 11 (5, RAllow Total) in
  exists rl, build default_quotas 5 = Ok rl /\ exists rl' rs, run_rate_limiter rl evs = Ret (rl', rs) /\
    rs = replicate 10 (Some (Ok tt)) ++ [Some (Err (TooSoon 100000000))] /\
    accepted Total (zip evs rs) <= 10.
Proof.
  intros evs. destruct (build default_quotas 5) as [rl|] eqn:E; [|by vm_compute in E].
  exists rl. split; [reflexivity|].
  destruct (rate_limiter_windows default_quotas 5 1000 rl [] evs []) as (rl' & rs & Hrun & _ & Hw).
  - exact E.
  - intros [] q [= <-]; vm_compute; repeat split; discriminate.
  - vm_compute. repeat split; discriminate.
  - cbn [app] in Hrun, Hw. rewrite app_nil_r in Hrun, Hw. exists rl', rs. split; [exact Hrun|].
    assert (rs = replicate 10 (Some (Ok tt)) ++ [Some (Err (TooSoon 100000000))]) as Hrs.
    { vm_compute in E. injection E as <-. vm_compute in Hrun. by injection Hrun as <- <-. }
    split; [exact Hrs|]. destruct (Hw Total _ eq_refl) as [_ Hburst].
    assert (Htake : take (length evs) (drop 0 (zip evs rs)) = zip evs rs) by (by rewrite Hrs).
    change (length (@nil (Z * rl_op))) with 0%nat in Hburst. rewrite Htake in Hburst. apply Hburst; [by vm_compute|by vm_compute].
Defined.
