(* ===== verification/Maps.v ===== *)
(** * Interfaces of the maps of third-party crates

    [hashlink::LinkedHashMap], whose entries form a linked list;
    [lru::LruCache], which drops the entry used least recently; and
    [delay_map::HashMapDelay], whose entries expire some time after their
    insertion and which yields expired entries as a stream.  Each class has the
    methods the sources call, with the reading of the clock as an argument; the
    laws state their documented effect on the entries.  [AssocMap] and
    [TimedMap] are instances. *)

From stdpp Require Import strings.
From S2P Require Import Prelude.

(** ** [hashlink::LinkedHashMap] *)

(** The entries whose key is not [k]. *)
Definition without {K V} `{EqDecision K} (k : K) (l : list (K * V)) : list (K * V) :=
  filter (fun e => e.1 <> k) l.

(** The value of [k] in a list of entries. *)
Definition assoc {K V} `{EqDecision K} (k : K) (l : list (K * V)) : option V :=
  snd <$> find (fun e => bool_decide (e.1 = k)) l.

Class LinkedHashMap (M K V : Type) := {
  lm_new : M;
  lm_iter : M -> list (K * V);
  lm_len : M -> nat;
  lm_get : M -> K -> option V;
  lm_insert : M -> K -> V -> M;
  lm_remove : M -> K -> M * option V;
  lm_pop_front : M -> M;
  (* the occupied raw entry of a key: a write through [get_mut], and [to_back] *)
  lm_write : M -> K -> (V -> V) -> M;
  lm_to_back : M -> K -> M;
}.

Class LinkedHashMapLaws (M K V : Type) `{EqDecision K} `{!LinkedHashMap M K V} := {
  lm_keys m : NoDup (lm_iter m).*1;
  lm_iter_new : lm_iter lm_new = [];
  lm_len_iter m : lm_len m = length (lm_iter m);
  lm_get_iter m k : lm_get m k = assoc k (lm_iter m);
  lm_iter_insert m k v : lm_iter (lm_insert m k v) = without k (lm_iter m) ++ [(k, v)];
  lm_iter_remove m k : lm_iter (lm_remove m k).1 = without k (lm_iter m);
  lm_removed m k : (lm_remove m k).2 = assoc k (lm_iter m);
  lm_iter_pop_front m : lm_iter (lm_pop_front m) = tail (lm_iter m);
  lm_iter_write m k f :
    lm_iter (lm_write m k f) = (fun e => if decide (e.1 = k) then (e.1, f e.2) else e) <$> lm_iter m;
  lm_iter_to_back m k v : assoc k (lm_iter m) = Some v ->
    lm_iter (lm_to_back m k) = without k (lm_iter m) ++ [(k, v)];
}.

Section Entries.
Context {K V : Type} `{EqDecision K}.
Implicit Types (l : list (K * V)) (k : K).

Lemma without_app k l1 l2 : without k (l1 ++ l2) = without k l1 ++ without k l2.
Proof. apply filter_app. Qed.

Lemma without_sublist k l : without k l `sublist_of` l.
Proof. apply sublist_filter. Qed.

Lemma Forall_without P k l : Forall P l -> Forall P (without k l).
Proof. intros Hall. eapply Forall_sublist; [done|apply without_sublist]. Qed.

Lemma NoDup_without k l : NoDup l.*1 -> NoDup (without k l).*1.
Proof. intros Hnd. eapply sublist_NoDup; [exact Hnd|]. apply fmap_sublist, without_sublist. Qed.

Lemma without_not_in k l : k ∉ (without k l).*1.
Proof. intros ([k' v] & -> & [Hne _]%list_elem_of_filter)%list_elem_of_fmap. by simpl in *. Qed.

Lemma NoDup_without_snoc k v l : NoDup l.*1 -> NoDup (without k l ++ [(k, v)]).*1.
Proof.
  intros Hnd. rewrite fmap_app. simpl. apply NoDup_app. split_and!.
  - by apply NoDup_without.
  - intros k' Hk' ->%list_elem_of_singleton. by apply (without_not_in k l).
  - apply NoDup_singleton.
Qed.

Lemma without_id k l : k ∉ l.*1 -> without k l = l.
Proof.
  induction l as [|[k' v] l IH]; simpl; [done|]. intros [Hne Hin]%not_elem_of_cons.
  unfold without. rewrite filter_cons_True by (simpl; congruence). f_equal. by apply IH.
Qed.

Lemma assoc_None k l : assoc k l = None <-> k ∉ l.*1.
Proof.
  unfold assoc. induction l as [|[k' v] l IH]; simpl; [split; [set_solver|done]|].
  case_bool_decide; subst; simpl; [split; [done|set_solver]|].
  rewrite IH. set_solver.
Qed.

Lemma assoc_app_r k l1 l2 : k ∉ l1.*1 -> assoc k (l1 ++ l2) = assoc k l2.
Proof.
  unfold assoc. induction l1 as [|[k' v] l1 IH]; simpl; [done|]. intros [Hne Hin]%not_elem_of_cons.
  rewrite bool_decide_eq_false_2 by done. by apply IH.
Qed.

Lemma assoc_Some k v l : NoDup l.*1 -> assoc k l = Some v <-> (k, v) ∈ l.
Proof.
  unfold assoc. induction l as [|[k' v'] l IH]; simpl; intros Hnd; [split; [done|by intros ?%elem_of_nil]|].
  apply NoDup_cons in Hnd as [Hin Hnd]. case_bool_decide as Hk; simpl.
  - subst. rewrite elem_of_cons. split; [intros [= ->]; by left|]. intros [[= ->]|Hin']; [done|].
    exfalso. apply Hin. apply (list_elem_of_fmap_2' fst _ (k, v)); done.
  - rewrite IH by done. rewrite elem_of_cons. split; [by right|]. by intros [[= -> ->]|].
Qed.
End Entries.

(** ** An instance: the list of the entries *)
Module AssocMap.

Record AssocMap (K V : Type) `{EqDecision K} := mkAssocMap {
  entries : list (K * V);
  entries_keys : NoDup entries.*1;
}.
Arguments mkAssocMap {K V _} entries entries_keys.
Arguments entries {K V _} m : rename.
Arguments entries_keys {K V _} m : rename.

Section Instance.
Context {K V : Type} `{EqDecision K}.

Definition write_entry (k : K) (f : V -> V) (e : K * V) : K * V := if decide (e.1 = k) then (e.1, f e.2) else e.

Lemma write_keys k f (l : list (K * V)) : (write_entry k f <$> l).*1 = l.*1.
Proof.
  rewrite <-list_fmap_compose. apply list_fmap_ext. intros _ [k' v] _. unfold write_entry. simpl.
  by case_decide.
Qed.

Definition move_back (k : K) (l : list (K * V)) : list (K * V) :=
  match assoc k l with Some v => without k l ++ [(k, v)] | None => l end.

Lemma NoDup_move_back k l : NoDup l.*1 -> NoDup (move_back k l).*1.
Proof. unfold move_back. destruct (assoc k l); [apply NoDup_without_snoc|done]. Qed.

Lemma NoDup_tail (l : list (K * V)) : NoDup l.*1 -> NoDup (tail l).*1.
Proof. destruct l; simpl; [done|]. by intros [_ ?]%NoDup_cons. Qed.

#[export, program] Instance assoc_map : LinkedHashMap (AssocMap K V) K V := {
  lm_new := mkAssocMap [] (NoDup_nil_2);
  lm_iter := entries;
  lm_len m := length (entries m);
  lm_get m k := assoc k (entries m);
  lm_insert m k v := mkAssocMap (without k (entries m) ++ [(k, v)]) (NoDup_without_snoc _ _ _ (entries_keys m));
  lm_remove m k := (mkAssocMap (without k (entries m)) (NoDup_without _ _ (entries_keys m)), assoc k (entries m));
  lm_pop_front m := mkAssocMap (tail (entries m)) (NoDup_tail _ (entries_keys m));
  lm_write m k f := mkAssocMap (write_entry k f <$> entries m) _;
  lm_to_back m k := mkAssocMap (move_back k (entries m)) (NoDup_move_back _ _ (entries_keys m));
}.
Next Obligation. intros m k f. rewrite write_keys. apply entries_keys. Qed.

#[export] Instance assoc_map_laws : LinkedHashMapLaws (AssocMap K V) K V.
Proof.
  split; try done.
  - intros m. apply entries_keys.
  - intros m k v Hv. simpl in *. unfold move_back. by rewrite Hv.
Qed.
End Instance.
End AssocMap.

(** ** [lru::LruCache] *)

Class LruCache (M K V : Type) := {
  lru_new : nat -> M;
  lru_cap : M -> nat;
  lru_iter : M -> list (K * V);
  (* the value through [get_mut], and the write through that reference *)
  lru_get : M -> K -> option V;
  lru_get_mut : M -> K -> (V -> V) -> M;
  lru_put : M -> K -> V -> M;
  lru_pop : M -> K -> M;
}.

Class LruCacheLaws (M K V : Type) `{EqDecision K} `{!LruCache M K V} := {
  lru_iter_new n : lru_iter (lru_new n) = [];
  lru_cap_new n : lru_cap (lru_new n) = n;
  lru_get_iter m k : lru_get m k = assoc k (lru_iter m);
  lru_iter_get_mut m k f :
    lru_iter (lru_get_mut m k f) =
    match assoc k (lru_iter m) with
    | Some v => (k, f v) :: without k (lru_iter m)
    | None => lru_iter m
    end;
  lru_cap_get_mut m k f : lru_cap (lru_get_mut m k f) = lru_cap m;
  lru_iter_put m k v : lru_iter (lru_put m k v) = take (lru_cap m) ((k, v) :: without k (lru_iter m));
  lru_cap_put m k v : lru_cap (lru_put m k v) = lru_cap m;
  lru_iter_pop m k : lru_iter (lru_pop m k) = without k (lru_iter m);
  lru_cap_pop m k : lru_cap (lru_pop m k) = lru_cap m;
}.

(** ** An instance: the list of the entries *)
Module RecencyList.

Record RecencyList (K V : Type) := mkRecency { bound : nat; recent : list (K * V) }.
Arguments mkRecency {K V} bound recent.
Arguments bound {K V} m : rename.
Arguments recent {K V} m : rename.

Section Instance.
Context {K V : Type} `{EqDecision K}.

#[export] Instance recency_list : LruCache (RecencyList K V) K V := {|
  lru_new n := mkRecency n [];
  lru_cap := bound;
  lru_iter := recent;
  lru_get m k := assoc k (recent m);
  lru_get_mut m k f :=
    match assoc k (recent m) with
    | Some v => mkRecency (bound m) ((k, f v) :: without k (recent m))
    | None => m
    end;
  lru_put m k v := mkRecency (bound m) (take (bound m) ((k, v) :: without k (recent m)));
  lru_pop m k := mkRecency (bound m) (without k (recent m));
|}.

#[export] Instance recency_list_laws : LruCacheLaws (RecencyList K V) K V.
Proof. split; try done; simpl; intros m k f; by destruct (assoc k (recent m)). Qed.
End Instance.
End RecencyList.

(** ** [delay_map::HashMapDelay] *)

(** [std::task::Poll]. *)
Inductive Poll (A : Type) := Ready (a : A) | Pending.
Arguments Ready {A} a.
Arguments Pending {A}.

(** The timer behind the map panics when asked to wait longer than
    [dm_max_timeout]: [dm_insert] is the insertion into a map whose timeout is
    within it. *)
Class HashMapDelay (D K V : Type) `{Countable K} := {
  dm_max_timeout : Z;
  dm_new : Z -> D;
  dm_iter : D -> gmap K V;
  dm_get : D -> K -> option V;
  dm_insert : D -> Z -> K -> V -> D;
  dm_remove : D -> K -> D * option V;
  dm_poll_next : D -> Z -> D * Poll (option (result string (K * V)));
}.

Class HashMapDelayLaws (D K V : Type) `{Countable K} `{!HashMapDelay D K V} := {
  dm_iter_new timeout : dm_iter (dm_new timeout) = ∅;
  dm_get_iter d k : dm_get d k = dm_iter d !! k;
  dm_iter_insert d now k v : dm_iter (dm_insert d now k v) = <[k:=v]> (dm_iter d);
  dm_iter_remove d k : dm_iter (dm_remove d k).1 = delete k (dm_iter d);
  dm_removed d k : (dm_remove d k).2 = dm_iter d !! k;
  dm_polled d now :
    match dm_poll_next d now with
    | (d', Ready (Some (Ok (k, v)))) => dm_iter d !! k = Some v /\ dm_iter d' = delete k (dm_iter d)
    | (d', _) => dm_iter d' = dm_iter d
    end;
}.

(** An entry does not stay: from some time on a poll yields one, and a poll that
    yields none does not put it off. *)
Class HashMapDelayExpiry (D K V : Type) `{Countable K} `{!HashMapDelay D K V} := {
  dm_due : D -> Z;
  dm_due_ready d now :
    dm_iter d <> ∅ -> (dm_due d <= now)%Z -> exists d' k v, dm_poll_next d now = (d', Ready (Some (Ok (k, v))));
  dm_due_waits d now :
    match dm_poll_next d now with
    | (_, Ready (Some (Ok _))) => True
    | (d', _) => dm_due d' = dm_due d
    end;
}.

(** ** An instance: the entries with their deadlines *)
Module TimedMap.

Record TimedMap (K V : Type) `{Countable K} := mkTimedMap {
  timeout : Z;
  entries : gmap K (V * Z);
}.
Arguments mkTimedMap {K V _ _} timeout entries.
Arguments timeout {K V _ _} d : rename.
Arguments entries {K V _ _} d : rename.

Section Instance.
Context {K V : Type} `{Countable K}.

Definition expired (now : Z) (d : TimedMap K V) : option (K * (V * Z)) :=
  head (filter (fun e => (e.2.2 <= now)%Z) (map_to_list (entries d))).

#[export] Instance timed_map : HashMapDelay (TimedMap K V) K V := {|
  dm_max_timeout := from_secs (2 ^ 26);
  dm_new timeout := mkTimedMap timeout ∅;
  dm_iter d := fst <$> entries d;
  dm_get d k := fst <$> (entries d !! k);
  dm_insert d now k v := mkTimedMap (timeout d) (<[k:=(v, (now + timeout d)%Z)]> (entries d));
  dm_remove d k := (mkTimedMap (timeout d) (delete k (entries d)), fst <$> (entries d !! k));
  dm_poll_next d now :=
    match expired now d with
    | Some (k, (v, _)) => (mkTimedMap (timeout d) (delete k (entries d)), Ready (Some (Ok (k, v))))
    | None => (d, Pending)
    end;
|}.

#[export] Instance timed_map_laws : HashMapDelayLaws (TimedMap K V) K V.
Proof.
  split; simpl.
  - intros _. apply fmap_empty.
  - intros d k. by rewrite lookup_fmap.
  - intros d now k v. by rewrite fmap_insert.
  - intros d k. by rewrite fmap_delete.
  - intros d k. by rewrite lookup_fmap.
  - intros d now. destruct (expired now d) as [[k [v t]]|] eqn:E; [|done].
    unfold expired in E. apply head_Some_elem_of, list_elem_of_filter in E as [_ E%elem_of_map_to_list].
    simpl. rewrite lookup_fmap, E, fmap_delete. done.
Qed.

(** The deadline of an entry. *)
Definition first_due (d : TimedMap K V) : Z :=
  match map_to_list (entries d) with (_, (_, t)) :: _ => t | [] => 0%Z end.

#[export] Instance timed_map_expiry : HashMapDelayExpiry (TimedMap K V) K V.
Proof.
  refine {| dm_due := first_due |}.
  - intros d now Hne Hdue. unfold first_due in Hdue. simpl in *.
    destruct (expired now d) as [[k [v t]]|] eqn:E; [eauto|]. exfalso.
    unfold expired in E. destruct (map_to_list (entries d)) as [|[k [v t]] l] eqn:El.
    + apply map_to_list_empty_iff in El. apply Hne. rewrite El. apply fmap_empty.
    + rewrite filter_cons_True in E by done. discriminate.
  - intros d now. simpl. by destruct (expired now d) as [[k [v t]]|].
Defined.
End Instance.
End TimedMap.
