(* ===== verification/LruTimeCache.v ===== *)
(** * The expiring cache (src/src/lru_time_cache.rs)

    [LruTimeCache] over the interface of [hashlink::LinkedHashMap].  Instants
    are integers and the clock reading of a call is an argument.  The contract
    is a recency list that never expires anything: what has expired or was
    pushed out by the capacity is just not answered. *)

From S2P Require Import Prelude Maps.
Local Open Scope Z_scope.

Module LruTimeCache.

(** [usize::MAX]. *)
Definition USIZE_MAX : Z := 2 ^ 64 - 1.

Record LruTimeCache (M : Type) := mkCache {
  map : M;
  ttl : Z;
  capacity : Z;
}.
Arguments mkCache {M} map ttl capacity.
Arguments map {M} c : rename.
Arguments ttl {M} c : rename.
Arguments capacity {M} c : rename.

Section LruTimeCache.
Context {M K V : Type} `{EqDecision K} `{!LinkedHashMap M K (V * Z)}.
Implicit Types (self : LruTimeCache M) (key : K) (value : V) (now : Z).

Definition with_map self (m : M) : LruTimeCache M := mkCache m (ttl self) (capacity self).

Definition new (ttl : Z) (capacity : option Z) : LruTimeCache M :=
  let capacity := match capacity with Some cap => cap | None => USIZE_MAX end in
  mkCache lm_new ttl capacity.

Definition insert self now key value : LruTimeCache M :=
  let m := lm_insert (map self) key (value, now) in
  if decide (Z.of_nat (lm_len m) > capacity self) then with_map self (lm_pop_front m)
  else with_map self m.

(** The first loop of [remove_expired_values]. *)
Fixpoint expired_keys (ttl now : Z) (l : list (K * (V * Z))) : list K :=
  match l with
  | [] => []
  | (key, (_, time)) :: l => if decide (time + ttl >= now) then [] else key :: expired_keys ttl now l
  end.

Definition remove_expired_values self now : LruTimeCache M :=
  with_map self (fold_left (fun m k => (lm_remove m k).1) (expired_keys (ttl self) now (lm_iter (map self)))
                   (map self)).

(** [get_mut]; [f] is the write of the caller through the reference. *)
Definition get_mut self now key (f : V -> V) : LruTimeCache M * option V :=
  let self := remove_expired_values self now in
  match lm_get (map self) key with
  | Some (value, _) =>
      let m := lm_write (map self) key (fun '(v, _) => (v, now)) in
      let m := lm_to_back m key in
      (with_map self (lm_write m key (fun '(v, time) => (f v, time))), Some value)
  | None => (self, None)
  end.

Definition get self now key : LruTimeCache M * option V := get_mut self now key id.

Definition peek self now key : option V :=
  match lm_get (map self) key with
  | Some (value, time) => if decide (time + ttl self >= now) then Some value else None
  | None => None
  end.

Definition len self now : LruTimeCache M * nat :=
  let self := remove_expired_values self now in
  (self, lm_len (map self)).

Definition remove self key : LruTimeCache M * option V :=
  let '(m, r) := lm_remove (map self) key in
  (with_map self m, fst <$> r).

End LruTimeCache.
End LruTimeCache.
Import LruTimeCache.

(** ** Histories and the contract *)

Inductive cache_op (K V : Type) :=
  | Insert (key : K) (value : V)
  | GetMut (key : K) (f : V -> V)
  | Peek (key : K)
  | Len
  | Remove (key : K).
Arguments Insert {K V} key value.
Arguments GetMut {K V} key f.
Arguments Peek {K V} key.
Arguments Len {K V}.
Arguments Remove {K V} key.

Inductive cache_answer (V : Type) :=
  | Done
  | Value (v : option V)
  | Count (n : nat).
Arguments Done {V}.
Arguments Value {V} v.
Arguments Count {V} n.

Section Contract.
Context {M K V : Type} `{EqDecision K} `{!LinkedHashMap M K (V * Z)} `{!LinkedHashMapLaws M K (V * Z)}.
Variables (ttl capacity : Z).
Notation entry := (K * (V * Z))%type.
Implicit Types (R : list entry) (c : LruTimeCache M).

Definition run_op c (now : Z) (op : cache_op K V) : LruTimeCache M * cache_answer V :=
  match op with
  | Insert key value => (insert c now key value, Done)
  | GetMut key f => let '(c, r) := get_mut c now key f in (c, Value r)
  | Peek key => (c, Value (peek c now key))
  | Len => let '(c, n) := len c now in (c, Count n)
  | Remove key => let '(c, r) := remove c key in (c, Value r)
  end.

Fixpoint run_cache c (ops : list (Z * cache_op K V)) : LruTimeCache M * list (cache_answer V) :=
  match ops with
  | [] => (c, [])
  | (now, op) :: ops =>
      let '(c, r) := run_op c now op in
      let '(c, rs) := run_cache c ops in (c, r :: rs)
  end.

Definition alive (now : Z) (e : entry) : bool := bool_decide (e.2.2 + ttl >= now).

(** The value of [key], if it has not expired. *)
Definition live_value R (now : Z) (key : K) : option V :=
  match assoc key R with
  | Some (v, time) => if decide (time + ttl >= now) then Some v else None
  | None => None
  end.

(** [spec_op R now op r R']: on the recency list [R] the operation may answer
    [r] and leaves [R'].  Only the answer of [remove] for an expired entry is open. *)
Definition spec_op R (now : Z) (op : cache_op K V) (r : cache_answer V) R' : Prop :=
  match op with
  | Insert key v =>
      let R1 := without key R ++ [(key, (v, now))] in
      r = Done /\ R' = (if decide (Z.of_nat (length R1) > capacity) then tail R1 else R1)
  | GetMut key f =>
      r = Value (live_value R now key) /\
      R' = match live_value R now key with Some v => without key R ++ [(key, (f v, now))] | None => R end
  | Peek key => r = Value (live_value R now key) /\ R' = R
  | Len => r = Count (countb (alive now) R) /\ R' = R
  | Remove key =>
      R' = without key R /\
      match live_value R now key with
      | Some v => r = Value (Some v)
      | None => r = Value None \/ exists v, r = Value (Some v) /\ fst <$> assoc key R = Some v
      end
  end.

Inductive spec_run : list entry -> list (Z * cache_op K V) -> list (cache_answer V) -> list entry -> Prop :=
  | spec_run_nil R : spec_run R [] [] R
  | spec_run_cons R now op r R1 ops rs R2 :
      spec_op R now op r R1 -> spec_run R1 ops rs R2 -> spec_run R ((now, op) :: ops) (r :: rs) R2.

(** ** The refinement *)

Definition older (e e' : entry) : Prop := e.2.2 <= e'.2.2.

Record cache_rel (now : Z) c R (dead : list entry) : Prop := {
  rel_ttl : LruTimeCache.ttl c = ttl;
  rel_capacity : LruTimeCache.capacity c = capacity;
  rel_split : R = dead ++ lm_iter (map c);
  rel_dead : Forall (fun e => alive now e = false) dead;
  rel_sorted : StronglySorted older R;
  rel_times : Forall (fun e => e.2.2 <= now) R;
  rel_keys : NoDup R.*1;
  rel_len : Z.of_nat (length R) <= capacity;
}.

Lemma alive_mono now now' e : now <= now' -> alive now e = false -> alive now' e = false.
Proof. unfold alive. rewrite !bool_decide_eq_false. lia. Qed.

Lemma rel_later now now' c R dead : now <= now' -> cache_rel now c R dead -> cache_rel now' c R dead.
Proof.
  intros Hn [H1 H2 H3 H4 H5 H6 H7 H8]. split; try done.
  - eapply Forall_impl; [exact H4|]. intros e. by apply alive_mono.
  - eapply Forall_impl; [exact H6|]. simpl. lia.
Qed.

(** The keys collected by the loop are those of the expired front. *)
Lemma expired_keys_split now l :
  StronglySorted older l ->
  exists pre post, l = pre ++ post /\ expired_keys ttl now l = pre.*1 /\
    Forall (fun e => alive now e = false) pre /\ Forall (fun e => alive now e = true) post.
Proof.
  induction l as [|[k [v time]] l IH]; intros Hs; [by exists [], []|].
  apply StronglySorted_inv in Hs as [Hs Hall]. simpl. case_decide as Hd.
  - exists [], ((k, (v, time)) :: l). split_and!; [done..|]. constructor.
    + by apply bool_decide_eq_true.
    + eapply Forall_impl; [exact Hall|]. intros e He. apply bool_decide_eq_true. unfold older in He.
      simpl in *. lia.
  - destruct (IH Hs) as (pre & post & -> & -> & Hpre & Hpost).
    exists ((k, (v, time)) :: pre), post. split_and!; [done..| |done]. constructor; [|done].
    by apply bool_decide_eq_false.
Qed.

Lemma remove_all_iter m (pre post : list entry) :
  lm_iter m = pre ++ post -> lm_iter (fold_left (fun m k => (lm_remove m k).1) pre.*1 m) = post.
Proof.
  revert m; induction pre as [|[k v] pre IH]; intros m Hm; simpl; [done|].
  apply IH. rewrite lm_iter_remove, Hm. simpl.
  pose proof (lm_keys m) as Hnd. rewrite Hm in Hnd. simpl in Hnd. apply NoDup_cons in Hnd as [Hin _].
  unfold without. rewrite filter_cons_False by (simpl; naive_solver). by apply without_id.
Qed.

Lemma remove_expired_rel now c R dead :
  cache_rel now c R dead ->
  exists dead', cache_rel now (remove_expired_values c now) R dead' /\
    Forall (fun e => alive now e = true) (lm_iter (map (remove_expired_values c now))).
Proof.
  intros [H1 H2 H3 H4 H5 H6 H7 H8].
  assert (Hs : StronglySorted older (lm_iter (map c))).
  { subst R. clear -H5. induction dead as [|e dead IH]; [done|]. by apply StronglySorted_inv in H5 as [H5 _]; auto. }
  destruct (expired_keys_split now _ Hs) as (pre & post & E & Hk & Hpre & Hpost).
  assert (Hit : lm_iter (map (remove_expired_values c now)) = post).
  { simpl. rewrite H1, Hk. by apply remove_all_iter. }
  exists (dead ++ pre). split; [|by rewrite Hit]. split; try done.
  - by rewrite Hit, <-app_assoc, <-E.
  - by apply Forall_app.
Qed.

(** What is visible does not depend on the expired entries. *)
Lemma live_value_rel now c R dead key :
  cache_rel now c R dead -> live_value R now key = live_value (lm_iter (map c)) now key.
Proof.
  intros [_ _ -> Hdead _ _ Hnd _]. unfold live_value. rewrite fmap_app in Hnd.
  apply NoDup_app in Hnd as (Hd & Hdisj & _).
  destruct (decide (key ∈ dead.*1)) as [Hin|Hin]; [|by rewrite assoc_app_r].
  rewrite (proj2 (assoc_None key (lm_iter (map c)))) by auto.
  destruct (assoc key (dead ++ lm_iter (map c))) as [[v time]|] eqn:E; [|done].
  rewrite decide_False; [done|].
  apply list_elem_of_fmap in Hin as ([k' [v' t']] & -> & Hin). simpl in *.
  assert (E' : assoc k' dead = Some (v', t')) by (by apply assoc_Some).
  unfold assoc in E, E'. rewrite Forall_forall in Hdead. specialize (Hdead _ Hin).
  assert (find (fun e : entry => bool_decide (e.1 = k')) (dead ++ lm_iter (map c)) =
          find (fun e : entry => bool_decide (e.1 = k')) dead) as Ef.
  { clear -E'. induction dead as [|e dead IH]; simpl in *; [done|]. case_bool_decide; [done|]. by apply IH. }
  rewrite Ef, E' in E. injection E as <- <-. unfold alive in Hdead. apply bool_decide_eq_false in Hdead. done.
Qed.

Lemma sorted_without key R : StronglySorted older R -> StronglySorted older (without key R).
Proof.
  induction 1 as [|e R Hs IH Hall]; [constructor|]. unfold without. rewrite filter_cons.
  case_decide; [|done]. constructor; [done|]. by apply Forall_without.
Qed.

Lemma sorted_snoc R e :
  StronglySorted older R -> Forall (fun e' => e'.2.2 <= e.2.2) R -> StronglySorted older (R ++ [e]).
Proof.
  induction 1 as [|e' R Hs IH Hall]; simpl; intros Hle; [repeat constructor|].
  apply Forall_cons in Hle as [Hle1 Hle]. constructor; [by apply IH|]. apply Forall_app. auto.
Qed.

(** Using [key] at [now] moves it to the back in both lists. *)
Lemma rel_use now c c' R dead key v :
  cache_rel now c R dead -> LruTimeCache.ttl c' = ttl -> LruTimeCache.capacity c' = capacity ->
  lm_iter (map c') = without key (lm_iter (map c)) ++ [(key, (v, now))] ->
  let R1 := without key R ++ [(key, (v, now))] in
  R1 = without key dead ++ lm_iter (map c') /\
  Forall (fun e => alive now e = false) (without key dead) /\
  StronglySorted older R1 /\ Forall (fun e => e.2.2 <= now) R1 /\ NoDup R1.*1 /\
  Z.of_nat (length R1) <= capacity + 1.
Proof.
  intros [H1 H2 H3 H4 H5 H6 H7 H8] Ht Hc Hit R1. unfold R1. split_and!.
  - rewrite Hit, H3, without_app. by rewrite app_assoc.
  - by apply Forall_without.
  - apply sorted_snoc; [by apply sorted_without|]. simpl. by apply Forall_without.
  - apply Forall_app. split; [by apply Forall_without|]. by repeat constructor.
  - by apply NoDup_without_snoc.
  - rewrite length_app. simpl. pose proof (sublist_length _ _ (without_sublist key R)). lia.
Qed.

Lemma insert_rel now c R dead key v :
  cache_rel now c R dead ->
  exists dead', let R1 := without key R ++ [(key, (v, now))] in
    cache_rel now (insert c now key v) (if decide (Z.of_nat (length R1) > capacity) then tail R1 else R1) dead'.
Proof.
  intros Hrel. pose proof Hrel as [H1 H2 _ _ _ _ _ _].
  set (c1 := with_map c (lm_insert (map c) key (v, now))).
  assert (Hit : lm_iter (map c1) = without key (lm_iter (map c)) ++ [(key, (v, now))])
    by apply lm_iter_insert.
  destruct (rel_use now c c1 R dead key v Hrel H1 H2 Hit) as (E & Hd & Hs & Ht & Hn & Hl).
  set (R1 := without key R ++ [(key, (v, now))]) in *. exists (match without key dead with
    [] => [] | e :: dead1 => if decide (Z.of_nat (length R1) > capacity) then dead1 else e :: dead1 end).
  cbv zeta. fold R1.
  unfold insert. rewrite lm_len_iter, H2. change (lm_insert (map c) key (v, now)) with (map c1).
  clearbody c1 R1.
  assert (Hlen : length R1 = (length (without key dead) + length (lm_iter (map c1)))%nat)
    by (by rewrite E, length_app).
  destruct (without key dead) as [|e dead1] eqn:Ed.
  - simpl in E, Hlen. rewrite <-Hlen. case_decide.
    + destruct R1 as [|e0 R2]; [rewrite Hit in E; by destruct (without key (lm_iter (map c)))|].
      split; simpl in *; rewrite ?lm_iter_pop_front, <-?E; try done.
      * by apply StronglySorted_inv in Hs as [Hs _].
      * by apply Forall_cons in Ht as [_ Ht].
      * by apply NoDup_cons in Hn as [_ Hn].
      * lia.
    + split; simpl; try done; lia.
  - simpl in Hlen. rewrite (decide_False (P := Z.of_nat (length (lm_iter (map c1))) > capacity)) by lia.
    case_decide.
    + rewrite E in *. simpl in *. split; simpl; try done.
      * by apply Forall_cons in Hd as [_ Hd].
      * by apply StronglySorted_inv in Hs as [Hs _].
      * by apply Forall_cons in Ht as [_ Ht].
      * by apply NoDup_cons in Hn as [_ Hn].
      * lia.
    + split; simpl; try done; lia.
Qed.

Lemma without_write key f (l : list entry) :
  without key ((fun e => if decide (e.1 = key) then (e.1, f e.2) else e) <$> l) = without key l.
Proof.
  induction l as [|[k v] l IH]; [done|]. unfold without in *. rewrite fmap_cons. cbn [fst snd].
  destruct (decide (k = key)) as [->|Hne].
  - rewrite !filter_cons_False by naive_solver. done.
  - rewrite !filter_cons_True by done. by rewrite IH.
Qed.

Lemma write_without key f (l : list entry) :
  (fun e => if decide (e.1 = key) then (e.1, f e.2) else e) <$> without key l = without key l.
Proof.
  induction l as [|[k v] l IH]; [done|]. unfold without in *. destruct (decide (k = key)) as [->|Hne].
  - by rewrite filter_cons_False by naive_solver.
  - rewrite filter_cons_True by done. rewrite fmap_cons. cbn [fst snd]. rewrite decide_False by done. by rewrite IH.
Qed.

Lemma assoc_write key f (l : list entry) :
  assoc key ((fun e => if decide (e.1 = key) then (e.1, f e.2) else e) <$> l) = f <$> assoc key l.
Proof.
  unfold assoc. induction l as [|[k v] l IH]; [done|]. simpl. destruct (decide (k = key)) as [->|Hne]; simpl.
  - by rewrite !bool_decide_eq_true_2.
  - by rewrite !bool_decide_eq_false_2.
Qed.

(** The three writes of [get_mut]: refresh, move to the back, and the caller's write. *)
Lemma get_mut_iter (m : M) key v time now f :
  assoc key (lm_iter m) = Some (v, time) ->
  lm_iter (lm_write (lm_to_back (lm_write m key (fun '(v, _) => (v, now))) key) key
                    (fun '(v, time) => (f v, time))) =
  without key (lm_iter m) ++ [(key, (f v, now))].
Proof.
  intros E. rewrite lm_iter_write, (lm_iter_to_back _ _ (v, now)).
  - rewrite fmap_app, lm_iter_write, (without_write key (fun '(v, _) => (v, now))). simpl. rewrite decide_True by done. f_equal.
    apply (write_without key (fun '(v, time) => (f v, time))).
  - rewrite lm_iter_write, (assoc_write key (fun '(v, _) => (v, now))), E. done.
Qed.

Lemma live_value_assoc now (l : list entry) key :
  Forall (fun e => alive now e = true) l -> NoDup l.*1 -> live_value l now key = fst <$> assoc key l.
Proof.
  intros Hall Hnd. unfold live_value. destruct (assoc key l) as [[v time]|] eqn:E; [|done].
  apply assoc_Some in E; [|done]. rewrite Forall_forall in Hall.
  apply Hall in E. apply bool_decide_eq_true in E. by rewrite decide_True.
Qed.

Lemma get_mut_rel now c R dead key f :
  cache_rel now c R dead ->
  let '(c', r) := get_mut c now key f in
  r = live_value R now key /\
  exists dead', cache_rel now c'
    (match live_value R now key with Some v => without key R ++ [(key, (f v, now))] | None => R end) dead'.
Proof.
  intros Hrel. destruct (remove_expired_rel now c R dead Hrel) as (dead' & Hrel' & Hall).
  unfold get_mut. set (c1 := remove_expired_values c now) in *. clearbody c1. clear dead Hrel.
  rewrite (live_value_rel _ _ _ _ _ Hrel'), (live_value_assoc now _ key Hall (lm_keys _)).
  rewrite lm_get_iter. destruct (assoc key (lm_iter (map c1))) as [[v time]|] eqn:E; simpl; [|by split; [|exists dead']].
  split; [done|]. pose proof Hrel' as [H1 H2 H3 _ _ _ Hnd H8].
  set (m' := lm_write _ key (fun '(v, time) => (f v, time))).
  assert (Hit : lm_iter (map (with_map c1 m')) = without key (lm_iter (map c1)) ++ [(key, (f v, now))])
    by (by apply (get_mut_iter _ _ _ time)).
  destruct (rel_use now c1 (with_map c1 m') R dead' key (f v) Hrel' H1 H2 Hit) as (E' & Hd & Hs & Ht & Hn & Hl).
  exists (without key dead'). split; try done.
  rewrite length_app. simpl. assert (length (without key R) < length R)%nat; [|lia].
  apply assoc_Some in E; [|apply lm_keys].
  assert ((key, (v, time)) ∈ R) as Hin by (rewrite H3; apply elem_of_app; by right).
  clear -Hin. induction R as [|[k w] R IH]; [by apply elem_of_nil in Hin|].
  unfold without in *. rewrite filter_cons. pose proof (length_filter (fun e : entry => e.1 <> key) R).
  case_decide as Hk; simpl in *; [|lia].
  apply elem_of_cons in Hin as [[= <- <-]|Hin]; [done|]. specialize (IH Hin). lia.
Qed.

Lemma run_op_rel now c R dead op :
  cache_rel now c R dead ->
  let '(c', r) := run_op c now op in
  exists R' dead', spec_op R now op r R' /\ cache_rel now c' R' dead'.
Proof.
  intros Hrel. destruct op as [key v|key f|key| |key]; cbn [run_op].
  - destruct (insert_rel now c R dead key v Hrel) as [dead' Hrel']. eexists _, dead'. by split.
  - pose proof (get_mut_rel now c R dead key f Hrel) as Hg. destruct (get_mut c now key f) as [c' r].
    destruct Hg as (-> & dead' & Hrel'). eexists _, dead'. by split.
  - exists R, dead. split; [|done]. simpl. split; [|done]. f_equal. symmetry.
    rewrite (live_value_rel _ _ _ _ _ Hrel). unfold live_value, peek.
    by rewrite lm_get_iter, (rel_ttl _ _ _ _ Hrel).
  - destruct (remove_expired_rel now c R dead Hrel) as (dead' & Hrel' & Hall). unfold len.
    exists R, dead'. split; [|done]. simpl. split; [|done]. f_equal.
    rewrite lm_len_iter, (rel_split _ _ _ _ Hrel'), countb_app.
    rewrite countb_Forall_false by apply Hrel'. by rewrite countb_Forall_true.
  - unfold remove. pose proof (lm_iter_remove (map c) key) as Hit. pose proof (lm_removed (map c) key) as Hr.
    destruct (lm_remove (map c) key) as [m r]; simpl in *. subst r.
    pose proof Hrel as [H1 H2 H3 H4 H5 H6 H7 H8]. exists (without key R), (without key dead). split.
    + split; [done|]. rewrite (live_value_rel _ _ _ _ _ Hrel). unfold live_value.
      destruct (assoc key (lm_iter (map c))) as [[v time]|] eqn:E; simpl; [|by left].
      case_decide; [done|]. right. exists v. split; [done|].
      rewrite H3, assoc_app_r, E; [done|]. subst R. rewrite fmap_app in H7.
      apply NoDup_app in H7 as (_ & Hdisj & _). intros Hin. apply Hdisj in Hin. apply Hin.
      apply assoc_Some in E; [|apply lm_keys]. by apply (list_elem_of_fmap_2' fst _ (key, (v, time))).
    + split; simpl; try done.
      * by rewrite Hit, H3, without_app.
      * by apply Forall_without.
      * by apply sorted_without.
      * by apply Forall_without.
      * by apply NoDup_without.
      * pose proof (sublist_length _ _ (without_sublist key R)). lia.
Qed.
End Contract.

(** A clock that does not run backwards. *)
Fixpoint clock_ok {A} (now : Z) (ops : list (Z * A)) : Prop :=
  match ops with
  | [] => True
  | (now', _) :: ops => now <= now' /\ clock_ok now' ops
  end.

Lemma run_cache_rel {M K V} `{EqDecision K} `{!LinkedHashMap M K (V * Z)} `{!LinkedHashMapLaws M K (V * Z)}
    (ttl capacity now : Z) (ops : list (Z * cache_op K V)) (c : LruTimeCache M) R dead :
  cache_rel ttl capacity now c R dead -> clock_ok now ops ->
  let '(c', rs) := run_cache c ops in
  exists R', spec_run ttl capacity R ops rs R' /\ Z.of_nat (lm_len (map c')) <= capacity.
Proof.
  revert now c R dead; induction ops as [|[now' op] ops IH]; intros now c R dead Hrel Hok; simpl.
  { exists R. split; [constructor|]. destruct Hrel as [_ _ -> _ _ _ _ Hl].
    rewrite lm_len_iter. rewrite length_app in Hl. lia. }
  destruct Hok as [Hn Hok]. apply (rel_later _ _ _ now') in Hrel; [|done].
  pose proof (run_op_rel ttl capacity now' c R dead op Hrel) as Hop.
  destruct (run_op c now' op) as [c1 r]. destruct Hop as (R1 & dead1 & Hspec & Hrel1).
  specialize (IH now' c1 R1 dead1 Hrel1 Hok). destruct (run_cache c1 ops) as [c2 rs].
  destruct IH as (R2 & Hrun & Hlen). exists R2. split; [|done]. by econstructor.
Qed.

(** C31: Over every history of [insert], [get] and [get_mut], [peek], [len] and
    [remove] on a new cache, with a clock that does not run backwards, the
    answers are those of the recency list: a key is found exactly when it is
    among the most recently used keys that fit the capacity and was used within
    the time to live, and [len] counts these.  The cache never holds more
    entries than its capacity, and only the least recently used one is dropped
    for a new one. *)
Theorem lru_trace_refines {M K V} `{EqDecision K} `{!LinkedHashMap M K (V * Z)} `{!LinkedHashMapLaws M K (V * Z)}
    (ttl : Z) (cap : option Z) (start : Z) (ops : list (Z * cache_op K V)) :
  0 <= default USIZE_MAX cap -> clock_ok start ops ->
  let '(c, rs) := run_cache (new (M := M) ttl cap) ops in
  exists R, spec_run ttl (default USIZE_MAX cap) [] ops rs R /\
    Z.of_nat (lm_len (map c)) <= default USIZE_MAX cap.
Proof.
  intros Hcap Hok. apply (run_cache_rel ttl (default USIZE_MAX cap) start ops _ [] []); [|done].
  split; simpl; try done; try apply Forall_nil_2; try apply SSorted_nil; try apply NoDup_nil_2.
  by rewrite lm_iter_new.
Qed.

Import AssocMap.

(** Capacity two: the first key is used again, so the second one makes room. *)
Lemma lru_trace_refines_witness :
  let ops := [(0, Insert 1 10); (1, Insert 2 20); (2, GetMut 1 id); (3, Insert 3 30);
              (4, GetMut 2 id); (5, Peek 1); (13, Len)] in
  let '(c, rs) := run_cache (new (M := AssocMap Z (Z * Z)) (K := Z) (V := Z) 10 (Some 2)) ops in
  rs = [Done; Done; Value (Some 10); Done; Value None; Value (Some 10); Count 1] /\
  exists R, spec_run 10 2 [] ops rs R /\ Z.of_nat (lm_len (K := Z) (V := Z * Z) (map c)) <= 2.
Proof.
  intros ops.
  pose proof (lru_trace_refines (M := AssocMap Z (Z * Z)) (K := Z) (V := Z) 10 (Some 2) 0 ops) as H.
  assert (Hs : (run_cache (new (M := AssocMap Z (Z * Z)) (K := Z) (V := Z) 10 (Some 2)) ops).2 =
    [Done; Done; Value (Some 10); Done; Value None; Value (Some 10); Count 1]) by (by vm_compute).
  destruct (run_cache _ ops) as [c rs]. split; [exact Hs|].
  apply H; [by vm_compute|]. vm_compute. repeat split; discriminate.
Defined.
