(* ===== verification/Packet.v ===== *)
(** * Raw packets (src/src/packet/mod.rs)

    The packet kinds, the encoding with the masked header and the decoding.
    AES-CTR is the [aes] crate's: the keystream is a parameter, and applying it
    is the XOR of the stream cipher.  Records are the [enr] crate's: their RLP
    encoding and [NodeId::parse] are the class [EnrCodec].  A slice index out of
    range or a failed [expect] aborts; the value of such code is [Abort]. *)

From stdpp Require Import strings.
From S2P Require Import Prelude Bytes Key Rpc.
Local Open Scope nat_scope.

Module Packet.

Definition IV_LENGTH : nat := 16.
Definition STATIC_HEADER_LENGTH : nat := 23.
Definition MESSAGE_NONCE_LENGTH : nat := 12.
Definition ID_NONCE_LENGTH : nat := 16.
Definition MAX_PACKET_SIZE : nat := 1280.
Definition MIN_PACKET_SIZE : nat := IV_LENGTH + STATIC_HEADER_LENGTH + 24.

Notation MessageNonce := (vec byte 12).
Notation IdNonce := (vec byte 16).
Notation ChallengeData := (vec byte 63).

(** [ChallengeData::try_from]. *)
Definition challenge_data_from (data : list byte) : option ChallengeData := array_from data.

Class ProtocolIdentity := {
  PROTOCOL_ID_BYTES : vec byte 6;
  PROTOCOL_VERSION_BYTES : vec byte 2;
}.

Definition DefaultProtocolId : ProtocolIdentity := {|
  PROTOCOL_ID_BYTES := [# x64; x69; x73; x63; x76; x35];
  PROTOCOL_VERSION_BYTES := [# x00; x01];
|}.

(** [PacketError] (error.rs). *)
Inductive PacketError :=
  | UnknownPacket
  | TooLarge
  | TooSmall
  | InvalidNodeId
  | HeaderLengthInvalid (n : nat)
  | HeaderDecryptionFailed
  | InvalidAuthDataSize
  | InvalidVersion (v : Z)
  | InvalidEnr (e : DecoderError).

(** Decoding returns an error or can abort. *)
Inductive checked (A : Type) :=
  | Return (a : A)
  | Throw (e : PacketError)
  | Abort.
Arguments Return {A} a.
Arguments Throw {A} e.
Arguments Abort {A}.

#[export] Instance checked_bind : MBind checked := fun A B f m =>
  match m with Return a => f a | Throw e => Throw e | Abort => Abort end.

(** [&l[i..j]] and [&l[i..]], [l[i]], [expect], and [?]. *)
Definition slice (l : list byte) (i j : nat) : checked (list byte) :=
  if decide (i <= j /\ j <= length l) then Return (take (j - i) (drop i l)) else Abort.
Definition slice_from (l : list byte) (i : nat) : checked (list byte) := slice l i (length l).
Definition index (l : list byte) (i : nat) : checked byte :=
  match l !! i with Some b => Return b | None => Abort end.
Definition expect {A} (o : option A) : checked A :=
  match o with Some a => Return a | None => Abort end.
Definition or_throw {A} (o : option A) (e : PacketError) : checked A :=
  match o with Some a => Return a | None => Throw e end.

(** [rlp::encode] and [rlp::decode] of a record, and [NodeId::parse]. *)
Class EnrCodec (Enr : Type) := {
  enr_encode : Enr -> list byte;
  enr_decode : list byte -> result DecoderError Enr;
  node_id_parse : list byte -> option NodeId;
}.

Class EnrCodecLaws (Enr : Type) `{!EnrCodec Enr} := {
  enr_decode_encode e : enr_decode (enr_encode e) = Ok e;
  enr_encode_nonempty e : enr_encode e <> [];
  node_id_parse_raw (id : NodeId) : node_id_parse (vec_to_list id) = Some id;
}.

(** The keystream of AES-128 in counter mode, by key, nonce and position. *)
Class Aes128Ctr := keystream : list byte -> list byte -> nat -> byte.

Definition byte_xor (a b : byte) : byte := byte_of_Z (Z.lxor (byte_to_Z a) (byte_to_Z b)).

(** [StreamCipher::apply_keystream] of a cipher that is at position [pos]. *)
Definition apply_keystream `{!Aes128Ctr} (key nonce : list byte) (pos : nat) (l : list byte) : list byte :=
  imap (fun i b => byte_xor b (keystream key nonce (pos + i))) l.

Inductive PacketKind (Enr : Type) :=
  | Message (src_id : NodeId)
  | WhoAreYou (id_nonce : IdNonce) (enr_seq : Z)
  | Handshake (src_id : NodeId) (id_nonce_sig ephem_pubkey : list byte) (enr_record : option Enr).
Arguments Message {Enr} src_id.
Arguments WhoAreYou {Enr} id_nonce enr_seq.
Arguments Handshake {Enr} src_id id_nonce_sig ephem_pubkey enr_record.

Record PacketHeader (Enr : Type) := mkHeader {
  message_nonce : MessageNonce;
  kind : PacketKind Enr;
}.
Arguments mkHeader {Enr} message_nonce kind.
Arguments message_nonce {Enr} h : rename.
Arguments kind {Enr} h : rename.

Record Packet (Enr : Type) := mkPacket {
  iv : Z;
  header : PacketHeader Enr;
  message : list byte;
}.
Arguments mkPacket {Enr} iv header message.
Arguments iv {Enr} p : rename.
Arguments header {Enr} p : rename.
Arguments message {Enr} p : rename.

Section Packet.
Context {Enr : Type} `{!EnrCodec Enr} `{!ProtocolIdentity} `{!Aes128Ctr}.
Implicit Types (p : Packet Enr) (k : PacketKind Enr).

(** [From<&PacketKind> for u8]. *)
Definition kind_byte k : byte :=
  match k with Message _ => x00 | WhoAreYou _ _ => x01 | Handshake _ _ _ _ => x02 end.

Definition kind_encode k : list byte :=
  match k with
  | Message src_id => vec_to_list src_id
  | WhoAreYou id_nonce enr_seq => vec_to_list id_nonce ++ to_be_bytes 8 enr_seq
  | Handshake src_id id_nonce_sig ephem_pubkey enr_record =>
      let sig_size := Z.of_nat (length id_nonce_sig) in
      let pubkey_size := Z.of_nat (length ephem_pubkey) in
      let node_record := enr_encode <$> enr_record in
      vec_to_list src_id ++ to_be_bytes 1 sig_size ++ to_be_bytes 1 pubkey_size ++
      id_nonce_sig ++ ephem_pubkey ++ default [] node_record
  end.

Definition kind_is_whoareyou k : bool := match k with WhoAreYou _ _ => true | _ => false end.

(** The three branches of [PacketKind::decode]. *)
Definition message_decode (auth_data : list byte) : checked (PacketKind Enr) :=
  if decide (length auth_data <> 32) then Throw InvalidAuthDataSize
  else
    src_id ← or_throw (node_id_parse auth_data) InvalidNodeId;
    Return (Message src_id).

Definition whoareyou_decode (auth_data : list byte) : checked (PacketKind Enr) :=
  if decide (length auth_data <> 24) then Throw InvalidAuthDataSize
  else
    id_nonce ← slice auth_data 0 ID_NONCE_LENGTH;
    id_nonce ← expect (array_from id_nonce);
    enr_seq ← slice_from auth_data ID_NONCE_LENGTH;
    enr_seq ← expect (array_from (n := 8) enr_seq);
    Return (WhoAreYou id_nonce (from_be_bytes (vec_to_list enr_seq))).

Definition record_decode (record : list byte) : checked (option Enr) :=
  match enr_decode record with
  | Ok enr => Return (Some enr)
  | Err e => Throw (InvalidEnr e)
  end.

Definition handshake_decode (auth_data : list byte) : checked (PacketKind Enr) :=
  if decide (length auth_data < 34) then Throw InvalidAuthDataSize
  else
    src_id ← slice auth_data 0 32;
    src_id ← or_throw (node_id_parse src_id) InvalidNodeId;
    sig_size ← index auth_data 32;
    let sig_size := Z.to_nat (byte_to_Z sig_size) in
    eph_key_size ← index auth_data (32 + 1);
    let eph_key_size := Z.to_nat (byte_to_Z eph_key_size) in
    let total_size := sig_size + eph_key_size in
    if decide (length auth_data < 34 + total_size) then Throw InvalidAuthDataSize
    else
      remaining_data ← slice_from auth_data (32 + 2);
      id_nonce_sig ← slice remaining_data 0 sig_size;
      ephem_pubkey ← slice remaining_data sig_size total_size;
      enr_record ← (if decide (total_size < length remaining_data) then
                      record ← slice_from remaining_data total_size;
                      record_decode record
                    else Return None : checked (option Enr));
      Return (Handshake src_id id_nonce_sig ephem_pubkey enr_record).

Definition kind_decode (kind : byte) (auth_data : list byte) : checked (PacketKind Enr) :=
  match byte_to_Z kind with
  | 0%Z => message_decode auth_data
  | 1%Z => whoareyou_decode auth_data
  | 2%Z => handshake_decode auth_data
  | _ => Throw UnknownPacket
  end.

(** [PacketHeader::encode]. *)
Definition header_encode (h : PacketHeader Enr) : list byte :=
  let auth_data := kind_encode (kind h) in
  vec_to_list PROTOCOL_ID_BYTES ++ vec_to_list PROTOCOL_VERSION_BYTES ++ [kind_byte (kind h)] ++
  vec_to_list (message_nonce h) ++ to_be_bytes 2 (Z.of_nat (length auth_data)) ++ auth_data.

(** The constructors; [iv] and the other random values are arguments. *)
Definition new_message (iv : Z) (src_id : NodeId) (message_nonce : MessageNonce) (ciphertext : list byte)
    : Packet Enr :=
  mkPacket iv (mkHeader message_nonce (Message src_id)) ciphertext.

Definition new_whoareyou (iv : Z) (request_nonce : MessageNonce) (id_nonce : IdNonce) (enr_seq : Z)
    : Packet Enr :=
  mkPacket iv (mkHeader request_nonce (WhoAreYou id_nonce enr_seq)) [].

Definition new_authheader (iv : Z) (src_id : NodeId) (message_nonce : MessageNonce)
    (id_nonce_sig ephem_pubkey : list byte) (enr_record : option Enr) : Packet Enr :=
  mkPacket iv (mkHeader message_nonce (Handshake src_id id_nonce_sig ephem_pubkey enr_record)) [].

(** [ciphertext] is what the generator fills the buffer with, [None] if it fails. *)
Definition new_random (iv : Z) (ciphertext : option (vec byte 44)) (message_nonce : MessageNonce)
    (src_id : NodeId) : result string (Packet Enr) :=
  match ciphertext with
  | Some ciphertext => Ok (new_message iv src_id message_nonce (vec_to_list ciphertext))
  | None => Err "PRNG failed"%string
  end.

Definition is_whoareyou p : bool := kind_is_whoareyou (kind (header p)).

Definition src_id p : option NodeId :=
  match kind (header p) with
  | Message src_id => Some src_id
  | WhoAreYou _ _ => None
  | Handshake src_id _ _ _ => Some src_id
  end.

Definition authenticated_data p : list byte :=
  to_be_bytes 16 (iv p) ++ header_encode (header p).

(** The AES key of a destination: the first half of its node id. *)
Definition mask_key (id : NodeId) : list byte := take 16 (vec_to_list id).

Definition encrypt_header p (dst_id : NodeId) : list byte :=
  apply_keystream (mask_key dst_id) (to_be_bytes 16 (iv p)) 0 (header_encode (header p)).

Definition encode p (dst_id : NodeId) : list byte :=
  to_be_bytes 16 (iv p) ++ encrypt_header p dst_id ++ message p.

Definition decode (src_id : NodeId) (data : list byte)
    : checked (Packet Enr * list byte) :=
  if decide (MAX_PACKET_SIZE < length data) then Throw TooLarge
  else if decide (length data < MIN_PACKET_SIZE) then Throw TooSmall
  else
    iv ← slice data 0 IV_LENGTH;
    let key := mask_key src_id in
    static_header ← slice data IV_LENGTH (IV_LENGTH + STATIC_HEADER_LENGTH);
    let static_header := apply_keystream key iv 0 static_header in
    if decide (length static_header <> STATIC_HEADER_LENGTH)
    then Throw (HeaderLengthInvalid (length static_header))
    else
      protocol_id ← slice static_header 0 6;
      if decide (protocol_id <> vec_to_list PROTOCOL_ID_BYTES) then Throw HeaderDecryptionFailed
      else
        version_bytes ← slice static_header 6 8;
        if decide (version_bytes <> vec_to_list PROTOCOL_VERSION_BYTES) then
          version ← expect (array_from (n := 2) version_bytes);
          Throw (InvalidVersion (from_be_bytes (vec_to_list version)))
        else
          flag ← index static_header 8;
          message_nonce ← slice static_header 9 (9 + MESSAGE_NONCE_LENGTH);
          message_nonce ← expect (array_from message_nonce);
          auth_data_size ← slice_from static_header (STATIC_HEADER_LENGTH - 2);
          auth_data_size ← expect (array_from (n := 2) auth_data_size);
          let auth_data_size := Z.to_nat (from_be_bytes (vec_to_list auth_data_size)) in
          remaining_data ← slice_from data (IV_LENGTH + STATIC_HEADER_LENGTH);
          if decide (length remaining_data < auth_data_size) then Throw InvalidAuthDataSize
          else
            auth_data ← slice data (IV_LENGTH + STATIC_HEADER_LENGTH)
                                   (IV_LENGTH + STATIC_HEADER_LENGTH + auth_data_size);
            let auth_data := apply_keystream key iv STATIC_HEADER_LENGTH auth_data in
            kind ← kind_decode flag auth_data;
            message ← slice_from data (IV_LENGTH + STATIC_HEADER_LENGTH + auth_data_size);
            if decide (message <> [] /\ kind_is_whoareyou kind = true) then Throw UnknownPacket
            else
              let authenticated_data := iv ++ static_header ++ auth_data in
              iv ← expect (array_from (n := 16) iv);
              Return (mkPacket (from_be_bytes (vec_to_list iv)) (mkHeader message_nonce kind) message, authenticated_data).

End Packet.
End Packet.
