(* ===== verification/PacketProofs.v ===== *)
(** * Decoding inverts encoding of packets

    The round trip of [Packet::encode] and [Packet::decode], and the converse:
    decoding aborts on no input, and what it accepts is the encoding of the
    packet it returns. *)

From S2P Require Import Prelude Bytes Key Rpc Packet.
Import Packet.

(** One step of a [checked] computation. *)
Ltac step := cbn [mbind checked_bind or_throw expect].

(** ** Slices *)

Lemma slice_app l1 l2 l3 i j :
  length l1 = i -> i + length l2 = j -> slice (l1 ++ l2 ++ l3) i j = Return l2.
Proof.
  intros <- <-. unfold slice. rewrite decide_True by (rewrite !length_app; lia).
  rewrite drop_app_length. f_equal. rewrite take_app_length' by lia. done.
Qed.

Lemma slice_head l2 l3 j : length l2 = j -> slice (l2 ++ l3) 0 j = Return l2.
Proof. intros <-. by apply (slice_app [] l2 l3). Qed.

Lemma slice_from_app l1 l2 i : length l1 = i -> slice_from (l1 ++ l2) i = Return l2.
Proof.
  intros Hi. unfold slice_from. rewrite length_app, Hi.
  pose proof (slice_app l1 l2 [] i (i + length l2) Hi eq_refl) as H. by rewrite app_nil_r in H.
Qed.

Lemma slice_ok l i j :
  i <= j -> j <= length l ->
  exists l1 l2 l3, l = l1 ++ l2 ++ l3 /\ length l1 = i /\ i + length l2 = j /\ slice l i j = Return l2.
Proof.
  intros Hi Hj. exists (take i l), (take (j - i) (drop i l)), (drop (j - i) (drop i l)).
  split_and!.
  - by rewrite !take_drop.
  - rewrite length_take. lia.
  - rewrite length_take, length_drop. lia.
  - unfold slice. by rewrite decide_True.
Qed.

Lemma array_from_length {n} l : length l = n -> exists v : vec byte n, array_from l = Some v /\ vec_to_list v = l.
Proof.
  intros Hl. unfold array_from. destruct (decide (length l = n)) as [H|H]; [|done].
  eexists; split; [done|]. destruct H. simpl. apply vec_to_list_to_vec.
Qed.

(** ** The mask *)

Lemma byte_xor_cancel a b : byte_xor (byte_xor a b) b = a.
Proof.
  apply byte_to_Z_inj. unfold byte_xor. rewrite !byte_to_of_Z.
  pose proof (byte_to_Z_range a). pose proof (byte_to_Z_range b).
  pose proof (lxor_range (byte_to_Z a) (byte_to_Z b) 8 ltac:(lia)) as Hx. change (2 ^ 8)%Z with 256%Z in Hx.
  rewrite (Z.mod_small (Z.lxor (byte_to_Z a) (byte_to_Z b))) by (apply Hx; done).
  rewrite Z.lxor_assoc, Z.lxor_nilpotent, Z.lxor_0_r. apply Z.mod_small. lia.
Qed.

Section Mask.
Context `{!Aes128Ctr}.

Lemma length_apply_keystream key nonce pos l : length (apply_keystream key nonce pos l) = length l.
Proof. apply length_imap. Qed.

Lemma apply_keystream_app key nonce pos l1 l2 :
  apply_keystream key nonce pos (l1 ++ l2) =
  apply_keystream key nonce pos l1 ++ apply_keystream key nonce (pos + length l1) l2.
Proof.
  unfold apply_keystream. rewrite imap_app. f_equal. apply imap_ext. intros i x _. simpl. do 2 f_equal. lia.
Qed.

Lemma apply_keystream_invol key nonce pos l :
  apply_keystream key nonce pos (apply_keystream key nonce pos l) = l.
Proof.
  apply list_eq. intros i. unfold apply_keystream. rewrite !list_lookup_imap.
  destruct (l !! i); simpl; [|done]. by rewrite byte_xor_cancel.
Qed.
End Mask.

(** ** Round trip *)

Section RoundTrip.
Context {Enr : Type} `{!EnrCodec Enr} `{!EnrCodecLaws Enr} `{!ProtocolIdentity} `{!Aes128Ctr}.
Implicit Types (p : Packet Enr) (k : PacketKind Enr).

(** What fits the fields of the encoding. *)
Definition kind_ok k : Prop :=
  match k with
  | Message _ => True
  | WhoAreYou _ enr_seq => (0 <= enr_seq < 2 ^ 64)%Z
  | Handshake _ id_nonce_sig ephem_pubkey _ => length id_nonce_sig < 256 /\ length ephem_pubkey < 256
  end.

Definition packet_ok p : Prop :=
  (0 <= iv p < 2 ^ 128)%Z /\ kind_ok (kind (header p)) /\
  (is_whoareyou p = true -> message p = []).

Lemma byte_size n : n < 256 -> Z.to_nat (byte_to_Z (byte_of_Z (Z.of_nat n))) = n.
Proof. intros Hn. rewrite byte_to_of_Z, Z.mod_small by lia. lia. Qed.

Lemma handshake_roundtrip src_id sig key record :
  length sig < 256 -> length key < 256 ->
  handshake_decode (kind_encode (Handshake src_id sig key record)) = Return (Handshake src_id sig key record).
Proof.
  intros Hs Hk. unfold handshake_decode. simpl kind_encode.
  set (bs := byte_of_Z (Z.of_nat (length sig))). set (bk := byte_of_Z (Z.of_nat (length key))).
  set (rest := default [] (enr_encode <$> record)).
  assert (Hl : length (vec_to_list src_id ++ bs :: bk :: sig ++ key ++ rest) =
    34 + length sig + length key + length rest).
  { rewrite length_app, length_vec_to_list. simpl. rewrite !length_app. lia. }
  rewrite Hl. rewrite decide_False by lia.
  rewrite slice_head by apply length_vec_to_list. step. rewrite node_id_parse_raw. step. unfold index.
  rewrite (lookup_app_r _ _ 32), (lookup_app_r _ _ (32 + 1)), length_vec_to_list
    by (rewrite length_vec_to_list; lia).
  change (32 - 32) with 0. change (32 + 1 - 32) with 1. cbn [lookup list_lookup]. step.
  unfold bs, bk. rewrite !byte_size by done. fold bs bk. rewrite decide_False by lia.
  change (vec_to_list src_id ++ bs :: bk :: sig ++ key ++ rest)
    with (vec_to_list src_id ++ [bs; bk] ++ sig ++ key ++ rest). rewrite app_assoc.
  rewrite slice_from_app by (rewrite length_app, length_vec_to_list; done). step.
  rewrite slice_head by done. step. rewrite slice_app by done. step.
  rewrite !length_app. unfold rest. destruct record as [e|]; cbn [fmap option_fmap option_map default].
  - pose proof (enr_encode_nonempty e). destruct (enr_encode e) as [|b l] eqn:Ee; [done|].
    rewrite decide_True by (simpl; lia). rewrite app_assoc.
    rewrite slice_from_app by (by rewrite length_app). step. unfold record_decode.
    rewrite <-Ee. unfold id. by rewrite enr_decode_encode.
  - by rewrite decide_False by (simpl; lia).
Qed.

Lemma kind_roundtrip k : kind_ok k -> kind_decode (kind_byte k) (kind_encode k) = Return k.
Proof.
  destruct k as [id|nonce seq|id sig key record]; intros Hok; unfold kind_decode; cbn [kind_byte].
  - change (byte_to_Z x00) with 0%Z. cbn [kind_encode]. unfold message_decode. rewrite length_vec_to_list.
    rewrite decide_False by auto. by rewrite node_id_parse_raw.
  - change (byte_to_Z x01) with 1%Z. cbn [kind_encode]. unfold whoareyou_decode.
    rewrite length_app, length_vec_to_list, length_to_be_bytes. rewrite decide_False by auto.
    rewrite slice_head by apply length_vec_to_list. step. rewrite array_from_vec. step.
    rewrite slice_from_app by apply length_vec_to_list. step.
    destruct (array_from_length (to_be_bytes 8 seq) (length_to_be_bytes 8 seq)) as (v & Hv & Hl).
    rewrite Hv. step. rewrite Hl. do 2 f_equal. by apply (from_to_be_bytes_small 8).
  - change (byte_to_Z x02) with 2%Z. destruct Hok. by apply handshake_roundtrip.
Qed.

(** The header before its authentication data. *)
Definition static_header (h : PacketHeader Enr) : list byte :=
  vec_to_list PROTOCOL_ID_BYTES ++ vec_to_list PROTOCOL_VERSION_BYTES ++ [kind_byte (kind h)] ++
  vec_to_list (message_nonce h) ++ to_be_bytes 2 (Z.of_nat (length (kind_encode (kind h)))).

Lemma header_encode_split h : header_encode h = static_header h ++ kind_encode (kind h).
Proof. unfold header_encode, static_header. by rewrite <-!app_assoc. Qed.

Lemma length_static_header h : length (static_header h) = STATIC_HEADER_LENGTH.
Proof. unfold static_header. by rewrite !length_app, !length_vec_to_list, length_to_be_bytes. Qed.

(** A packet on the wire: the IV, the masked static header, the masked
    authentication data, and the message. *)
Lemma encode_split p id :
  encode p id = to_be_bytes 16 (iv p) ++
    apply_keystream (mask_key id) (to_be_bytes 16 (iv p)) 0 (static_header (header p)) ++
    apply_keystream (mask_key id) (to_be_bytes 16 (iv p)) STATIC_HEADER_LENGTH (kind_encode (kind (header p))) ++
    message p.
Proof.
  unfold encode, encrypt_header. rewrite header_encode_split, apply_keystream_app, length_static_header.
  by rewrite <-!app_assoc.
Qed.

Lemma kind_encode_small k : 24 <= length (kind_encode k).
Proof.
  destruct k; simpl; rewrite ?length_app, length_vec_to_list; simpl; lia.
Qed.

(** The fields [decode] reads off a static header. *)
Lemma header_fields (pid : vec byte 6) (ver : vec byte 2) f (nonce : vec byte 12) (size : list byte) :
  let st := vec_to_list pid ++ vec_to_list ver ++ [f] ++ vec_to_list nonce ++ size in
  slice st 0 6 = Return (vec_to_list pid) /\ slice st 6 8 = Return (vec_to_list ver) /\
  index st 8 = Return f /\ slice st 9 (9 + MESSAGE_NONCE_LENGTH) = Return (vec_to_list nonce) /\
  slice_from st (STATIC_HEADER_LENGTH - 2) = Return size.
Proof.
  simpl. change (f :: ?l) with ([f] ++ l). split_and!.
  - apply slice_head, length_vec_to_list.
  - by apply slice_app; rewrite ?length_vec_to_list.
  - unfold index. rewrite app_assoc, lookup_app_r; rewrite length_app, !length_vec_to_list; [done|lia].
  - rewrite (app_assoc (vec_to_list pid)), (app_assoc _ [_]).
    by apply slice_app; rewrite ?length_app, ?length_vec_to_list.
  - rewrite (app_assoc (vec_to_list pid)), (app_assoc _ [_]), app_assoc.
    by apply slice_from_app; rewrite ?length_app, ?length_vec_to_list.
Qed.

Lemma static_header_fields h :
  let st := static_header h in
  slice st 0 6 = Return (vec_to_list PROTOCOL_ID_BYTES) /\
  slice st 6 8 = Return (vec_to_list PROTOCOL_VERSION_BYTES) /\
  index st 8 = Return (kind_byte (kind h)) /\
  slice st 9 (9 + MESSAGE_NONCE_LENGTH) = Return (vec_to_list (message_nonce h)) /\
  slice_from st (STATIC_HEADER_LENGTH - 2) = Return (to_be_bytes 2 (Z.of_nat (length (kind_encode (kind h))))).
Proof. apply header_fields. Qed.

Lemma size_field n :
  (Z.of_nat n < 2 ^ 16)%Z ->
  exists v : vec byte 2, array_from (to_be_bytes 2 (Z.of_nat n)) = Some v /\
    Z.to_nat (from_be_bytes (vec_to_list v)) = n.
Proof.
  intros Hn. destruct (array_from_length _ (length_to_be_bytes 2 (Z.of_nat n))) as (v & Hv & Hl).
  exists v. split; [done|]. rewrite Hl, from_to_be_bytes_small; [lia|].
  change (256 ^ Z.of_nat 2)%Z with (2 ^ 16)%Z. lia.
Qed.

(** ** What decoding accepts *)

Lemma node_id_parse_list l id : length l = 32 -> node_id_parse l = Some id -> vec_to_list id = l.
Proof.
  intros Hl. destruct (array_from_length l Hl) as (v & _ & <-). rewrite node_id_parse_raw. by intros [= ->].
Qed.

Lemma message_decode_sound auth :
  match message_decode auth with
  | Abort => False | Throw _ => True
  | Return k => kind_ok k /\ kind_byte k = x00 /\ kind_encode k = auth
  end.
Proof.
  unfold message_decode. destruct (decide _) as [Hl|Hl]; [done|].
  destruct (node_id_parse auth) as [id|] eqn:E; step; [|done].
  split_and!; [done..|]. apply node_id_parse_list; [lia|done].
Qed.

Lemma whoareyou_decode_sound auth :
  match whoareyou_decode auth with
  | Abort => False | Throw _ => True
  | Return k => kind_ok k /\ kind_byte k = x01 /\ kind_encode k = auth
  end.
Proof.
  unfold whoareyou_decode. destruct (decide _) as [Hl|Hl]; [done|].
  destruct (slice_ok auth 0 ID_NONCE_LENGTH) as (l1 & nonce & l2 & -> & H1 & H2 & ->);
    [unfold ID_NONCE_LENGTH; lia..|].
  apply nil_length_inv in H1 as ->. unfold ID_NONCE_LENGTH in *. simpl in H2. simpl app in *. step.
  rewrite length_app in Hl. destruct (array_from_length nonce H2) as (v & -> & <-). step.
  rewrite slice_from_app by apply length_vec_to_list. step.
  destruct (array_from_length (n := 8) l2) as (w & -> & <-); [lia|]. step.
  pose proof (from_be_bytes_range (vec_to_list w)) as Hr. rewrite length_vec_to_list in Hr.
  split_and!; [by cbn [kind_ok]|done|]. cbn [kind_encode]. f_equal.
  rewrite <-(to_from_be_bytes (vec_to_list w)) at 2. by rewrite length_vec_to_list.
Qed.

Definition has_record k : bool := match k with Handshake _ _ _ (Some _) => true | _ => false end.

(** A packet on the wire with the bytes [raw] for its record: bytes that the
    record is decoded from, which need not be its own encoding. *)
Definition record_bytes k (raw : list byte) : Prop :=
  match k with Handshake _ _ _ (Some e) => enr_decode raw = Ok e | _ => raw = [] end.

Definition auth_with k (raw : list byte) : list byte :=
  match k with
  | Handshake src_id sig pk _ =>
      vec_to_list src_id ++ to_be_bytes 1 (Z.of_nat (length sig)) ++ to_be_bytes 1 (Z.of_nat (length pk)) ++ sig ++ pk ++ raw
  | _ => kind_encode k
  end.

Definition header_with (h : PacketHeader Enr) (raw : list byte) : list byte :=
  vec_to_list PROTOCOL_ID_BYTES ++ vec_to_list PROTOCOL_VERSION_BYTES ++ [kind_byte (kind h)] ++
  vec_to_list (message_nonce h) ++ to_be_bytes 2 (Z.of_nat (length (auth_with (kind h) raw))) ++ auth_with (kind h) raw.

Definition encode_with p (raw : list byte) (dst_id : NodeId) : list byte :=
  to_be_bytes 16 (iv p) ++
  apply_keystream (mask_key dst_id) (to_be_bytes 16 (iv p)) 0 (header_with (header p) raw) ++ message p.

Definition authenticated_with p (raw : list byte) : list byte := to_be_bytes 16 (iv p) ++ header_with (header p) raw.

Lemma with_no_record p raw id :
  has_record (kind (header p)) = false -> record_bytes (kind (header p)) raw ->
  encode_with p raw id = encode p id /\ authenticated_with p raw = authenticated_data p.
Proof.
  intros Hn Hr. assert (auth_with (kind (header p)) raw = kind_encode (kind (header p))) as Ha.
  { destruct (kind (header p)) as [| |? ? ? []]; simpl in *; by subst. }
  unfold encode_with, authenticated_with, encode, encrypt_header, authenticated_data, header_with, header_encode. by rewrite Ha.
Qed.

Lemma byte_size_range b : Z.to_nat (byte_to_Z b) < 256.
Proof. pose proof (byte_to_Z_range b). lia. Qed.

Lemma byte_size_inv b : to_be_bytes 1 (Z.of_nat (Z.to_nat (byte_to_Z b))) = [b].
Proof. simpl. pose proof (byte_to_Z_range b). rewrite Z2Nat.id by lia. by rewrite byte_of_to_Z. Qed.

Lemma handshake_decode_sound auth :
  match handshake_decode auth with
  | Abort => False | Throw _ => True
  | Return k => kind_ok k /\ kind_byte k = x02 /\ exists raw, record_bytes k raw /\ auth_with k raw = auth
  end.
Proof.
  unfold handshake_decode. destruct (decide _) as [Hl|Hl]; [done|].
  destruct (slice_ok auth 0 32) as (l1 & idb & rest & -> & H1 & H2 & ->); [lia..|].
  apply nil_length_inv in H1 as ->. simpl in H2. simpl app in *. step.
  destruct (node_id_parse idb) as [id|] eqn:E; step; [|done].
  apply node_id_parse_list in E as <-; [|done]. rewrite length_app in Hl.
  destruct rest as [|bs [|bk rest]]; simpl in Hl; [lia..|]. unfold index.
  rewrite (lookup_app_r _ _ 32), (lookup_app_r _ _ (32 + 1)), length_vec_to_list
    by (rewrite length_vec_to_list; lia).
  change (32 - 32) with 0. change (32 + 1 - 32) with 1. cbn [lookup list_lookup]. step.
  destruct (decide _) as [Hlen|Hlen]; [done|]. rewrite length_app, length_vec_to_list in Hlen. simpl in Hlen.
  change (vec_to_list id ++ bs :: bk :: rest) with (vec_to_list id ++ [bs; bk] ++ rest). rewrite app_assoc.
  rewrite slice_from_app by (rewrite length_app, length_vec_to_list; done). step.
  pose proof (byte_size_range bs). pose proof (byte_size_range bk).
  pose proof (byte_size_inv bs) as Ebs. pose proof (byte_size_inv bk) as Ebk.
  set (ns := Z.to_nat (byte_to_Z bs)) in *. set (nk := Z.to_nat (byte_to_Z bk)) in *. clearbody ns nk.
  destruct (slice_ok rest 0 ns) as (l1 & sig & rest1 & -> & L1 & L2 & ->); [lia..|].
  apply nil_length_inv in L1 as ->. simpl in L2. simpl app in *. step. rewrite length_app in Hlen.
  destruct (slice_ok rest1 0 nk) as (l1 & key & rest2 & -> & L1 & L3 & _); [lia..|].
  apply nil_length_inv in L1 as ->. simpl in L3. simpl app in *.
  rewrite (slice_app sig key rest2) by lia. step. rewrite !length_app.
  destruct (decide _) as [Hrec|Hrec].
  - rewrite app_assoc, slice_from_app by (rewrite length_app; lia). step. unfold record_decode.
    destruct (enr_decode rest2) eqn:Ed; step; [|done]. split_and!; [cbn [kind_ok]; lia|done|]. exists rest2. split; [done|].
    cbn [auth_with]. rewrite L2, L3, Ebs, Ebk. by rewrite <-!app_assoc.
  - step. split_and!; [cbn [kind_ok]; lia|done|]. exists []. split; [done|]. cbn [auth_with].
    assert (rest2 = []) as -> by (apply nil_length_inv; lia). rewrite L2, L3, Ebs, Ebk. by rewrite <-!app_assoc.
Qed.

Lemma kind_decode_sound f auth :
  match kind_decode f auth with
  | Abort => False | Throw _ => True
  | Return k => kind_ok k /\ kind_byte k = f /\ exists raw, record_bytes k raw /\ auth_with k raw = auth
  end.
Proof.
  unfold kind_decode. destruct (byte_to_Z f) as [|[[]|[]|]|] eqn:Ef; try done.
  - assert (f = x00) as -> by (by apply byte_to_Z_inj).
    pose proof (message_decode_sound auth) as Hm. destruct (message_decode auth) as [k| |]; [|done..]. destruct Hm as (? & ? & Hk). split_and!; [done..|]. exists []. by destruct k.
  - assert (f = x02) as -> by (by apply byte_to_Z_inj). apply handshake_decode_sound.
  - assert (f = x01) as -> by (by apply byte_to_Z_inj).
    pose proof (whoareyou_decode_sound auth) as Hm. destruct (whoareyou_decode auth) as [k| |]; [|done..]. destruct Hm as (? & ? & Hk). split_and!; [done..|]. exists []. by destruct k.
Qed.

(** The static header seen by [decode]: what its fields hold and what it is. *)
Lemma static_header_split st :
  length st = STATIC_HEADER_LENGTH ->
  exists (pid : vec byte 6) (ver : vec byte 2) f (nonce : vec byte 12) (size : vec byte 2),
    st = vec_to_list pid ++ vec_to_list ver ++ [f] ++ vec_to_list nonce ++ vec_to_list size.
Proof.
  intros Hl. unfold STATIC_HEADER_LENGTH in Hl.
  destruct (array_from_length (n := 6) (take 6 st)) as (pid & _ & Hp); [rewrite length_take; lia|].
  destruct (array_from_length (n := 2) (take 2 (drop 6 st))) as (ver & _ & Hv);
    [rewrite length_take, length_drop; lia|].
  destruct (array_from_length (n := 12) (take 12 (drop 9 st))) as (nonce & _ & Hn);
    [rewrite length_take, length_drop; lia|].
  destruct (array_from_length (n := 2) (drop 21 st)) as (size & _ & Hs); [rewrite length_drop; lia|].
  destruct (lookup_lt_is_Some_2 st 8) as [f Hf]; [lia|].
  exists pid, ver, f, nonce, size. rewrite Hp, Hv, Hn, Hs.
  rewrite <-(take_drop 6 st) at 1. f_equal. rewrite <-(take_drop 2 (drop 6 st)) at 1. f_equal.
  rewrite drop_drop. cbn [Nat.add]. rewrite (drop_S st f 8 Hf). cbn [app]. f_equal.
  rewrite <-(take_drop 12 (drop 9 st)) at 1. f_equal. by rewrite drop_drop.
Qed.

(** The parts of a packet that is long enough. *)
Lemma wire_split (data : list byte) :
  MIN_PACKET_SIZE <= length data ->
  exists ivb mst rest, data = ivb ++ mst ++ rest /\ length ivb = IV_LENGTH /\ length mst = STATIC_HEADER_LENGTH.
Proof.
  unfold MIN_PACKET_SIZE, IV_LENGTH, STATIC_HEADER_LENGTH. intros Hmin.
  exists (take 16 data), (take 23 (drop 16 data)), (drop 23 (drop 16 data)).
  rewrite !take_drop, !length_take, length_drop. split; [done|]. lia.
Qed.

(** The packet that [decode] builds from the parts it has read has them as its encoding. *)
Lemma encode_canonical ivb f (nonce : vec byte 12) (size : vec byte 2) k raw auth msg id :
  length ivb = 16 -> kind_byte k = f -> auth_with k raw = auth ->
  Z.to_nat (from_be_bytes (vec_to_list size)) = length auth ->
  let p := mkPacket (from_be_bytes ivb) (mkHeader nonce k) msg in
  let st := vec_to_list PROTOCOL_ID_BYTES ++ vec_to_list PROTOCOL_VERSION_BYTES ++ [f] ++
            vec_to_list nonce ++ vec_to_list size in
  encode_with p raw id = ivb ++ apply_keystream (mask_key id) ivb 0 st ++
                apply_keystream (mask_key id) ivb STATIC_HEADER_LENGTH auth ++ msg /\
  authenticated_with p raw = ivb ++ st ++ auth.
Proof.
  intros Hiv <- <- Hsize p st.
  assert (Est : header_with (header p) raw = st ++ auth_with k raw).
  { unfold header_with, st, p. cbn [header kind message_nonce]. rewrite <-!app_assoc. do 5 f_equal. rewrite <-Hsize.
    pose proof (from_be_bytes_range (vec_to_list size)). rewrite Z2Nat.id by lia.
    rewrite <-(to_from_be_bytes (vec_to_list size)) at 2. by rewrite length_vec_to_list. }
  assert (Eiv : to_be_bytes 16 (iv p) = ivb).
  { unfold p. cbn [iv]. rewrite <-Hiv. apply to_from_be_bytes. }
  unfold encode_with, authenticated_with. rewrite Est, Eiv. split; [|done]. rewrite apply_keystream_app.
  assert (length st = STATIC_HEADER_LENGTH) as ->; [|by rewrite <-!app_assoc].
  unfold st. by rewrite !length_app, !length_vec_to_list.
Qed.
(** Decoding inverts encoding. *)
Lemma decode_encode p id :
  packet_ok p -> length (encode p id) <= MAX_PACKET_SIZE ->
  decode id (encode p id) = Return (p, authenticated_data p).
Proof.
  intros (Hiv & Hk & Hw) Hmax. unfold decode. rewrite decide_False by lia. rewrite encode_split in *.
  set (ivb := to_be_bytes 16 (iv p)) in *. assert (Livb : length ivb = 16) by apply length_to_be_bytes.
  set (auth := kind_encode (kind (header p))) in *.
  assert (Lauth : 24 <= length auth) by apply kind_encode_small.
  rewrite !length_app, !length_apply_keystream, length_static_header, Livb in Hmax.
  unfold MAX_PACKET_SIZE, STATIC_HEADER_LENGTH in Hmax.
  destruct (size_field (length auth)) as (v & F6 & F7); [lia|].
  destruct (static_header_fields (header p)) as (F1 & F2 & F3 & F4 & F5). fold auth in F5.
  rewrite decide_False by (rewrite !length_app, !length_apply_keystream, length_static_header, Livb;
    unfold MIN_PACKET_SIZE, IV_LENGTH, STATIC_HEADER_LENGTH; lia).
  rewrite slice_head by done. step.
  rewrite slice_app by (rewrite ?length_apply_keystream, ?length_static_header; done). step.
  rewrite apply_keystream_invol, length_static_header. rewrite decide_False by auto.
  rewrite F1. step. rewrite decide_False by auto. rewrite F2. step. rewrite decide_False by auto.
  rewrite F3. step. rewrite F4. step. rewrite array_from_vec. step. rewrite F5. step. rewrite F6. step.
  rewrite F7. rewrite (app_assoc ivb).
  assert (Lh : length (ivb ++ apply_keystream (mask_key id) ivb 0 (static_header (header p))) =
    IV_LENGTH + STATIC_HEADER_LENGTH) by (by rewrite length_app, length_apply_keystream, length_static_header, Livb).
  rewrite (slice_from_app _ _ _ Lh). step.
  rewrite decide_False by (rewrite length_app, length_apply_keystream; lia).
  rewrite (slice_app _ _ _ _ _ Lh) by (by rewrite length_apply_keystream). step.
  rewrite apply_keystream_invol. unfold auth. rewrite kind_roundtrip by done. step. fold auth.
  rewrite (app_assoc _ (apply_keystream _ _ STATIC_HEADER_LENGTH auth)), slice_from_app
    by (by rewrite length_app, length_apply_keystream, Lh). step.
  rewrite decide_False by (intros [Hm Hwk]; by apply Hm, Hw).
  destruct (array_from_length ivb Livb) as (w & -> & Hw'). step. rewrite Hw'. unfold ivb.
  rewrite from_to_be_bytes_small by done. unfold authenticated_data. rewrite header_encode_split.
  by destruct p as [i [n k] m].
Qed.
End RoundTrip.

(** C26: Decoding the encoding of a packet gives back the packet and its
    authenticated data, for any keystream of the header mask and any protocol
    identity: for packets whose fields fit (a 128-bit IV, a 64-bit sequence
    number, a signature and a key of at most 255 bytes, no message in a
    WHOAREYOU packet) and whose encoding is at most 1280 bytes long. *)
Theorem packet_roundtrip {Enr} `{!EnrCodec Enr} `{!EnrCodecLaws Enr} `{!ProtocolIdentity} `{!Aes128Ctr}
    (p : Packet Enr) (id : NodeId) :
  packet_ok p -> length (encode p id) <= MAX_PACKET_SIZE ->
  decode id (encode p id) = Return (p, authenticated_data p).
Proof. apply decode_encode. Qed.

(** What decoding accepts. *)
Lemma decode_sound {Enr} `{!EnrCodec Enr} `{!EnrCodecLaws Enr} `{!ProtocolIdentity} `{!Aes128Ctr}
    (id : NodeId) (data : list byte) :
  match decode (Enr := Enr) id data with
  | Abort => False
  | Throw _ => True
  | Return (p, ad) =>
      packet_ok p /\ length ad + length (message p) = length data /\
      (has_record (kind (header p)) = false -> encode p id = data /\ authenticated_data p = ad) /\
      exists raw, record_bytes (kind (header p)) raw /\ encode_with p raw id = data /\ authenticated_with p raw = ad
  end.
Proof.
  unfold decode. destruct (decide (MAX_PACKET_SIZE < length data)); [done|].
  destruct (decide _) as [|Hmin]; [done|].
  destruct (wire_split data) as (ivb & mst & rest' & -> & Livb & Lst); [lia|].
  rewrite slice_head by done. step. rewrite (slice_app ivb mst rest') by lia. step.
  set (st := apply_keystream (mask_key id) ivb 0 mst).
  assert (Hst : length st = STATIC_HEADER_LENGTH) by (unfold st; by rewrite length_apply_keystream).
  assert (Hmst : mst = apply_keystream (mask_key id) ivb 0 st) by (unfold st; by rewrite apply_keystream_invol).
  clearbody st. rewrite Hst. rewrite decide_False by auto.
  destruct (static_header_split st Hst) as (pid & ver & f & nonce & size & ->).
  destruct (header_fields pid ver f nonce (vec_to_list size)) as (F1 & F2 & F3 & F4 & F5).
  rewrite F1. step. destruct (decide _) as [|Hpid]; [done|].
  rewrite F2. step. destruct (decide (vec_to_list ver <> _)) as [|Hver]; [by rewrite array_from_vec|].
  rewrite F3. step. rewrite F4. step. rewrite array_from_vec. step. rewrite F5. step.
  rewrite array_from_vec. step. clear F1 F2 F3 F4 F5.
  assert (Lh : length (ivb ++ mst) = IV_LENGTH + STATIC_HEADER_LENGTH) by (rewrite length_app; lia).
  rewrite (app_assoc ivb mst), (slice_from_app _ _ _ Lh). step. destruct (decide _) as [|Hsize]; [done|].
  pose proof (from_be_bytes_range (vec_to_list size)) as Hrange.
  set (sz := Z.to_nat (from_be_bytes (vec_to_list size))) in *.
  destruct (slice_ok rest' 0 sz) as (l1 & mauth & msg & -> & L1 & Lauth & _); [lia..|].
  apply nil_length_inv in L1 as ->. simpl in Lauth. simpl app in *.
  rewrite (slice_app _ mauth msg _ _ Lh) by lia. step.
  set (auth := apply_keystream (mask_key id) ivb STATIC_HEADER_LENGTH mauth).
  pose proof (kind_decode_sound f auth) as Hkind.
  destruct (kind_decode f auth) as [k|e|]; step; [|done|done]. destruct Hkind as (Hkok & Hkb & raw & Hraw & Hke).
  rewrite (app_assoc _ mauth msg), slice_from_app by (rewrite length_app, Lh; lia). step.
  destruct (decide _) as [|Hwho]; [done|].
  destruct (array_from_length (n := 16) ivb Livb) as (w & -> & Hw). step. rewrite Hw.
  pose proof (from_be_bytes_range ivb) as Hiv. rewrite Livb in Hiv.
  match goal with |- _ /\ _ /\ (_ -> encode ?q _ = _ /\ _ = ?ad) /\ _ =>
    assert (encode_with q raw id = ((ivb ++ mst) ++ mauth) ++ msg /\ authenticated_with q raw = ad) as [E1 E2] end.
  { destruct (encode_canonical ivb f nonce size k raw auth msg id) as [E1 E2]; [done..|unfold auth; rewrite length_apply_keystream; lia|].
    apply dec_stable in Hpid, Hver. rewrite Hpid, Hver in *.
    split; [|exact E2]. etrans; [exact E1|]. rewrite Hmst. unfold auth. rewrite apply_keystream_invol.
    by rewrite <-!app_assoc. }
  split; [|split; [|split]].
  - split; [cbn [iv]; change (2 ^ 128)%Z with (256 ^ Z.of_nat IV_LENGTH)%Z; lia|]. split; [done|]. cbn [header kind message]. intros Hk.
    destruct (decide (msg = [])); [done|]. by destruct Hwho.
  - cbn [message]. rewrite !length_app in Hst. rewrite !length_app in Lh. rewrite !length_app.
    unfold auth. rewrite length_apply_keystream.
    unfold IV_LENGTH in *. lia.
  - intros Hrec. destruct (with_no_record _ raw id Hrec Hraw) as [<- <-]. by split.
  - exists raw. by split_and!.
Qed.

(** C27: No input makes decoding abort.  What it accepts has fields that fit,
    the authenticated data and the message are as long as the input, and the
    input is the encoding of the packet with the bytes the record was decoded
    from: those are the only freedom, so that without a record the input is the
    one encoding of the packet and the authenticated data are those of the packet. *)
Theorem packet_decode_sound {Enr} `{!EnrCodec Enr} `{!EnrCodecLaws Enr} `{!ProtocolIdentity} `{!Aes128Ctr}
    (id : NodeId) (data : list byte) :
  match decode (Enr := Enr) id data with
  | Abort => False
  | Throw _ => True
  | Return (p, ad) =>
      packet_ok p /\ length ad + length (message p) = length data /\
      (has_record (kind (header p)) = false -> encode p id = data /\ authenticated_data p = ad) /\
      exists raw, record_bytes (kind (header p)) raw /\ encode_with p raw id = data /\ authenticated_with p raw = ad
  end.
Proof. apply decode_sound. Qed.

(** ** An instance *)
Module PacketSample.

(** Records are byte strings, encoded with a leading marker. *)
#[export] Instance codec : EnrCodec (list byte) := {
  enr_encode e := x80 :: e;
  enr_decode l := match l with x80 :: e => Ok e | _ => Err RlpExpectedToBeList end;
  node_id_parse := array_from;
}.
#[export] Instance codec_laws : EnrCodecLaws (list byte).
Proof. split; [done|done|]. intros id. apply array_from_vec. Qed.

#[export] Instance cipher : Aes128Ctr := fun key nonce i =>
  byte_of_Z (from_be_bytes key + from_be_bytes nonce + Z.of_nat i).

#[export] Existing Instance DefaultProtocolId.

Definition sample_handshake : Packet (list byte) :=
  new_authheader 11 (vreplicate 32 x01) (vreplicate 12 x0c) (replicate 64 x05) (replicate 33 x06) (Some [x07]).
End PacketSample.
Import PacketSample.

Lemma packet_roundtrip_witness :
  decode (vreplicate 32 x02) (encode sample_handshake (vreplicate 32 x02)) =
  Return (sample_handshake, authenticated_data sample_handshake).
Proof.
  apply packet_roundtrip.
  - split; [by vm_compute|]. split; [|done]. cbn. lia.
  - apply Nat.leb_le. by vm_compute.
Defined.

(** A packet with a wrong protocol id is refused, the encoding of a WHOAREYOU
    packet is accepted. *)
Lemma packet_decode_sound_witness :
  let id := vreplicate 32 x02 in
  let p := new_whoareyou (Enr := list byte) 11 (vreplicate 12 x0c) (vreplicate 16 x03) 7 in
  match decode (Enr := list byte) id (encode p id) with
  | Return (q, ad) => q = p /\ packet_ok q /\ encode q id = encode p id
  | _ => False
  end.
Proof.
  intros id p. pose proof (packet_decode_sound (Enr := list byte) id (encode p id)) as H.
  assert (E : match decode (Enr := list byte) id (encode p id) with
              | Return (q, _) => q = p | _ => False end) by (by vm_compute).
  destruct (decode id (encode p id)) as [[q ad]|e|]; [|done|done]. subst q.
  split; [done|]. split; [apply H|]. apply H. by vm_compute.
Defined.
