(* ===== verification/NodeInfo.v ===== *)
(** * Contacts, addresses and IP modes (src/src/node_info.rs, ipmode.rs, socket/mod.rs)

    Keys and records belong to the [enr] and [k256] crates: [K256] has their
    types, and [EnrCrate] the accessors of a record and the node id of a public
    key.  [NodeContact] and [NodeAddress] are what the handler talks to. *)

From stdpp Require Import strings.
From S2P Require Import Prelude Bytes Key.

(** The key types of [k256] and [ed25519_dalek] behind [enr::CombinedKey]. *)
Class K256 := {
  SigningKey : Type;
  VerifyingKey : Type;
  Ed25519Key : Type;
  Ed25519PublicKey : Type;
}.

(** [enr::CombinedKey] and [enr::CombinedPublicKey]. *)
Inductive CombinedKey `{!K256} :=
  | Secp256k1 (key : SigningKey)
  | Ed25519 (key : Ed25519Key).
Inductive CombinedPublicKey `{!K256} :=
  | PubSecp256k1 (key : VerifyingKey)
  | PubEd25519 (key : Ed25519PublicKey).

Class EnrCrate (Enr : Type) `{!K256} := {
  enr_seq : Enr -> Z;
  enr_node_id : Enr -> NodeId;
  enr_public_key : Enr -> CombinedPublicKey;
  enr_udp4_socket : Enr -> option SocketAddrV4;
  enr_udp6_socket : Enr -> option SocketAddrV6;
  public_key_node_id : CombinedPublicKey -> NodeId;
}.

(** The node id of a record is that of its public key. *)
Class EnrCrateLaws (Enr : Type) `{!K256} `{!EnrCrate Enr} :=
  enr_node_id_key (e : Enr) : enr_node_id e = public_key_node_id (enr_public_key e).

(** ** Listening sockets (socket/mod.rs) *)
Module ListenConfig.

Inductive ListenConfig :=
  | Ipv4 (ip : Ipv4Addr) (port : Z)
  | Ipv6 (ip : Ipv6Addr) (port : Z)
  | DualStack (ipv4 : Ipv4Addr) (ipv4_port : Z) (ipv6 : Ipv6Addr) (ipv6_port : Z).

Definition from_ip (ip : IpAddr) (port : Z) : ListenConfig :=
  match ip with V4 ip => Ipv4 ip port | V6 ip => Ipv6 ip port end.

Definition from_two_sockets (ipv4 : option SocketAddrV4) (ipv6 : option SocketAddrV6) : outcome ListenConfig :=
  match ipv4, ipv6 with
  | Some ipv4, None => Ret (Ipv4 (v4_ip ipv4) (v4_port ipv4))
  | None, Some ipv6 => Ret (Ipv6 (v6_ip ipv6) (v6_port ipv6))
  | Some ipv4, Some ipv6 => Ret (DualStack (v4_ip ipv4) (v4_port ipv4) (v6_ip ipv6) (v6_port ipv6))
  | None, None => Panic
  end.

Definition with_ipv4 (self : ListenConfig) (ip : Ipv4Addr) (port : Z) : ListenConfig :=
  match self with
  | Ipv4 _ _ => Ipv4 ip port
  | Ipv6 ipv6 ipv6_port => DualStack ip port ipv6 ipv6_port
  | DualStack _ _ ipv6 ipv6_port => DualStack ip port ipv6 ipv6_port
  end.

Definition with_ipv6 (self : ListenConfig) (ip : Ipv6Addr) (port : Z) : ListenConfig :=
  match self with
  | Ipv6 _ _ => Ipv6 ip port
  | Ipv4 ipv4 ipv4_port => DualStack ipv4 ipv4_port ip port
  | DualStack ipv4 ipv4_port _ _ => DualStack ipv4 ipv4_port ip port
  end.

(** [From<SocketAddr>] and [Default]. *)
Definition from_socket_addr (a : SocketAddr) : ListenConfig :=
  match a with
  | SockV4 a => Ipv4 (v4_ip a) (v4_port a)
  | SockV6 a => Ipv6 (v6_ip a) (v6_port a)
  end.

Definition default : ListenConfig := Ipv4 (vreplicate 4 x00) 9000.

(** The sockets a configuration listens on, as collected by [Handler::spawn]. *)
Definition listen_sockets (c : ListenConfig) : list SocketAddr :=
  match c with
  | Ipv4 ip port => [SockV4 (mkSocketAddrV4 ip port)]
  | Ipv6 ip port => [SockV6 (mkSocketAddrV6 ip port 0 0)]
  | DualStack ipv4 ipv4_port ipv6 ipv6_port =>
      [SockV4 (mkSocketAddrV4 ipv4 ipv4_port); SockV6 (mkSocketAddrV6 ipv6 ipv6_port 0 0)]
  end.
End ListenConfig.

(** ** IP modes (ipmode.rs) *)
Module IpMode.

Inductive IpMode := Ip4 | Ip6 | DualStack.

Definition new_from_listen_config (c : ListenConfig.ListenConfig) : IpMode :=
  match c with
  | ListenConfig.Ipv4 _ _ => Ip4
  | ListenConfig.Ipv6 _ _ => Ip6
  | ListenConfig.DualStack _ _ _ _ => DualStack
  end.

Definition is_ipv4 (self : IpMode) : bool := match self with Ip4 => true | _ => false end.

Definition to_ipv4_mapped (ip : Ipv6Addr) : option Ipv4Addr :=
  if decide (take 12 (vec_to_list ip) = replicate 10 x00 ++ [xff; xff])
  then Some [# ip !!! 12%fin; ip !!! 13%fin; ip !!! 14%fin; ip !!! 15%fin]
  else None.

Section IpMode.
Context {Enr : Type} `{!K256} `{!EnrCrate Enr}.

Definition canonical_ipv6_enr_addr (enr : Enr) : option SocketAddrV6 :=
  socket_addr ← enr_udp6_socket enr;
  match to_ipv4_mapped (v6_ip socket_addr) with
  | Some _ => None
  | None => Some socket_addr
  end.

Definition get_contactable_addr (self : IpMode) (enr : Enr) : option SocketAddr :=
  match self with
  | Ip4 => SockV4 <$> enr_udp4_socket enr
  | Ip6 => SockV6 <$> canonical_ipv6_enr_addr enr
  | DualStack =>
      match SockV6 <$> canonical_ipv6_enr_addr enr with
      | Some a => Some a
      | None => SockV4 <$> enr_udp4_socket enr
      end
  end.
End IpMode.
End IpMode.

(** ** Addresses and contacts (node_info.rs) *)
Module NodeInfo.

Record NodeAddress := mkNodeAddress { socket_addr : SocketAddr; node_id : NodeId }.

#[export] Instance NodeAddress_eq_dec : EqDecision NodeAddress.
Proof. solve_decision. Defined.
#[export] Program Instance NodeAddress_countable : Countable NodeAddress :=
  inj_countable' (fun a => (socket_addr a, node_id a)) (fun p => mkNodeAddress p.1 p.2) _.
Next Obligation. by intros []. Qed.

Record NodeContact (Enr : Type) `{!K256} := mkContact {
  contact_public_key : CombinedPublicKey;
  contact_socket_addr : SocketAddr;
  contact_enr : option Enr;
}.
Arguments mkContact {Enr _} contact_public_key contact_socket_addr contact_enr.
Arguments contact_public_key {Enr _} c : rename.
Arguments contact_socket_addr {Enr _} c : rename.
Arguments contact_enr {Enr _} c : rename.

Section NodeContact.
Context {Enr : Type} `{!K256} `{!EnrCrate Enr}.

Definition contact_node_id (c : NodeContact Enr) : NodeId := public_key_node_id (contact_public_key c).

Definition seq_no (c : NodeContact Enr) : option Z := enr_seq <$> contact_enr c.

Definition node_address (c : NodeContact Enr) : NodeAddress :=
  mkNodeAddress (contact_socket_addr c) (contact_node_id c).

Definition to_address_and_enr (c : NodeContact Enr) : NodeAddress * option Enr :=
  (mkNodeAddress (contact_socket_addr c) (public_key_node_id (contact_public_key c)), contact_enr c).

(** [NodeContact::try_from_enr]; the error is the record. *)
Definition try_from_enr (enr : Enr) (ip_mode : IpMode.IpMode) : result Enr (NodeContact Enr) :=
  match IpMode.get_contactable_addr ip_mode enr with
  | Some socket_addr => Ok (mkContact (enr_public_key enr) socket_addr (Some enr))
  | None => Err enr
  end.
End NodeContact.

(** [Ord::cmp] of addresses: the id, then the IP address (IPv4 first), then the port. *)
Definition ip_cmp (a b : IpAddr) : comparison :=
  match a, b with
  | V4 a, V4 b => Z.compare (from_be_bytes (vec_to_list a)) (from_be_bytes (vec_to_list b))
  | V4 _, V6 _ => Lt
  | V6 _, V4 _ => Gt
  | V6 a, V6 b => Z.compare (from_be_bytes (vec_to_list a)) (from_be_bytes (vec_to_list b))
  end.

Definition cmp (self other : NodeAddress) : comparison :=
  match Z.compare (from_be_bytes (vec_to_list (node_id self))) (from_be_bytes (vec_to_list (node_id other))) with
  | Eq =>
      match ip_cmp (SocketAddr.ip (socket_addr self)) (SocketAddr.ip (socket_addr other)) with
      | Eq => Z.compare (SocketAddr.port (socket_addr self)) (SocketAddr.port (socket_addr other))
      | ord => ord
      end
  | ord => ord
  end.
End NodeInfo.

(** ** Multiaddresses (the [libp2p] feature of node_info.rs)

    A multiaddress is the list of the protocols it iterates over; the decoding of
    keys belongs to [libp2p_core] and to the crates behind [enr]. *)
Module Multiaddr.
Import NodeInfo.

Inductive Protocol :=
  | Udp (port : Z)
  | Ip4 (addr : Ipv4Addr)
  | Ip6 (addr : Ipv6Addr)
  | P2p (peer_id : list byte)
  | OtherProtocol.

(** A [libp2p] public key by its type, as the bytes the conversion passes on. *)
Inductive PublicKey :=
  | KeySecp256k1 (uncompressed : list byte)
  | KeyEd25519 (bytes : list byte)
  | KeyOther.

Class Libp2p `{!K256} := {
  try_decode_protobuf : list byte -> option PublicKey;
  secp256k1_from_sec1_bytes : list byte -> option VerifyingKey;
  ed25519_from_bytes : list byte -> option Ed25519PublicKey;
}.

(** The pass over the protocols: the last address, port and peer id. *)
Definition fill (acc : option IpAddr * option Z * option (list byte)) (protocol : Protocol)
    : option IpAddr * option Z * option (list byte) :=
  let '(ip_addr, udp_port, p2p) := acc in
  match protocol with
  | Udp port => (ip_addr, Some port, p2p)
  | Ip4 addr => (Some (V4 addr), udp_port, p2p)
  | Ip6 addr => (Some (V6 addr), udp_port, p2p)
  | P2p peer_id => (ip_addr, udp_port, Some peer_id)
  | OtherProtocol => acc
  end.

Section Multiaddr.
Context {Enr : Type} `{!K256} `{!Libp2p}.

Definition convert_key (peer_id : list byte) : outcome (result string CombinedPublicKey) :=
  if decide (length peer_id < 2) then Panic
  else
    match try_decode_protobuf (drop 2 peer_id) with
    | None => Ret (Err "Invalid public key"%string)
    | Some (KeySecp256k1 b) => pk ← unwrap (secp256k1_from_sec1_bytes b); Ret (Ok (PubSecp256k1 pk))
    | Some (KeyEd25519 b) => pk ← unwrap (ed25519_from_bytes b); Ret (Ok (PubEd25519 pk))
    | Some KeyOther => Ret (Err "The key type is not supported"%string)
    end.

Definition try_from_multiaddr (multiaddr : list Protocol) : outcome (result string (NodeContact Enr)) :=
  let '(ip_addr, udp_port, p2p) := foldl fill (None, None, None) multiaddr in
  match udp_port, ip_addr, p2p with
  | None, _, _ => Ret (Err "A UDP port must be specified in the multiaddr"%string)
  | _, None, _ => Ret (Err "An IP address must be specified in the multiaddr"%string)
  | _, _, None => Ret (Err "The p2p protocol must be specified in the multiaddr"%string)
  | Some udp_port, Some ip_addr, Some peer_id =>
      key ← convert_key peer_id;
      Ret (match key with
           | Ok public_key => Ok (mkContact public_key (SocketAddr.new ip_addr udp_port) None)
           | Err e => Err e
           end)
  end.
End Multiaddr.
End Multiaddr.
