(* ===== verification/Crypto.v ===== *)
(** * Key agreement and message encryption (src/src/handler/crypto)

    The derivation of session keys, the identity signature and the message
    encryption, over the primitives of [k256], [hkdf] and [aes_gcm], which are
    the class [Primitives]; [PrimitiveLaws] states what these promise.  The
    ephemeral key is an argument. *)

From stdpp Require Import strings.
From Stdlib Require Import Strings.String.
From S2P Require Import Prelude Bytes Key Rpc Packet NodeInfo.
Import NodeInfo.

(** Elliptic-curve points, signatures over SHA-256, HKDF-SHA256 and AES-128-GCM. *)
Class Primitives `{!K256} := {
  Signature : Type;
  verifying_key : SigningKey -> VerifyingKey;
  to_sec1_bytes : VerifyingKey -> list byte;
  from_sec1_bytes : list byte -> option VerifyingKey;
  scalar_mul : VerifyingKey -> SigningKey -> VerifyingKey;
  to_compressed_point : VerifyingKey -> list byte;
  try_sign_sha256 : SigningKey -> list byte -> option Signature;
  verify_sha256 : VerifyingKey -> list byte -> Signature -> bool;
  signature_to_vec : Signature -> list byte;
  signature_try_from : list byte -> option Signature;
  hkdf_expand : list byte -> list byte -> list byte -> nat -> option (list byte);
  gcm_encrypt : list byte -> list byte -> list byte -> list byte -> option (list byte);
  gcm_decrypt : list byte -> list byte -> list byte -> list byte -> option (list byte);
}.

Class PrimitiveLaws `{!K256} `{!Primitives} := {
  scalar_mul_comm a b : scalar_mul (verifying_key a) b = scalar_mul (verifying_key b) a;
  from_to_sec1_bytes k : from_sec1_bytes (to_sec1_bytes k) = Some k;
  verify_sign k m s : try_sign_sha256 k m = Some s -> verify_sha256 (verifying_key k) m s = true;
  signature_from_to_vec s : signature_try_from (signature_to_vec s) = Some s;
  gcm_decrypt_encrypt k n m a c : gcm_encrypt k n m a = Some c ->
    gcm_decrypt k n c a = Some m /\ length c = length m + 16;
}.

Module Crypto.

Definition NODE_ID_LENGTH : nat := 32.
Definition KEY_LENGTH : nat := 16.
Definition KEY_AGREEMENT_STRING : string := "discovery v5 key agreement".
Definition ID_SIGNATURE_TEXT : string := "discovery v5 identity proof".

(** [str::as_bytes]. *)
Definition as_bytes (s : string) : list byte := list_byte_of_string s.

(** The [Error]s of this module (error.rs). *)
Inductive CryptoError :=
  | KeyTypeNotSupported (msg : string)
  | KeyDerivationFailed
  | InvalidRemotePublicKey
  | DecryptionFailed (msg : string)
  | SigningFailed.

Notation ChallengeData := (vec byte 63).
Notation MessageNonce := (vec byte 12).

Section Crypto.
Context {Enr : Type} `{!K256} `{!EnrCrate Enr} `{!Primitives}.

(** [ecdh]: the compressed product of the public point and the secret scalar. *)
Definition ecdh (public_key : VerifyingKey) (secret_key : SigningKey) : list byte :=
  to_compressed_point (scalar_mul public_key secret_key).

Definition derive_key (secret : list byte) (first_id second_id : NodeId) (challenge_data : ChallengeData)
    : result CryptoError (list byte * list byte) :=
  let info := as_bytes KEY_AGREEMENT_STRING ++ vec_to_list first_id ++ vec_to_list second_id in
  match hkdf_expand (vec_to_list challenge_data) secret info (2 * KEY_LENGTH) with
  | None => Err KeyDerivationFailed
  | Some okm => Ok (take KEY_LENGTH okm, take KEY_LENGTH (drop KEY_LENGTH okm))
  end.

Definition generate_session_keys (ephem_sk : SigningKey) (local_id : NodeId) (contact : NodeContact Enr)
    (challenge_data : ChallengeData) : result CryptoError (list byte * list byte * list byte) :=
  match contact_public_key contact with
  | PubSecp256k1 remote_pk =>
      let secret := ecdh remote_pk ephem_sk in
      let ephem_pk := to_sec1_bytes (verifying_key ephem_sk) in
      '(initiator_key, recipient_key) ← derive_key secret local_id (contact_node_id contact) challenge_data;
      Ok (initiator_key, recipient_key, ephem_pk)
  | PubEd25519 _ => Err (KeyTypeNotSupported "Ed25519")
  end.

Definition derive_keys_from_pubkey (local_key : CombinedKey) (local_id remote_id : NodeId)
    (challenge_data : ChallengeData) (ephem_pubkey : list byte) : result CryptoError (list byte * list byte) :=
  match local_key with
  | Secp256k1 key =>
      match from_sec1_bytes ephem_pubkey with
      | None => Err InvalidRemotePublicKey
      | Some remote_pubkey => derive_key (ecdh remote_pubkey key) remote_id local_id challenge_data
      end
  | Ed25519 _ => Err (KeyTypeNotSupported "Ed25519")
  end.

Definition generate_signing_nonce (challenge_data : ChallengeData) (ephem_pubkey : list byte) (dst_id : NodeId)
    : list byte :=
  as_bytes ID_SIGNATURE_TEXT ++ vec_to_list challenge_data ++ ephem_pubkey ++ vec_to_list dst_id.

Definition sign_nonce (signing_key : CombinedKey) (challenge_data : ChallengeData) (ephem_pubkey : list byte)
    (dst_id : NodeId) : result CryptoError (list byte) :=
  let signing_message := generate_signing_nonce challenge_data ephem_pubkey dst_id in
  match signing_key with
  | Secp256k1 key =>
      match try_sign_sha256 key signing_message with
      | Some signature => Ok (signature_to_vec signature)
      | None => Err SigningFailed
      end
  | Ed25519 _ => Err (KeyTypeNotSupported "Ed25519")
  end.

Definition verify_authentication_nonce (remote_pubkey : CombinedPublicKey) (remote_ephem_pubkey : list byte)
    (challenge_data : ChallengeData) (dst_id : NodeId) (sig : list byte) : bool :=
  let signing_nonce := generate_signing_nonce challenge_data remote_ephem_pubkey dst_id in
  match remote_pubkey with
  | PubSecp256k1 key =>
      match signature_try_from sig with
      | Some sig => verify_sha256 key signing_nonce sig
      | None => false
      end
  | PubEd25519 _ => false
  end.

Definition decrypt_message (key : list byte) (message_nonce : MessageNonce) (msg aad : list byte)
    : result CryptoError (list byte) :=
  if decide (length msg < 16) then Err (DecryptionFailed "Message not long enough to contain a MAC")
  else
    match gcm_decrypt key (vec_to_list message_nonce) msg aad with
    | Some m => Ok m
    | None => Err (DecryptionFailed "aead::Error")
    end.

Definition encrypt_message (key : list byte) (message_nonce : MessageNonce) (msg aad : list byte)
    : result CryptoError (list byte) :=
  match gcm_encrypt key (vec_to_list message_nonce) msg aad with
  | Some c => Ok c
  | None => Err (DecryptionFailed "aead::Error")
  end.
End Crypto.
End Crypto.
