(* ===== verification/CryptoSample.v ===== *)
(** * Instances of the cryptographic interfaces

    [CryptoSample]: keys are bytes, the group is XOR, a signature is the key and
    the message, a ciphertext is the plaintext and a tag of the key, the nonce
    and the additional data.  It is not secure: it shows that the laws the
    session and handler theorems assume can be implemented.  A record is a byte
    string: its key, its sequence number, the last byte of its IPv4 address, if
    any.

    [Aes]: AES-128 (FIPS 197), its counter mode and GCM (SP 800-38D).  [Sha256]:
    SHA-256 (FIPS 180-4), HMAC (RFC 2104) and HKDF (RFC 5869).  They are the
    primitives behind the reference vectors of the unit tests. *)

From S2P Require Import Prelude Bytes Key Packet NodeInfo Crypto.

Module CryptoSample.

#[export] Instance sample_k256 : K256 := {|
  SigningKey := byte; VerifyingKey := byte; Ed25519Key := unit; Ed25519PublicKey := unit;
|}.

Definition key_id (k : CombinedPublicKey) : NodeId :=
  match k with PubSecp256k1 k => vreplicate 32 k | PubEd25519 _ => vreplicate 32 xff end.

#[export] Instance sample_enr : EnrCrate (list byte) := {|
  enr_seq e := byte_to_Z (nth 1 e x00);
  enr_node_id e := key_id (PubSecp256k1 (nth 0 e x00));
  enr_public_key e := PubSecp256k1 (nth 0 e x00);
  enr_udp4_socket e := (fun b => mkSocketAddrV4 [# x7f; x00; x00; b] 9000) <$> (e !! 2);
  enr_udp6_socket _ := None;
  public_key_node_id := key_id;
|}.

#[export] Instance sample_enr_laws : EnrCrateLaws (list byte).
Proof. done. Qed.

Definition xor_byte (a b : byte) : byte := byte_of_Z (Z.lxor (byte_to_Z a) (byte_to_Z b)).

(** The tag of a ciphertext. *)
Definition tag (key nonce aad : list byte) : list byte :=
  take 16 (take 4 key ++ take 4 (rev nonce) ++ take 8 aad ++ replicate 16 x00).

#[global] Arguments tag : simpl never.

#[export] Instance sample_primitives : Primitives := {|
  Signature := byte * list byte;
  verifying_key k := k;
  to_sec1_bytes k := [x02; k];
  from_sec1_bytes l := match l with [x02; k] => Some k | _ => None end;
  scalar_mul := xor_byte;
  to_compressed_point k := [x02; k];
  try_sign_sha256 k m := Some (k, m);
  verify_sha256 k m s := bool_decide (s = (k, m));
  signature_to_vec s := fst s :: snd s;
  signature_try_from l := match l with k :: m => Some (k, m) | [] => None end;
  hkdf_expand salt ikm info n := Some (take n (ikm ++ drop 40 info ++ salt ++ replicate n x00));
  gcm_encrypt key nonce m aad := Some (m ++ tag key nonce aad);
  gcm_decrypt key nonce c aad :=
    if decide (drop (length c - 16) c = tag key nonce aad)
    then Some (take (length c - 16) c) else None;
|}.

#[export] Instance sample_laws : PrimitiveLaws.
Proof.
  split; simpl.
  - intros a b. unfold xor_byte. by rewrite Z.lxor_comm.
  - done.
  - intros k m s [= <-]. by apply bool_decide_eq_true.
  - by intros [].
  - intros k n m a c [= <-].
    assert (length (tag k n a) = 16) as Ht by (unfold tag; rewrite length_take, !length_app, length_replicate; lia).
    rewrite length_app, Ht. replace (length m + 16 - 16) with (length m) by lia.
    by rewrite drop_app_length, take_app_length, decide_True by done.
Qed.
End CryptoSample.

Module Aes.

(** ** Bytes as polynomials *)

Definition bxor (a b : byte) : byte :=
  let '(a0, (a1, (a2, (a3, (a4, (a5, (a6, a7))))))) := Byte.to_bits a in
  let '(b0, (b1, (b2, (b3, (b4, (b5, (b6, b7))))))) := Byte.to_bits b in
  Byte.of_bits (xorb a0 b0, (xorb a1 b1, (xorb a2 b2, (xorb a3 b3, (xorb a4 b4, (xorb a5 b5, (xorb a6 b6, xorb a7 b7))))))).

(** Multiplication by x modulo x^8 + x^4 + x^3 + x + 1. *)
Definition xtime (a : byte) : byte :=
  let '(a0, (a1, (a2, (a3, (a4, (a5, (a6, a7))))))) := Byte.to_bits a in
  Byte.of_bits (a7, (xorb a0 a7, (a1, (xorb a2 a7, (xorb a3 a7, (a4, (a5, a6))))))).

Fixpoint xor_list (a b : list byte) : list byte :=
  match a, b with
  | x :: a, y :: b => bxor x y :: xor_list a b
  | _, _ => []
  end.

Definition sbox (b : byte) : byte :=
  match b with
  | x00 => x63 | x01 => x7c | x02 => x77 | x03 => x7b | x04 => xf2 | x05 => x6b | x06 => x6f | x07 => xc5
  | x08 => x30 | x09 => x01 | x0a => x67 | x0b => x2b | x0c => xfe | x0d => xd7 | x0e => xab | x0f => x76
  | x10 => xca | x11 => x82 | x12 => xc9 | x13 => x7d | x14 => xfa | x15 => x59 | x16 => x47 | x17 => xf0
  | x18 => xad | x19 => xd4 | x1a => xa2 | x1b => xaf | x1c => x9c | x1d => xa4 | x1e => x72 | x1f => xc0
  | x20 => xb7 | x21 => xfd | x22 => x93 | x23 => x26 | x24 => x36 | x25 => x3f | x26 => xf7 | x27 => xcc
  | x28 => x34 | x29 => xa5 | x2a => xe5 | x2b => xf1 | x2c => x71 | x2d => xd8 | x2e => x31 | x2f => x15
  | x30 => x04 | x31 => xc7 | x32 => x23 | x33 => xc3 | x34 => x18 | x35 => x96 | x36 => x05 | x37 => x9a
  | x38 => x07 | x39 => x12 | x3a => x80 | x3b => xe2 | x3c => xeb | x3d => x27 | x3e => xb2 | x3f => x75
  | x40 => x09 | x41 => x83 | x42 => x2c | x43 => x1a | x44 => x1b | x45 => x6e | x46 => x5a | x47 => xa0
  | x48 => x52 | x49 => x3b | x4a => xd6 | x4b => xb3 | x4c => x29 | x4d => xe3 | x4e => x2f | x4f => x84
  | x50 => x53 | x51 => xd1 | x52 => x00 | x53 => xed | x54 => x20 | x55 => xfc | x56 => xb1 | x57 => x5b
  | x58 => x6a | x59 => xcb | x5a => xbe | x5b => x39 | x5c => x4a | x5d => x4c | x5e => x58 | x5f => xcf
  | x60 => xd0 | x61 => xef | x62 => xaa | x63 => xfb | x64 => x43 | x65 => x4d | x66 => x33 | x67 => x85
  | x68 => x45 | x69 => xf9 | x6a => x02 | x6b => x7f | x6c => x50 | x6d => x3c | x6e => x9f | x6f => xa8
  | x70 => x51 | x71 => xa3 | x72 => x40 | x73 => x8f | x74 => x92 | x75 => x9d | x76 => x38 | x77 => xf5
  | x78 => xbc | x79 => xb6 | x7a => xda | x7b => x21 | x7c => x10 | x7d => xff | x7e => xf3 | x7f => xd2
  | x80 => xcd | x81 => x0c | x82 => x13 | x83 => xec | x84 => x5f | x85 => x97 | x86 => x44 | x87 => x17
  | x88 => xc4 | x89 => xa7 | x8a => x7e | x8b => x3d | x8c => x64 | x8d => x5d | x8e => x19 | x8f => x73
  | x90 => x60 | x91 => x81 | x92 => x4f | x93 => xdc | x94 => x22 | x95 => x2a | x96 => x90 | x97 => x88
  | x98 => x46 | x99 => xee | x9a => xb8 | x9b => x14 | x9c => xde | x9d => x5e | x9e => x0b | x9f => xdb
  | xa0 => xe0 | xa1 => x32 | xa2 => x3a | xa3 => x0a | xa4 => x49 | xa5 => x06 | xa6 => x24 | xa7 => x5c
  | xa8 => xc2 | xa9 => xd3 | xaa => xac | xab => x62 | xac => x91 | xad => x95 | xae => xe4 | xaf => x79
  | xb0 => xe7 | xb1 => xc8 | xb2 => x37 | xb3 => x6d | xb4 => x8d | xb5 => xd5 | xb6 => x4e | xb7 => xa9
  | xb8 => x6c | xb9 => x56 | xba => xf4 | xbb => xea | xbc => x65 | xbd => x7a | xbe => xae | xbf => x08
  | xc0 => xba | xc1 => x78 | xc2 => x25 | xc3 => x2e | xc4 => x1c | xc5 => xa6 | xc6 => xb4 | xc7 => xc6
  | xc8 => xe8 | xc9 => xdd | xca => x74 | xcb => x1f | xcc => x4b | xcd => xbd | xce => x8b | xcf => x8a
  | xd0 => x70 | xd1 => x3e | xd2 => xb5 | xd3 => x66 | xd4 => x48 | xd5 => x03 | xd6 => xf6 | xd7 => x0e
  | xd8 => x61 | xd9 => x35 | xda => x57 | xdb => xb9 | xdc => x86 | xdd => xc1 | xde => x1d | xdf => x9e
  | xe0 => xe1 | xe1 => xf8 | xe2 => x98 | xe3 => x11 | xe4 => x69 | xe5 => xd9 | xe6 => x8e | xe7 => x94
  | xe8 => x9b | xe9 => x1e | xea => x87 | xeb => xe9 | xec => xce | xed => x55 | xee => x28 | xef => xdf
  | xf0 => x8c | xf1 => xa1 | xf2 => x89 | xf3 => x0d | xf4 => xbf | xf5 => xe6 | xf6 => x42 | xf7 => x68
  | xf8 => x41 | xf9 => x99 | xfa => x2d | xfb => x0f | xfc => xb0 | xfd => x54 | xfe => xbb | xff => x16
  end.

(** ** The block cipher; a state is 16 bytes, column by column *)

Definition shift_rows (s : list byte) : list byte :=
  match s with
  | [s0; s1; s2; s3; s4; s5; s6; s7; s8; s9; s10; s11; s12; s13; s14; s15] =>
      [s0; s5; s10; s15; s4; s9; s14; s3; s8; s13; s2; s7; s12; s1; s6; s11]
  | _ => s
  end.

Fixpoint mix_columns (s : list byte) : list byte :=
  match s with
  | a :: b :: c :: d :: s =>
      let e := bxor (bxor a b) (bxor c d) in
      bxor (bxor a e) (xtime (bxor a b)) :: bxor (bxor b e) (xtime (bxor b c)) ::
      bxor (bxor c e) (xtime (bxor c d)) :: bxor (bxor d e) (xtime (bxor d a)) :: mix_columns s
  | _ => []
  end.

(** The next round key. *)
Definition expand (rcon : byte) (k : list byte) : list byte :=
  match k with
  | [k0; k1; k2; k3; k4; k5; k6; k7; k8; k9; k10; k11; k12; k13; k14; k15] =>
      let w0 := xor_list [k0; k1; k2; k3] [bxor (sbox k13) rcon; sbox k14; sbox k15; sbox k12] in
      let w1 := xor_list [k4; k5; k6; k7] w0 in
      let w2 := xor_list [k8; k9; k10; k11] w1 in
      w0 ++ w1 ++ w2 ++ xor_list [k12; k13; k14; k15] w2
  | _ => k
  end.

(** The rounds after the first key; the last one does not mix columns. *)
Fixpoint rounds (rcons : list byte) (k s : list byte) : list byte :=
  match rcons with
  | [] => s
  | rcon :: rcons =>
      let k := expand rcon k in
      let s := shift_rows (map sbox s) in
      let s := match rcons with [] => s | _ => mix_columns s end in
      rounds rcons k (xor_list s k)
  end.

Definition encrypt_block (key block : list byte) : list byte :=
  rounds [x01; x02; x04; x08; x10; x20; x40; x80; x1b; x36] key (xor_list block key).

(** FIPS 197, appendix B. *)
Lemma fips_197_vector :
  encrypt_block [x2b; x7e; x15; x16; x28; xae; xd2; xa6; xab; xf7; x15; x88; x09; xcf; x4f; x3c]
    [x32; x43; xf6; xa8; x88; x5a; x30; x8d; x31; x31; x98; xa2; xe0; x37; x07; x34] =
  [x39; x25; x84; x1d; x02; xdc; x09; xfb; xdc; x11; x85; x97; x19; x6a; x0b; x32].
Proof. vm_compute. reflexivity. Qed.

(** ** Counter mode *)

(** The byte of the keystream at a position: the counter is the whole block. *)
Definition ctr_keystream (key nonce : list byte) (i : nat) : byte :=
  let block := to_be_bytes 16 (from_be_bytes nonce + Z.of_nat (i / 16)) in
  nth (i mod 16) (encrypt_block key block) x00.

(** ** GCM *)

(** Multiplication in GF(2^128), the first bit of a block being the coefficient of 1. *)
Fixpoint gf_mul (n : nat) (x z v : Z) : Z :=
  match n with
  | 0 => z
  | S n =>
      let z := if Z.testbit x (Z.of_nat n) then Z.lxor z v else z in
      let v := if Z.odd v then Z.lxor (Z.shiftr v 1) 0xe1000000000000000000000000000000 else Z.shiftr v 1 in
      gf_mul n x z v
  end.

(** The blocks of 16 bytes, the last one padded with zeros. *)
Fixpoint blocks (fuel : nat) (l : list byte) : list (list byte) :=
  match fuel, l with
  | S fuel, _ :: _ => take 16 (l ++ replicate 16 x00) :: blocks fuel (drop 16 l)
  | _, _ => []
  end.
Definition blocks_of (l : list byte) : list (list byte) := blocks (length l) l.

Definition ghash (h : Z) (l : list (list byte)) : Z :=
  fold_left (fun y b => gf_mul 128 (Z.lxor y (from_be_bytes b)) 0 h) l 0%Z.

(** The block cipher on the counters from 2 on. *)
Definition gctr (key nonce : list byte) (l : list byte) : list byte :=
  concat (imap (fun i b => xor_list b (encrypt_block key (nonce ++ to_be_bytes 4 (Z.of_nat i + 2)))) (blocks_of l)).

Definition gcm_tag (key nonce aad ciphertext : list byte) : list byte :=
  let h := from_be_bytes (encrypt_block key (replicate 16 x00)) in
  let lengths := to_be_bytes 8 (8 * Z.of_nat (length aad)) ++ to_be_bytes 8 (8 * Z.of_nat (length ciphertext)) in
  let s := ghash h (blocks_of aad ++ blocks_of ciphertext ++ [lengths]) in
  xor_list (to_be_bytes 16 s) (encrypt_block key (nonce ++ to_be_bytes 4 1)).

Definition gcm_seal (key nonce msg aad : list byte) : list byte :=
  let c := take (length msg) (gctr key nonce msg) in
  c ++ gcm_tag key nonce aad c.

Definition gcm_open (key nonce sealed aad : list byte) : option (list byte) :=
  let n := length sealed - 16 in
  let c := take n sealed in
  if decide (16 <= length sealed /\ drop n sealed = gcm_tag key nonce aad c) then Some (take n (gctr key nonce c)) else None.
End Aes.

Local Open Scope Z_scope.

Module Sha256.

(** Words of 32 bits. *)
Definition w32 (x : Z) : Z := Z.land x 0xffffffff.
Definition rotr (n x : Z) : Z := Z.lor (Z.shiftr x n) (w32 (Z.shiftl x (32 - n))).

Definition primes : list Z :=
  filter (fun p => Is_true (forallb (fun d => negb (p mod d =? 0)) (seqZ 2 (p - 2)))) (seqZ 2 310).

(** The root of degree [k] of [n], rounded down, below [r + 2 ^ bits]. *)
Fixpoint root (k n : Z) (bits : nat) (r : Z) : Z :=
  match bits with
  | O => r
  | S bits => let x := r + 2 ^ Z.of_nat bits in root k n bits (if x ^ k <=? n then x else r)
  end.

(** The first 32 bits of the fraction of the root of a prime. *)
Definition fraction (k p : Z) : Z := w32 (root k (p * 2 ^ (32 * k)) 40 0).

Definition constants : list Z := Eval vm_compute in fraction 3 <$> primes.
Definition initial : list Z := Eval vm_compute in fraction 2 <$> take 8 primes.

Definition ssig0 (x : Z) : Z := Z.lxor (Z.lxor (rotr 7 x) (rotr 18 x)) (Z.shiftr x 3).
Definition ssig1 (x : Z) : Z := Z.lxor (Z.lxor (rotr 17 x) (rotr 19 x)) (Z.shiftr x 10).
Definition bsig0 (x : Z) : Z := Z.lxor (Z.lxor (rotr 2 x) (rotr 13 x)) (rotr 22 x).
Definition bsig1 (x : Z) : Z := Z.lxor (Z.lxor (rotr 6 x) (rotr 11 x)) (rotr 25 x).
Definition ch (x y z : Z) : Z := Z.lxor (Z.land x y) (Z.land (Z.lxor x 0xffffffff) z).
Definition maj (x y z : Z) : Z := Z.lxor (Z.lxor (Z.land x y) (Z.land x z)) (Z.land y z).

(** The rounds: [w] has the next 16 words of the schedule. *)
Fixpoint rounds (ks w v : list Z) : list Z :=
  match ks, w, v with
  | k :: ks, [w0; w1; w2; w3; w4; w5; w6; w7; w8; w9; w10; w11; w12; w13; w14; w15], [a; b; c; d; e; f; g; h] =>
      let t1 := h + bsig1 e + ch e f g + k + w0 in
      let t2 := bsig0 a + maj a b c in
      let next := w32 (ssig1 w14 + w9 + ssig0 w1 + w0) in
      rounds ks [w1; w2; w3; w4; w5; w6; w7; w8; w9; w10; w11; w12; w13; w14; w15; next]
        [w32 (t1 + t2); a; b; c; w32 (d + t1); e; f; g]
  | _, _, _ => v
  end.

(** Groups of [n] elements. *)
Fixpoint groups {A} (fuel n : nat) (l : list A) : list (list A) :=
  match fuel, l with
  | S fuel, _ :: _ => take n l :: groups fuel n (drop n l)
  | _, _ => []
  end.

Definition compress (v : list Z) (block : list byte) : list Z :=
  let w := from_be_bytes <$> groups 16 4 block in
  zip_with (fun x y => w32 (x + y)) v (rounds constants w v).

Definition padded (m : list byte) : list byte :=
  let n := length m in
  m ++ [byte_of_Z 128] ++ replicate ((119 - n mod 64) mod 64) x00 ++ to_be_bytes 8 (8 * Z.of_nat n).

Definition sha256 (m : list byte) : list byte :=
  let p := padded m in
  concat (to_be_bytes 4 <$> fold_left compress (groups (length p) 64 p) initial).

(** ** HMAC and HKDF *)

Definition hmac (key m : list byte) : list byte :=
  let key := if decide (64 < length key)%nat then sha256 key else key in
  let key := key ++ replicate (64 - length key) x00 in
  let pad b := (fun x => byte_of_Z (Z.lxor (byte_to_Z x) b)) <$> key in
  sha256 (pad 0x5c ++ sha256 (pad 0x36 ++ m)).

Fixpoint expand_blocks (fuel : nat) (prk info t : list byte) (i : Z) : list byte :=
  match fuel with
  | O => []
  | S fuel => let t := hmac prk (t ++ info ++ [byte_of_Z i]) in t ++ expand_blocks fuel prk info t (i + 1)
  end.

(** The output of at most 255 blocks of 32 bytes. *)
Definition hkdf (salt ikm info : list byte) (n : nat) : option (list byte) :=
  if decide (255 * 32 < n)%nat then None
  else Some (take n (expand_blocks ((n + 31) / 32) (hmac salt ikm) info [] 1)).

(** The digest of the empty string. *)
Lemma sha256_vector :
  sha256 [] = to_be_bytes 32 0xe3b0c44298fc1c149afbf4c8996fb92427ae41e4649b934ca495991b7852b855.
Proof. vm_compute. reflexivity. Qed.

(** RFC 4231, test case 2: the key [Jefe]. *)
Lemma hmac_vector :
  hmac (to_be_bytes 4 0x4a656665) (to_be_bytes 28 0x7768617420646f2079612077616e7420666f72206e6f7468696e673f) =
  to_be_bytes 32 0x5bdcc146bf60754e6a042426089575c75a003f089d2739839dec58b964ec3843.
Proof. vm_compute. reflexivity. Qed.
End Sha256.
