(* ===== verification/UnitTests.v ===== *)
(** * Unit tests of the smaller components

    [mod tests] of lru_time_cache.rs, service/ip_vote.rs, service/query_info.rs,
    ipmode.rs and socket/filter/rate_limiter.rs, evaluated on the model. *)

From Stdlib Require Import Floats.SpecFloat.
From stdpp Require Import strings gmap.
From S2P Require Import Prelude Bytes Key Maps LruTimeCache IpVote QueryInfo RateLimiter NodeInfo Crypto CryptoSample Testing.

(** ** src/src/lru_time_cache.rs *)
Module CacheTests.
Import LruTimeCache.

Notation Cache := (LruTimeCache (AssocMap.AssocMap Z (Z * Z))).
Existing Instance AssocMap.assoc_map.

(** A program over one cache and the clock: every call takes a microsecond. *)
Definition Test (A : Type) := Cache -> Z -> outcome (Cache * Z * A).

#[local] Instance test_ret : MRet Test := fun A a c t => Ret (c, t, a).
#[local] Instance test_bind : MBind Test := fun A B k m c t => '(c, t, a) ← m c t; k a c t.

Definition call {A} (f : Cache -> Z -> Cache * A) : Test A := fun c t => let '(c, a) := f c t in Ret (c, (t + 1000)%Z, a).
Definition insert (k v : Z) : Test unit := call (fun c now => (LruTimeCache.insert c now k v, ())).
Definition get (k : Z) : Test (option Z) := call (fun c now => LruTimeCache.get c now k).
Definition write (k : Z) (f : Z -> Z) : Test (option Z) := call (fun c now => LruTimeCache.get_mut c now k f).
Definition peek (k : Z) : Test (option Z) := call (fun c now => (c, LruTimeCache.peek c now k)).
Definition len : Test nat := call (fun c now => LruTimeCache.len c now).
Definition remove (k : Z) : Test (option Z) := call (fun c _ => LruTimeCache.remove c k).
Definition sleep (d : Z) : Test unit := fun c t => Ret (c, (t + d)%Z, ()).
Definition check_eq {A} `{EqDecision A} (x y : A) : Test unit := fun c t => _ ← assert_eq x y; Ret (c, t, ()).

(** A test starts with [LruTimeCache::new(ttl, capacity)]. *)
Definition run (ttl : Z) (capacity : option Z) (m : Test unit) : outcome unit :=
  '(_, _, a) ← m (LruTimeCache.new ttl capacity) 0%Z; Ret a.

Definition ten_seconds : Z := 10000000000.

Definition test_insert : outcome unit :=
  run ten_seconds None (
    _ ← insert 1 10; _ ← insert 2 20; _ ← insert 3 30;
    v ← get 1; _ ← check_eq (Some 10%Z) v;
    v ← get 2; _ ← check_eq (Some 20%Z) v;
    v ← get 3; check_eq (Some 30%Z) v).

Definition test_capacity : outcome unit :=
  run ten_seconds (Some 2%Z) (
    _ ← insert 1 10; _ ← insert 2 20;
    n ← len; _ ← check_eq 2 n;
    _ ← insert 3 30;
    n ← len; _ ← check_eq 2 n;
    v ← get 2; _ ← check_eq (Some 20%Z) v;
    v ← get 3; check_eq (Some 30%Z) v).

Definition test_get : outcome unit :=
  run ten_seconds (Some 2%Z) (
    _ ← insert 1 10; _ ← insert 2 20;
    v ← get 1; _ ← check_eq (Some 10%Z) v;
    _ ← insert 3 30;
    v ← get 1; _ ← check_eq (Some 10%Z) v;
    v ← get 2; check_eq None v).

Definition test_get_mut : outcome unit :=
  run ten_seconds None (
    _ ← insert 1 10;
    v ← write 1 (fun _ => 100%Z);
    _ ← check_eq true (is_some v);
    v ← get 1; check_eq (Some 100%Z) v).

Definition test_peek : outcome unit :=
  run ten_seconds (Some 2%Z) (
    _ ← insert 1 10; _ ← insert 2 20;
    v ← peek 1; _ ← check_eq (Some 10%Z) v;
    _ ← insert 3 30;
    v ← peek 1; _ ← check_eq None v;
    v ← get 2; check_eq (Some 20%Z) v).

Definition test_len : outcome unit :=
  run ten_seconds None (
    n ← len; _ ← check_eq 0 n;
    _ ← insert 1 10; _ ← insert 2 20; _ ← insert 3 30;
    n ← len; check_eq 3 n).

Definition test_remove : outcome unit :=
  run ten_seconds None (
    _ ← insert 1 10;
    v ← remove 1; _ ← check_eq (Some 10%Z) v;
    v ← get 1; _ ← check_eq None v;
    v ← remove 1; check_eq None v).

(** [mod ttl]. *)
Definition TTL : Z := 100000000.

Definition ttl_get : outcome unit :=
  run TTL None (
    _ ← insert 1 10;
    v ← get 1; _ ← check_eq (Some 10%Z) v;
    _ ← sleep TTL;
    v ← get 1; check_eq None v).

Definition ttl_peek : outcome unit :=
  run TTL None (
    _ ← insert 1 10;
    v ← peek 1; _ ← check_eq (Some 10%Z) v;
    _ ← sleep TTL;
    v ← peek 1; check_eq None v).

Definition ttl_len : outcome unit :=
  run TTL None (
    _ ← insert 1 10;
    n ← len; _ ← check_eq 1 n;
    _ ← sleep TTL;
    n ← len; check_eq 0 n).

Definition ttl_ttl : outcome unit :=
  run TTL None (
    _ ← insert 1 10; _ ← sleep (TTL / 4);
    _ ← insert 2 20; _ ← sleep (TTL / 4);
    _ ← insert 3 30; _ ← sleep (TTL / 4);
    _ ← insert 4 40; _ ← sleep (TTL / 4);
    n ← len; _ ← check_eq 3 n;
    v ← get 1; _ ← check_eq None v;
    v ← get 2; _ ← check_eq (Some 20%Z) v;
    v ← get 3; _ ← check_eq (Some 30%Z) v;
    v ← get 4; check_eq (Some 40%Z) v).
End CacheTests.

(** ** src/src/service/ip_vote.rs *)
Module IpVoteTests.
Import IpVote.

Section Tests.
Variables (random : nat -> NodeId) (order : gmap SocketAddrV4 nat -> list (SocketAddrV4 * nat)).

(** [SocketAddrV4::new("127.0.0.1".parse().unwrap(), port)]. *)
Definition socket (port : Z) : SocketAddrV4 := mkSocketAddrV4 [# x7f; x00; x00; x01] port.

(** A vote of a new node for each port, and the majority. *)
Definition vote_all (threshold : nat) (ports : list Z) : outcome (option SocketAddrV4 * option SocketAddrV6) :=
  votes ← IpVote.new threshold 10000000000;
  let votes := foldl (fun v '(i, port) => insert v 0 (random i) (SockV4 (socket port))) votes (imap pair ports) in
  Ret (majority votes 0 map_to_list order map_to_list).2.

Definition test_three_way_vote_draw : outcome unit :=
  r ← vote_all 2 [1; 1; 1; 2; 2; 2; 3; 3; 3]%Z;
  assert_eq r (Some (socket 2), None).

Definition test_majority_vote : outcome unit :=
  r ← vote_all 2 [1; 1; 2; 3]%Z;
  assert_eq r (Some (socket 1), None).

Definition test_below_threshold : outcome unit :=
  r ← vote_all 3 [1; 1; 2; 3]%Z;
  assert_eq r (None, None).
End Tests.

(** An iteration of the counts that has [s] last. *)
Definition order_last (s : SocketAddrV4) (m : gmap SocketAddrV4 nat) : list (SocketAddrV4 * nat) :=
  filter (fun e => e.1 <> s) (map_to_list m) ++ filter (fun e => e.1 = s) (map_to_list m).
End IpVoteTests.

(** ** src/src/service/query_info.rs *)
Module QueryInfoTests.
Import QueryInfo.

(** [let mut destination = [0u8; 32]; destination[i] = b]. *)
Definition destination (i : fin 32) (b : byte) : NodeId := vinsert i b (vreplicate 32 x00).
Definition distances_are (dest : NodeId) (expected_distances : list Z) : outcome unit :=
  o ← findnode_log2distance (vreplicate 32 x00) dest (length expected_distances);
  l ← unwrap o;
  assert_eq l expected_distances.

Definition test_log2distance : outcome unit :=
  distances_are (destination 10%fin x01) [169; 170; 168; 171; 167; 172; 166; 173; 165]%Z.

Definition test_log2distance_lower : outcome unit :=
  distances_are (destination 31%fin x08) [4; 5; 3; 6; 2; 7; 1; 8; 0; 9; 10]%Z.

Definition test_log2distance_upper : outcome unit :=
  distances_are (destination 0%fin x08) [252; 253; 251; 254; 250; 255; 249; 256; 248; 247; 246]%Z.
End QueryInfoTests.

(** ** src/src/socket/filter/rate_limiter.rs *)
Module LimiterTests.
Import Limiter.

(** [Duration::from_secs_f32]: the nearest nanosecond, ties to even. *)
Definition from_secs_f32 (x : F32.f32) : outcome Z :=
  match x with
  | S754_zero _ => Ret 0%Z
  | S754_finite false m e =>
      let n := (Zpos m * 1000000000)%Z in
      if decide (0 <= e)%Z then Ret (n * 2 ^ e)%Z
      else
        let d := (2 ^ (- e))%Z in
        let '(q, r) := Z.div_eucl n d in
        Ret (if decide (2 * r < d)%Z then q else if decide (d < 2 * r)%Z then q + 1 else if Z.even q then q else q + 1)%Z
  | _ => Panic
  end.

(** The literal [n / 10] as [f32]. *)
Definition tenths (n : Z) : outcome Z := from_secs_f32 (F32.div (F32.of_int n) (F32.of_int 10)).

Definition is_ok {E A} (r : result E A) : bool := match r with Ok _ => true | Err _ => false end.

(** [assert!(limiter.allows(time, &10, tokens).is_ok())], or [is_err()]. *)
Definition expect (ok : bool) (time tokens : Z) (l : Limiter Z) : outcome (Limiter Z) :=
  t ← tenths time;
  '(l, r) ← allows l t 10%Z tokens;
  _ ← assert_eq (is_ok r) ok;
  Ret l.

(** [Limiter::from_quota(Quota { replenish_all_every: 2s, max_tokens: 4 }).unwrap()]. *)
Definition four_every_two : outcome (Limiter Z) :=
  match from_quota (mkQuota 2000000000 4) with Ok l => Ret l | Err _ => Panic end.

Definition it_works_a : outcome unit :=
  limiter ← four_every_two;
  limiter ← expect true 0 4 limiter;
  t ← tenths 1;
  let limiter := prune limiter t in
  limiter ← expect false 1 1 limiter;
  limiter ← expect true 5 1 limiter;
  limiter ← expect true 10 1 limiter;
  limiter ← expect false 14 1 limiter;
  _ ← expect true 20 2 limiter;
  Ret ().

Definition it_works_b : outcome unit :=
  limiter ← four_every_two;
  limiter ← expect true 0 1 limiter;
  limiter ← expect true 1 1 limiter;
  limiter ← expect true 2 1 limiter;
  limiter ← expect true 3 1 limiter;
  _ ← expect false 4 1 limiter;
  Ret ().
End LimiterTests.

(** ** src/src/ipmode.rs *)

(** The builder of the [enr] crate: a record built with the addresses has them. *)
Class EnrBuilder (Enr : Type) `{!K256} `{!EnrCrate Enr} := {
  enr_build : option (Ipv4Addr * Z) -> option (Ipv6Addr * Z) -> Enr;
  enr_build_udp4 a b : enr_udp4_socket (enr_build a b) = (fun '(ip, port) => mkSocketAddrV4 ip port) <$> a;
  enr_build_udp6 a b : enr_udp6_socket (enr_build a b) = (fun '(ip, port) => mkSocketAddrV6 ip port 0 0) <$> b;
}.

Module IpModeTests.
Import IpMode.

Definition IP6_TEST_PORT : Z := 9000.
Definition IP4_TEST_PORT : Z := 9090.

(** Without the name of the case. *)
Record TestCase := mkCase {
  case_ip4 : option Ipv4Addr;
  case_ip6 : option Ipv6Addr;
  case_mode : IpMode;
  expected_socket_addr : option SocketAddr;
}.

Definition case_new : TestCase := mkCase None None Ip4 None.
Definition enr_ip4 (ip : Ipv4Addr) (c : TestCase) : TestCase := mkCase (Some ip) (case_ip6 c) (case_mode c) (expected_socket_addr c).
Definition enr_ip6 (ip : Ipv6Addr) (c : TestCase) : TestCase := mkCase (case_ip4 c) (Some ip) (case_mode c) (expected_socket_addr c).
Definition ip_mode (mode : IpMode) (c : TestCase) : TestCase := mkCase (case_ip4 c) (case_ip6 c) mode (expected_socket_addr c).
Definition expect_ip4 (ip : Ipv4Addr) (c : TestCase) : TestCase :=
  mkCase (case_ip4 c) (case_ip6 c) (case_mode c) (Some (SockV4 (mkSocketAddrV4 ip IP4_TEST_PORT))).
Definition expect_ip6 (ip : Ipv6Addr) (c : TestCase) : TestCase :=
  mkCase (case_ip4 c) (case_ip6 c) (case_mode c) (Some (SockV6 (mkSocketAddrV6 ip IP6_TEST_PORT 0 0))).

(** [Ipv4Addr::LOCALHOST] and [Ipv6Addr::LOCALHOST]. *)
Definition LOCALHOST4 : Ipv4Addr := [# x7f; x00; x00; x01].
Definition LOCALHOST6 : Ipv6Addr := vinsert 15%fin x01 (vreplicate 16 x00).

Section Tests.
Context {Enr : Type} `{!K256} `{!EnrCrate Enr} `{!EnrBuilder Enr}.

Definition test (c : TestCase) : outcome unit :=
  let test_enr : Enr := enr_build ((fun ip => (ip, IP4_TEST_PORT)) <$> case_ip4 c) ((fun ip => (ip, IP6_TEST_PORT)) <$> case_ip6 c) in
  assert_eq (get_contactable_addr (case_mode c) test_enr) (expected_socket_addr c).

Definition empty_enr_no_contactable_address : outcome unit :=
  _ ← test (ip_mode Ip4 case_new);
  _ ← test (ip_mode Ip6 case_new);
  test (ip_mode DualStack case_new).

Definition ipv4_only_enr_contactable_addresses : outcome unit :=
  _ ← test (expect_ip4 LOCALHOST4 (ip_mode Ip4 (enr_ip4 LOCALHOST4 case_new)));
  _ ← test (ip_mode Ip6 (enr_ip4 LOCALHOST4 case_new));
  test (expect_ip4 LOCALHOST4 (ip_mode DualStack (enr_ip4 LOCALHOST4 case_new))).

Definition ipv6_only_enr_contactable_addresses : outcome unit :=
  _ ← test (ip_mode Ip4 (enr_ip6 LOCALHOST6 case_new));
  _ ← test (expect_ip6 LOCALHOST6 (ip_mode Ip6 (enr_ip6 LOCALHOST6 case_new)));
  test (expect_ip6 LOCALHOST6 (ip_mode DualStack (enr_ip6 LOCALHOST6 case_new))).

Definition dual_stack_enr_contactable_addresses : outcome unit :=
  _ ← test (expect_ip4 LOCALHOST4 (ip_mode Ip4 (enr_ip4 LOCALHOST4 (enr_ip6 LOCALHOST6 case_new))));
  _ ← test (expect_ip6 LOCALHOST6 (ip_mode Ip6 (enr_ip4 LOCALHOST4 (enr_ip6 LOCALHOST6 case_new))));
  test (expect_ip6 LOCALHOST6 (ip_mode Ip6 (enr_ip4 LOCALHOST4 (enr_ip6 LOCALHOST6 case_new)))).

(** What a case comes to, by the laws of the builder. *)
Lemma test_case c :
  match case_mode c with
  | Ip4 => SockV4 <$> ((fun ip => mkSocketAddrV4 ip IP4_TEST_PORT) <$> case_ip4 c)
  | Ip6 => SockV6 <$> (a ← (fun ip => mkSocketAddrV6 ip IP6_TEST_PORT 0 0) <$> case_ip6 c;
                        match to_ipv4_mapped (v6_ip a) with Some _ => None | None => Some a end)
  | DualStack =>
      match SockV6 <$> (a ← (fun ip => mkSocketAddrV6 ip IP6_TEST_PORT 0 0) <$> case_ip6 c;
                        match to_ipv4_mapped (v6_ip a) with Some _ => None | None => Some a end) with
      | Some a => Some a
      | None => SockV4 <$> ((fun ip => mkSocketAddrV4 ip IP4_TEST_PORT) <$> case_ip4 c)
      end
  end = expected_socket_addr c -> test c = Ret ().
Proof.
  intros Hc. apply assert_eq_refl. rewrite <-Hc. unfold get_contactable_addr, canonical_ipv6_enr_addr.
  rewrite enr_build_udp4, enr_build_udp6. destruct (case_mode c), (case_ip4 c), (case_ip6 c); done.
Qed.

Lemma ip_mode_tests :
  empty_enr_no_contactable_address = Ret () /\ ipv4_only_enr_contactable_addresses = Ret () /\
  ipv6_only_enr_contactable_addresses = Ret () /\ dual_stack_enr_contactable_addresses = Ret ().
Proof.
  unfold empty_enr_no_contactable_address, ipv4_only_enr_contactable_addresses, ipv6_only_enr_contactable_addresses,
    dual_stack_enr_contactable_addresses. split_and!; rewrite !test_case by (vm_compute; reflexivity); reflexivity.
Qed.
End Tests.

#[export] Existing Instance CryptoSample.sample_k256.

(** Records that are their two addresses. *)
Definition AddressRecord : Type := option (Ipv4Addr * Z) * option (Ipv6Addr * Z).

#[export] Instance address_record : EnrCrate AddressRecord := {|
  enr_seq _ := 1%Z;
  enr_node_id _ := vreplicate 32 x00;
  enr_public_key _ := PubEd25519 ();
  enr_udp4_socket e := (fun '(ip, port) => mkSocketAddrV4 ip port) <$> e.1;
  enr_udp6_socket e := (fun '(ip, port) => mkSocketAddrV6 ip port 0 0) <$> e.2;
  public_key_node_id _ := vreplicate 32 x00;
|}.

#[export, program] Instance address_builder : EnrBuilder AddressRecord := {| enr_build a b := (a, b) |}.
Solve Obligations with done.
End IpModeTests.

Import CacheTests IpVoteTests QueryInfoTests LimiterTests IpModeTests.

(** The tests on the model.  The draw of three addresses with as many votes each is decided by
    the order in which the hash map lists them: the test, which expects the second
    address, passes when it comes last and fails when the first does. *)
Lemma unit_tests_run {Enr : Type} `{!K256} `{!EnrCrate Enr} `{!EnrBuilder Enr} :
  Forall (fun t => t = Ret ()) [test_insert; test_capacity; test_get; test_get_mut; test_peek; test_len; test_remove;
    ttl_get; ttl_peek; ttl_len; ttl_ttl] /\
  (forall s, s ∈ [socket 1; socket 2; socket 3] -> test_majority_vote distinct_ids (order_last s) = Ret () /\
     test_below_threshold distinct_ids (order_last s) = Ret ()) /\
  test_three_way_vote_draw distinct_ids (order_last (socket 2)) = Ret () /\
  test_three_way_vote_draw distinct_ids (order_last (socket 1)) = Panic /\
  Forall (fun t => t = Ret ()) [test_log2distance; test_log2distance_lower; test_log2distance_upper; it_works_a; it_works_b] /\
  Forall (fun t => t = Ret ()) [empty_enr_no_contactable_address (Enr := Enr); ipv4_only_enr_contactable_addresses (Enr := Enr);
    ipv6_only_enr_contactable_addresses (Enr := Enr); dual_stack_enr_contactable_addresses (Enr := Enr)].
Proof.
  split_and!.
  - run_tests.
  - intros s [->|[->|[->|[]%elem_of_nil]%elem_of_cons]%elem_of_cons]%elem_of_cons; split; vm_compute; reflexivity.
  - vm_compute. reflexivity.
  - vm_compute. reflexivity.
  - run_tests.
  - destruct (ip_mode_tests (Enr := Enr)) as (? & ? & ? & ?). by repeat constructor.
Qed.
