(* ===== verification/Display.v ===== *)
(** * The texts of messages, packets and addresses (the [Display] impls)

    Of src/src/rpc.rs, src/src/packet/mod.rs, src/src/node_info.rs and
    src/src/kbucket/bucket.rs.  The texts of the [enr] crate are an interface;
    those of integers, lists and addresses are the standard library's.  The hex
    text of bytes can be read back, and the braces of the text of a packet are
    balanced unless it is a handshake. *)

From Stdlib Require Import Strings.Ascii Strings.String.
From stdpp Require Import strings pretty.
From S2P Require Import Prelude Bytes Key Bucket Rpc Packet NodeInfo Testing.
Import NodeInfo.
Open Scope string_scope.

(** [Display] of a node id and of a record, [Debug] of an optional record. *)
Class EnrText (Enr : Type) := {
  node_id_text : NodeId -> string;
  enr_text : Enr -> string;
  enr_debug : option Enr -> string;
}.

Module Display.

(** ** The standard library *)

Definition hex_char (z : Z) : ascii :=
  ascii_of_N (Z.to_N (if decide (z < 10)%Z then 48 + z else 87 + z)%Z).

(** [hex::encode]. *)
Fixpoint hex_encode (l : list byte) : string :=
  match l with
  | [] => ""
  | b :: l => String (hex_char (byte_to_Z b / 16)) (String (hex_char (byte_to_Z b mod 16)) (hex_encode l))
  end.

(** The elements with a separator between them. *)
Fixpoint join (sep : string) (l : list string) : string :=
  match l with
  | [] => ""
  | [s] => s
  | s :: l => s ++ sep ++ join sep l
  end.

(** [{:?}] of a vector of integers. *)
Definition list_debug (l : list Z) : string := "[" ++ join ", " (pretty <$> l) ++ "]".

Definition ipv4_text (ip : Ipv4Addr) : string := join "." ((fun b => pretty (byte_to_Z b)) <$> vec_to_list ip).

(** The eight segments of an IPv6 address. *)
Fixpoint segments (l : list byte) : list Z :=
  match l with
  | a :: b :: l => (256 * byte_to_Z a + byte_to_Z b)%Z :: segments l
  | _ => []
  end.

(** [{:x}] of a segment. *)
Fixpoint drop_zeros (n : nat) (s : string) : string :=
  match n, s with
  | S n, String "0" s => drop_zeros n s
  | _, _ => s
  end.
Definition segment_text (z : Z) : string := drop_zeros 3 (hex_encode (to_be_bytes 2 z)).

(** The start and the length of the first longest run of zeros. *)
Fixpoint zero_run (i : nat) (l : list Z) (current longest : nat * nat) : nat * nat :=
  match l with
  | [] => longest
  | z :: l =>
      if decide (z = 0%Z) then
        let current := if decide (current.2 = 0) then (i, 1) else (current.1, current.2 + 1) in
        zero_run (i + 1) l current (if decide (longest.2 < current.2) then current else longest)
      else zero_run (i + 1) l (0, 0) longest
  end.

Definition ipv6_text (ip : Ipv6Addr) : string :=
  let l := segments ip in
  if decide (take 10 (vec_to_list ip) = replicate 10 x00 /\ take 2 (drop 10 (vec_to_list ip)) = [xff; xff]) then
    "::ffff:" ++ join "." ((fun b => pretty (byte_to_Z b)) <$> drop 12 (vec_to_list ip))
  else
    let '(start, len) := zero_run 0 l (0, 0) (0, 0) in
    let text l := join ":" (segment_text <$> l) in
    if decide (1 < len) then text (take start l) ++ "::" ++ text (drop (start + len) l) else text l.

Definition ip_text (ip : IpAddr) : string := match ip with V4 ip => ipv4_text ip | V6 ip => ipv6_text ip end.

Definition socket_text (a : SocketAddr) : string :=
  match a with
  | SockV4 a => ipv4_text (v4_ip a) ++ ":" ++ pretty (v4_port a)
  | SockV6 a =>
      let scope := if decide (v6_scope_id a = 0%Z) then "" else "%" ++ pretty (v6_scope_id a) in
      "[" ++ ipv6_text (v6_ip a) ++ scope ++ "]:" ++ pretty (v6_port a)
  end.

Definition direction_fmt (d : ConnectionDirection) : string :=
  match d with Incoming => "Incoming" | Outgoing => "Outgoing" end.

Section Display.
Context {Enr : Type} `{!EnrText Enr}.

(** ** Messages *)

Definition id_fmt (id : Rpc.RequestId) : string := hex_encode id.

Definition request_body_fmt (b : Rpc.RequestBody) : string :=
  match b with
  | Rpc.Ping enr_seq => "PING: enr_seq: " ++ pretty enr_seq
  | Rpc.FindNode distances => "FINDNODE Request: distance: " ++ list_debug distances
  | Rpc.Talk protocol request => "TALK: protocol: " ++ hex_encode protocol ++ ", request: " ++ hex_encode request
  end.

(** The loop over the records of a NODES response. *)
Fixpoint nodes_fmt (first : bool) (nodes : list Enr) : string :=
  match nodes with
  | [] => ""
  | e :: nodes => (if first then enr_text e else ", " ++ enr_text e) ++ nodes_fmt false nodes
  end.

Definition response_body_fmt (b : Rpc.ResponseBody Enr) : string :=
  match b with
  | Rpc.Pong enr_seq ip port => "PONG: Enr-seq: " ++ pretty enr_seq ++ ", Ip: " ++ ip_text ip ++ ",  Port: " ++ pretty port
  | Rpc.Nodes total nodes => "NODES: total: " ++ pretty total ++ ", Nodes: [" ++ nodes_fmt true nodes ++ "]"
  | Rpc.TalkResponse response => "Response: Response " ++ hex_encode response
  end.

Definition request_fmt (r : Rpc.Request) : string :=
  "Request: id: " ++ id_fmt (Rpc.req_id r) ++ ": " ++ request_body_fmt (Rpc.req_body r).

Definition response_fmt (r : Rpc.Response Enr) : string :=
  "Response: id: " ++ id_fmt (Rpc.resp_id r) ++ ": " ++ response_body_fmt (Rpc.resp_body r).

Definition message_fmt (m : Rpc.Message Enr) : string :=
  match m with
  | Rpc.MRequest request => request_fmt request
  | Rpc.MResponse response => response_fmt response
  end.

(** ** Packets *)

Definition kind_fmt (k : Packet.PacketKind Enr) : string :=
  match k with
  | Packet.Message src_id => "Message { src_id: " ++ node_id_text src_id ++ " }"
  | Packet.WhoAreYou id_nonce enr_seq =>
      "WhoAreYou { id_nonce: " ++ hex_encode id_nonce ++ ", enr_seq: " ++ pretty enr_seq ++ " }"
  | Packet.Handshake src_id id_nonce_sig ephem_pubkey enr_record =>
      "Handshake { src_id : " ++ hex_encode src_id ++ ", id_nonce_sig: " ++ hex_encode id_nonce_sig ++
      ", ephem_pubkey: " ++ hex_encode ephem_pubkey ++ ", enr_record " ++ enr_debug enr_record
  end.

Definition header_fmt (h : Packet.PacketHeader Enr) : string :=
  "PacketHeader { message_nonce: " ++ hex_encode (Packet.message_nonce h) ++ ", kind: " ++ kind_fmt (Packet.kind h) ++ " }".

Definition packet_fmt (p : Packet.Packet Enr) : string :=
  "Packet { iv: " ++ hex_encode (to_be_bytes 16 (Packet.iv p)) ++ ", header: " ++ header_fmt (Packet.header p) ++
  ", message " ++ hex_encode (Packet.message p) ++ " }".

(** ** Nodes *)

Definition address_fmt (a : NodeAddress) : string :=
  "Node: " ++ node_id_text (node_id a) ++ ", addr: " ++ socket_text (socket_addr a).

Definition contact_fmt `{!K256} `{!EnrCrate Enr} (c : NodeContact Enr) : string :=
  "Node: " ++ node_id_text (contact_node_id c) ++ ", addr: " ++ socket_text (contact_socket_addr c).
End Display.

(** ** Hex *)

(** A fact on each of the sixteen digits. *)
Lemma forall_digits (P : Z -> Prop) z : Forall P (seqZ 0 16) -> (0 <= z < 16)%Z -> P z.
Proof. rewrite Forall_forall. intros HP Hz. apply HP, elem_of_seqZ. lia. Qed.

Lemma digits_range b : (0 <= byte_to_Z b / 16 < 16 /\ 0 <= byte_to_Z b mod 16 < 16)%Z.
Proof.
  pose proof (byte_to_Z_range b). split; [|apply Z.mod_pos_bound; lia].
  split; [apply Z.div_pos|apply Z.div_lt_upper_bound]; lia.
Qed.

Lemma hex_digit_char z : (0 <= z < 16)%Z -> hex_digit (hex_char z) = Some z.
Proof.
  apply (forall_digits (fun z => hex_digit (hex_char z) = Some z)). repeat constructor.
Qed.

(** [hex::decode] reads what [hex::encode] wrote. *)
Lemma hex_roundtrip l : hex_decode (hex_encode l) = Ret l.
Proof.
  induction l as [|b l IH]; [done|]. simpl. rewrite !hex_digit_char by apply digits_range. simpl. rewrite IH. simpl. do 2 f_equal. rewrite <-Z.div_mod by lia. apply byte_of_to_Z.
Qed.

(** The text of a request id tells it. *)
#[export] Instance id_fmt_inj : Inj (=) (=) id_fmt.
Proof. intros i j H. pose proof (hex_roundtrip i) as Hi. unfold id_fmt in H. rewrite H, hex_roundtrip in Hi. congruence. Qed.

(** ** Braces *)

Definition brace (c : ascii) : Z := if decide (c = "{"%char) then 1 else if decide (c = "}"%char) then -1 else 0.

(** The braces of a text that are opened, less those that are closed. *)
Fixpoint braces (s : string) : Z :=
  match s with
  | EmptyString => 0
  | String c s => brace c + braces s
  end.

Lemma braces_app s t : braces (s ++ t) = (braces s + braces t)%Z.
Proof. induction s as [|c s IH]; [done|]. simpl. rewrite IH. lia. Qed.

Lemma brace_hex_char z : (0 <= z < 16)%Z -> brace (hex_char z) = 0%Z.
Proof.
  apply (forall_digits (fun z => brace (hex_char z) = 0%Z)). repeat constructor.
Qed.

Lemma braces_hex l : braces (hex_encode l) = 0%Z.
Proof.
  induction l as [|b l IH]; [done|]. cbn [hex_encode braces]. by rewrite !brace_hex_char, IH by apply digits_range.
Qed.

Lemma braces_pretty_N n s : braces (pretty_N_go n s) = braces s.
Proof.
  revert s. induction (N.lt_wf_0 n) as [n _ IH]. intros s. destruct (decide (n = 0%N)) as [->|Hn]; [by rewrite pretty_N_go_0|].
  rewrite pretty_N_go_step by lia. rewrite IH by (apply N.div_lt; lia). cbn [braces].
  assert (brace (pretty_N_char (n mod 10)) = 0%Z) as ->; [|done].
  unfold pretty_N_char. by repeat case_match.
Qed.

Lemma braces_pretty (z : Z) : braces (pretty z) = 0%Z.
Proof.
  assert (forall n : N, braces (pretty n) = 0%Z) as HN.
  { intros n. unfold pretty, pretty_N. destruct (decide _); [done|apply braces_pretty_N]. }
  destruct z as [|p|p]; [done|apply HN|]. change (braces ("-" ++ pretty (N.pos p)) = 0%Z). by rewrite braces_app, HN.
Qed.

#[local] Hint Rewrite braces_app braces_hex braces_pretty : braces.

(** The text of a handshake lacks the closing brace; that of other packets is
    balanced, if the texts of the [enr] crate are. *)
Lemma packet_fmt_braces {Enr} `{!EnrText Enr} (p : Packet.Packet Enr) :
  (forall id, braces (node_id_text id) = 0%Z) -> (forall e, braces (enr_debug e) = 0%Z) ->
  braces (packet_fmt p) = match Packet.kind (Packet.header p) with Packet.Handshake _ _ _ _ => 1 | _ => 0 end%Z.
Proof.
  intros Hid Henr. unfold packet_fmt, header_fmt, kind_fmt.
  destruct (Packet.kind _); autorewrite with braces; rewrite ?Hid, ?Henr; reflexivity.
Qed.

(** ** Samples *)

Lemma ip_texts :
  ip_text (V4 [# x7f; x00; x00; x01]) = "127.0.0.1" /\
  ip_text (V6 (vinsert 15%fin x01 (vreplicate 16 x00))) = "::1" /\
  ip_text (V6 (vinsert 10%fin xff (vinsert 11%fin xff (vinsert 12%fin x7f (vreplicate 16 x00))))) = "::ffff:127.0.0.0" /\
  ip_text (V6 (vinsert 0%fin x20 (vinsert 1%fin x01 (vinsert 9%fin x0a (vreplicate 16 x00))))) = "2001::a:0:0:0" /\
  ip_text (V6 (vreplicate 16 x00)) = "::".
Proof. vm_compute. by split_and!. Qed.

Lemma request_texts :
  request_fmt (Rpc.mkRequest [x01; xab] (Rpc.FindNode [256; 255]%Z)) = "Request: id: 01ab: FINDNODE Request: distance: [256, 255]" /\
  request_fmt (Rpc.mkRequest [x01] (Rpc.Ping 7)) = "Request: id: 01: PING: enr_seq: 7".
Proof. vm_compute. by split_and!. Qed.

(** A node id by its ends, a record by its bytes. *)
#[export] Instance sample_text : EnrText (list byte) := {|
  node_id_text id := "0x" ++ hex_encode (take 2 id) ++ ".." ++ hex_encode (drop 30 id);
  enr_text := hex_encode;
  enr_debug e := match e with Some e => "Some(" ++ hex_encode e ++ ")" | None => "None" end;
|}.

Lemma handshake_text : kind_fmt (Packet.Handshake (vreplicate 32 x01) [x02] [x03] (Some [xc0])) =
  "Handshake { src_id : 0101010101010101010101010101010101010101010101010101010101010101, id_nonce_sig: 02, ephem_pubkey: 03, enr_record Some(c0)".
Proof. by vm_compute. Qed.

Lemma sample_packet_braces p : braces (packet_fmt p) = match Packet.kind (Packet.header p) with Packet.Handshake _ _ _ _ => 1 | _ => 0 end%Z.
Proof.
  apply packet_fmt_braces; [intros id|intros [e|]]; cbn [node_id_text enr_debug sample_text]; by autorewrite with braces.
Qed.
End Display.
