(* ===== verification/ActiveRequests.v ===== *)
(** * Requests that await a response (src/src/handler/request_call.rs, active_requests.rs)

    [RequestCall] is a request that was sent, [ActiveRequests] the two tables
    that hold them: by node address, and the message nonces with the address
    they were sent to, which expire.  [debug_unreachable!] panics in a debug
    build and does nothing in a release build. *)

From stdpp Require Import strings.
From S2P Require Import Prelude Bytes Key Rpc Packet NodeInfo Maps.
Import NodeInfo.

(** [more_asserts::debug_unreachable!]. *)
Definition debug_unreachable (debug : bool) : outcome unit := if debug then Panic else Ret ().

(** Who made a request, with its id (handler/mod.rs). *)
Inductive HandlerReqId :=
  | Internal (id : Rpc.RequestId)
  | External (id : Rpc.RequestId).

(** [From<&HandlerReqId> for RequestId]. *)
Definition to_request_id (id : HandlerReqId) : Rpc.RequestId :=
  match id with Internal id => id | External id => id end.

Module RequestCall.

Record RequestCall (Enr : Type) `{!K256} := mkCall {
  contact : NodeContact Enr;
  packet : Packet.Packet Enr;
  request_id : HandlerReqId;
  request : Rpc.RequestBody;
  handshake_sent : bool;
  retries : Z;
  remaining_responses : option Z;
  initiating_session : bool;
}.
Arguments mkCall {Enr _} contact packet request_id request handshake_sent retries remaining_responses
  initiating_session.
Arguments contact {Enr _} c : rename.
Arguments packet {Enr _} c : rename.
Arguments request_id {Enr _} c : rename.
Arguments request {Enr _} c : rename.
Arguments handshake_sent {Enr _} c : rename.
Arguments retries {Enr _} c : rename.
Arguments remaining_responses {Enr _} c : rename.
Arguments initiating_session {Enr _} c : rename.

Section RequestCall.
Context {Enr : Type} `{!K256} `{!Rlp Enr}.
Implicit Types (self : RequestCall Enr).

Definition new (contact : NodeContact Enr) (packet : Packet.Packet Enr) (request_id : HandlerReqId)
    (request : Rpc.RequestBody) (initiating_session : bool) : RequestCall Enr :=
  mkCall contact packet request_id request false 1 None initiating_session.

Definition encode self : list byte :=
  match request_id self with
  | Internal id | External id => Rpc.request_encode (Rpc.mkRequest id (request self))
  end.

Definition increment_retries (debug : bool) self : outcome (RequestCall Enr) :=
  retries ← arith debug (2 ^ 8) (retries self + 1);
  Ret (mkCall (contact self) (packet self) (request_id self) (request self) (handshake_sent self) retries
         (remaining_responses self) (initiating_session self)).

Definition set_handshake_sent self : RequestCall Enr :=
  mkCall (contact self) (packet self) (request_id self) (request self) true (retries self)
    (remaining_responses self) (initiating_session self).

Definition set_initiating_session self (state : bool) : RequestCall Enr :=
  mkCall (contact self) (packet self) (request_id self) (request self) (handshake_sent self) (retries self)
    (remaining_responses self) state.

Definition update_packet self (packet : Packet.Packet Enr) : RequestCall Enr :=
  mkCall (contact self) packet (request_id self) (request self) (handshake_sent self) (retries self)
    (remaining_responses self) (initiating_session self).

(** A write through [remaining_responses_mut]. *)
Definition set_remaining_responses self (remaining_responses : option Z) : RequestCall Enr :=
  mkCall (contact self) (packet self) (request_id self) (request self) (handshake_sent self) (retries self)
    remaining_responses (initiating_session self).
End RequestCall.
End RequestCall.
Import RequestCall.

(** The message nonce of the packet of a call. *)
Definition call_nonce {Enr} `{!K256} (c : RequestCall Enr) : vec byte 12 :=
  Packet.message_nonce (Packet.header (packet c)).

Module ActiveRequests.

Notation MessageNonce := (vec byte 12).

Record ActiveRequests (Enr D : Type) `{!K256} := mkActive {
  active_requests_mapping : gmap NodeAddress (list (RequestCall Enr));
  active_requests_nonce_mapping : D;
}.
Arguments mkActive {Enr D _} active_requests_mapping active_requests_nonce_mapping.
Arguments active_requests_mapping {Enr D _} a : rename.
Arguments active_requests_nonce_mapping {Enr D _} a : rename.

Section ActiveRequests.
Context {Enr D : Type} `{!K256} `{!Rlp Enr} `{!HashMapDelay D MessageNonce NodeAddress}.
Implicit Types (self : ActiveRequests Enr D) (now : Z) (debug : bool).

Definition new (request_timeout : Z) : ActiveRequests Enr D := mkActive ∅ (dm_new request_timeout).

Definition insert self now (node_address : NodeAddress) (request_call : RequestCall Enr) : ActiveRequests Enr D :=
  let nonce := call_nonce request_call in
  let requests := default [] (active_requests_mapping self !! node_address) in
  mkActive (<[node_address := requests ++ [request_call]]> (active_requests_mapping self))
           (dm_insert (active_requests_nonce_mapping self) now nonce node_address).

(** [Iterator::position] of the call with a nonce, and of the one with an id. *)
Definition position_nonce (nonce : MessageNonce) (l : list (RequestCall Enr)) : option nat :=
  fst <$> list_find (fun req => call_nonce req = nonce) l.

Definition position_id (id : Rpc.RequestId) (l : list (RequestCall Enr)) : option nat :=
  fst <$> list_find (fun req => to_request_id (request_id req) = id) l.

Definition update_packet debug self now (old_nonce : MessageNonce) (new_packet : Packet.Packet Enr)
    : outcome (ActiveRequests Enr D) :=
  let '(nonces, removed) := dm_remove (active_requests_nonce_mapping self) old_nonce in
  match removed with
  | None => _ ← debug_unreachable debug; Ret (mkActive (active_requests_mapping self) nonces)
  | Some node_address =>
      let nonces := dm_insert nonces now (Packet.message_nonce (Packet.header new_packet)) node_address in
      match active_requests_mapping self !! node_address with
      | Some requests =>
          match position_nonce old_nonce requests with
          | Some i =>
              Ret (mkActive (<[node_address := alter (fun c => RequestCall.update_packet c new_packet) i requests]>
                               (active_requests_mapping self)) nonces)
          | None => _ ← debug_unreachable debug; Ret (mkActive (active_requests_mapping self) nonces)
          end
      | None => _ ← debug_unreachable debug; Ret (mkActive (active_requests_mapping self) nonces)
      end
  end.

Definition get self (node_address : NodeAddress) : option (list (RequestCall Enr)) :=
  active_requests_mapping self !! node_address.

(** [requests.remove()] of the occupied entry when its list has become empty. *)
Definition put_requests (m : gmap NodeAddress (list (RequestCall Enr))) (node_address : NodeAddress)
    (requests : list (RequestCall Enr)) : gmap NodeAddress (list (RequestCall Enr)) :=
  if decide (requests = []) then delete node_address m else <[node_address := requests]> m.

Definition remove_by_nonce debug self (nonce : MessageNonce)
    : outcome (ActiveRequests Enr D * option (NodeAddress * RequestCall Enr)) :=
  let '(nonces, removed) := dm_remove (active_requests_nonce_mapping self) nonce in
  match removed with
  | None => Ret (mkActive (active_requests_mapping self) nonces, None)
  | Some node_address =>
      match active_requests_mapping self !! node_address with
      | None => _ ← debug_unreachable debug; Ret (mkActive (active_requests_mapping self) nonces, None)
      | Some requests =>
          let '(requests, result) :=
            match position_nonce nonce requests with
            | Some i => (delete i requests, (fun c => (node_address, c)) <$> (requests !! i))
            | None => (requests, None)
            end in
          Ret (mkActive (put_requests (active_requests_mapping self) node_address requests) nonces, result)
      end
  end.

(** The loop of [remove_requests]. *)
Fixpoint remove_nonces debug (d : D) (requests : list (RequestCall Enr)) : outcome D :=
  match requests with
  | [] => Ret d
  | req :: requests =>
      let '(d, removed) := dm_remove d (call_nonce req) in
      _ ← match removed with None => debug_unreachable debug | Some _ => Ret () end;
      remove_nonces debug d requests
  end.

Definition remove_requests debug self (node_address : NodeAddress)
    : outcome (ActiveRequests Enr D * option (list (RequestCall Enr))) :=
  match active_requests_mapping self !! node_address with
  | None => Ret (self, None)
  | Some requests =>
      let m := delete node_address (active_requests_mapping self) in
      if decide (requests = [])
      then _ ← debug_unreachable debug; Ret (mkActive m (active_requests_nonce_mapping self), None)
      else
        d ← remove_nonces debug (active_requests_nonce_mapping self) requests;
        Ret (mkActive m d, Some requests)
  end.

Definition remove_request self (node_address : NodeAddress) (id : Rpc.RequestId)
    : ActiveRequests Enr D * option (RequestCall Enr) :=
  match active_requests_mapping self !! node_address with
  | None => (self, None)
  | Some requests =>
      match position_id id requests with
      | None => (self, None)
      | Some i =>
          match requests !! i with
          | None => (self, None)
          | Some request_call =>
              (mkActive (put_requests (active_requests_mapping self) node_address (delete i requests))
                 (dm_remove (active_requests_nonce_mapping self) (call_nonce request_call)).1, Some request_call)
          end
      end
  end.

(** [Stream::poll_next]. *)
Definition poll_next self now : ActiveRequests Enr D * Poll (option (result string (NodeAddress * RequestCall Enr))) :=
  match dm_poll_next (active_requests_nonce_mapping self) now with
  | (nonces, Ready (Some (Ok (nonce, node_address)))) =>
      let self := mkActive (active_requests_mapping self) nonces in
      match active_requests_mapping self !! node_address with
      | None => (self, Ready None)
      | Some requests =>
          match position_nonce nonce requests with
          | None => (self, Ready None)
          | Some i =>
              match requests !! i with
              | None => (self, Ready None)
              | Some request_call =>
                  (mkActive (put_requests (active_requests_mapping self) node_address (delete i requests)) nonces,
                   Ready (Some (Ok (node_address, request_call))))
              end
          end
      end
  | (nonces, Ready (Some (Err err))) =>
      (mkActive (active_requests_mapping self) nonces, Ready (Some (Err err)))
  | (nonces, Ready None) => (mkActive (active_requests_mapping self) nonces, Ready None)
  | (nonces, Pending) => (mkActive (active_requests_mapping self) nonces, Pending)
  end.

(** [check_invariant]: what the unit tests of the handler check. *)
Definition check_invariant self : bool :=
  bool_decide (map_Forall (fun (_ : MessageNonce) a => is_Some (active_requests_mapping self !! a))
                 (dm_iter (active_requests_nonce_mapping self))) &&
  bool_decide (map_Forall (fun _ l =>
      Forall (fun req => is_Some (dm_iter (active_requests_nonce_mapping self) !! call_nonce req)) l)
    (active_requests_mapping self)).
End ActiveRequests.
End ActiveRequests.
