(* ===== verification/ActiveRequestsProofs.v ===== *)
(** * The two tables of active requests stay in step

    As long as the message nonces of the inserted packets are fresh, every
    nonce in the expiring table belongs to exactly one stored request, no list
    is empty, the places marked unreachable are not reached, and a nonce that
    expires yields its request. *)

From stdpp Require Import strings.
From S2P Require Import Prelude Bytes Key Rpc Packet NodeInfo Maps ActiveRequests CryptoSample.
Import NodeInfo RequestCall ActiveRequests.

Section Sync.
Context {Enr D : Type} `{!K256} `{!HashMapDelay D MessageNonce NodeAddress}
  `{!HashMapDelayLaws D MessageNonce NodeAddress}.
Notation calls := (gmap NodeAddress (list (RequestCall Enr))).
Implicit Types (m : calls) (n : gmap MessageNonce NodeAddress) (a : ActiveRequests Enr D)
  (addr : NodeAddress) (l : list (RequestCall Enr)) (c : RequestCall Enr).

(** The nonces are those of the stored requests. *)
Record sync m n : Prop := mkSync {
  sync_nonce k addr : n !! k = Some addr <-> exists l c, m !! addr = Some l /\ c ∈ l /\ call_nonce c = k;
  sync_nodup addr l : m !! addr = Some l -> NoDup (call_nonce <$> l);
  sync_nonempty addr : m !! addr <> Some [];
}.

Definition in_sync a : Prop := sync (active_requests_mapping a) (dm_iter (active_requests_nonce_mapping a)).

Lemma elem_delete l i c c' :
  NoDup (call_nonce <$> l) -> l !! i = Some c ->
  c' ∈ delete i l <-> c' ∈ l /\ call_nonce c' <> call_nonce c.
Proof.
  intros Hnd Hi. rewrite delete_take_drop. rewrite <-(take_drop_middle l i c Hi) in Hnd |- * at 3.
  rewrite fmap_app, fmap_cons in Hnd. apply NoDup_app in Hnd as (_ & Hd & [Hc _]%NoDup_cons).
  rewrite !elem_of_app, elem_of_cons. split.
  - intros [Hin|Hin]; (split; [tauto|]); intros E.
    + apply (Hd (call_nonce c')); [by apply list_elem_of_fmap_2|]. rewrite E. by left.
    + apply Hc. rewrite <-E. by apply list_elem_of_fmap_2.
  - intros [[Hin|[->|Hin]] Hne]; [by left|done|by right].
Qed.

Lemma nodup_delete l i : NoDup (call_nonce <$> l) -> NoDup (call_nonce <$> delete i l).
Proof. intros Hnd. eapply sublist_NoDup; [exact Hnd|]. apply fmap_sublist, sublist_delete. Qed.

Lemma lookup_put m addr l addr' :
  put_requests m addr l !! addr' = if decide (addr = addr' /\ l = []) then None
                                   else if decide (addr = addr') then Some l else m !! addr'.
Proof.
  unfold put_requests. repeat case_decide; destruct_and?; subst; simplify_map_eq; tauto.
Qed.

(** What is stored after the request at position [i] of a list is taken out. *)
Lemma stored_delete m n addr l i c addr' k :
  sync m n -> m !! addr = Some l -> l !! i = Some c ->
  (exists l' c', put_requests m addr (delete i l) !! addr' = Some l' /\ c' ∈ l' /\ call_nonce c' = k) <->
  k <> call_nonce c /\ exists l' c', m !! addr' = Some l' /\ c' ∈ l' /\ call_nonce c' = k.
Proof.
  intros Hs Hl Hi. pose proof (sync_nodup _ _ Hs _ _ Hl) as Hnd.
  assert (n !! call_nonce c = Some addr) as Hc.
  { apply (sync_nonce _ _ Hs). exists l, c. split_and!; [done| |done]. by eapply list_elem_of_lookup_2. }
  rewrite lookup_put. split.
  - intros (l' & c' & Hp & Hin & <-). repeat case_decide; simplify_eq.
    + apply (elem_delete l i c) in Hin as [Hin Hne]; [|done..]. eauto 10.
    + split; [|eauto]. intros E.
      assert (n !! call_nonce c' = Some addr') as Hc' by (apply (sync_nonce _ _ Hs); eauto).
      rewrite E in Hc'. congruence.
  - intros (Hne & l' & c' & Hl' & Hin & <-).
    destruct (decide (addr = addr')) as [->|].
    + rewrite Hl in Hl'. injection Hl' as <-. assert (c' ∈ delete i l) as Hd by (by apply (elem_delete l i c)).
      rewrite decide_False; [eauto|]. intros [_ E]. rewrite E in Hd. by apply elem_of_nil in Hd.
    + rewrite decide_False by tauto. eauto.
Qed.

Lemma sync_delete m n addr l i c :
  sync m n -> m !! addr = Some l -> l !! i = Some c ->
  sync (put_requests m addr (delete i l)) (delete (call_nonce c) n).
Proof.
  intros Hs Hl Hi. split.
  - intros k addr'. rewrite (stored_delete m n addr l i c addr' k Hs Hl Hi), lookup_delete_Some.
    rewrite (sync_nonce _ _ Hs). naive_solver.
  - intros addr' l'. rewrite lookup_put. repeat case_decide; [done| |by apply (sync_nodup _ _ Hs)].
    intros [= <-]. apply nodup_delete. by eapply sync_nodup.
  - intros addr'. rewrite lookup_put. repeat case_decide; [done| |by apply (sync_nonempty _ _ Hs)].
    intros [=]. naive_solver.
Qed.

Lemma sync_insert m n addr c :
  sync m n -> n !! call_nonce c = None ->
  sync (<[addr := default [] (m !! addr) ++ [c]]> m) (<[call_nonce c := addr]> n).
Proof.
  intros Hs Hf. assert (forall addr' l' c', m !! addr' = Some l' -> c' ∈ l' -> call_nonce c' <> call_nonce c) as Hne.
  { intros addr' l' c' Hl' Hin E. assert (n !! call_nonce c' = Some addr') by (apply (sync_nonce _ _ Hs); eauto).
    congruence. }
  split.
  - intros k addr'. rewrite lookup_insert_Some, (sync_nonce _ _ Hs). split.
    + intros [[<- <-]|[Hk (l' & c' & Hl' & Hin & <-)]].
      * eexists _, c. rewrite lookup_insert_eq. split_and!; [done| |done]. set_solver.
      * destruct (decide (addr = addr')) as [->|]; [|rewrite lookup_insert_ne by done; eauto].
        eexists _, c'. rewrite lookup_insert_eq, Hl'. split_and!; [done| |done]. set_solver.
    + intros (l' & c' & Hl' & Hin & <-). destruct (decide (addr = addr')) as [->|].
      * rewrite lookup_insert_eq in Hl'. injection Hl' as <-. apply elem_of_app in Hin as [Hin|Hin].
        -- destruct (m !! addr') as [l'|] eqn:E; simpl in Hin; [|by apply elem_of_nil in Hin].
           right. split; [by apply not_eq_sym, (Hne addr' l' c')|eauto].
        -- apply list_elem_of_singleton in Hin as ->. by left.
      * rewrite lookup_insert_ne in Hl' by done. right.
        split; [by apply not_eq_sym, (Hne addr' l' c')|eauto].
  - intros addr' l'. destruct (decide (addr = addr')) as [->|];
      [rewrite lookup_insert_eq|rewrite lookup_insert_ne by done; by apply (sync_nodup _ _ Hs)].
    intros [= <-]. rewrite fmap_app. apply NoDup_app. split_and!; [| |apply NoDup_singleton].
    + destruct (m !! addr') eqn:E; simpl; [by apply (sync_nodup _ _ Hs) in E|constructor].
    + intros k (c' & -> & Hin)%list_elem_of_fmap Hk%list_elem_of_singleton.
      destruct (m !! addr') eqn:E; simpl in Hin; [by apply (Hne _ _ c' E)|by apply elem_of_nil in Hin].
  - intros addr'. destruct (decide (addr = addr')) as [->|];
      [rewrite lookup_insert_eq|rewrite lookup_insert_ne by done; by apply (sync_nonempty _ _ Hs)].
    by destruct (default [] _).
Qed.

Lemma sync_empty : sync ∅ ∅.
Proof.
  split.
  - intros k addr. rewrite lookup_empty. split; [done|]. intros (l & c & Hl & _). by rewrite lookup_empty in Hl.
  - intros addr l. by rewrite lookup_empty.
  - intros addr. by rewrite lookup_empty.
Qed.

(** ** Removal of all requests of a node *)

Lemma remove_nonces_spec (d : D) l :
  NoDup (call_nonce <$> l) -> (forall c, c ∈ l -> is_Some (dm_iter d !! call_nonce c)) ->
  exists d', remove_nonces true d l = Ret d' /\
    forall k, dm_iter d' !! k = if decide (k ∈ call_nonce <$> l) then None else dm_iter d !! k.
Proof.
  revert d. induction l as [|c l IH]; intros d Hnd Hin; cbn [remove_nonces].
  - exists d. split; [done|]. intros k. by rewrite decide_False by apply not_elem_of_nil.
  - apply NoDup_cons in Hnd as [Hc Hnd]. destruct (dm_remove d (call_nonce c)) as [d1 r] eqn:E.
    pose proof (dm_removed d (call_nonce c)) as Hr. pose proof (dm_iter_remove d (call_nonce c)) as Hd1.
    rewrite E in Hr, Hd1. simpl in Hr, Hd1.
    destruct (Hin c) as [x Hx]; [by left|]. rewrite Hx in Hr. subst r. simpl.
    destruct (IH d1 Hnd) as (d' & Hd' & Hl).
    { intros c' Hc'. rewrite Hd1, lookup_delete_ne; [apply Hin; by right|].
      intros Heq. apply Hc. rewrite Heq. by apply list_elem_of_fmap_2. }
    exists d'. split; [done|]. intros k. rewrite Hl, Hd1. destruct (decide (k = call_nonce c)) as [->|Hk].
    + rewrite lookup_delete_eq. rewrite (decide_True (P := call_nonce c ∈ call_nonce c :: _)) by (by left).
      by case_decide.
    + rewrite lookup_delete_ne by done. apply decide_ext. rewrite elem_of_cons. tauto.
Qed.

Lemma sync_delete_all m n n' addr l :
  sync m n -> m !! addr = Some l ->
  (forall k, n' !! k = if decide (k ∈ call_nonce <$> l) then None else n !! k) ->
  sync (delete addr m) n'.
Proof.
  intros Hs Hl Hn. split.
  - intros k addr'. rewrite Hn. split.
    + case_decide as Hk; [done|]. intros (l' & c' & Hl' & Hin & <-)%(sync_nonce _ _ Hs).
      exists l', c'. rewrite lookup_delete_ne; [done|]. intros ->. simplify_eq.
      apply Hk. by apply list_elem_of_fmap_2.
    + intros (l' & c' & [Hne Hl']%lookup_delete_Some & Hin & <-).
      assert (n !! call_nonce c' = Some addr') as Hc' by (apply (sync_nonce _ _ Hs); eauto).
      rewrite decide_False; [done|]. intros (c & E & Hc)%list_elem_of_fmap.
      assert (n !! call_nonce c = Some addr) by (apply (sync_nonce _ _ Hs); eauto). congruence.
  - intros addr' l' [_ Hl']%lookup_delete_Some. by eapply sync_nodup.
  - intros addr' [_ Hl']%lookup_delete_Some. by eapply sync_nonempty.
Qed.

(** ** Operations *)

Lemma position_nonce_spec k l :
  match position_nonce k l with
  | Some i => exists c, l !! i = Some c /\ call_nonce c = k
  | None => forall c, c ∈ l -> call_nonce c <> k
  end.
Proof.
  unfold position_nonce. destruct (list_find _ l) as [[i c]|] eqn:E; simpl.
  - apply list_find_Some in E as (? & ? & _). eauto.
  - apply list_find_None in E. by rewrite Forall_forall in E.
Qed.

(** A nonce of the table belongs to a request at its address. *)
Lemma sync_position m n k addr :
  sync m n -> n !! k = Some addr ->
  exists l i c, m !! addr = Some l /\ position_nonce k l = Some i /\ l !! i = Some c /\ call_nonce c = k.
Proof.
  intros Hs (l & c & Hl & Hin & Hk)%(sync_nonce _ _ Hs). pose proof (position_nonce_spec k l) as Hp.
  destruct (position_nonce k l) as [i|] eqn:E; [|by destruct (Hp c Hin)].
  destruct Hp as (c' & Hc' & Hk'). eauto 10.
Qed.

Lemma remove_by_nonce_sync a k :
  in_sync a -> exists a' r, remove_by_nonce true a k = Ret (a', r) /\ in_sync a' /\
    match r with
    | Some (addr, c) => dm_iter (active_requests_nonce_mapping a) !! k = Some addr /\ call_nonce c = k
    | None => dm_iter (active_requests_nonce_mapping a) !! k = None
    end.
Proof.
  intros Hs. unfold remove_by_nonce. destruct (dm_remove _ k) as [d r] eqn:E.
  pose proof (dm_removed (active_requests_nonce_mapping a) k) as Hr.
  pose proof (dm_iter_remove (active_requests_nonce_mapping a) k) as Hd. rewrite E in Hr, Hd. simpl in Hr, Hd.
  destruct r as [addr|].
  - symmetry in Hr. destruct (sync_position _ _ _ _ Hs Hr) as (l & i & c & Hl & Hp & Hi & Hk).
    rewrite Hl, Hp, Hi. eexists _, _. split; [done|]. split; [|done].
    unfold in_sync. simpl. rewrite Hd, <-Hk. by apply sync_delete.
  - eexists _, _. split; [done|]. split; [|done]. unfold in_sync. simpl. rewrite Hd, delete_id; done.
Qed.

Lemma remove_requests_sync a addr :
  in_sync a -> exists a' r, remove_requests true a addr = Ret (a', r) /\ in_sync a'.
Proof.
  intros Hs. unfold remove_requests. destruct (active_requests_mapping a !! addr) as [l|] eqn:Hl; [|eauto].
  rewrite decide_False by (intros ->; by apply (sync_nonempty _ _ Hs) in Hl).
  destruct (remove_nonces_spec (active_requests_nonce_mapping a) l) as (d & -> & Hd).
  - by eapply sync_nodup.
  - intros c Hc. exists addr. apply (sync_nonce _ _ Hs). eauto.
  - simpl. eexists _, _. split; [done|]. by eapply sync_delete_all.
Qed.

Lemma remove_request_sync a addr id : in_sync a -> in_sync (remove_request a addr id).1.
Proof.
  intros Hs. unfold remove_request. destruct (_ !! addr) as [l|] eqn:Hl; [|done].
  destruct (position_id id l) as [i|]; [|done]. destruct (l !! i) as [c|] eqn:Hi; [|done].
  unfold in_sync. simpl. rewrite dm_iter_remove. by apply sync_delete.
Qed.

Lemma poll_next_sync a now : in_sync a -> in_sync (poll_next a now).1 /\
  forall k addr d, dm_poll_next (active_requests_nonce_mapping a) now = (d, Ready (Some (Ok (k, addr)))) ->
    exists c, (poll_next a now).2 = Ready (Some (Ok (addr, c))) /\ call_nonce c = k.
Proof.
  intros Hs. unfold poll_next. pose proof (dm_polled (active_requests_nonce_mapping a) now) as Hp.
  destruct (dm_poll_next _ now) as [d [[[[k addr]|]|]|]]; simpl; try (split; [by red; simpl; rewrite Hp|done]).
  destruct Hp as [Hk Hd]. destruct (sync_position _ _ _ _ Hs Hk) as (l & i & c & Hl & Hpos & Hi & Hck).
  rewrite Hl, Hpos, Hi. simpl. split.
  - unfold in_sync. simpl. rewrite Hd, <-Hck. by apply sync_delete.
  - intros ??? [= -> -> ->]. eauto.
Qed.

(** ** Replacing a packet *)

Lemma sync_perm m n addr l l' : sync m n -> m !! addr = Some l -> l ≡ₚ l' -> sync (<[addr := l']> m) n.
Proof.
  intros Hs Hl Hp. split.
  - intros k addr'. rewrite (sync_nonce _ _ Hs). destruct (decide (addr = addr')) as [->|].
    + rewrite lookup_insert_eq. split; intros (l0 & c & E & Hin & Hk); simplify_eq.
      * exists l', c. split_and!; [done|by rewrite <-Hp|done].
      * exists l, c. split_and!; [done|by rewrite Hp|done].
    + by rewrite lookup_insert_ne.
  - intros addr' l0 [[<- <-]|[_ Hl0]]%lookup_insert_Some; [|by eapply sync_nodup].
    rewrite <-Hp. by eapply sync_nodup.
  - intros addr' [[<- ->]|[_ Hl0]]%lookup_insert_Some; [|by apply (sync_nonempty _ _ Hs) in Hl0].
    apply Permutation_nil_r in Hp as ->. by apply (sync_nonempty _ _ Hs) in Hl.
Qed.

Lemma alter_perm (f : RequestCall Enr -> RequestCall Enr) l i c :
  l !! i = Some c -> delete i l ++ [f c] ≡ₚ alter f i l.
Proof.
  intros Hi. rewrite delete_take_drop. rewrite <-(take_drop_middle l i c Hi) at 3.
  assert (length (take i l) = i) as Hlen by (rewrite length_take; apply lookup_lt_Some in Hi; lia).
  rewrite <-Hlen at 3. rewrite <-(Nat.add_0_r (length (take i l))), alter_app_r. simpl.
  rewrite <-app_assoc. apply Permutation_app_head. by rewrite Permutation_app_comm.
Qed.

Lemma sync_update m n addr l i c (p : Packet.Packet Enr) :
  sync m n -> m !! addr = Some l -> l !! i = Some c ->
  let new_nonce := Packet.message_nonce (Packet.header p) in
  (n !! new_nonce = None \/ new_nonce = call_nonce c) ->
  sync (<[addr := alter (fun c => RequestCall.update_packet c p) i l]> m)
       (<[new_nonce := addr]> (delete (call_nonce c) n)).
Proof.
  intros Hs Hl Hi new_nonce Hnew. set (c' := RequestCall.update_packet c p).
  pose proof (sync_insert _ _ addr c' (sync_delete _ _ _ _ _ _ Hs Hl Hi)) as Hs'.
  assert (default [] (put_requests m addr (delete i l) !! addr) = delete i l) as Hput.
  { rewrite lookup_put. repeat case_decide; destruct_and?; try done; try congruence. }
  assert (<[addr := delete i l ++ [c']]> (put_requests m addr (delete i l)) = <[addr := delete i l ++ [c']]> m) as Hins.
  { unfold put_requests. case_decide; [apply insert_delete_eq|apply insert_insert_eq]. }
  rewrite Hput, Hins in Hs'.
  assert (<[addr := alter (fun c => RequestCall.update_packet c p) i l]> m =
          <[addr := alter (fun c => RequestCall.update_packet c p) i l]> (<[addr := delete i l ++ [c']]> m)) as ->
    by (by rewrite insert_insert_eq).
  eapply sync_perm; [|apply lookup_insert_eq|by apply (alter_perm (fun c => RequestCall.update_packet c p))].
  apply Hs'. change (call_nonce c') with new_nonce. destruct Hnew as [Hnew| ->].
  - apply lookup_delete_None. by right.
  - apply lookup_delete_eq.
Qed.

Lemma update_packet_sync a now k (p : Packet.Packet Enr) addr :
  in_sync a -> dm_iter (active_requests_nonce_mapping a) !! k = Some addr ->
  let new_nonce := Packet.message_nonce (Packet.header p) in
  (dm_iter (active_requests_nonce_mapping a) !! new_nonce = None \/ new_nonce = k) ->
  exists a', update_packet true a now k p = Ret a' /\ in_sync a'.
Proof.
  intros Hs Hk new_nonce Hnew. unfold update_packet. destruct (dm_remove _ k) as [d r] eqn:E.
  pose proof (dm_removed (active_requests_nonce_mapping a) k) as Hr.
  pose proof (dm_iter_remove (active_requests_nonce_mapping a) k) as Hd. rewrite E in Hr, Hd. simpl in Hr, Hd.
  rewrite Hk in Hr. subst r. destruct (sync_position _ _ _ _ Hs Hk) as (l & i & c & Hl & Hp & Hi & <-).
  rewrite Hl, Hp. eexists. split; [done|]. unfold in_sync. simpl. rewrite dm_iter_insert, Hd.
  by apply sync_update.
Qed.

(** ** Reachable tables *)

Inductive reachable : ActiveRequests Enr D -> Prop :=
  | reach_new timeout : reachable (new timeout)
  | reach_insert a now addr c :
      reachable a -> dm_iter (active_requests_nonce_mapping a) !! call_nonce c = None ->
      reachable (insert a now addr c)
  | reach_update a now k addr (p : Packet.Packet Enr) a' :
      reachable a -> dm_iter (active_requests_nonce_mapping a) !! k = Some addr ->
      dm_iter (active_requests_nonce_mapping a) !! Packet.message_nonce (Packet.header p) = None ->
      update_packet true a now k p = Ret a' -> reachable a'
  | reach_remove_by_nonce a k a' r : reachable a -> remove_by_nonce true a k = Ret (a', r) -> reachable a'
  | reach_remove_requests a addr a' r : reachable a -> remove_requests true a addr = Ret (a', r) -> reachable a'
  | reach_remove_request a addr id : reachable a -> reachable (remove_request a addr id).1
  | reach_poll_next a now : reachable a -> reachable (poll_next a now).1.

Lemma reachable_sync a : reachable a -> in_sync a.
Proof.
  induction 1 as [timeout|a now addr c _ IH Hf|a now k addr p a' _ IH Hk Hf E|a k a' r _ IH E|a addr a' r _ IH E
                 |a addr id _ IH|a now _ IH].
  - unfold in_sync. simpl. rewrite dm_iter_new. apply sync_empty.
  - unfold in_sync. simpl. rewrite dm_iter_insert. by apply sync_insert.
  - destruct (update_packet_sync a now k p addr) as (a1 & E1 & Hs); [done|done|by left|].
    rewrite E in E1. by injection E1 as ->.
  - destruct (remove_by_nonce_sync a k IH) as (a1 & r1 & E1 & Hs & _). rewrite E in E1. by injection E1 as -> ->.
  - destruct (remove_requests_sync a addr IH) as (a1 & r1 & E1 & Hs). rewrite E in E1. by injection E1 as -> ->.
  - by apply remove_request_sync.
  - by apply poll_next_sync.
Qed.

Lemma sync_check_invariant a : in_sync a -> check_invariant a = true.
Proof.
  intros Hs. unfold check_invariant. apply andb_true_intro. split; apply bool_decide_eq_true.
  - intros k addr (l & c & Hl & _)%(sync_nonce _ _ Hs). eauto.
  - intros addr l Hl. apply Forall_forall. intros c Hc. exists addr. apply (sync_nonce _ _ Hs). eauto.
Qed.

(** C40: whatever sequence of operations the tables went through, with a fresh
    nonce for every packet that is inserted or replaced: the invariant the unit
    tests check holds; no operation reaches a place marked unreachable, in a
    debug build; a WHOAREYOU nonce finds the request it answers, and a nonce
    that expires yields the request that was sent with it. *)
Theorem active_requests_sync a :
  reachable a ->
  check_invariant a = true /\
  (forall k, exists a' r, remove_by_nonce true a k = Ret (a', r) /\
     match dm_iter (active_requests_nonce_mapping a) !! k with
     | Some addr => exists c, r = Some (addr, c) /\ call_nonce c = k
     | None => r = None
     end) /\
  (forall addr, is_ret (remove_requests true a addr)) /\
  (forall now k addr p, dm_iter (active_requests_nonce_mapping a) !! k = Some addr ->
     dm_iter (active_requests_nonce_mapping a) !! Packet.message_nonce (Packet.header p) = None ->
     is_ret (update_packet true a now k p)) /\
  (forall now d k addr,
     dm_poll_next (active_requests_nonce_mapping a) now = (d, Ready (Some (Ok (k, addr)))) ->
     exists c, (poll_next a now).2 = Ready (Some (Ok (addr, c))) /\ call_nonce c = k).
Proof.
  intros Hs%reachable_sync. split_and!.
  - by apply sync_check_invariant.
  - intros k. destruct (remove_by_nonce_sync a k Hs) as (a' & r & E & _ & Hr). exists a', r. split; [done|].
    destruct r as [[addr c]|]; [destruct Hr as [-> Hk]; eauto|by rewrite Hr].
  - intros addr. destruct (remove_requests_sync a addr Hs) as (a' & r & E & _). by eexists.
  - intros now k addr p Hk Hf. destruct (update_packet_sync a now k p addr Hs Hk) as (a' & E & _); [by left|].
    by eexists.
  - intros now d k addr E. by eapply poll_next_sync.
Qed.
End Sync.

(** ** The theorem at concrete tables *)
Import CryptoSample TimedMap.

Definition sample_call (n : byte) : RequestCall (list byte) :=
  RequestCall.new (mkContact (PubSecp256k1 x02) (SockV4 (mkSocketAddrV4 [# x7f; x00; x00; x02] 9000)) None)
    (Packet.new_message 0 (vreplicate 32 x01) (vreplicate 12 n) []) (External [n]) (Rpc.Ping 1) true.

Definition sample_address : NodeAddress := node_address (contact (sample_call x01)).

Definition sample_requests : ActiveRequests (list byte) (TimedMap MessageNonce NodeAddress) :=
  insert (insert (new 100) 5 sample_address (sample_call x01)) 7 sample_address (sample_call x02).

Lemma active_requests_sync_witness :
  check_invariant sample_requests = true /\
  exists a c, remove_by_nonce true sample_requests (vreplicate 12 x02) = Ret (a, Some (sample_address, c)).
Proof.
  assert (reachable sample_requests) as Hr.
  { apply reach_insert; [apply reach_insert; [apply reach_new|]|]; by vm_compute. }
  destruct (active_requests_sync sample_requests Hr) as (Hc & Hn & _). split; [done|].
  destruct (Hn (vreplicate 12 x02)) as (a & r & E & Hk).
  assert (dm_iter (active_requests_nonce_mapping sample_requests) !! vreplicate 12 x02 = Some sample_address)
    as Hl by (by vm_compute).
  rewrite Hl in Hk. destruct Hk as (c & -> & _). eauto.
Defined.
