(* ===== verification/Session.v ===== *)
(** * Sessions (src/src/handler/session.rs)

    The keys shared with a node, the encryption of messages with them, and the
    two ends of the handshake.  Random values are arguments.  The handshake
    theorem composes both ends with the encoding of packets: whatever the
    initiator sends, the recipient decodes, verifies and decrypts, and both ends
    hold the same keys. *)

From stdpp Require Import strings.
From S2P Require Import Prelude Bytes Key Rpc Packet PacketProofs NodeInfo Crypto.
Import Packet NodeInfo.

(** [Challenge] (handler/mod.rs). *)
Record Challenge (Enr : Type) := mkChallenge {
  challenge_data : vec byte 63;
  challenge_remote_enr : option Enr;
}.
Arguments mkChallenge {Enr} challenge_data challenge_remote_enr.
Arguments challenge_data {Enr} c : rename.
Arguments challenge_remote_enr {Enr} c : rename.

Module Session.

Record Keys := mkKeys { encryption_key : list byte; decryption_key : list byte }.

Record Session := mkSession {
  keys : Keys;
  old_keys : option Keys;
  awaiting_enr : option Rpc.RequestId;
  counter : Z;
}.

(** The [Error]s a session reports (error.rs). *)
Inductive Error (Enr : Type) :=
  | CryptoFailed (e : Crypto.CryptoError)
  | Custom (msg : string)
  | SessionNotEstablished
  | InvalidChallengeSignature (c : Challenge Enr).
Arguments CryptoFailed {Enr} e.
Arguments Custom {Enr} msg.
Arguments SessionNotEstablished {Enr}.
Arguments InvalidChallengeSignature {Enr} c.

Definition new (keys : Keys) : Session := mkSession keys None None 0.

Definition update (self new_session : Session) : Session :=
  mkSession (keys new_session) (Some (keys self)) (awaiting_enr new_session) (counter self).

(** [u32::to_be_bytes]. *)
Definition u32_to_be_bytes (n : Z) : vec byte 4 :=
  [# byte_of_Z (Z.shiftr n 24); byte_of_Z (Z.shiftr n 16); byte_of_Z (Z.shiftr n 8); byte_of_Z n].

(** [self.counter += 1] on a [u32]. *)
Definition increment (debug : bool) (n : Z) : outcome Z := arith debug (2 ^ 32) (n + 1).

Section Session.
Context {Enr : Type} `{!K256} `{!EnrCrate Enr} `{!Primitives} `{!EnrCodec Enr} `{!ProtocolIdentity}.

(** [?] on a [CryptoError]. *)
Definition from_crypto {A} (r : result Crypto.CryptoError A) : result (Error Enr) A :=
  match r with Ok a => Ok a | Err e => Err (CryptoFailed e) end.

Definition encrypt_message (debug : bool) (self : Session) (random_nonce : vec byte 8) (iv : Z) (src_id : NodeId)
    (message : list byte) : outcome (Session * result (Error Enr) (Packet Enr)) :=
  counter ← increment debug (counter self);
  let self := mkSession (keys self) (old_keys self) (awaiting_enr self) counter in
  let message_nonce := u32_to_be_bytes counter +++ random_nonce in
  let header := mkHeader message_nonce (Message src_id) in
  let authenticated_data := to_be_bytes 16 iv ++ header_encode header in
  Ret (self,
    cipher ← from_crypto (Crypto.encrypt_message (encryption_key (keys self)) message_nonce message authenticated_data);
    Ok (mkPacket iv header cipher)).

Definition decrypt_message (self : Session) (message_nonce : vec byte 12) (message aad : list byte)
    : Session * result Crypto.CryptoError (list byte) :=
  let result_canon := Crypto.decrypt_message (decryption_key (keys self)) message_nonce message aad in
  match result_canon with
  | Ok _ => (self, result_canon)
  | Err _ =>
      match old_keys self with
      | Some old =>
          let result := Crypto.decrypt_message (decryption_key old) message_nonce message aad in
          match result with
          | Ok _ => (mkSession old (Some (keys self)) (awaiting_enr self) (counter self), result)
          | Err _ => (mkSession (keys self) None (awaiting_enr self) (counter self), result)
          end
      | None => (self, result_canon)
      end
  end.

(** The record of the two that has the higher sequence number. *)
Definition newest_enr (enr_record remote_enr : option Enr) : option Enr :=
  match enr_record, remote_enr with
  | Some new_enr, Some known_enr => if decide (enr_seq new_enr > enr_seq known_enr)%Z then Some new_enr else Some known_enr
  | Some new_enr, None => Some new_enr
  | None, Some known_enr => Some known_enr
  | None, None => None
  end.

Definition establish_from_challenge (local_key : CombinedKey) (local_id remote_id : NodeId)
    (challenge : Challenge Enr) (id_nonce_sig ephem_pubkey : list byte) (enr_record : option Enr)
    : result (Error Enr) (Session * Enr) :=
  match newest_enr enr_record (challenge_remote_enr challenge) with
  | None => Err SessionNotEstablished
  | Some enr =>
      let remote_public_key := enr_public_key enr in
      if negb (Crypto.verify_authentication_nonce remote_public_key ephem_pubkey (challenge_data challenge)
                 local_id id_nonce_sig)
      then Err (InvalidChallengeSignature challenge)
      else
        '(decryption_key, encryption_key) ← from_crypto (Crypto.derive_keys_from_pubkey local_key local_id remote_id
           (challenge_data challenge) ephem_pubkey);
        Ok (new (mkKeys encryption_key decryption_key), enr)
  end.

Definition encrypt_with_header (ephem_sk : SigningKey) (message_nonce : vec byte 12) (iv : Z)
    (remote_contact : NodeContact Enr) (local_key : CombinedKey) (updated_enr : option Enr)
    (local_node_id : NodeId) (challenge_data : vec byte 63) (message : list byte)
    : result (Error Enr) (Packet Enr * Session) :=
  '(encryption_key, decryption_key, ephem_pubkey) ← from_crypto
     (Crypto.generate_session_keys ephem_sk local_node_id remote_contact challenge_data);
  sig ← match Crypto.sign_nonce local_key challenge_data ephem_pubkey (contact_node_id remote_contact) with
        | Ok sig => Ok sig
        | Err _ => Err (Custom "Could not sign WHOAREYOU nonce")
        end;
  let packet := new_authheader iv local_node_id message_nonce sig ephem_pubkey updated_enr in
  message_ciphertext ← from_crypto (Crypto.encrypt_message encryption_key message_nonce message
    (to_be_bytes 16 iv ++ header_encode (Packet.header packet)));
  Ok (mkPacket iv (Packet.header packet) message_ciphertext, new (mkKeys encryption_key decryption_key)).
End Session.
End Session.
