(* ===== verification/SessionProofs.v ===== *)
(** * Both ends of a handshake agree

    The two ends derive the same keys, the packet that opens a session is
    decoded, verified and decrypted by the recipient, and later messages are
    decrypted by the other end.  The nonces of the messages of a session are
    distinct. *)

From stdpp Require Import strings.
From S2P Require Import Prelude Bytes Key Rpc Packet PacketProofs NodeInfo Crypto CryptoSample Session.
Import Packet NodeInfo.

#[local] Arguments to_be_bytes : simpl never.
#[local] Arguments header_encode : simpl never.
#[local] Arguments Crypto.sign_nonce : simpl never.
#[local] Arguments Crypto.verify_authentication_nonce : simpl never.
#[local] Arguments Crypto.derive_keys_from_pubkey : simpl never.
#[local] Arguments Crypto.encrypt_message : simpl never.
#[local] Arguments Session.encrypt_message : simpl never.
#[local] Arguments Session.decrypt_message : simpl never.
#[local] Arguments Session.u32_to_be_bytes : simpl never.
#[local] Arguments vapp : simpl never.

Section Agreement.
Context {Enr : Type} `{!K256} `{!EnrCrate Enr} `{!Primitives} `{!PrimitiveLaws} `{!EnrCodec Enr} `{!ProtocolIdentity}.

Lemma crypto_roundtrip key nonce m aad c :
  Crypto.encrypt_message key nonce m aad = Ok c -> Crypto.decrypt_message key nonce c aad = Ok m.
Proof.
  unfold Crypto.encrypt_message, Crypto.decrypt_message.
  destruct (gcm_encrypt _ _ _ _) as [c'|] eqn:E; [|done]. intros [= <-].
  apply gcm_decrypt_encrypt in E as [-> Hl]. by rewrite decide_False by lia.
Qed.

(** A message of one end is decrypted by an end with the matching key. *)
Lemma session_message debug s nonce8 iv0 src_id m s1 (p : Packet Enr) :
  Session.encrypt_message debug s nonce8 iv0 src_id m = Ret (s1, Ok p) ->
  iv p = iv0 /\ kind (header p) = Message src_id /\
  forall s', Session.encryption_key (Session.keys s) = Session.decryption_key (Session.keys s') ->
    Session.decrypt_message s' (message_nonce (header p)) (message p) (authenticated_data p) = (s', Ok m).
Proof.
  unfold Session.encrypt_message, Session.from_crypto. cbn [mbind outcome_bind].
  destruct (Session.increment _ _) as [n|]; [|done]. cbn [Session.keys Session.counter]. intros [= <- Hs].
  destruct (Crypto.encrypt_message _ _ _ _) as [c|e] eqn:E; cbn [mbind result_bind] in Hs; [|discriminate Hs].
  injection Hs as <-. cbn [message_nonce message header kind Packet.iv]. split_and!; [done..|]. intros s' Hk.
  unfold Session.decrypt_message, authenticated_data. cbn [Packet.iv Packet.header].
  rewrite <-Hk. match goal with |- context [Crypto.decrypt_message ?k ?n ?c ?a] =>
    by replace (Crypto.decrypt_message k n c a) with (@Ok Crypto.CryptoError _ m) by (symmetry; exact (crypto_roundtrip _ _ _ _ _ E)) end.
Qed.

(** Encryption counts the message and leaves the keys; decryption leaves a
    session without keys of an earlier handshake as it is. *)
Lemma encrypt_keys debug s nonce8 iv0 src_id m s1 (r : result (Session.Error Enr) (Packet Enr)) :
  Session.encrypt_message debug s nonce8 iv0 src_id m = Ret (s1, r) ->
  Session.keys s1 = Session.keys s /\ Session.old_keys s1 = Session.old_keys s.
Proof.
  unfold Session.encrypt_message. cbn [mbind outcome_bind]. destruct (Session.increment _ _); [|done]. by intros [= <- _].
Qed.

Lemma decrypt_fresh s n m aad : Session.old_keys s = None -> fst (Session.decrypt_message s n m aad) = s.
Proof. intros E. unfold Session.decrypt_message. rewrite E. by case_match. Qed.

(** The keys of the initiator and of the recipient are the same, crosswise. *)
Lemma derived_keys_agree ka_eph kb local_id (contact : NodeContact Enr) cd k1 k2 pk :
  contact_public_key contact = PubSecp256k1 (verifying_key kb) ->
  Crypto.generate_session_keys ka_eph local_id contact cd = Ok (k1, k2, pk) ->
  Crypto.derive_keys_from_pubkey (Secp256k1 kb) (contact_node_id contact) local_id cd pk = Ok (k1, k2).
Proof.
  intros Hpk. unfold Crypto.generate_session_keys. rewrite Hpk.
  destruct (Crypto.derive_key _ _ _ _) as [[a b]|] eqn:E; simpl; [|done]. intros [= <- <- <-].
  unfold Crypto.derive_keys_from_pubkey. rewrite from_to_sec1_bytes.
  unfold Crypto.ecdh in *. by rewrite scalar_mul_comm.
Qed.

Lemma signature_verifies ka cd pk dst sig :
  Crypto.sign_nonce (Secp256k1 ka) cd pk dst = Ok sig ->
  Crypto.verify_authentication_nonce (PubSecp256k1 (verifying_key ka)) pk cd dst sig = true.
Proof.
  unfold Crypto.sign_nonce, Crypto.verify_authentication_nonce.
  destruct (try_sign_sha256 _ _) as [s|] eqn:E; [|done]. intros [= <-].
  rewrite signature_from_to_vec. by apply verify_sign.
Qed.

(** What the recipient makes of the packet of the initiator. *)
Lemma handshake_agreement ka kb ephem nonce iv local_id (contact : NodeContact Enr) updated_enr cd msg
    (p : Packet Enr) sa remote_enr enr :
  contact_public_key contact = PubSecp256k1 (verifying_key kb) ->
  Session.newest_enr updated_enr remote_enr = Some enr ->
  enr_public_key enr = PubSecp256k1 (verifying_key ka) ->
  Session.encrypt_with_header ephem nonce iv contact (Secp256k1 ka) updated_enr local_id cd msg = Ok (p, sa) ->
  exists sig pk sb, kind (header p) = Handshake local_id sig pk updated_enr /\ message_nonce (header p) = nonce /\
    Session.establish_from_challenge (Secp256k1 kb) (contact_node_id contact) local_id
      (mkChallenge cd remote_enr) sig pk updated_enr = Ok (sb, enr) /\
    Session.decrypt_message sb nonce (message p) (authenticated_data p) = (sb, Ok msg) /\
    Session.encryption_key (Session.keys sa) = Session.decryption_key (Session.keys sb) /\
    Session.encryption_key (Session.keys sb) = Session.decryption_key (Session.keys sa) /\
    Session.old_keys sa = None /\ Session.old_keys sb = None.
Proof.
  intros Hpk Henr Hkey. unfold Session.encrypt_with_header, Session.from_crypto.
  destruct (Crypto.generate_session_keys _ _ _ _) as [[[k1 k2] pk]|] eqn:Eg; simpl; [|done].
  destruct (Crypto.sign_nonce _ _ _ _) as [sig|] eqn:Es; simpl; [|done].
  destruct (Crypto.encrypt_message _ _ _ _) as [c|] eqn:Ec; simpl; [|done]. intros [= <- <-].
  exists sig, pk, (Session.new (Session.mkKeys k2 k1)). simpl. split_and!; try done.
  - unfold Session.establish_from_challenge. simpl. rewrite Henr, Hkey.
    rewrite (signature_verifies _ _ _ _ _ Es). simpl.
    by rewrite (derived_keys_agree _ _ _ _ _ _ _ _ Hpk Eg).
  - unfold Session.decrypt_message, authenticated_data. simpl. by rewrite (crypto_roundtrip _ _ _ _ _ Ec).
Qed.
End Agreement.

(** ** Message nonces

    What happens to a session: a message is encrypted or decrypted, or the
    session is replaced by that of a new handshake. *)

Section Nonces.
Context {Enr : Type} `{!K256} `{!EnrCrate Enr} `{!Primitives} `{!EnrCodec Enr} `{!ProtocolIdentity}.

Inductive session_op :=
  | OpEncrypt (random_nonce : vec byte 8) (iv : Z) (src_id : NodeId) (message : list byte)
  | OpDecrypt (message_nonce : vec byte 12) (message aad : list byte)
  | OpUpdate (new_session : Session.Session).

(** The session afterwards and the nonces of the packets encrypted. *)
Fixpoint session_run (debug : bool) (s : Session.Session) (ops : list session_op)
    : outcome (Session.Session * list (vec byte 12)) :=
  match ops with
  | [] => Ret (s, [])
  | OpEncrypt random_nonce iv src_id m :: ops =>
      '(s, r) ← Session.encrypt_message (Enr := Enr) debug s random_nonce iv src_id m;
      '(s, nonces) ← session_run debug s ops;
      Ret (s, match r with Ok p => message_nonce (header p) :: nonces | Err _ => nonces end)
  | OpDecrypt n m aad :: ops => session_run debug (fst (Session.decrypt_message s n m aad)) ops
  | OpUpdate s' :: ops => session_run debug (Session.update s s') ops
  end.

Definition is_encrypt (op : session_op) : bool := match op with OpEncrypt _ _ _ _ => true | _ => false end.
Definition encryptions (ops : list session_op) : nat := length (filter is_encrypt ops).

Lemma u32_to_be_bytes_inj a b :
  (0 <= a < 2 ^ 32)%Z -> (0 <= b < 2 ^ 32)%Z ->
  Session.u32_to_be_bytes a = Session.u32_to_be_bytes b -> a = b.
Proof.
  intros Ha Hb E. apply (f_equal vec_to_list) in E.
  apply (f_equal (fmap byte_to_Z)) in E. unfold Session.u32_to_be_bytes in E. cbn [vec_to_list fmap list_fmap] in E.
  rewrite !byte_to_of_Z, !Z.shiftr_div_pow2 in E by lia. injection E as E1 E2 E3 E4.
  change (2 ^ 24)%Z with 16777216%Z in *. change (2 ^ 16)%Z with 65536%Z in *. change (2 ^ 8)%Z with 256%Z in *.
  change (2 ^ 32)%Z with 4294967296%Z in *. Z.to_euclidean_division_equations. lia.
Qed.

Lemma decrypt_counter s n m aad : Session.counter (fst (Session.decrypt_message s n m aad)) = Session.counter s.
Proof. unfold Session.decrypt_message. by repeat case_match. Qed.

(** The counter of each nonce is one of those handed out. *)
Definition counter_after (c : Z) (n : nat) : Z := ((c + Z.of_nat n) mod 2 ^ 32)%Z.

Lemma counter_after_S c i : counter_after (counter_after c 1) i = counter_after c (S i).
Proof. unfold counter_after. rewrite Zplus_mod_idemp_l. f_equal. lia. Qed.

Lemma encrypt_nonce debug s r iv src m s1 (res : result (Session.Error Enr) (Packet Enr)) :
  Session.encrypt_message debug s r iv src m = Ret (s1, res) ->
  Session.counter s1 = counter_after (Session.counter s) 1 /\
  (forall p, res = Ok p -> message_nonce (header p) = Session.u32_to_be_bytes (Session.counter s1) +++ r).
Proof.
  unfold Session.encrypt_message. cbn [mbind outcome_bind]. destruct (Session.increment _ _) as [n|] eqn:En; [|done].
  apply arith_mod in En. intros [= <- E]. split; [done|]. intros p ->.
  destruct (Session.from_crypto _); cbn [mbind result_bind] in E; [|discriminate E].
  injection E as <-. done.
Qed.

Lemma session_run_release ops s : is_ret (session_run false s ops).
Proof.
  revert s. induction ops as [|[r iv src m|n m aad|s'] ops IH]; intros s; cbn [session_run]; [by eexists|..|done|done].
  unfold Session.encrypt_message, Session.increment. destruct (arith_release (2 ^ 32) (Session.counter s + 1)) as [n ->].
  cbn [mbind outcome_bind]. set (s1 := Session.mkSession _ _ _ n). destruct (IH s1) as [[s2 nonces] ->]. by eexists.
Qed.

Lemma session_run_nonces debug ops s s' nonces n :
  session_run debug s ops = Ret (s', nonces) -> n ∈ nonces ->
  exists i r, 1 <= i <= encryptions ops /\
    n = Session.u32_to_be_bytes (counter_after (Session.counter s) i) +++ r.
Proof.
  revert s nonces. induction ops as [|op ops IH]; intros s nonces; [by intros [= <- <-] ?%elem_of_nil|].
  destruct op as [r iv src m|n' m aad|s1]; cbn [session_run].
  - intros ([s1 res] & E & ([s2 nonces'] & E2 & [= <- <-])%bind_ret_inv)%bind_ret_inv. apply encrypt_nonce in E as [Ec Hn].
    specialize (IH s1 nonces' E2). assert (n ∈ nonces' -> exists i r0, 1 <= i <= encryptions (OpEncrypt r iv src m :: ops) /\
      n = Session.u32_to_be_bytes (counter_after (Session.counter s) i) +++ r0) as IH'.
    { intros (i & r0 & Hi & ->)%IH. exists (S i), r0. split; [unfold encryptions in *; simpl; lia|]. by rewrite Ec, counter_after_S. }
    destruct res as [p|]; [|done]. intros [->|Hin]%elem_of_cons; [|by apply IH'].
    exists 1, r. split; [unfold encryptions; simpl; lia|]. rewrite (Hn p), Ec by done. done.
  - intros E (i & r & ? & ->)%(IH _ _ E). rewrite decrypt_counter. eauto.
  - intros E (i & r & ? & ->)%(IH _ _ E). eauto.
Qed.

Lemma counter_after_inj c i j :
  i < j -> (Z.of_nat j < Z.of_nat i + 2 ^ 32)%Z -> counter_after c i <> counter_after c j.
Proof.
  unfold counter_after. intros Hij Hj E. change (2 ^ 32)%Z with 4294967296%Z in *.
  Z.to_euclidean_division_equations. lia.
Qed.

Lemma counter_after_range c i : (0 <= counter_after c i < 2 ^ 32)%Z.
Proof. apply Z.mod_pos_bound. lia. Qed.

Lemma session_run_distinct debug s ops s' nonces :
  (Z.of_nat (encryptions ops) <= 2 ^ 32)%Z -> session_run debug s ops = Ret (s', nonces) -> NoDup nonces.
Proof.
  revert s nonces. induction ops as [|op ops IH]; intros s nonces Hl; [intros [= <- <-]; constructor|].
  destruct op as [r iv src m|n' m aad|s1]; cbn [session_run]; [|by apply IH..].
  intros ([s1 res] & E & ([s2 nonces'] & E2 & [= <- <-])%bind_ret_inv)%bind_ret_inv. apply encrypt_nonce in E as [Ec Hn].
  assert (encryptions (OpEncrypt r iv src m :: ops) = S (encryptions ops)) as Hs by done.
  specialize (IH s1 nonces' ltac:(lia) E2). pose proof (session_run_nonces debug ops s1 s2 nonces') as Hin.
  destruct res as [p|]; [|done]. constructor; [|done].
  intros (i & r' & Hi & Heq)%(Hin _ E2). rewrite (Hn p eq_refl), Ec in Heq.
  apply Vector.append_inj in Heq as [Heq _].
  apply (u32_to_be_bytes_inj (counter_after (Session.counter s) 1)) in Heq;
    [|apply counter_after_range..].
  apply (counter_after_inj (Session.counter s) 1 (S i)); [lia..|]. by rewrite Heq, counter_after_S.
Qed.

(** C28: as long as a session has encrypted at most [2 ^ 32] messages, no two of
    the packets it produced have the same nonce, whatever the random part of
    the nonces, whatever was decrypted in between and however often the keys
    were replaced.  In a release build the run always returns; a debug build may
    have aborted where the counter overflows. *)
Theorem session_nonces_distinct s ops :
  (Z.of_nat (encryptions ops) <= 2 ^ 32)%Z ->
  (exists s' nonces, session_run false s ops = Ret (s', nonces) /\ NoDup nonces) /\
  (forall s' nonces, session_run true s ops = Ret (s', nonces) -> NoDup nonces).
Proof.
  intros Hl. split; [|intros s' nonces; by apply session_run_distinct]. destruct (session_run_release ops s) as [[s' nonces] E].
  exists s', nonces. split; [done|]. by eapply session_run_distinct.
Qed.
End Nonces.
Arguments session_op : clear implicits.

(** ** The handshake over the wire *)

Section Handshake.
Context {Enr : Type} `{!K256} `{!EnrCrate Enr} `{!Primitives} `{!PrimitiveLaws}.
Context `{!EnrCodec Enr} `{!EnrCodecLaws Enr} `{!ProtocolIdentity} `{!Aes128Ctr}.

(** The packet fits the datagram and its length fields. *)
Definition packet_fits (p : Packet Enr) (dst_id : NodeId) : Prop :=
  (0 <= iv p < 2 ^ 128)%Z /\ kind_ok (kind (header p)) /\ length (encode p dst_id) <= MAX_PACKET_SIZE.

Lemma packet_fits_decode (p : Packet Enr) dst_id :
  packet_fits p dst_id -> is_whoareyou p = false ->
  decode dst_id (encode p dst_id) = Return (p, authenticated_data p).
Proof. intros (? & ? & ?) Hw. apply decode_encode; [|done]. split; [done|split; [done|]]. rewrite Hw. discriminate. Qed.

Definition packet_fits_bool (p : Packet Enr) (dst_id : NodeId) : bool :=
  (0 <=? iv p)%Z && (iv p <? 2 ^ 128)%Z &&
  match kind (header p) with
  | Message _ => true
  | WhoAreYou _ seq => (0 <=? seq)%Z && (seq <? 2 ^ 64)%Z
  | Handshake _ sig pk _ => (length sig <? 256) && (length pk <? 256)
  end && (length (encode p dst_id) <=? MAX_PACKET_SIZE).

Lemma packet_fits_bool_spec p dst_id : packet_fits_bool p dst_id = true -> packet_fits p dst_id.
Proof.
  unfold packet_fits_bool, packet_fits, kind_ok. rewrite !andb_true_iff.
  intros [[[?%Z.leb_le ?%Z.ltb_lt] Hk] ?%Nat.leb_le]. split; [done|]. split; [|done].
  destruct (kind (header p)); [done|..]; apply andb_true_iff in Hk as [Hk1 Hk2].
  - by apply Z.leb_le in Hk1; apply Z.ltb_lt in Hk2.
  - by apply Nat.ltb_lt in Hk1; apply Nat.ltb_lt in Hk2.
Qed.

(** What the other end has in common with the one that encrypts. *)
Definition sessions_match (s s' : Session.Session) : Prop :=
  Session.encryption_key (Session.keys s) = Session.decryption_key (Session.keys s').

(** The two ends of a session and what each of them has sent so far: packets
    with the messages in them. *)
Record Line := mkLine {
  end_a : Session.Session;
  end_b : Session.Session;
  to_b : list (Packet Enr * list byte);
  to_a : list (Packet Enr * list byte);
}.

(** An end encrypts a message, or tries to decrypt whatever arrives: a packet
    of the other end, in any order and any number of times, or a forged one. *)
Inductive line_op :=
  | SendsA (random_nonce : vec byte 8) (iv : Z) (message : list byte)
  | SendsB (random_nonce : vec byte 8) (iv : Z) (message : list byte)
  | ReadsA (message_nonce : vec byte 12) (message aad : list byte)
  | ReadsB (message_nonce : vec byte 12) (message aad : list byte).

Definition sent_packet (r : result (Session.Error Enr) (Packet Enr)) (m : list byte) : list (Packet Enr * list byte) :=
  match r with Ok p => [(p, m)] | Err _ => [] end.

Definition line_step (debug : bool) (id_a id_b : NodeId) (l : Line) (op : line_op) : outcome Line :=
  match op with
  | SendsA rn iv m =>
      '(s, r) ← Session.encrypt_message debug (end_a l) rn iv id_a m;
      Ret (mkLine s (end_b l) (to_b l ++ sent_packet r m) (to_a l))
  | SendsB rn iv m =>
      '(s, r) ← Session.encrypt_message debug (end_b l) rn iv id_b m;
      Ret (mkLine (end_a l) s (to_b l) (to_a l ++ sent_packet r m))
  | ReadsA n m aad => Ret (mkLine (fst (Session.decrypt_message (end_a l) n m aad)) (end_b l) (to_b l) (to_a l))
  | ReadsB n m aad => Ret (mkLine (end_a l) (fst (Session.decrypt_message (end_b l) n m aad)) (to_b l) (to_a l))
  end.

Fixpoint line_run (debug : bool) (id_a id_b : NodeId) (l : Line) (ops : list line_op) : outcome Line :=
  match ops with
  | [] => Ret l
  | op :: ops => l ← line_step debug id_a id_b l op; line_run debug id_a id_b l ops
  end.

(** A packet of [src_id], if it fits a datagram, is decoded by [dst_id] and
    decrypted by the session [s'] to the message it was made of. *)
Definition received (s' : Session.Session) (src_id dst_id : NodeId) (pm : Packet Enr * list byte) : Prop :=
  let '(p, m) := pm in
  (0 <= iv p < 2 ^ 128)%Z -> length (encode p dst_id) <= MAX_PACKET_SIZE ->
  decode dst_id (encode p dst_id) = Return (p, authenticated_data p) /\
  kind (header p) = Message src_id /\
  Session.decrypt_message s' (message_nonce (header p)) (message p) (authenticated_data p) = (s', Ok m).

(** Each end has, from the handshake on, the keys that match the other's. *)
Definition line_inv (id_a id_b : NodeId) (l : Line) : Prop :=
  sessions_match (end_a l) (end_b l) /\ sessions_match (end_b l) (end_a l) /\
  Session.old_keys (end_a l) = None /\ Session.old_keys (end_b l) = None /\
  (forall s', Session.keys s' = Session.keys (end_b l) -> Forall (received s' id_a id_b) (to_b l)) /\
  (forall s', Session.keys s' = Session.keys (end_a l) -> Forall (received s' id_b id_a) (to_a l)).

Lemma sent_received debug s s' rn iv0 src_id dst_id m s1 r :
  Session.encrypt_message debug s rn iv0 src_id m = Ret (s1, r) -> sessions_match s s' ->
  Forall (received s' src_id dst_id) (sent_packet r m).
Proof.
  intros E Hm. destruct r as [p|]; [|constructor]. apply session_message in E as (Hi & Hk & Hd).
  constructor; [|constructor]. intros Hiv Hlen. split_and!; [|done|by apply Hd].
  apply packet_fits_decode; [|unfold is_whoareyou; by rewrite Hk]. split_and!; [lia|lia| |done]. by rewrite Hk.
Qed.

Lemma line_step_inv debug id_a id_b l op l' :
  line_inv id_a id_b l -> line_step debug id_a id_b l op = Ret l' -> line_inv id_a id_b l'.
Proof.
  unfold line_inv, sessions_match. intros (Hab & Hba & Ha & Hb & Hfb & Hfa).
  destruct op as [rn iv0 m|rn iv0 m|n m aad|n m aad]; cbn [line_step].
  - intros ([s r] & E & [= <-])%bind_ret_inv. cbn. destruct (encrypt_keys _ _ _ _ _ _ _ _ E) as [-> ->].
    split_and!; [done..| |done]. intros s' Hs'. apply Forall_app. split; [by apply Hfb|].
    eapply sent_received; [done|]. unfold sessions_match. by rewrite Hs'.
  - intros ([s r] & E & [= <-])%bind_ret_inv. cbn. destruct (encrypt_keys _ _ _ _ _ _ _ _ E) as [-> ->].
    split_and!; [done..|]. intros s' Hs'. apply Forall_app. split; [by apply Hfa|].
    eapply sent_received; [done|]. unfold sessions_match. by rewrite Hs'.
  - intros [= <-]. cbn. by rewrite decrypt_fresh.
  - intros [= <-]. cbn. by rewrite decrypt_fresh.
Qed.

Lemma line_run_inv debug id_a id_b ops l l' :
  line_inv id_a id_b l -> line_run debug id_a id_b l ops = Ret l' -> line_inv id_a id_b l'.
Proof.
  revert l. induction ops as [|op ops IH]; intros l Hl; [by intros [= <-]|]. cbn [line_run].
  intros (l1 & E1 & E)%bind_ret_inv. eapply IH; [|done]. by eapply line_step_inv.
Qed.

Lemma line_run_release id_a id_b ops l : is_ret (line_run false id_a id_b l ops).
Proof.
  revert l. induction ops as [|op ops IH]; intros l; [by eexists|]. cbn [line_run].
  assert (exists l', line_step false id_a id_b l op = Ret l') as [l' ->]; [|apply IH].
  destruct op; cbn [line_step]; [| |by eexists..]; unfold Session.encrypt_message, Session.increment;
    edestruct (arith_release (2 ^ 32)) as [c ->]; by eexists.
Qed.

(** Whatever happens on the line, everything sent can still be received. *)
Definition line_open (debug : bool) (id_a id_b : NodeId) (sa sb : Session.Session) (ops : list line_op) : Prop :=
  (debug = false -> is_ret (line_run debug id_a id_b (mkLine sa sb [] []) ops)) /\
  forall l, line_run debug id_a id_b (mkLine sa sb [] []) ops = Ret l ->
    Forall (received (end_b l) id_a id_b) (to_b l) /\ Forall (received (end_a l) id_b id_a) (to_a l).

Lemma match_line_open debug id_a id_b sa sb ops :
  sessions_match sa sb -> sessions_match sb sa -> Session.old_keys sa = None -> Session.old_keys sb = None ->
  line_open debug id_a id_b sa sb ops.
Proof.
  intros Hab Hba Ha Hb. split; [intros ->; apply line_run_release|]. intros l E.
  assert (line_inv id_a id_b l) as (_ & _ & _ & _ & Hfb & Hfa); [|by auto].
  eapply line_run_inv; [|exact E]. by split_and!.
Qed.

(** C15: the end-to-end handshake.  The packet with which the initiator opens a
    session is decoded by the recipient from its bytes; the recipient, who
    issued the challenge and knows or is sent the initiator's record, verifies
    the signature, derives a session and decrypts the message.  From then on,
    after any history of messages encrypted by either end and of packets, genuine
    or forged, in any order, given to either end to decrypt, every packet sent so
    far that fits a datagram is decoded and decrypted by the other end. *)
Theorem session_handshake ka kb ephem nonce iv local_id (contact : NodeContact Enr) updated_enr cd msg
    (p : Packet Enr) sa remote_enr enr :
  contact_public_key contact = PubSecp256k1 (verifying_key kb) ->
  Session.newest_enr updated_enr remote_enr = Some enr ->
  enr_public_key enr = PubSecp256k1 (verifying_key ka) ->
  Session.encrypt_with_header ephem nonce iv contact (Secp256k1 ka) updated_enr local_id cd msg = Ok (p, sa) ->
  packet_fits p (contact_node_id contact) ->
  let dst_id := contact_node_id contact in
  decode dst_id (encode p dst_id) = Return (p, authenticated_data p) /\
  exists sig pk sb, kind (header p) = Handshake local_id sig pk updated_enr /\
    Session.establish_from_challenge (Secp256k1 kb) dst_id local_id (mkChallenge cd remote_enr) sig pk updated_enr
      = Ok (sb, enr) /\
    Session.decrypt_message sb (message_nonce (header p)) (message p) (authenticated_data p) = (sb, Ok msg) /\
    forall debug ops, line_open debug local_id dst_id sa sb ops.
Proof.
  intros Hpk Henr Hkey He Hfit.
  destruct (handshake_agreement _ _ _ _ _ _ _ _ _ _ _ _ _ _ Hpk Henr Hkey He)
    as (sig & pk & sb & Hk & Hn & Hest & Hdec & Hab & Hba & Ha & Hb).
  split; [apply packet_fits_decode; [done|]; unfold is_whoareyou; by rewrite Hk|].
  exists sig, pk, sb. rewrite Hn. split_and!; [done..|]. intros debug ops. by apply match_line_open.
Qed.
End Handshake.

(** ** The theorems at concrete values *)
Import CryptoSample PacketSample.

Definition sample_contact : NodeContact (list byte) :=
  mkContact (PubSecp256k1 x02) (SockV4 (mkSocketAddrV4 [# x7f; x00; x00; x02] 9000)) None.

Definition sample_opening : result (Session.Error (list byte)) (Packet (list byte) * Session.Session) :=
  Session.encrypt_with_header x09 (vreplicate 12 x0c) 11 sample_contact (Secp256k1 x01) (Some [x01; x05])
    (vreplicate 32 x01) (vreplicate 63 x03) [x0a; x0b].

(** Two messages of the initiator, the answer, and a forged packet in between. *)
Definition sample_line : list (line_op) :=
  [SendsA (vreplicate 8 x01) 3 [x0a]; ReadsB (vreplicate 12 x07) (replicate 20 x01) []; SendsB (vreplicate 8 x02) 4 [x0b; x0c];
   SendsA (vreplicate 8 x03) 5 [x0d]].

Lemma session_handshake_witness :
  exists p sa sb sig pk l, sample_opening = Ok (p, sa) /\
    decode (vreplicate 32 x02) (encode p (vreplicate 32 x02)) = Return (p, authenticated_data p) /\
    Session.establish_from_challenge (Secp256k1 x02) (vreplicate 32 x02) (vreplicate 32 x01)
      (mkChallenge (vreplicate 63 x03) None) sig pk (Some [x01; x05]) = Ok (sb, [x01; x05]) /\
    Session.decrypt_message sb (message_nonce (header p)) (message p) (authenticated_data p) = (sb, Ok [x0a; x0b]) /\
    line_run false (vreplicate 32 x01) (vreplicate 32 x02) (mkLine (Enr := list byte) sa sb [] []) sample_line = Ret l /\
    Forall (received (end_b l) (vreplicate 32 x01) (vreplicate 32 x02)) (to_b l).
Proof.
  assert (match sample_opening with
          | Ok (p, _) => packet_fits_bool p (vreplicate 32 x02)
          | Err _ => false
          end = true) as H by (by vm_compute).
  destruct sample_opening as [[p sa]|] eqn:E; [|done].
  destruct (@session_handshake (list byte) sample_k256 _ _ _ _ _ _ _ x01 x02 x09 (vreplicate 12 x0c) 11 (vreplicate 32 x01)
    sample_contact (Some [x01; x05]) (vreplicate 63 x03) [x0a; x0b] p sa None [x01; x05])
    as (Hd & sig & pk & sb & _ & Hest & Hdec & Hr); [done|done|done|exact E| |].
  - by apply packet_fits_bool_spec.
  - destruct (Hr false sample_line) as [Hret Hopen]. destruct (Hret eq_refl) as [l Hl].
    exists p, sa, sb, sig, pk, l. split_and!; [done|exact Hd|exact Hest|exact Hdec|exact Hl|]. exact (proj1 (Hopen l Hl)).
Defined.

Definition sample_ops : list session_op :=
  [OpEncrypt (vreplicate 8 x01) 3 (vreplicate 32 x01) [x0a];
   OpDecrypt (vreplicate 12 x01) (replicate 20 x01) [];
   OpUpdate (Session.new (Session.mkKeys [x05] [x06]));
   OpEncrypt (vreplicate 8 x01) 3 (vreplicate 32 x01) [x0a]].

Lemma session_nonces_distinct_witness :
  exists s' nonces, session_run (Enr := list byte) false (Session.new (Session.mkKeys [x01] [x02])) sample_ops = Ret (s', nonces) /\
    length nonces = 2 /\ NoDup nonces.
Proof.
  destruct (session_nonces_distinct (Enr := list byte) (Session.new (Session.mkKeys [x01] [x02])) sample_ops)
    as [(s' & nonces & E & Hn) _]; [by vm_compute|].
  exists s', nonces. split; [exact E|]. split; [|exact Hn].
  assert (Some (length nonces) = Some 2) as [= ->]; [|done].
  transitivity (match session_run (Enr := list byte) false (Session.new (Session.mkKeys [x01] [x02])) sample_ops with
                | Ret (_, l) => Some (length l) | Panic => None end); [by rewrite E|by vm_compute].
Defined.
