(* ===== verification/WireTests.v ===== *)
(** * The unit tests of the wire formats

    Of src/src/rpc.rs, with an RLP codec; of src/src/packet/mod.rs, with AES-128
    in counter mode: the reference packets of the specification and the round
    trips; of src/src/handler/crypto/mod.rs: the agreement of the session keys
    and the reversal of the encryption, for all primitives with the laws of
    [PrimitiveLaws], and the reference vectors of HKDF and AES-GCM.  The node
    ids of the test keys and a product on the curve are given, since the curve
    is not evaluated. *)

From Stdlib Require Import Strings.String.
From stdpp Require Import strings.
From S2P Require Import Prelude Bytes Key Testing Rpc RlpSample Packet NodeInfo Crypto CryptoSample Session SessionProofs.

(** ** Messages (src/src/rpc.rs) *)

Import Rpc RlpCodec.

Module RpcTests.

Notation Enr := (list byte).

#[export] Instance RequestBody_eq_dec : EqDecision RequestBody.
Proof. solve_decision. Defined.
#[export] Instance ResponseBody_eq_dec : EqDecision (ResponseBody Enr).
Proof. solve_decision. Defined.
#[export] Instance Request_eq_dec : EqDecision Request.
Proof. solve_decision. Defined.
#[export] Instance Response_eq_dec : EqDecision (Response Enr).
Proof. solve_decision. Defined.
#[export] Instance Message_eq_dec : EqDecision (Message Enr).
Proof. solve_decision. Defined.

(** [RequestId(vec![1])]. *)
Definition id : RequestId := [x01].

(** [assert_eq!(message.encode(), hex::decode(expected).unwrap())]. *)
Definition encodes_to (message : Message Enr) (expected : string) : outcome unit :=
  expected_output ← hex_decode expected;
  assert_eq (encode message) expected_output.

(** [let decoded = Message::decode(&message.encode()).unwrap(); assert_eq!(expected, decoded)]. *)
Definition reads_back (message expected : Message Enr) : outcome unit :=
  match decode (encode message) with
  | Ok decoded => assert_eq expected decoded
  | Err _ => Panic
  end.

(** [.unwrap()]. *)
Definition decoded (data : list byte) : outcome (Message Enr) :=
  match decode data with Ok m => Ret m | Err _ => Panic end.
Definition refused (data : list byte) : outcome unit :=
  match decode (E := Enr) data with Ok _ => Panic | Err _ => Ret () end.

Definition ref_test_encode_request_ping : outcome unit :=
  encodes_to (MRequest (mkRequest id (Ping 1))) "01c20101".

Definition ref_test_encode_request_findnode : outcome unit :=
  encodes_to (MRequest (mkRequest id (FindNode [256%Z]))) "03c501c3820100".

Definition ref_test_encode_response_ping : outcome unit :=
  encodes_to (MResponse (mkResponse id (Pong 1 (V4 [# x7f; x00; x00; x01]) 5000))) "02ca0101847f000001821388".

Definition ref_test_encode_response_nodes_empty : outcome unit :=
  encodes_to (MResponse (mkResponse id (Nodes 1 []))) "04c30101c0".

Definition ref_test_encode_response_nodes : outcome unit :=
  enr ← parse_enr "-HW4QCjfjuCfSmIJHxqLYfGKrSz-Pq3G81DVJwd_muvFYJiIOkf0bGtJu7kZVCOPnhSTMneyvR4MRbF3G5TNB4wy2ssBgmlkgnY0iXNlY3AyNTZrMaEDymNMrg1JrLQB2KTGtv6MVbcNEVv0AHacwUAPMljNMTg";
  encodes_to (MResponse (mkResponse id (Nodes 1 [enr]))) "04f87b0101f877f875b84028df8ee09f4a62091f1a8b61f18aad2cfe3eadc6f350d527077f9aebc56098883a47f46c6b49bbb91954238f9e14933277b2bd1e0c45b1771b94cd078c32dacb0182696482763489736563703235366b31a103ca634cae0d49acb401d8a4c6b6fe8c55b70d115bf400769cc1400f3258cd3138".

Definition enr1_text : string := "enr:-HW4QBzimRxkmT18hMKaAL3IcZF1UcfTMPyi3Q1pxwZZbcZVRI8DC5infUAB_UauARLOJtYTxaagKoGmIjzQxO2qUygBgmlkgnY0iXNlY3AyNTZrMaEDymNMrg1JrLQB2KTGtv6MVbcNEVv0AHacwUAPMljNMTg".
Definition enr2_text : string := "enr:-HW4QNfxw543Ypf4HXKXdYxkyzfcxcO-6p9X986WldfVpnVTQX1xlTnWrktEWUbeTZnmgOuAY_KUhbVV1Ft98WoYUBMBgmlkgnY0iXNlY3AyNTZrMaEDDiy3QkHAxPyOgWbxp5oF1bDdlYE6dLCUUp8xfVw50jU".
Definition nodes_hex : string := "04f8f20101f8eef875b8401ce2991c64993d7c84c29a00bdc871917551c7d330fca2dd0d69c706596dc655448f030b98a77d4001fd46ae0112ce26d613c5a6a02a81a6223cd0c4edaa53280182696482763489736563703235366b31a103ca634cae0d49acb401d8a4c6b6fe8c55b70d115bf400769cc1400f3258cd3138f875b840d7f1c39e376297f81d7297758c64cb37dcc5c3beea9f57f7ce9695d7d5a67553417d719539d6ae4b445946de4d99e680eb8063f29485b555d45b7df16a1850130182696482763489736563703235366b31a1030e2cb74241c0c4fc8e8166f1a79a05d5b0dd95813a74b094529f317d5c39d235".

Definition ref_test_encode_response_nodes_multiple : outcome unit :=
  enr ← parse_enr enr1_text;
  enr2 ← parse_enr enr2_text;
  encodes_to (MResponse (mkResponse id (Nodes 1 [enr; enr2]))) nodes_hex.

Definition ref_decode_response_nodes_multiple : outcome unit :=
  input ← hex_decode nodes_hex;
  expected_enr1 ← parse_enr enr1_text;
  expected_enr2 ← parse_enr enr2_text;
  m ← decoded input;
  match m with
  | MResponse (mkResponse _ (Nodes total nodes)) =>
      _ ← assert_eq total 1%Z;
      n0 ← unwrap (nodes !! 0);
      _ ← assert_eq n0 expected_enr1;
      n1 ← unwrap (nodes !! 1);
      assert_eq n1 expected_enr2
  | _ => Panic
  end.

Definition encode_decode_ping_request : outcome unit :=
  let request := MRequest (mkRequest id (Ping 15)) in
  reads_back request request.

Definition encode_decode_ping_response : outcome unit :=
  let request := MResponse (mkResponse id (Pong 15 (V4 [# x7f; x00; x00; x01]) 80)) in
  reads_back request request.

(** [Ipv4Addr::to_ipv6_mapped]. *)
Definition to_ipv6_mapped (ip : Ipv4Addr) : Ipv6Addr := vreplicate 10 x00 +++ [# xff; xff] +++ ip.

Definition encode_decode_ping_response_ipv4_mapped : outcome unit :=
  let ip : Ipv4Addr := [# byte_of_Z 192; x00; x02; x01] in
  reads_back (MResponse (mkResponse id (Pong 15 (V6 (to_ipv6_mapped ip)) 80)))
    (MResponse (mkResponse id (Pong 15 (V4 ip) 80))).

Definition encode_decode_ping_response_ipv6_loopback : outcome unit :=
  let request := MResponse (mkResponse id (Pong 15 (V6 (vreplicate 15 x00 +++ [# x01])) 80)) in
  reads_back request request.

Definition encode_decode_find_node_request : outcome unit :=
  let request := MRequest (mkRequest id (FindNode [12%Z])) in
  reads_back request request.

(** For the records that the builder of the [enr] crate makes. *)
Definition encode_decode_nodes_response (enr1 enr2 enr3 : Enr) : outcome unit :=
  let request := MResponse (mkResponse id (Nodes 1 [enr1; enr2; enr3])) in
  reads_back request request.

Definition reject_extra_data : outcome unit :=
  msg ← decoded (byte_of_Z <$> [6; 194; 0; 75]%Z);
  _ ← assert_eq msg (MResponse (mkResponse [x00] (TalkResponse [byte_of_Z 75])));
  _ ← refused (byte_of_Z <$> [6; 193; 0; 75; 252]%Z);
  refused (byte_of_Z <$> [6; 194; 0; 75; 252]%Z).

(** The test of the NODES response with the records of the other tests. *)
Definition nodes_response : outcome unit :=
  enr1 ← parse_enr enr1_text;
  enr2 ← parse_enr enr2_text;
  enr3 ← parse_enr "-HW4QCjfjuCfSmIJHxqLYfGKrSz-Pq3G81DVJwd_muvFYJiIOkf0bGtJu7kZVCOPnhSTMneyvR4MRbF3G5TNB4wy2ssBgmlkgnY0iXNlY3AyNTZrMaEDymNMrg1JrLQB2KTGtv6MVbcNEVv0AHacwUAPMljNMTg";
  encode_decode_nodes_response enr1 enr2 enr3.
End RpcTests.

Import RpcTests.

(** Functional.  The unit tests of the RPC messages pass on the model with
    the RLP codec: the encodings of requests and responses are the reference
    encodings of the specification, byte for byte, with the records of the
    tests; the reference NODES response is read; messages are read back as they
    were written, an IPv4 address in IPv6 form as IPv4 and the IPv6 loopback
    address as it is; and bytes after the message are refused. *)
Theorem rpc_tests_pass :
  Forall (fun t => t = Ret ())
    [ref_test_encode_request_ping; ref_test_encode_request_findnode; ref_test_encode_response_ping;
     ref_test_encode_response_nodes_empty; ref_test_encode_response_nodes; ref_test_encode_response_nodes_multiple;
     ref_decode_response_nodes_multiple; encode_decode_ping_request; encode_decode_ping_response;
     encode_decode_ping_response_ipv4_mapped; encode_decode_ping_response_ipv6_loopback;
     encode_decode_find_node_request; nodes_response; reject_extra_data].
Proof. run_tests. Qed.

(** ** Packets (src/src/packet/mod.rs) *)

Import Packet.

Module PacketTests.

Notation Enr := (list byte).

(** A record is its RLP encoding: one list and nothing after it. *)
#[export] Instance enr_bytes : EnrCodec Enr := {|
  enr_encode e := e;
  enr_decode l :=
    match RlpCodec.take_item l with
    | Ok (i, []) => if RlpCodec.is_list i then Ok l else Err RlpExpectedToBeList
    | Ok _ => Err RlpInconsistentLengthAndData
    | Err e => Err e
    end;
  node_id_parse := array_from;
|}.
#[export] Instance aes_ctr : Aes128Ctr := Aes.ctr_keystream.
#[export] Existing Instance DefaultProtocolId.

#[export] Instance PacketKind_eq_dec : EqDecision (PacketKind Enr).
Proof. solve_decision. Defined.
#[export] Instance PacketHeader_eq_dec : EqDecision (PacketHeader Enr).
Proof. solve_decision. Defined.
#[export] Instance Packet_eq_dec : EqDecision (Packet Enr).
Proof. solve_decision. Defined.

(** [hex_decode(s)[..].try_into().unwrap()]. *)
Definition array_of_hex {n} (s : string) : outcome (vec byte n) :=
  l ← hex_decode s; unwrap (array_from l).

(** [node_key_1().public().into()] and [node_key_2().public().into()]. *)
Definition node_id_1 : outcome NodeId := array_of_hex "aaaa8419e9f49d0083561b48287df592939a8d19947d8c0ef88f2a4856a69fbb".
Definition node_id_2 : outcome NodeId := array_of_hex "bbbb9d047f0488c0b5a93c1c3f2d8bafc7c8ff337024a55434a0d0555de64db9".

(** [assert_eq!(packet.encode(&dst_id), hex::decode(expected).unwrap())]. *)
Definition encodes_to (p : Packet Enr) (dst_id : NodeId) (expected : string) : outcome unit :=
  expected_output ← hex_decode expected;
  assert_eq (encode p dst_id) expected_output.

(** [let (packet, _) = Packet::decode(&dst_id, data).unwrap(); assert_eq!(packet, expected)]. *)
Definition decodes_to (dst_id : NodeId) (data : list byte) (expected : Packet Enr) : outcome unit :=
  match decode dst_id data with
  | Return (packet, _) => assert_eq packet expected
  | _ => Panic
  end.

Definition reads_back (p : Packet Enr) (dst_id : NodeId) : outcome unit := decodes_to dst_id (encode p dst_id) p.

Definition packet_encode_random : outcome unit :=
  node_id_a ← node_id_1;
  node_id_b ← node_id_2;
  encodes_to (mkPacket 11 (mkHeader (vreplicate 12 x0c) (Message node_id_a)) (replicate 12 x01)) node_id_b
    "0000000000000000000000000000000b4f3ab1857252f96f758330a846b5d3d4a954d738dfcd6d1ed118ecc1d54f9b20fbf2be28db87805b23193e03c455d73d63ac71dfa91ffa010101010101010101010101".

Definition packet_ref_test_encode_whoareyou : outcome unit :=
  dst_id ← node_id_2;
  request_nonce ← array_of_hex "0102030405060708090a0b0c";
  id_nonce ← array_of_hex "0102030405060708090a0b0c0d0e0f10";
  encodes_to (mkPacket 0 (mkHeader request_nonce (WhoAreYou id_nonce 0)) []) dst_id
    "00000000000000000000000000000000088b3d434277464933a1ccc59f5967ad1d6035f15e528627dde75cd68292f9e6c27d6b66c8100a873fcbaed4e16b8d".

Definition packet_encode_handshake : outcome unit :=
  encodes_to (mkPacket 0 (mkHeader (vreplicate 12 x34) (Handshake (vreplicate 32 x03) (replicate 64 x05) (replicate 33 x06) None)) [])
    (vreplicate 32 x04)
    "0000000000000000000000000000000035a14bcdb844ae25f36070f07e0b25e765ed72b4d69c99d5fe5a8d438a4b5b518dfead9d80200875c23e31d0acda6f1b2a6124a70e3dc1f2b8b0770f24d8da18605ff3f5b60b090c61515093a88ef4c02186f7d1b5c9a88fdb8cfae239f13e451758751561b439d8044e27cecdf646f2aa1c9ecbd5faf37eb67a4f6337f4b2a885391e631f72deb808c63bf0b0faed23d7117f7a2e1f98c28bd0".

Definition packet_encode_handshake_enr : outcome unit :=
  src_id ← node_id_1;
  enr_record ← parse_enr "enr:-IS4QHXuNmr1vGEGVGDcy_sG2BZ7a3A7mbKS812BK_9rToQiF1Lfknsi5o0xKLnGJbTzBssJCzMcIj8SOiu1O9dnfZEBgmlkgnY0gmlwhH8AAAGJc2VjcDI1NmsxoQMT0UIR4Ch7I2GhYViQqbUhIIBUbQoleuTP-Wz1NJksuYN0Y3CCIyg";
  encodes_to (mkPacket 0 (mkHeader (vreplicate 12 x34) (Handshake src_id (replicate 64 x05) (replicate 33 x06) (Some enr_record))) [])
    (vreplicate 32 x04)
    "0000000000000000000000000000000035a14bcdb844ae25f36070f07e0b25e765ed72b4d69d137c57dd97a97dd558d1d8e6e6b6fed699e55bb02b47d25562e0a6486ff2aba179f2b8b0770f24d8da18605ff3f5b60b090c61515093a88ef4c02186f7d1b5c9a88fdb8cfae239f13e451758751561b439d8044e27cecdf646f2aa1c9ecbd5faf37eb67a4f6337f4b2a885391e631f72deb808c63bf0b0faed23d7117f7a2e1f98c28bd0e908ce8b51cc89e592ed2efa671b8efd49e1ce8fd567fdb06ed308267d31f6bd75827812d21e8aa5a6c025e69b67faea57a15c1c9324d16938c4ebe71dba0bd5d7b00bb6de3e846ed37ef13a9d2e271f25233f5d97bbb026223dbe6595210f6a11cbee54589a0c0c20c7bb7c4c5bea46553480e1b7d4e83b2dd8305aac3b15fd9b1a1e13fda0".

Definition packet_ref_test_encode_message : outcome unit :=
  src_id ← node_id_1;
  dst_id ← node_id_2;
  encodes_to (mkPacket 0 (mkHeader (vreplicate 12 x34) (Message src_id)) (replicate 12 x17)) dst_id
    "00000000000000000000000000000000088b3d43427746493294faf2af68559e215d0bce6652be8c7560413a7008f16c9e6d2f43bbea8814a546b7409ce783d34c4f53245d08da171717171717171717171717".

(** The random values of the round trips are arguments. *)
Definition packet_encode_decode_random (iv : Z) (ciphertext : vec byte 44) (message_nonce : MessageNonce) : outcome unit :=
  src_id ← node_id_1;
  dst_id ← node_id_2;
  match new_random iv (Some ciphertext) message_nonce src_id with
  | Ok packet => reads_back packet dst_id
  | Err _ => Panic
  end.

Definition packet_encode_decode_whoareyou (iv : Z) (message_nonce : MessageNonce) (id_nonce : IdNonce) (enr_seq : Z) : outcome unit :=
  dst_id ← node_id_2;
  reads_back (new_whoareyou iv message_nonce id_nonce enr_seq) dst_id.

Definition encode_decode_auth_packet (iv : Z) (message_nonce : MessageNonce) : outcome unit :=
  src_id ← node_id_1;
  dst_id ← node_id_2;
  reads_back (new_authheader iv src_id message_nonce (replicate 64 x0d) (replicate 33 x0b) None) dst_id.

Definition packet_decode_ref_ping : outcome unit :=
  src_id ← node_id_1;
  dst_id ← node_id_2;
  message_nonce ← array_of_hex "ffffffffffffffffffffffff";
  ciphertext ← hex_decode "b84102ed931f66d1492acb308fa1c6715b9d139b81acbdcc";
  let expected_packet := mkPacket 0 (mkHeader message_nonce (Message src_id)) ciphertext in
  encoded_ref_packet ← hex_decode "00000000000000000000000000000000088b3d4342774649325f313964a39e55ea96c005ad52be8c7560413a7008f16c9e6d2f43bbea8814a546b7409ce783d34c4f53245d08dab84102ed931f66d1492acb308fa1c6715b9d139b81acbdcc";
  decodes_to dst_id encoded_ref_packet expected_packet.

Definition packet_decode_ref_ping_handshake : outcome unit :=
  src_id ← node_id_1;
  dst_id ← node_id_2;
  message_nonce ← array_of_hex "ffffffffffffffffffffffff";
  id_nonce_sig ← hex_decode "c0a04b36f276172afc66a62848eb0769800c670c4edbefab8f26785e7fda6b56506a3f27ca72a75b106edd392a2cbf8a69272f5c1785c36d1de9d98a0894b2db";
  ephem_pubkey ← hex_decode "039a003ba6517b473fa0cd74aefe99dadfdb34627f90fec6362df85803908f53a5";
  message ← hex_decode "f1eadf5f0f4126b79336671cbcf7a885b1f8bd2a5d839cf8";
  let expected_packet := mkPacket 0 (mkHeader message_nonce (Handshake src_id id_nonce_sig ephem_pubkey None)) message in
  decoded_ref_packet ← hex_decode "00000000000000000000000000000000088b3d4342774649305f313964a39e55ea96c005ad521d8c7560413a7008f16c9e6d2f43bbea8814a546b7409ce783d34c4f53245d08da4bb252012b2cba3f4f374a90a75cff91f142fa9be3e0a5f3ef268ccb9065aeecfd67a999e7fdc137e062b2ec4a0eb92947f0d9a74bfbf44dfba776b21301f8b65efd5796706adff216ab862a9186875f9494150c4ae06fa4d1f0396c93f215fa4ef524f1eadf5f0f4126b79336671cbcf7a885b1f8bd2a5d839cf8";
  decodes_to dst_id decoded_ref_packet expected_packet.

Definition packet_decode_ref_ping_handshake_enr : outcome unit :=
  src_id ← node_id_1;
  dst_id ← node_id_2;
  message_nonce ← array_of_hex "ffffffffffffffffffffffff";
  id_nonce_sig ← hex_decode "a439e69918e3f53f555d8ca4838fbe8abeab56aa55b056a2ac4d49c157ee719240a93f56c9fccfe7742722a92b3f2dfa27a5452f5aca8adeeab8c4d5d87df555";
  ephem_pubkey ← hex_decode "039a003ba6517b473fa0cd74aefe99dadfdb34627f90fec6362df85803908f53a5";
  enr_record ← parse_enr "enr:-H24QBfhsHORjaMtZAZCx2LA4ngWmOSXH4qzmnd0atrYPwHnb_yHTFkkgIu-fFCJCILCuKASh6CwgxLR1ToX1Rf16ycBgmlkgnY0gmlwhH8AAAGJc2VjcDI1NmsxoQMT0UIR4Ch7I2GhYViQqbUhIIBUbQoleuTP-Wz1NJksuQ";
  message ← hex_decode "08d65093ccab5aa596a34d7511401987662d8cf62b139471";
  let expected_packet := mkPacket 0 (mkHeader message_nonce (Handshake src_id id_nonce_sig ephem_pubkey (Some enr_record))) message in
  encoded_ref_packet ← hex_decode "00000000000000000000000000000000088b3d4342774649305f313964a39e55ea96c005ad539c8c7560413a7008f16c9e6d2f43bbea8814a546b7409ce783d34c4f53245d08da4bb23698868350aaad22e3ab8dd034f548a1c43cd246be98562fafa0a1fa86d8e7a3b95ae78cc2b988ded6a5b59eb83ad58097252188b902b21481e30e5e285f19735796706adff216ab862a9186875f9494150c4ae06fa4d1f0396c93f215fa4ef524e0ed04c3c21e39b1868e1ca8105e585ec17315e755e6cfc4dd6cb7fd8e1a1f55e49b4b5eb024221482105346f3c82b15fdaae36a3bb12a494683b4a3c7f2ae41306252fed84785e2bbff3b022812d0882f06978df84a80d443972213342d04b9048fc3b1d5fcb1df0f822152eced6da4d3f6df27e70e4539717307a0208cd208d65093ccab5aa596a34d7511401987662d8cf62b139471";
  decodes_to dst_id encoded_ref_packet expected_packet.

Definition packet_decode_invalid_packet_size : outcome unit :=
  src_id ← node_id_1;
  _ ← assert (match decode (Enr := Enr) src_id (replicate (MAX_PACKET_SIZE + 1) x00) with Throw TooLarge => true | _ => false end);
  assert (match decode (Enr := Enr) src_id (replicate (MIN_PACKET_SIZE - 1) x00) with Throw TooSmall => true | _ => false end).
End PacketTests.

Import PacketTests.

(** The tests of the packets on the model, with AES-128 in counter mode; the random
    values of three of them are samples. *)
Lemma packet_tests_run :
  Forall (fun t => t = Ret ())
    [packet_encode_random; packet_ref_test_encode_whoareyou; packet_encode_handshake; packet_encode_handshake_enr;
     packet_ref_test_encode_message; packet_encode_decode_random 7 (vreplicate 44 x21) (vreplicate 12 x22);
     packet_encode_decode_whoareyou 8 (vreplicate 12 x23) (vreplicate 16 x24) 77; encode_decode_auth_packet 9 (vreplicate 12 x25);
     packet_decode_ref_ping; packet_decode_ref_ping_handshake; packet_decode_ref_ping_handshake_enr; packet_decode_invalid_packet_size].
Proof. run_tests. Qed.

(** ** Cryptography (src/src/handler/crypto/mod.rs) *)

Import NodeInfo Crypto.

Module CryptoTests.

(** [.unwrap()] on a [Result]. *)
Definition unwrap_ok {E A} (r : result E A) : outcome A := match r with Ok a => Ret a | Err _ => Panic end.

Section Functionality.
Context {Enr : Type} `{!K256} `{!EnrCrate Enr} `{!Primitives}.

(** [From<Enr> for NodeContact] of the tests (node_info.rs). *)
Definition contact_from_enr (enr : Enr) : outcome (NodeContact Enr) := unwrap_ok (try_from_enr enr IpMode.Ip4).

(** The ephemeral key is generated; the records are those of the builder. *)
Definition derive_symmetric_keys (ephem_sk node2_key : SigningKey) (node1_enr node2_enr : Enr) : outcome unit :=
  let challenge_data : Crypto.ChallengeData := vreplicate 63 x01 in
  contact ← contact_from_enr node2_enr;
  '(key1, key2, pk) ← unwrap_ok (generate_session_keys ephem_sk (enr_node_id node1_enr) contact challenge_data);
  '(key4, key5) ← unwrap_ok (derive_keys_from_pubkey (Secp256k1 node2_key) (enr_node_id node2_enr) (enr_node_id node1_enr) challenge_data pk);
  _ ← assert_eq key1 key4;
  assert_eq key2 key5.

(** The key, the nonce and the additional data are random. *)
Definition encrypt_decrypt (aad : vec byte 12) (key : vec byte 16) (nonce : MessageNonce) : outcome unit :=
  let msg := [x01; x02; x03; x04; x05; x06] in
  cipher ← unwrap_ok (encrypt_message (vec_to_list key) nonce msg (vec_to_list aad));
  plain_text ← unwrap_ok (decrypt_message (vec_to_list key) nonce cipher (vec_to_list aad));
  assert_eq plain_text msg.

Lemma derive_symmetric_keys_passes `{!PrimitiveLaws} `{!EnrCrateLaws Enr} ephem_sk node2_key (node1_enr node2_enr : Enr) :
  enr_public_key node2_enr = PubSecp256k1 (verifying_key node2_key) -> is_Some (enr_udp4_socket node2_enr) ->
  (forall salt ikm info, is_Some (hkdf_expand salt ikm info 32)) ->
  derive_symmetric_keys ephem_sk node2_key node1_enr node2_enr = Ret ().
Proof.
  intros Hk [a Ha] Hkdf. unfold derive_symmetric_keys, contact_from_enr, try_from_enr. cbn [IpMode.get_contactable_addr].
  generalize (vreplicate 63 x01 : Crypto.ChallengeData). intros cd. rewrite Ha. cbn [fmap option_fmap option_map unwrap_ok mbind outcome_bind].
  set (contact := mkContact (enr_public_key node2_enr) (SockV4 a) (Some node2_enr)).
  assert (exists k1 k2 pk, generate_session_keys ephem_sk (enr_node_id node1_enr) contact cd = Ok (k1, k2, pk)) as (k1 & k2 & pk & Hg).
  { unfold generate_session_keys, derive_key. cbn. rewrite Hk. edestruct Hkdf as [okm ->]. cbn. eauto. }
  assert (contact_node_id contact = enr_node_id node2_enr) as Hid by (symmetry; apply enr_node_id_key).
  pose proof (derived_keys_agree ephem_sk node2_key _ contact cd k1 k2 pk Hk Hg) as Hd. rewrite Hid in Hd.
  rewrite Hg. cbn [unwrap_ok mbind outcome_bind]. rewrite Hd. cbn [unwrap_ok mbind outcome_bind]. by rewrite !assert_eq_refl by done.
Qed.

Lemma encrypt_decrypt_passes `{!PrimitiveLaws} aad key nonce :
  (forall k n m a, is_Some (gcm_encrypt k n m a)) -> encrypt_decrypt aad key nonce = Ret ().
Proof.
  intros He. unfold encrypt_decrypt.
  destruct (encrypt_message _ _ _ _) as [c|e] eqn:Ec; cbn [unwrap_ok mbind outcome_bind].
  - rewrite (crypto_roundtrip _ _ _ _ _ Ec). by apply assert_eq_refl.
  - unfold encrypt_message in Ec. by edestruct He as [c Hc]; rewrite Hc in Ec.
Qed.
End Functionality.

(** ** The reference vectors *)

Import CryptoSample RlpCodec PacketTests.

(** HKDF-SHA256 and AES-128-GCM, with the curve of the sample. *)
#[export] Instance reference_primitives : Primitives | 0 := {|
  Signature := @Signature _ sample_primitives;
  verifying_key := @verifying_key _ sample_primitives;
  to_sec1_bytes := @to_sec1_bytes _ sample_primitives;
  from_sec1_bytes := @from_sec1_bytes _ sample_primitives;
  scalar_mul := @scalar_mul _ sample_primitives;
  to_compressed_point := @to_compressed_point _ sample_primitives;
  try_sign_sha256 := @try_sign_sha256 _ sample_primitives;
  verify_sha256 := @verify_sha256 _ sample_primitives;
  signature_to_vec := @signature_to_vec _ sample_primitives;
  signature_try_from := @signature_try_from _ sample_primitives;
  hkdf_expand := Sha256.hkdf;
  gcm_encrypt key nonce m aad := Some (Aes.gcm_seal key nonce m aad);
  gcm_decrypt := Aes.gcm_open;
|}.

(** [secret] is the result of [ecdh]. *)
Definition ref_key_derivation (secret : list byte) : outcome unit :=
  first_node_id ← node_id_1;
  second_node_id ← node_id_2;
  challenge_data ← array_of_hex "000000000000000000000000000000006469736376350001010102030405060708090a0b0c00180102030405060708090a0b0c0d0e0f100000000000000000";
  expected_first_key ← hex_decode "dccc82d81bd610f4f76d3ebe97a40571";
  expected_second_key ← hex_decode "ac74bb8773749920b0d3a8881c173ec5";
  '(first_key, second_key) ← unwrap_ok (derive_key secret first_node_id second_node_id challenge_data);
  _ ← assert_eq first_key expected_first_key;
  assert_eq second_key expected_second_key.

Definition ref_encryption : outcome unit :=
  key ← hex_decode "9f2d77db7004bf8a1a85107ac686990b";
  nonce ← array_of_hex "27b5af763c446acd2749fe8e";
  pt ← hex_decode "01c20101";
  ad ← hex_decode "93a7400fa0d6a694ebc24d5cf570f65d04215b6ac00757875e3f3a5f42107903";
  expected_ciphertext ← hex_decode "a5d12a2d94b8ccb3ba55558229867dc13bfa3648";
  ciphertext ← unwrap_ok (encrypt_message key nonce pt ad);
  assert_eq ciphertext expected_ciphertext.

(** The message that was read. *)
Definition decrypt_ref_test_ping : outcome (Rpc.Message (list byte)) :=
  dst_id ← node_id_2;
  encoded_ref_packet ← hex_decode "00000000000000000000000000000000088b3d4342774649325f313964a39e55ea96c005ad52be8c7560413a7008f16c9e6d2f43bbea8814a546b7409ce783d34c4f53245d08dab84102ed931f66d1492acb308fa1c6715b9d139b81acbdcc";
  auth_data ← (match Packet.decode (Enr := list byte) dst_id encoded_ref_packet with
               | Packet.Return (_, auth_data) => Ret auth_data
               | _ => Panic
               end);
  ciphertext ← hex_decode "b84102ed931f66d1492acb308fa1c6715b9d139b81acbdcc";
  key ← hex_decode "00000000000000000000000000000000";
  nonce ← array_of_hex "ffffffffffffffffffffffff";
  message ← unwrap_ok (decrypt_message key nonce ciphertext auth_data);
  unwrap_ok (Rpc.decode message).

(** The product of the curve in [ref_key_derivation]. *)
Definition derivation_secret : outcome (list byte) :=
  hex_decode "022c82f214eb37159111712add00040fcdf73fd4d7d0b7c0f980da4d099aa59ba4".
End CryptoTests.

Import CryptoSample CryptoTests.

(** C38: Functional.  The unit tests of the cryptography.  Both sides derive the
    same session keys and decryption reverses encryption, for all primitives
    with their laws whose key derivation and encryption succeed.  On the
    reference vectors of the specification: the session keys of a given product
    on the curve by HKDF-SHA256, the AES-128-GCM ciphertext of a message, and
    the reference PING packet, which is unmasked, decrypted and read as the PING
    it is. *)
Theorem crypto_tests_pass :
  (forall (Enr : Type) (k : K256) (crate : EnrCrate Enr) (prims : Primitives) (laws : PrimitiveLaws) (ids : EnrCrateLaws Enr)
     ephem_sk node2_key (node1_enr node2_enr : Enr) aad key nonce,
     enr_public_key node2_enr = PubSecp256k1 (verifying_key node2_key) -> is_Some (enr_udp4_socket node2_enr) ->
     (forall salt ikm info, is_Some (hkdf_expand salt ikm info 32)) -> (forall k n m a, is_Some (gcm_encrypt k n m a)) ->
     derive_symmetric_keys ephem_sk node2_key node1_enr node2_enr = Ret () /\ encrypt_decrypt aad key nonce = Ret ()) /\
  (secret ← derivation_secret; ref_key_derivation secret) = Ret () /\ ref_encryption = Ret () /\
  decrypt_ref_test_ping = Ret (Rpc.MRequest (Rpc.mkRequest [x00; x00; x00; x01] (Rpc.Ping 2))).
Proof.
  split_and!; [|vm_compute; reflexivity..]. intros. split; [by apply derive_symmetric_keys_passes|by apply encrypt_decrypt_passes].
Qed.

Lemma crypto_tests_pass_witness :
  derive_symmetric_keys (H := sample_k256) (H0 := sample_primitives) x09 x02 [x01; x05; x01] [x02; x05; x02] = Ret ().
Proof.
  destruct crypto_tests_pass as [Hall _].
  apply (Hall (list byte) sample_k256 sample_enr sample_primitives sample_laws sample_enr_laws x09 x02 [x01; x05; x01] [x02; x05; x02]
    (vreplicate 12 x00) (vreplicate 16 x00) (vreplicate 12 x00)).
  - reflexivity.
  - vm_compute. eauto.
  - intros salt ikm info. simpl. eauto.
  - intros k n m a. simpl. eauto.
Defined.
