(* ===== verification/Errors.v ===== *)
(** * Errors (src/src/error.rs)

    The errors of the library, and the conversions between them.  The part of
    [Error] that sessions and their cryptography report is [Session.Error]. *)

From stdpp Require Import strings.
From S2P Require Import Prelude Bytes Key Rpc Packet NodeInfo Crypto Session.

(** [RequestError]; the text of an encryption error is the error. *)
Inductive RequestError (Enr : Type) :=
  | Timeout
  | ServiceNotStarted
  | SelfRequest
  | ChannelFailed (msg : string)
  | InvalidEnr (msg : string)
  | InvalidRemoteEnr
  | InvalidRemotePacket
  | EncryptionFailed (e : Session.Error Enr)
  | InvalidMultiaddr (msg : string)
  | EntropyFailure (msg : string).
Arguments Timeout {Enr}.
Arguments ServiceNotStarted {Enr}.
Arguments SelfRequest {Enr}.
Arguments ChannelFailed {Enr} msg.
Arguments InvalidEnr {Enr} msg.
Arguments InvalidRemoteEnr {Enr}.
Arguments InvalidRemotePacket {Enr}.
Arguments EncryptionFailed {Enr} e.
Arguments InvalidMultiaddr {Enr} msg.
Arguments EntropyFailure {Enr} msg.

(** [From<NonContactable>]. *)
Definition from_non_contactable {Enr} (enr : Enr) : RequestError Enr := InvalidEnr "ENR is not contactable".

Module QueryError.
Inductive QueryError :=
  | ServiceNotStarted
  | ChannelFailed (msg : string)
  | InvalidEnr (msg : string)
  | EncryptionFailed (msg : string)
  | InvalidMultiaddr (msg : string).
End QueryError.

Module ResponseError.
Inductive ResponseError := ChannelClosed.

(** [Display]. *)
Definition fmt (e : ResponseError) : string :=
  match e with ChannelClosed => "response channel has already been closed" end.
End ResponseError.

Module Error.
(** An I/O error is its text. *)
Inductive Error (Enr : Type) :=
  | InvalidEnr
  | UnknownPublicKey
  | KeyTypeNotSupported (msg : string)
  | KeyDerivationFailed
  | InvalidRemotePublicKey
  | InvalidSecretKey
  | InvalidChallengeSignature (c : Challenge Enr)
  | ServiceChannelClosed
  | ServiceNotStarted
  | ServiceAlreadyStarted
  | SessionNotEstablished
  | RLPError (e : DecoderError)
  | EncryptionFail (msg : string)
  | DecryptionFailed (msg : string)
  | Custom (msg : string)
  | OtherError (msg : string)
  | Io (err : string).
Arguments InvalidEnr {Enr}.
Arguments UnknownPublicKey {Enr}.
Arguments KeyTypeNotSupported {Enr} msg.
Arguments KeyDerivationFailed {Enr}.
Arguments InvalidRemotePublicKey {Enr}.
Arguments InvalidSecretKey {Enr}.
Arguments InvalidChallengeSignature {Enr} c.
Arguments ServiceChannelClosed {Enr}.
Arguments ServiceNotStarted {Enr}.
Arguments ServiceAlreadyStarted {Enr}.
Arguments SessionNotEstablished {Enr}.
Arguments RLPError {Enr} e.
Arguments EncryptionFail {Enr} msg.
Arguments DecryptionFailed {Enr} msg.
Arguments Custom {Enr} msg.
Arguments OtherError {Enr} msg.
Arguments Io {Enr} err.

(** [From<std::io::Error>]. *)
Definition from_io {Enr} (err : string) : Error Enr := Io err.
End Error.
