(* ===== verification/Globals.v ===== *)
(** * The global values (src/src/metrics.rs, src/src/permit_ban.rs)

    The counters the tasks write, each an atomic [usize], and the snapshot
    [Discv5::metrics] takes of them.  The lists of permitted and banned
    addresses and nodes the packet filter consults, and the periodic removal of
    the bans that are over ([Handler::unban_nodes_check]); a ban with no end is
    kept. *)

From Stdlib Require Import Floats.SpecFloat.
From S2P Require Import Prelude Bytes Key NodeInfo.

(** ** METRICS *)

Local Open Scope Z_scope.

(** The operations on [f64] the snapshot uses, as those of [F32] (RateLimiter.v) at precision 53. *)
Module F64.
Definition f64 : Type := spec_float.
Definition of_int (n : Z) : f64 := binary_normalize 53 1024 n 0 false.
Definition div : f64 -> f64 -> f64 := SFdiv 53 1024.
End F64.

Module Metrics.

Record InternalMetrics := mkInternal {
  active_sessions : Z;
  moving_window : Z;
  unsolicited_requests_per_window : Z;
  bytes_sent : Z;
  bytes_recv : Z;
}.

(** [Default]. *)
Definition default : InternalMetrics := mkInternal 0 5 0 0 0.

(** The store of [add_recv_bytes] and [add_sent_bytes]: [usize::saturating_add]. *)
Definition add_bytes (current_bytes bytes : Z) : Z := Z.min (U64_MODULUS - 1) (current_bytes + bytes).

Definition add_recv_bytes (m : InternalMetrics) (bytes : Z) : InternalMetrics :=
  mkInternal (active_sessions m) (moving_window m) (unsolicited_requests_per_window m) (bytes_sent m)
    (add_bytes (bytes_recv m) bytes).

Definition add_sent_bytes (m : InternalMetrics) (bytes : Z) : InternalMetrics :=
  mkInternal (active_sessions m) (moving_window m) (unsolicited_requests_per_window m)
    (add_bytes (bytes_sent m) bytes) (bytes_recv m).

Record Metrics := mkMetrics {
  sessions : Z;
  unsolicited_requests_per_second : F64.f64;
  sent : Z;
  recv : Z;
}.

(** [From<&METRICS>]. *)
Definition from (m : InternalMetrics) : Metrics :=
  mkMetrics (active_sessions m)
    (F64.div (F64.of_int (unsolicited_requests_per_window m)) (F64.of_int (moving_window m)))
    (bytes_sent m) (bytes_recv m).

(** The counters saturate instead of wrapping around. *)
Lemma add_bytes_range current bytes :
  0 <= current < U64_MODULUS -> 0 <= bytes -> current <= add_bytes current bytes < U64_MODULUS.
Proof. unfold add_bytes. lia. Qed.
End Metrics.

(** ** PERMIT_BAN_LIST *)

Import NodeInfo.

Module PermitBan.

Record PermitBanList := mkPermitBan {
  permit_ips : gset IpAddr;
  ban_ips : gmap IpAddr (option Z);
  permit_nodes : gset NodeId;
  ban_nodes : gmap NodeId (option Z);
}.

Definition default : PermitBanList := mkPermitBan ∅ ∅ ∅ ∅.

Definition ban (self : PermitBanList) (node_address : NodeAddress) (time_to_unban : option Z) : PermitBanList :=
  mkPermitBan (permit_ips self)
    (<[SocketAddr.ip (socket_addr node_address) := time_to_unban]> (ban_ips self))
    (permit_nodes self)
    (<[node_id node_address := time_to_unban]> (ban_nodes self)).

(** [time.is_none() || Some(Instant::now()) < *time]. *)
Definition still_banned (now : Z) (time : option Z) : Prop :=
  match time with None => True | Some t => (now < t)%Z end.

#[export] Instance still_banned_dec now time : Decision (still_banned now time).
Proof. destruct time; simpl; apply _. Defined.

(** The clock is read for every entry: [now_ip] and [now_node] are the readings. *)
Definition unban_nodes_check (self : PermitBanList) (now_ip : IpAddr -> Z) (now_node : NodeId -> Z) : PermitBanList :=
  mkPermitBan (permit_ips self)
    (filter (fun e => still_banned (now_ip e.1) e.2) (ban_ips self))
    (permit_nodes self)
    (filter (fun e => still_banned (now_node e.1) e.2) (ban_nodes self)).
End PermitBan.
