(* ===== verification/Config.v ===== *)
(** * The configuration (src/src/config.rs)

    The parameters of a node, their defaults, the setters of the builder and its
    checks.  The executor of the tasks is a name; the reading of the clock when
    the rate limiter is built is an argument. *)

From stdpp Require Import strings.
From S2P Require Import Prelude Bytes Key NodeInfo Bucket RateLimiter Globals.

Module Config.

(** [executor::Executor]: tokio's, or one of the user. *)
Inductive Executor := TokioExecutor | OtherExecutor (name : nat).

Record Config (Enr : Type) := mkConfig {
  enable_packet_filter : bool;
  request_timeout : Z;
  vote_duration : Z;
  query_peer_timeout : Z;
  query_timeout : Z;
  request_retries : Z;
  session_timeout : Z;
  session_cache_capacity : nat;
  enr_update : bool;
  max_nodes_response : nat;
  enr_peer_update_min : nat;
  query_parallelism : nat;
  ip_limit : bool;
  incoming_bucket_limit : nat;
  table_filter : Enr -> bool;
  ping_interval : Z;
  report_discovered_peers : bool;
  filter_rate_limiter : option RateLimiter.RateLimiter;
  filter_max_nodes_per_ip : option nat;
  filter_max_bans_per_ip : option nat;
  permit_ban_list : PermitBan.PermitBanList;
  ban_duration : option Z;
  executor : option Executor;
  listen_config : ListenConfig.ListenConfig;
}.
Arguments mkConfig {Enr} enable_packet_filter request_timeout vote_duration query_peer_timeout query_timeout
  request_retries session_timeout session_cache_capacity enr_update max_nodes_response enr_peer_update_min
  query_parallelism ip_limit incoming_bucket_limit table_filter ping_interval report_discovered_peers
  filter_rate_limiter filter_max_nodes_per_ip filter_max_bans_per_ip permit_ban_list ban_duration executor listen_config.
Arguments enable_packet_filter {Enr} c : rename.
Arguments request_timeout {Enr} c : rename.
Arguments vote_duration {Enr} c : rename.
Arguments query_peer_timeout {Enr} c : rename.
Arguments query_timeout {Enr} c : rename.
Arguments request_retries {Enr} c : rename.
Arguments session_timeout {Enr} c : rename.
Arguments session_cache_capacity {Enr} c : rename.
Arguments enr_update {Enr} c : rename.
Arguments max_nodes_response {Enr} c : rename.
Arguments enr_peer_update_min {Enr} c : rename.
Arguments query_parallelism {Enr} c : rename.
Arguments ip_limit {Enr} c : rename.
Arguments incoming_bucket_limit {Enr} c : rename.
Arguments table_filter {Enr} c _ : rename.
Arguments ping_interval {Enr} c : rename.
Arguments report_discovered_peers {Enr} c : rename.
Arguments filter_rate_limiter {Enr} c : rename.
Arguments filter_max_nodes_per_ip {Enr} c : rename.
Arguments filter_max_bans_per_ip {Enr} c : rename.
Arguments permit_ban_list {Enr} c : rename.
Arguments ban_duration {Enr} c : rename.
Arguments executor {Enr} c : rename.
Arguments listen_config {Enr} c : rename.

(** The quotas of the limiter [ConfigBuilder::new] builds. *)
Definition default_rate_limits : RateLimiterBuilder.RateLimiterBuilder :=
  RateLimiterBuilder.ip_n_every
    (RateLimiterBuilder.node_n_every
      (RateLimiterBuilder.total_n_every RateLimiterBuilder.new 10 (from_secs 1)) 8 (from_secs 1)) 9 (from_secs 1).

(** [ConfigBuilder::new]. *)
Definition new {Enr} (now : Z) (listen_config : ListenConfig.ListenConfig) : outcome (Config Enr) :=
  match RateLimiter.build default_rate_limits now with
  | Err _ => Panic
  | Ok filter_rate_limiter =>
      Ret (mkConfig false (from_secs 1) (from_secs 30) (from_secs 2) (from_secs 60) 1 (from_secs 86400) 1000 true 16 10 3
             false KBucket.MAX_NODES_PER_BUCKET (fun _ => true) (from_secs 300) true (Some filter_rate_limiter)
             (Some 10) (Some 5) PermitBan.default (Some (from_secs 3600)) None listen_config)
  end.

(** ** The setters of [ConfigBuilder] *)
Section Setters.
Context {Enr : Type}.
Implicit Types c : Config Enr.

Definition set_enable_packet_filter c : Config Enr :=
  mkConfig true (request_timeout c) (vote_duration c) (query_peer_timeout c) (query_timeout c) (request_retries c)
    (session_timeout c) (session_cache_capacity c) (enr_update c) (max_nodes_response c) (enr_peer_update_min c)
    (query_parallelism c) (ip_limit c) (incoming_bucket_limit c) (table_filter c) (ping_interval c)
    (report_discovered_peers c) (filter_rate_limiter c) (filter_max_nodes_per_ip c) (filter_max_bans_per_ip c)
    (permit_ban_list c) (ban_duration c) (executor c) (listen_config c).
Definition set_request_timeout (timeout : Z) c : Config Enr :=
  mkConfig (enable_packet_filter c) timeout (vote_duration c) (query_peer_timeout c) (query_timeout c)
    (request_retries c) (session_timeout c) (session_cache_capacity c) (enr_update c) (max_nodes_response c)
    (enr_peer_update_min c) (query_parallelism c) (ip_limit c) (incoming_bucket_limit c) (table_filter c)
    (ping_interval c) (report_discovered_peers c) (filter_rate_limiter c) (filter_max_nodes_per_ip c)
    (filter_max_bans_per_ip c) (permit_ban_list c) (ban_duration c) (executor c) (listen_config c).
Definition set_vote_duration (vote_duration' : Z) c : Config Enr :=
  mkConfig (enable_packet_filter c) (request_timeout c) vote_duration' (query_peer_timeout c) (query_timeout c)
    (request_retries c) (session_timeout c) (session_cache_capacity c) (enr_update c) (max_nodes_response c)
    (enr_peer_update_min c) (query_parallelism c) (ip_limit c) (incoming_bucket_limit c) (table_filter c)
    (ping_interval c) (report_discovered_peers c) (filter_rate_limiter c) (filter_max_nodes_per_ip c)
    (filter_max_bans_per_ip c) (permit_ban_list c) (ban_duration c) (executor c) (listen_config c).
Definition set_query_peer_timeout (timeout : Z) c : Config Enr :=
  mkConfig (enable_packet_filter c) (request_timeout c) (vote_duration c) timeout (query_timeout c)
    (request_retries c) (session_timeout c) (session_cache_capacity c) (enr_update c) (max_nodes_response c)
    (enr_peer_update_min c) (query_parallelism c) (ip_limit c) (incoming_bucket_limit c) (table_filter c)
    (ping_interval c) (report_discovered_peers c) (filter_rate_limiter c) (filter_max_nodes_per_ip c)
    (filter_max_bans_per_ip c) (permit_ban_list c) (ban_duration c) (executor c) (listen_config c).
Definition set_query_timeout (timeout : Z) c : Config Enr :=
  mkConfig (enable_packet_filter c) (request_timeout c) (vote_duration c) (query_peer_timeout c) timeout
    (request_retries c) (session_timeout c) (session_cache_capacity c) (enr_update c) (max_nodes_response c)
    (enr_peer_update_min c) (query_parallelism c) (ip_limit c) (incoming_bucket_limit c) (table_filter c)
    (ping_interval c) (report_discovered_peers c) (filter_rate_limiter c) (filter_max_nodes_per_ip c)
    (filter_max_bans_per_ip c) (permit_ban_list c) (ban_duration c) (executor c) (listen_config c).
Definition set_request_retries (retries : Z) c : Config Enr :=
  mkConfig (enable_packet_filter c) (request_timeout c) (vote_duration c) (query_peer_timeout c) (query_timeout c)
    retries (session_timeout c) (session_cache_capacity c) (enr_update c) (max_nodes_response c)
    (enr_peer_update_min c) (query_parallelism c) (ip_limit c) (incoming_bucket_limit c) (table_filter c)
    (ping_interval c) (report_discovered_peers c) (filter_rate_limiter c) (filter_max_nodes_per_ip c)
    (filter_max_bans_per_ip c) (permit_ban_list c) (ban_duration c) (executor c) (listen_config c).
Definition set_session_timeout (timeout : Z) c : Config Enr :=
  mkConfig (enable_packet_filter c) (request_timeout c) (vote_duration c) (query_peer_timeout c) (query_timeout c)
    (request_retries c) timeout (session_cache_capacity c) (enr_update c) (max_nodes_response c)
    (enr_peer_update_min c) (query_parallelism c) (ip_limit c) (incoming_bucket_limit c) (table_filter c)
    (ping_interval c) (report_discovered_peers c) (filter_rate_limiter c) (filter_max_nodes_per_ip c)
    (filter_max_bans_per_ip c) (permit_ban_list c) (ban_duration c) (executor c) (listen_config c).
Definition set_session_cache_capacity (capacity : nat) c : Config Enr :=
  mkConfig (enable_packet_filter c) (request_timeout c) (vote_duration c) (query_peer_timeout c) (query_timeout c)
    (request_retries c) (session_timeout c) capacity (enr_update c) (max_nodes_response c) (enr_peer_update_min c)
    (query_parallelism c) (ip_limit c) (incoming_bucket_limit c) (table_filter c) (ping_interval c)
    (report_discovered_peers c) (filter_rate_limiter c) (filter_max_nodes_per_ip c) (filter_max_bans_per_ip c)
    (permit_ban_list c) (ban_duration c) (executor c) (listen_config c).
Definition disable_enr_update c : Config Enr :=
  mkConfig (enable_packet_filter c) (request_timeout c) (vote_duration c) (query_peer_timeout c) (query_timeout c)
    (request_retries c) (session_timeout c) (session_cache_capacity c) false (max_nodes_response c)
    (enr_peer_update_min c) (query_parallelism c) (ip_limit c) (incoming_bucket_limit c) (table_filter c)
    (ping_interval c) (report_discovered_peers c) (filter_rate_limiter c) (filter_max_nodes_per_ip c)
    (filter_max_bans_per_ip c) (permit_ban_list c) (ban_duration c) (executor c) (listen_config c).
Definition set_max_nodes_response (max : nat) c : Config Enr :=
  mkConfig (enable_packet_filter c) (request_timeout c) (vote_duration c) (query_peer_timeout c) (query_timeout c)
    (request_retries c) (session_timeout c) (session_cache_capacity c) (enr_update c) max (enr_peer_update_min c)
    (query_parallelism c) (ip_limit c) (incoming_bucket_limit c) (table_filter c) (ping_interval c)
    (report_discovered_peers c) (filter_rate_limiter c) (filter_max_nodes_per_ip c) (filter_max_bans_per_ip c)
    (permit_ban_list c) (ban_duration c) (executor c) (listen_config c).
Definition set_enr_peer_update_min (min : nat) c : outcome (Config Enr) :=
  if decide (min < 2) then Panic
  else Ret
    (mkConfig (enable_packet_filter c) (request_timeout c) (vote_duration c) (query_peer_timeout c)
      (query_timeout c) (request_retries c) (session_timeout c) (session_cache_capacity c) (enr_update c)
      (max_nodes_response c) min (query_parallelism c) (ip_limit c) (incoming_bucket_limit c) (table_filter c)
      (ping_interval c) (report_discovered_peers c) (filter_rate_limiter c) (filter_max_nodes_per_ip c)
      (filter_max_bans_per_ip c) (permit_ban_list c) (ban_duration c) (executor c) (listen_config c)).
Definition set_query_parallelism (parallelism : nat) c : Config Enr :=
  mkConfig (enable_packet_filter c) (request_timeout c) (vote_duration c) (query_peer_timeout c) (query_timeout c)
    (request_retries c) (session_timeout c) (session_cache_capacity c) (enr_update c) (max_nodes_response c)
    (enr_peer_update_min c) parallelism (ip_limit c) (incoming_bucket_limit c) (table_filter c) (ping_interval c)
    (report_discovered_peers c) (filter_rate_limiter c) (filter_max_nodes_per_ip c) (filter_max_bans_per_ip c)
    (permit_ban_list c) (ban_duration c) (executor c) (listen_config c).
Definition set_ip_limit c : Config Enr :=
  mkConfig (enable_packet_filter c) (request_timeout c) (vote_duration c) (query_peer_timeout c) (query_timeout c)
    (request_retries c) (session_timeout c) (session_cache_capacity c) (enr_update c) (max_nodes_response c)
    (enr_peer_update_min c) (query_parallelism c) true (incoming_bucket_limit c) (table_filter c) (ping_interval c)
    (report_discovered_peers c) (filter_rate_limiter c) (filter_max_nodes_per_ip c) (filter_max_bans_per_ip c)
    (permit_ban_list c) (ban_duration c) (executor c) (listen_config c).
Definition set_incoming_bucket_limit (limit : nat) c : Config Enr :=
  mkConfig (enable_packet_filter c) (request_timeout c) (vote_duration c) (query_peer_timeout c) (query_timeout c)
    (request_retries c) (session_timeout c) (session_cache_capacity c) (enr_update c) (max_nodes_response c)
    (enr_peer_update_min c) (query_parallelism c) (ip_limit c) limit (table_filter c) (ping_interval c)
    (report_discovered_peers c) (filter_rate_limiter c) (filter_max_nodes_per_ip c) (filter_max_bans_per_ip c)
    (permit_ban_list c) (ban_duration c) (executor c) (listen_config c).
Definition set_table_filter (filter : Enr -> bool) c : Config Enr :=
  mkConfig (enable_packet_filter c) (request_timeout c) (vote_duration c) (query_peer_timeout c) (query_timeout c)
    (request_retries c) (session_timeout c) (session_cache_capacity c) (enr_update c) (max_nodes_response c)
    (enr_peer_update_min c) (query_parallelism c) (ip_limit c) (incoming_bucket_limit c) filter (ping_interval c)
    (report_discovered_peers c) (filter_rate_limiter c) (filter_max_nodes_per_ip c) (filter_max_bans_per_ip c)
    (permit_ban_list c) (ban_duration c) (executor c) (listen_config c).
Definition set_ping_interval (interval : Z) c : Config Enr :=
  mkConfig (enable_packet_filter c) (request_timeout c) (vote_duration c) (query_peer_timeout c) (query_timeout c)
    (request_retries c) (session_timeout c) (session_cache_capacity c) (enr_update c) (max_nodes_response c)
    (enr_peer_update_min c) (query_parallelism c) (ip_limit c) (incoming_bucket_limit c) (table_filter c) interval
    (report_discovered_peers c) (filter_rate_limiter c) (filter_max_nodes_per_ip c) (filter_max_bans_per_ip c)
    (permit_ban_list c) (ban_duration c) (executor c) (listen_config c).
Definition disable_report_discovered_peers c : Config Enr :=
  mkConfig (enable_packet_filter c) (request_timeout c) (vote_duration c) (query_peer_timeout c) (query_timeout c)
    (request_retries c) (session_timeout c) (session_cache_capacity c) (enr_update c) (max_nodes_response c)
    (enr_peer_update_min c) (query_parallelism c) (ip_limit c) (incoming_bucket_limit c) (table_filter c)
    (ping_interval c) false (filter_rate_limiter c) (filter_max_nodes_per_ip c) (filter_max_bans_per_ip c)
    (permit_ban_list c) (ban_duration c) (executor c) (listen_config c).
Definition set_filter_rate_limiter (rate_limiter : option RateLimiter.RateLimiter) c : Config Enr :=
  mkConfig (enable_packet_filter c) (request_timeout c) (vote_duration c) (query_peer_timeout c) (query_timeout c)
    (request_retries c) (session_timeout c) (session_cache_capacity c) (enr_update c) (max_nodes_response c)
    (enr_peer_update_min c) (query_parallelism c) (ip_limit c) (incoming_bucket_limit c) (table_filter c)
    (ping_interval c) (report_discovered_peers c) rate_limiter (filter_max_nodes_per_ip c)
    (filter_max_bans_per_ip c) (permit_ban_list c) (ban_duration c) (executor c) (listen_config c).
Definition set_filter_max_nodes_per_ip (max_nodes : option nat) c : Config Enr :=
  mkConfig (enable_packet_filter c) (request_timeout c) (vote_duration c) (query_peer_timeout c) (query_timeout c)
    (request_retries c) (session_timeout c) (session_cache_capacity c) (enr_update c) (max_nodes_response c)
    (enr_peer_update_min c) (query_parallelism c) (ip_limit c) (incoming_bucket_limit c) (table_filter c)
    (ping_interval c) (report_discovered_peers c) (filter_rate_limiter c) max_nodes (filter_max_bans_per_ip c)
    (permit_ban_list c) (ban_duration c) (executor c) (listen_config c).
Definition set_filter_max_bans_per_ip (max_bans : option nat) c : Config Enr :=
  mkConfig (enable_packet_filter c) (request_timeout c) (vote_duration c) (query_peer_timeout c) (query_timeout c)
    (request_retries c) (session_timeout c) (session_cache_capacity c) (enr_update c) (max_nodes_response c)
    (enr_peer_update_min c) (query_parallelism c) (ip_limit c) (incoming_bucket_limit c) (table_filter c)
    (ping_interval c) (report_discovered_peers c) (filter_rate_limiter c) (filter_max_nodes_per_ip c) max_bans
    (permit_ban_list c) (ban_duration c) (executor c) (listen_config c).
Definition set_permit_ban_list (list : PermitBan.PermitBanList) c : Config Enr :=
  mkConfig (enable_packet_filter c) (request_timeout c) (vote_duration c) (query_peer_timeout c) (query_timeout c)
    (request_retries c) (session_timeout c) (session_cache_capacity c) (enr_update c) (max_nodes_response c)
    (enr_peer_update_min c) (query_parallelism c) (ip_limit c) (incoming_bucket_limit c) (table_filter c)
    (ping_interval c) (report_discovered_peers c) (filter_rate_limiter c) (filter_max_nodes_per_ip c)
    (filter_max_bans_per_ip c) list (ban_duration c) (executor c) (listen_config c).
Definition set_ban_duration (duration : option Z) c : Config Enr :=
  mkConfig (enable_packet_filter c) (request_timeout c) (vote_duration c) (query_peer_timeout c) (query_timeout c)
    (request_retries c) (session_timeout c) (session_cache_capacity c) (enr_update c) (max_nodes_response c)
    (enr_peer_update_min c) (query_parallelism c) (ip_limit c) (incoming_bucket_limit c) (table_filter c)
    (ping_interval c) (report_discovered_peers c) (filter_rate_limiter c) (filter_max_nodes_per_ip c)
    (filter_max_bans_per_ip c) (permit_ban_list c) duration (executor c) (listen_config c).
Definition set_executor (executor' : Executor) c : Config Enr :=
  mkConfig (enable_packet_filter c) (request_timeout c) (vote_duration c) (query_peer_timeout c) (query_timeout c)
    (request_retries c) (session_timeout c) (session_cache_capacity c) (enr_update c) (max_nodes_response c)
    (enr_peer_update_min c) (query_parallelism c) (ip_limit c) (incoming_bucket_limit c) (table_filter c)
    (ping_interval c) (report_discovered_peers c) (filter_rate_limiter c) (filter_max_nodes_per_ip c)
    (filter_max_bans_per_ip c) (permit_ban_list c) (ban_duration c) (Some executor') (listen_config c).
End Setters.

(** A call on the builder. *)
Inductive setting (Enr : Type) :=
  | EnablePacketFilter
  | SetRequestTimeout (v : Z)
  | SetVoteDuration (v : Z)
  | SetQueryPeerTimeout (v : Z)
  | SetQueryTimeout (v : Z)
  | SetRequestRetries (v : Z)
  | SetSessionTimeout (v : Z)
  | SetSessionCacheCapacity (v : nat)
  | DisableEnrUpdate
  | SetMaxNodesResponse (v : nat)
  | SetEnrPeerUpdateMin (v : nat)
  | SetQueryParallelism (v : nat)
  | SetIpLimit
  | SetIncomingBucketLimit (v : nat)
  | SetTableFilter (v : Enr -> bool)
  | SetPingInterval (v : Z)
  | DisableReportDiscoveredPeers
  | SetFilterRateLimiter (v : option RateLimiter.RateLimiter)
  | SetFilterMaxNodesPerIp (v : option nat)
  | SetFilterMaxBansPerIp (v : option nat)
  | SetPermitBanList (v : PermitBan.PermitBanList)
  | SetBanDuration (v : option Z)
  | SetExecutor (v : Executor).
Arguments EnablePacketFilter {Enr}.
Arguments SetRequestTimeout {Enr} v.
Arguments SetVoteDuration {Enr} v.
Arguments SetQueryPeerTimeout {Enr} v.
Arguments SetQueryTimeout {Enr} v.
Arguments SetRequestRetries {Enr} v.
Arguments SetSessionTimeout {Enr} v.
Arguments SetSessionCacheCapacity {Enr} v.
Arguments DisableEnrUpdate {Enr}.
Arguments SetMaxNodesResponse {Enr} v.
Arguments SetEnrPeerUpdateMin {Enr} v.
Arguments SetQueryParallelism {Enr} v.
Arguments SetIpLimit {Enr}.
Arguments SetIncomingBucketLimit {Enr} v.
Arguments SetTableFilter {Enr} v.
Arguments SetPingInterval {Enr} v.
Arguments DisableReportDiscoveredPeers {Enr}.
Arguments SetFilterRateLimiter {Enr} v.
Arguments SetFilterMaxNodesPerIp {Enr} v.
Arguments SetFilterMaxBansPerIp {Enr} v.
Arguments SetPermitBanList {Enr} v.
Arguments SetBanDuration {Enr} v.
Arguments SetExecutor {Enr} v.

Definition set {Enr} (x : setting Enr) (c : Config Enr) : outcome (Config Enr) :=
  match x with
  | EnablePacketFilter => Ret (set_enable_packet_filter c)
  | SetRequestTimeout v => Ret (set_request_timeout v c)
  | SetVoteDuration v => Ret (set_vote_duration v c)
  | SetQueryPeerTimeout v => Ret (set_query_peer_timeout v c)
  | SetQueryTimeout v => Ret (set_query_timeout v c)
  | SetRequestRetries v => Ret (set_request_retries v c)
  | SetSessionTimeout v => Ret (set_session_timeout v c)
  | SetSessionCacheCapacity v => Ret (set_session_cache_capacity v c)
  | DisableEnrUpdate => Ret (disable_enr_update c)
  | SetMaxNodesResponse v => Ret (set_max_nodes_response v c)
  | SetEnrPeerUpdateMin v => set_enr_peer_update_min v c
  | SetQueryParallelism v => Ret (set_query_parallelism v c)
  | SetIpLimit => Ret (set_ip_limit c)
  | SetIncomingBucketLimit v => Ret (set_incoming_bucket_limit v c)
  | SetTableFilter v => Ret (set_table_filter v c)
  | SetPingInterval v => Ret (set_ping_interval v c)
  | DisableReportDiscoveredPeers => Ret (disable_report_discovered_peers c)
  | SetFilterRateLimiter v => Ret (set_filter_rate_limiter v c)
  | SetFilterMaxNodesPerIp v => Ret (set_filter_max_nodes_per_ip v c)
  | SetFilterMaxBansPerIp v => Ret (set_filter_max_bans_per_ip v c)
  | SetPermitBanList v => Ret (set_permit_ban_list v c)
  | SetBanDuration v => Ret (set_ban_duration v c)
  | SetExecutor v => Ret (set_executor v c)
  end.

Fixpoint set_all {Enr} (l : list (setting Enr)) (c : Config Enr) : outcome (Config Enr) :=
  match l with
  | [] => Ret c
  | x :: l => c ← set x c; set_all l c
  end.

(** [ConfigBuilder::build]. *)
Definition build {Enr} (c : Config Enr) : outcome (Config Enr) :=
  let c := match executor c with Some _ => c | None => set_executor TokioExecutor c end in
  if decide (incoming_bucket_limit c <= KBucket.MAX_NODES_PER_BUCKET) then Ret c else Panic.

(** What [build] returns after some calls of the setters. *)
Definition built {Enr} (now : Z) (listen_config : ListenConfig.ListenConfig) (l : list (setting Enr)) : outcome (Config Enr) :=
  c ← new now listen_config;
  c ← set_all l c;
  build c.

(** The checks of the builder. *)
Record valid {Enr} (c : Config Enr) : Prop := {
  valid_limit : incoming_bucket_limit c <= KBucket.MAX_NODES_PER_BUCKET;
  valid_min : 2 <= enr_peer_update_min c;
  valid_executor : is_Some (executor c);
}.

Lemma set_min {Enr} x (c c' : Config Enr) : set x c = Ret c' -> 2 <= enr_peer_update_min c -> 2 <= enr_peer_update_min c'.
Proof.
  destruct x; cbn [set]; try (intros ? Hm; simplify_eq; exact Hm).
  unfold set_enr_peer_update_min. case_decide; [done|]. intros ? _. simplify_eq. simpl. lia.
Qed.

Lemma set_all_min {Enr} l (c c' : Config Enr) :
  set_all l c = Ret c' -> 2 <= enr_peer_update_min c -> 2 <= enr_peer_update_min c'.
Proof.
  revert c. induction l as [|x l IH]; intros c E Hc; simpl in E; [by simplify_eq|].
  split_run. eapply IH; [done|]. by eapply set_min.
Qed.

Lemma build_valid {Enr} (c c' : Config Enr) : build c = Ret c' -> 2 <= enr_peer_update_min c -> valid c'.
Proof.
  unfold build. destruct (executor c) as [ex|] eqn:Ee; case_decide as Hl; [|done| |done]; intros E Hm; simplify_eq.
  - split; [exact Hl|exact Hm|by eexists].
  - split; [exact Hl|exact Hm|by eexists].
Qed.

Lemma built_valid {Enr} now listen_config l (c : Config Enr) : built now listen_config l = Ret c -> valid c.
Proof.
  unfold built. intros Hb. split_run. eapply build_valid; [exact Hb|]. eapply set_all_min; [done|].
  unfold new in *. destruct (RateLimiter.build _ _); [|done]. simplify_eq. simpl. lia.
Qed.

(** What the checks of the builder let pass. *)
Definition accepted {Enr} (x : setting Enr) : bool :=
  match x with
  | SetEnrPeerUpdateMin min => bool_decide (2 <= min)
  | SetIncomingBucketLimit limit => bool_decide (limit <= KBucket.MAX_NODES_PER_BUCKET)
  | _ => true
  end.

Lemma set_accepted {Enr} x (c : Config Enr) :
  accepted x = true -> incoming_bucket_limit c <= KBucket.MAX_NODES_PER_BUCKET ->
  exists c', set x c = Ret c' /\ incoming_bucket_limit c' <= KBucket.MAX_NODES_PER_BUCKET.
Proof.
  destruct x; cbn [set accepted]; intros Hx Hc; try (eexists; split; [reflexivity|exact Hc]); apply bool_decide_eq_true in Hx.
  - unfold set_enr_peer_update_min. rewrite decide_False by lia. eexists. split; [reflexivity|exact Hc].
  - eexists. split; [reflexivity|exact Hx].
Qed.

Lemma set_all_accepted {Enr} l (c : Config Enr) :
  Forall (fun x => accepted x = true) l -> incoming_bucket_limit c <= KBucket.MAX_NODES_PER_BUCKET ->
  exists c', set_all l c = Ret c' /\ incoming_bucket_limit c' <= KBucket.MAX_NODES_PER_BUCKET.
Proof.
  intros Hl. revert c. induction Hl as [|x l Hx _ IH]; intros c Hc; [by eexists|].
  destruct (set_accepted x c Hx Hc) as (c1 & E & Hc1). simpl. rewrite E. by apply IH.
Qed.

Lemma build_total {Enr} (c : Config Enr) :
  incoming_bucket_limit c <= KBucket.MAX_NODES_PER_BUCKET -> exists c', build c = Ret c'.
Proof. intros Hc. unfold build. destruct (executor c); rewrite decide_True by done; by eexists. Qed.

Lemma built_total {Enr} now listen_config (l : list (setting Enr)) :
  Forall (fun x => accepted x = true) l -> exists c, built now listen_config l = Ret c.
Proof.
  intros Hl. unfold built. destruct (new now listen_config) as [c|] eqn:En; [|done].
  assert (incoming_bucket_limit c <= KBucket.MAX_NODES_PER_BUCKET) as Hc
    by (unfold new in En; destruct (RateLimiter.build _ _); [|done]; by simplify_eq).
  destruct (set_all_accepted l c Hl Hc) as (c1 & E1 & Hc1). destruct (build_total c1 Hc1) as (c2 & E2).
  exists c2. simpl. by rewrite E1.
Qed.

(** The minimum that a setter refuses, and the last limit set. *)
Definition refused {Enr} (x : setting Enr) : bool :=
  match x with SetEnrPeerUpdateMin min => bool_decide (min < 2) | _ => false end.
Definition limit_after {Enr} (limit : nat) (x : setting Enr) : nat :=
  match x with SetIncomingBucketLimit v => v | _ => limit end.

Lemma set_spec {Enr} x (c : Config Enr) :
  match set x c with
  | Ret c' => refused x = false /\ incoming_bucket_limit c' = limit_after (incoming_bucket_limit c) x
  | Panic => refused x = true
  end.
Proof.
  destruct x; try done. simpl. unfold set_enr_peer_update_min. case_decide; simpl; [by apply bool_decide_eq_true|].
  split; [by apply bool_decide_eq_false|done].
Qed.

Lemma set_all_spec {Enr} l (c : Config Enr) :
  match set_all l c with
  | Ret c' => Forall (fun x => refused x = false) l /\ incoming_bucket_limit c' = fold_left limit_after l (incoming_bucket_limit c)
  | Panic => Exists (fun x => refused x = true) l
  end.
Proof.
  revert c. induction l as [|x l IH]; intros c; simpl; [done|]. pose proof (set_spec x c) as Hx.
  destruct (set x c) as [c1|]; simpl; [|by left]. destruct Hx as [Hr Hl]. specialize (IH c1).
  destruct (set_all l c1) as [c2|]; [|by right]. destruct IH as [IH1 IH2]. rewrite <-Hl. split; [by constructor|done].
Qed.

Lemma new_spec {Enr} now listen_config :
  exists c : Config Enr, new now listen_config = Ret c /\ incoming_bucket_limit c = KBucket.MAX_NODES_PER_BUCKET.
Proof.
  destruct (built_total (Enr := Enr) now listen_config []) as [c E]; [done|]. unfold built in E. split_run.
  eexists. split; [done|]. unfold new in *. destruct (RateLimiter.build _ _); [|done]. by simplify_eq.
Qed.

(** The builder of configurations, whatever the setters called and in whatever
    order.  It panics exactly when an [enr_peer_update_min] below 2 was asked for
    or the last [incoming_bucket_limit] is larger than a bucket; otherwise it
    returns a configuration with an executor, that limit and a minimum of at
    least 2, as the service and the routing table require. *)
Theorem config_builder_spec {Enr : Type} (now : Z) (listen_config : ListenConfig.ListenConfig) (l : list (setting Enr)) :
  let limit := fold_left limit_after l KBucket.MAX_NODES_PER_BUCKET in
  match built now listen_config l with
  | Ret c => valid c /\ incoming_bucket_limit c = limit /\ Forall (fun x => refused x = false) l
  | Panic => Exists (fun x => refused x = true) l \/ KBucket.MAX_NODES_PER_BUCKET < limit
  end.
Proof.
  pose proof (built_valid (Enr := Enr) now listen_config l) as Hv. revert Hv. unfold built.
  destruct (new_spec (Enr := Enr) now listen_config) as (c & -> & Hc). cbn [mbind outcome_bind].
  pose proof (set_all_spec l c) as Hl. destruct (set_all l c) as [c1|]; [|by left]. destruct Hl as [Hr Hl].
  cbn [mbind outcome_bind]. rewrite Hc in Hl. cbv zeta. rewrite <-Hl. unfold build.
  destruct (executor c1); case_decide as Hd; simpl in *; intros Hv; [split_and!; auto| |split_and!; auto|];
    right; lia.
Qed.
End Config.
