(* ===== verification/Handler.v ===== *)
(** * The handler (src/src/handler/mod.rs)

    Sessions, handshakes and the requests in flight.  The state is a record, an
    operation is a function that passes the world (the handler's state, what it
    has sent, the number of values taken from the environment) and can panic.
    The environment [Env] gives the clock readings, the random values, the
    reads of the local record behind its lock and whether a channel still has a
    receiver; every use takes the value at the next tick.  The events are those
    of the [select!] of [start]. *)

From stdpp Require Import strings.
From S2P Require Import Prelude Bytes Key Rpc Maps LruTimeCache Packet NodeInfo Crypto.
From S2P Require Import ActiveRequests Session Errors Bucket Globals.
Import Packet NodeInfo RequestCall ActiveRequests.

Module Handler.

Definition ONE_TIME_SESSION_TIMEOUT : Z := 30.
Definition ONE_TIME_SESSION_CACHE_CAPACITY : Z := 100.

Inductive WhoAreYouRef := mkWhoAreYouRef (node_address : NodeAddress) (message_nonce : MessageNonce).

Section Types.
Context (Enr : Type) `{!K256}.

Inductive HandlerIn :=
  | InRequest (contact : NodeContact Enr) (request : Rpc.Request)
  | InResponse (node_address : NodeAddress) (response : Rpc.Response Enr)
  | InWhoAreYou (wru_ref : WhoAreYouRef) (enr : option Enr).

Inductive HandlerOut :=
  | OutEstablished (enr : Enr) (addr : SocketAddr) (direction : ConnectionDirection)
  | OutRequest (node_address : NodeAddress) (request : Rpc.Request)
  | OutResponse (node_address : NodeAddress) (response : Rpc.Response Enr)
  | OutWhoAreYou (wru_ref : WhoAreYouRef)
  | OutRequestFailed (id : Rpc.RequestId) (error : RequestError Enr).

Record PendingRequest := mkPending {
  pending_contact : NodeContact Enr;
  pending_request_id : HandlerReqId;
  pending_request : Rpc.RequestBody;
}.

(** [socket::InboundPacket]. *)
Record InboundPacket := mkInbound {
  src_address : SocketAddr;
  in_header : PacketHeader Enr;
  in_message : list byte;
  in_authenticated_data : list byte;
}.

(** What was handed to a channel, and whether the channel took it. *)
Inductive Sent :=
  | ToService (out : HandlerOut) (ok : bool)
  | ToSocket (node_address : NodeAddress) (packet : Packet Enr) (ok : bool).

Record Env := mkEnv {
  debug_assertions : bool;
  now : nat -> Z;
  local_enr : nat -> Enr;
  random_iv : nat -> Z;
  random_nonce : nat -> vec byte 8;
  random_message_nonce : nat -> MessageNonce;
  random_id_nonce : nat -> vec byte 16;
  random_fill : nat -> option (vec byte 44);
  random_request_id : nat -> Rpc.RequestId;
  random_key : nat -> SigningKey;
  channel_open : nat -> bool;
  now_ip : nat -> IpAddr -> Z;
  now_node : nat -> NodeId -> Z;
}.
End Types.
Arguments InRequest {Enr _} contact request.
Arguments InResponse {Enr _} node_address response.
Arguments InWhoAreYou {Enr _} wru_ref enr.
Arguments OutEstablished {Enr} enr addr direction.
Arguments OutRequest {Enr} node_address request.
Arguments OutResponse {Enr} node_address response.
Arguments OutWhoAreYou {Enr} wru_ref.
Arguments OutRequestFailed {Enr} id error.
Arguments mkPending {Enr _} pending_contact pending_request_id pending_request.
Arguments pending_contact {Enr _} p : rename.
Arguments pending_request_id {Enr _} p : rename.
Arguments pending_request {Enr _} p : rename.
Arguments mkInbound {Enr} src_address in_header in_message in_authenticated_data.
Arguments src_address {Enr} i : rename.
Arguments in_header {Enr} i : rename.
Arguments in_message {Enr} i : rename.
Arguments in_authenticated_data {Enr} i : rename.
Arguments ToService {Enr} out ok.
Arguments ToSocket {Enr} node_address packet ok.
Arguments mkEnv {Enr _} debug_assertions now local_enr random_iv random_nonce random_message_nonce
  random_id_nonce random_fill random_request_id random_key channel_open now_ip now_node.
Arguments debug_assertions {Enr _} e : rename.
Arguments now {Enr _} e _ : rename.
Arguments local_enr {Enr _} e _ : rename.
Arguments random_iv {Enr _} e _ : rename.
Arguments random_nonce {Enr _} e _ : rename.
Arguments random_message_nonce {Enr _} e _ : rename.
Arguments random_id_nonce {Enr _} e _ : rename.
Arguments random_fill {Enr _} e _ : rename.
Arguments random_request_id {Enr _} e _ : rename.
Arguments random_key {Enr _} e _ : rename.
Arguments channel_open {Enr _} e _ : rename.
Arguments now_ip {Enr _} e _ _ : rename.
Arguments now_node {Enr _} e _ _ : rename.

(** [D] and [C] are the expiring maps of the nonces and of the challenges, [SM]
    and [OM] the linked maps of the two session caches. *)
Record Handler (Enr D C SM OM : Type) `{!K256} := mkHandler {
  request_retries : Z;
  node_id : NodeId;
  key : CombinedKey;
  listen_sockets : list SocketAddr;
  active_requests : ActiveRequests Enr D;
  filter_expected_responses : gmap SocketAddr Z;
  pending_requests : gmap NodeAddress (list (PendingRequest Enr));
  active_challenges : C;
  sessions : LruTimeCache.LruTimeCache SM;
  one_time_sessions : LruTimeCache.LruTimeCache OM;
}.
Arguments mkHandler {Enr D C SM OM _} request_retries node_id key listen_sockets active_requests
  filter_expected_responses pending_requests active_challenges sessions one_time_sessions.
Arguments request_retries {Enr D C SM OM _} h : rename.
Arguments node_id {Enr D C SM OM _} h : rename.
Arguments key {Enr D C SM OM _} h : rename.
Arguments listen_sockets {Enr D C SM OM _} h : rename.
Arguments active_requests {Enr D C SM OM _} h : rename.
Arguments filter_expected_responses {Enr D C SM OM _} h : rename.
Arguments pending_requests {Enr D C SM OM _} h : rename.
Arguments active_challenges {Enr D C SM OM _} h : rename.
Arguments sessions {Enr D C SM OM _} h : rename.
Arguments one_time_sessions {Enr D C SM OM _} h : rename.

(** The handler, what was sent (most recent first), the values taken from the
    environment, the gauge [METRICS.active_sessions] and the global
    [PERMIT_BAN_LIST]. *)
Record World (Enr D C SM OM : Type) `{!K256} := mkWorld {
  handler : Handler Enr D C SM OM;
  sent : list (Sent Enr);
  ticks : nat;
  metric_active_sessions : nat;
  permit_ban_list : PermitBan.PermitBanList;
}.
Arguments mkWorld {Enr D C SM OM _} handler sent ticks metric_active_sessions permit_ban_list.
Arguments handler {Enr D C SM OM _} w : rename.
Arguments sent {Enr D C SM OM _} w : rename.
Arguments ticks {Enr D C SM OM _} w : rename.
Arguments metric_active_sessions {Enr D C SM OM _} w : rename.
Arguments permit_ban_list {Enr D C SM OM _} w : rename.

(** The state monad with panics. *)
Definition Run (W A : Type) : Type := W -> outcome (W * A).

Definition run_ret {W A} (a : A) : Run W A := fun w => Ret (w, a).
#[export] Instance run_bind W : MBind (Run W) := fun A B f m w =>
  match m w with Ret (w', a) => f a w' | Panic => Panic end.

Fixpoint for_each {W A} (l : list A) (f : A -> Run W unit) : Run W unit :=
  match l with
  | [] => run_ret ()
  | a :: l => _ ← f a; for_each l f
  end.

Section Handler.
Context {Enr D C SM OM : Type} `{!K256} `{!EnrCrate Enr} `{!Primitives} `{!EnrCodec Enr} `{!ProtocolIdentity}.
Context `{!Rlp Enr} `{!HashMapDelay D MessageNonce NodeAddress} `{!HashMapDelay C NodeAddress (Challenge Enr)}.
Context `{!LinkedHashMap SM NodeAddress (Session.Session * Z)}.
Context `{!LinkedHashMap OM NodeAddress ((Rpc.RequestId * Session.Session) * Z)}.
Variable env : Env Enr.
Notation W := (World Enr D C SM OM).
Notation HS := (Handler Enr D C SM OM).
Notation M := (Run W).
Implicit Types (addr : NodeAddress) (h : HS).

(** The value the environment gives at this tick. *)
Definition take {A} (f : nat -> A) : M A := fun w =>
  Ret (mkWorld (handler w) (sent w) (S (ticks w)) (metric_active_sessions w) (permit_ban_list w), f (ticks w)).

Definition lift {A} (m : outcome A) : M A := fun w => match m with Ret a => Ret (w, a) | Panic => Panic end.

Definition self : M HS := fun w => Ret (w, handler w).
Definition modify (f : HS -> HS) : M unit := fun w =>
  Ret (mkWorld (f (handler w)) (sent w) (ticks w) (metric_active_sessions w) (permit_ban_list w), ()).

(** What is sent, the gauge of the metrics, the list of bans. *)
Definition log (s : Sent Enr) : M unit := fun w =>
  Ret (mkWorld (handler w) (s :: sent w) (ticks w) (metric_active_sessions w) (permit_ban_list w), ()).
Definition set_metric (n : nat) : M unit := fun w =>
  Ret (mkWorld (handler w) (sent w) (ticks w) n (permit_ban_list w), ()).
Definition update_bans (f : PermitBan.PermitBanList -> PermitBan.PermitBanList) : M unit := fun w =>
  Ret (mkWorld (handler w) (sent w) (ticks w) (metric_active_sessions w) (f (permit_ban_list w)), ()).

Definition with_active (a : ActiveRequests Enr D) h : HS :=
  mkHandler (request_retries h) (node_id h) (key h) (listen_sockets h) a (filter_expected_responses h)
    (pending_requests h) (active_challenges h) (sessions h) (one_time_sessions h).
Definition with_expected (e : gmap SocketAddr Z) h : HS :=
  mkHandler (request_retries h) (node_id h) (key h) (listen_sockets h) (active_requests h) e
    (pending_requests h) (active_challenges h) (sessions h) (one_time_sessions h).
Definition with_pending (p : gmap NodeAddress (list (PendingRequest Enr))) h : HS :=
  mkHandler (request_retries h) (node_id h) (key h) (listen_sockets h) (active_requests h)
    (filter_expected_responses h) p (active_challenges h) (sessions h) (one_time_sessions h).
Definition with_challenges (c : C) h : HS :=
  mkHandler (request_retries h) (node_id h) (key h) (listen_sockets h) (active_requests h)
    (filter_expected_responses h) (pending_requests h) c (sessions h) (one_time_sessions h).
Definition with_sessions (s : LruTimeCache.LruTimeCache SM) h : HS :=
  mkHandler (request_retries h) (node_id h) (key h) (listen_sockets h) (active_requests h)
    (filter_expected_responses h) (pending_requests h) (active_challenges h) s (one_time_sessions h).
Definition with_one_time_sessions (o : LruTimeCache.LruTimeCache OM) h : HS :=
  mkHandler (request_retries h) (node_id h) (key h) (listen_sockets h) (active_requests h)
    (filter_expected_responses h) (pending_requests h) (active_challenges h) (sessions h) o.

(** ** Channels and tables *)

(** [self.service_send.send(out).await], true if the service still listens. *)
Definition service_send (out : HandlerOut Enr) : M bool :=
  ok ← take (channel_open env);
  _ ← log (ToService out ok);
  run_ret ok.

Definition send addr (packet : Packet Enr) : M unit :=
  ok ← take (channel_open env);
  log (ToSocket addr packet ok).

(** [self.sessions.get_mut], the write through the reference it returned,
    [insert], [remove] and the gauge. *)
Definition sessions_get_mut addr : M (option Session.Session) :=
  t ← take (now env);
  h ← self;
  let '(c, r) := LruTimeCache.get_mut (sessions h) t addr id in
  _ ← modify (with_sessions c);
  run_ret r.

Definition sessions_write addr (session : Session.Session) : M unit :=
  h ← self;
  modify (with_sessions (LruTimeCache.with_map (sessions h)
    (lm_write (LruTimeCache.map (sessions h)) addr (fun '(_, time) => (session, time))))).

Definition sessions_insert addr (session : Session.Session) : M unit :=
  t ← take (now env);
  h ← self;
  modify (with_sessions (LruTimeCache.insert (sessions h) t addr session)).

Definition sessions_remove addr : M unit :=
  h ← self;
  modify (with_sessions (LruTimeCache.remove (sessions h) addr).1).

Definition store_active_sessions : M unit :=
  t ← take (now env);
  h ← self;
  let '(c, n) := LruTimeCache.len (sessions h) t in
  _ ← modify (with_sessions c);
  set_metric n.

(** [session.encrypt_message], with the values it takes. *)
Definition session_encrypt (session : Session.Session) (message : list byte)
    : M (Session.Session * result (Session.Error Enr) (Packet Enr)) :=
  nonce ← take (random_nonce env);
  iv ← take (random_iv env);
  h ← self;
  lift (Session.encrypt_message (debug_assertions env) session nonce iv (node_id h) message).

Definition active_insert addr (request_call : RequestCall Enr) : M unit :=
  t ← take (now env);
  h ← self;
  modify (with_active (ActiveRequests.insert (active_requests h) t addr request_call)).

(** ** Expected responses *)

Definition remove_expected_response (a : SocketAddr) : M unit :=
  modify (fun h => with_expected
    (match filter_expected_responses h !! a with
     | Some count =>
         let count := saturating_sub count 1 in
         if decide (count = 0)%Z then delete a (filter_expected_responses h)
         else <[a := count]> (filter_expected_responses h)
     | None => filter_expected_responses h
     end) h).

Definition add_expected_response (a : SocketAddr) : M unit :=
  h ← self;
  count ← lift (arith (debug_assertions env) (2 ^ 64) (default 0%Z (filter_expected_responses h !! a) + 1));
  modify (with_expected (<[a := count]> (filter_expected_responses h))).

(** ** Failures *)

(** A failure is reported for the requests made from outside. *)
Definition report_failure (id : HandlerReqId) (error : RequestError Enr) : M unit :=
  match id with
  | Internal _ => run_ret ()
  | External id => _ ← service_send (OutRequestFailed id error); run_ret ()
  end.

Definition fail_session addr (error : RequestError Enr) (remove_session : bool) : M unit :=
  _ ← (if remove_session then _ ← sessions_remove addr; store_active_sessions else run_ret () : M unit);
  h ← self;
  _ ← (match pending_requests h !! addr with
       | Some to_remove =>
           _ ← modify (with_pending (delete addr (pending_requests h)));
           for_each to_remove (fun p => report_failure (pending_request_id p) error)
       | None => run_ret ()
       end : M unit);
  h ← self;
  '(a, removed) ← lift (remove_requests (debug_assertions env) (active_requests h) addr);
  _ ← modify (with_active a);
  for_each (default [] removed) (fun req =>
    _ ← report_failure (request_id req) error;
    remove_expected_response (socket_addr addr)).

Definition fail_request (request_call : RequestCall Enr) (error : RequestError Enr) (remove_session : bool) : M unit :=
  _ ← report_failure (request_id request_call) error;
  fail_session (node_address (contact request_call)) error remove_session.

Definition handle_request_timeout addr (request_call : RequestCall Enr) : M unit :=
  h ← self;
  if decide (request_retries h <= retries request_call)%Z then
    _ ← remove_expected_response (socket_addr addr);
    fail_request request_call Timeout false
  else
    _ ← send addr (packet request_call);
    request_call ← lift (increment_retries (debug_assertions env) request_call);
    active_insert addr request_call.

(** ** Requests and responses *)

Definition is_awaiting_session_to_be_established addr : M bool :=
  session ← sessions_get_mut addr;
  match session with
  | Some _ => run_ret false
  | None =>
      h ← self;
      run_ret (match ActiveRequests.get (active_requests h) addr with
               | Some requests => existsb initiating_session requests
               | None => false
               end)
  end.

(** The packet of a request: encrypted with the session, or random to start one. *)
Definition request_packet addr (request_id : HandlerReqId) (request : Rpc.RequestBody)
    : M (result (RequestError Enr) (Packet Enr * bool)) :=
  session ← sessions_get_mut addr;
  match session with
  | Some session =>
      let request := Rpc.mkRequest (to_request_id request_id) request in
      '(session, packet) ← session_encrypt session (Rpc.request_encode request);
      _ ← sessions_write addr session;
      run_ret (match packet with Ok packet => Ok (packet, false) | Err e => Err (EncryptionFailed e) end)
  | None =>
      ciphertext ← take (random_fill env);
      message_nonce ← take (random_message_nonce env);
      iv ← take (random_iv env);
      h ← self;
      run_ret (match new_random iv ciphertext message_nonce (node_id h) with
               | Ok packet => Ok (packet, true)
               | Err e => Err (EntropyFailure e)
               end)
  end.

(** An active challenge, or a session that is being established. *)
Definition must_queue addr : M bool :=
  h ← self;
  match dm_get (active_challenges h) addr with
  | Some _ => run_ret true
  | None => is_awaiting_session_to_be_established addr
  end.

Definition send_request (contact : NodeContact Enr) (request_id : HandlerReqId) (request : Rpc.RequestBody)
    : M (result (RequestError Enr) unit) :=
  let addr := node_address contact in
  h ← self;
  if decide (socket_addr addr ∈ listen_sockets h) then run_ret (Err SelfRequest)
  else
    queue ← must_queue addr;
    if (queue : bool) then
      h ← self;
      _ ← modify (with_pending (<[addr := default [] (pending_requests h !! addr) ++
                                          [mkPending contact request_id request]]> (pending_requests h)));
      run_ret (Ok ())
    else
      packet ← request_packet addr request_id request;
      match packet with
      | Err e => run_ret (Err e)
      | Ok (packet, initiating_session) =>
          let call := RequestCall.new contact packet request_id request initiating_session in
          _ ← add_expected_response (socket_addr addr);
          _ ← send addr packet;
          _ ← active_insert addr call;
          run_ret (Ok ())
      end.

Definition remove_one_time_session addr (request_id : Rpc.RequestId) : M (option Session.Session) :=
  t ← take (now env);
  h ← self;
  match LruTimeCache.peek (one_time_sessions h) t addr with
  | Some (id, _) =>
      if decide (id = request_id) then
        let '(c, removed) := LruTimeCache.remove (one_time_sessions h) addr in
        _ ← modify (with_one_time_sessions c);
        removed ← lift (unwrap removed);
        run_ret (Some (snd removed))
      else run_ret None
  | None => run_ret None
  end.

Definition send_response addr (response : Rpc.Response Enr) : M unit :=
  let message := Rpc.response_encode response in
  session ← sessions_get_mut addr;
  match session with
  | Some session =>
      '(session, packet) ← session_encrypt session message;
      _ ← sessions_write addr session;
      match packet with Ok packet => send addr packet | Err _ => run_ret () end
  | None =>
      session ← remove_one_time_session addr (Rpc.resp_id response);
      match session with
      | Some session =>
          '(_, packet) ← session_encrypt session message;
          match packet with Ok packet => send addr packet | Err _ => run_ret () end
      | None => run_ret ()
      end
  end.

Definition send_challenge (wru_ref : WhoAreYouRef) (remote_enr : option Enr) : M unit :=
  let 'mkWhoAreYouRef addr message_nonce := wru_ref in
  h ← self;
  match dm_get (active_challenges h) addr with
  | Some _ => run_ret ()
  | None =>
      let enr_seq := match remote_enr with Some enr => enr_seq enr | None => 0%Z end in
      id_nonce ← take (random_id_nonce env);
      iv ← take (random_iv env);
      let packet := new_whoareyou iv message_nonce id_nonce enr_seq in
      challenge_data ← lift (unwrap (challenge_data_from (authenticated_data packet)));
      _ ← add_expected_response (socket_addr addr);
      _ ← send addr packet;
      t ← take (now env);
      modify (fun h => with_challenges (dm_insert (active_challenges h) t addr (mkChallenge challenge_data remote_enr)) h)
  end.

(** ** New sessions *)

Definition send_pending_requests addr : M unit :=
  h ← self;
  _ ← modify (with_pending (delete addr (pending_requests h)));
  for_each (default [] (pending_requests h !! addr)) (fun req =>
    r ← send_request (pending_contact req) (pending_request_id req) (pending_request req);
    match r with
    | Ok _ => run_ret ()
    | Err request_error => report_failure (pending_request_id req) request_error
    end).

(** The packets of the first loop of [replay_active_requests], with the nonces they replace. *)
Fixpoint replayed (session : Session.Session) (requests : list (RequestCall Enr))
    : M (Session.Session * list (MessageNonce * Packet Enr)) :=
  match requests with
  | [] => run_ret (session, [])
  | request_call :: requests =>
      '(session, packet) ← session_encrypt session (RequestCall.encode request_call);
      '(session, packets) ← replayed session requests;
      run_ret (session, match packet with
                        | Ok new_packet => (call_nonce request_call, new_packet) :: packets
                        | Err _ => packets
                        end)
  end.

Definition replay_active_requests addr (message_nonce : option MessageNonce) : M unit :=
  session ← sessions_get_mut addr;
  match session with
  | None => lift (debug_unreachable (debug_assertions env))
  | Some session =>
      h ← self;
      let requests := filter (fun req => Some (call_nonce req) <> message_nonce)
                        (default [] (ActiveRequests.get (active_requests h) addr)) in
      '(session, packets) ← replayed session requests;
      _ ← sessions_write addr session;
      for_each packets (fun '(old_nonce, new_packet) =>
        t ← take (now env);
        h ← self;
        a ← lift (ActiveRequests.update_packet (debug_assertions env) (active_requests h) t old_nonce new_packet);
        _ ← modify (with_active a);
        send addr new_packet)
  end.

Definition new_session addr (session : Session.Session) (message_nonce : option MessageNonce) : M unit :=
  current_session ← sessions_get_mut addr;
  match current_session with
  | Some current_session =>
      _ ← sessions_write addr (Session.update current_session session);
      replay_active_requests addr message_nonce
  | None =>
      _ ← sessions_insert addr session;
      _ ← store_active_sessions;
      send_pending_requests addr
  end.

(** ** Inbound packets *)

(** The local record, if the remote asks with an older sequence number. *)
Definition get_updated_enr (enr_seq : Z) : M (option Enr) :=
  enr ← take (local_enr env);
  if decide (enr_seq < NodeInfo.enr_seq enr)%Z
  then enr ← take (local_enr env); run_ret (Some enr)
  else run_ret None.

(** [handle_challenge] once the request the challenge refers to is found. *)
Definition answer_challenge (request_call : RequestCall Enr) (enr_seq : Z) (challenge_data : vec byte 63) : M unit :=
  if handshake_sent request_call then fail_request request_call InvalidRemotePacket true
  else
    updated_enr ← get_updated_enr enr_seq;
    ephem_sk ← take (random_key env);
    nonce ← take (random_message_nonce env);
    iv ← take (random_iv env);
    h ← self;
    match Session.encrypt_with_header ephem_sk nonce iv (contact request_call) (key h) updated_enr (node_id h)
            challenge_data (RequestCall.encode request_call) with
    | Err _ => fail_request request_call InvalidRemotePacket true
    | Ok (auth_packet, session) =>
        let addr := node_address (contact request_call) in
        let auth_message_nonce := message_nonce (header auth_packet) in
        match contact_enr (contact request_call) with
        | Some enr =>
            let connection_direction := if initiating_session request_call then Outgoing else Incoming in
            let request_call := RequestCall.update_packet request_call auth_packet in
            let request_call := set_handshake_sent request_call in
            let request_call := set_initiating_session request_call false in
            _ ← active_insert (node_address (contact request_call)) request_call;
            _ ← send addr auth_packet;
            _ ← service_send (OutEstablished enr (socket_addr addr) connection_direction);
            new_session addr session (Some auth_message_nonce)
        | None =>
            let contact := contact request_call in
            let request_call := RequestCall.update_packet request_call auth_packet in
            let request_call := set_handshake_sent request_call in
            _ ← active_insert (node_address (RequestCall.contact request_call)) request_call;
            _ ← send addr auth_packet;
            id ← take (random_request_id env);
            let request := Rpc.FindNode [0%Z] in
            let session := Session.mkSession (Session.keys session) (Session.old_keys session) (Some id)
                             (Session.counter session) in
            _ ← send_request contact (Internal id) request;
            new_session addr session (Some auth_message_nonce)
        end
    end.

Definition handle_challenge (src_address : SocketAddr) (request_nonce : MessageNonce) (enr_seq : Z)
    (challenge_data : vec byte 63) : M unit :=
  h ← self;
  '(a, found) ← lift (remove_by_nonce (debug_assertions env) (active_requests h) request_nonce);
  _ ← modify (with_active a);
  match found with
  | None => run_ret ()
  | Some (addr, request_call) =>
      if decide (socket_addr addr <> src_address) then active_insert addr request_call
      else if decide (call_nonce request_call <> request_nonce) then run_ret ()
      else answer_challenge request_call enr_seq challenge_data
  end.

Definition verify_enr (enr : Enr) addr : bool :=
  bool_decide (enr_node_id enr = NodeInfo.node_id addr) &&
  match socket_addr addr with
  | SockV4 a => match enr_udp4_socket enr with Some advertized => bool_decide (a = advertized) | None => true end
  | SockV6 a => match enr_udp6_socket enr with Some advertized => bool_decide (a = advertized) | None => true end
  end.

(** The request is put back if more responses are to come. *)
Definition handle_response addr (response : Rpc.Response Enr) : M unit :=
  h ← self;
  let '(a, found) := remove_request (active_requests h) addr (Rpc.resp_id response) in
  _ ← modify (with_active a);
  match found with
  | None => run_ret ()
  | Some request_call =>
      let finish : M unit :=
        _ ← remove_expected_response (socket_addr addr);
        _ ← service_send (OutResponse addr response);
        run_ret () in
      let add_back (remaining_responses : option Z) : M unit :=
        _ ← active_insert addr (set_remaining_responses request_call remaining_responses);
        _ ← service_send (OutResponse addr response);
        run_ret () in
      match Rpc.resp_body response with
      | Rpc.Nodes total _ =>
          if decide (1 < total)%Z then
            match remaining_responses request_call with
            | Some remaining =>
                remaining ← lift (arith (debug_assertions env) (2 ^ 64) (remaining - 1));
                if decide (remaining <> 0)%Z then add_back (Some remaining) else finish
            | None => add_back (Some (total - 1)%Z)
            end
          else finish
      | _ => finish
      end
  end.

(** The response to the request of a record that a session awaits. *)
Definition handle_enr_response addr (body : Rpc.ResponseBody Enr) : M unit :=
  let enr := match body with Rpc.Nodes _ nodes => last nodes | _ => None end in
  match enr with
  | Some enr =>
      if verify_enr enr addr
      then _ ← service_send (OutEstablished enr (socket_addr addr) Outgoing); run_ret ()
      else fail_session addr InvalidRemoteEnr true
  | None => fail_session addr InvalidRemoteEnr true
  end.

Definition handle_message addr (message_nonce : MessageNonce) (message authenticated_data : list byte) : M unit :=
  session ← sessions_get_mut addr;
  match session with
  | Some session =>
      let '(session, decrypted) := Session.decrypt_message session message_nonce message authenticated_data in
      _ ← sessions_write addr session;
      match decrypted with
      | Err _ =>
          _ ← fail_session addr InvalidRemotePacket true;
          h ← self;
          match dm_get (active_challenges h) addr with
          | None => _ ← service_send (OutWhoAreYou (mkWhoAreYouRef addr message_nonce)); run_ret ()
          | Some _ => run_ret ()
          end
      | Ok m =>
          match Rpc.decode (E := Enr) m with
          | Err _ => run_ret ()
          | Ok (Rpc.MRequest request) => _ ← service_send (OutRequest addr request); run_ret ()
          | Ok (Rpc.MResponse response) =>
              if decide (Session.awaiting_enr session = Some (Rpc.resp_id response)) then
                _ ← sessions_write addr (Session.mkSession (Session.keys session) (Session.old_keys session) None
                                           (Session.counter session));
                handle_enr_response addr (Rpc.resp_body response)
              else handle_response addr response
          end
      end
  | None => _ ← service_send (OutWhoAreYou (mkWhoAreYouRef addr message_nonce)); run_ret ()
  end.

(** A PING is answered with a session of its own when the record does not match. *)
Definition one_time_ping addr (session : Session.Session) (message_nonce : MessageNonce)
    (message authenticated_data : list byte) : M unit :=
  let '(session, decrypted) := Session.decrypt_message session message_nonce message authenticated_data in
  match decrypted with
  | Err _ => run_ret ()
  | Ok m =>
      match Rpc.decode (E := Enr) m with
      | Ok (Rpc.MRequest request) =>
          if decide (Rpc.request_msg_type request = 1)%Z then
            t ← take (now env);
            _ ← modify (fun h => with_one_time_sessions
                  (LruTimeCache.insert (one_time_sessions h) t addr (Rpc.req_id request, session)) h);
            ok ← service_send (OutRequest addr request);
            if (ok : bool) then run_ret ()
            else modify (fun h => with_one_time_sessions (LruTimeCache.remove (one_time_sessions h) addr).1 h)
          else run_ret ()
      | _ => run_ret ()
      end
  end.

Definition handle_auth_message addr (message_nonce : MessageNonce) (id_nonce_sig ephem_pubkey : list byte)
    (enr_record : option Enr) (message authenticated_data : list byte) : M unit :=
  h ← self;
  let '(c, removed) := dm_remove (active_challenges h) addr in
  _ ← modify (with_challenges c);
  match removed with
  | None => run_ret ()
  | Some challenge =>
      match Session.establish_from_challenge (key h) (node_id h) (NodeInfo.node_id addr) challenge id_nonce_sig
              ephem_pubkey enr_record with
      | Ok (session, enr) =>
          _ ← remove_expected_response (socket_addr addr);
          if verify_enr enr addr then
            _ ← service_send (OutEstablished enr (socket_addr addr) Incoming);
            _ ← new_session addr session None;
            handle_message addr message_nonce message authenticated_data
          else
            _ ← fail_session addr InvalidRemoteEnr true;
            one_time_ping addr session message_nonce message authenticated_data
      | Err (Session.InvalidChallengeSignature challenge) =>
          t ← take (now env);
          modify (fun h => with_challenges (dm_insert (active_challenges h) t addr challenge) h)
      | Err _ => fail_session addr InvalidRemotePacket true
      end
  end.

Definition process_inbound_packet (inbound : InboundPacket Enr) : M unit :=
  let nonce := message_nonce (in_header inbound) in
  match kind (in_header inbound) with
  | WhoAreYou _ enr_seq =>
      challenge_data ← lift (unwrap (challenge_data_from (in_authenticated_data inbound)));
      handle_challenge (src_address inbound) nonce enr_seq challenge_data
  | Handshake src_id id_nonce_sig ephem_pubkey enr_record =>
      handle_auth_message (mkNodeAddress (src_address inbound) src_id) nonce id_nonce_sig ephem_pubkey enr_record
        (in_message inbound) (in_authenticated_data inbound)
  | Message src_id =>
      handle_message (mkNodeAddress (src_address inbound) src_id) nonce (in_message inbound)
        (in_authenticated_data inbound)
  end.

(** ** The loop of [start] *)

Inductive Event :=
  | EvService (handler_request : HandlerIn Enr)
  | EvPacket (inbound_packet : InboundPacket Enr)
  | EvPollRequests
  | EvPollChallenges
  | EvBannedNodesCheck.

Definition unban_nodes_check : M unit :=
  ips ← take (now_ip env);
  nodes ← take (now_node env);
  update_bans (fun l => PermitBan.unban_nodes_check l ips nodes).

Definition handle_service (i : HandlerIn Enr) : M unit :=
  match i with
  | InRequest contact request =>
      r ← send_request contact (External (Rpc.req_id request)) (Rpc.req_body request);
      match r with
      | Err request_error => _ ← service_send (OutRequestFailed (Rpc.req_id request) request_error); run_ret ()
      | Ok _ => run_ret ()
      end
  | InResponse dst response => send_response dst response
  | InWhoAreYou wru_ref enr => send_challenge wru_ref enr
  end.

(** A branch of [select!] whose pattern does not match has no effect beyond the poll. *)
Definition step (e : Event) : M unit :=
  match e with
  | EvService i => handle_service i
  | EvPacket p => process_inbound_packet p
  | EvPollRequests =>
      t ← take (now env);
      h ← self;
      let '(a, polled) := poll_next (active_requests h) t in
      _ ← modify (with_active a);
      match polled with
      | Ready (Some (Ok (addr, active_request))) => handle_request_timeout addr active_request
      | _ => run_ret ()
      end
  | EvPollChallenges =>
      t ← take (now env);
      h ← self;
      let '(c, polled) := dm_poll_next (active_challenges h) t in
      _ ← modify (with_challenges c);
      match polled with
      | Ready (Some (Ok (addr, _))) => send_pending_requests addr
      | _ => run_ret ()
      end
  | EvBannedNodesCheck => unban_nodes_check
  end.

Definition start (events : list Event) : M unit := for_each events step.

(** The handler [spawn] builds. *)
Definition new (request_retries : Z) (node_id : NodeId) (key : CombinedKey) (listen_config : ListenConfig.ListenConfig)
    (request_timeout session_timeout session_cache_capacity : Z) : HS :=
  mkHandler request_retries node_id key (ListenConfig.listen_sockets listen_config)
    (ActiveRequests.new request_timeout) ∅ ∅ (dm_new request_timeout)
    (LruTimeCache.new session_timeout (Some session_cache_capacity))
    (LruTimeCache.new (from_secs ONE_TIME_SESSION_TIMEOUT) (Some ONE_TIME_SESSION_CACHE_CAPACITY)).

Definition initial (h : HS) : W := mkWorld h [] 0 0 PermitBan.default.
End Handler.
Arguments Event Enr {_}.
End Handler.
