(* ===== verification/HandlerLogic.v ===== *)
(** * Reasoning about the handler's operations

    [sane]: an operation of the release build does not panic and only takes
    values from the environment.  [triple]: a partial-correctness triple, for
    runs that take fewer than [2 ^ 64] values.  [frames]: an operation that
    leaves requests, challenges and expected responses alone. *)

From stdpp Require Import strings.
From S2P Require Import Prelude Bytes Key Rpc Maps LruTimeCache Packet PacketProofs NodeInfo Crypto.
From S2P Require Import ActiveRequests Session Bucket Globals Handler.
Import Packet NodeInfo RequestCall ActiveRequests Handler.

Create HintDb handler discriminated.

(** ** Sums over maps *)

Section Sum.
Context {K A : Type} `{Countable K}.
Implicit Types (f : K -> A -> nat) (m : gmap K A).

Definition msum f m : nat := map_fold (fun k x n => f k x + n) 0 m.

(** The contribution of one key. *)
Definition at_key f m k : nat := match m !! k with Some x => f k x | None => 0 end.

Lemma msum_empty f : msum f ∅ = 0.
Proof. apply map_fold_empty. Qed.

Lemma msum_delete f m k : msum f (delete k m) + at_key f m k = msum f m.
Proof.
  unfold at_key. destruct (m !! k) as [x|] eqn:E.
  - unfold msum. rewrite (map_fold_delete_L _ 0 k x m); [lia|intros; lia|done].
  - rewrite delete_id by done. lia.
Qed.

Lemma msum_insert f m k x : msum f (<[k:=x]> m) + at_key f m k = f k x + msum f m.
Proof.
  rewrite <-(msum_delete f m k), <-insert_delete_eq. unfold msum at 1.
  rewrite map_fold_insert_L; [|intros; lia|apply lookup_delete_eq]. fold (msum f (delete k m)). lia.
Qed.
End Sum.

(** ** Runs *)

Definition B : nat := Z.to_nat (2 ^ 64).

Lemma B_spec n : n < B <-> (Z.of_nat n < 2 ^ 64)%Z.
Proof. unfold B. lia. Qed.

#[global] Opaque B.

Section Logic.
Context {Enr D C SM OM : Type} `{!K256}.
Notation W := (World Enr D C SM OM).
Notation M := (Run W).

Definition sane {A} (m : M A) : Prop := forall w, exists w' a, m w = Ret (w', a) /\ ticks w <= ticks w'.

Definition triple {A} (P : W -> Prop) (m : M A) (Q : A -> W -> Prop) : Prop :=
  forall w w' a, P w -> m w = Ret (w', a) -> ticks w' < B -> Q a w'.

Lemma sane_ret {A} (a : A) : sane (run_ret a).
Proof. intros w. by eexists _, _. Qed.

Lemma sane_bind {A A'} (m : M A) (k : A -> M A') : sane m -> (forall a, sane (k a)) -> sane (m ≫= k).
Proof.
  intros Hm Hk w. destruct (Hm w) as (w1 & a & E & Ht). destruct (Hk a w1) as (w2 & b & E2 & Ht2).
  exists w2, b. split; [|lia]. unfold mbind, run_bind. by rewrite E.
Qed.

Lemma sane_for_each {A} (l : list A) (f : A -> M unit) : (forall a, sane (f a)) -> sane (for_each l f).
Proof. intros Hf. induction l as [|a l IH]; simpl; [apply sane_ret|]. by apply sane_bind. Qed.

Lemma sane_lift {A} (m : outcome A) : is_ret m -> sane (Handler.lift (C := C) (SM := SM) (OM := OM) (D := D) (Enr := Enr) m).
Proof. intros [a ->] w. by eexists _, _. Qed.

Lemma triple_ret {A} (a : A) (P : W -> Prop) (Q : A -> W -> Prop) : (forall w, P w -> Q a w) -> triple P (run_ret a) Q.
Proof. intros HQ w w' a' HP [= <- <-] _. by apply HQ. Qed.

Lemma triple_bind {A A'} (m : M A) (k : A -> M A') P Q R :
  triple P m Q -> (forall a, triple (Q a) (k a) R) -> (forall a, sane (k a)) -> triple P (m ≫= k) R.
Proof.
  intros Hm Hk Hs w w' b HP. unfold mbind, run_bind. destruct (m w) as [[w1 a]|] eqn:E; [|done].
  intros E2 Hb. destruct (Hs a w1) as (w2 & b' & E3 & Ht). rewrite E2 in E3. injection E3 as <- <-.
  eapply Hk; [|done|done]. eapply Hm; [done..|lia].
Qed.

Lemma triple_conseq {A} (m : M A) (P P' : W -> Prop) (Q Q' : A -> W -> Prop) :
  triple P' m Q' -> (forall w, P w -> P' w) -> (forall a w, Q' a w -> Q a w) -> triple P m Q.
Proof. intros Hm HP HQ w w' a Hw E Hb. eapply HQ, Hm; eauto. Qed.

(** The value of the state. *)
Lemma triple_self {A} (k : Handler Enr D C SM OM -> M A) P Q :
  (forall h, triple (fun w => P w /\ handler w = h) (k h) Q) -> triple P (self ≫= k) Q.
Proof. intros Hk w w' a HP E Hb. by apply (Hk (handler w) w w' a). Qed.

Lemma triple_pure {A} (m : M A) (φ : Prop) (P : W -> Prop) Q :
  (φ -> triple P m Q) -> triple (fun w => φ /\ P w) m Q.
Proof. intros Hm w w' a [Hφ HP]. by apply Hm. Qed.

(** A loop whose invariant speaks of what is left to do. *)
Lemma triple_for_each {A} (l : list A) (f : A -> M unit) (I : list A -> W -> Prop) :
  (forall a l', triple (I (a :: l')) (f a) (fun _ => I l')) -> (forall a, sane (f a)) ->
  triple (I l) (for_each l f) (fun _ => I []).
Proof.
  intros Hf Hs. induction l as [|a l IH]; simpl; [by apply triple_ret|].
  eapply triple_bind; [apply Hf|intros ?; apply IH|intros ?; by apply sane_for_each].
Qed.
End Logic.
#[export] Hint Resolve sane_ret sane_bind sane_for_each : handler.

(** ** The release build does not panic *)

Section ReleaseRequests.
Context {Enr D : Type} `{!K256} `{!HashMapDelay D MessageNonce NodeAddress}.
Implicit Types (a : ActiveRequests Enr D).

Lemma encrypt_message_release `{!Primitives} `{!EnrCodec Enr} `{!ProtocolIdentity} s rn iv src m :
  is_ret (Session.encrypt_message (Enr := Enr) false s rn iv src m).
Proof. unfold Session.encrypt_message, Session.increment. destruct (arith_release (2 ^ 32) (Session.counter s + 1)) as [n ->]. by eexists. Qed.

Lemma increment_retries_release (c : RequestCall Enr) : is_ret (increment_retries false c).
Proof. unfold increment_retries. destruct (arith_release (2 ^ 8) (retries c + 1)) as [x ->]. by eexists. Qed.

Lemma remove_nonces_release (l : list (RequestCall Enr)) (d : D) : is_ret (remove_nonces false d l).
Proof.
  revert d. induction l as [|c l IH]; intros d; simpl; [by eexists|].
  destruct (dm_remove d (call_nonce c)) as [d' [|]]; simpl; apply IH.
Qed.

Lemma remove_requests_release a addr : is_ret (remove_requests false a addr).
Proof.
  unfold remove_requests. destruct (_ !! addr) as [l|]; [|by eexists]. case_decide; [by eexists|].
  destruct (remove_nonces_release l (active_requests_nonce_mapping a)) as [d ->]. by eexists.
Qed.

Lemma remove_by_nonce_release a k : is_ret (remove_by_nonce false a k).
Proof.
  unfold remove_by_nonce. destruct (dm_remove _ k) as [d [addr|]]; [|by eexists].
  destruct (_ !! addr) as [l|]; [|by eexists]. destruct (position_nonce k l); by eexists.
Qed.

Lemma update_packet_release a t k (p : Packet Enr) : is_ret (ActiveRequests.update_packet false a t k p).
Proof.
  unfold ActiveRequests.update_packet. destruct (dm_remove _ k) as [d [addr|]]; [|by eexists].
  destruct (_ !! addr) as [l|]; [|by eexists]. destruct (position_nonce k l); by eexists.
Qed.
End ReleaseRequests.

Lemma debug_unreachable_release : is_ret (debug_unreachable false).
Proof. by eexists. Qed.

#[export] Hint Resolve arith_release increment_retries_release encrypt_message_release remove_requests_release remove_by_nonce_release
  update_packet_release debug_unreachable_release : handler.

Lemma challenge_data_from_length l : length l = 63 -> is_Some (challenge_data_from l).
Proof. intros Hl. unfold challenge_data_from, array_from. destruct (decide _); [by eexists|done]. Qed.

(** The authenticated data of a WHOAREYOU packet have the size of a challenge. *)
Lemma whoareyou_challenge_data {Enr} `{!EnrCodec Enr} `{!ProtocolIdentity} (p : Packet Enr) :
  is_whoareyou p = true -> is_Some (challenge_data_from (authenticated_data p)).
Proof.
  unfold is_whoareyou. destruct (kind (header p)) as [|id_nonce seq|] eqn:E; simpl; [done| |done]. intros _.
  apply challenge_data_from_length. unfold authenticated_data, header_encode. rewrite E. simpl.
  repeat rewrite ?length_app, ?length_cons, ?length_vec_to_list, ?length_to_be_bytes. done.
Qed.

Lemma whoareyou_unwrap {Enr} `{!EnrCodec Enr} `{!ProtocolIdentity} iv n i seq :
  is_ret (unwrap (challenge_data_from (authenticated_data (new_whoareyou iv n i seq : Packet Enr)))).
Proof. destruct (whoareyou_challenge_data (new_whoareyou iv n i seq : Packet Enr)) as [cd ->]; [done|by eexists]. Qed.
#[export] Hint Resolve whoareyou_unwrap : handler.

(** What [Packet::decode] promises of the data of an inbound packet. *)
Definition inbound_ok {Enr} (p : InboundPacket Enr) : Prop :=
  match kind (in_header p) with
  | WhoAreYou _ _ => length (in_authenticated_data p) = 63
  | _ => True
  end.

Section Sane.
Context {Enr D C SM OM : Type} `{!K256} `{!EnrCrate Enr} `{!Primitives} `{!EnrCodec Enr} `{!ProtocolIdentity}.
Context `{!Rlp Enr} `{!HashMapDelay D MessageNonce NodeAddress} `{!HashMapDelay C NodeAddress (Challenge Enr)}.
Context `{!LinkedHashMap SM NodeAddress (Session.Session * Z)}.
Context `{!LinkedHashMap OM NodeAddress ((Rpc.RequestId * Session.Session) * Z)}.
Context `{!LinkedHashMapLaws OM NodeAddress ((Rpc.RequestId * Session.Session) * Z)}.
Variable env : Env Enr.
Hypothesis release : debug_assertions env = false.
Notation W := (World Enr D C SM OM).
Notation M := (Run W).

Lemma sane_take {A} (f : nat -> A) : sane (Handler.take f : M A).
Proof. intros w. eexists _, _. split; [done|]. simpl. lia. Qed.

Lemma sane_self : sane (self : M _).
Proof. intros w. by eexists _, _. Qed.

Lemma sane_modify f : sane (modify f : M unit).
Proof. intros w. by eexists _, _. Qed.

Lemma sane_log s : sane (log s : M unit).
Proof. intros w. by eexists _, _. Qed.

Lemma sane_set_metric n : sane (set_metric n : M unit).
Proof. intros w. by eexists _, _. Qed.

Lemma sane_update_bans f : sane (update_bans f : M unit).
Proof. intros w. by eexists _, _. Qed.

Hint Resolve sane_take sane_self sane_modify sane_log sane_set_metric sane_update_bans : handler.

Ltac sane_tac :=
  rewrite ?release;
  repeat (intros; first
    [ solve [eauto 2 with handler]
    | apply sane_bind
    | apply sane_for_each
    | apply sane_lift; solve [eauto 2 with handler]
    | case_match ]).

Lemma sane_service_send out : sane (service_send env out : M bool).
Proof. unfold service_send. sane_tac. Qed.
Lemma sane_send addr p : sane (send env addr p : M unit).
Proof. unfold send. sane_tac. Qed.
Lemma sane_sessions_get_mut addr : sane (sessions_get_mut env addr : M _).
Proof. unfold sessions_get_mut. sane_tac. Qed.
Lemma sane_sessions_write addr s : sane (sessions_write addr s : M unit).
Proof. unfold sessions_write. sane_tac. Qed.
Lemma sane_sessions_insert addr s : sane (sessions_insert env addr s : M unit).
Proof. unfold sessions_insert. sane_tac. Qed.
Lemma sane_sessions_remove addr : sane (sessions_remove addr : M unit).
Proof. unfold sessions_remove. sane_tac. Qed.
Lemma sane_store_active_sessions : sane (store_active_sessions env : M unit).
Proof. unfold store_active_sessions. sane_tac. Qed.
Lemma sane_session_encrypt s m : sane (session_encrypt env s m : M _).
Proof. unfold session_encrypt. sane_tac. Qed.
Lemma sane_active_insert addr c : sane (active_insert env addr c : M unit).
Proof. unfold active_insert. sane_tac. Qed.
Lemma sane_remove_expected_response a : sane (remove_expected_response a : M unit).
Proof. unfold remove_expected_response. sane_tac. Qed.
Lemma sane_add_expected_response a : sane (add_expected_response env a : M unit).
Proof. unfold add_expected_response. sane_tac. Qed.

Hint Resolve sane_service_send sane_send sane_sessions_get_mut sane_sessions_write sane_sessions_insert
  sane_sessions_remove sane_store_active_sessions sane_session_encrypt sane_active_insert
  sane_remove_expected_response sane_add_expected_response : handler.

Lemma sane_report_failure id e : sane (report_failure env id e : M unit).
Proof. unfold report_failure. sane_tac. Qed.
Hint Resolve sane_report_failure : handler.
Lemma sane_fail_session addr e b : sane (fail_session env addr e b : M unit).
Proof. unfold fail_session. sane_tac. Qed.
Hint Resolve sane_fail_session : handler.
Lemma sane_fail_request c e b : sane (fail_request env c e b : M unit).
Proof. unfold fail_request. sane_tac. Qed.
Hint Resolve sane_fail_request : handler.
Lemma sane_handle_request_timeout addr c : sane (handle_request_timeout env addr c : M unit).
Proof. unfold handle_request_timeout. sane_tac. Qed.
Lemma sane_must_queue addr : sane (must_queue env addr : M bool).
Proof. unfold must_queue, is_awaiting_session_to_be_established. sane_tac. Qed.
Lemma sane_request_packet addr id r : sane (request_packet env addr id r : M _).
Proof. unfold request_packet. sane_tac. Qed.
Hint Resolve sane_handle_request_timeout sane_must_queue sane_request_packet : handler.
Lemma sane_send_request c id r : sane (send_request env c id r : M _).
Proof. unfold send_request. sane_tac. Qed.
Hint Resolve sane_send_request : handler.
Lemma sane_send_pending_requests addr : sane (send_pending_requests env addr : M unit).
Proof. unfold send_pending_requests. sane_tac. Qed.
Hint Resolve sane_send_pending_requests : handler.
Lemma sane_replayed s l : sane (replayed env s l : M _).
Proof. revert s. induction l; intros s; cbn [replayed]; sane_tac. Qed.
Hint Resolve sane_replayed : handler.
Lemma sane_replay_active_requests addr n : sane (replay_active_requests env addr n : M unit).
Proof. unfold replay_active_requests. sane_tac. Qed.
Hint Resolve sane_replay_active_requests : handler.
Lemma sane_new_session addr s n : sane (new_session env addr s n : M unit).
Proof. unfold new_session. sane_tac. Qed.
Hint Resolve sane_new_session : handler.
Lemma sane_get_updated_enr seq : sane (get_updated_enr env seq : M _).
Proof. unfold get_updated_enr. sane_tac. Qed.
Hint Resolve sane_get_updated_enr : handler.
Lemma sane_answer_challenge c seq cd : sane (answer_challenge env c seq cd : M unit).
Proof. unfold answer_challenge. sane_tac. Qed.
Hint Resolve sane_answer_challenge : handler.
Lemma sane_handle_challenge a n seq cd : sane (handle_challenge env a n seq cd : M unit).
Proof. unfold handle_challenge. sane_tac. Qed.
Lemma sane_handle_response addr r : sane (handle_response env addr r : M unit).
Proof. unfold handle_response. sane_tac. Qed.
Lemma sane_handle_enr_response addr b : sane (handle_enr_response env addr b : M unit).
Proof. unfold handle_enr_response. sane_tac. Qed.
Hint Resolve sane_handle_challenge sane_handle_response sane_handle_enr_response : handler.
Lemma sane_handle_message addr n m ad : sane (handle_message env addr n m ad : M unit).
Proof. unfold handle_message. sane_tac. Qed.
Lemma sane_one_time_ping addr s n m ad : sane (one_time_ping env addr s n m ad : M unit).
Proof. unfold one_time_ping. sane_tac. Qed.
Hint Resolve sane_handle_message sane_one_time_ping : handler.
Lemma sane_handle_auth_message addr n sig pk r m ad : sane (handle_auth_message env addr n sig pk r m ad : M unit).
Proof. unfold handle_auth_message. sane_tac. Qed.
Hint Resolve sane_handle_auth_message : handler.

(** A one-time session that [peek] sees is there to be removed. *)
Lemma peek_remove (c : LruTimeCache.LruTimeCache OM) t addr x :
  LruTimeCache.peek c t addr = Some x -> is_Some (LruTimeCache.remove c addr).2.
Proof.
  unfold LruTimeCache.peek, LruTimeCache.remove. rewrite lm_get_iter.
  destruct (assoc addr _) as [[y t']|] eqn:E; [|done]. intros _.
  pose proof (lm_removed (LruTimeCache.map c) addr) as Hr. rewrite E in Hr.
  destruct (lm_remove _ addr) as [m r]. simpl in *. subst r. by eexists.
Qed.

Lemma sane_remove_one_time_session addr id : sane (remove_one_time_session env addr id : M _).
Proof.
  unfold remove_one_time_session. apply sane_bind; [sane_tac|intros t]. apply sane_bind; [sane_tac|intros h].
  destruct (LruTimeCache.peek _ t addr) as [[id' s]|] eqn:E; [|sane_tac]. case_decide; [|sane_tac].
  apply peek_remove in E. destruct (LruTimeCache.remove _ addr) as [c r]. simpl in E. destruct E as [x ->].
  apply sane_bind; [sane_tac|intros _]. apply sane_bind; [apply sane_lift; by eexists|sane_tac].
Qed.
Hint Resolve sane_remove_one_time_session : handler.

Lemma sane_send_response addr r : sane (send_response env addr r : M unit).
Proof. unfold send_response. sane_tac. Qed.

Lemma sane_unwrap {A} (o : option A) : is_Some o -> sane (Handler.lift (unwrap o) : M A).
Proof. intros [a ->]. apply sane_lift. by eexists. Qed.

Lemma sane_send_challenge r e : sane (send_challenge env r e : M unit).
Proof. destruct r as [addr n]. unfold send_challenge. sane_tac. Qed.
Hint Resolve sane_send_response sane_send_challenge : handler.

Lemma sane_process_inbound_packet p : inbound_ok p -> sane (process_inbound_packet env p : M unit).
Proof.
  unfold inbound_ok, process_inbound_packet. destruct (kind (in_header p)); [sane_tac| |sane_tac]. intros Hl.
  apply sane_bind; [by apply sane_unwrap, challenge_data_from_length|sane_tac].
Qed.

(** The events whose packets come from the decoder. *)
Definition event_ok (e : Event Enr) : Prop := match e with EvPacket p => inbound_ok p | _ => True end.

Lemma sane_step e : event_ok e -> sane (step env e : M unit).
Proof.
  destruct e; simpl; [|apply sane_process_inbound_packet|..]; intros _; unfold handle_service, unban_nodes_check; sane_tac.
Qed.

Lemma sane_start l : Forall event_ok l -> sane (start env l : M unit).
Proof.
  unfold start. induction 1 as [|e l He _ IH]; simpl; [apply sane_ret|].
  apply sane_bind; [by apply sane_step|done].
Qed.
End Sane.
#[export] Hint Resolve sane_take sane_self sane_modify sane_log sane_set_metric sane_update_bans sane_service_send
  sane_send sane_sessions_get_mut sane_sessions_write sane_sessions_insert sane_sessions_remove
  sane_store_active_sessions sane_session_encrypt sane_active_insert sane_remove_expected_response
  sane_add_expected_response sane_report_failure sane_fail_session sane_fail_request sane_handle_request_timeout
  sane_must_queue sane_request_packet sane_send_request sane_send_pending_requests sane_replayed
  sane_replay_active_requests sane_new_session sane_get_updated_enr sane_answer_challenge sane_handle_challenge
  sane_handle_response sane_handle_enr_response sane_handle_message sane_one_time_ping sane_handle_auth_message
  sane_remove_one_time_session sane_send_response sane_send_challenge : handler.

(** Decides [sane] of a composition; [release] is the hypothesis on the build. *)
Ltac sane_tac release :=
  rewrite ?release;
  repeat (intros; first
    [ solve [eauto 3 with handler]
    | apply sane_bind
    | apply sane_for_each
    | apply sane_lift; rewrite ?release; solve [eauto 2 with handler]
    | case_match ]).
