(* ===== verification/HandlerAccount.v ===== *)
(** * Accounting for the handler's requests

    Weights of the stored requests, and what each operation of the tables does
    to them; the invariant of the handler relates the requests that are stored
    to those that were submitted, and to the responses the packet filter
    expects. *)

From stdpp Require Import strings.
From S2P Require Import Prelude Bytes Key Rpc Maps LruTimeCache Packet NodeInfo Crypto.
From S2P Require Import ActiveRequests Session Bucket Globals Handler HandlerLogic.
Import Packet NodeInfo RequestCall ActiveRequests Handler.

(** ** Weights of tables of lists *)

Section Weight.
Context {X : Type}.
Implicit Types (g : NodeAddress -> X -> nat) (m : gmap NodeAddress (list X)) (l : list X).

Definition total_of g (addr : NodeAddress) l : nat := sum_list_with (g addr) l.
Definition weight g m : nat := msum (total_of g) m.

Definition stored m (addr : NodeAddress) (x : X) : Prop := exists l, m !! addr = Some l /\ x ∈ l.

(** [m'] is [m] without one [x] at [addr]. *)
Definition taken m m' addr x : Prop :=
  (forall g, weight g m' + g addr x = weight g m) /\ stored m addr x /\
  (forall a y, stored m' a y -> stored m a y).

Definition same m m' : Prop :=
  (forall g, weight g m' = weight g m) /\ (forall a y, stored m' a y -> stored m a y).

Lemma same_refl m : same m m.
Proof. done. Qed.

Lemma weight_empty g : weight g ∅ = 0.
Proof. apply msum_empty. Qed.

Lemma total_default g m addr : total_of g addr (default [] (m !! addr)) = at_key (total_of g) m addr.
Proof. unfold at_key. by destruct (m !! addr). Qed.

Lemma weight_push g m addr x : weight g (<[addr := default [] (m !! addr) ++ [x]]> m) = weight g m + g addr x.
Proof.
  pose proof (msum_insert (total_of g) m addr (default [] (m !! addr) ++ [x])) as E.
  rewrite <-total_default in E. unfold weight. unfold total_of in E at 3.
  rewrite sum_list_with_app in E. simpl in E. unfold total_of in E at 2. lia.
Qed.

Lemma weight_delete g m addr : weight g (delete addr m) + total_of g addr (default [] (m !! addr)) = weight g m.
Proof. rewrite total_default. apply msum_delete. Qed.

Lemma weight_set g m addr l l' :
  m !! addr = Some l -> weight g (<[addr := l']> m) + total_of g addr l = total_of g addr l' + weight g m.
Proof.
  intros Hl. pose proof (msum_insert (total_of g) m addr l') as E. unfold at_key in E. rewrite Hl in E. exact E.
Qed.

Lemma sum_perm (f : X -> nat) l l' : l ≡ₚ l' -> sum_list_with f l = sum_list_with f l'.
Proof. induction 1; simpl; lia. Qed.

Lemma total_delete g addr l i x : l !! i = Some x -> total_of g addr (delete i l) + g addr x = total_of g addr l.
Proof.
  intros Hi. unfold total_of. rewrite (sum_perm _ l (x :: delete i l)) by (by apply delete_Permutation). simpl. lia.
Qed.

Lemma total_alter g addr (f : X -> X) l i : (forall x, g addr (f x) = g addr x) -> total_of g addr (alter f i l) = total_of g addr l.
Proof.
  intros Hf. unfold total_of. revert i. induction l as [|x l IH]; intros [|i]; simpl; [done|done|by rewrite Hf|].
  f_equal. apply IH.
Qed.

Lemma stored_push m addr x a y : stored (<[addr := default [] (m !! addr) ++ [x]]> m) a y ->
  stored m a y \/ a = addr /\ y = x.
Proof.
  intros (l & [[<- <-]|[Hne Hl]]%lookup_insert_Some & Hy); [|left; by exists l].
  apply elem_of_app in Hy as [Hy|Hy].
  - left. destruct (m !! addr) as [l|] eqn:E; simpl in Hy; [by exists l|by apply elem_of_nil in Hy].
  - right. by apply list_elem_of_singleton in Hy as ->.
Qed.

Lemma stored_delete_key m addr a y : stored (delete addr m) a y -> stored m a y.
Proof. intros (l & [_ Hl]%lookup_delete_Some & Hy). by exists l. Qed.

Lemma elem_of_delete_list i l (y : X) : y ∈ delete i l -> y ∈ l.
Proof. intros Hy. eapply elem_of_submseteq; [exact Hy|]. apply sublist_submseteq, sublist_delete. Qed.
End Weight.

(** ** What the operations of the tables take out *)

Section Tables.
Context {Enr D : Type} `{!K256} `{!HashMapDelay D MessageNonce NodeAddress}.
Implicit Types (a : ActiveRequests Enr D) (m : gmap NodeAddress (list (RequestCall Enr))) (c : RequestCall Enr).

Lemma weight_put g m addr l l' :
  m !! addr = Some l -> weight g (put_requests m addr l') + total_of g addr l = total_of g addr l' + weight g m.
Proof.
  intros Hl. unfold put_requests. case_decide as E; [|by apply weight_set].
  subst l'. simpl. pose proof (weight_delete g m addr) as W. rewrite Hl in W. exact W.
Qed.

Lemma stored_put m addr l l' x0 y :
  m !! addr = Some l -> (forall x, x ∈ l' -> x ∈ l) -> stored (put_requests m addr l') x0 y -> stored m x0 y.
Proof.
  intros Hl Hsub. unfold put_requests. case_decide; [apply stored_delete_key|].
  intros (l0 & [[<- <-]|[_ Hl0]]%lookup_insert_Some & Hy); [exists l; eauto|by exists l0].
Qed.

Lemma put_taken m addr l i c :
  m !! addr = Some l -> l !! i = Some c -> taken m (put_requests m addr (delete i l)) addr c.
Proof.
  intros Hl Hi. split_and!.
  - intros g. pose proof (weight_put g m addr l (delete i l) Hl). pose proof (total_delete g addr l i c Hi). lia.
  - exists l. split; [done|]. by eapply list_elem_of_lookup_2.
  - intros a y. apply (stored_put m addr l); [done|]. apply elem_of_delete_list.
Qed.

Lemma put_same m addr l : m !! addr = Some l -> same m (put_requests m addr l).
Proof.
  intros Hl. split.
  - intros g. pose proof (weight_put g m addr l l Hl). lia.
  - intros a y. by apply (stored_put m addr l).
Qed.

Lemma remove_by_nonce_taken debug a k a' r :
  remove_by_nonce debug a k = Ret (a', r) ->
  match r with
  | Some (addr, c) => taken (active_requests_mapping a) (active_requests_mapping a') addr c /\ call_nonce c = k
  | None => same (active_requests_mapping a) (active_requests_mapping a')
  end.
Proof.
  unfold remove_by_nonce. destruct (dm_remove _ k) as [d [addr|]]; [|intros [= <- <-]; apply same_refl].
  destruct (_ !! addr) as [l|] eqn:Hl; [|destruct debug; [done|]; intros [= <- <-]; apply same_refl].
  unfold position_nonce. destruct (list_find _ l) as [[i c]|] eqn:E; simpl.
  - apply list_find_Some in E as (Hi & Hk & _). rewrite Hi. intros [= <- <-]. split; [|done]. by apply put_taken.
  - intros [= <- <-]. by apply put_same.
Qed.

Lemma remove_request_taken a addr id a' r :
  remove_request a addr id = (a', r) ->
  match r with
  | Some c => taken (active_requests_mapping a) (active_requests_mapping a') addr c /\ to_request_id (request_id c) = id
  | None => same (active_requests_mapping a) (active_requests_mapping a')
  end.
Proof.
  unfold remove_request. destruct (_ !! addr) as [l|] eqn:Hl; [|intros [= <- <-]; apply same_refl].
  unfold position_id. destruct (list_find _ l) as [[i c]|] eqn:E; simpl; [|intros [= <- <-]; apply same_refl].
  apply list_find_Some in E as (Hi & Hk & _). rewrite Hi. intros [= <- <-]. split; [|done]. by apply put_taken.
Qed.

Lemma poll_next_taken a t a' r :
  poll_next a t = (a', r) ->
  match r with
  | Ready (Some (Ok (addr, c))) => taken (active_requests_mapping a) (active_requests_mapping a') addr c
  | _ => same (active_requests_mapping a) (active_requests_mapping a')
  end.
Proof.
  unfold poll_next. destruct (dm_poll_next _ t) as [d [[[[k addr]|]|]|]]; simpl;
    try (intros [= <- <-]; apply same_refl).
  destruct (_ !! addr) as [l|] eqn:Hl; [|intros [= <- <-]; apply same_refl].
  unfold position_nonce. destruct (list_find _ l) as [[i c]|] eqn:E; simpl; [|intros [= <- <-]; apply same_refl].
  apply list_find_Some in E as (Hi & Hk & _). rewrite Hi. intros [= <- <-]. by apply put_taken.
Qed.

Lemma remove_requests_taken debug a addr a' r :
  remove_requests debug a addr = Ret (a', r) ->
  (forall g, weight g (active_requests_mapping a') + total_of g addr (default [] r) =
             weight g (active_requests_mapping a)) /\
  (forall x y, stored (active_requests_mapping a') x y -> stored (active_requests_mapping a) x y) /\
  (forall c, c ∈ default [] r -> stored (active_requests_mapping a) addr c).
Proof.
  unfold remove_requests. destruct (_ !! addr) as [l|] eqn:Hl.
  - case_decide as E.
    + destruct debug; [done|]. intros [= <- <-]. split_and!; [|by apply stored_delete_key|by intros ? ?%elem_of_nil].
      intros g. pose proof (weight_delete g (active_requests_mapping a) addr) as W. rewrite Hl, E in W. exact W.
    + destruct (remove_nonces _ _ _) as [d|]; [|done]. intros [= <- <-].
      split_and!; [|by apply stored_delete_key|intros c Hc; by exists l].
      intros g. pose proof (weight_delete g (active_requests_mapping a) addr) as W. rewrite Hl in W. exact W.
  - intros [= <- <-]. split_and!; [|done|by intros ? ?%elem_of_nil]. intros g. unfold total_of. simpl. lia.
Qed.

Lemma update_packet_same debug a t k (p : Packet Enr) a' :
  ActiveRequests.update_packet debug a t k p = Ret a' ->
  (forall g, (forall x c, g x (RequestCall.update_packet c p) = g x c) ->
     weight g (active_requests_mapping a') = weight g (active_requests_mapping a)) /\
  (forall x c', stored (active_requests_mapping a') x c' ->
     exists c, stored (active_requests_mapping a) x c /\ contact c' = contact c).
Proof.
  unfold ActiveRequests.update_packet.
  assert (forall d, (forall g, weight g (active_requests_mapping (mkActive (active_requests_mapping a) d : ActiveRequests Enr D)) =
    weight g (active_requests_mapping a)) /\ (forall x c', stored (active_requests_mapping a) x c' ->
     exists c, stored (active_requests_mapping a) x c /\ contact c' = contact c)) as Hid by (split; eauto).
  destruct (dm_remove _ k) as [d [addr|]]; [|destruct debug; [done|]; intros [= <-]; split; [intros ??|]; by apply Hid].
  destruct (_ !! addr) as [l|] eqn:Hl; [|destruct debug; [done|]; intros [= <-]; split; [intros ??|]; by apply Hid].
  destruct (position_nonce k l) as [i|]; [|destruct debug; [done|]; intros [= <-]; split; [intros ??|]; by apply Hid].
  intros [= <-]. simpl. split.
  - intros g Hg. pose proof (weight_set g _ addr l (alter (fun c => RequestCall.update_packet c p) i l) Hl) as W.
    rewrite total_alter in W by done. lia.
  - intros x c' (l' & [[<- <-]|[_ Hl']]%lookup_insert_Some & Hc'); [|exists c'; split; [by exists l'|done]].
    apply list_elem_of_lookup in Hc' as [j Hj]. rewrite list_lookup_alter in Hj. case_decide as Hij.
    + destruct (l !! i) as [c|] eqn:Ec; [|done]. injection Hj as <-. exists c. split; [|done].
      exists l. split; [done|]. by eapply list_elem_of_lookup_2.
    + exists c'. split; [|done]. exists l. split; [done|]. by eapply list_elem_of_lookup_2.
Qed.
End Tables.
