(* ===== verification/HandlerInv.v ===== *)
(** * The invariant of the handler

    [Inv b owed slack w]: for every id, the requests that failed, that are
    active and that are pending, plus at most the responses reported, are those
    [owed]; for every socket address, the active requests and challenges plus
    [slack] are at most the expected responses; every request is stored under
    the address of its contact; and the counters are [b] below the number of
    values taken from the environment. *)

From stdpp Require Import strings.
From S2P Require Import Prelude Bytes Key Rpc Maps LruTimeCache Packet NodeInfo Crypto.
From S2P Require Import ActiveRequests Session Bucket Globals Handler HandlerLogic HandlerAccount.
Import Packet NodeInfo RequestCall ActiveRequests Handler.
Local Open Scope Z_scope.

(** ** Counts *)

Definition one_if (P : Prop) `{!Decision P} : nat := if decide P then 1%nat else 0%nat.

(** Whether a request is one from outside with this id. *)
Definition ext (i : HandlerReqId) (id : Rpc.RequestId) : nat :=
  match i with External i => one_if (i = id) | Internal _ => 0%nat end.

(** Whether an address has this socket address. *)
Definition at_socket (s : SocketAddr) (addr : NodeAddress) : nat := one_if (socket_addr addr = s).

Definition failure (id : Rpc.RequestId) {Enr} (x : Sent Enr) : nat :=
  match x with ToService (OutRequestFailed i _) _ => one_if (i = id) | _ => 0%nat end.
Definition response (id : Rpc.RequestId) {Enr} (x : Sent Enr) : nat :=
  match x with ToService (OutResponse _ r) _ => one_if (Rpc.resp_id r = id) | _ => 0%nat end.

Section Inv.
Context {Enr D C SM OM : Type} `{!K256} `{!EnrCrate Enr} `{!HashMapDelay C NodeAddress (Challenge Enr)}.
Notation W := (World Enr D C SM OM).
Implicit Types (w : W) (id : Rpc.RequestId) (s : SocketAddr).

Definition calls w := active_requests_mapping (active_requests (handler w)).
Definition queued w := pending_requests (handler w).
Definition challenges w : gmap NodeAddress (Challenge Enr) := dm_iter (active_challenges (handler w)).
Definition expected w s : Z := default 0 (filter_expected_responses (handler w) !! s).

Definition call_ext id (_ : NodeAddress) (c : RequestCall Enr) : nat := ext (request_id c) id.
Definition pending_ext id (_ : NodeAddress) (p : PendingRequest Enr) : nat := ext (pending_request_id p) id.

Definition failures w id : nat := sum_list_with (failure id) (sent w).
Definition responses w id : nat := sum_list_with (response id) (sent w).

(** The requests from outside with an id that have failed or are still open. *)
Definition open w id : Z :=
  Z.of_nat (failures w id + weight (call_ext id) (calls w) + weight (pending_ext id) (queued w)).

(** What is awaited from a socket address. *)
Definition awaited w s : Z :=
  Z.of_nat (weight (fun addr (_ : RequestCall Enr) => at_socket s addr) (calls w) +
            msum (fun addr _ => at_socket s addr) (challenges w)).

Record Inv (b : Z) (owed : Rpc.RequestId -> Z) (slack : SocketAddr -> Z) w : Prop := mkInv {
  inv_owed id : open w id <= owed id <= open w id + Z.of_nat (responses w id);
  inv_slack s : awaited w s + slack s <= expected w s;
  inv_expected s : 0 <= expected w s /\ expected w s + b <= Z.of_nat (ticks w);
  inv_stored addr c : stored (calls w) addr c -> node_address (contact c) = addr;
}.

Definition ext_z (i : HandlerReqId) (id : Rpc.RequestId) : Z := Z.of_nat (ext i id).
Definition bump (addr : SocketAddr) (s : SocketAddr) : Z := Z.of_nat (one_if (addr = s)).

Lemma Inv_weaken b b' owed owed' slack slack' w :
  Inv b owed slack w -> b' <= b -> (forall id, owed' id = owed id) -> (forall s, slack' s <= slack s) ->
  Inv b' owed' slack' w.
Proof.
  intros HI Hb Ho Hs. split.
  - intros id. rewrite Ho. apply HI.
  - intros s. pose proof (inv_slack _ _ _ _ HI s). specialize (Hs s). lia.
  - intros s. destruct (inv_expected _ _ _ _ HI s). lia.
  - apply HI.
Qed.

(** What the invariant depends on. *)
Definition framed w w' : Prop :=
  calls w' = calls w /\ queued w' = queued w /\ challenges w' = challenges w /\
  filter_expected_responses (handler w') = filter_expected_responses (handler w) /\
  sent w' = sent w /\ (ticks w <= ticks w')%nat.

Lemma framed_refl w : framed w w.
Proof. done. Qed.

Lemma framed_trans w1 w2 w3 : framed w1 w2 -> framed w2 w3 -> framed w1 w3.
Proof. intros (?&?&?&?&?&?) (?&?&?&?&?&?). split_and!; try congruence. lia. Qed.

Lemma framed_Inv b owed slack w w' : framed w w' -> Inv b owed slack w -> Inv b owed slack w'.
Proof.
  intros (Hc & Hq & Hch & He & Hs & Ht) HI. split.
  - intros id. unfold open, failures, responses. rewrite Hc, Hq, Hs. apply HI.
  - intros s. unfold awaited, expected. rewrite Hc, Hch, He. apply HI.
  - intros s. unfold expected. rewrite He. destruct (inv_expected _ _ _ _ HI s). unfold expected in *. lia.
  - rewrite Hc. apply HI.
Qed.

(** The requests of a table changed. *)
Lemma Inv_calls b owed slack owed' slack' w w' :
  Inv b owed slack w ->
  queued w' = queued w -> challenges w' = challenges w ->
  filter_expected_responses (handler w') = filter_expected_responses (handler w) -> sent w' = sent w ->
  ticks w' = ticks w ->
  (forall addr c, stored (calls w') addr c -> node_address (contact c) = addr) ->
  (forall id, owed' id - Z.of_nat (weight (call_ext id) (calls w')) =
              owed id - Z.of_nat (weight (call_ext id) (calls w))) ->
  (forall s, Z.of_nat (weight (fun addr (_ : RequestCall Enr) => at_socket s addr) (calls w')) + slack' s <=
             Z.of_nat (weight (fun addr (_ : RequestCall Enr) => at_socket s addr) (calls w)) + slack s) ->
  Inv b owed' slack' w'.
Proof.
  intros HI Hq Hch He Hs Ht Hst Ho Hsl. split.
  - intros id. specialize (Ho id). pose proof (inv_owed _ _ _ _ HI id) as Hi.
    unfold open, failures, responses in *. rewrite Hq, Hs. lia.
  - intros s. specialize (Hsl s). pose proof (inv_slack _ _ _ _ HI s) as Hi.
    unfold awaited, expected in *. rewrite Hch, He. lia.
  - intros s. unfold expected. rewrite He, Ht. apply HI.
  - exact Hst.
Qed.

Lemma Inv_taken b owed slack w w' addr c :
  Inv b owed slack w -> taken (calls w) (calls w') addr c ->
  queued w' = queued w -> challenges w' = challenges w ->
  filter_expected_responses (handler w') = filter_expected_responses (handler w) -> sent w' = sent w ->
  ticks w' = ticks w ->
  node_address (contact c) = addr /\
  Inv b (fun id => owed id - ext_z (request_id c) id) (fun s => slack s + bump (socket_addr addr) s) w'.
Proof.
  intros HI (Hw & Hc & Hst) Hq Hch He Hs Ht. split; [by apply HI|].
  eapply Inv_calls; [exact HI|done..| | |].
  - intros a y Hy. by apply HI, Hst.
  - intros id. rewrite <-(Hw (call_ext id)). change (call_ext id addr c) with (ext (request_id c) id). unfold ext_z. lia.
  - intros s. rewrite <-(Hw (fun a _ => at_socket s a)). change (bump (socket_addr addr) s) with (Z.of_nat (at_socket s addr)). lia.
Qed.

Lemma Inv_same b owed slack w w' :
  Inv b owed slack w -> same (calls w) (calls w') ->
  queued w' = queued w -> challenges w' = challenges w ->
  filter_expected_responses (handler w') = filter_expected_responses (handler w) -> sent w' = sent w ->
  ticks w' = ticks w -> Inv b owed slack w'.
Proof.
  intros HI (Hw & Hst) Hq Hch He Hs Ht. eapply Inv_calls; [exact HI|done..| | |].
  - intros a y Hy. by apply HI, Hst.
  - intros id. by rewrite Hw.
  - intros s. by rewrite Hw.
Qed.

(** Something was sent. *)
Lemma Inv_sent b owed owed' slack w w' x :
  Inv b owed slack w -> handler w' = handler w -> sent w' = x :: sent w -> (ticks w <= ticks w')%nat ->
  (forall id, owed id + Z.of_nat (failure id x) <= owed' id <=
              owed id + Z.of_nat (failure id x) + Z.of_nat (response id x)) ->
  Inv b owed' slack w'.
Proof.
  intros HI Hh Hs Ht Ho. split.
  - intros id. specialize (Ho id). pose proof (inv_owed _ _ _ _ HI id) as Hi.
    unfold open, failures, responses, calls, queued in *. rewrite Hs, Hh. cbn [sum_list_with]. lia.
  - intros s. unfold awaited, expected, calls, challenges. rewrite Hh. apply HI.
  - intros s. destruct (inv_expected _ _ _ _ HI s). unfold expected in *. rewrite Hh. lia.
  - unfold calls. rewrite Hh. apply HI.
Qed.

(** The requests that wait for a session changed. *)
Lemma Inv_queued b owed slack owed' w w' :
  Inv b owed slack w ->
  calls w' = calls w -> challenges w' = challenges w ->
  filter_expected_responses (handler w') = filter_expected_responses (handler w) -> sent w' = sent w ->
  ticks w' = ticks w ->
  (forall id, owed' id - Z.of_nat (weight (pending_ext id) (queued w')) =
              owed id - Z.of_nat (weight (pending_ext id) (queued w))) ->
  Inv b owed' slack w'.
Proof.
  intros HI Hq Hch He Hs Ht Ho. split.
  - intros id. specialize (Ho id). pose proof (inv_owed _ _ _ _ HI id) as Hi.
    unfold open, failures, responses in *. rewrite Hq, Hs. lia.
  - intros s. unfold awaited, expected. rewrite Hch, He, Hq. apply HI.
  - intros s. unfold expected. rewrite He, Ht. apply HI.
  - rewrite Hq. apply HI.
Qed.

(** The challenges changed. *)
Lemma Inv_challenges b owed slack slack' w w' :
  Inv b owed slack w ->
  calls w' = calls w -> queued w' = queued w ->
  filter_expected_responses (handler w') = filter_expected_responses (handler w) -> sent w' = sent w ->
  ticks w' = ticks w ->
  (forall s, Z.of_nat (msum (fun addr _ => at_socket s addr) (challenges w')) + slack' s <=
             Z.of_nat (msum (fun addr _ => at_socket s addr) (challenges w)) + slack s) ->
  Inv b owed slack' w'.
Proof.
  intros HI Hc Hq He Hs Ht Hsl. split.
  - intros id. unfold open, failures, responses. rewrite Hc, Hq, Hs. apply HI.
  - intros s. specialize (Hsl s). pose proof (inv_slack _ _ _ _ HI s) as Hi.
    unfold awaited, expected in *. rewrite Hc, He. lia.
  - intros s. unfold expected. rewrite He, Ht. apply HI.
  - rewrite Hc. apply HI.
Qed.

(** The expected responses changed. *)
Lemma Inv_expected b b' owed slack slack' w w' :
  Inv b owed slack w ->
  calls w' = calls w -> queued w' = queued w -> challenges w' = challenges w -> sent w' = sent w ->
  ticks w' = ticks w ->
  (forall s, 0 <= expected w' s /\ expected w' s + b' <= Z.of_nat (ticks w)) ->
  (forall s, awaited w s + slack' s <= expected w' s) ->
  Inv b' owed slack' w'.
Proof.
  intros HI Hc Hq Hch Hs Ht He Hsl. split.
  - intros id. unfold open, failures, responses. rewrite Hc, Hq, Hs. apply HI.
  - intros s. unfold awaited. rewrite Hc, Hch. apply Hsl.
  - intros s. rewrite Ht. apply He.
  - rewrite Hc. apply HI.
Qed.
End Inv.
