(* ===== verification/PacketCache.v ===== *)
(** * The cache of received packets (src/src/socket/filter/cache.rs)

    The times of the unsolicited packets of the last seconds.  The clock is read
    for every element: [clk] gives the readings of a loop, in nanoseconds.
    [Instant::checked_sub] fails before the earliest instant of the platform, and
    a capacity that cannot be allocated makes [new] panic. *)

From S2P Require Import Prelude.
Local Open Scope Z_scope.

Module PacketCache.

Definition ENFORCED_SIZE_TIME : Z := 1.

Record ReceivedPacket (T : Type) := mkReceived { content : T; received : Z }.
Arguments mkReceived {T} content received.
Arguments content {T} p : rename.
Arguments received {T} p : rename.

Record ReceivedPacketCache (T : Type) := mkPacketCache {
  target : nat;
  time_window : Z;
  within_enforced_time : nat;
  inner : list (ReceivedPacket T);
}.
Arguments mkPacketCache {T} target time_window within_enforced_time inner.
Arguments target {T} c : rename.
Arguments time_window {T} c : rename.
Arguments within_enforced_time {T} c : rename.
Arguments inner {T} c : rename.

Section PacketCache.
Context {T : Type}.
Variable earliest : Z.
Implicit Types (self : ReceivedPacketCache T).

Definition instant_checked_sub (now d : Z) : option Z :=
  if decide (earliest <= now - d) then Some (now - d) else None.

(** [VecDeque::with_capacity] panics when the bytes it asks for exceed
    [isize::MAX]; [entry_size] is [size_of::<ReceivedPacket<T>>()]. *)
Definition ISIZE_MAX : Z := 2 ^ 63 - 1.

Definition new (debug : bool) (entry_size : Z) (target : nat) (time_window : Z) : outcome (ReceivedPacketCache T) :=
  capacity ← arith debug (2 ^ 64) (Z.of_nat target * time_window);
  if decide (capacity * entry_size <= ISIZE_MAX) then Ret (mkPacketCache target time_window 0 []) else Panic.

(** The first loop of [reset]: what has expired leaves at the front. *)
Fixpoint expire (time_window : Z) (clk : nat -> Z) (i : nat) (l : list (ReceivedPacket T))
    : outcome (list (ReceivedPacket T)) :=
  match l with
  | [] => Ret []
  | packet :: l' =>
      t ← unwrap (instant_checked_sub (clk i) (from_secs time_window));
      if decide (received packet > t) then Ret l else expire time_window clk (S i) l'
  end.

(** The second loop, from the back. *)
Fixpoint count_recent (clk : nat -> Z) (i : nat) (l : list (ReceivedPacket T)) : outcome nat :=
  match l with
  | [] => Ret 0%nat
  | packet :: l =>
      t ← unwrap (instant_checked_sub (clk i) (from_secs ENFORCED_SIZE_TIME));
      if decide (received packet > t) then n ← count_recent clk (S i) l; Ret (S n) else Ret 0%nat
  end.

Definition reset self (clk clk' : nat -> Z) : outcome (ReceivedPacketCache T) :=
  inner ← expire (time_window self) clk 0 (inner self);
  count ← count_recent clk' 0 (rev inner);
  Ret (mkPacketCache (target self) (time_window self) count inner).

Definition internal_insert self (now : Z) (content : T) : ReceivedPacketCache T * bool :=
  if decide (target self <= within_enforced_time self)%nat then (self, false)
  else
    (mkPacketCache (target self) (time_window self) (S (within_enforced_time self))
       (inner self ++ [mkReceived content now]), true).

Definition cache_insert self (clk clk' : nat -> Z) (now : Z) (content : T) : outcome (ReceivedPacketCache T * bool) :=
  self ← reset self clk clk';
  Ret (internal_insert self now content).
End PacketCache.
End PacketCache.
Import PacketCache.

(** ** The bound on the packets recorded *)

Section Bound.
Context {T : Type}.
Variable earliest : Z.
Implicit Types (c : ReceivedPacketCache T) (l : list (ReceivedPacket T)) (p : ReceivedPacket T).

(** The packets received in the [d] nanoseconds up to [t]. *)
Definition in_window (t d : Z) p : bool := bool_decide (t - d < received p <= t).
Definition recorded (t d : Z) l : nat := countb (in_window t d) l.

(** By time, none after [last]. *)
Fixpoint timed (last : Z) l : Prop :=
  match l with
  | [] => True
  | p :: l => received p <= last /\ Forall (fun q => received p <= received q) l /\ timed last l
  end.

Record cache_ok (last : Z) c : Prop := {
  cache_timed : timed last (inner c);
  cache_rate t : (recorded t (from_secs 1) (inner c) <= target c)%nat;
}.

Lemma timed_app last l1 l2 :
  timed last (l1 ++ l2) <->
  timed last l1 /\ timed last l2 /\ Forall (fun p => Forall (fun q => received p <= received q) l2) l1.
Proof.
  induction l1 as [|p l1 IH]; simpl; [naive_solver|]. rewrite IH, Forall_app, Forall_cons. naive_solver.
Qed.

Lemma timed_later last last' l : last <= last' -> timed last l -> timed last' l.
Proof. induction l as [|p l IH]; simpl; [done|]. intros ? (?&?&?). split_and!; [lia|done|auto]. Qed.

Lemma timed_received last l : timed last l -> Forall (fun p => received p <= last) l.
Proof. induction l as [|p l IH]; simpl; [done|]. intros (?&?&?). constructor; auto. Qed.

(** The loops return, and keep an end of the list. *)
Lemma expire_spec w (clk : nat -> Z) i l last :
  timed last l -> (forall j, earliest + from_secs w <= clk j) ->
  exists l1 l2, l = l1 ++ l2 /\ expire earliest w clk i l = Ret l2 /\
    (forall t, (forall j, clk j <= t) -> Forall (fun p => received p <= t - from_secs w) l1).
Proof.
  revert i. induction l as [|p l IH]; intros i Ht Hc; [by exists [], []|]. simpl.
  unfold instant_checked_sub. rewrite decide_True by (specialize (Hc i); lia). simpl. case_decide.
  - exists [], (p :: l). split_and!; [done|done|]. by constructor.
  - destruct Ht as (_ & _ & Ht). destruct (IH (S i) Ht Hc) as (l1 & l2 & -> & E & Hl).
    exists (p :: l1), l2. split_and!; [done|done|]. intros t Htc. constructor; [|by apply Hl].
    specialize (Htc i). lia.
Qed.

(** What is counted from the back covers the last second up to any later time. *)
Lemma count_recent_spec (clk : nat -> Z) i l last :
  (forall j, earliest + from_secs 1 <= clk j) -> timed last (rev l) ->
  exists n, count_recent earliest clk i l = Ret n /\
    forall t, (forall j, clk j <= t) -> (recorded t (from_secs 1) l <= n)%nat.
Proof.
  intros Hc. revert i. induction l as [|p l IH]; intros i Ht; [by exists 0%nat|].
  cbn [count_recent rev] in *. apply timed_app in Ht as (Ht & _ & Hle).
  unfold instant_checked_sub. unfold ENFORCED_SIZE_TIME. rewrite decide_True by (specialize (Hc i); lia). simpl. case_decide as Hp.
  - destruct (IH (S i) Ht) as (n & -> & Hn). exists (S n). split; [done|]. intros t Htc. specialize (Hn t Htc).
    unfold recorded in *. simpl. destruct (in_window t _ p); lia.
  - exists 0%nat. split; [done|]. intros t Htc. unfold recorded.
    rewrite (countb_Forall_false (in_window t (from_secs 1))); [done|].
    apply Forall_cons. specialize (Htc i). split.
    + unfold in_window. apply bool_decide_eq_false. lia.
    + apply Forall_forall. intros q Hq. unfold in_window. apply bool_decide_eq_false.
      rewrite Forall_forall in Hle. specialize (Hle q). rewrite Forall_singleton in Hle.
      assert (received q <= received p); [|lia]. apply Hle.
      rewrite list_elem_of_In, <-in_rev, <-list_elem_of_In. done.
Qed.

(** What was counted was received in the last second before the readings. *)
Lemma count_recent_recorded (clk : nat -> Z) i l n t0 last :
  count_recent earliest clk i l = Ret n -> (forall j, t0 <= clk j) -> Forall (fun p => received p <= last) l ->
  (n <= recorded last (last - t0 + from_secs 1) l)%nat.
Proof.
  revert i n. induction l as [|p l IH]; intros i n E Hc Hl; simpl in E; [injection E as <-; lia|].
  apply Forall_cons in Hl as [Hp Hl]. destruct (instant_checked_sub _ _ _) as [t|] eqn:Et; simpl in E; [|done].
  unfold instant_checked_sub, ENFORCED_SIZE_TIME in Et.
  destruct (decide (earliest <= clk i - from_secs 1)); [|done]. injection Et as <-.
  case_decide; [|injection E as <-; lia].
  destruct (count_recent earliest clk (S i) l) as [m|] eqn:Em; simpl in E; [|done]. injection E as <-.
  specialize (IH _ _ Em Hc Hl). unfold recorded in *. simpl. unfold in_window at 1.
  rewrite bool_decide_eq_true_2; [lia|]. specialize (Hc i). lia.
Qed.

Lemma recorded_later t t' d l :
  t <= t' -> Forall (fun p => received p <= t) l -> (recorded t' d l <= recorded t d l)%nat.
Proof.
  intros Ht. unfold recorded. induction 1 as [|p l Hp _ IH]; simpl; [done|].
  assert (in_window t' d p = true -> in_window t d p = true) as Hw
    by (unfold in_window; rewrite !bool_decide_eq_true; lia).
  destruct (in_window t' d p), (in_window t d p); naive_solver lia.
Qed.

(** A call between the instants [last] and [now]. *)
Definition readings_between (last now : Z) (clk clk' : nat -> Z) : Prop :=
  (forall j, last <= clk j <= now) /\ (forall j, last <= clk' j <= now).

Lemma cache_insert_ok last c clk clk' now x :
  cache_ok last c -> readings_between last now clk clk' ->
  earliest + from_secs (time_window c) <= last -> earliest + from_secs 1 <= last ->
  exists c' r, cache_insert earliest c clk clk' now x = Ret (c', r) /\ cache_ok now c' /\
    target c' = target c /\ time_window c' = time_window c /\
    (r = true -> exists l, inner c' = l ++ [mkReceived x now]) /\
    (r = false -> (target c <= recorded now (now - last + from_secs 1) (inner c'))%nat).
Proof.
  intros [Ht Hr] [Hc Hc'] He1 He2. unfold cache_insert, reset.
  destruct (expire_spec (time_window c) clk 0 (inner c) last Ht) as (l1 & l2 & El & -> & _).
  { intros j. specialize (Hc j). lia. }
  rewrite El in Ht, Hr. apply timed_app in Ht as (_ & Ht & _). simpl.
  destruct (count_recent_spec clk' 0 (rev l2) last) as (n & En & Hn);
    [intros j; specialize (Hc' j); lia|by rewrite rev_involutive|]. rewrite En. simpl.
  assert (last <= now) by (specialize (Hc 0%nat); lia).
  assert (Forall (fun p => received p <= now) l2) as Hl2.
  { eapply Forall_impl; [by apply timed_received|]. simpl. lia. }
  assert (forall t d, recorded t d (rev l2) = recorded t d l2) as Hrev.
  { intros t d. apply countb_Permutation. symmetry. apply Permutation_rev. }
  assert (forall t, (recorded t (from_secs 1) l2 <= target c)%nat) as Hr2.
  { intros t. specialize (Hr t). unfold recorded in *. rewrite countb_app in Hr. lia. }
  unfold internal_insert. cbn [target within_enforced_time inner time_window]. case_decide as Hd.
  - eexists _, false. split_and!; [done| |done|done|done|].
    + split; simpl; [by eapply timed_later|done].
    + intros _. simpl. rewrite <-Hrev. etrans; [exact Hd|].
      eapply count_recent_recorded; [exact En|intros j; specialize (Hc' j); lia|].
      apply Forall_rev. done.
  - eexists _, true. split_and!; [done| |done|done|by eexists|done]. split; simpl.
    + apply timed_app. split_and!; [by eapply timed_later|simpl; split_and!; [lia|constructor|done]|].
      eapply Forall_impl; [exact Hl2|]. intros p Hp. simpl in Hp. by constructor.
    + intros t. unfold recorded. rewrite countb_app. fold (recorded t (from_secs 1) l2). simpl.
      destruct (in_window t _ _) eqn:Ew; [|specialize (Hr2 t); lia].
      unfold in_window in Ew. apply bool_decide_eq_true in Ew. simpl in Ew.
      pose proof (recorded_later now t (from_secs 1) l2 ltac:(lia) Hl2).
      specialize (Hn now). rewrite Hrev in Hn. assert (forall j, clk' j <= now) by (intros j; specialize (Hc' j); lia).
      specialize (Hn H1). lia.
Qed.

(** The limit for one second is the limit for several. *)
Lemma recorded_seconds n t k l :
  (forall t, (recorded t (from_secs 1) l <= n)%nat) -> (recorded t (from_secs (Z.of_nat k)) l <= n * k)%nat.
Proof.
  intros Hn. revert t. induction k as [|k IH]; intros t.
  - unfold recorded. rewrite countb_Forall_false; [lia|]. apply Forall_true. intros p. unfold in_window.
    apply bool_decide_eq_false. unfold from_secs. lia.
  - specialize (IH (t - from_secs 1)). specialize (Hn t).
    assert (recorded t (from_secs (Z.of_nat (S k))) l <=
            recorded t (from_secs 1) l + recorded (t - from_secs 1) (from_secs (Z.of_nat k)) l)%nat; [|lia].
    clear. unfold recorded. induction l as [|p l IH]; simpl; [lia|]. unfold in_window in *.
    repeat case_bool_decide; unfold from_secs in *; lia.
Qed.

(** ** Histories *)

Record cache_call := mkCacheCall { call_clk : nat -> Z; call_clk' : nat -> Z; call_now : Z; call_content : T }.

Fixpoint run_packet_cache c (calls : list cache_call) : outcome (ReceivedPacketCache T * list bool) :=
  match calls with
  | [] => Ret (c, [])
  | call :: calls =>
      '(c, r) ← cache_insert earliest c (call_clk call) (call_clk' call) (call_now call) (call_content call);
      '(c, rs) ← run_packet_cache c calls; Ret (c, r :: rs)
  end.

Fixpoint calls_between (last : Z) (calls : list cache_call) : Prop :=
  match calls with
  | [] => True
  | call :: calls =>
      readings_between last (call_now call) (call_clk call) (call_clk' call) /\ calls_between (call_now call) calls
  end.

Lemma run_packet_cache_ok last c calls :
  cache_ok last c -> calls_between last calls ->
  earliest + from_secs (time_window c) <= last -> earliest + from_secs 1 <= last ->
  exists c' rs last', run_packet_cache c calls = Ret (c', rs) /\ cache_ok last' c' /\ target c' = target c /\
    length rs = length calls.
Proof.
  revert last c. induction calls as [|call calls IH]; intros last c Hok Hcalls He1 He2; [by eexists _, _, _|].
  destruct Hcalls as [Hb Hcalls]. cbn [run_packet_cache].
  destruct (cache_insert_ok last c _ _ _ (call_content call) Hok Hb He1 He2)
    as (c1 & r & -> & Hok1 & Ht & Hw & _ & _). cbn [mbind outcome_bind].
  assert (last <= call_now call) by (destruct Hb as [Hb _]; specialize (Hb 0%nat); lia).
  destruct (IH (call_now call) c1 Hok1 Hcalls) as (c2 & rs & last' & -> & Hok2 & Ht2 & Hl); [rewrite Hw; lia|lia|].
  simpl. eexists _, _, _. split_and!; [done|done|congruence|simpl; lia].
Qed.
End Bound.
Arguments mkCacheCall {T} call_clk call_clk' call_now call_content.

(** every history of insertions, with a clock that does not run backwards,
    returns; the packets recorded are in the order of their times, and of the
    packets received in any window of [k] seconds at most [k] times the target
    are recorded, so in particular the cache holds at most the target per
    second. *)
Theorem packet_cache_rate {T} (earliest : Z) debug entry_size (target : nat) (time_window start : Z)
    (c0 : ReceivedPacketCache T) (calls : list (cache_call (T := T))) :
  new debug entry_size target time_window = Ret c0 ->
  earliest + from_secs time_window <= start -> earliest + from_secs 1 <= start -> calls_between start calls ->
  exists c rs last, run_packet_cache earliest c0 calls = Ret (c, rs) /\
    length rs = length calls /\ timed last (inner c) /\
    forall t k, (recorded t (from_secs (Z.of_nat k)) (inner c) <= target * k)%nat.
Proof.
  intros Hn He1 He2 Hcalls. unfold new in Hn. apply bind_ret_inv in Hn as (capacity & _ & Hn). case_decide; [|done]. injection Hn as <-.
  destruct (run_packet_cache_ok earliest start (mkPacketCache target time_window 0 []) calls) as (c & rs & last & E & Hok & Ht & Hl);
    [split; [done|intros t; simpl; apply Nat.le_0_l]|done..|].
  exists c, rs, last. split_and!; [done|done|by apply Hok|]. intros t k. simpl in Ht. rewrite <-Ht.
  apply recorded_seconds, Hok.
Qed.
