(* ===== verification/Filter.v ===== *)
(** * The packet filter (src/src/socket/filter)

    [Filter] decides which unsolicited packets reach the handler.  Its state
    comes with the global [PERMIT_BAN_LIST] and the gauge of the metrics it
    writes.  The readings of the clock of a call are the fields of [Readings]. *)

From S2P Require Import Prelude Bytes Key RateLimiter NodeInfo Globals PacketCache Maps.
Import NodeInfo PermitBan.
Local Open Scope Z_scope.

Module Filter.

Definition KNOWN_ADDRS_SIZE : nat := 500.
Definition BANNED_NODES_SIZE : nat := 50.
Definition DEFAULT_PACKETS_PER_SECOND : Z := 20.

(** [size_of::<ReceivedPacket<SocketAddr>>()] on a 64-bit Unix: 32 bytes of an
    address and 16 of an [Instant]. *)
Definition RECEIVED_PACKET_SIZE : Z := 48.

(** [METRICS.moving_window]. *)
Definition MOVING_WINDOW : Z := 5.

Record FilterConfig := mkFilterConfig {
  config_enabled : bool;
  config_rate_limiter : option RateLimiter.RateLimiter;
  config_max_nodes_per_ip : option nat;
  config_max_bans_per_ip : option nat;
}.

(** [KA] and [BA] are the LRU caches of the addresses and of the bans. *)
Record Filter (KA BA : Type) := mkFilter {
  enabled : bool;
  rate_limiter : option RateLimiter.RateLimiter;
  raw_packets_received : PacketCache.ReceivedPacketCache SocketAddr;
  ban_duration : option Z;
  known_addrs : KA;
  banned_nodes : BA;
  max_nodes_per_ip : option nat;
  max_bans_per_ip : option nat;
}.
Arguments mkFilter {KA BA} enabled rate_limiter raw_packets_received ban_duration known_addrs banned_nodes
  max_nodes_per_ip max_bans_per_ip.
Arguments enabled {KA BA} f : rename.
Arguments rate_limiter {KA BA} f : rename.
Arguments raw_packets_received {KA BA} f : rename.
Arguments ban_duration {KA BA} f : rename.
Arguments known_addrs {KA BA} f : rename.
Arguments banned_nodes {KA BA} f : rename.
Arguments max_nodes_per_ip {KA BA} f : rename.
Arguments max_bans_per_ip {KA BA} f : rename.

(** The filter, the list of bans and [METRICS.unsolicited_requests_per_window]. *)
Record State (KA BA : Type) := mkState {
  filter : Filter KA BA;
  bans : PermitBanList;
  unsolicited_requests_per_window : nat;
}.
Arguments mkState {KA BA} filter bans unsolicited_requests_per_window.
Arguments filter {KA BA} s : rename.
Arguments bans {KA BA} s : rename.
Arguments unsolicited_requests_per_window {KA BA} s : rename.

(** The clock during one call: the loops of the cache and its insertion, the
    rate limiter, the time of a ban, the second call of the rate limiter. *)
Record Readings := mkReadings {
  at_expire : nat -> Z;
  at_count : nat -> Z;
  at_insert : Z;
  at_limit : Z;
  at_ban : Z;
  at_total : Z;
}.

Section Filter.
Context {KA BA : Type} `{!LruCache KA IpAddr (gset NodeId)} `{!LruCache BA IpAddr nat}.
Variable earliest : Z.
Notation F := (Filter KA BA).
Notation St := (State KA BA).

Definition expected_packets_per_second (config : FilterConfig) : Z :=
  match config_rate_limiter config with
  | Some v => F32.to_usize (F32.round (RateLimiter.total_requests_per_second v))
  | None => DEFAULT_PACKETS_PER_SECOND
  end.

Definition new (debug : bool) (config : FilterConfig) (ban_duration : option Z) : outcome F :=
  raw_packets_received ← PacketCache.new debug RECEIVED_PACKET_SIZE
    (Z.to_nat (expected_packets_per_second config)) MOVING_WINDOW;
  Ret (mkFilter (config_enabled config) (config_rate_limiter config) raw_packets_received ban_duration
    (lru_new KNOWN_ADDRS_SIZE) (lru_new BANNED_NODES_SIZE)
    (config_max_nodes_per_ip config) (config_max_bans_per_ip config)).

Definition with_rate_limiter (rl : RateLimiter.RateLimiter) (f : F) : F :=
  mkFilter (enabled f) (Some rl) (raw_packets_received f) (ban_duration f) (known_addrs f) (banned_nodes f)
    (max_nodes_per_ip f) (max_bans_per_ip f).
Definition with_packets (c : PacketCache.ReceivedPacketCache SocketAddr) (f : F) : F :=
  mkFilter (enabled f) (rate_limiter f) c (ban_duration f) (known_addrs f) (banned_nodes f)
    (max_nodes_per_ip f) (max_bans_per_ip f).
Definition with_known_addrs (k : KA) (f : F) : F :=
  mkFilter (enabled f) (rate_limiter f) (raw_packets_received f) (ban_duration f) k (banned_nodes f)
    (max_nodes_per_ip f) (max_bans_per_ip f).
Definition with_banned_nodes (b : BA) (f : F) : F :=
  mkFilter (enabled f) (rate_limiter f) (raw_packets_received f) (ban_duration f) (known_addrs f) b
    (max_nodes_per_ip f) (max_bans_per_ip f).

(** [PERMIT_BAN_LIST.write().ban_ips.insert] and [ban_nodes.insert]. *)
Definition ban_ip (ip : IpAddr) (t : option Z) (l : PermitBanList) : PermitBanList :=
  mkPermitBan (permit_ips l) (<[ip := t]> (ban_ips l)) (permit_nodes l) (ban_nodes l).
Definition ban_node (id : NodeId) (t : option Z) (l : PermitBanList) : PermitBanList :=
  mkPermitBan (permit_ips l) (ban_ips l) (permit_nodes l) (<[id := t]> (ban_nodes l)).

Definition initial_pass (s : St) (r : Readings) (src : SocketAddr) : outcome (St * bool) :=
  let ip := SocketAddr.ip src in
  if decide (ip ∈ permit_ips (bans s)) then Ret (s, true)
  else if decide (is_Some (ban_ips (bans s) !! ip)) then Ret (s, false)
  else
    '(cache, _) ← PacketCache.cache_insert earliest (raw_packets_received (filter s)) (at_expire r) (at_count r)
                    (at_insert r) src;
    let f := with_packets cache (filter s) in
    let metric := length (PacketCache.inner cache) in
    if negb (enabled f) then Ret (mkState f (bans s) metric, true)
    else
      match rate_limiter f with
      | None => Ret (mkState f (bans s) metric, true)
      | Some rl =>
          '(rl, res) ← RateLimiter.allows rl (at_limit r) (RateLimiter.LIp ip);
          let f := with_rate_limiter rl f in
          match res with
          | Err _ =>
              ban_timeout ← ban_expiry (at_ban r) (ban_duration f);
              Ret (mkState f (ban_ip ip ban_timeout (bans s)) metric, false)
          | Ok _ =>
              '(rl, res) ← RateLimiter.allows rl (at_total r) RateLimiter.Total;
              let f := with_rate_limiter rl f in
              Ret (mkState f (bans s) metric, match res with Err _ => false | Ok _ => true end)
          end
      end.

(** The count of the bans of an address, and whether it is reached. *)
Definition count_ban (f : F) (ip : IpAddr) : F * bool :=
  match max_bans_per_ip f with
  | None => (f, false)
  | Some max_bans_per_ip =>
      match lru_get (banned_nodes f) ip with
      | Some banned_count =>
          (with_banned_nodes (lru_get_mut (banned_nodes f) ip S) f, bool_decide (max_bans_per_ip <= S banned_count)%nat)
      | None => (with_banned_nodes (lru_put (banned_nodes f) ip 0%nat) f, false)
      end
  end.

(** The node ids seen at an address, this one included. *)
Definition note_node (f : F) (ip : IpAddr) (id : NodeId) : F * nat :=
  match lru_get (known_addrs f) ip with
  | Some known_nodes =>
      (with_known_addrs (lru_get_mut (known_addrs f) ip (fun s => {[id]} ∪ s)) f, size ({[id]} ∪ known_nodes))
  | None => (with_known_addrs (lru_put (known_addrs f) ip {[id]}) f, 1%nat)
  end.

(** The last part of [final_pass]: the limit of nodes per address. *)
Definition check_nodes_per_ip (s : St) (t : Z) (addr : NodeAddress) : outcome (St * bool) :=
  let f := filter s in
  match max_nodes_per_ip f with
  | None => Ret (s, true)
  | Some max_nodes_per_ip =>
      let ip := SocketAddr.ip (socket_addr addr) in
      let '(f, known_nodes) := note_node f ip (node_id addr) in
      if decide (max_nodes_per_ip <= known_nodes)%nat then
        ban_timeout ← ban_expiry t (ban_duration f);
        Ret (mkState (with_known_addrs (lru_pop (known_addrs f) ip) f) (ban_ip ip ban_timeout (bans s))
               (unsolicited_requests_per_window s), false)
      else Ret (mkState f (bans s) (unsolicited_requests_per_window s), true)
  end.

Definition final_pass (s : St) (r : Readings) (addr : NodeAddress) : outcome (St * bool) :=
  if decide (node_id addr ∈ permit_nodes (bans s)) then Ret (s, true)
  else if decide (is_Some (ban_nodes (bans s) !! node_id addr)) then Ret (s, false)
  else if negb (enabled (filter s)) then Ret (s, true)
  else
    match rate_limiter (filter s) with
    | None => check_nodes_per_ip s (at_ban r) addr
    | Some rl =>
        '(rl, res) ← RateLimiter.allows rl (at_limit r) (RateLimiter.LNodeId (node_id addr));
        let f := with_rate_limiter rl (filter s) in
        match res with
        | Err _ =>
            ban_timeout ← ban_expiry (at_ban r) (ban_duration f);
            let l := ban_node (node_id addr) ban_timeout (bans s) in
            let ip := SocketAddr.ip (socket_addr addr) in
            let '(f, reached) := count_ban f ip in
            let l := if (reached : bool) then ban_ip ip ban_timeout l else l in
            Ret (mkState f l (unsolicited_requests_per_window s), false)
        | Ok _ => check_nodes_per_ip (mkState f (bans s) (unsolicited_requests_per_window s)) (at_ban r) addr
        end
    end.

Definition prune_limiter (s : St) (now : Z) : St :=
  match rate_limiter (filter s) with
  | Some rl => mkState (with_rate_limiter (RateLimiter.prune rl now) (filter s)) (bans s)
                 (unsolicited_requests_per_window s)
  | None => s
  end.
End Filter.
End Filter.
