(* ===== verification/FilterProofs.v ===== *)
(** * What the packet filter lets through

    Histories of the filter: packets, the pruning of the limiter, and changes of
    the permit and ban list by other tasks.  The bound on the packets of one
    address composes the filter with the contract of the rate limiter. *)

From S2P Require Import Prelude Bytes Key RateLimiter RateLimiterProofs RateLimiterTrace.
From S2P Require Import Maps NodeInfo Globals PacketCache Filter.
Import RateLimiter NodeInfo PermitBan PacketCache TokenBucket Filter.
Local Open Scope Z_scope.

Inductive filter_event :=
  | FInitial (r : Readings) (src : SocketAddr)
  | FFinal (r : Readings) (addr : NodeAddress)
  | FPrune (now : Z)
  | FList (l : PermitBanList).

Section Histories.
Context {KA BA : Type} `{!LruCache KA IpAddr (gset NodeId)} `{!LruCache BA IpAddr nat}.
Variables (earliest : Z).
Notation St := (State KA BA).
Implicit Types (s : St) (e : filter_event).

Definition filter_step s e : outcome (St * bool) :=
  match e with
  | FInitial r src => initial_pass earliest s r src
  | FFinal r addr => final_pass s r addr
  | FPrune now => Ret (prune_limiter s now, true)
  | FList l => Ret (mkState (filter s) l (unsolicited_requests_per_window s), true)
  end.

Fixpoint run_filter s (evs : list filter_event) : outcome (St * list bool) :=
  match evs with
  | [] => Ret (s, [])
  | e :: evs => '(s, r) ← filter_step s e; '(s, rs) ← run_filter s evs; Ret (s, r :: rs)
  end.

Lemma run_filter_app s evs1 evs2 :
  run_filter s (evs1 ++ evs2) =
  ('(s1, rs1) ← run_filter s evs1; '(s2, rs2) ← run_filter s1 evs2; Ret (s2, rs1 ++ rs2)).
Proof.
  revert s. induction evs1 as [|e evs1 IH]; intros s; simpl; [by destruct (run_filter s evs2) as [[]|]|].
  destruct (filter_step s e) as [[s1 r]|]; simpl; [|done]. rewrite IH.
  destruct (run_filter s1 evs1) as [[s2 rs1]|]; simpl; [|done]. by destruct (run_filter s2 evs2) as [[]|].
Qed.

(** The instant an event is over, and its readings in the order of the calls. *)
Definition event_end (last : Z) e : Z :=
  match e with
  | FInitial r _ => Z.max (at_ban r) (at_total r)
  | FFinal r _ => at_ban r
  | FPrune now => now
  | FList _ => last
  end.

Definition event_readings (last : Z) e : Prop :=
  match e with
  | FInitial r _ =>
      readings_between last (at_insert r) (at_expire r) (at_count r) /\
      at_insert r <= at_limit r /\ at_limit r <= at_ban r /\ at_limit r <= at_total r
  | FFinal r _ => last <= at_limit r <= at_ban r
  | FPrune now => last <= now
  | FList _ => True
  end.

Fixpoint events_ok (last : Z) (evs : list filter_event) : Prop :=
  match evs with
  | [] => True
  | e :: evs => event_readings last e /\ events_ok (event_end last e) evs
  end.

Fixpoint last_end (last : Z) (evs : list filter_event) : Z :=
  match evs with [] => last | e :: evs => last_end (event_end last e) evs end.

Lemma events_ok_app last evs1 evs2 :
  events_ok last (evs1 ++ evs2) <-> events_ok last evs1 /\ events_ok (last_end last evs1) evs2.
Proof. revert last. induction evs1 as [|e evs1 IH]; intros last; simpl; [naive_solver|]. rewrite IH. naive_solver. Qed.

Lemma event_end_later last e : event_readings last e -> last <= event_end last e.
Proof. destruct e; simpl; try lia. intros ([H1 _] & ? & ? & ?). specialize (H1 0%nat). lia. Qed.

Lemma last_end_later last evs : events_ok last evs -> last <= last_end last evs.
Proof.
  revert last. induction evs as [|e evs IH]; intros last; simpl; [lia|]. intros [H1 H2].
  apply event_end_later in H1. apply IH in H2. lia.
Qed.

(** ** The rate of one address *)

Section Rate.
Variables (self : RateLimiterBuilder.RateLimiterBuilder) (start horizon : Z) (ip : IpAddr).
Hypothesis quotas : quotas_ok self horizon.

Definition limiter_at (rl : RateLimiter.RateLimiter) (b : TokenBucket LimitKind) : Prop :=
  rl_refines start horizon rl b /\ credit_ok b /\
  cap b = cap (quota_buckets self) /\ cost b = cost (quota_buckets self).

(** A ban that can be expressed at the horizon can be expressed before. *)
Definition bans_ok s : Prop := ban_representable (start + horizon) (ban_duration (filter s)).

Record filter_at (last : Z) s (b : TokenBucket LimitKind) : Prop := {
  at_limiter : exists rl, rate_limiter (filter s) = Some rl /\ limiter_at rl b;
  at_clock : clock b <= elapsed start last;
  at_cache : cache_ok last (raw_packets_received (filter s));
  at_window : time_window (raw_packets_received (filter s)) = MOVING_WINDOW;
  at_enabled : enabled (filter s) = true;
  at_permit : ip ∉ permit_ips (bans s);
  at_bans : bans_ok s;
}.

Notation kind := (LIp ip).

(** The credit of the address at an instant. *)
Definition credit (b : TokenBucket LimitKind) (t : Z) : Z := Z.min (cap b kind) (level b kind + (t - clock b)).

Lemma credit_advance b t t' : t <= t' -> credit b t' <= credit b t + (t' - t).
Proof. unfold credit. lia. Qed.

Definition grants (k : LimitKind) (r : result RateLimitedErr unit) : Z :=
  match r with Ok _ => if decide (k = kind) then 1 else 0 | Err _ => 0 end.

(** One call of the limiter pays for what it grants. *)
Lemma limiter_pays rl b t now k :
  limiter_at rl b -> clock b <= t <= elapsed start now -> elapsed start now <= horizon ->
  exists rl' r b', RateLimiter.allows rl now k = Ret (rl', r) /\ limiter_at rl' b' /\
    clock b' = elapsed start now /\
    cost b kind * grants k r + credit b' (elapsed start now) <= credit b t + (elapsed start now - t).
Proof.
  intros (Hr & Hc & Hcap & Hcost) Ht Hnow.
  destruct (rl_allows_refines start horizon rl b now k Hr ltac:(lia)) as (rl' & E & Hr').
  pose proof (bucket_step_pays b (elapsed start now) (Allow k 1) kind Hc ltac:(lia) ltac:(simpl; lia)) as Hp.
  cbn [bucket_step] in Hp.
  pose proof (request_clock b (elapsed start now) k) as Hck.
  destruct (request b (elapsed start now) k 1) as [b' r] eqn:Eb. cbn [fst snd] in *.
  destruct Hp as (Hc' & E1 & E2 & E3 & Hp). exists rl', r, b'. split_and!; [done| |done|].
  - split_and!; [done|done|congruence|congruence].
  - unfold credit, grants. unfold granted_by in Hp. rewrite E1, Hck. destruct r; [case_decide|]; lia.
Qed.

Lemma prune_pays rl b t now :
  limiter_at rl b -> clock b <= t <= elapsed start now -> elapsed start now <= horizon ->
  exists b', limiter_at (RateLimiter.prune rl now) b' /\ clock b' = elapsed start now /\
    credit b' (elapsed start now) <= credit b t + (elapsed start now - t).
Proof.
  intros (Hr & Hc & Hcap & Hcost) Ht Hnow.
  destruct (rl_step_refines start horizon rl b (now, RPrune) Hr) as (rl' & E & Hr' & Hck); [simpl; lia|].
  pose proof (bucket_step_pays b (elapsed start now) Prune kind Hc ltac:(lia) I) as Hp.
  simpl in E, Hr', Hck, Hp. injection E as <-. destruct Hp as (Hc' & _ & _ & _ & Hp).
  eexists. split_and!; [split_and!; [done|done|done|done]|done|].
  unfold credit. simpl. lia.
Qed.

(** A packet of the address passed the first check. *)
Definition passed e (r : bool) : Z :=
  match e with FInitial _ src => if decide (SocketAddr.ip src = ip) then Z.b2z r else 0 | _ => 0 end.

(** Lists of other tasks do not permit the address. *)
Definition not_permitted e : Prop := match e with FList l => ip ∉ permit_ips l | _ => True end.

Lemma check_nodes_frame s t addr s' r :
  check_nodes_per_ip s t addr = Ret (s', r) ->
  rate_limiter (filter s') = rate_limiter (filter s) /\ raw_packets_received (filter s') = raw_packets_received (filter s) /\
  enabled (filter s') = enabled (filter s) /\ permit_ips (bans s') = permit_ips (bans s) /\
  ban_duration (filter s') = ban_duration (filter s).
Proof.
  unfold check_nodes_per_ip, note_node. destruct (max_nodes_per_ip (filter s)); [|by intros [= <- <-]].
  destruct (lru_get _ _); case_decide; try (by intros [= <- <-]); intros (u & _ & [= <- <-])%bind_ret_inv; done.
Qed.

Lemma count_ban_frame (f f' : Filter KA BA) a b :
  count_ban f a = (f', b) -> known_addrs f' = known_addrs f /\ max_nodes_per_ip f' = max_nodes_per_ip f /\
    rate_limiter f' = rate_limiter f /\ raw_packets_received f' = raw_packets_received f /\ enabled f' = enabled f /\
    ban_duration f' = ban_duration f.
Proof.
  unfold count_ban. destruct (max_bans_per_ip f); [|by intros [= <- <-]]. destruct (lru_get _ _); by intros [= <- <-].
Qed.

Lemma ban_in_time s t d :
  bans_ok s -> elapsed start t <= horizon -> ban_duration (filter s) = d -> ban_expiry t d = Ret (Z.add t <$> d).
Proof.
  unfold bans_ok, elapsed, saturating_sub. intros Hb Ht <-. apply ban_expiry_ok.
  destruct (ban_duration _); simpl in *; [lia|done].
Qed.

Lemma check_nodes_returns s t addr :
  bans_ok s -> elapsed start t <= horizon -> is_ret (check_nodes_per_ip s t addr).
Proof.
  intros Hb Ht. unfold check_nodes_per_ip, note_node. destruct (max_nodes_per_ip (filter s)); [|by eexists].
  destruct (lru_get _ _); case_decide; (try by eexists); rewrite (ban_in_time s t _ Hb Ht) by done; by eexists.
Qed.

Lemma cache_later last last' c : last <= last' -> cache_ok last c -> cache_ok last' (T := SocketAddr) c.
Proof. intros Hl [H1 H2]. split; [by eapply timed_later|done]. Qed.

Definition step_pays last s e b : Prop :=
  exists s' r b', filter_step s e = Ret (s', r) /\ filter_at (event_end last e) s' b' /\
    cost b kind * passed e r + credit b' (elapsed start (event_end last e)) <=
    credit b (elapsed start last) + (elapsed start (event_end last e) - elapsed start last).

Lemma elapsed_mono a b : a <= b -> elapsed start a <= elapsed start b.
Proof. unfold elapsed, saturating_sub. lia. Qed.

(** An event that does not ask the limiter. *)
Lemma idle_pays last s e b s' r :
  filter_at last s b -> event_readings last e -> filter_step s e = Ret (s', r) -> passed e r = 0 ->
  rate_limiter (filter s') = rate_limiter (filter s) ->
  raw_packets_received (filter s') = raw_packets_received (filter s) ->
  enabled (filter s') = enabled (filter s) -> ip ∉ permit_ips (bans s') -> ban_duration (filter s') = ban_duration (filter s) ->
  step_pays last s e b.
Proof.
  intros [Hl Hc Hca Hw Hen Hp Hbn] He%event_end_later E Hpass E1 E2 E3 Hp' E4.
  pose proof (elapsed_mono _ _ He). exists s', r, b. split_and!; [done| |].
  - split; [by rewrite E1|lia|rewrite E2; by eapply cache_later|by rewrite E2|by rewrite E3|done|unfold bans_ok; by rewrite E4].
  - rewrite Hpass. pose proof (credit_advance b _ _ H). lia.
Qed.

Hypothesis far_enough : earliest + from_secs MOVING_WINDOW <= start.

Lemma initial_pays last s r src b :
  start <= last -> filter_at last s b -> event_readings last (FInitial r src) ->
  elapsed start (event_end last (FInitial r src)) <= horizon -> step_pays last s (FInitial r src) b.
Proof.
  intros Hlast Hat Hr Hh. pose proof Hat as [(rl & Erl & Hlim) Hclk Hca Hw Hen Hp Hbn].
  assert (forall s' r', filter_step s (FInitial r src) = Ret (s', r') -> s' = s ->
    passed (FInitial r src) r' = 0 -> step_pays last s (FInitial r src) b) as Hidle.
  { intros s' r' E -> Hpass. by eapply idle_pays. }
  cbn [filter_step] in Hidle. unfold initial_pass in Hidle.
  destruct (decide (SocketAddr.ip src ∈ permit_ips (bans s))) as [Hin|Hin].
  { eapply Hidle; [done|done|]. simpl. rewrite decide_False; [done|]. intros <-. done. }
  destruct (decide (is_Some (ban_ips (bans s) !! SocketAddr.ip src))) as [Hb|Hb].
  { eapply Hidle; [done|done|]. simpl. by case_decide. }
  clear Hidle. destruct Hr as (Hbt & H1 & H2 & H3). unfold from_secs, MOVING_WINDOW in *.
  destruct (cache_insert_ok earliest last (raw_packets_received (filter s)) _ _ (at_insert r) src Hca Hbt)
    as (cache & acc & Ec & Hca' & _ & Hw' & _ & _); [unfold from_secs; rewrite Hw; unfold MOVING_WINDOW; lia|unfold from_secs; lia|].
  assert (last <= at_insert r) by (destruct Hbt as [Hbt _]; specialize (Hbt 0%nat); lia).
  set (t1 := elapsed start (at_limit r)). set (t2 := elapsed start (at_total r)).
  assert (elapsed start last <= t1) by (apply elapsed_mono; lia). assert (t1 <= t2) by (apply elapsed_mono; lia).
  assert (t2 <= elapsed start (event_end last (FInitial r src))) as Hend by (apply elapsed_mono; simpl; lia).
  destruct (limiter_pays rl b (elapsed start last) (at_limit r) (LIp (SocketAddr.ip src)) Hlim)
    as (rl1 & r1 & b1 & E1 & Hlim1 & Hc1 & Hp1); [fold t1; lia|fold t1; lia|]. fold t1 in Hp1, Hc1.
  unfold step_pays. cbn [filter_step]. unfold initial_pass. rewrite decide_False, decide_False by done.
  rewrite Ec. cbn [mbind outcome_bind enabled with_packets rate_limiter]. rewrite Hen, Erl. cbn [negb].
  rewrite E1. cbn [mbind outcome_bind].
  destruct r1 as [u|err].
  - destruct (limiter_pays rl1 b1 t1 (at_total r) Total Hlim1) as (rl2 & r2 & b2 & E2 & Hlim2 & Hc2 & Hp2);
      [fold t2; lia|fold t2; lia|]. fold t2 in Hp2, Hc2. rewrite E2. cbn [mbind outcome_bind].
    eexists _, _, b2. split_and!; [done| |].
    + split; simpl; [by eexists|by rewrite Hc2| |by rewrite Hw'|done|done|done]. eapply cache_later; [|done]. lia.
    + assert (passed (FInitial r src) match r2 with Ok _ => true | Err _ => false end <= grants (LIp (SocketAddr.ip src)) (Ok u)) as Hpass.
      { unfold passed, grants. repeat case_decide; destruct r2; simpl; try done; congruence || lia. }
      assert (cost b1 kind = cost b kind) as Hcost by (by rewrite (proj2 (proj2 (proj2 Hlim1))), (proj2 (proj2 (proj2 Hlim)))).
      assert (0 <= cost b kind) by apply Hlim.
      pose proof (credit_advance b2 t2 (elapsed start (event_end last (FInitial r src))) ltac:(lia)).
      simpl grants in Hp2. unfold grants in Hp2 at 1. destruct r2; rewrite ?decide_False in Hp2 by done; nia.
  - assert (elapsed start (at_ban r) <= horizon) as Hban by (etrans; [|exact Hh]; apply elapsed_mono; simpl; lia).
    rewrite (ban_in_time s (at_ban r) _ Hbn Hban) by done. cbn [mbind outcome_bind]. eexists _, _, b1. split_and!; [done| |].
    + split; simpl; [by eexists| | |by rewrite Hw'|done|done|done].
      * rewrite Hc1. apply elapsed_mono. lia.
      * eapply cache_later; [|done]. lia.
    + assert (passed (FInitial r src) false = 0) as -> by (simpl; by case_decide).
      pose proof (credit_advance b1 t1 (elapsed start (event_end last (FInitial r src))) ltac:(lia)).
      simpl grants in Hp1. lia.
Qed.

Lemma final_pays last s r addr b :
  start <= last -> filter_at last s b -> event_readings last (FFinal r addr) ->
  elapsed start (event_end last (FFinal r addr)) <= horizon -> step_pays last s (FFinal r addr) b.
Proof.
  intros Hlast Hat Hr Hh. pose proof Hat as [(rl & Erl & Hlim) Hclk Hca Hw Hen Hp Hbn].
  assert (forall s' r', filter_step s (FFinal r addr) = Ret (s', r') -> s' = s -> step_pays last s (FFinal r addr) b) as Hidle.
  { intros s' r' E ->. by eapply idle_pays. }
  cbn [filter_step] in Hidle. unfold final_pass in Hidle.
  destruct (decide (node_id addr ∈ permit_nodes (bans s))) as [Hin|Hin]; [by eapply Hidle|].
  destruct (decide (is_Some (ban_nodes (bans s) !! node_id addr))) as [Hb|Hb]; [by eapply Hidle|].
  clear Hidle. simpl in Hr, Hh. set (t1 := elapsed start (at_limit r)).
  assert (elapsed start last <= t1) by (apply elapsed_mono; lia).
  assert (t1 <= elapsed start (at_ban r)) by (apply elapsed_mono; lia).
  destruct (limiter_pays rl b (elapsed start last) (at_limit r) (LNodeId (node_id addr)) Hlim)
    as (rl1 & r1 & b1 & E1 & Hlim1 & Hc1 & Hp1); [fold t1; lia|fold t1; lia|]. fold t1 in Hp1, Hc1.
  assert (credit b1 t1 <= credit b (elapsed start last) + (t1 - elapsed start last)) as Hcr.
  { unfold grants in Hp1. destruct r1; rewrite ?decide_False in Hp1 by done; lia. }
  pose proof (credit_advance b1 t1 (elapsed start (at_ban r)) ltac:(lia)).
  unfold step_pays. cbn [filter_step event_end passed]. unfold final_pass. rewrite decide_False, decide_False by done.
  rewrite Hen, Erl. cbn [negb]. rewrite E1. cbn [mbind outcome_bind]. rewrite Z.mul_0_r.
  destruct r1 as [u|err].
  - match goal with |- context [check_nodes_per_ip ?s1 _ _] => set (s2 := s1 : St) end.
    destruct (check_nodes_returns s2 (at_ban r) addr Hbn Hh) as [[s' r'] Ech]. rewrite Ech. apply check_nodes_frame in Ech as (F1 & F2 & F3 & F4 & F5).
    simpl in F1, F2, F3, F4, F5. exists s', r', b1. split_and!; [done| |lia].
    split; [rewrite F1; by eexists|lia|rewrite F2; by eapply cache_later; [|done]; lia|by rewrite F2|by rewrite F3|by rewrite F4|].
    unfold bans_ok. by rewrite F5.
  - rewrite (ban_in_time s (at_ban r) _ Hbn Hh) by done. cbn [mbind outcome_bind].
    destruct (count_ban _ _) as [f' reached] eqn:Ecb. apply count_ban_frame in Ecb as (_ & _ & F1 & F2 & F3 & F4). simpl in F1, F2, F3, F4.
    eexists _, _, b1. split_and!; [done| |lia].
    split; simpl; [by eexists|lia|rewrite F2; by eapply cache_later; [|done]; lia|by rewrite F2|by rewrite F3|by destruct reached|].
    unfold bans_ok. simpl. by rewrite F4.
Qed.

Lemma filter_pays last s e b :
  start <= last -> filter_at last s b -> event_readings last e -> not_permitted e ->
  elapsed start (event_end last e) <= horizon -> step_pays last s e b.
Proof.
  intros Hlast Hat Hr Hnp Hh. destruct e as [r src|r addr|now|l]; [by apply initial_pays|by apply final_pays|..].
  - pose proof Hat as [(rl & Erl & Hlim) Hclk Hca Hw Hen Hp Hbn]. simpl in Hr, Hh.
    pose proof (elapsed_mono last now Hr).
    destruct (prune_pays rl b (elapsed start last) now Hlim) as (b' & Hlim' & Hc' & Hp'); [lia|done|].
    exists (prune_limiter s now), true, b'. split_and!; [done| |simpl; lia]. unfold prune_limiter. rewrite Erl.
    split; simpl; [by eexists|lia|by eapply cache_later|done|done|done|done].
  - by eapply idle_pays.
Qed.

(** The packets of the address that pass in a history. *)
Definition passes (evs : list filter_event) (rs : list bool) : Z := foldr Z.add 0 (zip_with passed evs rs).

Lemma run_pays last s evs b :
  start <= last -> filter_at last s b -> events_ok last evs -> Forall not_permitted evs ->
  elapsed start (last_end last evs) <= horizon ->
  exists s' rs b', run_filter s evs = Ret (s', rs) /\ filter_at (last_end last evs) s' b' /\
    cost b kind * passes evs rs + credit b' (elapsed start (last_end last evs)) <=
    credit b (elapsed start last) + (elapsed start (last_end last evs) - elapsed start last).
Proof.
  revert last s b. induction evs as [|e evs IH]; intros last s b Hlast Hat Hok Hnp Hh.
  - exists s, [], b. split_and!; [done|done|]. unfold passes. simpl. lia.
  - destruct Hok as [He Hok]. apply Forall_cons in Hnp as [Hne Hnp]. simpl in Hh. cbn [last_end run_filter].
    pose proof (event_end_later _ _ He). pose proof (last_end_later _ _ Hok) as Hle.
    destruct (filter_pays last s e b) as (s1 & r & b1 & -> & Hat1 & Hp1); [done..| |].
    { pose proof (elapsed_mono _ _ Hle). lia. }
    cbn [mbind outcome_bind].
    destruct (IH (event_end last e) s1 b1) as (s2 & rs & b2 & -> & Hat2 & Hp2); [lia|done..|].
    assert (cost b1 kind = cost b kind) as Hcost.
    { destruct Hat as [(? & _ & Hl) _ _ _ _ _ _], Hat1 as [(? & _ & Hl1) _ _ _ _ _ _].
      by rewrite (proj2 (proj2 (proj2 Hl1))), (proj2 (proj2 (proj2 Hl))). }
    cbn [mbind outcome_bind]. exists s2, (r :: rs), b2. split_and!; [done|done|].
    unfold passes in *. cbn [zip_with foldr]. rewrite Hcost in Hp2. lia.
Qed.
(** ** The filter returns *)

(** What keeps the filter from panicking, enabled or not, with a limiter or without. *)
Record filter_live (last : Z) s : Prop := {
  live_limiter rl : rate_limiter (filter s) = Some rl -> exists b, limiter_at rl b /\ clock b <= elapsed start last;
  live_cache : cache_ok last (raw_packets_received (filter s));
  live_window : time_window (raw_packets_received (filter s)) = MOVING_WINDOW;
  live_bans : bans_ok s;
}.

Lemma live_later last last' s : last <= last' -> filter_live last s -> filter_live last' s.
Proof.
  intros Hl [H1 H2 H3 H4]. split; [|by eapply cache_later|done|done]. intros rl E. destruct (H1 rl E) as (b & ? & ?).
  exists b. split; [done|]. pose proof (elapsed_mono _ _ Hl). lia.
Qed.

(** The filter after the limiter answered. *)
Lemma live_limited last s rl now k :
  start <= last -> filter_live last s -> rate_limiter (filter s) = Some rl ->
  last <= now -> elapsed start now <= horizon ->
  exists rl' res, RateLimiter.allows rl now k = Ret (rl', res) /\
    forall s', rate_limiter (filter s') = Some rl' ->
      raw_packets_received (filter s') = raw_packets_received (filter s) ->
      ban_duration (filter s') = ban_duration (filter s) -> filter_live now s'.
Proof.
  intros Hs [H1 H2 H3 H4] Erl Hn Hh. destruct (H1 rl Erl) as (b & Hb & Hc). pose proof (elapsed_mono _ _ Hn).
  destruct (limiter_pays rl b (elapsed start last) now k Hb) as (rl' & res & b' & E & Hb' & Hc' & _); [lia|done|].
  exists rl', res. split; [done|]. intros s' E1 E2 E3. split; rewrite ?E2; [|by eapply cache_later|done|unfold bans_ok; by rewrite E3].
  intros rl2. rewrite E1. intros [= <-]. exists b'. split; [done|lia].
Qed.

Lemma live_frame last s s' :
  filter_live last s -> rate_limiter (filter s') = rate_limiter (filter s) ->
  raw_packets_received (filter s') = raw_packets_received (filter s) -> ban_duration (filter s') = ban_duration (filter s) ->
  filter_live last s'.
Proof. intros [H1 H2 H3 H4] E1 E2 E3. unfold bans_ok in H4. split; unfold bans_ok; rewrite ?E1, ?E2, ?E3; done. Qed.

Lemma initial_live last s r src :
  start <= last -> filter_live last s -> event_readings last (FInitial r src) ->
  elapsed start (event_end last (FInitial r src)) <= horizon ->
  exists s' res, initial_pass earliest s r src = Ret (s', res) /\ filter_live (event_end last (FInitial r src)) s'.
Proof.
  intros Hlast Hat Hr Hh. pose proof (event_end_later _ _ Hr) as Hle.
  pose proof (live_later _ _ _ Hle Hat) as Hend. pose proof Hat as [Hl Hca Hw Hbn].
  unfold initial_pass. case_decide; [by eexists _, _|]. case_decide; [by eexists _, _|]. clear Hend.
  destruct Hr as (Hbt & H1 & H2 & H3). unfold from_secs, MOVING_WINDOW in *.
  destruct (cache_insert_ok earliest last (raw_packets_received (filter s)) _ _ (at_insert r) src Hca Hbt)
    as (cache & acc & Ec & Hca' & _ & Hw' & _ & _); [unfold from_secs; rewrite Hw; unfold MOVING_WINDOW; lia|unfold from_secs; lia|].
  assert (last <= at_insert r) by (destruct Hbt as [Hbt _]; specialize (Hbt 0%nat); lia).
  rewrite Ec. cbn [mbind outcome_bind enabled with_packets rate_limiter].
  assert (forall m, filter_live (at_insert r) (mkState (with_packets cache (filter s)) (bans s) m)) as Hlive.
  { intros m. eapply (live_later last (at_insert r)) in Hat as [Hl' _ _ _]; [|done]. split; simpl; [done|done|by rewrite Hw'|done]. }
  specialize (Hlive (length (inner cache))). pose proof (elapsed_mono (at_total r) _ (Z.le_max_r (at_ban r) (at_total r))).
  pose proof (elapsed_mono (at_limit r) (at_total r) H3). simpl in Hh.
  destruct (negb _); [eexists _, _; split; [done|]; eapply live_later; [|done]; simpl; lia|].
  destruct (rate_limiter (filter s)) as [rl|] eqn:Erl; [|eexists _, _; split; [done|]; eapply live_later; [|done]; simpl; lia].
  destruct (live_limited (at_insert r) _ rl (at_limit r) (LIp (SocketAddr.ip src)) ltac:(lia) Hlive Erl H1 ltac:(lia)) as (rl1 & r1 & -> & Hl1).
  cbn [mbind outcome_bind]. destruct r1 as [u|err].
  - set (s1 := mkState (with_rate_limiter rl1 (with_packets cache (filter s))) (bans s) (length (inner cache)) : St).
    destruct (live_limited (at_limit r) s1 rl1 (at_total r) Total ltac:(lia) (Hl1 s1 eq_refl eq_refl eq_refl) eq_refl H3 ltac:(lia))
      as (rl2 & r2 & -> & Hl2).
    cbn [mbind outcome_bind]. eexists _, _. split; [done|]. eapply live_later; [|by apply Hl2]. simpl. lia.
  - assert (elapsed start (at_ban r) <= horizon) as Hban by (etrans; [|exact Hh]; apply elapsed_mono; simpl; lia).
    rewrite (ban_in_time s (at_ban r) _ Hbn Hban) by done. cbn [mbind outcome_bind].
    eexists _, _. split; [done|]. eapply live_later; [|by apply Hl1]. simpl. lia.
Qed.

Lemma final_live last s r addr :
  start <= last -> filter_live last s -> event_readings last (FFinal r addr) ->
  elapsed start (event_end last (FFinal r addr)) <= horizon ->
  exists s' res, final_pass s r addr = Ret (s', res) /\ filter_live (event_end last (FFinal r addr)) s'.
Proof.
  intros Hlast Hat Hr Hh. pose proof (event_end_later _ _ Hr) as Hle.
  pose proof (live_later _ _ _ Hle Hat) as Hend. pose proof (live_bans _ _ Hat) as Hbn. simpl in Hr, Hh. cbn [event_end] in *.
  unfold final_pass. case_decide; [by eexists _, _|]. case_decide; [by eexists _, _|].
  destruct (negb _); [by eexists _, _|]. destruct (rate_limiter (filter s)) as [rl|] eqn:Erl.
  - pose proof (elapsed_mono (at_limit r) (at_ban r) ltac:(lia)).
    destruct (live_limited last s rl (at_limit r) (LNodeId (node_id addr)) Hlast Hat Erl ltac:(lia) ltac:(lia)) as (rl1 & r1 & -> & Hl1).
    cbn [mbind outcome_bind]. destruct r1 as [u|err].
    + match goal with |- context [check_nodes_per_ip ?s1 _ _] => set (s2 := s1 : St) end.
      destruct (check_nodes_returns s2 (at_ban r) addr Hbn Hh) as [[s' r'] Ech]. rewrite Ech. apply check_nodes_frame in Ech as (F1 & F2 & _ & _ & F5).
      eexists _, _. split; [done|]. eapply live_later; [|by apply Hl1]. lia.
    + rewrite (ban_in_time s (at_ban r) _ Hbn Hh) by done. cbn [mbind outcome_bind].
      destruct (count_ban _ _) as [f' reached] eqn:Ecb. eexists _, _. split; [done|].
      apply count_ban_frame in Ecb as (_ & _ & F1 & F2 & _ & F4). eapply live_later; [|by apply Hl1]. lia.
  - destruct (check_nodes_returns s (at_ban r) addr Hbn Hh) as [[s' r'] Ech]. rewrite Ech. apply check_nodes_frame in Ech as (F1 & F2 & _ & _ & F5).
    eexists _, _. split; [done|]. by eapply live_frame.
Qed.

Lemma prune_live last s now :
  filter_live last s -> last <= now -> elapsed start now <= horizon -> filter_live now (prune_limiter s now).
Proof.
  intros Hat Hle Hh. pose proof (live_later _ _ _ Hle Hat) as Hend. unfold prune_limiter.
  destruct (rate_limiter (filter s)) as [rl|] eqn:Erl; [|done]. destruct Hat as [Hl _ _ _], Hend as [_ H2 H3 H4].
  destruct (Hl rl Erl) as (b & Hb & Hc). pose proof (elapsed_mono _ _ Hle).
  destruct (prune_pays rl b (elapsed start last) now Hb) as (b' & Hb' & Hc' & _); [lia|done|].
  split; simpl; [|done|done|done]. intros rl' [= <-]. exists b'. split; [done|lia].
Qed.
End Rate.

Lemma length_run_filter s evs s' rs : run_filter s evs = Ret (s', rs) -> length rs = length evs.
Proof.
  revert s s' rs. induction evs as [|e evs IH]; intros s s' rs; simpl; [by intros [= <- <-]|].
  destruct (filter_step s e) as [[s1 r]|]; simpl; [|done].
  destruct (run_filter s1 evs) as [[s2 rs']|] eqn:E; simpl; [|done]. intros [= <- <-]. simpl. f_equal. by eapply IH.
Qed.

Lemma last_end_app last evs1 evs2 : last_end last (evs1 ++ evs2) = last_end (last_end last evs1) evs2.
Proof. revert last. induction evs1 as [|e evs1 IH]; intros last; simpl; auto. Qed.

(** A new filter whose limiter was just built. *)
Lemma new_fields debug config d f :
  new debug config d = Ret f ->
  enabled f = config_enabled config /\ rate_limiter f = config_rate_limiter config /\ ban_duration f = d /\
  time_window (raw_packets_received f) = MOVING_WINDOW /\ inner (raw_packets_received f) = [] /\
  known_addrs f = lru_new KNOWN_ADDRS_SIZE /\ max_nodes_per_ip f = config_max_nodes_per_ip config.
Proof.
  unfold new, PacketCache.new. intros (c & (capacity & _ & E)%bind_ret_inv & [= <-])%bind_ret_inv.
  case_decide; [|done]. by injection E as <-.
Qed.

Lemma empty_cache_ok last (c : ReceivedPacketCache SocketAddr) : inner c = [] -> cache_ok last c.
Proof. intros E. split; rewrite E; [done|]. intros t. simpl. apply Nat.le_0_l. Qed.

(** The capacity of the cache is one that can be asked for. *)
Definition capacity_ok (config : FilterConfig) : Prop :=
  0 <= expected_packets_per_second config /\
  expected_packets_per_second config * MOVING_WINDOW * RECEIVED_PACKET_SIZE <= ISIZE_MAX.

Lemma new_returns debug config d : capacity_ok config -> exists f : Filter KA BA, new debug config d = Ret f.
Proof.
  unfold capacity_ok, new, PacketCache.new, MOVING_WINDOW, RECEIVED_PACKET_SIZE, ISIZE_MAX. intros [H0 Hc].
  rewrite Z2Nat.id by done. rewrite arith_ok by lia. cbn [mbind outcome_bind]. rewrite decide_True by done. by eexists.
Qed.

Lemma new_filter_at self start horizon ip debug config rl d f l n :
  new debug config d = Ret f -> ban_representable (start + horizon) d -> RateLimiter.build self start = Ok rl -> quotas_ok self horizon ->
  config_enabled config = true -> config_rate_limiter config = Some rl -> ip ∉ permit_ips l ->
  filter_at self start horizon ip start (mkState f l n : St) (quota_buckets self).
Proof.
  intros (E1 & E2 & E3 & E4 & E5 & _)%new_fields Hd Hb Hq He Hrl Hl.
  split; simpl; [|unfold elapsed, saturating_sub; lia|by apply empty_cache_ok|done|congruence|done|].
  - rewrite E2. exists rl. split; [done|]. split_and!; [by apply build_refines|by apply (quota_buckets_credit self horizon)|done|done].
  - unfold bans_ok. simpl. by rewrite E3.
Qed.

Lemma new_live self start horizon debug config d f l n :
  new debug config d = Ret f -> ban_representable (start + horizon) d ->
  quotas_ok self horizon ->
  (forall rl, config_rate_limiter config = Some rl -> RateLimiter.build self start = Ok rl) ->
  filter_live self start horizon start (mkState f l n : St).
Proof.
  intros (E1 & E2 & E3 & E4 & E5 & _)%new_fields Hd Hq Hrl.
  split; simpl; [|by apply empty_cache_ok|done|unfold bans_ok; simpl; by rewrite E3]. rewrite E2.
  intros rl E. exists (quota_buckets self). split; [|unfold elapsed, saturating_sub; simpl; lia].
  split_and!; [apply build_refines; [done|by apply Hrl]|by apply (quota_buckets_credit self horizon)|done|done].
Qed.

(** the rate limit of the filter holds for the packets themselves.  With the
    filter enabled and a quota per address, in every history of packets, prunings
    and changes of the permit and ban list that do not permit the address, the
    filter returns, and the packets of the address that pass the first check in
    any window of the history cost at most the replenish time plus the time that
    passes. *)
Theorem filter_ip_windows self start horizon debug config rl d f l ip q pre mid post :
  new debug config d = Ret f -> ban_representable (start + horizon) d ->
  RateLimiter.build self start = Ok rl -> quotas_ok self horizon -> quota_of self (LIp ip) = Some q ->
  config_enabled config = true -> config_rate_limiter config = Some rl ->
  ip ∉ permit_ips l -> Forall (not_permitted ip) (pre ++ mid ++ post) ->
  earliest + from_secs MOVING_WINDOW <= start -> events_ok start (pre ++ mid ++ post) ->
  last_end start (pre ++ mid ++ post) <= start + horizon ->
  exists s rs, run_filter (mkState f l 0 : St) (pre ++ mid ++ post) = Ret (s, rs) /\
    token_time q * passes ip mid (take (length mid) (drop (length pre) rs)) <=
    replenish_all_every q + (last_end start (pre ++ mid) - last_end start pre).
Proof.
  intros Hnew Hd Hb Hq Hqi He Hrl Hl Hnp Hfar Hok Hh.
  pose proof (new_filter_at self start horizon ip debug config rl d f l 0 Hnew Hd Hb Hq He Hrl Hl) as Hat.
  apply events_ok_app in Hok as [Hok1 Hok]. pose proof (last_end_later _ _ Hok1).
  apply events_ok_app in Hok as [Hok2 Hok3]. pose proof (last_end_later _ _ Hok2). pose proof (last_end_later _ _ Hok3).
  apply Forall_app in Hnp as [Hnp1 [Hnp2 Hnp3]%Forall_app]. rewrite !last_end_app in *.
  set (t1 := last_end start pre) in *. set (t2 := last_end t1 mid) in *.
  assert (forall t, t <= start + horizon -> start <= t -> elapsed start t <= horizon) as Hel
    by (intros t; unfold elapsed, saturating_sub; lia).
  destruct (run_pays self start horizon ip Hfar start _ pre _ ltac:(lia) Hat Hok1 Hnp1) as (s1 & rs1 & b1 & E1 & Hat1 & Hp1);
    [apply Hel; lia|]. fold t1 in Hat1, Hp1.
  destruct (run_pays self start horizon ip Hfar t1 s1 mid b1 ltac:(lia) Hat1 Hok2 Hnp2) as (s2 & rs2 & b2 & E2 & Hat2 & Hp2);
    [apply Hel; lia|]. fold t2 in Hat2, Hp2.
  destruct (run_pays self start horizon ip Hfar t2 s2 post b2 ltac:(lia) Hat2 Hok3 Hnp3) as (s3 & rs3 & b3 & E3 & Hat3 & _);
    [apply Hel; lia|].
  exists s3, (rs1 ++ rs2 ++ rs3). rewrite !run_filter_app, E1. cbn [mbind outcome_bind].
  rewrite run_filter_app, E2. cbn [mbind outcome_bind]. rewrite E3. split; [done|].
  apply length_run_filter in E1, E2. rewrite drop_app_length', take_app_length' by done.
  destruct Hat1 as [(? & _ & _ & _ & Hcap & Hcost) _ _ _ _ _ _], Hat2 as [(? & _ & _ & Hcr & _ & _) Hck _ _ _ _ _].
  simpl in Hqi. assert (cost b1 (LIp ip) = token_time q) as Hc1 by (rewrite Hcost; simpl; by rewrite Hqi).
  assert (credit ip b1 (elapsed start t1) <= replenish_all_every q) as Hc2.
  { unfold credit. rewrite Hcap. simpl. rewrite Hqi. simpl. lia. }
  assert (0 <= credit ip b2 (elapsed start t2)) by (unfold credit; specialize (Hcr (LIp ip)); lia).
  rewrite Hc1 in Hp2. unfold elapsed, saturating_sub in *. lia.
Qed.

(** ** Nodes per address *)

Section NodesPerIp.
Context `{!LruCacheLaws KA IpAddr (gset NodeId)}.
Variable n : nat.

(** Every address is known with fewer than [n] node ids. *)
Record few_nodes s : Prop := {
  few_known a ids : (a, ids) ∈ lru_iter (known_addrs (filter s)) -> (size ids < n)%nat;
  few_cap : lru_cap (known_addrs (filter s)) = KNOWN_ADDRS_SIZE;
  few_max : max_nodes_per_ip (filter s) = Some n;
}.

Lemma elem_without {V} (k : IpAddr) (e : IpAddr * V) l : e ∈ without k l -> e ∈ l.
Proof. unfold without. by intros [_ ?]%list_elem_of_filter. Qed.

(** After a node id is noted its address is at the front. *)
Lemma note_node_spec (f f' : Filter KA BA) a id k :
  note_node f a id = (f', k) -> (forall a ids, (a, ids) ∈ lru_iter (known_addrs f) -> (size ids < n)%nat) ->
  lru_cap (known_addrs f) = KNOWN_ADDRS_SIZE ->
  exists ids, assoc a (lru_iter (known_addrs f')) = Some ids /\ id ∈ ids /\ size ids = k /\
    (forall a' ids', (a', ids') ∈ lru_iter (known_addrs f') -> a' <> a -> (size ids' < n)%nat) /\
    (forall ids', (a, ids') ∈ lru_iter (known_addrs f') -> ids' = ids) /\
    lru_cap (known_addrs f') = KNOWN_ADDRS_SIZE /\ max_nodes_per_ip f' = max_nodes_per_ip f.
Proof.
  unfold note_node. intros E Hf Hcap. rewrite lru_get_iter in E.
  assert (forall ids', (a, ids') ∉ without a (lru_iter (known_addrs f))) as Hno.
  { intros ids' Hin. apply (without_not_in a (lru_iter (known_addrs f))).
    apply (list_elem_of_fmap_2' fst _ (a, ids')); done. }
  destruct (assoc a (lru_iter (known_addrs f))) as [ids|] eqn:Ea; injection E as <- <-; simpl.
  - exists ({[id]} ∪ ids). rewrite lru_iter_get_mut, Ea, lru_cap_get_mut. simpl.
    split_and!; [unfold assoc; simpl; by rewrite bool_decide_eq_true_2|set_solver|done| | |done|done].
    + intros a' ids' [[= -> ->]|Hin]%elem_of_cons Hne; [done|]. by eapply Hf, elem_without.
    + intros ids' [[= ->]|Hin]%elem_of_cons; [done|]. by apply Hno in Hin.
  - exists {[id]}. rewrite lru_iter_put, lru_cap_put, Hcap. cbn [take KNOWN_ADDRS_SIZE].
    split_and!; [unfold assoc; simpl; by rewrite bool_decide_eq_true_2|set_solver|by rewrite size_singleton| | |done|done].
    + intros a' ids' [[= -> ->]|Hin]%elem_of_cons Hne; [done|].
      eapply Hf, elem_without. eapply elem_of_take in Hin as (j & Hj & _). by eapply list_elem_of_lookup_2.
    + intros ids' [[= ->]|Hin]%elem_of_cons; [done|].
      apply elem_of_take in Hin as (j & Hj & _). apply list_elem_of_lookup_2 in Hj. by apply Hno in Hj.
Qed.

Lemma check_nodes_few s t addr s' r :
  few_nodes s -> check_nodes_per_ip s t addr = Ret (s', r) ->
  few_nodes s' /\
  (r = true -> exists ids, assoc (SocketAddr.ip (socket_addr addr)) (lru_iter (known_addrs (filter s'))) = Some ids /\
     node_id addr ∈ ids /\ (size ids < n)%nat).
Proof.
  intros [Hf Hc Hm]. unfold check_nodes_per_ip. rewrite Hm.
  destruct (note_node _ _ _) as [f' k] eqn:En. destruct (note_node_spec _ _ _ _ _ En Hf Hc)
    as (ids & Ha & Hid & Hk & Hother & Hsame & Hc' & Hm'). rewrite Hm in Hm'.
  case_decide as Hd; [intros (u & _ & [= <- <-])%bind_ret_inv|intros [= <- <-]].
  - split; [|done]. split; simpl; [|by rewrite lru_cap_pop|done]. intros a ids'. rewrite lru_iter_pop. intros Hin.
    destruct (decide (a = SocketAddr.ip (socket_addr addr))) as [->|Hne].
    + exfalso. apply (without_not_in (SocketAddr.ip (socket_addr addr)) (lru_iter (known_addrs f'))).
      apply (list_elem_of_fmap_2' fst _ (SocketAddr.ip (socket_addr addr), ids')); done.
    + eapply Hother; [by eapply elem_without|done].
  - split; [|intros _; exists ids; simpl; split_and!; [done|done|lia]]. split; simpl; [|done|done].
    intros a ids' Hin. destruct (decide (a = SocketAddr.ip (socket_addr addr))) as [->|Hne]; [|by eapply Hother].
    rewrite (Hsame _ Hin). lia.
Qed.

Lemma few_frame s s' :
  few_nodes s -> known_addrs (filter s') = known_addrs (filter s) ->
  max_nodes_per_ip (filter s') = max_nodes_per_ip (filter s) -> few_nodes s'.
Proof. intros [Hf Hc Hm] E1 E2. split; rewrite ?E1, ?E2; done. Qed.

Lemma final_pass_few s r addr s' res :
  few_nodes s -> final_pass s r addr = Ret (s', res) ->
  few_nodes s' /\
  (res = true -> enabled (filter s) = true -> node_id addr ∉ permit_nodes (bans s) ->
   exists ids, assoc (SocketAddr.ip (socket_addr addr)) (lru_iter (known_addrs (filter s'))) = Some ids /\
     node_id addr ∈ ids /\ (size ids < n)%nat).
Proof.
  intros Hf. unfold final_pass. case_decide; [by intros [= <- <-]|]. case_decide; [by intros [= <- <-]|].
  destruct (enabled (filter s)); [|by intros [= <- <-]]. cbn [negb].
  destruct (rate_limiter (filter s)) as [rl|].
  - destruct (RateLimiter.allows _ _ _) as [[rl' [u|err]]|]; cbn [mbind outcome_bind]; [| |done].
    + intros E. apply check_nodes_few in E as [? ?]; [|by eapply few_frame]. naive_solver.
    + intros (u & _ & E)%bind_ret_inv. destruct (count_ban _ _) as [f' reached] eqn:Ec.
      apply count_ban_frame in Ec as (E1 & E2 & _). injection E as <- <-. split; [|done]. by eapply few_frame.
  - intros E. apply check_nodes_few in E as [? ?]; [|done]. naive_solver.
Qed.

Lemma initial_pass_few s r src s' res :
  few_nodes s -> initial_pass earliest s r src = Ret (s', res) -> few_nodes s'.
Proof.
  intros Hf. unfold initial_pass. case_decide; [by intros [= <- <-]|]. case_decide; [by intros [= <- <-]|].
  destruct (cache_insert _ _ _ _ _ _) as [[c b]|]; cbn [mbind outcome_bind]; [|done].
  destruct (negb _); [intros [= <- <-]; by eapply few_frame|].
  destruct (rate_limiter _) as [rl|]; [|intros [= <- <-]; by eapply few_frame].
  destruct (RateLimiter.allows _ _ _) as [[rl' [u|err]]|]; cbn [mbind outcome_bind]; [| |done].
  - destruct (RateLimiter.allows _ _ _) as [[rl'' res2]|]; cbn [mbind outcome_bind]; [|done].
    intros [= <- <-]. by eapply few_frame.
  - intros (u & _ & [= <- <-])%bind_ret_inv. by eapply few_frame.
Qed.

Lemma run_few s evs s' rs : few_nodes s -> run_filter s evs = Ret (s', rs) -> few_nodes s'.
Proof.
  revert s s' rs. induction evs as [|e evs IH]; intros s s' rs Hf; simpl; [by intros [= <- <-]|].
  destruct (filter_step s e) as [[s1 r]|] eqn:E; simpl; [|done].
  destruct (run_filter s1 evs) as [[s2 rs']|] eqn:E2; simpl; [|done]. intros [= <- <-]. eapply IH; [|done].
  destruct e; simpl in E.
  - by eapply initial_pass_few.
  - by eapply final_pass_few.
  - injection E as <- <-. unfold prune_limiter. destruct (rate_limiter _); [by eapply few_frame|done].
  - injection E as <- <-. by eapply few_frame.
Qed.
End NodesPerIp.

(** C30: with a limit of [n] nodes per address, at every point of every history
    each address in the table of the filter is known with fewer than [n] node
    ids, and a packet that passes the second check of an enabled filter comes
    from a node id that is among them (or is permitted): as long as an address
    stays in the table at most [n - 1] different node ids get through from it. *)
Theorem filter_nodes_per_ip `{!LruCacheLaws KA IpAddr (gset NodeId)} debug config ban_duration f l n evs (s : St) rs :
  new debug config ban_duration = Ret f -> config_max_nodes_per_ip config = Some n ->
  run_filter (mkState f l 0 : St) evs = Ret (s, rs) ->
  (forall a ids, (a, ids) ∈ lru_iter (known_addrs (filter s)) -> (size ids < n)%nat) /\
  forall r addr (s' : St), final_pass s r addr = Ret (s', true) ->
    enabled (filter s) = true -> node_id addr ∉ permit_nodes (bans s) ->
    exists ids, assoc (SocketAddr.ip (socket_addr addr)) (lru_iter (known_addrs (filter s'))) = Some ids /\
      node_id addr ∈ ids /\ (size ids < n)%nat.
Proof.
  intros (_ & _ & _ & _ & _ & Hk & Hm)%new_fields Hn E. assert (few_nodes n s) as Hf.
  { eapply run_few; [|exact E]. split; simpl; rewrite ?Hk, ?Hm; [|by rewrite lru_cap_new|done].
    intros a ids. rewrite lru_iter_new. by intros ?%elem_of_nil. }
  split; [apply Hf|]. intros r addr s' Ef Hen Hperm. by eapply final_pass_few.
Qed.
End Histories.

(** ** A filter with the default quotas *)
Module FilterSample.
#[export] Existing Instances RecencyList.recency_list RecencyList.recency_list_laws.

Notation KA := (RecencyList.RecencyList IpAddr (gset NodeId)).
Notation BA := (RecencyList.RecencyList IpAddr nat).

Definition source : SocketAddr := SockV4 (mkSocketAddrV4 [# x7f; x00; x00; x01] 9000).
Definition sender (id : byte) : NodeAddress := mkNodeAddress source (vreplicate 32 id).
Definition at_time (t : Z) : Readings := mkReadings (fun _ => t) (fun _ => t) t t t t.

(** The filter with the default quotas per address and node. *)
Definition limited (rl : RateLimiter.RateLimiter) : FilterConfig := mkFilterConfig true (Some rl) (Some 3%nat) (Some 2%nat).

(** The filter with a limit of nodes per address only. *)
Definition unlimited : FilterConfig := mkFilterConfig true None (Some 3%nat) None.

(** The answers of a new filter. *)
Definition verdicts (config : FilterConfig) (evs : list filter_event) : list bool :=
  match (f ← new (KA := KA) (BA := BA) true config None; run_filter 0 (mkState f PermitBan.default 0) evs) with
  | Ret (_, rs) => rs
  | Panic => []
  end.
End FilterSample.

Import FilterSample.

(** Two node ids get through from one address. *)
Lemma filter_nodes_per_ip_witness :
  let final id := FFinal (at_time 5) (sender id) in
  let evs := [final x01; final x02; final x01] in
  exists (f : Filter KA BA) s rs, new true unlimited None = Ret f /\
    run_filter 0 (mkState f PermitBan.default 0) evs = Ret (s, rs) /\
    rs = [true; true; true] /\ forall a ids, (a, ids) ∈ lru_iter (known_addrs (filter s)) -> (size ids < 3)%nat.
Proof.
  intros final evs. assert (verdicts unlimited evs = [true; true; true]) as Hv by (by vm_compute). unfold verdicts in Hv.
  destruct (new true unlimited None) as [f|] eqn:Ef; [|discriminate Hv]. cbn [mbind outcome_bind] in Hv.
  destruct (run_filter 0 (mkState f PermitBan.default 0) evs) as [[s rs]|] eqn:E; [|discriminate Hv].
  exists f, s, rs. split; [reflexivity|]. split; [exact E|]. split; [exact Hv|].
  apply (filter_nodes_per_ip (KA := KA) (BA := BA) 0 true unlimited None f PermitBan.default 3 evs s rs Ef eq_refl E).
Defined.
