(* ===== verification/Socket.v ===== *)
(** * The socket tasks (src/src/socket/mod.rs, recv.rs, send.rs)

    The task that receives datagrams passes them through the filter and the
    decoder to the handler; the task that sends encodes the packets of the
    handler.  What they share with other tasks, the expected responses and the
    global [PERMIT_BAN_LIST], is an argument and a result. *)

From S2P Require Import Prelude Bytes Key RateLimiter Packet NodeInfo Crypto Globals PacketCache Maps Filter.
From S2P Require Import ActiveRequests Session Handler.
Import Packet NodeInfo PermitBan Handler Filter.

Module RecvHandler.

(** With the gauges [bytes_recv] and [unsolicited_requests_per_window]. *)
Record RecvHandler (KA BA : Type) := mkRecv {
  node_id : NodeId;
  recv_filter : Filter KA BA;
  bytes_recv : Z;
  unsolicited : nat;
}.
Arguments mkRecv {KA BA} node_id recv_filter bytes_recv unsolicited.
Arguments node_id {KA BA} h : rename.
Arguments recv_filter {KA BA} h : rename.
Arguments bytes_recv {KA BA} h : rename.
Arguments unsolicited {KA BA} h : rename.

Section RecvHandler.
Context {Enr KA BA : Type} `{!EnrCodec Enr} `{!ProtocolIdentity} `{!Aes128Ctr}.
Context `{!LruCache KA IpAddr (gset NodeId)} `{!LruCache BA IpAddr nat}.
Variable earliest : Z.
Notation R := (RecvHandler KA BA).

(** The handler [spawn] starts. *)
Definition spawn (debug : bool) (filter_config : FilterConfig) (ban_duration : option Z) (local_node_id : NodeId) : outcome R :=
  filter ← Filter.new debug filter_config ban_duration;
  Ret (mkRecv local_node_id filter 0 0).

(** [set_flowinfo(0)] and [set_scope_id(0)] of the source. *)
Definition zero_scope (src_address : SocketAddr) : SocketAddr :=
  match src_address with
  | SockV6 a =>
      if decide (v6_flowinfo a <> 0%Z \/ v6_scope_id a <> 0%Z) then SockV6 (mkSocketAddrV6 (v6_ip a) (v6_port a) 0 0)
      else SockV6 a
  | SockV4 a => SockV4 a
  end.

Definition state (h : R) (l : PermitBanList) : State KA BA := mkState (recv_filter h) l (unsolicited h).
Definition with_state (h : R) (s : State KA BA) : R :=
  mkRecv (node_id h) (filter s) (bytes_recv h) (unsolicited_requests_per_window s).

(** [r1] and [r2] are the readings of the clock of the two passes; the result
    has the packet for the handler, if any. *)
Definition handle_inbound (h : R) (expected_responses : gmap SocketAddr Z) (l : PermitBanList) (r1 r2 : Readings)
    (src_address : SocketAddr) (length : nat) (recv_buffer : list byte)
    : outcome (R * PermitBanList * option (InboundPacket Enr)) :=
  let src_address := zero_scope src_address in
  let permitted := bool_decide (is_Some (expected_responses !! src_address)) in
  '(s, pass) ← (if permitted then Ret (state h l, true) else initial_pass earliest (state h l) r1 src_address);
  let h := with_state h s in
  let l := bans s in
  if negb pass then Ret (h, l, None)
  else
    match (data ← slice recv_buffer 0 length; decode (Enr := Enr) (node_id h) data) with
    | Abort => Panic
    | Throw _ => Ret (h, l, None)
    | Return (packet, authenticated_data) =>
        '(s, pass) ← (match src_id packet with
                      | Some node_id =>
                          if permitted then Ret (state h l, true)
                          else final_pass (state h l) r2 (mkNodeAddress src_address node_id)
                      | None => Ret (state h l, true)
                      end);
        let h := with_state h s in
        let l := bans s in
        if negb pass then Ret (h, l, None)
        else Ret (h, l, Some (mkInbound src_address (header packet) (message packet) authenticated_data))
    end.

(** The branches of the loop of [start]. *)
Definition on_datagram (h : R) (expected_responses : gmap SocketAddr Z) (l : PermitBanList) (r1 r2 : Readings)
    (src_address : SocketAddr) (length : nat) (recv_buffer : list byte)
    : outcome (R * PermitBanList * option (InboundPacket Enr)) :=
  let h := mkRecv (node_id h) (recv_filter h) (Metrics.add_bytes (bytes_recv h) (Z.of_nat length)) (unsolicited h) in
  handle_inbound h expected_responses l r1 r2 src_address length recv_buffer.

Definition on_interval (filter_enabled : bool) (h : R) (l : PermitBanList) (now : Z) : R :=
  if filter_enabled then with_state h (prune_limiter (state h l) now) else h.
End RecvHandler.
End RecvHandler.

Module SendHandler.

(** [Sock] stands for [Arc<UdpSocket>], [IoError] for [std::io::Error]. *)
Record SendHandler (Sock : Type) := mkSend {
  send_ipv4 : option Sock;
  send_ipv6 : option Sock;
}.
Arguments mkSend {Sock} send_ipv4 send_ipv6.
Arguments send_ipv4 {Sock} h : rename.
Arguments send_ipv6 {Sock} h : rename.

Inductive Error (IoError : Type) := Io (e : IoError) | SocketMismatch.
Arguments Io {IoError} e.
Arguments SocketMismatch {IoError}.

Record OutboundPacket (Enr : Type) := mkOutbound {
  out_node_address : NodeAddress;
  out_packet : Packet Enr;
}.
Arguments mkOutbound {Enr} out_node_address out_packet.
Arguments out_node_address {Enr} p : rename.
Arguments out_packet {Enr} p : rename.

Section SendHandler.
Context {Enr Sock IoError : Type} `{!EnrCodec Enr} `{!ProtocolIdentity} `{!Aes128Ctr}.
(** What [send_to] answers. *)
Variable send_to : Sock -> list byte -> SocketAddr -> result IoError nat.

(** [socket_for] is the match on the family of the address. *)
Definition socket_for (h : SendHandler Sock) (socket_addr : SocketAddr) : option Sock :=
  match socket_addr with SockV4 _ => send_ipv4 h | SockV6 _ => send_ipv6 h end.

Definition send (h : SendHandler Sock) (encoded_packet : list byte) (socket_addr : SocketAddr)
    : result (Error IoError) nat :=
  match socket_for h socket_addr with
  | None => Err SocketMismatch
  | Some socket =>
      match send_to socket encoded_packet socket_addr with Ok n => Ok n | Err e => Err (Io e) end
  end.

(** A packet of the handler in the loop of [start]: the counter [bytes_sent]
    after it, and what is written to which socket. *)
Definition on_packet (h : SendHandler Sock) (bytes_sent : Z) (packet : OutboundPacket Enr)
    : Z * option (Sock * list byte * SocketAddr) :=
  let encoded_packet := encode (out_packet packet) (NodeInfo.node_id (out_node_address packet)) in
  let addr := socket_addr (out_node_address packet) in
  (match send h encoded_packet addr with
   | Err _ => bytes_sent
   | Ok _ => Metrics.add_bytes bytes_sent (Z.of_nat (length encoded_packet))
   end, (fun socket => (socket, encoded_packet, addr)) <$> socket_for h addr).
End SendHandler.
End SendHandler.

Module Socket.

(** [new_socket] binds an address, or fails. *)
Definition new {Sock IoError : Type} (new_socket : SocketAddr -> result IoError Sock) (listen_config : ListenConfig.ListenConfig)
    : result IoError (Sock * option Sock * SendHandler.SendHandler Sock) :=
  match listen_config with
  | ListenConfig.Ipv4 ip port =>
      ipv4_socket ← new_socket (SockV4 (mkSocketAddrV4 ip port));
      Ok (ipv4_socket, None, SendHandler.mkSend (Some ipv4_socket) None)
  | ListenConfig.Ipv6 ip port =>
      ipv6_socket ← new_socket (SockV6 (mkSocketAddrV6 ip port 0 0));
      Ok (ipv6_socket, None, SendHandler.mkSend None (Some ipv6_socket))
  | ListenConfig.DualStack ipv4 ipv4_port ipv6 ipv6_port =>
      ipv4_socket ← new_socket (SockV4 (mkSocketAddrV4 ipv4 ipv4_port));
      ipv6_socket ← new_socket (SockV6 (mkSocketAddrV6 ipv6 ipv6_port 0 0));
      Ok (ipv4_socket, Some ipv6_socket, SendHandler.mkSend (Some ipv4_socket) (Some ipv6_socket))
  end.
End Socket.
