(* ===== verification/HandlerSample.v ===== *)
(** * Two concrete handlers

    Nodes with the keys 1 and 2 at 127.0.0.1 and 127.0.0.2, over the sample
    instances of the libraries' interfaces; random values and the clock are
    given by the tick. *)

From stdpp Require Import strings.
From S2P Require Import Prelude Bytes Key Rpc RlpSample Maps LruTimeCache Packet PacketProofs.
From S2P Require Import NodeInfo Crypto CryptoSample ActiveRequests Session Bucket Globals Handler.
Import Packet PacketSample NodeInfo RequestCall ActiveRequests Handler.

Module HandlerSample.

Export CryptoSample RlpSample PacketSample.
#[export] Existing Instances TimedMap.timed_map TimedMap.timed_map_laws TimedMap.timed_map_expiry AssocMap.assoc_map AssocMap.assoc_map_laws.

Notation D := (TimedMap.TimedMap MessageNonce NodeAddress).
Notation C := (TimedMap.TimedMap NodeAddress (Challenge (list byte))).
Notation SM := (AssocMap.AssocMap NodeAddress (Session.Session * Z)).
Notation OM := (AssocMap.AssocMap NodeAddress ((Rpc.RequestId * Session.Session) * Z)).

Definition byte_at (n : nat) : byte := byte_of_Z (Z.of_nat n).

(** The tick, as 8 bytes. *)
Definition tick_bytes (n : nat) : vec byte 8 := default (vreplicate 8 x00) (array_from (to_be_bytes 8 (Z.of_nat n))).

Definition sample_env (own : byte) : Env (list byte) := {|
  debug_assertions := false;
  now n := Z.of_nat n;
  local_enr _ := [own; x05; own];
  random_iv n := Z.of_nat n;
  random_nonce n := tick_bytes n;
  random_message_nonce n := vreplicate 4 x00 +++ tick_bytes n;
  random_id_nonce n := vreplicate 16 (byte_at n);
  random_fill n := Some (vreplicate 44 (byte_at n));
  random_request_id n := [byte_at n];
  random_key n := byte_at n;
  channel_open _ := true;
  now_ip n _ := Z.of_nat n;
  now_node n _ := Z.of_nat n;
|}.

Definition env_a : Env (list byte) := sample_env x01.
Definition env_b : Env (list byte) := sample_env x02.

(** One try per request, a request times out after 50 ticks, a session after 1000. *)
Definition sample_world (own : byte) : World (list byte) D C SM OM :=
  initial (Handler.new 1 (vreplicate 32 own) (Secp256k1 own) (ListenConfig.Ipv4 [# x7f; x00; x00; own] 9000) 50 1000 10).

Definition world_a := sample_world x01.
Definition world_b := sample_world x02.

Definition socket_of (own : byte) : SocketAddr := SockV4 (mkSocketAddrV4 [# x7f; x00; x00; own] 9000).
Definition address_of (own : byte) : NodeAddress := mkNodeAddress (socket_of own) (vreplicate 32 own).

(** The contact of the other node, with its record or without. *)
Definition contact_b : NodeContact (list byte) := mkContact (PubSecp256k1 x02) (socket_of x02) (Some [x02; x05; x02]).
Definition contact_b_raw : NodeContact (list byte) := mkContact (PubSecp256k1 x02) (socket_of x02) None.

(** Two requests with the same id, one of which waits for the session of the other; they time out. *)
Definition sample_events : list (Event (list byte)) :=
  [EvService (InRequest contact_b (Rpc.mkRequest [x07] (Rpc.Ping 1)));
   EvService (InRequest contact_b (Rpc.mkRequest [x07] (Rpc.Ping 1)));
   EvPollRequests; EvBannedNodesCheck; EvPollChallenges].
End HandlerSample.
