(* ===== verification/HandlerTriples.v ===== *)
(** * Every operation of the handler keeps the invariant

    One triple per operation of src/src/handler/mod.rs, by the sequence of its
    calls. *)

From stdpp Require Import strings.
From S2P Require Import Prelude Bytes Key Rpc Maps LruTimeCache Packet NodeInfo Crypto.
From S2P Require Import ActiveRequests Session Bucket Globals Handler HandlerLogic HandlerAccount.
From S2P Require Import HandlerInv.
Import Packet NodeInfo RequestCall ActiveRequests Handler.
Local Open Scope Z_scope.

(** The requests of outside in a list. *)
Definition ext_sum {X} (f : X -> HandlerReqId) (l : list X) (id : Rpc.RequestId) : Z :=
  Z.of_nat (sum_list_with (fun x => ext (f x) id) l).

Lemma ext_sum_nil {X} (f : X -> HandlerReqId) id : ext_sum f [] id = 0.
Proof. done. Qed.

Lemma ext_sum_cons {X} (f : X -> HandlerReqId) x l id : ext_sum f (x :: l) id = ext_z (f x) id + ext_sum f l id.
Proof. unfold ext_sum, ext_z. simpl. lia. Qed.

Create HintDb frame discriminated.

Section Triples.
Context {Enr D C SM OM : Type} `{!K256} `{!EnrCrate Enr} `{!Primitives} `{!EnrCodec Enr} `{!ProtocolIdentity}.
Context `{!Rlp Enr} `{!HashMapDelay D MessageNonce NodeAddress} `{!HashMapDelay C NodeAddress (Challenge Enr)}.
Context `{!HashMapDelayLaws C NodeAddress (Challenge Enr)}.
Context `{!LinkedHashMap SM NodeAddress (Session.Session * Z)}.
Context `{!LinkedHashMap OM NodeAddress ((Rpc.RequestId * Session.Session) * Z)}.
Context `{!LinkedHashMapLaws OM NodeAddress ((Rpc.RequestId * Session.Session) * Z)}.
Variable env : Env Enr.
Hypothesis release : debug_assertions env = false.
Notation W := (World Enr D C SM OM).
Notation M := (Run W).
Implicit Types (owed : Rpc.RequestId -> Z) (slack : SocketAddr -> Z).

(** ** Operations outside the invariant *)

Definition frames {A} (m : M A) : Prop := forall w w' a, m w = Ret (w', a) -> framed w w'.

Lemma frames_triple {A} (m : M A) b owed slack :
  frames m -> triple (Inv b owed slack) m (fun _ => Inv b owed slack).
Proof. intros Hm w w' a HI E _. eapply framed_Inv; [by eapply Hm|done]. Qed.

Lemma frames_ret {A} (a : A) : frames (run_ret a).
Proof. intros w w' a' [= <- <-]. apply framed_refl. Qed.

Lemma frames_bind {A A'} (m : M A) (k : A -> M A') : frames m -> (forall a, frames (k a)) -> frames (m ≫= k).
Proof.
  intros Hm Hk w w' b. unfold mbind, run_bind. destruct (m w) as [[w1 a]|] eqn:E; [|done]. intros E2.
  eapply framed_trans; [by eapply Hm|by eapply Hk].
Qed.

Lemma frames_lift {A} (o : outcome A) : frames (Handler.lift o : M A).
Proof. intros w w' a. unfold Handler.lift. destruct o; [|done]. intros [= <- <-]. apply framed_refl. Qed.

Lemma frames_take {A} (f : nat -> A) : frames (Handler.take f : M A).
Proof. intros w w' a [= <- <-]. split_and!; try done. simpl. lia. Qed.

Lemma frames_self : frames (self : M _).
Proof. intros w w' a [= <- <-]. apply framed_refl. Qed.

Lemma frames_with_sessions c : frames (modify (with_sessions c) : M unit).
Proof. intros w w' a [= <- <-]. by split_and!. Qed.

Lemma frames_one_time (f : Handler Enr D C SM OM -> _) :
  frames (modify (fun h => with_one_time_sessions (f h) h) : M unit).
Proof. intros w w' a [= <- <-]. by split_and!. Qed.

Lemma frames_set_metric n : frames (set_metric n : M unit).
Proof. intros w w' a [= <- <-]. by split_and!. Qed.

Lemma frames_update_bans f : frames (update_bans f : M unit).
Proof. intros w w' a [= <- <-]. by split_and!. Qed.

Hint Resolve frames_ret frames_lift frames_take frames_self frames_with_sessions frames_one_time frames_set_metric
  frames_update_bans : frame.

Ltac frame_tac := repeat (intros; first [solve [eauto 2 with frame] | apply frames_bind | case_match]).

Lemma frames_sessions_get_mut addr : frames (sessions_get_mut env addr : M _).
Proof. unfold sessions_get_mut. frame_tac. Qed.
Lemma frames_sessions_write addr s : frames (sessions_write addr s : M _).
Proof. unfold sessions_write. frame_tac. Qed.
Lemma frames_sessions_insert addr s : frames (sessions_insert env addr s : M _).
Proof. unfold sessions_insert. frame_tac. Qed.
Lemma frames_sessions_remove addr : frames (sessions_remove addr : M _).
Proof. unfold sessions_remove. frame_tac. Qed.
Lemma frames_store_active_sessions : frames (store_active_sessions env : M _).
Proof. unfold store_active_sessions. frame_tac. Qed.
Lemma frames_session_encrypt s m : frames (session_encrypt env s m : M _).
Proof. unfold session_encrypt. frame_tac. Qed.
Hint Resolve frames_sessions_get_mut frames_sessions_write frames_sessions_insert frames_sessions_remove
  frames_store_active_sessions frames_session_encrypt : frame.
Lemma frames_must_queue addr : frames (must_queue env addr : M _).
Proof. unfold must_queue, is_awaiting_session_to_be_established. frame_tac. Qed.
Lemma frames_replayed s l : frames (replayed env s l : M _).
Proof. revert s. induction l; intros s; cbn [replayed]; frame_tac. Qed.
Lemma frames_get_updated_enr seq : frames (get_updated_enr env seq : M _).
Proof. unfold get_updated_enr. frame_tac. Qed.
Lemma frames_with_one_time_sessions o : frames (modify (with_one_time_sessions o) : M unit).
Proof. intros w w' a [= <- <-]. by split_and!. Qed.
Hint Resolve frames_must_queue frames_replayed frames_get_updated_enr frames_with_one_time_sessions : frame.
Lemma frames_remove_one_time_session addr id : frames (remove_one_time_session env addr id : M _).
Proof. unfold remove_one_time_session. frame_tac. Qed.
Hint Resolve frames_remove_one_time_session : frame.

Ltac sane := sane_tac release.
(** Splits a sequence; the first part outside the invariant, or by its triple. *)
Ltac seq := eapply triple_bind; [|intros ?|intros ?; solve [sane]].
Ltac framed := apply frames_triple; solve [frame_tac].
Ltac skip := seq; [framed|].

(** The invariant at owed and slack that are the same, or less slack. *)
Ltac weaken :=
  intros; match goal with HI : context [Inv] |- _ => eapply Inv_weaken; [exact HI|..] end;
  [lia|intros ?; cbv beta; rewrite ?ext_sum_nil, ?ext_sum_cons; first [lia|simpl; lia|unfold ext_z; simpl; lia]
  |intros ?; cbv beta; first [lia|simpl; lia|unfold bump; lia]].

(** The state is what was read. *)
Lemma triple_read {A} (k : Handler Enr D C SM OM -> M A) P Q :
  (forall w, triple (fun w' => P w' /\ w' = w) (k (handler w)) Q) -> triple P (self ≫= k) Q.
Proof. intros Hk w w' a HP E Hb. by apply (Hk w w w' a). Qed.

Lemma triple_forget {A} (m : M A) P Q w0 : triple P m Q -> triple (fun w => P w /\ w = w0) m Q.
Proof. intros Hm w w' a [HP _]. by apply Hm. Qed.

(** ** Sending *)

Lemma triple_service_send out b owed owed' slack :
  (forall id, owed id + Z.of_nat (failure id (ToService out true)) <= owed' id <=
     owed id + Z.of_nat (failure id (ToService out true)) + Z.of_nat (response id (ToService out true))) ->
  triple (Inv b owed slack) (service_send env out : M bool) (fun _ => Inv b owed' slack).
Proof.
  intros Ho w w' a HI E _. unfold service_send in E. cbn in E. injection E as <- <-.
  eapply Inv_sent; [exact HI|done|done|simpl; lia|exact Ho].
Qed.

(** An output that is neither a failure nor a response. *)
Lemma triple_service_send_other out b owed slack :
  (forall id, failure id (ToService out true) = 0%nat /\ response id (ToService out true) = 0%nat) ->
  triple (Inv b owed slack) (service_send env out : M bool) (fun _ => Inv b owed slack).
Proof. intros Ho. apply triple_service_send. intros id. destruct (Ho id). lia. Qed.

Lemma triple_send addr p b owed slack :
  triple (Inv b owed slack) (send env addr p : M unit) (fun _ => Inv b owed slack).
Proof.
  intros w w' a HI E _. unfold send in E. cbn in E. injection E as <- <-.
  eapply Inv_sent; [exact HI|done|done|simpl; lia|]. intros id. simpl. lia.
Qed.

Lemma triple_report_failure i e b owed slack :
  triple (Inv b owed slack) (report_failure env i e : M unit)
    (fun _ => Inv b (fun id => owed id + ext_z i id) slack).
Proof.
  unfold report_failure. destruct i as [i|i].
  - apply triple_ret. intros w HI. eapply Inv_weaken; [exact HI|lia| |done]. intros id. unfold ext_z. simpl. lia.
  - seq; [apply (triple_service_send _ _ _ (fun id => owed id + ext_z (External i) id))|by apply triple_ret].
    intros id. unfold ext_z. simpl. lia.
Qed.

(** ** Expected responses *)

Lemma expected_insert (w : W) e s s' n :
  filter_expected_responses (handler w) = <[s := n]> e ->
  expected w s' = if decide (s = s') then n else default 0 (e !! s').
Proof.
  intros E. unfold expected. rewrite E. case_decide; subst; [by rewrite lookup_insert_eq|by rewrite lookup_insert_ne].
Qed.

Lemma triple_remove_expected_response s b owed slack :
  triple (Inv b owed slack) (remove_expected_response s : M unit)
    (fun _ => Inv b owed (fun s' => slack s' - bump s s')).
Proof.
  intros w w' a HI E _. unfold remove_expected_response in E. cbn in E. injection E as <- <-.
  assert (forall s', expected (mkWorld (with_expected
    match filter_expected_responses (handler w) !! s with
    | Some count => if decide (saturating_sub count 1 = 0) then delete s (filter_expected_responses (handler w))
                    else <[s:=saturating_sub count 1]> (filter_expected_responses (handler w))
    | None => filter_expected_responses (handler w)
    end (handler w)) (sent w) (ticks w) (metric_active_sessions w) (permit_ban_list w)) s' =
    if decide (s = s') then Z.max 0 (expected w s - 1) else expected w s') as He.
  { intros s'. unfold expected. cbn [handler with_expected filter_expected_responses]. unfold saturating_sub.
    destruct (filter_expected_responses (handler w) !! s) as [n|] eqn:En; [case_decide as Hn|]; case_decide; subst;
      rewrite ?lookup_delete_eq, ?lookup_insert_eq, ?lookup_delete_ne, ?lookup_insert_ne, ?En by done; simpl; lia. }
  eapply Inv_expected; [exact HI|done..| |].
  - intros s'. rewrite He. destruct (inv_expected _ _ _ _ HI s), (inv_expected _ _ _ _ HI s'). case_decide; subst; lia.
  - intros s'. rewrite He. pose proof (inv_slack _ _ _ _ HI s'). unfold bump, one_if.
    pose proof (inv_expected _ _ _ _ HI s'). assert (0 <= awaited w s') by (unfold awaited; lia).
    case_decide; subst; simpl; lia.
Qed.

Lemma triple_add_expected_response s b owed slack :
  0 <= b ->
  triple (Inv (b + 1) owed slack) (add_expected_response env s : M unit)
    (fun _ => Inv b owed (fun s' => slack s' + bump s s')).
Proof.
  intros Hb0 w w' a HI E Hb. unfold add_expected_response, self, modify, Handler.lift, mbind, run_bind in E.
  fold (expected w s) in E. destruct (arith (debug_assertions env) (2 ^ 64) (expected w s + 1)) as [n|] eqn:Ea; [|done].
  injection E as <- <-. rewrite B_spec in Hb. cbn [ticks] in Hb. destruct (inv_expected _ _ _ _ HI s) as [He0 He1].
  rewrite arith_ok in Ea by lia. injection Ea as <-.
  assert (forall s', expected (mkWorld (with_expected
    (<[s := expected w s + 1]> (filter_expected_responses (handler w))) (handler w)) (sent w) (ticks w)
    (metric_active_sessions w) (permit_ban_list w)) s' = expected w s' + bump s s') as He.
  { intros s'. erewrite expected_insert by done. unfold bump, one_if. case_decide; subst; [lia|]. unfold expected. lia. }
  eapply Inv_expected; [exact HI|done..| |].
  - intros s'. rewrite He. destruct (inv_expected _ _ _ _ HI s'). unfold bump, one_if. case_decide; simpl; lia.
  - intros s'. rewrite He. pose proof (inv_slack _ _ _ _ HI s'). lia.
Qed.

(** ** The tables *)

Lemma triple_take {A} (f : nat -> A) b owed slack :
  triple (Inv b owed slack) (Handler.take f : M A) (fun _ => Inv (b + 1) owed slack).
Proof.
  intros w w' a HI E _. injection E as <- <-.
  split; [apply HI|apply HI| |apply HI]. intros s. destruct (inv_expected _ _ _ _ HI s).
  unfold expected in *. cbn [ticks handler] in *. lia.
Qed.

Lemma triple_active_insert addr c b owed slack :
  node_address (contact c) = addr ->
  triple (Inv b owed slack) (active_insert env addr c : M unit)
    (fun _ => Inv b (fun id => owed id + ext_z (request_id c) id) (fun s => slack s - bump (socket_addr addr) s)).
Proof.
  intros Hc. unfold active_insert. skip. intros w w' u HI E _.
  unfold self, modify, mbind, run_bind in E. injection E as <- <-.
  eapply Inv_calls; [exact HI|done..| | |]; unfold calls;
    cbn [handler with_active active_requests ActiveRequests.insert active_requests_mapping].
  - intros addr' c' [Hs|[-> ->]]%stored_push; [by apply HI|done].
  - intros id. rewrite weight_push. unfold ext_z, call_ext. lia.
  - intros s. rewrite weight_push. unfold bump, at_socket. lia.
Qed.

(** Pending requests are put at the end of the queue of their node. *)
Lemma triple_push_pending addr p w0 b owed slack :
  triple (fun w => Inv b owed slack w /\ w = w0)
    (modify (with_pending (<[addr := default [] (pending_requests (handler w0) !! addr) ++ [p]]>
                             (pending_requests (handler w0)))) : M unit)
    (fun _ => Inv b (fun id => owed id + ext_z (pending_request_id p) id) slack).
Proof.
  intros w w' u [HI ->] E _. injection E as <- <-. eapply Inv_queued; [exact HI|done..|].
  intros id. unfold queued. cbn [handler with_pending pending_requests]. rewrite weight_push.
  unfold ext_z, pending_ext. lia.
Qed.

Lemma triple_drop_pending addr w0 b owed slack :
  triple (fun w => Inv b owed slack w /\ w = w0)
    (modify (with_pending (delete addr (pending_requests (handler w0)))) : M unit)
    (fun _ => Inv b (fun id => owed id -
       ext_sum pending_request_id (default [] (pending_requests (handler w0) !! addr)) id) slack).
Proof.
  intros w w' u [HI ->] E _. injection E as <- <-. eapply Inv_queued; [exact HI|done..|].
  intros id. unfold queued. cbn [handler with_pending pending_requests].
  rewrite <-(weight_delete (pending_ext id) (pending_requests (handler w0)) addr). unfold total_of, ext_sum. 
  change (sum_list_with (pending_ext id addr) ?l) with (sum_list_with (fun x => ext (pending_request_id x) id) l). lia.
Qed.

(** ** Failures *)

Lemma triple_report_all {X} (f : X -> HandlerReqId) e (l : list X) b owed slack :
  triple (Inv b (fun id => owed id - ext_sum f l id) slack)
    (for_each l (fun x => report_failure env (f x) e) : M unit) (fun _ => Inv b owed slack).
Proof.
  eapply triple_conseq; [apply (triple_for_each l _ (fun l => Inv b (fun id => owed id - ext_sum f l id) slack))|..].
  - intros x l'. eapply triple_conseq; [apply triple_report_failure|done|].
    weaken.
  - sane.
  - done.
  - weaken.
Qed.

Lemma triple_fail_all (l : list (RequestCall Enr)) s e b owed slack :
  triple (Inv b (fun id => owed id - ext_sum request_id l id)
              (fun s' => slack s' + Z.of_nat (length l) * bump s s'))
    (for_each l (fun req => _ ← report_failure env (request_id req) e; remove_expected_response s) : M unit)
    (fun _ => Inv b owed slack).
Proof.
  eapply triple_conseq; [apply (triple_for_each l _ (fun l => Inv b (fun id => owed id - ext_sum request_id l id)
    (fun s' => slack s' + Z.of_nat (length l) * bump s s')))|..].
  - intros x l'. seq; [apply triple_report_failure|].
    eapply triple_conseq; [apply triple_remove_expected_response|done|].
    weaken.
  - sane.
  - done.
  - weaken.
Qed.

Lemma triple_lift {A A'} (o : outcome A) (k : A -> M A') (P : W -> Prop) Q :
  (forall a, o = Ret a -> triple P (k a) Q) -> triple P (Handler.lift o ≫= k) Q.
Proof.
  intros Hk w w' a HP E Hb. unfold Handler.lift, mbind, run_bind in E. destruct o as [x|]; [|done].
  by eapply Hk.
Qed.

(** What the table of the active requests becomes. *)
Lemma triple_with_active a w0 (P : W -> Prop) (Q : W -> Prop) :
  (P w0 -> Q (mkWorld (with_active a (handler w0)) (sent w0) (ticks w0) (metric_active_sessions w0) (permit_ban_list w0))) ->
  triple (fun w => P w /\ w = w0) (modify (with_active a) : M unit) (fun _ => Q).
Proof. intros HQ w w' u [HP ->] E _. injection E as <- <-. by apply HQ. Qed.

Lemma ext_sum_total (l : list (RequestCall Enr)) id addr :
  Z.of_nat (total_of (call_ext id) addr l) = ext_sum request_id l id.
Proof. done. Qed.

Lemma total_at_socket s (l : list (RequestCall Enr)) addr :
  Z.of_nat (total_of (fun a (_ : RequestCall Enr) => at_socket s a) addr l) = Z.of_nat (length l) * bump (socket_addr addr) s.
Proof.
  unfold total_of. change (bump (socket_addr addr) s) with (Z.of_nat (at_socket s addr)).
  induction l as [|c l IH]; cbn [sum_list_with length]; lia.
Qed.

Lemma triple_remove_requests addr w0 a removed b owed slack :
  remove_requests (debug_assertions env) (active_requests (handler w0)) addr = Ret (a, removed) ->
  triple (fun w => Inv b owed slack w /\ w = w0) (modify (with_active a) : M unit)
    (fun _ => Inv b (fun id => owed id - ext_sum request_id (default [] removed) id)
                    (fun s => slack s + Z.of_nat (length (default [] removed)) * bump (socket_addr addr) s)).
Proof.
  intros (Hw & Hst & _)%remove_requests_taken. apply triple_with_active. intros HI.
  eapply Inv_calls; [exact HI|done..| | |]; unfold calls; cbn [handler with_active active_requests].
  - intros x c Hc. by apply HI, Hst.
  - intros id. rewrite <-(Hw (call_ext id)), Nat2Z.inj_add, ext_sum_total. unfold calls in *. lia.
  - intros s. rewrite <-(Hw (fun x _ => at_socket s x)), Nat2Z.inj_add, total_at_socket. lia.
Qed.

Lemma triple_fail_session addr e remove_session b owed slack :
  triple (Inv b owed slack) (fail_session env addr e remove_session : M unit) (fun _ => Inv b owed slack).
Proof.
  unfold fail_session. seq; [framed|]. apply triple_read. intros w0.
  seq; [instantiate (1 := fun _ => Inv b owed slack)|].
  - destruct (pending_requests (handler w0) !! addr) as [l|] eqn:El.
    + seq; [apply triple_drop_pending|]. rewrite El. apply triple_report_all.
    + apply triple_ret. tauto.
  - apply triple_read. intros w1. apply triple_lift. intros [a1 removed] Er.
    seq; [by apply triple_remove_requests|]. apply triple_fail_all.
Qed.

Lemma triple_fail_request c e remove_session b owed slack :
  triple (Inv b owed slack) (fail_request env c e remove_session : M unit)
    (fun _ => Inv b (fun id => owed id + ext_z (request_id c) id) slack).
Proof. unfold fail_request. seq; [apply triple_report_failure|]. apply triple_fail_session. Qed.

Lemma increment_retries_same (c c' : RequestCall Enr) d :
  increment_retries d c = Ret c' -> contact c' = contact c /\ request_id c' = request_id c.
Proof. unfold increment_retries. destruct (arith _ _ _); [|done]. by intros [= <-]. Qed.

(** The request is out of the table when it times out. *)
Lemma triple_handle_request_timeout addr c b owed slack :
  node_address (contact c) = addr ->
  triple (Inv b (fun id => owed id - ext_z (request_id c) id) (fun s => slack s + bump (socket_addr addr) s))
    (handle_request_timeout env addr c : M unit) (fun _ => Inv b owed slack).
Proof.
  intros Hc. unfold handle_request_timeout. apply triple_read. intros w0. case_decide.
  - apply triple_forget.
    seq; [apply triple_remove_expected_response|].
    eapply triple_conseq; [apply triple_fail_request|done|].
    weaken.
  - apply triple_forget.
    seq; [apply triple_send|]. apply triple_lift. intros c' [Hc' Hid]%increment_retries_same.
    eapply triple_conseq; [apply triple_active_insert; by rewrite Hc'|done|].
    rewrite Hid. weaken.
Qed.

(** ** Requests *)

Lemma triple_request_packet addr i r b owed slack :
  triple (Inv b owed slack) (request_packet env addr i r : M _) (fun _ => Inv (b + 1) owed slack).
Proof.
  unfold request_packet. seq.
  - unfold sessions_get_mut. seq; [apply triple_take|]. framed.
  - framed.
Qed.

Lemma triple_send_request c i r b owed slack :
  0 <= b ->
  triple (Inv b owed slack) (send_request env c i r : M _)
    (fun res => Inv b (fun id => owed id + match res with Ok _ => ext_z i id | Err _ => 0 end) slack).
Proof.
  intros Hb.
  unfold send_request. apply triple_read. intros w0. case_decide; [apply triple_ret; intros w [HI _]; weaken|].
  apply triple_forget.
  seq; [framed|]. destruct a.
  - apply triple_read. intros w1. seq; [apply triple_push_pending|]. by apply triple_ret.
  - seq; [apply triple_request_packet|]. destruct a as [[p init]|e].
    + seq; [by apply triple_add_expected_response|]. seq; [apply triple_send|].
      seq; [by apply triple_active_insert|]. apply triple_ret. weaken.
    + apply triple_ret. weaken.
Qed.

Lemma triple_send_pending_requests addr b owed slack :
  0 <= b -> triple (Inv b owed slack) (send_pending_requests env addr : M unit) (fun _ => Inv b owed slack).
Proof.
  intros Hb. unfold send_pending_requests. apply triple_read. intros w0. seq; [apply triple_drop_pending|].
  eapply triple_conseq; [apply (triple_for_each _ _ (fun l => Inv b (fun id => owed id - ext_sum pending_request_id l id) slack))|done|].
  - intros p l. seq; [by apply triple_send_request|]. destruct a0.
    + apply triple_ret. weaken.
    + eapply triple_conseq; [apply triple_report_failure|done|]. weaken.
  - sane.
  - weaken.
Qed.

(** ** New sessions *)

Lemma triple_update_packet w0 a t k (p : Packet Enr) b owed slack :
  ActiveRequests.update_packet (debug_assertions env) (active_requests (handler w0)) t k p = Ret a ->
  triple (fun w => Inv b owed slack w /\ w = w0) (modify (with_active a) : M unit) (fun _ => Inv b owed slack).
Proof.
  intros (Hw & Hst)%update_packet_same. apply triple_with_active. intros HI.
  eapply Inv_calls; [exact HI|done..| | |]; unfold calls; cbn [handler with_active active_requests].
  - intros x c' (c & Hc & ->)%Hst. by apply HI.
  - intros id. by rewrite Hw.
  - intros s. by rewrite Hw.
Qed.

Lemma triple_replay_active_requests addr n b owed slack :
  triple (Inv b owed slack) (replay_active_requests env addr n : M unit) (fun _ => Inv b owed slack).
Proof.
  unfold replay_active_requests. skip. destruct a as [session|]; [|framed].
  apply triple_read. intros w0. apply triple_forget. skip. destruct a as [session' packets]. skip.
  apply (triple_for_each packets _ (fun _ => Inv b owed slack)); [|sane].
  intros [old_nonce new_packet] _. skip. apply triple_read. intros w1. apply triple_lift. intros a1 Ea.
  seq; [by eapply triple_update_packet|]. apply triple_send.
Qed.

Lemma triple_new_session addr session n b owed slack :
  0 <= b -> triple (Inv b owed slack) (new_session env addr session n : M unit) (fun _ => Inv b owed slack).
Proof.
  intros Hb. unfold new_session. skip. destruct a as [current|].
  - skip. apply triple_replay_active_requests.
  - skip. skip. by apply triple_send_pending_requests.
Qed.

(** ** Inbound packets *)

(** The request is out of the table when its challenge is answered. *)
Lemma triple_answer_challenge c seq cd b owed slack :
  0 <= b ->
  triple (Inv b (fun id => owed id - ext_z (request_id c) id)
                (fun s => slack s + bump (socket_addr (node_address (contact c))) s))
    (answer_challenge env c seq cd : M unit) (fun _ => Inv b owed slack).
Proof.
  intros Hb. unfold answer_challenge. destruct (handshake_sent c).
  { eapply triple_conseq; [apply triple_fail_request|done|weaken]. }
  skip. skip. skip. skip. apply triple_read. intros w0. apply triple_forget.
  destruct (Session.encrypt_with_header _ _ _ _ _ _ _ _ _) as [[auth_packet session]|e];
    [|eapply triple_conseq; [apply triple_fail_request|done|weaken]].
  destruct (contact_enr (contact c)) as [enr|].
  - seq; [by apply triple_active_insert|]. seq; [apply triple_send|].
    seq; [by apply triple_service_send_other|].
    eapply triple_conseq; [by apply triple_new_session|done|weaken].
  - seq; [by apply triple_active_insert|]. seq; [apply triple_send|]. skip.
    seq; [by apply triple_send_request|].
    eapply triple_conseq; [by apply triple_new_session|done|]. destruct a6; weaken.
Qed.

Lemma triple_taken w0 a addr c b owed slack :
  taken (active_requests_mapping (active_requests (handler w0))) (active_requests_mapping a) addr c ->
  triple (fun w => Inv b owed slack w /\ w = w0) (modify (with_active a) : M unit)
    (fun _ w => node_address (contact c) = addr /\
       Inv b (fun id => owed id - ext_z (request_id c) id) (fun s => slack s + bump (socket_addr addr) s) w).
Proof.
  intros Ht. apply triple_with_active. intros HI.
  by apply (Inv_taken _ _ _ w0 (mkWorld (with_active a (handler w0)) _ _ _ _) addr c HI).
Qed.

Lemma triple_same w0 a b owed slack :
  same (active_requests_mapping (active_requests (handler w0))) (active_requests_mapping a) ->
  triple (fun w => Inv b owed slack w /\ w = w0) (modify (with_active a) : M unit) (fun _ => Inv b owed slack).
Proof.
  intros Ht. apply triple_with_active. intros HI.
  by apply (Inv_same _ _ _ w0 (mkWorld (with_active a (handler w0)) _ _ _ _) HI).
Qed.

Lemma triple_handle_challenge src n seq cd b owed slack :
  0 <= b -> triple (Inv b owed slack) (handle_challenge env src n seq cd : M unit) (fun _ => Inv b owed slack).
Proof.
  intros Hb. unfold handle_challenge. apply triple_read. intros w0. apply triple_lift. intros [a [[addr c]|]] Er;
    apply remove_by_nonce_taken in Er; [|seq; [by apply triple_same|by apply triple_ret]].
  destruct Er as [Ht Hn]. seq; [by apply triple_taken|]. apply triple_pure. intros <-. case_decide.
  - eapply triple_conseq; [by apply triple_active_insert|done|weaken].
  - rewrite decide_False by (by intros ?). by apply triple_answer_challenge.
Qed.

Lemma triple_finish addr (c : RequestCall Enr) (r : Rpc.Response Enr) b owed slack :
  to_request_id (request_id c) = Rpc.resp_id r ->
  triple (Inv b (fun id => owed id - ext_z (request_id c) id) (fun s => slack s + bump (socket_addr addr) s))
    (_ ← remove_expected_response (socket_addr addr); _ ← service_send env (OutResponse addr r); run_ret () : M unit)
    (fun _ => Inv b owed slack).
Proof.
  intros Hid. seq; [apply triple_remove_expected_response|].
  seq; [apply (triple_service_send _ _ _ owed)|apply triple_ret; weaken].
  intros id. simpl. rewrite <-Hid. unfold ext_z, ext. destruct (request_id c); simpl; lia.
Qed.

Lemma triple_add_back addr (c : RequestCall Enr) rem (r : Rpc.Response Enr) b owed slack :
  node_address (contact c) = addr ->
  triple (Inv b (fun id => owed id - ext_z (request_id c) id) (fun s => slack s + bump (socket_addr addr) s))
    (_ ← active_insert env addr (set_remaining_responses c rem); _ ← service_send env (OutResponse addr r); run_ret () : M unit)
    (fun _ => Inv b owed slack).
Proof.
  intros Ha. seq; [by apply triple_active_insert|].
  seq; [apply (triple_service_send _ _ _ owed)|apply triple_ret; weaken].
  intros id. simpl. lia.
Qed.

Lemma triple_handle_response addr r b owed slack :
  triple (Inv b owed slack) (handle_response env addr r : M unit) (fun _ => Inv b owed slack).
Proof.
  unfold handle_response. apply triple_read. intros w0.
  destruct (remove_request _ addr _) as [a [c|]] eqn:Er; apply remove_request_taken in Er;
    [|seq; [by apply triple_same|by apply triple_ret]].
  destruct Er as [Ht Hid]. seq; [by apply triple_taken|]. apply triple_pure. intros Ha.
  destruct (Rpc.resp_body r) as [|total nodes|]; [by apply triple_finish| |by apply triple_finish].
  case_decide; [|by apply triple_finish]. destruct (remaining_responses c) as [rem|]; [|by apply triple_add_back].
  apply triple_lift. intros rem' _. case_decide; [by apply triple_add_back|by apply triple_finish].
Qed.

Lemma triple_handle_enr_response addr body b owed slack :
  triple (Inv b owed slack) (handle_enr_response env addr body : M unit) (fun _ => Inv b owed slack).
Proof.
  unfold handle_enr_response. cbv zeta.
  generalize (match body with Rpc.Nodes _ nodes => last nodes | _ => None end).
  intros [enr|]; [|apply triple_fail_session]. destruct (verify_enr enr addr); [|apply triple_fail_session].
  seq; [by apply triple_service_send_other|by apply triple_ret].
Qed.

Lemma triple_handle_message addr n m ad b owed slack :
  triple (Inv b owed slack) (handle_message env addr n m ad : M unit) (fun _ => Inv b owed slack).
Proof.
  unfold handle_message. skip. destruct a as [session|];
    [|seq; [by apply triple_service_send_other|by apply triple_ret]].
  destruct (Session.decrypt_message _ _ _ _) as [session' [m'|e]]; skip.
  - destruct (Rpc.decode m') as [[r|r]|]; [| |by apply triple_ret].
    + seq; [by apply triple_service_send_other|by apply triple_ret].
    + case_decide; [|apply triple_handle_response]. skip. apply triple_handle_enr_response.
  - seq; [apply triple_fail_session|]. apply triple_read. intros w0. apply triple_forget.
    case_match; [by apply triple_ret|]. seq; [by apply triple_service_send_other|by apply triple_ret].
Qed.

Lemma triple_one_time_ping addr session n m ad b owed slack :
  triple (Inv b owed slack) (one_time_ping env addr session n m ad : M unit) (fun _ => Inv b owed slack).
Proof.
  unfold one_time_ping. destruct (Session.decrypt_message _ _ _ _) as [session' [m'|e]]; [|by apply triple_ret].
  destruct (Rpc.decode m') as [[r|r]|]; [|by apply triple_ret..]. case_decide; [|by apply triple_ret].
  skip. skip. seq; [by apply triple_service_send_other|]. framed.
Qed.

(** A challenge was put into the table, or taken out. *)
Lemma triple_insert_challenge addr t c b owed slack :
  triple (Inv b owed (fun s => slack s + bump (socket_addr addr) s))
    (modify (fun h => with_challenges (dm_insert (active_challenges h) t addr c) h) : M unit)
    (fun _ => Inv b owed slack).
Proof.
  intros w w' u HI E _. injection E as <- <-. eapply Inv_challenges; [exact HI|done..|].
  intros s. unfold challenges. cbn [handler with_challenges active_challenges]. rewrite dm_iter_insert.
  pose proof (msum_insert (fun a (_ : Challenge Enr) => at_socket s a) (dm_iter (active_challenges (handler w))) addr c).
  unfold bump. change (one_if (socket_addr addr = s)) with (at_socket s addr). lia.
Qed.

Lemma triple_remove_challenge addr w0 d x b owed slack :
  dm_remove (active_challenges (handler w0)) addr = (d, x) ->
  triple (fun w => Inv b owed slack w /\ w = w0) (modify (with_challenges d) : M unit)
    (fun _ => Inv b owed (fun s => slack s + match x with Some _ => bump (socket_addr addr) s | None => 0 end)).
Proof.
  intros Er w w' u [HI ->] E _. injection E as <- <-. eapply Inv_challenges; [exact HI|done..|].
  intros s. unfold challenges. cbn [handler with_challenges active_challenges].
  pose proof (dm_iter_remove (active_challenges (handler w0)) addr) as Hd.
  pose proof (dm_removed (active_challenges (handler w0)) addr) as Hx. rewrite Er in Hd, Hx. simpl in Hd, Hx.
  pose proof (msum_delete (fun a (_ : Challenge Enr) => at_socket s a) (dm_iter (active_challenges (handler w0))) addr) as Hm.
  unfold at_key in Hm. rewrite <-Hx in Hm. rewrite Hd. unfold bump.
  change (one_if (socket_addr addr = s)) with (at_socket s addr). destruct x; lia.
Qed.

Lemma triple_handle_auth_message addr n sig pk r m ad b owed slack :
  0 <= b ->
  triple (Inv b owed slack) (handle_auth_message env addr n sig pk r m ad : M unit) (fun _ => Inv b owed slack).
Proof.
  intros Hb. unfold handle_auth_message. apply triple_read. intros w0.
  destruct (dm_remove _ addr) as [d [challenge|]] eqn:Er; (seq; [by apply triple_remove_challenge|]);
    [|apply triple_ret; weaken].
  destruct (Session.establish_from_challenge _ _ _ _ _ _ _) as [[session enr]|e].
  - seq; [apply triple_remove_expected_response|]. destruct (verify_enr enr addr).
    + seq; [by apply triple_service_send_other|]. seq; [by apply triple_new_session|].
      eapply triple_conseq; [apply triple_handle_message|done|weaken].
    + seq; [apply triple_fail_session|]. eapply triple_conseq; [apply triple_one_time_ping|done|weaken].
  - destruct e as [e| | |challenge'];
      try (eapply triple_conseq; [apply triple_fail_session|done|weaken]).
    skip. apply triple_insert_challenge.
Qed.

(** ** Events *)

Lemma triple_send_response addr r b owed slack :
  triple (Inv b owed slack) (send_response env addr r : M unit) (fun _ => Inv b owed slack).
Proof.
  unfold send_response. skip. destruct a as [session|].
  - skip. destruct a as [session' [p|e]]; skip; [apply triple_send|by apply triple_ret].
  - skip. destruct a as [session|]; [|by apply triple_ret]. skip.
    destruct a as [session' [p|e]]; [apply triple_send|by apply triple_ret].
Qed.

Lemma triple_send_challenge ref enr b owed slack :
  0 <= b -> triple (Inv b owed slack) (send_challenge env ref enr : M unit) (fun _ => Inv b owed slack).
Proof.
  intros Hb. destruct ref as [addr n]. unfold send_challenge. apply triple_read. intros w0. apply triple_forget.
  destruct (dm_get _ addr); [by apply triple_ret|]. seq; [apply triple_take|]. skip. apply triple_lift. intros cd _.
  seq; [by apply triple_add_expected_response|]. seq; [apply triple_send|]. skip. apply triple_insert_challenge.
Qed.
End Triples.
