(* ===== verification/HandlerSync.v ===== *)
(** * The requests in flight and their timers

    Every request in flight has its message nonce in the table whose entries
    expire, in every run of the handler whose random values do not repeat: so
    every request times out unless it is answered.  [synced] is the invariant,
    one triple per operation of src/src/handler/mod.rs shows that it is kept. *)

From stdpp Require Import strings.
From S2P Require Import Prelude Bytes Key Rpc Maps LruTimeCache Packet PacketProofs NodeInfo Crypto.
From S2P Require Import ActiveRequests ActiveRequestsProofs Session Bucket Globals Handler HandlerLogic HandlerAccount.
From S2P Require Import HandlerInv HandlerTriples.
Import Packet NodeInfo RequestCall ActiveRequests Handler.

(** ** The tables in a release build *)

Section Release.
Context {Enr D : Type} `{!K256} `{!HashMapDelay D MessageNonce NodeAddress} `{!HashMapDelayLaws D MessageNonce NodeAddress}.
Implicit Types (a : ActiveRequests Enr D) (c : RequestCall Enr).

Definition nonces a : gmap MessageNonce NodeAddress := dm_iter (active_requests_nonce_mapping a).

(** [a'] has no nonces that [a] has not. *)
Definition no_new a a' : Prop := forall k addr, nonces a' !! k = Some addr -> nonces a !! k = Some addr.

(** [c] was taken out of [a], with its nonce. *)
Definition withdrawn a a' c : Prop := is_Some (nonces a !! call_nonce c) /\ nonces a' !! call_nonce c = None.

Lemma no_new_refl a : no_new a a.
Proof. by intros ?. Qed.
Hint Resolve no_new_refl : core.

Lemma remove_nonces_debug l (d d' : D) : remove_nonces (Enr := Enr) true d l = Ret d' -> remove_nonces (Enr := Enr) false d l = Ret d'.
Proof.
  revert d. induction l as [|c l IH]; intros d; simpl; [done|].
  destruct (dm_remove d (call_nonce c)) as [d1 [x|]]; simpl; [apply IH|done].
Qed.

Lemma remove_requests_synced a addr a' r :
  in_sync a -> remove_requests false a addr = Ret (a', r) -> in_sync a' /\ no_new a a'.
Proof.
  intros Hs. unfold remove_requests. destruct (active_requests_mapping a !! addr) as [l|] eqn:Hl; [|intros [= <- <-]; by auto].
  rewrite decide_False by (intros ->; by apply (sync_nonempty _ _ Hs) in Hl).
  destruct (remove_nonces_spec (active_requests_nonce_mapping a) l) as (d & E & Hd).
  - by eapply sync_nodup.
  - intros c Hc. exists addr. apply (sync_nonce _ _ Hs). eauto.
  - rewrite (remove_nonces_debug _ _ _ E). intros [= <- <-]. split; [by eapply sync_delete_all|].
    intros k x. unfold nonces. simpl. rewrite Hd. by case_decide.
Qed.

Lemma taken_out a d addr l i c :
  in_sync a -> active_requests_mapping a !! addr = Some l -> l !! i = Some c ->
  dm_iter d = delete (call_nonce c) (nonces a) ->
  let a' := mkActive (put_requests (active_requests_mapping a) addr (delete i l)) d in
  in_sync a' /\ no_new a a' /\ withdrawn a a' c.
Proof.
  intros Hs Hl Hi Hd a'. unfold in_sync, no_new, withdrawn, nonces. simpl. rewrite Hd. split_and!.
  - by apply sync_delete.
  - intros k x [_ Hk]%lookup_delete_Some. done.
  - exists addr. apply (sync_nonce _ _ Hs). exists l, c. split_and!; [done| |done]. by eapply list_elem_of_lookup_2.
  - apply lookup_delete_eq.
Qed.

Lemma remove_by_nonce_synced a k a' r :
  in_sync a -> remove_by_nonce false a k = Ret (a', r) ->
  in_sync a' /\ no_new a a' /\ match r with Some (_, c) => withdrawn a a' c | None => True end.
Proof.
  intros Hs. unfold remove_by_nonce. destruct (dm_remove _ k) as [d x] eqn:E.
  pose proof (dm_removed (active_requests_nonce_mapping a) k) as Hr.
  pose proof (dm_iter_remove (active_requests_nonce_mapping a) k) as Hd. rewrite E in Hr, Hd. simpl in Hr, Hd.
  destruct x as [addr|].
  - symmetry in Hr. destruct (sync_position _ _ _ _ Hs Hr) as (l & i & c & Hl & Hp & Hi & <-).
    rewrite Hl, Hp, Hi. intros [= <- <-]. by apply taken_out.
  - intros [= <- <-]. unfold in_sync, no_new, nonces. simpl. rewrite Hd, delete_id by done. by auto.
Qed.

Lemma remove_request_synced a addr id a' r :
  in_sync a -> remove_request a addr id = (a', r) ->
  in_sync a' /\ no_new a a' /\ match r with Some c => withdrawn a a' c | None => True end.
Proof.
  intros Hs. unfold remove_request. destruct (_ !! addr) as [l|] eqn:Hl; [|intros [= <- <-]; by auto].
  destruct (position_id id l) as [i|]; [|intros [= <- <-]; by auto].
  destruct (l !! i) as [c|] eqn:Hi; [|intros [= <- <-]; by auto]. intros [= <- <-].
  apply taken_out; [done..|]. apply dm_iter_remove.
Qed.

Lemma poll_next_synced a t a' r :
  in_sync a -> poll_next a t = (a', r) ->
  in_sync a' /\ no_new a a' /\ match r with Ready (Some (Ok (_, c))) => withdrawn a a' c | _ => True end.
Proof.
  intros Hs. unfold poll_next. pose proof (dm_polled (active_requests_nonce_mapping a) t) as Hp.
  destruct (dm_poll_next _ t) as [d [[[[k addr]|]|]|]];
    try (intros [= <- <-]; unfold in_sync, no_new, nonces; simpl; by rewrite Hp).
  destruct Hp as [Hk Hd]. destruct (sync_position _ _ _ _ Hs Hk) as (l & i & c & Hl & Hpos & Hi & <-).
  cbn [active_requests_mapping]. rewrite Hl, Hpos, Hi. intros [= <- <-]. by apply taken_out.
Qed.

Lemma update_packet_synced a t k (p : Packet Enr) a' :
  in_sync a -> ActiveRequests.update_packet false a t k p = Ret a' -> nonces a !! message_nonce (header p) = None ->
  in_sync a' /\ forall k' addr, nonces a' !! k' = Some addr -> nonces a !! k' = Some addr \/ k' = message_nonce (header p).
Proof.
  intros Hs. unfold ActiveRequests.update_packet. destruct (dm_remove _ k) as [d r] eqn:E.
  pose proof (dm_removed (active_requests_nonce_mapping a) k) as Hr.
  pose proof (dm_iter_remove (active_requests_nonce_mapping a) k) as Hd. rewrite E in Hr, Hd. simpl in Hr, Hd.
  destruct r as [addr|].
  - symmetry in Hr. destruct (sync_position _ _ _ _ Hs Hr) as (l & i & c & Hl & Hp & Hi & <-).
    rewrite Hl, Hp. intros [= <-] Hnew. unfold in_sync, nonces. simpl. rewrite dm_iter_insert, Hd. split.
    + apply sync_update; [done..|by left].
    + intros k' x [[<- _]|[_ [_ Hk]%lookup_delete_Some]]%lookup_insert_Some; auto.
  - simpl. intros [= <-] _. unfold in_sync, nonces. simpl. rewrite Hd, delete_id by done. auto.
Qed.
End Release.

(** ** The invariant *)

(** The last 8 bytes of the nonces that the values of a tick make. *)
Definition tails {Enr} `{!K256} (env : Env Enr) (n : nat) : list (list byte) :=
  [vec_to_list (random_nonce env n); drop 4 (vec_to_list (random_message_nonce env n))].

(** The random values of the first [2 ^ 64] ticks do not repeat. *)
Definition fresh {Enr} `{!K256} (env : Env Enr) : Prop :=
  forall n m x, n < B -> m < B -> x ∈ tails env n -> x ∈ tails env m -> n = m.

Definition stamped {Enr} `{!K256} (env : Env Enr) (n : nat) (k : MessageNonce) : Prop :=
  drop 4 (vec_to_list k) ∈ tails env n.

Create HintDb still discriminated.

Section Sync.
Context {Enr D C SM OM : Type} `{!K256} `{!EnrCrate Enr} `{!Primitives} `{!EnrCodec Enr} `{!ProtocolIdentity}.
Context `{!Rlp Enr} `{!HashMapDelay D MessageNonce NodeAddress} `{!HashMapDelay C NodeAddress (Challenge Enr)}.
Context `{!HashMapDelayLaws D MessageNonce NodeAddress}.
Context `{!LinkedHashMap SM NodeAddress (Session.Session * Z)}.
Context `{!LinkedHashMap OM NodeAddress ((Rpc.RequestId * Session.Session) * Z)}.
Context `{!LinkedHashMapLaws OM NodeAddress ((Rpc.RequestId * Session.Session) * Z)}.
Variable env : Env Enr.
Hypothesis release : debug_assertions env = false.
Hypothesis is_fresh : fresh env.
Notation W := (World Enr D C SM OM).
Notation M := (Run W).
Implicit Types (w : W) (addr : NodeAddress) (c : RequestCall Enr).

Definition in_flight_nonces w := nonces (active_requests (handler w)).

(** The tables are in step, and their nonces are from before the tick [n]. *)
Definition Sy (n : nat) w : Prop :=
  in_sync (active_requests (handler w)) /\ n <= ticks w /\
  forall k addr, in_flight_nonces w !! k = Some addr -> exists m, m < n /\ stamped env m k.

Definition synced w : Prop := Sy (ticks w) w.

(** A call that can be put into the tables. *)
Definition aside c w : Prop :=
  in_flight_nonces w !! call_nonce c = None /\ exists m, m < ticks w /\ stamped env m (call_nonce c).

(** A nonce from a tick since [n]. *)
Definition since (n : nat) (k : MessageNonce) w : Prop := exists m, n <= m < ticks w /\ stamped env m k.

Lemma Sy_synced n w : Sy n w -> synced w.
Proof. intros (Hs & Hn & Hk). split; [done|]. split; [done|]. intros k addr (m & Hm & Hst)%Hk. exists m. split; [lia|done]. Qed.

Lemma since_new n k w : Sy n w -> since n k w -> ticks w < B -> in_flight_nonces w !! k = None.
Proof.
  intros (_ & Hn & Hk) (m & Hm & Hst) HB. destruct (in_flight_nonces w !! k) as [addr|] eqn:E; [|done].
  apply Hk in E as (m' & Hm' & Hst'). assert (m' = m) by (eapply is_fresh; [lia|lia|done|done]). lia.
Qed.

(** ** Operations that leave the requests in flight alone *)

Definition still {A} (m : M A) : Prop :=
  forall w w' a, m w = Ret (w', a) -> active_requests (handler w') = active_requests (handler w) /\ ticks w <= ticks w'.

Lemma still_Sy {A} (m : M A) n : still m -> triple (Sy n) m (fun _ => Sy n).
Proof.
  intros Hm w w' a (Hs & Hn & Hk) E _. apply Hm in E as [Ea Ht]. unfold Sy, in_flight_nonces in *. rewrite Ea.
  split_and!; [done|lia|done].
Qed.

Lemma still_synced {A} (m : M A) : still m -> triple synced m (fun _ => synced).
Proof. intros Hm w w' a Hs E HB. eapply Sy_synced, still_Sy; [exact Hm|exact Hs|done|done]. Qed.

Lemma still_aside {A} (m : M A) c : still m -> triple (fun w => synced w /\ aside c w) m (fun _ w => synced w /\ aside c w).
Proof.
  intros Hm w w' a [Hs (Hn & x & Hx & Hst)] E HB. split; [by eapply still_synced|]. apply Hm in E as [Ea Ht].
  unfold aside, in_flight_nonces in *. rewrite Ea. split; [done|]. exists x. split; [lia|done].
Qed.

Lemma still_since {A} (m : M A) n k :
  still m -> triple (fun w => Sy n w /\ since n k w) m (fun _ w => Sy n w /\ since n k w).
Proof.
  intros Hm w w' a [Hs (x & Hx & Hst)] E HB. split; [by eapply still_Sy|]. apply Hm in E as [_ Ht]. exists x. split; [lia|done].
Qed.

Lemma still_ret {A} (a : A) : still (run_ret a).
Proof. intros w w' a' [= <- <-]. auto. Qed.
Lemma still_bind {A A'} (m : M A) (k : A -> M A') : still m -> (forall a, still (k a)) -> still (m ≫= k).
Proof.
  intros Hm Hk w w' b. unfold mbind, run_bind. destruct (m w) as [[w1 a]|] eqn:E; [|done]. intros E2.
  apply Hm in E as [E ?]. apply Hk in E2 as [-> ?]. split; [done|lia].
Qed.
Lemma still_for_each {A} (l : list A) (f : A -> M unit) : (forall a, still (f a)) -> still (for_each l f).
Proof. intros Hf. induction l as [|a l IH]; simpl; [apply still_ret|]. by apply still_bind. Qed.
Lemma still_lift {A} (o : outcome A) : still (Handler.lift o : M A).
Proof. intros w w' a. unfold Handler.lift. destruct o; [|done]. intros [= <- <-]. auto. Qed.
Lemma still_take {A} (f : nat -> A) : still (Handler.take f : M A).
Proof. intros w w' a [= <- <-]. split; [done|]. simpl. lia. Qed.
Lemma still_self : still (self : M _).
Proof. intros w w' a [= <- <-]. auto. Qed.
Lemma still_modify f : (forall h, active_requests (f h) = active_requests h) -> still (modify f : M unit).
Proof. intros Hf w w' a [= <- <-]. simpl. auto. Qed.
Lemma still_log s : still (log s : M unit).
Proof. intros w w' a [= <- <-]. auto. Qed.
Lemma still_set_metric n : still (set_metric n : M unit).
Proof. intros w w' a [= <- <-]. auto. Qed.
Lemma still_update_bans f : still (update_bans f : M unit).
Proof. intros w w' a [= <- <-]. auto. Qed.

Hint Resolve still_ret still_lift still_take still_self still_log still_set_metric still_update_bans : still.
Ltac still_tac :=
  repeat (intros; first [solve [eauto 2 with still] | apply still_modify; done | apply still_bind | apply still_for_each | case_match]).

Lemma still_service_send out : still (service_send env out : M bool).
Proof. unfold service_send. still_tac. Qed.
Lemma still_send addr p : still (send env addr p : M unit).
Proof. unfold send. still_tac. Qed.
Lemma still_sessions_get_mut addr : still (sessions_get_mut env addr : M _).
Proof. unfold sessions_get_mut. still_tac. Qed.
Lemma still_sessions_write addr s : still (sessions_write addr s : M unit).
Proof. unfold sessions_write. still_tac. Qed.
Lemma still_sessions_insert addr s : still (sessions_insert env addr s : M unit).
Proof. unfold sessions_insert. still_tac. Qed.
Lemma still_sessions_remove addr : still (sessions_remove addr : M unit).
Proof. unfold sessions_remove. still_tac. Qed.
Lemma still_store_active_sessions : still (store_active_sessions env : M unit).
Proof. unfold store_active_sessions. still_tac. Qed.
Lemma still_remove_expected_response a : still (remove_expected_response a : M unit).
Proof. unfold remove_expected_response. still_tac. Qed.
Lemma still_add_expected_response a : still (add_expected_response env a : M unit).
Proof. unfold add_expected_response. still_tac. Qed.
Lemma still_session_encrypt s m : still (session_encrypt env s m : M _).
Proof. unfold session_encrypt. still_tac. Qed.
Hint Resolve still_service_send still_send still_sessions_get_mut still_sessions_write still_sessions_insert
  still_sessions_remove still_store_active_sessions still_remove_expected_response still_add_expected_response
  still_session_encrypt : still.
Lemma still_report_failure i e : still (report_failure env i e : M unit).
Proof. unfold report_failure. still_tac. Qed.
Lemma still_must_queue addr : still (must_queue env addr : M bool).
Proof. unfold must_queue, is_awaiting_session_to_be_established. still_tac. Qed.
Lemma still_replayed s l : still (replayed env s l : M _).
Proof. revert s. induction l; intros s; cbn [replayed]; still_tac. Qed.
Lemma still_get_updated_enr seq : still (get_updated_enr env seq : M _).
Proof. unfold get_updated_enr. still_tac. Qed.
Lemma still_remove_one_time_session addr id : still (remove_one_time_session env addr id : M _).
Proof. unfold remove_one_time_session. still_tac. Qed.
Hint Resolve still_report_failure still_must_queue still_replayed still_get_updated_enr still_remove_one_time_session : still.
Lemma still_one_time_ping addr s n m ad : still (one_time_ping env addr s n m ad : M unit).
Proof. unfold one_time_ping. still_tac. Qed.
Lemma still_send_response addr r : still (send_response env addr r : M unit).
Proof. unfold send_response. still_tac. Qed.
Lemma still_send_challenge r e : still (send_challenge env r e : M unit).
Proof. destruct r as [addr n]. unfold send_challenge. still_tac. Qed.
Hint Resolve still_one_time_ping still_send_response still_send_challenge : still.

(** ** Operations on the requests in flight *)

Notation keeps m := (triple synced m (fun _ => synced)).

Ltac sane := sane_tac release.
Ltac seq := eapply triple_bind; [|intros ?|intros ?; solve [sane]].
Ltac skip := seq; [apply still_synced; solve [still_tac]|].
Ltac quiet := apply still_synced; solve [still_tac].

Lemma triple_pre {A} (m : M A) (P P' : W -> Prop) Q : (forall w, P w -> P' w) -> triple P' m Q -> triple P m Q.
Proof. intros HP Hm w w' a Hw. by apply Hm, HP. Qed.

(** The state that was read is in step. *)
Lemma triple_known {A} (m : M A) w0 Q :
  (in_sync (active_requests (handler w0)) -> triple (fun w => synced w /\ w = w0) m Q) ->
  triple (fun w => synced w /\ w = w0) m Q.
Proof. intros Hm w w' a [Hs ->]. by apply Hm; [apply Hs|split]. Qed.

(** The tick an operation starts at. *)
Lemma triple_tick {A} (m : M A) Q : (forall n, triple (Sy n) m Q) -> triple synced m Q.
Proof. intros Hm w w' a Hs. exact (Hm (ticks w) w w' a Hs). Qed.

Lemma triple_insert addr c : triple (fun w => synced w /\ aside c w) (active_insert env addr c : M unit) (fun _ => synced).
Proof.
  unfold active_insert. seq; [apply still_aside; still_tac|]. intros w w' u [(Hs & Hn & Hk) (Hc & m & Hm & Hst)] E HB.
  unfold self, modify, mbind, run_bind in E. injection E as <- <-. unfold synced, Sy, in_sync, in_flight_nonces, nonces in *.
  simpl in *. rewrite dm_iter_insert. split_and!; [by apply sync_insert|lia|].
  intros k x [[<- <-]|[_ Hx]]%lookup_insert_Some; [eauto|by eapply Hk].
Qed.

Lemma triple_insert_since n addr c :
  triple (fun w => Sy n w /\ since n (call_nonce c) w) (active_insert env addr c : M unit) (fun _ => synced).
Proof.
  intros w w' u [Hs Hc] E HB. destruct (sane_active_insert env addr c w) as (w1 & u1 & E1 & Ht). rewrite E in E1.
  injection E1 as <- _. apply (triple_insert addr c w w' u); [|done|done]. split; [by eapply Sy_synced|].
  split; [eapply since_new; [done|done|lia]|]. destruct Hc as (m & Hm & Hst). exists m. split; [lia|done].
Qed.

(** The tables after requests were taken out. *)
Lemma triple_removed w0 a :
  in_sync a -> no_new (active_requests (handler w0)) a ->
  triple (fun w => synced w /\ w = w0) (modify (with_active a) : M unit) (fun _ => synced).
Proof.
  intros Ha Hno. apply triple_with_active. intros (_ & Hn & Hk). split_and!; [done|done|].
  intros k addr Hka. by eapply Hk, Hno.
Qed.

Lemma triple_withdrawn w0 a c :
  in_sync a -> no_new (active_requests (handler w0)) a -> withdrawn (active_requests (handler w0)) a c ->
  triple (fun w => synced w /\ w = w0) (modify (with_active a) : M unit) (fun _ w => synced w /\ aside c w).
Proof.
  intros Ha Hno [[x Hx] Hc]. apply triple_with_active. intros (_ & Hn & Hk). split; [split_and!; [done|done|]|].
  - intros k addr Hka. by eapply Hk, Hno.
  - split; [done|]. by eapply Hk.
Qed.

Lemma keeps_fail_session addr e b : keeps (fail_session env addr e b : M unit).
Proof.
  unfold fail_session. skip. apply triple_read. intros w0. seq; [apply triple_forget; quiet|].
  apply triple_read. intros w1. apply triple_known. intros Hs. apply triple_lift. intros [a1 removed] Er.
  rewrite release in Er. apply remove_requests_synced in Er as [Ha Hno]; [|done].
  seq; [by apply triple_removed|]. quiet.
Qed.

Lemma keeps_fail_request c e b : keeps (fail_request env c e b : M unit).
Proof. unfold fail_request. skip. apply keeps_fail_session. Qed.

Lemma increment_retries_nonce c c' d : increment_retries d c = Ret c' -> call_nonce c' = call_nonce c.
Proof. unfold increment_retries. destruct (arith _ _ _); [|done]. by intros [= <-]. Qed.

Lemma aside_nonce c c' w : call_nonce c' = call_nonce c -> aside c w -> aside c' w.
Proof. unfold aside. by intros ->. Qed.

Lemma triple_handle_timeout addr c :
  triple (fun w => synced w /\ aside c w) (handle_request_timeout env addr c : M unit) (fun _ => synced).
Proof.
  unfold handle_request_timeout. apply triple_read. intros w0. apply triple_forget. case_decide.
  - apply (triple_pre _ _ synced); [by intros w [Hs _]|]. skip. apply keeps_fail_request.
  - seq; [apply still_aside; still_tac|]. apply triple_lift. intros c' Hc'%increment_retries_nonce.
    eapply triple_pre; [|apply triple_insert]. intros w [Hs Ha]. split; [done|by eapply aside_nonce].
Qed.

(** The nonces of new packets. *)
Lemma stamped_session n k (r : vec byte 4) : k = r +++ random_nonce env n -> stamped env n k.
Proof.
  intros ->. unfold stamped. pose proof (vec_to_list_app r (random_nonce env n)) as E. simpl in E. rewrite E.
  rewrite drop_app_length' by (by rewrite length_vec_to_list). by left.
Qed.

Lemma session_encrypt_stamp s m w w' (r : Session.Session * result (Session.Error Enr) (Packet Enr)) :
  session_encrypt env s m w = Ret (w', r) ->
  ticks w <= ticks w' /\ forall p, r.2 = Ok p -> since (ticks w) (message_nonce (header p)) w'.
Proof.
  unfold session_encrypt, Handler.take, self, Handler.lift, mbind, run_bind, Session.encrypt_message, mbind, outcome_bind.
  destruct (Session.increment _ _) as [n|]; [|done]. intros [= <- <-]. simpl. split; [lia|]. intros p Hp.
  exists (ticks w). split; [simpl; lia|]. destruct (Session.from_crypto _) as [cipher|]; [|done]. injection Hp as <-.
  exact (stamped_session _ _ (Session.u32_to_be_bytes n) eq_refl).
Qed.

Lemma triple_session_encrypt n s m :
  triple (Sy n) (session_encrypt env s m : M _)
    (fun r w => Sy n w /\ forall p, r.2 = Ok p -> since n (message_nonce (header p)) w).
Proof.
  intros w w' r Hs E HB. split; [by eapply (still_Sy _ n (still_session_encrypt s m))|]. intros p Hp.
  destruct (session_encrypt_stamp s m w w' r E) as [_ Hst]. destruct (Hst p Hp) as (x & Hx & Hsx).
  exists x. split; [|done]. destruct Hs as (_ & ? & _). lia.
Qed.

Lemma triple_request_nonce n addr i r :
  triple (Sy n) (request_packet env addr i r : M _)
    (fun res w => Sy n w /\ forall p b, res = Ok (p, b) -> since n (message_nonce (header p)) w).
Proof.
  unfold request_packet. seq; [apply still_Sy; still_tac|]. destruct a as [session|].
  - seq; [apply triple_session_encrypt|]. destruct a as [session' packet].
    intros w w' res [Hs Hp] E HB. unfold mbind, run_bind in E.
    destruct (sessions_write addr session' w) as [[w1 []]|] eqn:E1; [|done]. injection E as <- <-.
    pose proof (still_sessions_write addr session' w w1 () E1) as [_ Ht].
    split; [by eapply (still_Sy _ n (still_sessions_write addr session'))|].
    intros p b Hr. destruct packet as [p'|]; [|done]. injection Hr as -> _.
    destruct (Hp p eq_refl) as (m & Hm & Hst). exists m. split; [lia|done].
  - intros w w' res Hs E HB. unfold Handler.take, self, mbind, run_bind in E. injection E as <- <-.
    split; [split_and!; [apply Hs|destruct Hs as (_ & ? & _); simpl; lia|apply Hs]|].
    intros p b Hr. unfold new_random in Hr. destruct (random_fill env (ticks w)); [|done]. injection Hr as <- _.
    exists (S (ticks w)). split; [destruct Hs as (_ & ? & _); simpl; lia|]. simpl. right. by left.
Qed.

Lemma keeps_send_request contact i r : keeps (send_request env contact i r : M _).
Proof.
  unfold send_request. apply triple_read. intros w0. apply triple_forget. case_decide; [quiet|]. skip. destruct a; [quiet|].
  apply triple_tick. intros n. seq; [apply triple_request_nonce|]. destruct a as [[p b]|e].
  - eapply triple_pre; [intros w [Hs Hp]; exact (conj Hs (Hp p b eq_refl))|].
    seq; [apply still_since; still_tac|]. seq; [apply still_since; still_tac|].
    seq; [by apply (triple_insert_since n _ (RequestCall.new contact p i r b))|]. quiet.
  - apply triple_ret. intros w [Hs _]. by eapply Sy_synced.
Qed.

Lemma keeps_send_pending_requests addr : keeps (send_pending_requests env addr : M unit).
Proof.
  unfold send_pending_requests. apply triple_read. intros w0. apply triple_forget. skip.
  apply (triple_for_each _ _ (fun _ => synced)); [|sane]. intros p l. seq; [apply keeps_send_request|].
  destruct a0; quiet.
Qed.

(** ** Replayed requests *)

(** The nonces of new packets are from ticks in order, from [n] on and before [t]. *)
Fixpoint ordered (n : nat) (l : list (MessageNonce * Packet Enr)) (t : nat) : Prop :=
  match l with
  | [] => True
  | (_, p) :: l => exists m, n <= m < t /\ stamped env m (message_nonce (header p)) /\ ordered (S m) l t
  end.

Lemma ordered_le n n' l t : n <= n' -> ordered n' l t -> ordered n l t.
Proof. destruct l as [|[k p] l]; simpl; [done|]. intros Hn (m & Hm & Ho). exists m. split; [lia|done]. Qed.

Lemma ordered_later n l t t' : t <= t' -> ordered n l t -> ordered n l t'.
Proof.
  intros Ht. revert n. induction l as [|[k p] l IH]; simpl; [done|]. intros n (m & Hm & Hst & Ho).
  exists m. split; [lia|]. split; [done|by apply IH].
Qed.

Lemma replayed_ordered s l w w' r : replayed env s l w = Ret (w', r) -> ticks w <= ticks w' /\ ordered (ticks w) r.2 (ticks w').
Proof.
  revert s w r. induction l as [|c l IH]; intros s w r; cbn [replayed].
  - intros [= <- <-]. split; [lia|done].
  - unfold mbind at 1, run_bind at 1. destruct (session_encrypt _ _ _ w) as [[w1 [s1 p]]|] eqn:E1; [|done].
    unfold mbind at 1, run_bind at 1. destruct (replayed _ s1 l w1) as [[w2 [s2 packets]]|] eqn:E2; [|done].
    intros [= <- <-]. apply session_encrypt_stamp in E1 as [Ht1 Hp]. apply IH in E2 as [Ht2 Ho]. split; [lia|]. simpl.
    destruct p as [p|]; [|by eapply ordered_le]. destruct (Hp p eq_refl) as (m & Hm & Hst).
    exists m. split; [lia|]. split; [done|]. eapply ordered_le; [|exact Ho]. lia.
Qed.

(** The state of the loop: packets [l] are left to put into the tables. *)
Definition replaying (l : list (MessageNonce * Packet Enr)) w : Prop := exists n, Sy n w /\ ordered n l (ticks w).

Lemma still_replaying {A} (m : M A) l : still m -> triple (replaying l) m (fun _ => replaying l).
Proof.
  intros Hm w w' a (n & Hs & Ho) E HB. exists n. split; [by eapply still_Sy|]. apply Hm in E as [_ Ht].
  by eapply ordered_later.
Qed.

Lemma triple_replay_packet w0 t k p l a :
  ActiveRequests.update_packet (debug_assertions env) (active_requests (handler w0)) t k p = Ret a ->
  triple (fun w => replaying ((k, p) :: l) w /\ w = w0) (modify (with_active a) : M unit) (fun _ => replaying l).
Proof.
  rewrite release. intros Eu w w' u [(n & Hs & m & Hm & Hst & Ho) ->] E HB. injection E as <- <-. simpl in *.
  assert (in_flight_nonces w0 !! message_nonce (header p) = None) as Hnew by (eapply since_new; [done|by exists m|lia]).
  destruct Hs as (Hs & Hn & Hk). apply update_packet_synced in Eu as [Ha Hna]; [|done|done].
  exists (S m). split; [|done]. split_and!; [done|simpl; lia|].
  intros k' addr [Hk'| ->]%Hna; [|exists m; split; [lia|done]]. apply Hk in Hk' as (x & Hx & Hsx). exists x. split; [lia|done].
Qed.

Lemma keeps_replay_active_requests addr k : keeps (replay_active_requests env addr k : M unit).
Proof.
  unfold replay_active_requests. skip. destruct a as [session|]; [|quiet].
  apply triple_read. intros w0. apply triple_forget.
  eapply (triple_bind _ _ _ (fun r => replaying r.2)).
  - intros w w' r Hs E HB. exists (ticks w). split; [by eapply (still_Sy _ _ (still_replayed _ _))|]. by apply replayed_ordered in E as [_ ?].
  - intros [session' packets]. seq; [apply still_replaying; still_tac|].
    eapply triple_conseq; [apply (triple_for_each packets _ replaying)|done|].
    + intros [old_nonce new_packet] l. seq; [apply still_replaying; still_tac|]. apply triple_read. intros w1.
      apply triple_lift. intros a1 Ea. seq; [by eapply triple_replay_packet|]. apply still_replaying. still_tac.
    + sane.
    + intros _ w (n & Hs & _). by eapply Sy_synced.
  - sane.
Qed.

Lemma keeps_new_session addr session k : keeps (new_session env addr session k : M unit).
Proof.
  unfold new_session. skip. destruct a as [current|].
  - skip. apply keeps_replay_active_requests.
  - skip. skip. apply keeps_send_pending_requests.
Qed.

(** ** Inbound packets *)

Lemma encrypt_with_header_nonce sk k iv contact key enr id cd m p s :
  Session.encrypt_with_header sk k iv contact key enr id cd m = Ok (p, s) -> message_nonce (header (p : Packet Enr)) = k.
Proof.
  unfold Session.encrypt_with_header. destruct (Session.from_crypto _) as [[[ek dk] pk]|]; [|done]. simpl.
  destruct (Crypto.sign_nonce _ _ _ _); [|done]. simpl. destruct (Session.from_crypto _); [|done]. by intros [= <- <-].
Qed.

Lemma keeps_answer_challenge c seq cd : keeps (answer_challenge env c seq cd : M unit).
Proof.
  unfold answer_challenge. destruct (handshake_sent c); [apply keeps_fail_request|]. skip. skip.
  apply triple_tick. intros n.
  eapply (triple_bind _ _ _ (fun k w => Sy n w /\ since n k w)).
  { intros w w' k Hs E HB. split; [by eapply (still_Sy _ _ (still_take _))|]. injection E as <- <-.
    exists (ticks w). split; [destruct Hs as (_ & ? & _); simpl; lia|]. right. by left. }
  2: { sane. }
  intros k. seq; [apply still_since; still_tac|]. apply triple_read. intros w0. apply triple_forget.
  destruct (Session.encrypt_with_header _ _ _ _ _ _ _ _ _) as [[p session]|e] eqn:Ee;
    [apply encrypt_with_header_nonce in Ee as <-|
     apply (triple_pre _ _ synced); [by intros w [Hs%Sy_synced _]|apply keeps_fail_request]].
  destruct (contact_enr (contact c)) as [enr|].
  - eapply (triple_bind _ _ _ (fun _ => synced)); [match goal with |- triple _ (active_insert _ _ ?x) _ => apply (triple_insert_since n _ x) end| |sane].
    intros _. skip. skip. apply keeps_new_session.
  - eapply (triple_bind _ _ _ (fun _ => synced)); [match goal with |- triple _ (active_insert _ _ ?x) _ => apply (triple_insert_since n _ x) end| |sane].
    intros _. skip. skip. seq; [apply keeps_send_request|]. apply keeps_new_session.
Qed.

Lemma keeps_handle_challenge src k seq cd : keeps (handle_challenge env src k seq cd : M unit).
Proof.
  unfold handle_challenge. apply triple_read. intros w0. apply triple_known. intros Hs. apply triple_lift.
  intros [a [[addr c]|]] Er; rewrite release in Er; apply remove_by_nonce_synced in Er as (Ha & Hno & Hw); try done;
    [|seq; [by apply triple_removed|by apply triple_ret]].
  seq; [by apply triple_withdrawn|]. case_decide; [apply triple_insert|].
  apply (triple_pre _ _ synced); [by intros w [? _]|]. case_decide; [quiet|apply keeps_answer_challenge].
Qed.

Lemma keeps_handle_response addr r : keeps (handle_response env addr r : M unit).
Proof.
  unfold handle_response. apply triple_read. intros w0. apply triple_known. intros Hs.
  destruct (remove_request _ addr _) as [a [c|]] eqn:Er; apply remove_request_synced in Er as (Ha & Hno & Hw); try done;
    [|seq; [by apply triple_removed|by apply triple_ret]].
  seq; [by apply triple_withdrawn|]. cbv zeta.
  assert (triple (fun w => synced w /\ aside c w) (_ ← remove_expected_response (socket_addr addr);
    _ ← service_send env (OutResponse addr r); run_ret () : M unit) (fun _ => synced)) as Hfin
    by (apply (triple_pre _ _ synced); [by intros w [? _]|quiet]).
  assert (forall rem, triple (fun w => synced w /\ aside c w) (_ ← active_insert env addr (set_remaining_responses c rem);
    _ ← service_send env (OutResponse addr r); run_ret () : M unit) (fun _ => synced)) as Hback.
  { intros rem. seq; [apply (triple_insert addr (set_remaining_responses c rem))|quiet]. }
  destruct (Rpc.resp_body r); [done| |done]. case_decide; [|done]. destruct (remaining_responses c); [|by apply Hback].
  apply triple_lift. intros rem _. case_decide; [by apply Hback|done].
Qed.

Lemma keeps_handle_enr_response addr body : keeps (handle_enr_response env addr body : M unit).
Proof.
  unfold handle_enr_response. cbv zeta. generalize (match body with Rpc.Nodes _ nodes => last nodes | _ => None end).
  intros [enr|]; [|apply keeps_fail_session]. destruct (verify_enr enr addr); [quiet|apply keeps_fail_session].
Qed.

Lemma keeps_handle_message addr k m ad : keeps (handle_message env addr k m ad : M unit).
Proof.
  unfold handle_message. skip. destruct a as [session|]; [|quiet].
  destruct (Session.decrypt_message _ _ _ _) as [session' [m'|e]]; skip.
  - destruct (Rpc.decode m') as [[r|r]|]; [quiet| |quiet].
    case_decide; [|apply keeps_handle_response]. skip. apply keeps_handle_enr_response.
  - seq; [apply keeps_fail_session|]. quiet.
Qed.

Lemma keeps_handle_auth_message addr k sig pk r m ad : keeps (handle_auth_message env addr k sig pk r m ad : M unit).
Proof.
  unfold handle_auth_message. apply triple_read. intros w0. apply triple_forget.
  destruct (dm_remove _ addr) as [d [challenge|]]; [|quiet]. skip.
  destruct (Session.establish_from_challenge _ _ _ _ _ _ _) as [[session enr]|e].
  - skip. destruct (verify_enr enr addr).
    + skip. seq; [apply keeps_new_session|]. apply keeps_handle_message.
    + seq; [apply keeps_fail_session|]. quiet.
  - destruct e; try apply keeps_fail_session. quiet.
Qed.

(** ** Runs *)

Lemma keeps_step e : keeps (step env e : M unit).
Proof.
  destruct e as [[c r|addr r|ref enr]|p| | |]; cbn [step handle_service]; [|quiet|quiet| | |  |quiet].
  - seq; [apply keeps_send_request|]. quiet.
  - unfold process_inbound_packet. destruct (kind (in_header p)).
    + apply keeps_handle_message.
    + apply triple_lift. intros cd _. apply keeps_handle_challenge.
    + apply keeps_handle_auth_message.
  - skip. apply triple_read. intros w0. apply triple_known. intros Hs. destruct (poll_next _ _) as [a1 polled] eqn:Ep.
    apply poll_next_synced in Ep as (Ha & Hno & Hw); [|done].
    destruct polled as [[[[addr c]|]|]|]; try (seq; [by apply triple_removed|quiet]).
    seq; [by apply triple_withdrawn|]. apply triple_handle_timeout.
  - skip. apply triple_read. intros w0. apply triple_forget. destruct (dm_poll_next _ _) as [d polled]. skip.
    destruct polled as [[[[addr c]|]|]|]; try quiet. apply keeps_send_pending_requests.
Qed.

Lemma keeps_start events : Forall event_ok events -> keeps (start env events : M unit).
Proof.
  intros Hok. unfold start. induction Hok as [|e events He Hok IH]; cbn [for_each]; [by apply triple_ret|].
  eapply triple_bind; [apply keeps_step|intros ?; exact IH|intros ?; by apply (sane_start env release)].
Qed.
End Sync.
