(* ===== verification/HandlerRun.v ===== *)
(** * Runs of the handler

    The invariant over every sequence of events of the loop of
    src/src/handler/mod.rs, from the handler [spawn] builds. *)

From stdpp Require Import strings.
From S2P Require Import Prelude Bytes Key Rpc Maps LruTimeCache Packet PacketProofs NodeInfo Crypto.
From S2P Require Import ActiveRequests Session Bucket Globals Handler HandlerLogic HandlerAccount.
From S2P Require Import HandlerInv HandlerTriples HandlerSample.
Import Packet NodeInfo RequestCall ActiveRequests Handler.
Local Open Scope Z_scope.

(** The requests from outside with an id, in a sequence of events. *)
Definition submits {Enr} `{!K256} (id : Rpc.RequestId) (e : Event Enr) : nat :=
  match e with EvService (InRequest _ r) => one_if (Rpc.req_id r = id) | _ => 0%nat end.

Definition submitted {Enr} `{!K256} (events : list (Event Enr)) (id : Rpc.RequestId) : Z :=
  Z.of_nat (sum_list_with (submits id) events).

(** A WHOAREYOU packet that was decoded has the authenticated data of a challenge. *)
Lemma decoded_inbound_ok {Enr} `{!EnrCodec Enr} `{!EnrCodecLaws Enr} `{!ProtocolIdentity} `{!Aes128Ctr}
    local_id data src (p : Packet Enr) ad :
  decode local_id data = Return (p, ad) -> inbound_ok (mkInbound src (header p) (message p) ad).
Proof.
  intros E. pose proof (decode_sound (Enr := Enr) local_id data) as Hs. rewrite E in Hs.
  destruct Hs as (_ & _ & Hrec & _). unfold inbound_ok. cbn [in_header in_authenticated_data].
  destruct (kind (header p)) as [|n seq|] eqn:Ek; [done| |done].
  destruct Hrec as [_ <-]; [done|].
  destruct (whoareyou_challenge_data p) as [cd Hcd]; [unfold is_whoareyou; by rewrite Ek|].
  apply array_from_Some in Hcd. rewrite <-Hcd. apply length_vec_to_list.
Qed.

Section Run.
Context {Enr D C SM OM : Type} `{!K256} `{!EnrCrate Enr} `{!Primitives} `{!EnrCodec Enr} `{!ProtocolIdentity}.
Context `{!Rlp Enr} `{!HashMapDelay D MessageNonce NodeAddress} `{!HashMapDelay C NodeAddress (Challenge Enr)}.
Context `{!HashMapDelayLaws C NodeAddress (Challenge Enr)}.
Context `{!LinkedHashMap SM NodeAddress (Session.Session * Z)}.
Context `{!LinkedHashMap OM NodeAddress ((Rpc.RequestId * Session.Session) * Z)}.
Context `{!LinkedHashMapLaws OM NodeAddress ((Rpc.RequestId * Session.Session) * Z)}.
Variable env : Env Enr.
Hypothesis release : debug_assertions env = false.
Notation W := (World Enr D C SM OM).
Notation M := (Run W).
Notation none := (fun _ : SocketAddr => 0).

Ltac sane := sane_tac release.
Ltac seq := eapply triple_bind; [|intros ?|intros ?; solve [sane]].

Lemma triple_handle_service i owed :
  triple (Inv 0 owed none) (handle_service env i : M unit)
    (fun _ => Inv 0 (fun id => owed id + Z.of_nat (submits id (EvService i))) none).
Proof.
  destruct i as [c r|addr r|ref enr]; cbn [handle_service submits].
  - seq; [by apply triple_send_request|]. destruct a as [u|e].
    + apply triple_ret. intros w HI. by eapply Inv_weaken.
    + seq; [apply (triple_service_send env _ _ _ (fun id => owed id + Z.of_nat (one_if (Rpc.req_id r = id))))|by apply triple_ret].
      intros id. simpl. lia.
  - eapply triple_conseq; [by apply triple_send_response|done|]. intros u w HI.
    eapply Inv_weaken; [exact HI|lia|intros id; cbv beta; lia|done].
  - eapply triple_conseq; [by apply triple_send_challenge|done|]. intros u w HI.
    eapply Inv_weaken; [exact HI|lia|intros id; cbv beta; lia|done].
Qed.

Lemma triple_process_inbound_packet p owed :
  triple (Inv 0 owed none) (process_inbound_packet env p : M unit) (fun _ => Inv 0 owed none).
Proof.
  unfold process_inbound_packet. destruct (kind (in_header p)).
  - by apply triple_handle_message.
  - apply triple_lift. intros cd _. by apply triple_handle_challenge.
  - by apply triple_handle_auth_message.
Qed.

Lemma triple_poll_requests owed :
  triple (Inv 0 owed none) (step env EvPollRequests : M unit) (fun _ => Inv 0 owed none).
Proof.
  cbn [step]. seq; [apply frames_triple, frames_take|]. apply triple_read. intros w0.
  destruct (poll_next _ _) as [a1 polled] eqn:Ep. apply poll_next_taken in Ep.
  destruct polled as [[[[addr c]|]|]|]; try (seq; [by apply triple_same|by apply triple_ret]).
  seq; [by apply triple_taken|]. apply triple_pure. intros Hc. by apply triple_handle_request_timeout.
Qed.

Lemma triple_poll_challenges owed :
  triple (Inv 0 owed none) (step env EvPollChallenges : M unit) (fun _ => Inv 0 owed none).
Proof.
  cbn [step]. seq; [apply frames_triple, frames_take|]. apply triple_read. intros w0.
  pose proof (dm_polled (active_challenges (handler w0)) a) as Hp.
  destruct (dm_poll_next _ a) as [d polled].
  assert (forall s, (msum (fun x (_ : Challenge Enr) => at_socket s x) (dm_iter d) <=
                msum (fun x (_ : Challenge Enr) => at_socket s x) (dm_iter (active_challenges (handler w0))))%nat) as Hle.
  { intros s. destruct polled as [[[[addr c]|]|]|]; try (by rewrite Hp). destruct Hp as [_ ->].
    pose proof (msum_delete (fun x (_ : Challenge Enr) => at_socket s x) (dm_iter (active_challenges (handler w0))) addr). lia. }
  seq.
  - instantiate (1 := fun _ => Inv 0 owed none). intros w w' u [HI ->] E _. injection E as <- <-.
    eapply Inv_challenges; [exact HI|done..|]. intros s. unfold challenges. specialize (Hle s).
    cbn [handler with_challenges active_challenges]. lia.
  - destruct polled as [[[[addr c]|]|]|]; [|by apply triple_ret..]. by apply triple_send_pending_requests.
Qed.

Lemma triple_step e owed :
  triple (Inv 0 owed none) (step env e : M unit) (fun _ => Inv 0 (fun id => owed id + Z.of_nat (submits id e)) none).
Proof.
  assert (forall m : M unit, triple (Inv 0 owed none) m (fun _ => Inv 0 owed none) ->
    triple (Inv 0 owed none) m (fun _ => Inv 0 (fun id => owed id + Z.of_nat 0) none)) as Hadd.
  { intros m Hm. eapply triple_conseq; [exact Hm|done|]. intros u w HI.
    eapply Inv_weaken; [exact HI|lia|intros id; lia|done]. }
  destruct e; [apply triple_handle_service|apply Hadd..].
  - apply triple_process_inbound_packet.
  - apply triple_poll_requests.
  - apply triple_poll_challenges.
  - cbn [step]. unfold unban_nodes_check. apply frames_triple.
    apply frames_bind; [apply frames_take|intros ?]. apply frames_bind; [apply frames_take|intros ?].
    apply frames_update_bans.
Qed.

Lemma triple_start events owed :
  Forall event_ok events ->
  triple (Inv 0 owed none) (start env events : M unit) (fun _ => Inv 0 (fun id => owed id + submitted events id) none).
Proof.
  intros Hok. revert owed. unfold start. induction Hok as [|e events He Hok IH]; intros owed; cbn [for_each].
  - apply triple_ret. intros w HI. eapply Inv_weaken; [exact HI|lia| |done]. intros id. unfold submitted. simpl. lia.
  - eapply triple_bind; [apply triple_step|intros u|intros u; by apply (sane_start env release)].
    eapply triple_conseq; [apply IH|done|]. intros u' w HI.
    eapply Inv_weaken; [exact HI|lia| |done]. intros id. unfold submitted. simpl. lia.
Qed.

Definition spawned (w : W) : Prop :=
  exists request_retries node_id key listen_config request_timeout session_timeout session_cache_capacity,
    w = initial (Handler.new request_retries node_id key listen_config request_timeout session_timeout
                   session_cache_capacity).

Lemma spawned_Inv w : spawned w -> Inv 0 (fun _ => 0) none w.
Proof.
  intros (? & ? & ? & ? & ? & ? & ? & ->). split.
  - intros id. unfold open, failures, responses, calls, queued.
    cbn [handler initial Handler.new active_requests ActiveRequests.new active_requests_mapping pending_requests
         sent sum_list_with]. rewrite !weight_empty. simpl. lia.
  - intros s. unfold awaited, expected, calls, challenges. simpl. rewrite weight_empty, dm_iter_new, msum_empty, lookup_empty. done.
  - intros s. unfold expected. simpl. rewrite lookup_empty. simpl. lia.
  - intros addr c (l & Hl & _). unfold calls in Hl. simpl in Hl. by rewrite lookup_empty in Hl.
Qed.

Lemma run_Inv w0 events :
  spawned w0 -> Forall event_ok events ->
  exists w, start env events w0 = Ret (w, ()) /\
    (Z.of_nat (ticks w) < 2 ^ 64 -> Inv 0 (submitted events) none w).
Proof.
  intros Hw Hok. destruct (sane_start env release events Hok w0) as (w & [] & E & _). exists w. split; [done|].
  intros Ht. pose proof (triple_start events (fun _ => 0) Hok w0 w () (spawned_Inv w0 Hw) E) as HI.
  eapply Inv_weaken; [apply HI; by apply B_spec|lia|intros id; cbv beta; lia|done].
Qed.

(** whatever the service asks, whatever packets arrive, whatever expires
    and in whatever order: the loop of a release build does not panic, and no
    request of the service is lost or reported twice.  For every request id,
    the failures reported, the requests in flight and the requests that wait
    for a session are at most the requests submitted, and with the responses
    reported they are at least that many. *)
Theorem handler_requests_accounted w0 events :
  spawned w0 -> Forall event_ok events ->
  exists w, start env events w0 = Ret (w, ()) /\
    (Z.of_nat (ticks w) < 2 ^ 64 ->
     forall id, open w id <= submitted events id <= open w id + Z.of_nat (responses w id)).
Proof.
  intros Hw Hok. destruct (run_Inv w0 events Hw Hok) as (w & E & HI). exists w. split; [done|].
  intros Ht id. by apply HI.
Qed.

(** In the same runs, the packet filter lets through everything the handler
    waits for: for every socket address the count of expected responses is at
    least the number of active requests and of challenges sent to it. *)
Theorem handler_responses_expected w0 events :
  spawned w0 -> Forall event_ok events ->
  exists w, start env events w0 = Ret (w, ()) /\
    (Z.of_nat (ticks w) < 2 ^ 64 -> forall s, awaited w s <= expected w s).
Proof.
  intros Hw Hok. destruct (run_Inv w0 events Hw Hok) as (w & E & HI). exists w. split; [done|].
  intros Ht s. pose proof (inv_slack _ _ _ _ (HI Ht) s) as Hs. cbv beta in Hs. lia.
Qed.
End Run.

(** ** The theorems at a concrete run *)
Import HandlerSample.

Lemma sample_ticks :
  match start env_a sample_events world_a with
  | Ret (w, _) => (ticks w <? 1000)%nat
  | Panic => false
  end = true.
Proof. by vm_compute. Qed.

Lemma handler_requests_accounted_witness :
  exists w, start env_a sample_events world_a = Ret (w, ()) /\
    open w [x07] <= submitted sample_events [x07] <= open w [x07] + Z.of_nat (responses w [x07]).
Proof.
  destruct (handler_requests_accounted env_a eq_refl world_a sample_events) as (w & E & Hw).
  - by eexists _, _, _, _, _, _, _.
  - repeat constructor.
  - exists w. split; [exact E|]. apply Hw. pose proof sample_ticks as Ht. rewrite E in Ht.
    apply Nat.ltb_lt in Ht. lia.
Defined.

Lemma handler_responses_expected_witness :
  exists w, start env_a sample_events world_a = Ret (w, ()) /\
    forall s, awaited w s <= expected w s.
Proof.
  destruct (handler_responses_expected env_a eq_refl world_a sample_events) as (w & E & Hw).
  - by eexists _, _, _, _, _, _, _.
  - repeat constructor.
  - exists w. split; [exact E|]. apply Hw. pose proof sample_ticks as Ht. rewrite E in Ht.
    apply Nat.ltb_lt in Ht. lia.
Defined.
