(* ===== verification/HandlerSettle.v ===== *)
(** * Requests do not stay in flight

    A handler that gets no packets and no orders, and whose clock goes on: every
    request in flight is sent again until its retries are used up and then
    reported as failed, with all that wait behind it.  The requests that wait
    for a session without a request in flight to their node are not settled
    this way.

    One way such requests come about: the answer to a challenge finds a session,
    and the requests that waited for it are neither sent nor reported.  A run of
    two handlers whose handshakes cross gets there. *)

From stdpp Require Import strings.
From S2P Require Import Prelude Bytes Key Bucket Rpc Maps LruTimeCache Packet PacketProofs NodeInfo Crypto ActiveRequests.
From S2P Require Import ActiveRequestsProofs Session Errors Globals Handler HandlerLogic HandlerAccount HandlerInv HandlerSample.
From S2P Require Import HandlerTriples HandlerSync HandlerRun.
Import Packet NodeInfo RequestCall ActiveRequests Handler.

Section Settle.
Context {Enr D C SM OM : Type} `{!K256} `{!EnrCrate Enr} `{!Primitives} `{!EnrCodec Enr} `{!ProtocolIdentity}.
Context `{!Rlp Enr} `{!HashMapDelay D MessageNonce NodeAddress} `{!HashMapDelay C NodeAddress (Challenge Enr)}.
Context `{!HashMapDelayLaws D MessageNonce NodeAddress} `{!HashMapDelayExpiry D MessageNonce NodeAddress}.
Context `{!LinkedHashMap SM NodeAddress (Session.Session * Z)}.
Context `{!LinkedHashMap OM NodeAddress ((Rpc.RequestId * Session.Session) * Z)}.
Variable env : Env Enr.
Hypothesis release : debug_assertions env = false.
Notation W := (World Enr D C SM OM).
Notation M := (Run W).
Implicit Types (w : W) (addr : NodeAddress) (c : RequestCall Enr).

(** Failures [f] were reported, and the tables are as they were. *)
Record reports (f : Rpc.RequestId -> nat) w w' : Prop := mkReports {
  rep_active : active_requests (handler w') = active_requests (handler w);
  rep_queued : queued w' = queued w;
  rep_challenges : challenges w' = challenges w;
  rep_retries : request_retries (handler w') = request_retries (handler w);
  rep_ticks : ticks w <= ticks w';
  rep_failures id : failures w' id = failures w id + f id;
  rep_responses id : responses w' id = responses w id;
}.

Lemma reports_trans f g w1 w2 w3 : reports f w1 w2 -> reports g w2 w3 -> reports (fun id => f id + g id) w1 w3.
Proof.
  intros [] []. split; try congruence; [lia|]. intros id. rewrite rep_failures1, rep_failures0. lia.
Qed.

Lemma reports_ext f g w w' : (forall id, f id = g id) -> reports f w w' -> reports g w w'.
Proof. intros Hfg []. split; try done. intros id. by rewrite rep_failures0, Hfg. Qed.

Lemma report_failure_reports i e w :
  exists w', report_failure env i e w = Ret (w', ()) /\ reports (ext i) w w'.
Proof.
  destruct i as [id|id]; simpl; eexists; (split; [reflexivity|]); split; try done; simpl; try lia;
    intros id'; unfold failures; simpl; lia.
Qed.

Lemma remove_expected_reports s w :
  exists w', remove_expected_response s w = Ret (w', ()) /\ reports (fun _ => 0) w w'.
Proof. eexists. split; [reflexivity|]. split; try done; simpl; lia. Qed.

(** A loop that reports its elements. *)
Lemma for_each_reports {X} (g : X -> HandlerReqId) (f : X -> M unit) l w :
  (forall x w, exists w', f x w = Ret (w', ()) /\ reports (ext (g x)) w w') ->
  exists w', for_each l f w = Ret (w', ()) /\ reports (fun id => sum_list_with (fun x => ext (g x) id) l) w w'.
Proof.
  intros Hf. revert w. induction l as [|x l IH]; intros w; simpl.
  - exists w. split; [done|]. split; try done; simpl; lia.
  - destruct (Hf x w) as (w1 & E1 & R1). destruct (IH w1) as (w2 & E2 & R2). exists w2.
    split; [unfold mbind, run_bind; by rewrite E1|]. by eapply reports_trans.
Qed.

(** The requests that wait for [addr] are dropped and reported. *)
Lemma drop_pending_reports addr e w :
  exists w1, (match pending_requests (handler w) !! addr with
       | Some to_remove =>
           _ ← modify (with_pending (delete addr (pending_requests (handler w))));
           for_each to_remove (fun p => report_failure env (pending_request_id p) e)
       | None => run_ret ()
       end : M unit) w = Ret (w1, ()) /\
    active_requests (handler w1) = active_requests (handler w) /\ queued w1 = delete addr (queued w) /\
    challenges w1 = challenges w /\ request_retries (handler w1) = request_retries (handler w) /\ ticks w <= ticks w1 /\
    forall id, open w1 id = open w id /\ responses w1 id = responses w id.
Proof.
  unfold queued. destruct (pending_requests (handler w) !! addr) as [l|] eqn:El; [|exists w; by rewrite delete_id].
  unfold mbind, run_bind. cbn [modify].
  destruct (for_each_reports pending_request_id (fun p => report_failure env (pending_request_id p) e) l
    (mkWorld (with_pending (delete addr (pending_requests (handler w))) (handler w)) (sent w) (ticks w)
       (metric_active_sessions w) (permit_ban_list w)) (fun x => report_failure_reports _ e)) as (w1 & E1 & R).
  exists w1. destruct R as [Ha Hq Hc Hr Ht Hf Hre]. unfold queued, challenges in *. cbn in Ha, Hq, Hc, Hr, Ht. split_and!; try done.
  intros id. split; [|apply Hre]. unfold open. rewrite Hf. unfold queued, calls. rewrite Hq, Ha.
  pose proof (weight_delete (pending_ext id) (pending_requests (handler w)) addr) as Hw. rewrite El in Hw.
  change (total_of (pending_ext id) addr (default [] (Some l))) with (sum_list_with (fun x => ext (pending_request_id x) id) l) in Hw.
  unfold failures in *. cbn [sent]. lia.
Qed.

(** The requests in flight to [addr] are dropped and reported. *)
Lemma drop_calls_reports addr e w :
  in_sync (active_requests (handler w)) ->
  exists w', ('(a, removed) ← lift (remove_requests (debug_assertions env) (active_requests (handler w)) addr);
    _ ← modify (with_active a);
    for_each (default [] removed) (fun req =>
      _ ← report_failure env (request_id req) e;
      remove_expected_response (socket_addr addr)) : M unit) w = Ret (w', ()) /\
    in_sync (active_requests (handler w')) /\ calls w' = delete addr (calls w) /\ queued w' = queued w /\
    challenges w' = challenges w /\ request_retries (handler w') = request_retries (handler w) /\ ticks w <= ticks w' /\
    forall id, open w' id = open w id /\ responses w' id = responses w id.
Proof.
  intros Hs. rewrite release. destruct (remove_requests_release (active_requests (handler w)) addr) as [[a removed] Er].
  rewrite Er. unfold lift, mbind, run_bind. cbn [modify].
  destruct (for_each_reports request_id (fun req => _ ← report_failure env (request_id req) e;
      remove_expected_response (socket_addr addr)) (default [] removed)
    (mkWorld (with_active a (handler w)) (sent w) (ticks w) (metric_active_sessions w) (permit_ban_list w)))
    as (w' & E & [Ha Hq Hc Hr Ht Hf Hre]).
  { intros c w0. destruct (report_failure_reports (request_id c) e w0) as (w1 & E1 & R1).
    destruct (remove_expected_reports (socket_addr addr) w1) as (w2 & E2 & R2). exists w2.
    split; [unfold mbind, run_bind; by rewrite E1|]. eapply reports_ext; [|by eapply reports_trans]. intros id. simpl. lia. }
  exists w'. destruct (remove_requests_synced _ _ _ _ Hs Er) as [Hsa _].
  assert (active_requests_mapping a = delete addr (calls w)) as Hm.
  { unfold remove_requests in Er. unfold calls. destruct (_ !! addr) as [l|] eqn:El.
    - case_decide; [|destruct (remove_nonces _ _ _); [|done]]; by injection Er as <- _.
    - injection Er as <- _. by rewrite delete_id. }
  pose proof (remove_requests_taken _ _ _ _ _ Er) as (Hw & _).
  unfold queued, challenges, calls in *. cbn in Ha, Hq, Hc, Hr, Ht. rewrite Ha. split_and!; try done.
  intros id. split; [|apply Hre]. unfold open. rewrite Hf. unfold queued, calls. rewrite Hq, Ha. specialize (Hw (call_ext id)).
  change (total_of (call_ext id) addr (default [] removed)) with
    (sum_list_with (fun x => ext (request_id x) id) (default [] removed)) in Hw.
  unfold failures in *. cbn [sent]. lia.
Qed.

(** [fail_session] that keeps the session. *)
Lemma fail_session_reports addr e w :
  in_sync (active_requests (handler w)) ->
  exists w', fail_session env addr e false w = Ret (w', ()) /\ in_sync (active_requests (handler w')) /\
    calls w' = delete addr (calls w) /\ queued w' = delete addr (queued w) /\ challenges w' = challenges w /\
    request_retries (handler w') = request_retries (handler w) /\ ticks w <= ticks w' /\
    forall id, open w' id = open w id /\ responses w' id = responses w id.
Proof.
  intros Hs. destruct (drop_pending_reports addr e w) as (w1 & E1 & Ha & Hq & Hc & Hr & Ht & Ho).
  destruct (drop_calls_reports addr e w1) as (w2 & E2 & Hs2 & Hm2 & Hq2 & Hc2 & Hr2 & Ht2 & Ho2); [by rewrite Ha|].
  exists w2. split.
  - unfold fail_session. unfold mbind at 1, run_bind at 1. cbn [run_ret]. unfold mbind at 1, run_bind at 1. cbn [self].
    unfold mbind at 1, run_bind at 1. rewrite E1. exact E2.
  - unfold calls in *. rewrite Ha in Hm2. split_and!; try congruence; [lia|]. intros id.
    destruct (Ho id) as [<- <-]. apply Ho2.
Qed.

(** ** Polls *)

(** The turns left to a request in flight, and to all of them. *)
Definition turns (limit : Z) (_ : NodeAddress) c : nat := S (Z.to_nat (limit - retries c)).
Definition turns_left w : nat := weight (turns (request_retries (handler w))) (calls w).

(** A state that polls lead to from [w0]. *)
Record settling w0 w : Prop := mkSettling {
  st_sync : in_sync (active_requests (handler w));
  st_stored addr c : stored (calls w) addr c -> node_address (contact c) = addr;
  st_queued addr l : queued w !! addr = Some l ->
    queued w0 !! addr = Some l /\ (calls w0 !! addr = None \/ is_Some (calls w !! addr));
  st_challenges : challenges w = challenges w0;
  st_retries : request_retries (handler w) = request_retries (handler w0);
  st_open id : open w id = open w0 id /\ responses w id = responses w0 id;
}.

Definition due w : Z := dm_due (active_requests_nonce_mapping (active_requests (handler w))).

(** What a poll does to the table of the nonces. *)
Lemma poll_next_due (a a' : ActiveRequests Enr D) t r :
  in_sync a -> poll_next a t = (a', r) ->
  match r with
  | Ready (Some (Ok (addr, c))) => True
  | _ => active_requests_mapping a' = active_requests_mapping a /\
         dm_due (active_requests_nonce_mapping a') = dm_due (active_requests_nonce_mapping a) /\
         ~ (active_requests_mapping a <> ∅ /\ (dm_due (active_requests_nonce_mapping a) <= t)%Z)
  end.
Proof.
  intros Hs. unfold poll_next. pose proof (dm_polled (active_requests_nonce_mapping a) t) as Hp.
  pose proof (dm_due_waits (active_requests_nonce_mapping a) t) as Hw.
  pose proof (dm_due_ready (active_requests_nonce_mapping a) t) as Hr.
  assert (active_requests_mapping a <> ∅ -> dm_iter (active_requests_nonce_mapping a) <> ∅) as Hne.
  { intros (addr & l & Hl)%map_choose He. destruct l as [|c l]; [by apply (sync_nonempty _ _ Hs) in Hl|].
    assert (dm_iter (active_requests_nonce_mapping a) !! call_nonce c = Some addr) as Hk
      by (apply (sync_nonce _ _ Hs); exists (c :: l), c; split_and!; [done|by left|done]).
    by rewrite He, lookup_empty in Hk. }
  destruct (dm_poll_next _ t) as [d [[[[k addr]|]|]|]];
    try (intros [= <- <-]; split_and!; [done|done|]; intros [Hm Ht]; by destruct (Hr (Hne Hm) Ht) as (? & ? & ? & ?)).
  destruct Hp as [Hk Hd]. destruct (sync_position _ _ _ _ Hs Hk) as (l & i & c & Hl & Hpos & Hi & <-).
  cbn [active_requests_mapping]. rewrite Hl, Hpos, Hi. by intros [= <- <-].
Qed.

(** One more retry. *)
Lemma increment_retries_more c c' :
  (retries c < 255)%Z -> increment_retries false c = Ret c' ->
  (retries c < retries c')%Z /\ contact c' = contact c /\ request_id c' = request_id c /\ call_nonce c' = call_nonce c.
Proof.
  intros Hc. unfold increment_retries, arith. case_decide; simpl; intros [= <-]; split_and!; try done; simpl; [lia|].
  pose proof (Z.mod_pos_bound (retries c + 1) (2 ^ 8)). lia.
Qed.

(** The request that a poll yields. *)
Lemma poll_next_ready (a a' : ActiveRequests Enr D) t addr c :
  poll_next a t = (a', Ready (Some (Ok (addr, c)))) ->
  exists l i, active_requests_mapping a !! addr = Some l /\ l !! i = Some c /\
    active_requests_mapping a' = put_requests (active_requests_mapping a) addr (delete i l).
Proof.
  unfold poll_next. destruct (dm_poll_next _ t) as [d [[[[k x]|]|]|]]; [|done..]. cbn [active_requests_mapping].
  destruct (active_requests_mapping a !! x) as [l|] eqn:Hl; [|done]. destruct (position_nonce k l) as [i|]; [|done].
  destruct (l !! i) as [c'|] eqn:Hi; [|done]. intros [= <- <- <-]. by exists l, i.
Qed.

(** [w'] is [w] after the request [c] was taken out of the tables. *)
Record withdrew w w' addr c : Prop := mkWithdrew {
  wd_sync : in_sync (active_requests (handler w'));
  wd_nonce : nonces (active_requests (handler w')) !! call_nonce c = None;
  wd_taken : taken (calls w) (calls w') addr c;
  wd_others x : x <> addr -> calls w' !! x = calls w !! x;
  wd_queued : queued w' = queued w;
  wd_challenges : challenges w' = challenges w;
  wd_retries : request_retries (handler w') = request_retries (handler w);
  wd_ticks : ticks w < ticks w';
  wd_sent : sent w' = sent w;
}.

Lemma withdrew_open w w' addr c id :
  withdrew w w' addr c -> (open w' id + ext_z (request_id c) id = open w id)%Z /\ responses w' id = responses w id.
Proof.
  intros []. unfold open, responses, failures. rewrite wd_queued0, wd_sent0. destruct wd_taken0 as (Hw & _).
  specialize (Hw (call_ext id)). change (call_ext id addr c) with (ext (request_id c) id) in Hw. unfold ext_z. lia.
Qed.

(** A request is given up. *)
Lemma out_of_retries w0 w w1 addr c :
  settling w0 w -> withdrew w w1 addr c ->
  exists w', (_ ← remove_expected_response (socket_addr addr); fail_request env c Timeout false : M unit) w1 = Ret (w', ()) /\
    settling w0 w' /\ ticks w < ticks w' /\ turns_left w' < turns_left w.
Proof.
  intros Hst Hwd. pose proof Hwd as [Hs Hn (Hw & Hstc & Hsub) Hoth Hq Hch Hr Ht Hse].
  pose proof (st_stored _ _ Hst _ _ Hstc) as Hc. unfold mbind at 1, run_bind at 1.
  destruct (remove_expected_reports (socket_addr addr) w1) as (w2 & -> & R2). unfold fail_request. unfold mbind at 1, run_bind at 1.
  destruct (report_failure_reports (request_id c) Timeout w2) as (w3 & -> & R3).
  pose proof (reports_trans _ _ _ _ _ R2 R3) as [Ha3 Hq3 Hc3 Hr3 Ht3 Hf3 Hre3]. rewrite Hc.
  destruct (fail_session_reports addr Timeout w3) as (w' & -> & Hs' & Hm' & Hq' & Hc' & Hr' & Ht' & Ho'); [by rewrite Ha3|].
  exists w'. assert (calls w3 = calls w1) as Hca by (unfold calls; by rewrite Ha3). split; [done|]. split; [split|].
  - done.
  - intros x y. rewrite Hm', Hca. intros Hy%stored_delete_key. by apply (st_stored _ _ Hst), Hsub.
  - intros x l. rewrite Hq', Hq3, Hq. intros [Hx Hl]%lookup_delete_Some. rewrite Hm', lookup_delete_ne, Hca, Hoth by done.
    by apply (st_queued _ _ Hst).
  - rewrite Hc', Hc3, Hch. apply Hst.
  - rewrite Hr', Hr3, Hr. apply Hst.
  - intros id. destruct (Ho' id) as [-> ->]. destruct (st_open _ _ Hst id) as [<- <-].
    destruct (withdrew_open _ _ _ _ id Hwd) as [<- <-]. split; [|apply Hre3].
    unfold open. rewrite Hf3, Hq3, Hca. unfold ext_z. simpl. lia.
  - split; [lia|]. unfold turns_left. rewrite Hm', Hca, Hr', Hr3, Hr.
    pose proof (weight_delete (turns (request_retries (handler w))) (calls w1) addr).
    specialize (Hw (turns (request_retries (handler w)))). unfold turns in Hw at 2. lia.
Qed.

(** A request is sent again. *)
Lemma try_again w0 w w1 addr c :
  settling w0 w -> withdrew w w1 addr c -> (retries c < request_retries (handler w1) < 256)%Z ->
  exists w', (_ ← send env addr (packet c); request_call ← lift (increment_retries (debug_assertions env) c);
              active_insert env addr request_call : M unit) w1 = Ret (w', ()) /\
    settling w0 w' /\ ticks w < ticks w' /\ turns_left w' < turns_left w.
Proof.
  intros Hst Hwd Hlt. pose proof Hwd as [Hs Hn (Hw & Hstc & Hsub) Hoth Hq Hch Hr Ht Hse].
  pose proof (st_stored _ _ Hst _ _ Hstc) as Hc. rewrite release.
  destruct (increment_retries_release c) as [c' Ec]. rewrite Ec.
  destruct (increment_retries_more c c') as (Hmore & Hc' & Hid & Hk); [lia|done|].
  eexists. split; [reflexivity|]. split; [split|]; unfold calls, queued, challenges;
    cbn [handler with_active active_requests ActiveRequests.insert active_requests_mapping pending_requests active_challenges
         request_retries ticks].
  - unfold in_sync. cbn [ActiveRequests.insert active_requests_mapping active_requests_nonce_mapping].
    rewrite dm_iter_insert. apply sync_insert; [done|]. by rewrite Hk.
  - intros x y [Hy|[-> ->]]%stored_push; [by apply (st_stored _ _ Hst), Hsub|by rewrite Hc'].
  - intros x l Hl. change (pending_requests (handler w1)) with (queued w1) in Hl. rewrite Hq in Hl.
    destruct (st_queued _ _ Hst x l Hl) as [? [?|Hx]]; split; auto. right.
    destruct (decide (x = addr)) as [->|Hne]; [by rewrite lookup_insert_eq|].
    rewrite lookup_insert_ne by done. change (active_requests_mapping (active_requests (handler w1))) with (calls w1).
    by rewrite Hoth.
  - change (dm_iter (active_challenges (handler w1))) with (challenges w1). rewrite Hch. apply Hst.
  - rewrite Hr. apply Hst.
  - intros id. destruct (st_open _ _ Hst id) as [<- <-]. destruct (withdrew_open _ _ _ _ id Hwd) as [<- <-].
    split; [|done]. unfold open, failures, calls, queued. cbn [handler with_active active_requests ActiveRequests.insert
      active_requests_mapping pending_requests sent sum_list_with failure]. rewrite weight_push.
    unfold ext_z, call_ext at 2. rewrite Hid. lia.
  - split; [lia|]. unfold turns_left, calls.
    cbn [handler with_active active_requests ActiveRequests.insert active_requests_mapping request_retries].
    rewrite weight_push, Hr. specialize (Hw (turns (request_retries (handler w)))). rewrite Hr in Hlt.
    change (active_requests_mapping (active_requests (handler w1))) with (calls w1).
    change (active_requests_mapping (active_requests (handler w))) with (calls w).
    unfold turns in Hw at 2. unfold turns at 2. lia.
Qed.

(** Where a poll that yields nothing leads. *)
Definition idled w (a : ActiveRequests Enr D) : W :=
  mkWorld (with_active a (handler w)) (sent w) (S (ticks w)) (metric_active_sessions w) (permit_ban_list w).

Lemma idle_settles w0 w a :
  settling w0 w -> in_sync a -> active_requests_mapping a = active_requests_mapping (active_requests (handler w)) ->
  settling w0 (idled w a).
Proof.
  intros Hst Ha Hm. assert (calls (idled w a) = calls w) as Hc by done. split; [done| | |apply Hst|apply Hst|].
  - rewrite Hc. apply Hst.
  - rewrite Hc. apply Hst.
  - intros id. destruct (st_open _ _ Hst id) as [<- <-]. split; [|done]. unfold open. by rewrite Hc.
Qed.

(** One poll: nothing is due yet, or a turn is used up. *)
Lemma poll_settles w0 w :
  settling w0 w -> (request_retries (handler w) < 256)%Z ->
  exists w', step env EvPollRequests w = Ret (w', ()) /\ settling w0 w' /\ ticks w < ticks w' /\
    (turns_left w' < turns_left w \/
     turns_left w' = turns_left w /\ calls w' = calls w /\ due w' = due w /\ ~ (calls w <> ∅ /\ due w <= now env (ticks w))%Z).
Proof.
  intros Hst Hlt. cbn [step]. unfold mbind at 1, run_bind at 1. cbn [Handler.take]. unfold mbind at 1, run_bind at 1. cbn [self handler].
  destruct (poll_next (active_requests (handler w)) (now env (ticks w))) as [a r] eqn:Ep.
  pose proof (poll_next_due _ _ _ _ (st_sync _ _ Hst) Ep) as Hdue. pose proof Ep as Ep'.
  apply poll_next_synced in Ep' as (Ha & _ & Hw); [|apply Hst]. unfold mbind at 1, run_bind at 1. cbn [modify].
  change (mkWorld _ _ _ _ _) with (idled w a). assert (ticks w < ticks (idled w a)) as Ht by (simpl; lia).
  destruct r as [[[[addr c]|e]|]|]; try (destruct Hdue as (Hm & Hd & Hno); exists (idled w a); split; [done|];
    split; [by apply idle_settles|]; split; [done|]; right; unfold turns_left, calls, due; simpl; by rewrite Hm).
  apply poll_next_ready in Ep as (l & i & Hl & Hi & Hm).
  assert (withdrew w (idled w a) addr c) as Hwd.
  { split; try done.
    - apply Hw.
    - unfold calls at 2. cbn [idled handler with_active active_requests]. rewrite Hm. by apply put_taken.
    - intros x Hx. unfold calls at 1. cbn [idled handler with_active active_requests]. rewrite Hm, lookup_put.
      rewrite !decide_False by naive_solver. done. }
  unfold handle_request_timeout. unfold mbind at 1, run_bind at 1. cbn [self].
  destruct (decide (request_retries (handler (idled w a)) <= retries c)%Z).
  - destruct (out_of_retries w0 w (idled w a) addr c Hst Hwd) as (w' & E & ? & ? & ?). exists w'. auto.
  - destruct (try_again w0 w (idled w a) addr c Hst Hwd) as (w' & E & ? & ? & ?); [simpl in *; lia|]. exists w'. auto.
Qed.

(** ** The clock goes on *)

Hypothesis clock : forall t, exists n, forall m, n <= m -> (t <= now env m)%Z.

Definition polls (n : nat) : list (Event Enr) := replicate n EvPollRequests.

Lemma start_poll n w w1 : step env EvPollRequests w = Ret (w1, ()) -> start env (polls (S n)) w = start env (polls n) w1.
Proof. intros E. unfold start, polls. cbn [replicate for_each]. unfold mbind, run_bind. by rewrite E. Qed.

Lemma start_polls n m w w' : start env (polls n) w = Ret (w', ()) -> start env (polls (n + m)) w = start env (polls m) w'.
Proof.
  unfold start, polls. revert w. induction n as [|n IH]; intros w; cbn [replicate for_each Nat.add]; [by intros [= ->]|].
  unfold mbind at 1 2, run_bind at 1 2. destruct (step env EvPollRequests w) as [[w1 []]|]; [apply IH|done].
Qed.

(** As long as there are requests in flight a turn is used up at some time. *)
Lemma turn_used w0 w :
  settling w0 w -> (request_retries (handler w) < 256)%Z -> calls w <> ∅ ->
  exists n w', start env (polls n) w = Ret (w', ()) /\ settling w0 w' /\ turns_left w' < turns_left w.
Proof.
  intros Hst Hlt Hne. destruct (clock (due w)) as [late Hlate].
  remember (late - ticks w) as wait eqn:Hwait. revert w Hst Hlt Hne Hlate Hwait.
  induction wait as [wait IH] using lt_wf_ind. intros w Hst Hlt Hne Hlate Hwait.
  destruct (poll_settles w0 w Hst Hlt) as (w1 & E1 & Hst1 & Ht1 & [Hless|(Hsame & Hc & Hd & Hno)]).
  - exists 1, w1. split; [|done]. by rewrite (start_poll 0 w w1).
  - assert (ticks w < late) as Hl by (destruct (decide (late <= ticks w)); [destruct Hno; auto|lia]).
    destruct (IH (late - ticks w1) ltac:(lia) w1) as (n & w' & E & Hst' & Hless); [done| | | |done|].
    + rewrite (st_retries _ _ Hst1), <-(st_retries _ _ Hst). done.
    + by rewrite Hc.
    + by rewrite Hd.
    + exists (S n), w'. split; [|by rewrite <-Hsame]. by rewrite (start_poll n w w1).
Qed.

Lemma all_settled w0 w :
  settling w0 w -> (request_retries (handler w) < 256)%Z ->
  exists n w', start env (polls n) w = Ret (w', ()) /\ settling w0 w' /\ calls w' = ∅.
Proof.
  remember (turns_left w) as turns eqn:Hturns. revert w Hturns. induction turns as [turns IH] using lt_wf_ind.
  intros w Hturns Hst Hlt. destruct (decide (calls w = ∅)) as [He|Hne]; [by exists 0, w|].
  destruct (turn_used w0 w Hst Hlt Hne) as (n & w1 & E1 & Hst1 & Hless).
  destruct (IH (turns_left w1) ltac:(lia) w1 eq_refl Hst1) as (m & w' & E' & Hst' & Hc').
  - rewrite (st_retries _ _ Hst1), <-(st_retries _ _ Hst). done.
  - exists (n + m), w'. split; [|done]. by rewrite (start_polls n m w w1).
Qed.
End Settle.

Section Reached.
Context {Enr D C SM OM : Type} `{!K256} `{!EnrCrate Enr} `{!Primitives} `{!EnrCodec Enr} `{!ProtocolIdentity}.
Context `{!Rlp Enr} `{!HashMapDelay D MessageNonce NodeAddress} `{!HashMapDelay C NodeAddress (Challenge Enr)}.
Context `{!HashMapDelayLaws D MessageNonce NodeAddress} `{!HashMapDelayExpiry D MessageNonce NodeAddress}.
Context `{!HashMapDelayLaws C NodeAddress (Challenge Enr)}.
Context `{!LinkedHashMap SM NodeAddress (Session.Session * Z)}.
Context `{!LinkedHashMap OM NodeAddress ((Rpc.RequestId * Session.Session) * Z)}.
Context `{!LinkedHashMapLaws OM NodeAddress ((Rpc.RequestId * Session.Session) * Z)}.
Notation W := (World Enr D C SM OM).

Lemma spawned_synced (env : Env Enr) (w : W) : spawned w -> synced env w.
Proof.
  intros (? & ? & ? & ? & ? & ? & ? & ->). split_and!; [|done|].
  - unfold in_sync. simpl. rewrite dm_iter_new. apply sync_empty.
  - intros k addr. unfold in_flight_nonces, nonces. simpl. by rewrite dm_iter_new, lookup_empty.
Qed.

(** A run of the handler [spawn] builds is [settling] from its own state. *)
Lemma run_settling (env : Env Enr) (w0 w : W) events :
  debug_assertions env = false -> fresh env -> spawned w0 -> Forall event_ok events ->
  start env events w0 = Ret (w, ()) -> (Z.of_nat (ticks w) < 2 ^ 64)%Z -> settling w w.
Proof.
  intros Hr Hf Hw Hok E Ht. destruct (run_Inv env Hr w0 events Hw Hok) as (w' & E' & HI). rewrite E in E'. injection E' as <-.
  split; [|apply (HI Ht)| |done..].
  - eapply (keeps_start env Hr Hf events Hok w0 w ()); [by apply spawned_synced|done|by apply B_spec].
  - intros addr l Hl. split; [done|]. destruct (calls w !! addr); [right; by eexists|by left].
Qed.

(** C10: Liveness.  After any run of a handler whose random values do not repeat
    (of fewer than 2^64 readings of its environment), if nothing but time
    happens: polls of the timers, as many as it takes, come to a state where no
    request is in flight.  Every request that was in flight, and every one that
    waited behind one, has been reported as failed to the service; the only
    requests left wait for nodes to which none was in flight.  Nothing else is
    reported, and nothing twice. *)
Theorem handler_requests_settle (env : Env Enr) (w0 w : W) events :
  debug_assertions env = false -> fresh env -> (forall t, exists n, forall m, n <= m -> (t <= now env m)%Z) ->
  spawned w0 -> Forall event_ok events -> start env events w0 = Ret (w, ()) ->
  (Z.of_nat (ticks w) < 2 ^ 64)%Z -> (request_retries (handler w) < 2 ^ 8)%Z ->
  exists n w', start env (polls n) w = Ret (w', ()) /\ calls w' = ∅ /\
    (forall addr l, queued w' !! addr = Some l -> queued w !! addr = Some l /\ calls w !! addr = None) /\
    forall id, Z.of_nat (failures w' id + weight (pending_ext id) (queued w')) = open w id /\
               responses w' id = responses w id.
Proof.
  intros Hr Hf Hclock Hw Hok E Ht Hlt. pose proof (run_settling env w0 w events Hr Hf Hw Hok E Ht) as Hst.
  destruct (all_settled env Hr Hclock w w Hst Hlt) as (n & w' & E' & Hst' & Hc).
  exists n, w'. split_and!; [done|done| |].
  - intros addr l Hl. destruct (st_queued _ _ Hst' addr l Hl) as [? [?|Hs]]; [done|]. rewrite Hc, lookup_empty in Hs. by destruct Hs.
  - intros id. destruct (st_open _ _ Hst' id) as [<- <-]. split; [|done]. unfold open. rewrite Hc, weight_empty. f_equal. lia.
Qed.
End Reached.

(** ** At a concrete run *)
Import HandlerSample.

Lemma tick_bytes_list n : vec_to_list (tick_bytes n) = to_be_bytes 8 (Z.of_nat n).
Proof.
  unfold tick_bytes. destruct (array_from _) as [v|] eqn:E; [by apply array_from_Some in E|].
  unfold array_from in E. destruct (decide _) as [?|Hl]; [done|]. by rewrite length_to_be_bytes in Hl.
Qed.

Lemma sample_fresh_env own : fresh (sample_env own).
Proof.
  intros n m x Hn%B_spec Hm%B_spec.
  assert (forall n, x ∈ tails (sample_env own) n -> x = to_be_bytes 8 (Z.of_nat n)) as Htail.
  { intros i [->|[->|[]%elem_of_nil]%elem_of_cons]%elem_of_cons; [apply tick_bytes_list|].
    rewrite <-tick_bytes_list. done. }
  intros ->%Htail E%Htail. apply (f_equal from_be_bytes) in E. rewrite !from_to_be_bytes_small in E by (simpl; lia). lia.
Qed.

(** Two requests to the same node: the second one waits behind the first. *)
Definition two_requests : list (Event (list byte)) :=
  [EvService (InRequest contact_b (Rpc.mkRequest [x07] (Rpc.Ping 1)));
   EvService (InRequest contact_b (Rpc.mkRequest [x08] (Rpc.Ping 1)))].

Lemma handler_requests_settle_witness :
  exists w n w', start env_a two_requests world_a = Ret (w, ()) /\ start env_a (polls n) w = Ret (w', ()) /\
    calls w' = ∅ /\ Z.of_nat (failures w' [x08] + weight (pending_ext [x08]) (queued w')) = 1%Z.
Proof.
  assert ((fun r => (bool_decide (ticks r.1 < 1000), bool_decide (request_retries (handler r.1) < 256)%Z,
      bool_decide (open r.1 [x08] = 1%Z))) <$>
    start env_a two_requests world_a = Ret (true, true, true)) as Hrun by (vm_compute; reflexivity).
  destruct (start env_a two_requests world_a) as [[w []]|] eqn:E; [|discriminate].
  injection Hrun as Ht%bool_decide_eq_true Hr%bool_decide_eq_true Ho%bool_decide_eq_true.
  destruct (handler_requests_settle env_a world_a w two_requests) as (n & w' & E' & Hc & _ & Hf).
  - reflexivity.
  - apply sample_fresh_env.
  - intros t. exists (Z.to_nat t). intros m Hm. simpl. lia.
  - by eexists _, _, _, _, _, _, _.
  - repeat constructor.
  - exact E.
  - cbn [fst] in Ht. lia.
  - exact Hr.
  - exists w, n, w'. split_and!; [reflexivity|exact E'|exact Hc|]. rewrite (proj1 (Hf [x08])). exact Ho.
Defined.

(** ** Crossed handshakes *)

Module HandlerCross.
Import Packet NodeInfo RequestCall ActiveRequests Handler.

(** ** Requests that nothing in flight can bring on *)

Section Stranded.
Context {Enr D C SM OM : Type} `{!K256} `{!EnrCrate Enr} `{!Primitives} `{!EnrCodec Enr} `{!ProtocolIdentity}.
Context `{!Rlp Enr} `{!HashMapDelay D MessageNonce NodeAddress} `{!HashMapDelay C NodeAddress (Challenge Enr)}.
Context `{!HashMapDelayLaws C NodeAddress (Challenge Enr)}.
Context `{!LinkedHashMap SM NodeAddress (Session.Session * Z)}.
Context `{!LinkedHashMap OM NodeAddress ((Rpc.RequestId * Session.Session) * Z)}.
Variable env : Env Enr.
Notation W := (World Enr D C SM OM).
Implicit Types (w : W).

(** Events that come about by the clock alone. *)
Definition of_time (e : Event Enr) : Prop :=
  match e with EvPollRequests | EvPollChallenges | EvBannedNodesCheck => True | _ => False end.

(** No request is in flight and no challenge was sent. *)
Definition at_rest w : Prop := calls w = ∅ /\ challenges w = ∅.

Lemma rest_step w e :
  at_rest w -> of_time e ->
  exists w', step env e w = Ret (w', ()) /\ at_rest w' /\ queued w' = queued w /\ sent w' = sent w.
Proof.
  intros [Hc Hch] He. destruct e as [| | | |]; try done; cbn [step].
  - unfold Handler.take, self, modify, mbind, run_bind. cbn [handler ticks]. unfold poll_next, calls in *.
    destruct (dm_poll_next _ _) as [d [[[[k addr]|]|]|]]; cbn [active_requests_mapping]; rewrite ?Hc, ?lookup_empty;
      eexists; (split; [reflexivity|]); done.
  - unfold Handler.take, self, modify, mbind, run_bind. cbn [handler ticks]. unfold challenges in *.
    pose proof (dm_polled (active_challenges (handler w)) (now env (ticks w))) as Hp.
    destruct (dm_poll_next _ _) as [d [[[[k c]|]|]|]].
    { destruct Hp as [Hk _]. by rewrite Hch, lookup_empty in Hk. }
    all: eexists; (split; [reflexivity|]); split_and!; try done; split; [done|]; unfold challenges; simpl; by rewrite Hp.
  - eexists. split; [reflexivity|]. done.
Qed.

Lemma rest_start w events :
  at_rest w -> Forall of_time events ->
  exists w', start env events w = Ret (w', ()) /\ queued w' = queued w /\ sent w' = sent w.
Proof.
  intros Hr He. revert w Hr. induction He as [|e events He _ IH]; intros w Hr; [by exists w|].
  destruct (rest_step w e Hr He) as (w1 & E1 & Hr1 & Hq1 & Hs1). destruct (IH w1 Hr1) as (w' & E & Hq & Hs).
  exists w'. split; [unfold start; cbn [for_each]; unfold mbind, run_bind; by rewrite E1|]. split; congruence.
Qed.

(** ** A handshake while there is a session *)

(** The requests that wait, the challenges and the failures reported are the same. *)
Definition same w w' : Prop :=
  queued w' = queued w /\ challenges w' = challenges w /\ forall id, failures w' id = failures w id.

Lemma same_trans w1 w2 w3 : same w1 w2 -> same w2 w3 -> same w1 w3.
Proof. intros (Q1 & C1 & F1) (Q2 & C2 & F2). split_and!; [congruence..|]. intros id. by rewrite F2. Qed.

Definition stays {A} (m : Run W A) : Prop := forall w w' a, m w = Ret (w', a) -> same w w'.

Lemma bind_inv {A B} (m : Run W A) (k : A -> Run W B) w w' b :
  (m ≫= k) w = Ret (w', b) -> exists w1 a, m w = Ret (w1, a) /\ k a w1 = Ret (w', b).
Proof. unfold mbind, run_bind. destruct (m w) as [[w1 a]|]; [|done]. eauto. Qed.

Lemma stays_bind {A B} (m : Run W A) (k : A -> Run W B) : stays m -> (forall a, stays (k a)) -> stays (m ≫= k).
Proof.
  intros Hm Hk w w' b (w1 & a & E1%Hm & E2%Hk)%bind_inv. by eapply same_trans.
Qed.
Lemma stays_ret {A} (a : A) : stays (run_ret a).
Proof. by intros w w' a' [= <- <-]. Qed.
Lemma stays_lift {A} (o : outcome A) : stays (Handler.lift o).
Proof. intros w w' a. unfold Handler.lift. destruct o; [|done]. by intros [= <- <-]. Qed.
Lemma stays_take {A} (f : nat -> A) : stays (Handler.take f).
Proof. by intros w w' a [= <- <-]. Qed.
Lemma stays_self : stays self.
Proof. by intros w w' a [= <- <-]. Qed.
Lemma stays_modify f :
  (forall h, pending_requests (f h) = pending_requests h /\ active_challenges (f h) = active_challenges h) -> stays (modify f).
Proof.
  intros Hf w w' a [= <- <-]. destruct (Hf (handler w)) as [Hp Hc]. split_and!; [exact Hp| |done].
  unfold challenges. simpl. by rewrite Hc.
Qed.
Lemma stays_set_metric n : stays (set_metric n).
Proof. by intros w w' a [= <- <-]. Qed.
Lemma stays_service_send o : (forall id e, o <> OutRequestFailed id e) -> stays (service_send env o).
Proof.
  intros Ho w w' a [= <- <-]. split_and!; [done..|]. intros id. unfold failures. simpl. destruct o; try done. by edestruct Ho.
Qed.
Lemma stays_send addr p : stays (send env addr p).
Proof. by intros w w' a [= <- <-]. Qed.
Lemma stays_for_each {A} (l : list A) (f : A -> Run W unit) : (forall a, stays (f a)) -> stays (for_each l f).
Proof. intros Hf. induction l as [|a l IH]; simpl; [apply stays_ret|]. by apply stays_bind. Qed.
Hint Resolve stays_ret stays_lift stays_take stays_self stays_set_metric stays_send : stays.
Hint Extern 1 (stays (modify _)) => (apply stays_modify; done) : stays.
Hint Extern 1 (stays (service_send _ _)) => (apply stays_service_send; done) : stays.

Ltac stay :=
  repeat (intros; first
    [ solve [eauto 2 with stays] | lazymatch goal with |- stays (mbind _ _) => apply stays_bind end
    | lazymatch goal with |- stays (for_each _ _) => apply stays_for_each end | case_match
    | match goal with |- stays ?m => unfold_head m end ]).

Lemma stays_replayed s l : stays (replayed env s l).
Proof. revert s. induction l as [|c l IH]; intros s; cbn [replayed]; stay. Qed.
Lemma stays_handle_response addr r : stays (handle_response env addr r).
Proof. stay. Qed.

Lemma stays_remove_expected a : stays (remove_expected_response a).
Proof. stay. Qed.

Lemma established_awaits k i j challenge sig pk (record : option Enr) session enr :
  Session.establish_from_challenge k i j challenge sig pk record = Ok (session, enr) -> Session.awaiting_enr session = None.
Proof.
  unfold Session.establish_from_challenge. destruct (Session.newest_enr _ _); [|done]. case_match; [done|].
  destruct (Crypto.derive_keys_from_pubkey _ _ _ _ _) as [[dk ek]|]; [|done]. by intros [= <- _].
Qed.

(** *** The session with [addr] *)

Context `{!LinkedHashMapLaws SM NodeAddress (Session.Session * Z)}.
Variable addr : NodeAddress.

(** Whatever session with [addr] there is, it has these keys and awaits no record. *)
Definition has_keys (K : Session.Keys) w : Prop :=
  forall s t, (addr, (s, t)) ∈ lm_iter (LruTimeCache.map (sessions (handler w))) ->
    Session.keys s = K /\ Session.awaiting_enr s = None.

Lemma got (m : SM) (v : Session.Session * Z) : lm_get m addr = Some v <-> (addr, v) ∈ lm_iter m.
Proof. rewrite lm_get_iter. apply assoc_Some, lm_keys. Qed.

Lemma expired_got (c : LruTimeCache.LruTimeCache SM) t v :
  (addr, v) ∈ lm_iter (LruTimeCache.map (LruTimeCache.remove_expired_values c t)) -> (addr, v) ∈ lm_iter (LruTimeCache.map c).
Proof.
  unfold LruTimeCache.remove_expired_values. cbn [LruTimeCache.map LruTimeCache.with_map]. generalize (LruTimeCache.map c) at 2 3 as m.
  induction (LruTimeCache.expired_keys (LruTimeCache.ttl c) t (lm_iter (LruTimeCache.map c))) as [|k ks IH]; intros m; [done|]. cbn [fold_left]. intros Hin%IH.
  rewrite lm_iter_remove in Hin. eapply elem_of_sublist; [apply without_sublist|exact Hin].
Qed.

Lemma written_back (m : SM) s t u :
  (addr, (s, t)) ∈ lm_iter m ->
  forall s' t', (addr, (s', t')) ∈ lm_iter (lm_to_back (lm_write m addr (fun '(v, _) => (v, u))) addr) -> s' = s.
Proof.
  intros Hin s' t'. rewrite (lm_iter_to_back _ _ (s, u)).
  - intros [Hs|[= -> _]%list_elem_of_singleton]%elem_of_app; [|done].
    destruct (without_not_in addr _ (list_elem_of_fmap_2 fst _ _ Hs)).
  - apply assoc_Some; [apply lm_keys|]. rewrite lm_iter_write. apply list_elem_of_fmap. exists (addr, (s, t)). split; [|done].
    simpl. by rewrite decide_True.
Qed.

Lemma write_got (m : SM) f s t :
  (addr, (s, t)) ∈ lm_iter (lm_write m addr f) -> exists e, (addr, e) ∈ lm_iter m /\ (s, t) = f e.
Proof.
  rewrite lm_iter_write. intros ([k e] & E & Hs)%list_elem_of_fmap. simpl in E.
  case_decide as Hk; [|by injection E as <- _]. injection E as _ E. rewrite Hk in Hs. eauto.
Qed.

(** A session that is read is there before and after. *)
Lemma get_mut_got (c : LruTimeCache.LruTimeCache SM) t :
  let r := LruTimeCache.get_mut c t addr id in
  (forall s u, (addr, (s, u)) ∈ lm_iter (LruTimeCache.map r.1) -> r.2 = Some s) /\
  (forall s, r.2 = Some s -> exists u, (addr, (s, u)) ∈ lm_iter (LruTimeCache.map c)).
Proof.
  unfold LruTimeCache.get_mut. pose proof (expired_got c t) as Hexp.
  destruct (lm_get (LruTimeCache.map (LruTimeCache.remove_expired_values c t)) addr) as [[s0 t0]|] eqn:Eg; simpl.
  - apply got in Eg. split; [|intros s [= <-]; eauto]. intros s u ([s1 t1] & Hs & E)%write_got.
    injection E as -> _. by apply (written_back _ _ _ _ Eg) in Hs as ->.
  - split; [|done]. intros s u Hs%got. discriminate (eq_trans (eq_sym Eg) Hs).
Qed.

Lemma sessions_get_mut_eq w w' r :
  sessions_get_mut env addr w = Ret (w', r) ->
  (sessions (handler w'), r) = LruTimeCache.get_mut (sessions (handler w)) (now env (ticks w)) addr id.
Proof.
  unfold sessions_get_mut, Handler.take, self, modify, mbind, run_bind. cbn [handler ticks].
  destruct (LruTimeCache.get_mut _ _ _ _) as [c r0]. by intros [= <- <-].
Qed.

Lemma get_mut_keys K w w' r :
  has_keys K w -> sessions_get_mut env addr w = Ret (w', r) ->
  has_keys K w' /\ forall s, r = Some s -> Session.keys s = K /\ Session.awaiting_enr s = None.
Proof.
  intros Hw E%sessions_get_mut_eq. pose proof (get_mut_got (sessions (handler w)) (now env (ticks w))) as [Hafter Hbefore].
  rewrite <-E in Hafter, Hbefore. simpl in Hafter, Hbefore. split.
  - intros s t Hs. destruct (Hbefore s (Hafter s t Hs)) as [t0 Ht0]. by eapply Hw.
  - intros s Hs. destruct (Hbefore s Hs) as [t0 Ht0]. by eapply Hw.
Qed.

Lemma written_keys w w' s :
  Session.awaiting_enr s = None -> sessions_write addr s w = Ret (w', ()) -> has_keys (Session.keys s) w'.
Proof. intros Ha [= <-] s' t' ([s1 t1] & _ & E)%write_got. by injection E as -> _. Qed.

Lemma replayed_keys s l w w' s' ps :
  replayed env s l w = Ret (w', (s', ps)) -> Session.keys s' = Session.keys s /\ Session.awaiting_enr s' = Session.awaiting_enr s.
Proof.
  revert s w w' s' ps. induction l as [|c l IH]; intros s w w' s' ps; cbn [replayed]; [by intros [= <- <- <-]|].
  intros (w1 & [s1 p] & E1 & (w2 & [s2 ps2] & [Ek Ea]%IH & [= <- <- <-])%bind_inv)%bind_inv. rewrite Ek, Ea.
  unfold session_encrypt in E1. apply bind_inv in E1 as (? & n & _ & (? & iv & _ & (? & h & _ & E1)%bind_inv)%bind_inv).
  unfold Handler.lift, Session.encrypt_message in E1. cbn [mbind outcome_bind] in E1.
  destruct (Session.increment _ _); [|done]. by injection E1 as _ <- _.
Qed.

(** [m] leaves the sessions. *)
Definition no_session {A} (m : Run W A) : Prop :=
  forall w w' a, m w = Ret (w', a) -> sessions (handler w') = sessions (handler w).

Lemma no_session_keys {A} K (m : Run W A) w w' a : no_session m -> m w = Ret (w', a) -> has_keys K w -> has_keys K w'.
Proof. intros Hm E Hw s t. rewrite (Hm _ _ _ E). apply Hw. Qed.

Lemma no_session_bind {A B} (m : Run W A) (k : A -> Run W B) : no_session m -> (forall a, no_session (k a)) -> no_session (m ≫= k).
Proof. intros Hm Hk w w' b (w1 & a & E1%Hm & E2%Hk)%bind_inv. congruence. Qed.

Lemma no_session_for_each {A} (l : list A) (f : A -> Run W unit) : (forall a, no_session (f a)) -> no_session (for_each l f).
Proof. intros Hf. induction l as [|a l IH]; simpl; [by intros w w' a [= <- <-]|]. by apply no_session_bind. Qed.

Lemma no_session_resend l :
  no_session (for_each l (fun '(old_nonce, new_packet) =>
    t ← Handler.take (now env);
    h ← self;
    a ← Handler.lift (ActiveRequests.update_packet (debug_assertions env) (active_requests h) t old_nonce new_packet);
    _ ← modify (with_active a);
    send env addr new_packet)).
Proof.
  apply no_session_for_each. intros [n p]. repeat (apply no_session_bind; [|intros ?]); intros w w' r; try by intros [= <- <-].
  unfold Handler.lift. destruct (update_packet _ _ _ _ _); [|done]. by intros [= <- <-].
Qed.

Lemma no_session_replayed s l : no_session (replayed env s l).
Proof.
  revert s. induction l as [|c l IH]; intros s; cbn [replayed]; [by intros w w' a [= <- <-]|].
  apply no_session_bind; [|intros [s1 p]; apply no_session_bind; [apply IH|by intros [] w w' a [= <- <-]]].
  unfold session_encrypt. repeat (apply no_session_bind; [by intros ? ? ? [= <- <-]|intros ?]). intros w w' r.
  unfold Handler.lift. intros E. case_match; [|done]. by injection E as <- _.
Qed.

Lemma replay_keys K n w w' :
  has_keys K w -> replay_active_requests env addr n w = Ret (w', ()) -> has_keys K w'.
Proof.
  intros Hw (w1 & r & E1 & E)%bind_inv. destruct (get_mut_keys K _ _ _ Hw E1) as [Hk Hs]. destruct r as [s|].
  - destruct (Hs s eq_refl) as [<- Ha]. apply bind_inv in E as (w2 & h & [= <- <-] & E).
    apply bind_inv in E as (w3 & [s' ps] & [Ek Ea]%replayed_keys & (w4 & [] & E4 & E)%bind_inv).
    apply written_keys in E4; [|congruence]. rewrite Ek in E4. eapply no_session_keys; [apply no_session_resend|exact E|exact E4].
  - intros s t. unfold Handler.lift in E. destruct (debug_unreachable _); [|done]. injection E as <-. apply Hk.
Qed.

(** A new session that finds one only replaces its keys. *)
Lemma new_session_found s w w' :
  Session.awaiting_enr s = None -> is_Some (LruTimeCache.get_mut (sessions (handler w)) (now env (ticks w)) addr id).2 ->
  new_session env addr s None w = Ret (w', ()) -> same w w' /\ has_keys (Session.keys s) w'.
Proof.
  intros Ha Hs (w1 & r & E1 & E)%bind_inv. pose proof (sessions_get_mut_eq _ _ _ E1) as Eg. rewrite <-Eg in Hs. destruct Hs as [s0 Hs].
  simpl in Hs. subst r. assert (stays (sessions_get_mut env addr)) as Hg by stay. apply Hg in E1.
  apply bind_inv in E as (w2 & [] & E2 & E). assert (forall s, stays (sessions_write addr s)) as Hwr by stay.
  assert (stays (replay_active_requests env addr None)) as Hr by (pose proof stays_replayed; stay). split.
  - eapply same_trans; [exact E1|]. eapply same_trans; [by eapply Hwr|by eapply Hr].
  - apply written_keys in E2; [|done]. by eapply replay_keys.
Qed.

(** A message that the new keys decrypt does not end the session. *)
Lemma handle_message_found K nonce message aad m w w' :
  has_keys K w -> Crypto.decrypt_message (Session.decryption_key K) nonce message aad = Ok m ->
  handle_message env addr nonce message aad w = Ret (w', ()) -> same w w'.
Proof.
  intros Hw Em (w1 & r & E1 & E)%bind_inv. destruct (get_mut_keys K _ _ _ Hw E1) as [_ Hs].
  assert (stays (sessions_get_mut env addr)) as Hg by stay. apply (same_trans _ w1); [by eapply Hg|]. revert E.
  destruct r as [s|]; [|intros E; refine ((_ : stays _) _ _ _ E); stay].
  destruct (Hs s eq_refl) as [Ek Ea]. unfold Session.decrypt_message. rewrite Ek, Em. cbn match. intros E. refine ((_ : stays _) _ _ _ E). pose proof stays_handle_response.
  apply stays_bind; [stay|intros []]. destruct (Rpc.decode m) as [[request|response]|]; [stay| |stay].
  rewrite decide_False by (by rewrite Ea). eauto.
Qed.

(** The whole packet: the answer to a challenge, with a message the new keys decrypt. *)
Lemma handle_auth_found w w' nonce sig pk record message aad challenge session enr m :
  challenges w !! addr = Some challenge ->
  Session.establish_from_challenge (key (handler w)) (node_id (handler w)) (NodeInfo.node_id addr) challenge sig pk record = Ok (session, enr) ->
  verify_enr enr addr = true ->
  is_Some (LruTimeCache.get_mut (sessions (handler w)) (now env (S (ticks w))) addr id).2 ->
  Crypto.decrypt_message (Session.decryption_key (Session.keys session)) nonce message aad = Ok m ->
  handle_auth_message env addr nonce sig pk record message aad w = Ret (w', ()) ->
  queued w' = queued w /\ challenges w' = delete addr (challenges w) /\ forall id, failures w' id = failures w id.
Proof.
  intros Hc Es Hv Hs Em (w0 & h & [= <- <-] & E)%bind_inv. pose proof (dm_removed (active_challenges (handler w)) addr) as Hr.
  pose proof (dm_iter_remove (active_challenges (handler w)) addr) as Hi. destruct (dm_remove _ _) as [c r]. simpl in Hr, Hi.
  unfold challenges in Hc. rewrite Hc in Hr. subst r. apply bind_inv in E as (w1 & [] & E1 & E). rewrite Es in E.
  apply bind_inv in E as (w2 & [] & E2 & E). rewrite Hv in E. apply bind_inv in E as (w3 & ok & E3 & (w4 & [] & E4 & E)%bind_inv).
  assert (same w1 w2) as S2 by (eapply (stays_remove_expected (socket_addr addr)); exact E2).
  assert (same w2 w3) as S3 by (eapply (stays_service_send (OutEstablished _ _ _)); [done|exact E3]).
  apply new_session_found in E4 as [S4 Hk]; [|eapply established_awaits; exact Es|].
  - pose proof (handle_message_found _ _ _ _ _ _ _ Hk Em E) as S5.
    destruct (same_trans _ _ _ (same_trans _ _ _ S2 S3) (same_trans _ _ _ S4 S5)) as (Q & Ch & F).
    injection E1 as <-. split_and!; [exact Q| |exact F]. rewrite Ch. exact Hi.
  - injection E3 as <- _. injection E2 as <-. injection E1 as <-. exact Hs.
Qed.
End Stranded.

Section Cross.
Context {Enr D C SM OM : Type} `{!K256} `{!EnrCrate Enr} `{!Primitives} `{!EnrCodec Enr} `{!ProtocolIdentity}.
Context `{!Rlp Enr} `{!HashMapDelay D MessageNonce NodeAddress} `{!HashMapDelay C NodeAddress (Challenge Enr)}.
Context `{!HashMapDelayLaws C NodeAddress (Challenge Enr)}.
Context `{!LinkedHashMap SM NodeAddress (Session.Session * Z)} `{!LinkedHashMapLaws SM NodeAddress (Session.Session * Z)}.
Context `{!LinkedHashMap OM NodeAddress ((Rpc.RequestId * Session.Session) * Z)}.
Context `{!LinkedHashMapLaws OM NodeAddress ((Rpc.RequestId * Session.Session) * Z)}.
Variable env : Env Enr.
Implicit Types (w : World Enr D C SM OM) (p : InboundPacket Enr).

(** The packet [p] is the answer to a challenge that is out, it establishes a session for the
    address of its sender, whose record is verified, and the message in it decrypts. *)
Definition answers_challenge w p (addr : NodeAddress) : Prop :=
  exists src_id sig pk record challenge session enr m,
    kind (in_header p) = Handshake src_id sig pk record /\ addr = mkNodeAddress (src_address p) src_id /\
    challenges w !! addr = Some challenge /\
    Session.establish_from_challenge (key (handler w)) (node_id (handler w)) src_id challenge sig pk record = Ok (session, enr) /\
    verify_enr enr addr = true /\
    Crypto.decrypt_message (Session.decryption_key (Session.keys session)) (message_nonce (in_header p)) (in_message p)
      (in_authenticated_data p) = Ok m.

(** There is a session with [addr] when the handler looks for it. *)
Definition in_session w (addr : NodeAddress) : Prop :=
  is_Some (LruTimeCache.get_mut (sessions (handler w)) (now env (S (ticks w))) addr id).2.

(** C35: Error.  The handler has a session with a node and a challenge to the same
    node is out, which is so when the handshakes of two nodes cross, and requests
    to the node wait for the answer.  The answer arrives and is good in every
    way: it only replaces the keys of the session.  The challenge is gone, and
    every request that waited still waits, neither sent nor reported.  If nothing
    is in flight then, they wait however much time goes by. *)
Theorem crossed_handshakes_strand w p addr :
  debug_assertions env = false -> answers_challenge w p addr -> in_session w addr ->
  exists w', step env (EvPacket p) w = Ret (w', ()) /\
    challenges w' = delete addr (challenges w) /\ queued w' = queued w /\ (forall id, failures w' id = failures w id) /\
    (calls w' = ∅ -> challenges w' = ∅ -> forall events, Forall of_time events ->
      exists w2, start env events w' = Ret (w2, ()) /\ queued w2 = queued w /\ sent w2 = sent w').
Proof.
  intros Hrel (src_id & sig & pk & record & challenge & session & enr & m & Ek & -> & Hc & Es & Hv & Em) Hs.
  cbn [step]. unfold process_inbound_packet. rewrite Ek. set (addr := mkNodeAddress _ _) in *.
  destruct (sane_handle_auth_message env Hrel addr (message_nonce (in_header p)) sig pk record (in_message p)
    (in_authenticated_data p) w) as (w' & [] & E & _).
  destruct (handle_auth_found env addr _ _ _ _ _ _ _ _ _ _ _ _ Hc Es Hv Hs Em E) as (Hq & Hch & Hf).
  exists w'. split_and!; [exact E|done..|]. intros Hcalls Hnone events He.
  destruct (rest_start env w' events) as (w2 & E2 & Hq2 & Hs2); [done..|]. exists w2. split_and!; [done|congruence|done].
Qed.
End Cross.

(** ** Two handlers and the packets between them *)

Import HandlerSample.
Notation SW := (World (list byte) D C SM OM).

Inductive move :=
  | Order (own : byte) (i : HandlerIn (list byte)) (** what the service of a node asks *)
  | Challenge (own : byte) (** the service answers the last question for a record *)
  | Deliver (own : byte) (n : nat). (** the other node's [n]-th packet arrives *)

Definition packets (w : SW) : list (Packet (list byte)) :=
  omap (fun s => match s with ToSocket _ p _ => Some p | ToService _ _ => None end) (rev (sent w)).

Definition questions (w : SW) : list WhoAreYouRef :=
  omap (fun s => match s with ToService (OutWhoAreYou r) _ => Some r | _ => None end) (sent w).

Definition other (own : byte) : byte := if decide (own = x01) then x02 else x01.

(** The event a move is for the node [own], given the worlds of both. *)
Definition event_of (m : move) (mine theirs : SW) : option (Event (list byte)) :=
  match m with
  | Order _ i => Some (EvService i)
  | Challenge _ => (fun r => EvService (InWhoAreYou r None)) <$> head (questions mine)
  | Deliver own n =>
      (fun p => EvPacket (mkInbound (socket_of (other own)) (header p) (message p) (authenticated_data p))) <$> (packets theirs !! n)
  end.

Definition mover (m : move) : byte := match m with Order own _ | Challenge own | Deliver own _ => own end.

Definition play_one (m : move) (ws : SW * SW) : outcome (SW * SW) :=
  let '(wa, wb) := ws in
  if decide (mover m = x01) then
    e ← unwrap (event_of m wa wb); '(wa, _) ← step env_a e wa; Ret (wa, wb)
  else
    e ← unwrap (event_of m wb wa); '(wb, _) ← step env_b e wb; Ret (wa, wb).

Fixpoint play (l : list move) (ws : SW * SW) : outcome (SW * SW) :=
  match l with [] => Ret ws | m :: l => ws ← play_one m ws; play l ws end.

Definition ping (to id : byte) : HandlerIn (list byte) :=
  InRequest (mkContact (PubSecp256k1 to) (socket_of to) (Some [to; x05; to])) (Rpc.mkRequest [id] (Rpc.Ping 1)).
Definition pong (to id : byte) : HandlerIn (list byte) :=
  InResponse (address_of to) (Rpc.mkResponse [id] (Rpc.Pong 1 (V4 [# x7f; x00; x00; to]) 9000)).

Definition crossing : list move :=
  [Order x02 (ping x01 x0b);   (* B starts a session *)
   Deliver x01 0;              (* A asks its service who B is *)
   Order x01 (ping x02 x0a);   (* A starts a session with B *)
   Deliver x02 0; Challenge x02; (* B challenges A *)
   Deliver x01 1;              (* A answers: its session is established *)
   Challenge x01;              (* A challenges B, late *)
   Order x01 (ping x02 x0c);   (* this request waits for the challenge *)
   Deliver x02 1;              (* B has the session of A *)
   Order x02 (pong x01 x0a);   (* B answers the first ping *)
   Deliver x01 2;
   Deliver x02 2].             (* B answers the challenge; the answer is its last packet *)

(** The answer arrives, and the ping in it is answered. *)
Definition crossed : list move := [Deliver x01 3; Order x01 (pong x02 x0b); Deliver x02 3].

(** What waits for B, and whether there is a session with B. *)
Definition waiting_ids (w : SW) : list Rpc.RequestId :=
  map (fun p => to_request_id (pending_request_id p)) (default [] (queued w !! address_of x02)).
Definition has_session (w : SW) : bool :=
  bool_decide (is_Some (LruTimeCache.peek (sessions (handler w)) (now env_a (ticks w)) (address_of x02))).

(** In the end every packet has been delivered, nothing is in flight at either node, there is a
    session, and the request 0x0c has neither been sent nor reported. *)
Lemma crossing_played :
  (fun r => (waiting_ids r.1, bool_decide (map_to_list (calls r.1) = []), bool_decide (map_to_list (calls r.2) = []),
     has_session r.1, failures r.1 [x0c], responses r.1 [x0c], (length (packets r.1), length (packets r.2)))) <$>
    play (crossing ++ crossed) (world_a, world_b) =
  Ret ([[x0c]], true, true, true, 0, 0, (4, 4)).
Proof. vm_compute. reflexivity. Qed.

(** The answer of B, as A finds it. *)
Definition answered (ws : SW * SW) : option (InboundPacket (list byte)) :=
  match event_of (Deliver x01 3) ws.1 ws.2 with Some (EvPacket p) => Some p | _ => None end.

Definition session_of (w : SW) (p : InboundPacket (list byte)) : result (Session.Error (list byte)) (Session.Session * list byte) :=
  match kind (in_header p), dm_get (active_challenges (handler w)) (address_of x02) with
  | Handshake src_id sig pk record, Some challenge =>
      Session.establish_from_challenge (key (handler w)) (node_id (handler w)) src_id challenge sig pk record
  | _, _ => Err Session.SessionNotEstablished
  end.

Definition is_answer (w : SW) (p : InboundPacket (list byte)) : bool :=
  match session_of w p with
  | Ok (session, enr) =>
      verify_enr enr (address_of x02) &&
      match Crypto.decrypt_message (Session.decryption_key (Session.keys session)) (message_nonce (in_header p))
              (in_message p) (in_authenticated_data p) with
      | Ok _ => true
      | Err _ => false
      end &&
      bool_decide ((match kind (in_header p) with Handshake src_id _ _ _ => mkNodeAddress (src_address p) src_id
                    | _ => address_of x01 end) = address_of x02)
  | Err _ => false
  end.

Lemma is_answer_sound w p : is_answer w p = true -> answers_challenge w p (address_of x02).
Proof.
  unfold is_answer, session_of. destruct (kind _) as [|? ?|src_id sig pk record] eqn:Ek; [done..|].
  destruct (dm_get _ _) as [challenge|] eqn:Ec; [|done]. rewrite dm_get_iter in Ec.
  destruct (Session.establish_from_challenge _ _ _ _ _ _ _) as [[session enr]|] eqn:Es; [|done].
  intros [[Hv Hm]%andb_prop Ha%bool_decide_eq_true]%andb_prop.
  destruct (Crypto.decrypt_message _ _ _ _) as [m|] eqn:Em; [|done]. by exists src_id, sig, pk, record, challenge, session, enr, m.
Qed.

Lemma crossed_handshakes_strand_witness :
  exists wa wb p w', play crossing (world_a, world_b) = Ret (wa, wb) /\ answered (wa, wb) = Some p /\
    step env_a (EvPacket p) wa = Ret (w', ()) /\ waiting_ids w' = [[x0c]] /\
    forall events, Forall of_time events ->
      exists w2, start env_a events w' = Ret (w2, ()) /\ waiting_ids w2 = [[x0c]] /\ sent w2 = sent w'.
Proof.
  assert ((fun ws => (waiting_ids ws.1, (fun p => (is_answer ws.1 p,
      (fun r => (bool_decide (map_to_list (calls r.1) = []), bool_decide (map_to_list (challenges r.1) = []))) <$> step env_a (EvPacket p) ws.1)) <$> answered ws,
      bool_decide (is_Some (LruTimeCache.get_mut (sessions (handler ws.1)) (now env_a (S (ticks ws.1))) (address_of x02) id).2))) <$>
    play crossing (world_a, world_b) = Ret ([[x0c]], Some (true, Ret (true, true)), true)) as Hp by (vm_compute; reflexivity).
  destruct (play crossing _) as [[wa wb]|]; [|discriminate]. simpl in Hp.
  destruct (answered (wa, wb)) as [p|] eqn:Ep; [|discriminate]. simpl in Hp. injection Hp as Hw Ha Hstep Hs%bool_decide_eq_true.
  destruct (crossed_handshakes_strand env_a wa p (address_of x02)) as (w' & E & _ & Hq & _ & Hrest).
  - reflexivity.
  - by apply is_answer_sound.
  - exact Hs.
  - cbn [step] in E. rewrite E in Hstep. injection Hstep as Hc%bool_decide_eq_true Hch%bool_decide_eq_true.
    apply map_to_list_empty_iff in Hc, Hch. exists wa, wb, p, w'. split_and!; [done|exact Ep|exact E|unfold waiting_ids; by rewrite Hq|].
    intros events He. destruct (Hrest Hc Hch events He) as (w2 & E2 & Hq2 & Hs2). exists w2. unfold waiting_ids. by rewrite Hq2.
Defined.
End HandlerCross.
