(* ===== verification/Node.v ===== *)
(** * The socket tasks and the handler together

    A node as the handler, the task that receives and the channel between them,
    over the shared expected responses and the global [PERMIT_BAN_LIST].  The
    events are the branches of the two loops, in any order. *)

From stdpp Require Import strings.
From S2P Require Import Prelude Bytes Key RateLimiter RateLimiterProofs RateLimiterTrace Rpc Maps.
From S2P Require Import LruTimeCache Packet PacketProofs NodeInfo Crypto ActiveRequests Session Bucket.
From S2P Require Import Globals PacketCache Filter FilterProofs Socket Handler HandlerLogic.
From S2P Require Import HandlerAccount HandlerInv HandlerTriples HandlerSample HandlerRun.
Import Packet NodeInfo RequestCall ActiveRequests PermitBan Handler.

Record Node (Enr D C SM OM KA BA : Type) `{!K256} := mkNode {
  world : World Enr D C SM OM;
  recv : RecvHandler.RecvHandler KA BA;
  inbox : list (InboundPacket Enr);
}.
Arguments mkNode {Enr D C SM OM KA BA _} world recv inbox.
Arguments world {Enr D C SM OM KA BA _} n : rename.
Arguments recv {Enr D C SM OM KA BA _} n : rename.
Arguments inbox {Enr D C SM OM KA BA _} n : rename.

(** A datagram of [len] bytes is at the start of the buffer. *)
Inductive NodeEvent (Enr : Type) `{!K256} :=
  | NDatagram (r1 r2 : Filter.Readings) (src : SocketAddr) (len : nat) (buffer : vec byte MAX_PACKET_SIZE)
  | NInterval (now : Z)
  | NInbound
  | NService (i : HandlerIn Enr)
  | NPollRequests
  | NPollChallenges
  | NBannedNodesCheck.
Arguments NDatagram {Enr _} r1 r2 src len buffer.
Arguments NInterval {Enr _} now.
Arguments NInbound {Enr _}.
Arguments NService {Enr _} i.
Arguments NPollRequests {Enr _}.
Arguments NPollChallenges {Enr _}.
Arguments NBannedNodesCheck {Enr _}.

Section Node.
Context {Enr D C SM OM KA BA : Type} `{!K256} `{!EnrCrate Enr} `{!Primitives} `{!EnrCodec Enr} `{!ProtocolIdentity}.
Context `{!Rlp Enr} `{!Aes128Ctr} `{!HashMapDelay D MessageNonce NodeAddress} `{!HashMapDelay C NodeAddress (Challenge Enr)}.
Context `{!LinkedHashMap SM NodeAddress (Session.Session * Z)}.
Context `{!LinkedHashMap OM NodeAddress ((Rpc.RequestId * Session.Session) * Z)}.
Context `{!LruCache KA IpAddr (gset NodeId)} `{!LruCache BA IpAddr nat}.
Variables (env : Env Enr) (earliest : Z) (filter_enabled : bool).
Notation N := (Node Enr D C SM OM KA BA).
Notation W := (World Enr D C SM OM).
Implicit Types (n : N) (w : W) (e : NodeEvent Enr).

Definition set_bans (l : PermitBanList) w : W :=
  mkWorld (handler w) (sent w) (ticks w) (metric_active_sessions w) l.

(** One turn of the loop of the handler. *)
Definition handler_step n (ev : Event Enr) (rest : list (InboundPacket Enr)) : outcome N :=
  '(w, _) ← step env ev (world n);
  Ret (mkNode w (recv n) rest).

Definition node_step n e : outcome N :=
  match e with
  | NDatagram r1 r2 src len buffer =>
      '(h, l, p) ← RecvHandler.on_datagram earliest (recv n) (filter_expected_responses (handler (world n)))
                     (permit_ban_list (world n)) r1 r2 src len (vec_to_list buffer);
      Ret (mkNode (set_bans l (world n)) h (inbox n ++ option_list p))
  | NInterval now =>
      Ret (mkNode (world n) (RecvHandler.on_interval filter_enabled (recv n) (permit_ban_list (world n)) now) (inbox n))
  | NInbound => match inbox n with [] => Ret n | p :: rest => handler_step n (EvPacket p) rest end
  | NService i => handler_step n (EvService i) (inbox n)
  | NPollRequests => handler_step n EvPollRequests (inbox n)
  | NPollChallenges => handler_step n EvPollChallenges (inbox n)
  | NBannedNodesCheck => handler_step n EvBannedNodesCheck (inbox n)
  end.

Fixpoint run_node n (evs : list (NodeEvent Enr)) : outcome N :=
  match evs with [] => Ret n | e :: evs => n ← node_step n e; run_node n evs end.

(** ** The invariant of the handler, over the whole node *)

Section Invariant.
Context `{!EnrCodecLaws Enr} `{!HashMapDelayLaws C NodeAddress (Challenge Enr)}.
Context `{!LinkedHashMapLaws OM NodeAddress ((Rpc.RequestId * Session.Session) * Z)}.
Hypothesis release : debug_assertions env = false.
Notation none := (fun _ : SocketAddr => 0%Z).

Record node_inv n : Prop := {
  node_inbox : Forall inbound_ok (inbox n);
  node_handler : ticks (world n) < B -> exists owed, Inv 0 owed none (world n);
}.

Lemma inbound_decoded h expected l r1 r2 src len buffer h' l' (p : InboundPacket Enr) :
  RecvHandler.on_datagram earliest h expected l r1 r2 src len buffer = Ret (h', l', Some p) -> inbound_ok p.
Proof.
  unfold RecvHandler.on_datagram, RecvHandler.handle_inbound.
  match goal with |- context [mbind _ ?m] => destruct m as [[s pass]|]; cbn [mbind outcome_bind]; [|done] end.
  destruct (negb pass); [done|]. unfold slice. case_decide; cbn [mbind checked_bind]; [|done].
  destruct (decode _ _) as [[pk ad]|e|] eqn:E; [|done|done].
  match goal with |- context [mbind _ ?m] => destruct m as [[s' pass']|]; cbn [mbind outcome_bind]; [|done] end.
  destruct (negb pass'); [done|]. intros [= <- <- <-]. by eapply decoded_inbound_ok.
Qed.

Lemma set_bans_Inv b owed slack l w : Inv b owed slack w -> Inv b owed slack (set_bans l w).
Proof. apply framed_Inv. by split_and!. Qed.

Lemma handler_step_inv n ev rest n' :
  node_inv n -> event_ok ev -> Forall inbound_ok rest -> handler_step n ev rest = Ret n' -> node_inv n'.
Proof.
  intros [_ Hi] Hev Hrest. unfold handler_step. destruct (sane_step env release ev Hev (world n)) as (w' & u & E & Ht).
  rewrite E. cbn [mbind outcome_bind]. intros [= <-]. split; [done|]. cbn [world]. intros HB.
  destruct Hi as [owed HI]; [lia|]. eexists. by eapply (triple_step env release ev owed).
Qed.

Lemma node_step_inv n e n' : node_inv n -> node_step n e = Ret n' -> node_inv n'.
Proof.
  intros Hn. pose proof Hn as [Hin Hi]. destruct e; cbn [node_step].
  - destruct (RecvHandler.on_datagram _ _ _ _ _ _ _ _ _) as [[[h l] p]|] eqn:E; cbn [mbind outcome_bind]; [|done].
    intros [= <-]. split; cbn [inbox world].
    + apply Forall_app. split; [done|]. destruct p; [|by constructor]. constructor; [|by constructor]. by eapply inbound_decoded.
    + intros HB. destruct Hi as [owed HI]; [done|]. exists owed. by apply set_bans_Inv.
  - by intros [= <-].
  - destruct (inbox n) as [|p rest]; [by intros [= <-]|]. apply Forall_cons in Hin as [? ?]. by eapply handler_step_inv.
  - by eapply handler_step_inv.
  - by eapply handler_step_inv.
  - by eapply handler_step_inv.
  - by eapply handler_step_inv.
Qed.

Lemma run_node_inv n evs n' : node_inv n -> run_node n evs = Ret n' -> node_inv n'.
Proof.
  revert n. induction evs as [|e evs IH]; intros n Hn; cbn [run_node]; [by intros [= <-]|].
  destruct (node_step n e) as [n1|] eqn:E; cbn [mbind outcome_bind]; [|done]. apply IH. by eapply node_step_inv.
Qed.

Lemma spawned_node_inv w h : spawned w -> node_inv (mkNode w h []).
Proof. intros Hw. split; [done|]. intros _. eexists. by apply spawned_Inv. Qed.
(** A datagram from an expected address that can be decoded goes past the filter. *)
Lemma on_datagram_expected (h : RecvHandler.RecvHandler KA BA) (expected : gmap SocketAddr Z) l r1 r2 src len buffer
    (p : Packet Enr) ad :
  is_Some (expected !! RecvHandler.zero_scope src) -> len <= length buffer ->
  decode (RecvHandler.node_id h) (firstn len buffer) = Return (p, ad) ->
  exists h', RecvHandler.on_datagram earliest h expected l r1 r2 src len buffer =
    Ret (h', l, Some (mkInbound (RecvHandler.zero_scope src) (header p) (message p) ad)) /\
    RecvHandler.recv_filter h' = RecvHandler.recv_filter h.
Proof.
  intros He Hlen Hd. unfold RecvHandler.on_datagram, RecvHandler.handle_inbound.
  rewrite bool_decide_eq_true_2 by done. cbn [mbind outcome_bind negb]. unfold slice.
  rewrite decide_True by lia. rewrite Nat.sub_0_r, drop_0. cbn [mbind checked_bind RecvHandler.with_state RecvHandler.node_id].
  rewrite Hd. destruct (src_id p); cbn [mbind outcome_bind negb]; by eexists.
Qed.

Lemma awaited_le n s : node_inv n -> (Z.of_nat (ticks (world n)) < 2 ^ 64)%Z -> (awaited (world n) s <= expected (world n) s)%Z.
Proof.
  intros Hn HB%B_spec. destruct (node_handler _ Hn HB) as [owed HI].
  pose proof (inv_slack _ _ _ _ HI s) as Hs. cbv beta in Hs. lia.
Qed.

Lemma awaited_expected n s :
  node_inv n -> (Z.of_nat (ticks (world n)) < 2 ^ 64)%Z -> (0 < awaited (world n) s)%Z ->
  is_Some (filter_expected_responses (handler (world n)) !! s).
Proof.
  intros Hn HB Ha. pose proof (awaited_le n s Hn HB) as Hs. unfold expected in Hs.
  destruct (_ !! s); [done|]. simpl in Hs. lia.
Qed.

(** C18: what is sent is received.  In every history of a node, a packet that the
    sending task of another node writes to a socket for this node, and that
    arrives from an address with a request or a challenge outstanding, goes past
    the filter whatever its state and the bans, and is handed to the handler
    with the header, the message and the authenticated data of the sender. *)
Theorem node_receives_awaited {Sock IoError} (send_to : Sock -> list byte -> SocketAddr -> result IoError nat)
    sh bytes_sent (p : SendHandler.OutboundPacket Enr) sock data addr w0 h0 evs n r1 r2 src buffer :
  spawned w0 -> run_node (mkNode w0 h0 []) evs = Ret n -> (Z.of_nat (ticks (world n)) < 2 ^ 64)%Z ->
  snd (SendHandler.on_packet send_to sh bytes_sent p) = Some (sock, data, addr) ->
  NodeInfo.node_id (SendHandler.out_node_address p) = RecvHandler.node_id (recv n) ->
  packet_ok (SendHandler.out_packet p) -> length data <= MAX_PACKET_SIZE ->
  firstn (length data) (vec_to_list buffer) = data ->
  (0 < awaited (world n) (RecvHandler.zero_scope src))%Z ->
  exists n', node_step n (NDatagram r1 r2 src (length data) buffer) = Ret n' /\
    RecvHandler.recv_filter (recv n') = RecvHandler.recv_filter (recv n) /\
    permit_ban_list (world n') = permit_ban_list (world n) /\
    inbox n' = inbox n ++ [mkInbound (RecvHandler.zero_scope src) (header (SendHandler.out_packet p))
      (message (SendHandler.out_packet p)) (authenticated_data (SendHandler.out_packet p))].
Proof.
  intros Hw Hrun Ht Hsend Hid Hok Hmax Hbuf Haw.
  assert (data = Packet.encode (SendHandler.out_packet p) (RecvHandler.node_id (recv n))) as Hdata.
  { unfold SendHandler.on_packet in Hsend. rewrite <-Hid. simpl in Hsend.
    destruct (SendHandler.socket_for _ _); simpl in Hsend; [|done]. by injection Hsend as _ <- _. }
  assert (node_inv n) as Hn by (eapply run_node_inv; [by apply spawned_node_inv|done]).
  destruct (on_datagram_expected (recv n) (filter_expected_responses (handler (world n))) (permit_ban_list (world n))
    r1 r2 src (length data) (vec_to_list buffer) (SendHandler.out_packet p)
    (authenticated_data (SendHandler.out_packet p))) as (h' & E & Hf).
  - by apply awaited_expected.
  - rewrite length_vec_to_list. exact Hmax.
  - rewrite Hbuf, Hdata. apply decode_encode; [done|]. by rewrite <-Hdata.
  - cbn [node_step]. rewrite E. cbn [mbind outcome_bind]. by eexists.
Qed.
(** ** Nothing panics *)

Section Live.
Variables (self : RateLimiterBuilder.RateLimiterBuilder) (began horizon : Z).
Hypothesis far_enough : (earliest + from_secs Filter.MOVING_WINDOW <= began)%Z.

Local Open Scope Z_scope.

(** The clock of the task that receives. *)
Definition event_clock (last : Z) e : Prop :=
  match e with
  | NDatagram r1 r2 src len _ =>
      (len <= MAX_PACKET_SIZE)%nat /\ event_readings last (FInitial r1 src) /\
      event_end last (FInitial r1 src) <= Filter.at_limit r2 <= Filter.at_ban r2
  | NInterval now => last <= now
  | _ => True
  end.
Definition clock_after (last : Z) e : Z :=
  match e with NDatagram _ r2 _ _ _ => Filter.at_ban r2 | NInterval now => now | _ => last end.

Fixpoint clocks_ok (last : Z) (evs : list (NodeEvent Enr)) : Prop :=
  match evs with [] => True | e :: evs => event_clock last e /\ clocks_ok (clock_after last e) evs end.
Fixpoint last_clock (last : Z) (evs : list (NodeEvent Enr)) : Z :=
  match evs with [] => last | e :: evs => last_clock (clock_after last e) evs end.

Lemma clock_later last e : event_clock last e -> last <= clock_after last e.
Proof.
  destruct e; cbn [event_clock clock_after event_end]; try lia. intros (_ & Hr & ?).
  apply event_end_later in Hr. cbn [event_end] in Hr. lia.
Qed.

Lemma last_clock_later last evs : clocks_ok last evs -> last <= last_clock last evs.
Proof.
  revert last. induction evs as [|e evs IH]; intros last; simpl; [lia|]. intros [Hc%clock_later Hc']. apply IH in Hc'. lia.
Qed.

Definition live (last : Z) (h : RecvHandler.RecvHandler KA BA) : Prop :=
  forall l, filter_live self began horizon last (RecvHandler.state h l).

Lemma live_with_state last h s : filter_live self began horizon last s -> live last (RecvHandler.with_state h s).
Proof. intros Hl l. by eapply live_frame. Qed.

Lemma on_datagram_live last h expected l r1 r2 src len (buffer : vec byte MAX_PACKET_SIZE) :
  began <= last -> live last h -> event_clock last (NDatagram r1 r2 src len buffer) ->
  RateLimiter.elapsed began (Filter.at_ban r2) <= horizon ->
  exists h' l' p, RecvHandler.on_datagram (Enr := Enr) earliest h expected l r1 r2 src len (vec_to_list buffer) = Ret (h', l', p) /\
    live (Filter.at_ban r2) h'.
Proof.
  intros Hb Hl (Hlen & Hr1 & Hr2) Hh. pose proof (event_end_later _ _ Hr1) as Hle.
  unfold RecvHandler.on_datagram, RecvHandler.handle_inbound. set (h1 := RecvHandler.mkRecv _ _ _ _).
  assert (live last h1) as Hl1 by done. clearbody h1. set (src' := RecvHandler.zero_scope src).
  set (permitted := bool_decide _). clearbody permitted. cbn [event_end] in Hle, Hr2.
  assert (exists s pass, (if permitted then Ret (RecvHandler.state h1 l, true) else
      Filter.initial_pass earliest (RecvHandler.state h1 l) r1 src') = Ret (s, pass) /\
      filter_live self began horizon (Z.max (Filter.at_ban r1) (Filter.at_total r1)) s) as (s & pass & -> & Hs).
  { destruct permitted; [eexists _, _; split; [done|]; by eapply live_later|].
    apply (initial_live earliest self began horizon (SocketAddr.ip src) far_enough last); [done|done|done|].
    cbn [event_end]. 
    pose proof (elapsed_mono began (Z.max (Filter.at_ban r1) (Filter.at_total r1)) (Filter.at_ban r2) ltac:(lia)). lia. }
  cbn [mbind outcome_bind].
  assert (filter_live self began horizon (Filter.at_ban r2) s) as Hs2 by (eapply live_later; [|done]; lia).
  destruct (negb pass); [eexists _, _, _; split; [done|]; by apply live_with_state|].
  unfold slice. rewrite decide_True by (rewrite length_vec_to_list; lia). cbn [mbind checked_bind].
  match goal with |- context [decode ?i ?d] => pose proof (decode_sound (Enr := Enr) i d) as Hd; destruct (decode i d) as [[pk ad]|e|] end;
    [|eexists _, _, _; split; [done|]; by apply live_with_state|done].
  set (h2 := RecvHandler.with_state h1 s). assert (live (Z.max (Filter.at_ban r1) (Filter.at_total r1)) h2) as Hh2 by (by apply live_with_state).
  assert (live (Filter.at_ban r2) h2) as Hh3 by (by apply live_with_state). clearbody h2.
  assert (exists s' pass', (match src_id pk with
      | Some i => if permitted then Ret (RecvHandler.state h2 (Filter.bans s), true)
                  else Filter.final_pass (RecvHandler.state h2 (Filter.bans s)) r2 (mkNodeAddress src' i)
      | None => Ret (RecvHandler.state h2 (Filter.bans s), true) end) = Ret (s', pass') /\
      filter_live self began horizon (Filter.at_ban r2) s') as (s' & pass' & -> & Hs').
  { destruct (src_id pk) as [i|]; [|by eexists _, _]. destruct permitted; [by eexists _, _|].
    apply (final_live self began horizon (SocketAddr.ip src) (Z.max (Filter.at_ban r1) (Filter.at_total r1))); [lia|done|done|done]. }
  cbn [mbind outcome_bind]. destruct (negb pass'); eexists _, _, _; (split; [done|]); by apply live_with_state.
Qed.
Lemma handler_step_returns n ev rest :
  event_ok ev -> exists n', handler_step n ev rest = Ret n' /\ recv n' = recv n.
Proof.
  intros Hev. unfold handler_step. destruct (sane_step env release ev Hev (world n)) as (w & u & -> & _). by eexists.
Qed.

Lemma node_step_live last n e :
  began <= last -> node_inv n -> live last (recv n) -> event_clock last e ->
  RateLimiter.elapsed began (clock_after last e) <= horizon ->
  exists n', node_step n e = Ret n' /\ live (clock_after last e) (recv n').
Proof.
  intros Hb Hn Hl He Hh.
  assert (forall ev rest, event_ok ev -> exists n', handler_step n ev rest = Ret n' /\ live last (recv n')) as Hstep.
  { intros ev rest Hev. destruct (handler_step_returns n ev rest Hev) as (n' & -> & Hr). exists n'. by rewrite Hr. }
  destruct e; cbn [node_step clock_after event_clock] in *; [| | |by apply Hstep..].
  - destruct (on_datagram_live last (recv n) (filter_expected_responses (handler (world n))) (permit_ban_list (world n))
      r1 r2 src len buffer) as (h' & l' & p & -> & Hl'); [done..|]. by eexists.
  - eexists. split; [done|]. unfold RecvHandler.on_interval. cbn [recv]. destruct filter_enabled.
    + apply live_with_state. apply (prune_live self began horizon (V4 (vreplicate 4 x00)) last); [apply Hl|done|done].
    + intros l. by eapply live_later.
  - pose proof (node_inbox _ Hn) as Hin. destruct (inbox n) as [|p rest]; [by eexists|].
    apply Hstep. by apply Forall_cons in Hin as [? _].
Qed.

Lemma run_node_live last n evs :
  began <= last -> node_inv n -> live last (recv n) -> clocks_ok last evs ->
  RateLimiter.elapsed began (last_clock last evs) <= horizon ->
  exists n', run_node n evs = Ret n' /\ node_inv n'.
Proof.
  revert last n. induction evs as [|e evs IH]; intros last n Hb Hn Hl Hok Hh; [by eexists|].
  destruct Hok as [He Hok]. cbn [last_clock run_node] in *. pose proof (clock_later _ _ He).
  pose proof (elapsed_mono began _ _ (last_clock_later _ _ Hok)).
  destruct (node_step_live last n e) as (n1 & E & Hl1); [done..|lia|]. rewrite E. cbn [mbind outcome_bind].
  apply (IH (clock_after last e)); [lia|by eapply node_step_inv|done|done|done].
Qed.
End Live.

End Invariant.
End Node.

(** ** The theorems at a concrete node *)
Import HandlerSample FilterSample.

Notation SampleNode := (Node (list byte) D C SM OM KA BA).

Definition buffer_of (data : list byte) : vec byte MAX_PACKET_SIZE :=
  stdpp.option.default (vreplicate MAX_PACKET_SIZE x00) (array_from (data ++ replicate (MAX_PACKET_SIZE - length data) x00)).

(** A request times out while bytes that are no packet arrive. *)
Definition sample_node_events : list (NodeEvent (list byte)) :=
  let t := from_secs 10 in
  [NService (InRequest contact_b (Rpc.mkRequest [x07] (Rpc.Ping 1)));
   NDatagram (at_time t) (at_time t) source 100 (vreplicate MAX_PACKET_SIZE x2a);
   NInterval t; NInbound; NPollRequests; NPollChallenges; NBannedNodesCheck].

(** The first node, with a filter for the number of nodes per address. *)
Definition started_node : outcome SampleNode :=
  h ← RecvHandler.spawn true unlimited None (vreplicate 32 x01);
  Ret (mkNode world_a h []).

(** The answer of the second node to a request of the first. *)
Definition sample_answer : SendHandler.OutboundPacket (list byte) :=
  SendHandler.mkOutbound (address_of x01)
    (mkPacket 5 (mkHeader (vreplicate 12 x03) (WhoAreYou (vreplicate 16 x04) 1)) []).

Lemma node_receives_awaited_witness :
  let p := SendHandler.out_packet sample_answer in
  let data := Packet.encode p (vreplicate 32 x01) in
  exists n0 n n' : SampleNode, started_node = Ret n0 /\
    run_node env_a 0 true n0 (firstn 1 sample_node_events) = Ret n /\
    node_step env_a 0 true n (NDatagram (at_time 0) (at_time 0) (socket_of x02) (length data) (buffer_of data)) = Ret n' /\
    inbox n' = inbox n ++ [mkInbound (socket_of x02) (header p) (message p) (authenticated_data p)].
Proof.
  intros p data.
  assert (match (n0 ← started_node; run_node env_a 0 true n0 (firstn 1 sample_node_events)) with
    | Ret n => (ticks (world n) <? 1000) && (0 <? awaited (world n) (socket_of x02))%Z &&
               bool_decide (RecvHandler.node_id (recv n) = vreplicate 32 x01)
    | Panic => false end = true) as Hc by (by vm_compute).
  unfold started_node in *. destruct (RecvHandler.spawn _ _ _ _) as [h0|]; [|done]. cbn [mbind outcome_bind] in Hc.
  destruct (run_node env_a 0 true _ (firstn 1 sample_node_events)) as [n|] eqn:E; [|done].
  apply andb_true_iff in Hc as [[Ht Ha]%andb_true_iff Hid%bool_decide_eq_true].
  destruct (node_receives_awaited (KA := KA) (BA := BA) env_a 0 true eq_refl (IoError := unit) (fun _ d _ => Ok (length d))
    (SendHandler.mkSend (Some tt) None) 0 sample_answer tt data (socket_of x01) world_a
    h0 (firstn 1 sample_node_events) n
    (at_time 0) (at_time 0) (socket_of x02) (buffer_of data)) as (n' & Hstep & _ & _ & Hin).
  - by eexists _, _, _, _, _, _, _.
  - exact E.
  - apply Nat.ltb_lt in Ht. lia.
  - reflexivity.
  - by rewrite Hid.
  - split; [split; vm_compute; congruence|]. split; [split; vm_compute; congruence|]. reflexivity.
  - apply Nat.leb_le. by vm_compute.
  - by vm_compute.
  - by apply Z.ltb_lt.
  - exists (mkNode world_a h0 []), n, n'. split; [reflexivity|]. split; [exact E|]. split; [exact Hstep|exact Hin].
Defined.
