(* ===== verification/Spawn.v ===== *)
(** * A node from its configuration (src/src/handler/mod.rs, [Handler::spawn])

    The handler and the receiving task that [spawn] starts with the parameters
    of the configuration, once the sockets are bound.  With a configuration of
    the builder whose durations and sizes are in range they never panic. *)

From stdpp Require Import strings.
From S2P Require Import Prelude Bytes Key RateLimiter RateLimiterProofs RateLimiterTrace Rpc Maps.
From S2P Require Import LruTimeCache Packet PacketProofs NodeInfo Crypto ActiveRequests Session Bucket.
From S2P Require Import Globals Config PacketCache Filter FilterProofs Socket Handler HandlerLogic.
From S2P Require Import HandlerAccount HandlerInv HandlerTriples HandlerSample HandlerRun Node.
Import Packet NodeInfo RequestCall ActiveRequests PermitBan Handler.

Module Spawn.

Definition filter_config {Enr} (c : Config.Config Enr) : Filter.FilterConfig :=
  Filter.mkFilterConfig (Config.enable_packet_filter c) (Config.filter_rate_limiter c)
    (Config.filter_max_nodes_per_ip c) (Config.filter_max_bans_per_ip c).

Section Spawn.
Context {Enr D C SM OM KA BA : Type} `{!K256} `{!EnrCrate Enr} `{!Primitives} `{!EnrCodec Enr} `{!ProtocolIdentity}.
Context `{!Rlp Enr} `{!Aes128Ctr} `{!HashMapDelay D MessageNonce NodeAddress} `{!HashMapDelay C NodeAddress (Challenge Enr)}.
Context `{!LinkedHashMap SM NodeAddress (Session.Session * Z)}.
Context `{!LinkedHashMap OM NodeAddress ((Rpc.RequestId * Session.Session) * Z)}.
Context `{!LruCache KA IpAddr (gset NodeId)} `{!LruCache BA IpAddr nat}.

(** [bound] is the answer of [Socket::new], [l] the global list of bans. *)
Definition spawn (debug : bool) (enr : Enr) (key : CombinedKey) (config : Config.Config Enr) (bound : result string unit) (l : PermitBanList)
    : outcome (result string (Node Enr D C SM OM KA BA)) :=
  let node_id := enr_node_id enr in
  _ ← unwrap (Config.executor config);
  match bound with
  | Err e => Ret (Err e)
  | Ok _ =>
      recv ← RecvHandler.spawn debug (filter_config config) (Config.ban_duration config) node_id;
      _ ← unwrap (Config.executor config);
      Ret (Ok (mkNode
        (set_bans l (initial (Handler.new (Config.request_retries config) node_id key (Config.listen_config config)
           (Config.request_timeout config) (Config.session_timeout config) (Z.of_nat (Config.session_cache_capacity config)))))
        recv []))
  end.
End Spawn.
End Spawn.

(** ** The rate limiter of a configuration *)

Lemma set_limiter {Enr} x (c c' : Config.Config Enr) :
  Config.set x c = Ret c' ->
  Config.filter_rate_limiter c' = Config.filter_rate_limiter c \/ x = Config.SetFilterRateLimiter (Config.filter_rate_limiter c').
Proof.
  destruct x; cbn [Config.set]; try (intros [= <-]; by left); try (intros [= <-]; by right).
  unfold Config.set_enr_peer_update_min. case_decide; [done|]. intros [= <-]. by left.
Qed.

Lemma set_all_limiter {Enr} l (c c' : Config.Config Enr) :
  Config.set_all l c = Ret c' ->
  Config.filter_rate_limiter c' = Config.filter_rate_limiter c \/ Config.SetFilterRateLimiter (Config.filter_rate_limiter c') ∈ l.
Proof.
  revert c. induction l as [|x l IH]; intros c E; simpl in E; [injection E as <-; by left|].
  apply bind_ret_inv in E as (c1 & E1 & E). destruct (IH c1 E) as [->|Hin]; [|right; by right].
  destruct (set_limiter x c c1 E1) as [-> | ->]; [by left|right; by left].
Qed.

Lemma built_limiter {Enr} now listen_config l (c : Config.Config Enr) :
  Config.built now listen_config l = Ret c ->
  (exists rl, RateLimiter.build Config.default_rate_limits now = Ok rl /\ Config.filter_rate_limiter c = Some rl) \/
  Config.SetFilterRateLimiter (Config.filter_rate_limiter c) ∈ l.
Proof.
  unfold Config.built. intros E. apply bind_ret_inv in E as (c0 & E0 & E). apply bind_ret_inv in E as (c1 & E1 & E).
  assert (Config.filter_rate_limiter c = Config.filter_rate_limiter c1) as ->.
  { unfold Config.build in E. destruct (Config.executor c1); case_decide; try done; by injection E as <-. }
  destruct (set_all_limiter l c0 c1 E1) as [->|Hin]; [|by right]. left. unfold Config.new in E0.
  destruct (RateLimiter.build _ _) as [rl|] eqn:Er; [|done]. injection E0 as <-. by exists rl.
Qed.

Lemma default_quotas_ok horizon : (horizon < 2 ^ 63)%Z -> quotas_ok Config.default_rate_limits horizon.
Proof.
  intros Hh kind q Hq.
  assert (replenish_all_every q = 1000000000 /\ 0 <= max_tokens q)%Z as [Hr Hm]
    by (destruct kind; vm_compute in Hq; injection Hq as <-; split; vm_compute; congruence).
  assert (U64_MODULUS = 2 ^ 64)%Z as -> by (vm_compute; reflexivity). unfold quota_ok. lia.
Qed.

(** The limiters of the settings are built with the configuration, with quotas
    whose arithmetic stays in range up to the horizon. *)
Definition limiters_ok {Enr} (now horizon : Z) (settings : list (Config.setting Enr)) : Prop :=
  forall rl, Config.SetFilterRateLimiter (Some rl) ∈ settings ->
    exists quotas, quotas_ok quotas horizon /\ RateLimiter.build quotas now = Ok rl.

Lemma built_quotas {Enr} now horizon listen_config settings (config : Config.Config Enr) :
  (horizon < 2 ^ 63)%Z -> Config.built now listen_config settings = Ret config -> limiters_ok now horizon settings ->
  exists quotas, quotas_ok quotas horizon /\
    forall rl, Config.filter_rate_limiter config = Some rl -> RateLimiter.build quotas now = Ok rl.
Proof.
  intros Hh Hb Hl. destruct (built_limiter _ _ _ _ Hb) as [(rl & Hr & E)|Hin].
  - exists Config.default_rate_limits. split; [by apply default_quotas_ok|]. intros rl'. rewrite E. by intros [= <-].
  - destruct (Config.filter_rate_limiter config) as [rl|].
    + destruct (Hl rl Hin) as (quotas & Hq & Hr). exists quotas. split; [done|]. by intros rl' [= <-].
    + exists Config.default_rate_limits. split; [by apply default_quotas_ok|done].
Qed.

Section Never.
Context {Enr D C SM OM KA BA : Type} `{!K256} `{!EnrCrate Enr} `{!Primitives} `{!EnrCodec Enr} `{!ProtocolIdentity}.
Context `{!Rlp Enr} `{!Aes128Ctr} `{!HashMapDelay D MessageNonce NodeAddress} `{!HashMapDelay C NodeAddress (Challenge Enr)}.
Context `{!LinkedHashMap SM NodeAddress (Session.Session * Z)}.
Context `{!LinkedHashMap OM NodeAddress ((Rpc.RequestId * Session.Session) * Z)}.
Context `{!LruCache KA IpAddr (gset NodeId)} `{!LruCache BA IpAddr nat}.
Context `{!EnrCodecLaws Enr} `{!HashMapDelayLaws C NodeAddress (Challenge Enr)}.
Context `{!LinkedHashMapLaws OM NodeAddress ((Rpc.RequestId * Session.Session) * Z)}.
Notation N := (Node Enr D C SM OM KA BA).

(** The durations and sizes of a configuration are in range for a run that ends
    at [until] at the latest: the expiry of a ban and of a session are instants, the timers of
    the requests and challenges accept the request timeout, and the cache of the
    filter has a size that can be allocated. *)
Record in_range (env : Env Enr) (until : Z) (config : Config.Config Enr) : Prop := {
  range_bans : ban_representable until (Config.ban_duration config);
  range_clock i : (now env i <= until)%Z;
  range_sessions : (until + Z.max (Config.session_timeout config) (from_secs ONE_TIME_SESSION_TIMEOUT) < INSTANT_LIMIT)%Z;
  range_requests :
    (Config.request_timeout config <= Z.min (dm_max_timeout (D := D) (K := MessageNonce) (V := NodeAddress))
                                            (dm_max_timeout (D := C) (K := NodeAddress) (V := Challenge Enr)))%Z;
  range_cache : capacity_ok (Spawn.filter_config config);
}.

(** C7: a node does not panic.  With any configuration the builder returns whose
    durations, quotas and sizes are in range, [spawn] starts a node once the
    sockets are bound.  From then on, whatever datagrams arrive, whatever the
    service asks and whatever expires, in any interleaving of the loops of the
    receiving task and of the handler of a release build, every step returns, up
    to a horizon below 2^63 nanoseconds (the clock has run for the window of the
    metrics before, and the limiters' quotas stay in 64 bits until then): the filter with or without a rate limiter,
    the decoder on arbitrary bytes, the handler on what the decoder accepts.  And
    the filter is told of every response the handler waits for. *)
Theorem spawned_node_never_panics (env : Env Enr) earliest now horizon listen_config settings config enr key l :
  debug_assertions env = false -> (earliest + from_secs Filter.MOVING_WINDOW <= now)%Z -> (horizon < 2 ^ 63)%Z ->
  Config.built now listen_config settings = Ret config -> limiters_ok now horizon settings ->
  in_range env (now + horizon) config ->
  exists n0 : N, Spawn.spawn (debug_assertions env) enr key config (Ok ()) l = Ret (Ok n0) /\
    forall evs, clocks_ok now evs -> (last_clock now evs <= now + horizon)%Z ->
    exists n, run_node env earliest (Config.enable_packet_filter config) n0 evs = Ret n /\
      ((Z.of_nat (ticks (world n)) < 2 ^ 64)%Z -> forall s, (awaited (world n) s <= expected (world n) s)%Z).
Proof.
  intros Hr Hfar Hh Hb Hl Hrange. pose proof (Config.built_valid _ _ _ _ Hb) as [_ _ [ex Hex]].
  destruct (built_quotas _ _ _ _ _ Hh Hb Hl) as (quotas & Hq & Hrl).
  destruct (new_returns (KA := KA) (BA := BA) (debug_assertions env) (Spawn.filter_config config) (Config.ban_duration config)
    (range_cache _ _ _ Hrange)) as [f Ef].
  unfold Spawn.spawn, RecvHandler.spawn. rewrite Hex, Ef. cbn [unwrap mbind outcome_bind].
  eexists. split; [done|]. intros evs Hok Hlast. match goal with |- context [run_node _ _ _ ?n] => set (n0 := n) end.
  assert (node_inv n0) as Hn0.
  { split; [done|]. intros _. eexists. cbn [world n0]. apply set_bans_Inv, spawned_Inv. by eexists _, _, _, _, _, _, _. }
  destruct (run_node_live env earliest (Config.enable_packet_filter config) Hr quotas now horizon Hfar now n0 evs)
    as (n & E & Hn); [lia|done|intros l'; eapply new_live; [exact Ef|apply Hrange|done|done]|done| |].
  - unfold RateLimiter.elapsed, saturating_sub. pose proof (last_clock_later _ _ Hok). lia.
  - exists n. split; [done|]. intros Ht s. by apply awaited_le.
Qed.
End Never.

Import HandlerSample FilterSample.

Definition own_key : @CombinedKey sample_k256 := Secp256k1 x01.

(** The first node with a clock that stops at the horizon. *)
Definition bounded_env : Env (list byte) := {|
  debug_assertions := false;
  now n := Z.min (Z.of_nat n) (from_secs 10);
  local_enr := local_enr env_a;
  random_iv := random_iv env_a;
  random_nonce := random_nonce env_a;
  random_message_nonce := random_message_nonce env_a;
  random_id_nonce := random_id_nonce env_a;
  random_fill := random_fill env_a;
  random_request_id := random_request_id env_a;
  random_key := random_key env_a;
  channel_open := channel_open env_a;
  now_ip := now_ip env_a;
  now_node := now_node env_a;
|}.

Definition sample_built : outcome (Config.Config (list byte)) :=
  Config.built (from_secs 10) (ListenConfig.Ipv4 [# x7f; x00; x00; x01] 9000) [Config.EnablePacketFilter].

Definition built_fields (config : Config.Config (list byte)) :=
  (Config.ban_duration config, Config.session_timeout config, Config.request_timeout config,
   Filter.expected_packets_per_second (Spawn.filter_config config), Config.enable_packet_filter config).

Lemma sample_built_fields :
  (fun c => built_fields c) <$> sample_built = Ret (Some (from_secs 3600), from_secs 86400, from_secs 1, 20%Z, true).
Proof. vm_compute. reflexivity. Qed.

Lemma spawned_node_never_panics_witness :
  exists (config : Config.Config (list byte)) (n0 n : SampleNode), sample_built = Ret config /\
    Spawn.spawn false [x01; x05; x01] own_key config (Ok ()) PermitBan.default = Ret (Ok n0) /\
    run_node bounded_env 0 true n0 sample_node_events = Ret n.
Proof.
  pose proof sample_built_fields as Hf. destruct sample_built as [config|] eqn:E; [|discriminate Hf].
  cbn [fmap outcome_fmap] in Hf. unfold built_fields in Hf. injection Hf as H1 H2 H3 H4 H5.
  destruct (spawned_node_never_panics (D := D) (C := C) (SM := SM) (OM := OM) (KA := KA) (BA := BA) bounded_env 0 (from_secs 10) 1000
    (ListenConfig.Ipv4 [# x7f; x00; x00; x01] 9000) [Config.EnablePacketFilter] config [x01; x05; x01] own_key PermitBan.default) as (n0 & Hs & Hrun).
  - reflexivity.
  - vm_compute. discriminate.
  - vm_compute. reflexivity.
  - exact E.
  - intros rl Hin. apply list_elem_of_singleton in Hin. discriminate.
  - split.
    + rewrite H1. by vm_compute.
    + intros i. simpl. lia.
    + rewrite H2. by vm_compute.
    + rewrite H3. by vm_compute.
    + unfold capacity_ok. rewrite H4. by vm_compute.
  - destruct (Hrun sample_node_events) as (n & Hn & _).
    + cbn [sample_node_events clocks_ok event_clock clock_after]. unfold readings_between. cbn.
      split_and!; try done; try (vm_compute; lia).
    + vm_compute. discriminate.
    + exists config, n0, n. split; [reflexivity|]. split; [exact Hs|]. rewrite H5 in Hn. exact Hn.
Defined.
