(* ===== verification/Service.v ===== *)
(** * The service (src/src/service.rs)

    The task between the user and the handler: it owns the queries, answers the
    requests of other nodes from the routing table, matches responses to
    requests, and keeps the table up to date.  As in Handler.v, an operation
    passes the world (the service, what it has put out, the number of values
    taken from the environment, the global [PERMIT_BAN_LIST]) and can panic, and
    [Env] gives the clock readings, the random request ids, the state of the
    channels and the orders of the hash maps.  The callbacks of the user are
    names of one-shot channels; a callback that goes out of scope is [Dropped],
    which its receiver sees as an error. *)

From stdpp Require Import strings.
From S2P Require Import Prelude Bytes Key Bucket Table Closest FindNode Predicate QueryPool Rpc QueryInfo IpVote.
From S2P Require Import TableTrace Packet NodeInfo Crypto Maps ActiveRequests Session Errors Globals Config Handler.
Import NodeInfo KBucket Closest Config.

(** [delay_map::HashSetDelay]: a set whose elements expire some time after their
    insertion; as a stream, it yields and removes an expired element.  Its timer
    panics when asked to wait longer than [ds_max_timeout]: [ds_insert] is the
    insertion into a set whose timeout is within it. *)
Class HashSetDelay (D K : Type) := {
  ds_max_timeout : Z;
  ds_new : Z -> D;
  ds_insert : D -> Z -> K -> D;
  ds_remove : D -> K -> D;
  ds_poll_next : D -> Z -> D * Poll (option (result string K));
}.

(** [Enr::set_udp_socket], [None] for an error, which leaves the record. *)
Class EnrUpdate (Enr : Type) `{!K256} := enr_set_udp_socket : Enr -> SocketAddr -> CombinedKey -> option Enr.

Module Service.

#[export] Existing Instances Handler.run_bind QueryInfo.query_info_target.

Definition DISTANCES_TO_REQUEST_PER_PEER : nat := 3.
Definition MAX_NODES_RESPONSES : nat := (MAX_NODES_PER_BUCKET / 4 + 1) * DISTANCES_TO_REQUEST_PER_PEER.

(** A one-shot channel, by name. *)
Definition Channel : Type := nat.

Record PongInfo := mkPong { pong_enr_seq : Z; pong_ip : IpAddr; pong_port : Z }.

Record TalkRequest := mkTalk {
  talk_id : Rpc.RequestId;
  talk_node_address : NodeAddress;
  talk_protocol : list byte;
  talk_body : list byte;
}.

Inductive CallbackResponse := CbNodes (c : Channel) | CbTalk (c : Channel) | CbPong (c : Channel).

(** The [oneshot::Sender]s, by what is sent: the records of a query, those of a
    designated peer, a TALK response, a PONG, the event stream. *)
Inductive Sender :=
  | SendQuery (c : Channel)
  | SendNodes (c : Channel)
  | SendTalk (c : Channel)
  | SendPong (c : Channel)
  | SendStream (c : Channel).

#[export] Instance Sender_eq_dec : EqDecision Sender.
Proof. solve_decision. Defined.

Definition sender (c : CallbackResponse) : Sender :=
  match c with CbNodes c => SendNodes c | CbTalk c => SendTalk c | CbPong c => SendPong c end.

(** What [try_send] on the event stream does. *)
Inductive StreamState := StreamSent | StreamFull | StreamClosed.

Section Types.
Context (Enr : Type) `{!K256}.

Inductive Event :=
  | Discovered (enr : Enr)
  | EnrAdded (enr : Enr) (replaced : option Enr)
  | NodeInserted (node_id : NodeId) (replaced : option NodeId)
  | SessionEstablished (enr : Enr) (addr : SocketAddr)
  | SocketUpdated (addr : SocketAddr)
  | TalkRequestEvent (r : TalkRequest).

Inductive QueryKind :=
  | KindFindNode (target_node : NodeId)
  | KindPredicate (target_node : NodeId) (target_peer_no : nat) (predicate : Enr -> bool).

Inductive ServiceRequest :=
  | StartQuery (query : QueryKind) (callback : Channel)
  | FindNodeDesignated (contact : NodeContact Enr) (distances : list Z) (callback : Channel)
  | TalkReq (contact : NodeContact Enr) (protocol request : list byte) (callback : Channel)
  | PingReq (enr : Enr) (callback : option Channel)
  | RequestEventStream (callback : Channel).

Record ActiveRequest := mkActive {
  contact : NodeContact Enr;
  request_body : Rpc.RequestBody;
  query_id : option Z;
  callback : option CallbackResponse;
}.

Record NodesResponse := mkNodes { count : nat; received_nodes : list Enr }.

Inductive ConnectionStatus :=
  | StConnected (enr : Enr) (direction : ConnectionDirection)
  | StPongReceived (enr : Enr)
  | StDisconnected.

Inductive Answer :=
  | AnsQuery (enrs : list Enr)
  | AnsNodes (r : result (RequestError Enr) (list Enr))
  | AnsTalk (r : result (RequestError Enr) (list byte))
  | AnsPong (r : result (RequestError Enr) PongInfo)
  | AnsStream.

(** What the service puts out: messages to the handler and whether its channel
    took them, events, answers and dropped callbacks. *)
Inductive Output :=
  | ToHandler (i : Handler.HandlerIn Enr) (ok : bool)
  | EventSent (e : Event)
  | Answered (c : Channel) (a : Answer)
  | Dropped (s : Sender).

Notation Queries := (gmap Z (QueryPool.Query (QueryInfo.QueryInfo Enr) NodeId Enr)).

Record Env := mkEnv {
  debug_assertions : bool;
  now : nat -> Z;
  clocks : nat -> nat -> Z;
  random_request_id : nat -> Rpc.RequestId;
  handler_open : nat -> bool;
  stream : nat -> StreamState;
  query_order : nat -> Queries -> list Z;
  vote_values : nat -> gmap NodeId (SocketAddr * Z) -> list (NodeId * (SocketAddr * Z));
  count4_order : nat -> gmap SocketAddrV4 nat -> list (SocketAddrV4 * nat);
  count6_order : nat -> gmap SocketAddrV6 nat -> list (SocketAddrV6 * nat);
}.
End Types.
Arguments Discovered {Enr} enr.
Arguments EnrAdded {Enr} enr replaced.
Arguments NodeInserted {Enr} node_id replaced.
Arguments SessionEstablished {Enr} enr addr.
Arguments SocketUpdated {Enr} addr.
Arguments TalkRequestEvent {Enr} r.
Arguments KindFindNode {Enr} target_node.
Arguments KindPredicate {Enr} target_node target_peer_no predicate.
Arguments StartQuery {Enr _} query callback.
Arguments FindNodeDesignated {Enr _} contact distances callback.
Arguments TalkReq {Enr _} contact protocol request callback.
Arguments PingReq {Enr _} enr callback.
Arguments RequestEventStream {Enr _} callback.
Arguments mkActive {Enr _} contact request_body query_id callback.
Arguments contact {Enr _} a : rename.
Arguments request_body {Enr _} a : rename.
Arguments query_id {Enr _} a : rename.
Arguments callback {Enr _} a : rename.
Arguments mkNodes {Enr} count received_nodes.
Arguments count {Enr} n : rename.
Arguments received_nodes {Enr} n : rename.
Arguments StConnected {Enr} enr direction.
Arguments StPongReceived {Enr} enr.
Arguments StDisconnected {Enr}.
Arguments AnsQuery {Enr} enrs.
Arguments AnsNodes {Enr} r.
Arguments AnsTalk {Enr} r.
Arguments AnsPong {Enr} r.
Arguments AnsStream {Enr}.
Arguments ToHandler {Enr _} i ok.
Arguments EventSent {Enr _} e.
Arguments Answered {Enr _} c a.
Arguments Dropped {Enr _} s.
Arguments mkEnv {Enr} debug_assertions now clocks random_request_id handler_open stream query_order vote_values
  count4_order count6_order.
Arguments debug_assertions {Enr} e : rename.
Arguments now {Enr} e _ : rename.
Arguments clocks {Enr} e _ _ : rename.
Arguments random_request_id {Enr} e _ : rename.
Arguments handler_open {Enr} e _ : rename.
Arguments stream {Enr} e _ : rename.
Arguments query_order {Enr} e _ _ : rename.
Arguments vote_values {Enr} e _ _ : rename.
Arguments count4_order {Enr} e _ _ : rename.
Arguments count6_order {Enr} e _ _ : rename.

(** [PS] is the set of the peers to ping. *)
Record Service (Enr PS : Type) `{!K256} := mkService {
  config : Config Enr;
  local_enr : Enr;
  enr_key : CombinedKey;
  kbuckets : Table.KBucketsTable NodeId Enr;
  queries : QueryPool.QueryPool (QueryInfo.QueryInfo Enr) NodeId Enr;
  active_requests : gmap Rpc.RequestId (ActiveRequest Enr);
  active_nodes_responses : gmap Rpc.RequestId (NodesResponse Enr);
  ip_votes : option IpVote.IpVote;
  peers_to_ping : PS;
  event_stream : bool;
  ip_mode : IpMode.IpMode;
}.
Arguments mkService {Enr PS _} config local_enr enr_key kbuckets queries active_requests active_nodes_responses ip_votes
  peers_to_ping event_stream ip_mode.
Arguments config {Enr PS _} s : rename.
Arguments local_enr {Enr PS _} s : rename.
Arguments enr_key {Enr PS _} s : rename.
Arguments kbuckets {Enr PS _} s : rename.
Arguments queries {Enr PS _} s : rename.
Arguments active_requests {Enr PS _} s : rename.
Arguments active_nodes_responses {Enr PS _} s : rename.
Arguments ip_votes {Enr PS _} s : rename.
Arguments peers_to_ping {Enr PS _} s : rename.
Arguments event_stream {Enr PS _} s : rename.
Arguments ip_mode {Enr PS _} s : rename.

Record World (Enr PS : Type) `{!K256} := mkWorld {
  service : Service Enr PS;
  out : list (Output Enr);
  ticks : nat;
  permit_ban_list : PermitBan.PermitBanList;
}.
Arguments mkWorld {Enr PS _} service out ticks permit_ban_list.
Arguments service {Enr PS _} w : rename.
Arguments out {Enr PS _} w : rename.
Arguments ticks {Enr PS _} w : rename.
Arguments permit_ban_list {Enr PS _} w : rename.

(** ** Pure parts *)

(** The callback of a request. *)
Definition request_sender {Enr} `{!K256} (r : ServiceRequest Enr) : option Sender :=
  match r with
  | StartQuery _ c => Some (SendQuery c)
  | FindNodeDesignated _ _ c => Some (SendNodes c)
  | TalkReq _ _ _ c => Some (SendTalk c)
  | PingReq _ c => SendPong <$> c
  | RequestEventStream c => Some (SendStream c)
  end.

(** [Vec::dedup]. *)
Fixpoint dedup (l : list Z) : list Z :=
  match l with
  | [] => []
  | x :: l =>
      match l with
      | y :: _ => if decide (x = y) then dedup l else x :: dedup l
      | [] => [x]
      end
  end.

(** [SmallVec::swap_remove] at an index in range. *)
Definition swap_remove {A} (i : nat) (l : list A) : list A :=
  match last l with
  | Some x => take (length l - 1) (<[i := x]> l)
  | None => l
  end.

Section Pure.
Context {Enr : Type} `{!K256} `{!EnrCrate Enr} `{!Packet.EnrCodec Enr}.

(** The loop of [send_nodes_response] that packs the records: the responses so
    far, the size of the last one and its index. *)
Fixpoint pack_nodes (to_send_nodes : list (list Enr)) (total_size rpc_index : nat) (nodes_to_send : list Enr)
    : outcome (list (list Enr) * nat) :=
  match nodes_to_send with
  | [] => Ret (to_send_nodes, rpc_index)
  | enr :: nodes_to_send =>
      let entry_size := length (Packet.enr_encode enr) in
      if decide (entry_size + total_size < Packet.MAX_PACKET_SIZE - 104) then
        nodes ← unwrap (to_send_nodes !! rpc_index);
        pack_nodes (<[rpc_index := nodes ++ [enr]]> to_send_nodes) (total_size + entry_size) rpc_index nodes_to_send
      else pack_nodes (to_send_nodes ++ [[enr]]) entry_size (rpc_index + 1) nodes_to_send
  end.

Definition nodes_responses (rpc_id : Rpc.RequestId) (nodes_to_send : list Enr) : outcome (list (Rpc.Response Enr)) :=
  match nodes_to_send with
  | [] => Ret [Rpc.mkResponse rpc_id (Rpc.Nodes 1 [])]
  | _ =>
      '(to_send_nodes, rpc_index) ← pack_nodes [[]] 0 0 nodes_to_send;
      Ret (map (fun nodes => Rpc.mkResponse rpc_id (Rpc.Nodes (Z.of_nat (rpc_index + 1)) nodes)) to_send_nodes)
  end.

(** The records of a NODES response that are kept, and whether the sender is
    banned for the others. *)
Definition check_distances (node_id : NodeId) (distances_requested : list Z) (nodes : list Enr) : list Enr * bool :=
  let distance enr := Key.log2_distance (Key.from_node_id node_id) (Key.from_node_id (enr_node_id enr)) in
  if decide (distances_requested = [0%Z]) then
    if decide (1 < length nodes) then (filter (fun enr => distance enr = None) nodes, true) else (nodes, false)
  else
    let requested enr := match distance enr with Some d => bool_decide (d ∈ distances_requested) | None => false end in
    let kept := filter (fun enr => requested enr) nodes in
    (kept, bool_decide (length kept < length nodes)).

(** The records a finished query reports: those it collected, else those known elsewhere. *)
Definition take_untrusted (node_id : NodeId) (untrusted_enrs : list Enr) : option (Enr * list Enr) :=
  i ← position (fun enr => bool_decide (enr_node_id enr = node_id)) untrusted_enrs;
  enr ← untrusted_enrs !! i;
  Some (enr, swap_remove i untrusted_enrs).

(** The record of a node in a collection of records. *)
Definition find_record (node_id : NodeId) (enrs : list Enr) : option Enr :=
  find (fun enr => bool_decide (enr_node_id enr = node_id)) enrs.
End Pure.

Section Service.
Context {Enr PS : Type} `{!EqDecision Enr} `{!K256} `{!EnrCrate Enr} `{!Packet.EnrCodec Enr} `{!EnrUpdate Enr}.
Context `{!HashSetDelay PS NodeId}.
Variable env : Env Enr.
Notation W := (World Enr PS).
Notation S := (Service Enr PS).
Notation M := (Handler.Run W).
Notation ret := (Handler.run_ret (W := W)).
Implicit Types (s : S) (node_id : NodeId).

(** ** The world *)

(** The value the environment gives at this tick. *)
Definition take {A} (f : nat -> A) : M A := fun w =>
  Ret (mkWorld (service w) (out w) (Datatypes.S (ticks w)) (permit_ban_list w), f (ticks w)).

Definition lift {A} (m : outcome A) : M A := fun w => match m with Ret a => Ret (w, a) | Panic => Panic end.

Definition self : M S := fun w => Ret (w, service w).
Definition modify (f : S -> S) : M unit := fun w =>
  Ret (mkWorld (f (service w)) (out w) (ticks w) (permit_ban_list w), ()).
Definition log (o : Output Enr) : M unit := fun w =>
  Ret (mkWorld (service w) (o :: out w) (ticks w) (permit_ban_list w), ()).
Definition update_bans (f : PermitBan.PermitBanList -> PermitBan.PermitBanList) : M unit := fun w =>
  Ret (mkWorld (service w) (out w) (ticks w) (f (permit_ban_list w)), ()).

Definition with_local_enr (e : Enr) s : S :=
  mkService (config s) e (enr_key s) (kbuckets s) (queries s) (active_requests s) (active_nodes_responses s)
    (ip_votes s) (peers_to_ping s) (event_stream s) (ip_mode s).
Definition with_kbuckets t s : S :=
  mkService (config s) (local_enr s) (enr_key s) t (queries s) (active_requests s) (active_nodes_responses s)
    (ip_votes s) (peers_to_ping s) (event_stream s) (ip_mode s).
Definition with_queries q s : S :=
  mkService (config s) (local_enr s) (enr_key s) (kbuckets s) q (active_requests s) (active_nodes_responses s)
    (ip_votes s) (peers_to_ping s) (event_stream s) (ip_mode s).
Definition with_active (a : gmap Rpc.RequestId (ActiveRequest Enr)) s : S :=
  mkService (config s) (local_enr s) (enr_key s) (kbuckets s) (queries s) a (active_nodes_responses s)
    (ip_votes s) (peers_to_ping s) (event_stream s) (ip_mode s).
Definition with_nodes_responses (r : gmap Rpc.RequestId (NodesResponse Enr)) s : S :=
  mkService (config s) (local_enr s) (enr_key s) (kbuckets s) (queries s) (active_requests s) r
    (ip_votes s) (peers_to_ping s) (event_stream s) (ip_mode s).
Definition with_ip_votes v s : S :=
  mkService (config s) (local_enr s) (enr_key s) (kbuckets s) (queries s) (active_requests s)
    (active_nodes_responses s) v (peers_to_ping s) (event_stream s) (ip_mode s).
Definition with_peers_to_ping p s : S :=
  mkService (config s) (local_enr s) (enr_key s) (kbuckets s) (queries s) (active_requests s)
    (active_nodes_responses s) (ip_votes s) p (event_stream s) (ip_mode s).
Definition with_event_stream b s : S :=
  mkService (config s) (local_enr s) (enr_key s) (kbuckets s) (queries s) (active_requests s)
    (active_nodes_responses s) (ip_votes s) (peers_to_ping s) b (ip_mode s).

(** An operation on the routing table behind its lock. *)
Definition on_table {A} (f : Table.KBucketsTable NodeId Enr -> outcome (Table.KBucketsTable NodeId Enr * A)) : M A :=
  s ← self;
  r ← lift (f (kbuckets s));
  _ ← modify (with_kbuckets r.1);
  ret r.2.

Definition entry (k : Key NodeId) : M (Entry.Entry NodeId Enr) :=
  t ← take (now env);
  on_table (fun table => Table.entry t table k).

(** The record behind a present or a pending entry. *)
Definition pending_record (e : Entry.EntryRef NodeId Enr) : outcome Enr :=
  p ← unwrap (pending (Entry.bucket e)); Ret (value (node p)).

(** The record of a present entry. *)
Definition present_record (k : Key NodeId) : M (option Enr) :=
  e ← entry k;
  match e with
  | Entry.Present e _ => v ← lift (Entry.present_value e); ret (Some v)
  | _ => ret None
  end.

(** The record of a present or a pending entry. *)
Definition known_record (k : Key NodeId) : M (option Enr) :=
  e ← entry k;
  match e with
  | Entry.Present e _ => v ← lift (Entry.present_value e); ret (Some v)
  | Entry.PendingEntry e _ => v ← lift (pending_record e); ret (Some v)
  | _ => ret None
  end.

(** [self.peers_to_ping.insert] and [remove]. *)
Definition ping_insert node_id : M unit :=
  t ← take (now env);
  modify (fun s => with_peers_to_ping (ds_insert (peers_to_ping s) t node_id) s).
Definition ping_remove node_id : M unit :=
  modify (fun s => with_peers_to_ping (ds_remove (peers_to_ping s) node_id) s).

(** A write through [self.queries.get_mut]. *)
Definition on_query (id : Z) (f : QueryPool.Query (QueryInfo.QueryInfo Enr) NodeId Enr -> outcome (QueryPool.Query (QueryInfo.QueryInfo Enr) NodeId Enr)) : M unit :=
  s ← self;
  r ← lift (QueryPool.get_mut (queries s) id f);
  match r with Some pool => modify (with_queries pool) | None => ret () end.

(** ** Channels *)

Definition send_handler (i : Handler.HandlerIn Enr) : M bool :=
  ok ← take (handler_open env);
  _ ← log (ToHandler i ok);
  ret ok.

(** A callback that goes out of scope. *)
Definition drop_callback (c : option CallbackResponse) : M unit :=
  match c with Some c => log (Dropped (sender c)) | None => ret () end.

(** [Drop for TalkRequest]: the request is answered with an empty body. *)
Definition drop_talk (r : TalkRequest) : M unit :=
  _ ← send_handler (Handler.InResponse (talk_node_address r) (Rpc.mkResponse (talk_id r) (Rpc.TalkResponse [])));
  ret ().

(** [TalkRequest::respond]; false is [ResponseError::ChannelClosed]. *)
Definition respond (r : TalkRequest) (response : list byte) : M bool :=
  send_handler (Handler.InResponse (talk_node_address r) (Rpc.mkResponse (talk_id r) (Rpc.TalkResponse response))).

Definition drop_event (e : Event Enr) : M unit :=
  match e with TalkRequestEvent r => drop_talk r | _ => ret () end.

Definition send_event (e : Event Enr) : M unit :=
  s ← self;
  if event_stream s then
    st ← take (stream env);
    match st with
    | StreamSent => log (EventSent e)
    | StreamFull => drop_event e
    | StreamClosed => _ ← drop_event e; modify (with_event_stream false)
    end
  else drop_event e.

(** ** Requests *)

(** [self.active_requests.insert]; the request that had the id is dropped. *)
Definition insert_active (id : Rpc.RequestId) (active_request : ActiveRequest Enr) : M unit :=
  s ← self;
  _ ← drop_callback (active_requests s !! id ≫= callback);
  modify (fun s => with_active (<[id := active_request]> (active_requests s)) s).

Definition send_rpc_request (active_request : ActiveRequest Enr) : M unit :=
  id ← take (random_request_id env);
  ok ← send_handler (Handler.InRequest (contact active_request) (Rpc.mkRequest id (request_body active_request)));
  if (ok : bool) then insert_active id active_request else drop_callback (callback active_request).

Definition send_ping (enr : Enr) (cb : option Channel) : M unit :=
  s ← self;
  match try_from_enr enr (ip_mode s) with
  | Ok contact => send_rpc_request (mkActive contact (Rpc.Ping (enr_seq (local_enr s))) None (CbPong <$> cb))
  | Err _ => drop_callback (CbPong <$> cb)
  end.

Definition ping_connected_peers : M unit :=
  clock ← take (clocks env);
  nodes ← on_table (Table.iter clock);
  let connected_peers := value <$> filter (fun n => is_connected (status n)) nodes in
  Handler.for_each connected_peers (fun enr => send_ping enr None).

Definition request_find_node_designated_peer (c : NodeContact Enr) (distances : list Z) (cb : option Channel) : M unit :=
  send_rpc_request (mkActive c (Rpc.FindNode distances) None (CbNodes <$> cb)).

Definition talk_request (c : NodeContact Enr) (protocol request : list byte) (cb : Channel) : M unit :=
  send_rpc_request (mkActive c (Rpc.Talk protocol request) None (Some (CbTalk cb))).

Definition find_untrusted node_id (qs : gmap Z (QueryPool.Query (QueryInfo.QueryInfo Enr) NodeId Enr)) (order : list Z) : option Enr :=
  foldr (fun i r =>
    match qs !! i ≫= (fun q => find_record node_id (QueryInfo.untrusted_enrs (QueryPool.target q))) with
    | Some enr => Some enr
    | None => r
    end) None order.

Definition find_enr node_id : M (option Enr) :=
  r ← present_record (Key.from_node_id node_id);
  match r with
  | Some enr => ret (Some enr)
  | None =>
      order ← take (query_order env);
      s ← self;
      let qs := QueryPool.queries (queries s) in
      ret (find_untrusted node_id qs (order qs))
  end.

Definition send_rpc_query (query_id : Z) (return_peer : NodeId) (request_body : Rpc.RequestBody) : M unit :=
  r ← find_enr return_peer;
  s ← self;
  match r ≫= (fun enr => match try_from_enr enr (ip_mode s) with Ok contact => Some contact | Err _ => None end) with
  | Some contact => send_rpc_request (mkActive contact request_body (Some query_id) None)
  | None => on_query query_id (fun q => QueryPool.on_failure q return_peer)
  end.

(** ** Requests of other nodes *)

Definition send_nodes_response (node_address : NodeAddress) (rpc_id : Rpc.RequestId) (distances : list Z) : M unit :=
  s ← self;
  let distances := dedup (merge_sort Z.le distances) in
  let '(own, distances) := match distances with
                           | d :: rest => if decide (d = 0%Z) then ([local_enr s], rest) else ([], distances)
                           | [] => ([], [])
                           end in
  nodes ← (match distances with
           | [] => ret []
           | _ =>
               clock ← take (clocks env);
               on_table (fun t => Table.nodes_by_distances clock t distances (max_nodes_response (config s)))
           end : M (list (KBucket.Node NodeId Enr)));
  let nodes_to_send :=
    own ++ (value <$> filter (fun n => Key.preimage (key n) <> NodeInfo.node_id node_address) nodes) in
  responses ← lift (nodes_responses rpc_id nodes_to_send);
  Handler.for_each responses (fun response => _ ← send_handler (Handler.InResponse node_address response); ret ()).

Definition handle_rpc_request (node_address : NodeAddress) (req : Rpc.Request) : M unit :=
  match Rpc.req_body req with
  | Rpc.FindNode distances => send_nodes_response node_address (Rpc.req_id req) distances
  | Rpc.Ping seq =>
      known ← known_record (Key.from_node_id (NodeInfo.node_id node_address));
      s ← self;
      _ ← (match known with
           | Some enr =>
               if decide (enr_seq enr < seq)%Z then
                 match try_from_enr enr (ip_mode s) with
                 | Ok contact => request_find_node_designated_peer contact [0%Z] None
                 | Err _ => lift (debug_unreachable (debug_assertions env))
                 end
               else ret ()
           | None => ret ()
           end : M unit);
      let src := socket_addr node_address in
      s ← self;
      if decide (SocketAddr.port src = 0%Z) then ret ()
      else
        _ ← send_handler (Handler.InResponse node_address
              (Rpc.mkResponse (Rpc.req_id req) (Rpc.Pong (enr_seq (local_enr s)) (SocketAddr.ip src) (SocketAddr.port src))));
        ret ()
  | Rpc.Talk protocol request =>
      send_event (TalkRequestEvent (mkTalk (Rpc.req_id req) node_address protocol request))
  end.

(** ** Queries *)

(** Enough for a table of 256 buckets of 16 nodes, one of which may be visited twice. *)
Definition CLOSEST_FUEL : nat := 512 * MAX_NODES_PER_BUCKET + 1.

(** A [for] loop over an iterator of the table. *)
Definition list_closest {Out} (clock : nat -> Z) (it : ClosestIter NodeId Enr NodeId Out)
    : outcome (Table.KBucketsTable NodeId Enr * list Out) :=
  '(it, l) ← take_next CLOSEST_FUEL clock it;
  Ret (table it, l).

Definition start_findnode_query (target_node : NodeId) (cb : Channel) : M unit :=
  let target enrs := QueryInfo.mkInfo (QueryInfo.FindNode target_node) enrs cb DISTANCES_TO_REQUEST_PER_PEER in
  let target_key := QueryInfo.key (target []) in
  clock ← take (clocks env);
  closest ← on_table (fun t => list_closest clock (closest_values t target_key));
  match closest with
  | [] => log (Answered cb (AnsQuery []))
  | _ =>
      modify (fun s =>
        let query_config := FindNode.mkConfig (query_parallelism (config s)) MAX_NODES_PER_BUCKET (query_peer_timeout (config s)) in
        with_queries (QueryPool.add_findnode_query (queries s) query_config (target (cv_value <$> closest)) (cv_key <$> closest)).1 s)
  end.

Definition start_predicate_query (target_node : NodeId) (num_nodes : nat) (predicate : Enr -> bool) (cb : Channel) : M unit :=
  let target enrs := QueryInfo.mkInfo (QueryInfo.FindNode target_node) enrs cb DISTANCES_TO_REQUEST_PER_PEER in
  let target_key := QueryInfo.key (target []) in
  clock ← take (clocks env);
  closest ← on_table (fun t => list_closest clock (closest_values_predicate t target_key predicate));
  let closest := map to_key_value closest in
  match closest with
  | [] => log (Answered cb (AnsQuery []))
  | _ =>
      modify (fun s =>
        let query_config := FindNode.mkConfig (query_parallelism (config s)) num_nodes (query_peer_timeout (config s)) in
        with_queries (QueryPool.add_predicate_query (queries s) query_config (target closest.*2) closest.*1 predicate).1 s)
  end.

(** One record of [discovered]: whether it is retained. *)
Definition retain_discovered (source local_id : NodeId) (enr : Enr) : M bool :=
  if decide (enr_node_id enr = local_id) then ret false
  else
    s ← self;
    _ ← (if report_discovered_peers (config s) then send_event (Discovered enr) else ret () : M unit);
    if table_filter (config s) enr then
      let key := Key.from_node_id (enr_node_id enr) in
      known ← known_record key;
      let must_update_enr := match known with Some v => bool_decide (enr_seq v < enr_seq enr)%Z | None => false end in
      updated ← (if (must_update_enr : bool) then
                   t ← take (now env);
                   t' ← take (now env);
                   r ← on_table (fun table => Table.update_node t t' table key enr None);
                   match r with
                   | Failed _ => _ ← ping_remove (enr_node_id enr); ret false
                   | _ => ret true
                   end
                 else ret true : M bool);
      ret (updated && bool_decide (source <> enr_node_id enr))
    else ret false.

Fixpoint retain_all (source local_id : NodeId) (enrs : list Enr) : M (list Enr) :=
  match enrs with
  | [] => ret []
  | enr :: enrs =>
      b ← retain_discovered source local_id enr;
      l ← retain_all source local_id enrs;
      ret (if (b : bool) then enr :: l else l)
  end.

(** The records a query did not know yet are added to those it may contact. *)
Definition add_untrusted (enrs untrusted : list Enr) : list Enr :=
  foldl (fun u enr => if decide (Exists (fun e => enr_node_id e = enr_node_id enr) u) then u else u ++ [enr]) untrusted enrs.

Definition discovered (source : NodeId) (enrs : list Enr) (query_id : option Z) : M unit :=
  s ← self;
  enrs ← retain_all source (enr_node_id (local_enr s)) enrs;
  match query_id with
  | Some query_id =>
      on_query query_id (fun q =>
        let target := QueryPool.target q in
        let target := QueryInfo.mkInfo (QueryInfo.query_type target) (add_untrusted enrs (QueryInfo.untrusted_enrs target))
                        (QueryInfo.callback target) (QueryInfo.distances_to_request target) in
        let q := QueryPool.mkQuery (QueryPool.id q) (QueryPool.peer_iter q) (QueryPool.started q) target in
        QueryPool.on_success enr_node_id q source enrs)
  | None => ret ()
  end.

(** ** Connections *)

Definition connection_updated (node_id : NodeId) (new_status : ConnectionStatus Enr) : M unit :=
  let key := Key.from_node_id node_id in
  '(ping_peer, event_to_send) ←
    (match new_status with
     | StConnected enr direction =>
         t ← take (now env);
         t' ← take (now env);
         insert_result ← on_table (fun table => Table.insert_or_update t t' table key enr (mkStatus direction Connected));
         match insert_result with
         | Table.TInserted =>
             _ ← ping_insert node_id;
             _ ← (match direction with Outgoing => send_ping enr None | Incoming => ret () end : M unit);
             ret (None, Some (NodeInserted node_id None))
         | Table.TPending disconnected => ret (Some disconnected, None)
         | Table.TStatusUpdated promoted_to_connected | Table.TUpdated promoted_to_connected =>
             _ ← (if (promoted_to_connected : bool) then ping_insert node_id else ret () : M unit);
             ret (None, None)
         | Table.TValueUpdated | Table.TUpdatedPending => ret (None, None)
         | Table.TFailed _ => _ ← ping_remove node_id; ret (None, None)
         end
     | StPongReceived enr =>
         t ← take (now env);
         t' ← take (now env);
         r ← on_table (fun table => Table.update_node t t' table key enr (Some Connected));
         _ ← (match r with Failed _ => ping_remove node_id | _ => ret () end : M unit);
         ret (None, None)
     | StDisconnected =>
         t ← take (now env);
         t' ← take (now env);
         _ ← on_table (fun table => Table.update_node_status t t' table key Disconnected None);
         _ ← ping_remove node_id;
         ret (None, None)
     end : M (option (Key NodeId) * option (Event Enr)));
  _ ← (match event_to_send with Some event => send_event event | None => ret () end : M unit);
  match ping_peer with
  | Some node_key =>
      optional_enr ← present_record node_key;
      match optional_enr with Some enr => send_ping enr None | None => ret () end
  | None => ret ()
  end.

Definition inject_session_established (enr : Enr) (connection_direction : ConnectionDirection) : M unit :=
  s ← self;
  match IpMode.get_contactable_addr (ip_mode s) enr with
  | None => ret ()
  | Some _ =>
      let key := Key.from_node_id (enr_node_id enr) in
      bucket ← lift (Table.get_bucket (kbuckets s) key);
      let direction := match bucket ≫= (fun b => get b key) with
                       | Some node => Bucket.direction (status node)
                       | None => connection_direction
                       end in
      connection_updated (enr_node_id enr) (StConnected enr direction)
  end.

(** ** Responses *)

(** [self.config.ban_duration.map(|v| Instant::now() + v)] and the ban. *)
Definition ban_address (node_address : NodeAddress) : M unit :=
  s ← self;
  ban_timeout ← (match ban_duration (config s) with
                 | Some v => t ← take (now env); ret (Some (t + v)%Z)
                 | None => ret None
                 end : M (option Z));
  update_bans (fun l => PermitBan.ban l node_address ban_timeout).

Definition handle_nodes (node_address : NodeAddress) (id : Rpc.RequestId) (active_request : ActiveRequest Enr)
    (total : Z) (nodes : list Enr) : M unit :=
  distances_requested ← lift (match request_body active_request with Rpc.FindNode distances => Ret distances | _ => Panic end);
  match callback active_request with
  | Some (CbNodes c) => log (Answered c (AnsNodes (Ok nodes)))
  | other =>
      _ ← drop_callback other;
      let active_request := mkActive (contact active_request) (request_body active_request) (query_id active_request) None in
      let '(nodes, invalid) := check_distances (NodeInfo.node_id node_address) distances_requested nodes in
      _ ← (if (invalid : bool) then ban_address node_address else ret () : M unit);
      s ← self;
      let current_response := default (mkNodes 1 []) (active_nodes_responses s !! id) in
      if decide (1 < total)%Z then
        _ ← modify (with_nodes_responses (delete id (active_nodes_responses s)));
        if decide (length (received_nodes current_response) < max_nodes_response (config s) /\
                   (Z.of_nat (count current_response) < total)%Z /\ count current_response < MAX_NODES_RESPONSES) then
          _ ← modify (fun s =>
                with_nodes_responses
                  (<[id := mkNodes (count current_response + 1) (received_nodes current_response ++ nodes)]> (active_nodes_responses s)) s);
          insert_active id active_request
        else discovered (NodeInfo.node_id node_address) (received_nodes current_response ++ nodes) (query_id active_request)
      else
        _ ← modify (with_nodes_responses (delete id (active_nodes_responses s)));
        discovered (NodeInfo.node_id node_address) nodes (query_id active_request)
  end.

(** The local record with a new socket, if the key could sign it. *)
Definition update_socket (socket : SocketAddr) : M bool :=
  s ← self;
  match enr_set_udp_socket (local_enr s) socket (enr_key s) with
  | Some enr => _ ← modify (with_local_enr enr); _ ← send_event (SocketUpdated socket); ret true
  | None => ret false
  end.

(** The vote of a node that was contacted, and the update of the local record. *)
Definition count_vote (node_id : NodeId) (socket : SocketAddr) : M unit :=
  s ← self;
  match ip_votes s with
  | None => ret ()
  | Some votes =>
      let local_ip4_socket := enr_udp4_socket (local_enr s) in
      let local_ip6_socket := enr_udp6_socket (local_enr s) in
      t ← take (now env);
      let votes := IpVote.insert votes t node_id socket in
      t ← take (now env);
      values ← take (vote_values env);
      order4 ← take (count4_order env);
      order6 ← take (count6_order env);
      let '(votes, (ip4_majority, ip6_majority)) := IpVote.majority votes t values order4 order6 in
      _ ← modify (with_ip_votes (Some votes));
      let new_ip4 := if decide (ip4_majority <> local_ip4_socket) then ip4_majority else None in
      let new_ip6 := if decide (ip6_majority <> local_ip6_socket) then ip6_majority else None in
      updated6 ← (match new_ip6 with Some a => update_socket (SockV6 a) | None => ret false end : M bool);
      updated4 ← (match new_ip4 with Some a => update_socket (SockV4 a) | None => ret false end : M bool);
      if updated6 || updated4 then ping_connected_peers else ret ()
  end.

Definition handle_pong (node_address : NodeAddress) (active_request : ActiveRequest Enr) (seq : Z) (ip : IpAddr) (port : Z)
    : M unit :=
  match callback active_request with
  | Some (CbPong c) => log (Answered c (AnsPong (Ok (mkPong seq ip port))))
  | other =>
      _ ← drop_callback other;
      let node_id := NodeInfo.node_id node_address in
      e ← entry (Key.from_node_id node_id);
      let should_count := match e with
                          | Entry.Present _ status => is_connected status && negb (is_incoming status)
                          | _ => false
                          end in
      _ ← (if (should_count : bool) then count_vote node_id (SocketAddr.new ip port) else ret () : M unit);
      r ← find_enr node_id;
      match r with
      | Some enr =>
          _ ← (if decide (enr_seq enr < seq)%Z
               then send_rpc_request (mkActive (contact active_request) (Rpc.FindNode [0%Z]) None None) else ret () : M unit);
          connection_updated node_id (StPongReceived enr)
      | None => ret ()
      end
  end.

Definition handle_talk (active_request : ActiveRequest Enr) (response : list byte) : M unit :=
  match callback active_request with
  | Some (CbTalk c) => log (Answered c (AnsTalk (Ok response)))
  | other => drop_callback other
  end.

Definition handle_rpc_response (node_address : NodeAddress) (response : Rpc.Response Enr) : M unit :=
  let id := Rpc.resp_id response in
  s ← self;
  match active_requests s !! id with
  | None => ret ()
  | Some active_request =>
      _ ← modify (fun s => with_active (delete id (active_requests s)) s);
      if decide (NodeInfo.node_address (contact active_request) <> node_address) then
        _ ← lift (debug_unreachable (debug_assertions env));
        drop_callback (callback active_request)
      else if negb (Rpc.match_request response (request_body active_request)) then
        drop_callback (callback active_request)
      else
        match Rpc.resp_body response with
        | Rpc.Nodes total nodes => handle_nodes node_address id active_request total nodes
        | Rpc.Pong seq ip port => handle_pong node_address active_request seq ip port
        | Rpc.TalkResponse response => handle_talk active_request response
        end
  end.

Definition answer_failure (c : CallbackResponse) (error : RequestError Enr) : M unit :=
  match c with
  | CbNodes c => log (Answered c (AnsNodes (Err error)))
  | CbTalk c => log (Answered c (AnsTalk (Err error)))
  | CbPong c => log (Answered c (AnsPong (Err error)))
  end.

Definition rpc_failure (id : Rpc.RequestId) (error : RequestError Enr) : M unit :=
  s ← self;
  match active_requests s !! id with
  | None => ret ()
  | Some active_request =>
      _ ← modify (fun s => with_active (delete id (active_requests s)) s);
      match callback active_request with
      | Some c => answer_failure c error
      | None =>
          let node_id := contact_node_id (contact active_request) in
          let query_failed := match query_id active_request with
                              | Some i => on_query i (fun q => QueryPool.on_failure q node_id)
                              | None => ret ()
                              end in
          _ ← (match request_body active_request with
               | Rpc.FindNode _ =>
                   s ← self;
                   match active_nodes_responses s !! id with
                   | Some nodes_response =>
                       _ ← modify (with_nodes_responses (delete id (active_nodes_responses s)));
                       match received_nodes nodes_response with
                       | [] => ret ()
                       | received => discovered node_id received (query_id active_request)
                       end
                   | None => query_failed
                   end
               | _ => query_failed
               end : M unit);
          connection_updated node_id StDisconnected
      end
  end.

(** ** The loop *)

(** [bucket_maintenance_poll]: the event of an applied pending node. *)
Definition bucket_maintenance_poll : M (option (Event Enr)) :=
  r ← on_table (fun t => Ret (Table.take_applied_pending t));
  ret ((fun a => NodeInserted (Key.into_preimage (inserted a)) ((fun n => Key.into_preimage (key n)) <$> evicted a)) <$> r).

(** The records a query that ended reports. *)
Fixpoint found_enrs (closest_peers : list NodeId) (untrusted : list Enr) : M (list Enr) :=
  match closest_peers with
  | [] => ret []
  | node_id :: closest_peers =>
      match take_untrusted node_id untrusted with
      | Some (enr, untrusted) => l ← found_enrs closest_peers untrusted; ret (enr :: l)
      | None =>
          r ← find_enr node_id;
          l ← found_enrs closest_peers untrusted;
          ret (match r with Some enr => enr :: l | None => l end)
      end
  end.

Definition query_ended (q : QueryPool.Query (QueryInfo.QueryInfo Enr) NodeId Enr) : M unit :=
  let '(target, closest_peers) := QueryPool.query_into_result q in
  l ← found_enrs closest_peers (QueryInfo.untrusted_enrs target);
  log (Answered (QueryInfo.callback target) (AnsQuery l)).

(** [query_event_poll] and what the loop does with its answer. *)
Definition query_event : M unit :=
  t ← take (now env);
  order ← take (query_order env);
  s ← self;
  '(pool, st) ← lift (QueryPool.poll t (order (QueryPool.queries (queries s))) (queries s));
  _ ← modify (with_queries pool);
  match st with
  | QueryPool.PoolFinished q | QueryPool.Timeout q => query_ended q
  | QueryPool.PoolWaiting (Some (id, node_id)) =>
      q ← lift (unwrap (QueryPool.queries pool !! id));
      request_body ← lift (QueryInfo.rpc_request (QueryPool.target q) node_id);
      send_rpc_query id node_id request_body
  | QueryPool.PoolWaiting None | QueryPool.Idle => ret ()
  end.

(** A peer whose ping is due. *)
Definition ping_due : M unit :=
  t ← take (now env);
  s ← self;
  let '(p, polled) := ds_poll_next (peers_to_ping s) t in
  _ ← modify (with_peers_to_ping p);
  match polled with
  | Ready (Some (Ok node_id)) =>
      enr ← present_record (Key.from_node_id node_id);
      match enr with
      | Some enr => _ ← ping_insert node_id; send_ping enr None
      | None => ret ()
      end
  | _ => ret ()
  end.

Definition handle_request (r : ServiceRequest Enr) : M unit :=
  match r with
  | StartQuery (KindFindNode target_node) cb => start_findnode_query target_node cb
  | StartQuery (KindPredicate target_node target_peer_no predicate) cb =>
      start_predicate_query target_node target_peer_no predicate cb
  | FindNodeDesignated node_contact distances cb => request_find_node_designated_peer node_contact distances (Some cb)
  | TalkReq node_contact protocol request cb => talk_request node_contact protocol request cb
  | PingReq enr cb => send_ping enr cb
  | RequestEventStream cb => _ ← modify (with_event_stream true); log (Answered cb AnsStream)
  end.

Definition handle_event (o : Handler.HandlerOut Enr) : M unit :=
  match o with
  | Handler.OutEstablished enr addr direction =>
      _ ← send_event (SessionEstablished enr addr);
      inject_session_established enr direction
  | Handler.OutRequest node_address request => handle_rpc_request node_address request
  | Handler.OutResponse node_address response => handle_rpc_response node_address response
  | Handler.OutWhoAreYou (Handler.mkWhoAreYouRef addr nonce) =>
      known_enr ← find_enr (NodeInfo.node_id addr);
      _ ← send_handler (Handler.InWhoAreYou (Handler.mkWhoAreYouRef addr nonce) known_enr);
      ret ()
  | Handler.OutRequestFailed id error => rpc_failure id error
  end.

(** The branches of [select!], and what other tasks do with the shared table and
    the shared record. *)
Inductive SEvent :=
  | EvRequest (r : ServiceRequest Enr)
  | EvHandler (o : Handler.HandlerOut Enr)
  | EvBucketMaintenance
  | EvQuery
  | EvPing
  | EvTable (clock : nat -> Z) (op : TableTrace.table_op NodeId Enr)
  | EvLocalEnr (enr : Enr).

Definition step (e : SEvent) : M unit :=
  match e with
  | EvRequest r => handle_request r
  | EvHandler o => handle_event o
  | EvBucketMaintenance =>
      r ← bucket_maintenance_poll;
      match r with Some event => send_event event | None => ret () end
  | EvQuery => query_event
  | EvPing => ping_due
  | EvTable clock op => on_table (fun t => t ← TableTrace.run_table_op clock op t; Ret (t, ()))
  | EvLocalEnr enr => modify (with_local_enr enr)
  end.

Definition start (events : list SEvent) : M unit := Handler.for_each events step.

(** The service [spawn] builds over a table. *)
Definition new (local_enr : Enr) (enr_key : CombinedKey) (kbuckets : Table.KBucketsTable NodeId Enr) (config : Config Enr)
    : outcome S :=
  ip_votes ← (if enr_update config then Some <$> IpVote.new (enr_peer_update_min config) (vote_duration config) else Ret None);
  _ ← unwrap (executor config);
  Ret (mkService config local_enr enr_key kbuckets (QueryPool.new (query_timeout config)) ∅ ∅ ip_votes
         (ds_new (ping_interval config)) false (IpMode.new_from_listen_config (listen_config config))).

Definition initial s : W := mkWorld s [] 0 PermitBan.default.
End Service.
Arguments SEvent Enr {_}.
End Service.
