(* ===== verification/ServiceNodes.v ===== *)
(** * NODES responses

    How the service splits the records it sends over NODES responses, what it
    keeps of those it receives, and how the two fit: the responses one service
    builds add up, at the other, to the records that were sent. *)

From S2P Require Import Prelude Bytes Key Bucket BucketSpec Table TableProofs FindNode QueryPool Rpc QueryInfo.
From S2P Require Import Packet PacketProofs NodeInfo Crypto Maps ActiveRequests Session Globals Config Handler Service.
Import NodeInfo KBucket Config Service.

(** The size of what the [rlp] crate writes: short strings have a header of one
    byte, integers below 128 are one byte, and a list of less than 64 kilobytes
    has a header of at most three bytes. *)
Class RlpSize (Enr : Type) `{!Rlp Enr} `{!Packet.EnrCodec Enr} := {
  rlp_bytes_size b : length b <= 55 -> length (rlp_out (IBytes b)) <= 1 + length b;
  rlp_uint_size n : (0 <= n < 128)%Z -> length (rlp_out (IUint n)) <= 1;
  rlp_enr_size e : rlp_out (IEnr e) = Packet.enr_encode e;
  rlp_list_size l : (Z.of_nat (sum_list_with (fun i => length (rlp_out i)) l) < 2 ^ 16)%Z ->
    length (rlp_out (IList l)) <= 3 + sum_list_with (fun i => length (rlp_out i)) l;
}.

(** ** Splitting *)

Section Split.
Context {Enr : Type} `{!K256} `{!EnrCrate Enr} `{!Packet.EnrCodec Enr}.
Implicit Types (nodes cur : list Enr) (chunks : list (list Enr)) (id : Rpc.RequestId).

Definition records_size nodes : nat := sum_list_with (fun e => length (Packet.enr_encode e)) nodes.

(** The records of a response leave room for the rest of its packet, unless a
    single record does not. *)
Definition fits nodes : Prop := records_size nodes < Packet.MAX_PACKET_SIZE - 104 \/ length nodes <= 1.

(** The responses for [chunks]. *)
Definition responses_of id chunks : list (Rpc.Response Enr) :=
  map (fun nodes => Rpc.mkResponse id (Rpc.Nodes (Z.of_nat (length chunks)) nodes)) chunks.

(** A way to send [nodes]: the chunks are not empty, the first one excepted. *)
Definition splits nodes chunks : Prop :=
  concat chunks = nodes /\ Forall fits chunks /\ 1 <= length chunks /\ Forall (fun c => c <> []) (tail chunks).

Lemma pack_nodes_ok pre cur nodes :
  fits cur ->
  exists c chunks, pack_nodes (pre ++ [cur]) (records_size cur) (length pre) nodes =
      Ret (pre ++ c :: chunks, length pre + length chunks) /\
    c ++ concat chunks = cur ++ nodes /\ Forall fits (c :: chunks) /\ cur `prefix_of` c /\ Forall (fun c => c <> []) chunks.
Proof.
  revert pre cur. induction nodes as [|enr nodes IH]; intros pre cur Hc; simpl.
  { exists cur, []. rewrite Nat.add_0_r. split_and!; [done|done|by constructor|done|done]. }
  case_decide as Hs.
  - rewrite list_lookup_middle by done. cbn [unwrap mbind outcome_bind].
    replace (<[length pre:=cur ++ [enr]]> (pre ++ [cur])) with (pre ++ [cur ++ [enr]])
      by (rewrite <-(Nat.add_0_r (length pre)), insert_app_r; done).
    assert (records_size cur + length (Packet.enr_encode enr) = records_size (cur ++ [enr])) as ->
      by (unfold records_size; rewrite sum_list_with_app; simpl; lia).
    destruct (IH pre (cur ++ [enr])) as (c & chunks & E & Hcat & Hf & Hp & Hne).
    { left. unfold records_size in *. rewrite sum_list_with_app. simpl. lia. }
    exists c, chunks. split_and!; [done| |done| |done]; [by rewrite Hcat, <-app_assoc|].
    etrans; [|exact Hp]. by apply prefix_app_r.
  - assert (length (Packet.enr_encode enr) = records_size [enr]) as -> by (unfold records_size; simpl; lia).
    destruct (IH (pre ++ [cur]) [enr]) as (c & chunks & E & Hcat & Hf & Hp & Hne); [by right|].
    rewrite length_app in E. exists cur, (c :: chunks). simpl in *. split_and!; [|by rewrite Hcat|by constructor|done|].
    + rewrite E, <-app_assoc. do 2 f_equal. lia.
    + constructor; [|done]. intros ->. by apply prefix_nil_inv in Hp.
Qed.

Lemma nodes_responses_ok id nodes : exists chunks, nodes_responses id nodes = Ret (responses_of id chunks) /\ splits nodes chunks.
Proof.
  unfold nodes_responses. destruct nodes as [|enr nodes].
  - exists [[]]. split; [done|]. split_and!; [done| |done|constructor]. constructor; [right; simpl; lia|constructor].
  - destruct (pack_nodes_ok [] [] (enr :: nodes)) as (c & chunks & E & Hcat & Hf & _ & Hne); [right; simpl; lia|].
    cbn [app length] in E. change (records_size []) with 0 in E. exists (c :: chunks).
    split; [|split_and!; [done|done|simpl; lia|done]].
    rewrite E. cbn [mbind outcome_bind]. unfold responses_of. do 2 f_equal. cbn [length app].
    rewrite Nat.add_1_r, Nat.add_0_l. done.
Qed.
End Split.

(** ** The size of a response *)

Section Size.
Context {Enr : Type} `{!K256} `{!EnrCrate Enr} `{!Packet.EnrCodec Enr} `{!Rlp Enr} `{!RlpSize Enr}.
Context `{!Primitives} `{!PrimitiveLaws} `{!Packet.ProtocolIdentity} `{!Packet.Aes128Ctr}.

Lemma chunk_count (chunks : list (list Enr)) :
  Forall (fun c => c <> []) (tail chunks) -> length chunks <= 1 + length (concat chunks).
Proof.
  destruct chunks as [|c chunks]; simpl; [lia|]. intros Hne. rewrite length_app.
  assert (length chunks <= length (concat chunks)); [|lia].
  induction Hne as [|c' chunks Hc _ IH]; simpl; [lia|]. rewrite length_app. destruct c'; [done|]. simpl. lia.
Qed.

(** A chunk of records that are not too large. *)
Lemma chunk_small (chunks : list (list Enr)) nodes c :
  concat chunks = nodes -> Forall fits chunks -> c ∈ chunks ->
  Forall (fun e => length (Packet.enr_encode e) < Packet.MAX_PACKET_SIZE - 104) nodes ->
  records_size c < Packet.MAX_PACKET_SIZE - 104.
Proof.
  intros <- Hf Hc Hr. rewrite Forall_forall in Hf. destruct (Hf c Hc) as [?|Hlen]; [done|].
  apply list_elem_of_split in Hc as (l1 & l2 & ->). rewrite concat_app, Forall_app in Hr. destruct Hr as [_ Hr].
  simpl in Hr. apply Forall_app in Hr as [Hr _]. unfold records_size, Packet.MAX_PACKET_SIZE in *.
  destruct c as [|e [|e' c]]; simpl in *; [lia| |lia]. apply Forall_cons in Hr as [He _]. lia.
Qed.

Lemma records_size_rlp (nodes : list Enr) :
  sum_list_with (fun i => length (rlp_out i)) (IEnr <$> nodes) = records_size nodes.
Proof. unfold records_size. induction nodes as [|e nodes IH]; csimpl; [done|]. by rewrite rlp_enr_size, IH. Qed.

(** The encoding of a NODES response. *)
Lemma nodes_encode_size id total (nodes : list Enr) :
  length id <= 8 -> (0 <= total < 128)%Z -> records_size nodes < Packet.MAX_PACKET_SIZE - 104 ->
  length (Rpc.response_encode (Rpc.mkResponse id (Rpc.Nodes total nodes))) <= 17 + records_size nodes.
Proof.
  intros Hid Htot Hs. unfold Packet.MAX_PACKET_SIZE in Hs.
  assert (length (rlp_out (IList (IEnr <$> nodes))) <= 3 + records_size nodes) as Hl.
  { rewrite <-records_size_rlp. apply rlp_list_size. rewrite records_size_rlp. lia. }
  pose proof (rlp_bytes_size id ltac:(lia)) as Hb. pose proof (rlp_uint_size total Htot) as Hu.
  unfold Rpc.response_encode. cbn [Rpc.resp_body Rpc.resp_id length].
  pose proof (rlp_list_size [IBytes id; IUint total; IList (IEnr <$> nodes)]) as Ho. simpl sum_list_with in Ho.
  assert (length (rlp_out (IList [IBytes id; IUint total; IList (IEnr <$> nodes)])) <= 16 + records_size nodes); [|lia].
  etrans; [apply Ho|]; lia.
Qed.

(** The packet of a message with a session. *)
Lemma message_packet_size debug session rn iv src message session' (packet : Packet.Packet Enr) dst :
  Session.encrypt_message debug session rn iv src message = Ret (session', Ok packet) ->
  length (Packet.encode packet dst) = 87 + length message.
Proof.
  unfold Session.encrypt_message. destruct (Session.increment _ _) as [n|]; [|done]. intros [= <- E]. unfold Session.from_crypto, Crypto.encrypt_message in E.
  destruct (gcm_encrypt _ _ _ _) as [c|] eqn:Ec; [|done]. injection E as <-.
  apply gcm_decrypt_encrypt in Ec as [_ Hc]. unfold Packet.encode, Packet.encrypt_header. cbn [Packet.iv Packet.message Packet.header].
  rewrite !length_app, length_to_be_bytes, length_apply_keystream. unfold Packet.header_encode.
  cbn [Packet.kind Packet.message_nonce Packet.kind_encode].
  rewrite !length_app, !length_vec_to_list, length_to_be_bytes. simpl. lia.
Qed.
End Size.

(** ** What is kept of a response *)

Section Check.
Context {Enr : Type} `{!K256} `{!EnrCrate Enr}.
Implicit Types (nodes : list Enr) (peer : NodeId) (distances : list Z).

(** The log2 distance of a record from a peer. *)
Definition record_distance peer (enr : Enr) : option Z :=
  Key.log2_distance (Key.from_node_id peer) (Key.from_node_id (enr_node_id enr)).

(** What an honest peer answers: its own record, or records at requested distances. *)
Definition solicited peer distances nodes : Prop :=
  if decide (distances = [0%Z]) then length nodes <= 1
  else Forall (fun enr => exists d, record_distance peer enr = Some d /\ d ∈ distances) nodes.

Lemma check_solicited peer distances nodes :
  solicited peer distances nodes -> check_distances peer distances nodes = (nodes, false).
Proof.
  unfold solicited, check_distances. case_decide; intros Hs; [by rewrite decide_False by lia|].
  set (kept := filter _ nodes). assert (kept = nodes) as ->; [|by rewrite bool_decide_eq_false_2 by lia].
  unfold kept. clear kept. induction Hs as [|enr nodes (d & Hd & Hin) _ IH]; [done|].
  rewrite filter_cons_True; [by rewrite IH|]. unfold record_distance in Hd. rewrite Hd. by apply bool_decide_pack.
Qed.

Lemma solicited_part peer distances (chunks : list (list Enr)) c :
  solicited peer distances (concat chunks) -> c ∈ chunks -> solicited peer distances c.
Proof.
  intros Hs (l1 & l2 & ->)%list_elem_of_split. rewrite concat_app in Hs. simpl in Hs. unfold solicited in *.
  case_decide; [rewrite !length_app in Hs; lia|]. by rewrite !Forall_app in Hs; destruct Hs as [_ [? _]].
Qed.
End Check.

(** ** The exchange *)

Section Exchange.
Context {Enr PS : Type} `{!EqDecision Enr} `{!K256} `{!EnrCrate Enr} `{!Packet.EnrCodec Enr} `{!EnrUpdate Enr}.
Context `{!HashSetDelay PS NodeId}.
Variable env : Env Enr.
Notation W := (World Enr PS).
Context (addr : NodeAddress) (id : Rpc.RequestId) (ar : ActiveRequest Enr) (distances : list Z).
Hypothesis addressed : NodeInfo.node_address (contact ar) = addr.
Hypothesis body : request_body ar = Rpc.FindNode distances.
Hypothesis no_callback : callback ar = None.

(** The world with a request that waits for responses, [partial] of them received. *)
Definition waiting (w : W) (partial : option (NodesResponse Enr)) : W :=
  mkWorld (with_active (<[id := ar]> (active_requests (service w)))
             (with_nodes_responses (partial_alter (fun _ => partial) id (active_nodes_responses (service w))) (service w)))
    (out w) (ticks w) (permit_ban_list w).

(** The world without it. *)
Definition settled (w : W) : W :=
  mkWorld (with_active (delete id (active_requests (service w)))
             (with_nodes_responses (delete id (active_nodes_responses (service w))) (service w)))
    (out w) (ticks w) (permit_ban_list w).

Lemma receive_response (w : W) partial total nodes :
  let current := stdpp.option.default (mkNodes 1 []) partial in
  solicited (NodeInfo.node_id addr) distances nodes ->
  handle_rpc_response env addr (Rpc.mkResponse id (Rpc.Nodes total nodes)) (waiting w partial) =
  if decide (1 < total)%Z then
    if decide (length (received_nodes current) < max_nodes_response (config (service w)) /\
               (Z.of_nat (count current) < total)%Z /\ count current < MAX_NODES_RESPONSES)
    then Ret (waiting w (Some (mkNodes (count current + 1) (received_nodes current ++ nodes))), ())
    else discovered env (NodeInfo.node_id addr) (received_nodes current ++ nodes) (query_id ar) (settled w)
  else discovered env (NodeInfo.node_id addr) nodes (query_id ar) (settled w).
Proof.
  intros current Hs. unfold handle_rpc_response. unfold mbind, Handler.run_bind, self at 1. simpl.
  rewrite lookup_insert_eq, decide_False by auto. unfold Rpc.match_request. rewrite body. simpl.
  unfold handle_nodes, mbind, Handler.run_bind. rewrite body, no_callback. cbn [lift].
  rewrite check_solicited by done. simpl. rewrite lookup_partial_alter_eq. fold current.
  repeat case_decide; simpl; try done; repeat f_equal; rewrite ?delete_insert_eq, ?delete_partial_alter_eq; try done.
  assert (mkActive (contact ar) (Rpc.FindNode distances) (query_id ar) None = ar) as ->
    by (rewrite <-body, <-no_callback; by destruct ar).
  unfold insert_active, mbind, Handler.run_bind, self. simpl. rewrite lookup_delete_eq. simpl.
  unfold modify, waiting. simpl. by rewrite !insert_delete_eq.
Qed.

Lemma bind_unit (m : Handler.Run W unit) w : (_ ← m; Handler.run_ret ()) w = m w.
Proof. unfold mbind, Handler.run_bind. by destruct (m w) as [[w' []]|]. Qed.

(** Responses that do not complete the answer. *)
Lemma receive_some (w : W) total chunks partial cnt recv :
  stdpp.option.default (mkNodes 1 []) partial = mkNodes cnt recv -> chunks <> [] ->
  Forall (solicited (NodeInfo.node_id addr) distances) chunks -> (1 < total)%Z ->
  (Z.of_nat (cnt + length chunks) <= total)%Z -> cnt + length chunks <= MAX_NODES_RESPONSES ->
  length (recv ++ concat chunks) < max_nodes_response (config (service w)) ->
  Handler.for_each (map (fun nodes => Rpc.mkResponse id (Rpc.Nodes total nodes)) chunks)
    (handle_rpc_response env addr) (waiting w partial) =
  Ret (waiting w (Some (mkNodes (cnt + length chunks) (recv ++ concat chunks))), ()).
Proof.
  revert partial cnt recv. induction chunks as [|c chunks IH]; intros partial cnt recv Hp Hne Hs Ht Hc Hmax Hm; [done|].
  apply Forall_cons in Hs as [Hs Hss]. rewrite map_cons. cbn [Handler.for_each concat length] in *. unfold mbind at 1, Handler.run_bind at 1.
  rewrite !length_app in Hm. rewrite receive_response, Hp by done. cbn [count received_nodes]. rewrite !decide_True by (simpl; lia).
  destruct chunks as [|c' chunks]; [by rewrite app_nil_r|].
  rewrite (IH _ (cnt + 1) (recv ++ c)); [|done|done|done|done|simpl in *; lia|simpl in *; lia|rewrite !length_app in *; simpl in *; lia].
  rewrite <-app_assoc. do 4 f_equal. simpl. f_equal. lia.
Qed.

(** All the responses but those already received. *)
Lemma receive_all (w : W) total chunks partial cnt recv :
  stdpp.option.default (mkNodes 1 []) partial = mkNodes cnt recv ->
  1 <= length chunks -> Forall (fun c => c <> []) (tail chunks) ->
  Forall (solicited (NodeInfo.node_id addr) distances) chunks ->
  total = Z.of_nat (cnt + length chunks - 1) -> 1 <= cnt -> (1 < total <= Z.of_nat MAX_NODES_RESPONSES)%Z ->
  length (recv ++ concat chunks) <= max_nodes_response (config (service w)) ->
  Handler.for_each (map (fun nodes => Rpc.mkResponse id (Rpc.Nodes total nodes)) chunks)
    (handle_rpc_response env addr) (waiting w partial) =
  discovered env (NodeInfo.node_id addr) (recv ++ concat chunks) (query_id ar) (settled w).
Proof.
  revert partial cnt recv. induction chunks as [|c chunks IH]; intros partial cnt recv Hp Hl Hne Hs -> Hc Ht Hm; [simpl in Hl; lia|].
  apply Forall_cons in Hs as [Hs Hss]. simpl in Hne. destruct chunks as [|c' chunks].
  - simpl. rewrite bind_unit, receive_response, Hp by done. simpl in *. rewrite decide_True, decide_False by lia.
    by rewrite app_nil_r.
  - rewrite map_cons. cbn [Handler.for_each]. unfold mbind at 1, Handler.run_bind at 1. rewrite receive_response, Hp by done.
    cbn [count received_nodes]. apply Forall_cons in Hne as [Hc' Hne]. simpl in Ht, Hm.
    rewrite !length_app in Hm. assert (0 < length c') by (destruct c'; [done|simpl; lia]).
    rewrite !decide_True by (simpl; lia). rewrite (IH _ (cnt + 1) (recv ++ c)); [|done|simpl; lia|done|done|simpl; lia..|].
    + by rewrite <-app_assoc.
    + simpl. rewrite !length_app. lia.
Qed.
End Exchange.
