(* ===== verification/ServiceSample.v ===== *)
(** * A concrete service

    The node with the key 1 at 127.0.0.1, over the sample instances of the
    libraries' interfaces, and an RLP encoder for its records; the clock and the
    request ids are given by the tick. *)

From stdpp Require Import strings.
From S2P Require Import Prelude Bytes Key Bucket Table FindNode QueryPool Rpc QueryInfo IpVote Packet PacketProofs NodeInfo Crypto CryptoSample.
From S2P Require Import Maps ActiveRequests Session Globals Config Handler HandlerSample Service ServiceNodes.
Import NodeInfo KBucket Config Service.

Module ServiceSample.

Export CryptoSample PacketSample.

(** Elements with the time they expire at, oldest first. *)
Record TimedSet := mkSet { duration : Z; elements : list (Z * NodeId) }.

#[export] Instance timed_set : HashSetDelay TimedSet NodeId := {|
  ds_max_timeout := from_secs (2 ^ 26);
  ds_new d := mkSet d [];
  ds_insert s now k := mkSet (duration s) (filter (fun e => e.2 <> k) (elements s) ++ [((now + duration s)%Z, k)]);
  ds_remove s k := mkSet (duration s) (filter (fun e => e.2 <> k) (elements s));
  ds_poll_next s now :=
    match elements s with
    | (t, k) :: l => if decide (t <= now)%Z then (mkSet (duration s) l, Ready (Some (Ok k))) else (s, Maps.Pending)
    | [] => (s, Ready None)
    end;
|}.

(** The record keeps its address. *)
#[export] Instance sample_enr_update : EnrUpdate (list byte) := fun e _ _ => Some e.

Definition sample_config : outcome (Config (list byte)) := built 0 (ListenConfig.Ipv4 [# x7f; x00; x00; x01] 9000) [].

Definition sample_env : Env (list byte) := {|
  debug_assertions := false;
  now n := Z.of_nat n;
  clocks n i := Z.of_nat (n + i);
  random_request_id n := [HandlerSample.byte_at n];
  handler_open _ := true;
  stream _ := StreamSent;
  query_order _ qs := (map_to_list qs).*1;
  vote_values _ := map_to_list;
  count4_order _ := map_to_list;
  count6_order _ := map_to_list;
|}.

Definition own_record : list byte := [x01; x05; x01].

Definition sample_service : outcome (Service (list byte) TimedSet) :=
  config ← sample_config;
  Service.new own_record (Secp256k1 x01)
    (Table.new (Key.from_node_id (enr_node_id own_record)) 60 MAX_NODES_PER_BUCKET None None) config.

(** ** RLP *)

(** A string of less than 64 kilobytes. *)
Definition put_string (b : list byte) : list byte :=
  match b with
  | [x] => if decide (byte_to_Z x < 128)%Z then b else byte_of_Z 129 :: b
  | _ =>
      if decide (length b <= 55) then byte_of_Z (128 + Z.of_nat (length b)) :: b
      else if decide (length b < 256) then byte_of_Z 184 :: byte_of_Z (Z.of_nat (length b)) :: b
      else byte_of_Z 185 :: to_be_bytes 2 (Z.of_nat (length b)) ++ b
  end.

Definition put_list (b : list byte) : list byte :=
  if decide (length b <= 55) then byte_of_Z (192 + Z.of_nat (length b)) :: b
  else if decide (length b < 256) then byte_of_Z 248 :: byte_of_Z (Z.of_nat (length b)) :: b
  else byte_of_Z 249 :: to_be_bytes 2 (Z.of_nat (length b)) ++ b.

(** An integer without leading zeros. *)
Definition put_uint (n : Z) : list byte :=
  put_string (if decide (n = 0)%Z then [] else to_be_bytes (Z.to_nat (Z.log2 n / 8 + 1)) n).

Fixpoint rlp (i : rlp_item (list byte)) : list byte :=
  match i with
  | IBytes b => put_string b
  | IUint n => put_uint n
  | IEnr e => Packet.enr_encode e
  | IList l => put_list ((fix go l := match l with [] => [] | i :: l => rlp i ++ go l end) l)
  end.

(** The encoder alone: nothing is read back. *)
#[export] Instance rlp_encoder : Rlp (list byte) := {|
  rlp_out := rlp;
  item_count _ := Err RlpInvalidIndirection;
  payload_info _ := Err RlpInvalidIndirection;
  val_at_bytes _ _ := Err RlpInvalidIndirection;
  val_at_u64 _ _ := Err RlpInvalidIndirection;
  val_at_u16 _ _ := Err RlpInvalidIndirection;
  list_at_u64 _ _ := Err RlpInvalidIndirection;
  rlp_at _ _ := Err RlpInvalidIndirection;
  rlp_is_empty _ := true;
  as_list_enr _ := Err RlpInvalidIndirection;
|}.

Lemma put_list_size b : length (put_list b) <= 3 + length b.
Proof. unfold put_list. repeat case_decide; simpl; lia. Qed.

Lemma rlp_items l :
  length ((fix go l := match l with [] => [] | i :: l => rlp i ++ go l end) l) = sum_list_with (fun i => length (rlp i)) l.
Proof. induction l as [|i l IH]; simpl; [done|]. by rewrite length_app, IH. Qed.

#[export] Instance rlp_encoder_size : RlpSize (list byte).
Proof.
  split.
  - intros b Hb. simpl. unfold put_string. destruct b as [|x [|y b]]; [done| |].
    + case_decide; simpl; lia.
    + rewrite decide_True by done. simpl. lia.
  - intros n Hn. cbn [rlp_out rlp_encoder rlp]. unfold put_uint. case_decide as H0; [done|].
    rewrite (Z.div_small (Z.log2 n) 8); [|split; [apply Z.log2_nonneg|apply Z.log2_lt_pow2; lia]].
    change (Z.to_nat (0 + 1)) with 1. unfold to_be_bytes. simpl. unfold put_string.
    case_decide as H1; [simpl; lia|]. destruct H1. rewrite byte_to_of_Z. rewrite Z.mod_small; lia.
  - done.
  - intros l _. cbn [rlp_out rlp_encoder rlp]. rewrite <-rlp_items. apply put_list_size.
Qed.
End ServiceSample.
