(* ===== verification/NodesExchange.v ===== *)
(** * The properties of NODES responses

    What the responses a service sends are worth to the service that receives
    them: their packets are not too large, they add up to the records sent, and
    the two cases where records are lost. *)

From S2P Require Import Prelude Bytes Key Bucket Table TableProofs FindNode QueryPool Rpc QueryInfo Packet NodeInfo Crypto.
From S2P Require Import Maps ActiveRequests Session Globals Config Handler Service ServiceNodes ServiceSample.
Import NodeInfo Config Service ServiceSample.

(** C14: Bounds.  Whatever records a service answers a FINDNODE with (fewer than
    127, none of them as large as a whole response may be), the packet of every
    NODES response it builds, encrypted with a session and encoded, is not
    larger than a packet may be: the 104 bytes set aside are enough. *)
Theorem nodes_packets_fit {Enr : Type} `{!K256} `{!EnrCrate Enr} `{!Packet.EnrCodec Enr} `{!Rlp Enr} `{!RlpSize Enr}
    `{!Primitives} `{!PrimitiveLaws} `{!Packet.ProtocolIdentity} `{!Packet.Aes128Ctr}
    (id : Rpc.RequestId) (nodes : list Enr) responses r debug session nonce iv src session' packet dst :
  length id <= 8 -> length nodes < 127 ->
  Forall (fun e => length (Packet.enr_encode e) < Packet.MAX_PACKET_SIZE - 104) nodes ->
  nodes_responses id nodes = Ret responses -> r ∈ responses ->
  Session.encrypt_message debug session nonce iv src (Rpc.response_encode r) = Ret (session', Ok packet) ->
  length (Packet.encode packet dst) <= Packet.MAX_PACKET_SIZE.
Proof.
  intros Hid Hn Hr E Hin Henc. destruct (nodes_responses_ok id nodes) as (chunks & E' & Hcat & Hf & Hl & Hne).
  rewrite E in E'. injection E' as ->. unfold responses_of in Hin.
  apply list_elem_of_In, in_map_iff in Hin as (c & <- & Hc%list_elem_of_In).
  pose proof (chunk_count chunks Hne) as Hcount. rewrite Hcat in Hcount.
  assert (records_size c < Packet.MAX_PACKET_SIZE - 104) as Hs by by eapply chunk_small.
  rewrite (message_packet_size _ _ _ _ _ _ _ _ dst Henc).
  pose proof (nodes_encode_size id (Z.of_nat (length chunks)) c Hid ltac:(lia) Hs) as Hsize.
  unfold Packet.MAX_PACKET_SIZE in *. lia.
Qed.

(** Two records of which a response holds one. *)
Definition padded (k : byte) : list byte := [k; x05; k] ++ replicate 600 x00.
Definition two_records : list (list byte) := [padded x03; padded x07].

Lemma nodes_packets_fit_witness :
  exists packet responses, nodes_responses [x09] two_records = Ret responses /\ length responses = 2 /\
    length (Packet.encode packet (vreplicate 32 x02)) <= Packet.MAX_PACKET_SIZE.
Proof.
  destruct (nodes_responses [x09] two_records) as [responses|] eqn:E; [|vm_compute in E; discriminate].
  set (r := Rpc.mkResponse [x09] (Rpc.Nodes 2 [padded x07])).
  set (session := Session.mkSession (Session.mkKeys (vreplicate 16 x01) (vreplicate 16 x02)) None None 0).
  destruct (Session.encrypt_message true session (vreplicate 8 x00) 5 (vreplicate 32 x01) (Rpc.response_encode r))
    as [[session' [packet|e]]|] eqn:Ep; [|vm_compute in Ep; discriminate..].
  exists packet, responses. assert (responses = [Rpc.mkResponse [x09] (Rpc.Nodes 2 [padded x03]); r]) as Hr
    by (vm_compute in E; injection E as <-; reflexivity).
  split; [reflexivity|]. split; [by rewrite Hr|].
  apply (nodes_packets_fit [x09] two_records responses r true session (vreplicate 8 x00) 5 (vreplicate 32 x01) session' packet);
    [simpl; lia|simpl; lia| |exact E| |exact Ep].
  - repeat constructor; vm_compute; lia.
  - rewrite Hr. right. by left.
Defined.

Section Exchange.
Context {Enr PS : Type} `{!EqDecision Enr} `{!K256} `{!EnrCrate Enr} `{!Packet.EnrCodec Enr} `{!EnrUpdate Enr}.
Context `{!HashSetDelay PS NodeId}.

(** A world with a request and without a response to it is [waiting]. *)
Lemma waiting_start (w : World Enr PS) id ar :
  active_requests (service w) !! id = Some ar -> active_nodes_responses (service w) !! id = None ->
  waiting id ar w None = w.
Proof.
  intros Ha Hn. destruct w as [s o t p]. destruct s. unfold waiting. simpl in *. rewrite insert_id by done.
  change (partial_alter (fun _ => None) id ?m) with (delete id m). by rewrite delete_id.
Qed.
End Exchange.

(** A service that sends records splits them over NODES
    responses; a service that asked for them (for a query, or for an update)
    and gets these responses, in order, does exactly what it would do with all
    the records at once, and is left without the request: nothing is lost and
    nothing is handled twice.  The records are at requested distances, are not
    more than the receiver takes, and come in at most 15 responses. *)
Theorem nodes_exchange {Enr PS : Type} `{!EqDecision Enr} `{!K256} `{!EnrCrate Enr} `{!Packet.EnrCodec Enr} `{!EnrUpdate Enr}
    `{!HashSetDelay PS NodeId} (env : Env Enr) (w : World Enr PS) addr id ar distances nodes responses :
  active_requests (service w) !! id = Some ar -> active_nodes_responses (service w) !! id = None ->
  NodeInfo.node_address (contact ar) = addr -> request_body ar = Rpc.FindNode distances -> callback ar = None ->
  solicited (NodeInfo.node_id addr) distances nodes -> length nodes <= max_nodes_response (config (service w)) ->
  nodes_responses id nodes = Ret responses -> length responses <= MAX_NODES_RESPONSES ->
  Handler.for_each responses (handle_rpc_response env addr) w =
  discovered env (NodeInfo.node_id addr) nodes (query_id ar) (settled id w).
Proof.
  intros Ha Hn Haddr Hbody Hcb Hs Hmax E Hlen. destruct (nodes_responses_ok id nodes) as (chunks & E' & Hcat & _ & Hl & Hne).
  rewrite E in E'. injection E' as ->. unfold responses_of in *. rewrite length_map in Hlen. subst nodes.
  assert (Forall (solicited (NodeInfo.node_id addr) distances) chunks) as Hss
    by (apply Forall_forall; intros c Hc; by eapply solicited_part).
  rewrite <-(waiting_start w id ar Ha Hn) at 1. destruct chunks as [|c [|c' chunks]]; [simpl in Hl; lia| |].
  - simpl. rewrite bind_unit, (receive_response _ _ _ _ distances) by (done || by apply Forall_cons in Hss as [? _]).
    by rewrite app_nil_r.
  - rewrite (receive_all _ _ _ _ distances) with (cnt := 1) (recv := []); try done; simpl in *; lia.
Qed.

(** A service that asked the node with the key 2 for two distances. *)
Definition peer_contact : NodeContact (list byte) :=
  mkContact (PubSecp256k1 x02) (SockV4 (mkSocketAddrV4 [# x7f; x00; x00; x02] 9000)) None.

Definition peer_request (c : option CallbackResponse) : ActiveRequest (list byte) :=
  mkActive peer_contact (Rpc.FindNode [249; 251]%Z) None c.

Definition asking (c : option CallbackResponse) (s : Service (list byte) TimedSet) : World (list byte) TimedSet :=
  initial (with_active {[ [x09] := peer_request c ]} s).

Lemma sample_fresh :
  exists s, sample_service = Ret s /\ max_nodes_response (config s) = 16 /\ active_nodes_responses s = ∅.
Proof.
  assert ((fun s => max_nodes_response (config s)) <$> sample_service = Ret 16) as Hm by (vm_compute; reflexivity).
  assert ((fun s => map_to_list (active_nodes_responses s)) <$> sample_service = Ret []) as Hn by (vm_compute; reflexivity).
  destruct sample_service as [s|]; [|discriminate]. injection Hm as Hm. injection Hn as Hn.
  exists s. split; [done|]. split; [done|]. by apply map_to_list_empty_iff.
Qed.

Lemma two_responses : exists responses, nodes_responses [x09] two_records = Ret responses /\ length responses = 2.
Proof.
  assert (length <$> nodes_responses [x09] two_records = Ret 2) as Hl by (vm_compute; reflexivity).
  destruct (nodes_responses [x09] two_records) as [responses|]; [|discriminate].
  injection Hl as Hl. by exists responses.
Qed.

Lemma two_solicited : solicited (NodeInfo.node_id (NodeInfo.node_address peer_contact)) [249; 251]%Z two_records.
Proof.
  unfold solicited. rewrite decide_False by done. constructor; [|constructor; [|constructor]].
  - exists 249%Z. split; [vm_compute; reflexivity|left].
  - exists 251%Z. split; [vm_compute; reflexivity|right; left].
Qed.

(** Responses without a request change nothing. *)
Lemma responses_ignored {Enr PS : Type} `{!EqDecision Enr} `{!K256} `{!EnrCrate Enr} `{!Packet.EnrCodec Enr} `{!EnrUpdate Enr}
    `{!HashSetDelay PS NodeId} (env : Env Enr) (w : World Enr PS) addr id (l : list (Rpc.Response Enr)) :
  active_requests (service w) !! id = None -> Forall (fun r => Rpc.resp_id r = id) l ->
  Handler.for_each l (handle_rpc_response env addr) w = Ret (w, ()).
Proof.
  intros Ha Hl. induction Hl as [|r l Hr _ IH]; [done|]. simpl. unfold mbind, Handler.run_bind.
  unfold handle_rpc_response at 1. unfold mbind, Handler.run_bind. simpl. by rewrite Hr, Ha.
Qed.

(** Error.  A FINDNODE request of the user (one with a callback) is answered
    with the records of the first NODES response alone: when the peer splits its
    answer, the request is gone after the first response and the records of the
    others are dropped. *)
Theorem designated_first_response {Enr PS : Type} `{!EqDecision Enr} `{!K256} `{!EnrCrate Enr} `{!Packet.EnrCodec Enr}
    `{!EnrUpdate Enr} `{!HashSetDelay PS NodeId} (env : Env Enr) (w : World Enr PS) addr id ar distances c nodes responses :
  active_requests (service w) !! id = Some ar -> NodeInfo.node_address (contact ar) = addr ->
  request_body ar = Rpc.FindNode distances -> callback ar = Some (CbNodes c) -> nodes_responses id nodes = Ret responses ->
  exists first rest, responses = responses_of id (first :: rest) /\ nodes = first ++ concat rest /\
    Handler.for_each responses (handle_rpc_response env addr) w =
    Ret (mkWorld (with_active (delete id (active_requests (service w))) (service w))
           (Answered c (AnsNodes (Ok first)) :: out w) (ticks w) (Service.permit_ban_list w), ()).
Proof.
  intros Ha Haddr Hbody Hcb E. destruct (nodes_responses_ok id nodes) as (chunks & E' & Hcat & _ & Hl & _).
  rewrite E in E'. injection E' as ->. destruct chunks as [|first rest]; [simpl in Hl; lia|].
  exists first, rest. split; [done|]. split; [by rewrite <-Hcat|]. unfold responses_of. rewrite map_cons.
  cbn [Handler.for_each]. unfold mbind at 1, Handler.run_bind at 1.
  assert (handle_rpc_response env addr (Rpc.mkResponse id (Rpc.Nodes (Z.of_nat (length (first :: rest))) first)) w =
    Ret (mkWorld (with_active (delete id (active_requests (service w))) (service w))
           (Answered c (AnsNodes (Ok first)) :: out w) (ticks w) (Service.permit_ban_list w), ())) as ->.
  { unfold handle_rpc_response, mbind, Handler.run_bind. simpl. rewrite Ha, decide_False by auto. unfold Rpc.match_request.
    simpl. rewrite Hbody. simpl. unfold handle_nodes, mbind, Handler.run_bind. rewrite Hbody, Hcb. done. }
  apply (responses_ignored _ _ _ id); [apply lookup_delete_eq|]. apply Forall_forall. intros r Hr.
  apply list_elem_of_In, in_map_iff in Hr as (? & <- & _). done.
Qed.

Lemma designated_first_response_witness :
  match sample_service with
  | Ret s => exists responses first rest, nodes_responses [x09] two_records = Ret responses /\
      responses = responses_of [x09] (first :: rest) /\ two_records = first ++ concat rest /\ length responses = 2
  | Panic => False
  end.
Proof.
  destruct sample_fresh as (s & -> & _). destruct two_responses as (responses & E & Hl).
  destruct (designated_first_response sample_env (asking (Some (CbNodes 4)) s) (NodeInfo.node_address peer_contact) [x09]
    (peer_request (Some (CbNodes 4))) [249; 251]%Z 4 two_records responses) as (first & rest & Hr & Hn & _).
  - apply lookup_singleton_eq.
  - reflexivity.
  - reflexivity.
  - reflexivity.
  - exact E.
  - exists responses, first, rest. split; [exact E|]. split; [exact Hr|]. split; [exact Hn|exact Hl].
Defined.

(** A query may ask for the distance 0 together with others: for a
    peer at distance 1 of the target it asks for the distances 1, 2 and 0.  A
    peer that answers, as asked, with its own record is banned and its record is
    dropped, since a record of the peer itself has no log2 distance. *)
Theorem own_record_banned {Enr : Type} `{!K256} `{!EnrCrate Enr} (info : QueryInfo.QueryInfo Enr) (target peer : NodeId) (enr : Enr) :
  QueryInfo.query_type info = QueryInfo.FindNode target ->
  QueryInfo.distances_to_request info = DISTANCES_TO_REQUEST_PER_PEER ->
  Key.log2_distance (Key.from_node_id peer) (Key.from_node_id target) = Some 1%Z -> enr_node_id enr = peer ->
  QueryInfo.rpc_request info peer = Ret (Rpc.FindNode [1; 2; 0]%Z) /\
  check_distances peer [1; 2; 0]%Z [enr] = ([], true).
Proof.
  intros Hq Hd Hdist He. split.
  - unfold QueryInfo.rpc_request, QueryInfo.findnode_log2distance. rewrite Hq, Hd, Hdist. done.
  - unfold check_distances. rewrite decide_False by done. rewrite filter_cons_False; [done|].
    assert (Key.log2_distance (Key.from_node_id peer) (Key.from_node_id (enr_node_id enr)) = None) as ->; [|auto].
    rewrite He. apply Key.log2_distance_self.
Qed.

(** The node with the key 2 and an id next to it. *)
Definition next_id : NodeId := vreplicate 31 x02 +++ [# x03].
Definition next_info : QueryInfo.QueryInfo (list byte) :=
  QueryInfo.mkInfo (QueryInfo.FindNode next_id) [] 0 DISTANCES_TO_REQUEST_PER_PEER.

Lemma own_record_banned_witness :
  QueryInfo.rpc_request next_info (vreplicate 32 x02) = Ret (Rpc.FindNode [1; 2; 0]%Z) /\
  check_distances (vreplicate 32 x02) [1; 2; 0]%Z [[x02; x05; x02]] = ([], true).
Proof.
  apply (own_record_banned next_info next_id (vreplicate 32 x02) [x02; x05; x02]);
    [reflexivity|reflexivity|vm_compute; reflexivity|reflexivity].
Defined.

(** ** A request that nothing is heard of

    No turn of the service touches a request it is not told anything about. *)

Section Kept.
Context {Enr PS : Type} `{!EqDecision Enr} `{!K256} `{!EnrCrate Enr} `{!Packet.EnrCodec Enr} `{!EnrUpdate Enr}.
Context `{!HashSetDelay PS NodeId}.
Variables (env : Env Enr) (id : Rpc.RequestId) (ar : ActiveRequest Enr) (partial : option (NodesResponse Enr)).
Hypothesis fresh : forall n, random_request_id env n <> id.
Notation W := (World Enr PS).
Notation M := (Handler.Run W).
Implicit Types (w : W).

(** The request is active, with the records received so far. *)
Definition stored w : Prop :=
  active_requests (service w) !! id = Some ar /\ active_nodes_responses (service w) !! id = partial.

Definition spares {A} (m : M A) : Prop := forall w w' a, m w = Ret (w', a) -> stored w -> stored w'.

(** What the service is told does not concern the request. *)
Definition unrelated (e : SEvent Enr) : Prop :=
  match e with
  | EvHandler (Handler.OutResponse _ r) => Rpc.resp_id r <> id
  | EvHandler (Handler.OutRequestFailed id' _) => id' <> id
  | _ => True
  end.

Lemma spares_bind {A B} (m : M A) (k : A -> M B) : spares m -> (forall a, spares (k a)) -> spares (m ≫= k).
Proof.
  intros Hm Hk w w' b. unfold mbind, Handler.run_bind. destruct (m w) as [[w1 a]|] eqn:E; [|done]. intros E2 Hs.
  eapply Hk; [done|]. by eapply Hm.
Qed.
Lemma spares_ret {A} (a : A) : spares (Handler.run_ret a).
Proof. by intros w w' a' [= <- <-]. Qed.
Lemma spares_lift {A} (o : outcome A) : spares (lift o).
Proof. intros w w' a. unfold lift. destruct o; [|done]. by intros [= <- <-]. Qed.
Lemma spares_take {A} (v : nat -> A) : spares (take v).
Proof. by intros w w' a [= <- <-]. Qed.
Lemma spares_self : spares self.
Proof. by intros w w' a [= <- <-]. Qed.
Lemma spares_bans g : spares (update_bans g).
Proof. by intros w w' a [= <- <-]. Qed.
Lemma spares_log o : spares (log o).
Proof. by intros w w' a [= <- <-]. Qed.
Lemma spares_for_each {A} (l : list A) (m : A -> M unit) : (forall a, spares (m a)) -> spares (Handler.for_each l m).
Proof. intros Hm. induction l as [|a l IH]; simpl; [apply spares_ret|]. by apply spares_bind. Qed.
Lemma spares_modify g :
  (forall s, active_requests (g s) !! id = active_requests s !! id /\ active_nodes_responses (g s) !! id = active_nodes_responses s !! id) ->
  spares (modify g).
Proof. intros Hg w w' a [= <- <-]. unfold stored. simpl. destruct (Hg (service w)) as [-> ->]. done. Qed.
Hint Resolve spares_ret spares_lift spares_take spares_self spares_bans spares_log spares_for_each : spares.
Hint Extern 1 (spares (modify _)) =>
  (apply spares_modify; intros; simpl; rewrite ?lookup_insert_ne, ?lookup_delete_ne by done; done) : spares.

Ltac spare :=
  repeat (intros; first
    [ solve [eauto 2 with spares] | lazymatch goal with |- spares (mbind _ _) => apply spares_bind end
    | lazymatch goal with |- spares (Handler.for_each _ _) => apply spares_for_each end | case_match
    | match goal with |- spares ?m => unfold_head m end ]).

Lemma spares_insert_active id' a : id' <> id -> spares (insert_active id' a).
Proof. intros Hne. unfold insert_active. spare. Qed.

Lemma spares_send_rpc_request a : spares (send_rpc_request env a).
Proof.
  intros w w' u E. unfold send_rpc_request in E. unfold mbind at 1, Handler.run_bind at 1 in E. cbn [take] in E.
  match type of E with ?m ?w1 = _ => assert (spares m) as Hm; [|intros Hs; by apply (Hm _ _ _ E)] end.
  apply spares_bind; [spare|]. intros ok. destruct ok; [by apply spares_insert_active|spare].
Qed.
Hint Resolve spares_send_rpc_request : spares.

Lemma spares_retain_all source local_id enrs : spares (retain_all env source local_id enrs).
Proof. induction enrs; cbn [retain_all]; spare. Qed.
Hint Resolve spares_retain_all : spares.
Lemma spares_found_enrs peers untrusted : spares (found_enrs env peers untrusted).
Proof. revert untrusted. induction peers; intros untrusted; cbn [found_enrs]; spare. Qed.
Hint Resolve spares_found_enrs : spares.
Lemma spares_connection_updated node_id st : spares (connection_updated env node_id st).
Proof. spare. Qed.
Lemma spares_discovered source enrs i : spares (discovered env source enrs i).
Proof. spare. Qed.
Hint Resolve spares_connection_updated spares_discovered : spares.

(** Reads and then writes of the responses of another request. *)
Lemma spares_self_with {A} (k : Service Enr PS -> M A) :
  (forall s w w' a, service w = s -> k s w = Ret (w', a) -> stored w -> stored w') -> spares (self ≫= k).
Proof. intros Hk w w' a E. unfold mbind, Handler.run_bind in E. cbn [self] in E. by eapply Hk. Qed.

Lemma spares_forget id' {A} (k : unit -> M A) w w' a :
  id' <> id -> (forall u, spares (k u)) ->
  (modify (with_nodes_responses (delete id' (active_nodes_responses (service w)))) ≫= k) w = Ret (w', a) -> stored w -> stored w'.
Proof.
  intros Hne Hk E [H1 H2]. unfold mbind, Handler.run_bind in E. cbn [modify] in E. eapply Hk; [exact E|].
  split; [done|]. simpl. by rewrite lookup_delete_ne.
Qed.

Lemma spares_handle_nodes addr id' a total nodes : id' <> id -> spares (handle_nodes env addr id' a total nodes).
Proof.
  intros Hne. unfold handle_nodes. apply spares_bind; [spare|]. intros distances.
  assert (forall other, spares (drop_callback other)) as Hdrop by (intros other; spare).
  assert (spares (ban_address env addr)) as Hban by spare.
  destruct (callback a) as [[]|]; try (by apply spares_log); (apply spares_bind; [done|]); intros _;
    destruct (check_distances _ _ _) as [kept invalid]; (apply spares_bind; [destruct invalid; spare|]); intros _;
    apply spares_self_with; intros s w w' x <-;
    (destruct (decide _); [|by apply spares_forget; [|intros _; apply spares_discovered]]);
    apply spares_forget; try done; intros _; (destruct (decide _); [|apply spares_discovered]);
    (apply spares_bind; [spare|]); intros _; by apply spares_insert_active.
Qed.

Lemma spares_handle_pong addr a seq ip port : spares (handle_pong env addr a seq ip port).
Proof. spare. Qed.
Lemma spares_handle_talk a r : spares (handle_talk a r).
Proof. spare. Qed.

Lemma spares_handle_rpc_response addr r : Rpc.resp_id r <> id -> spares (handle_rpc_response env addr r).
Proof.
  intros Hne. unfold handle_rpc_response. apply spares_bind; [spare|]. intros s. destruct (_ !! _) as [a|]; [|spare].
  apply spares_bind; [spare|]. intros _. destruct (decide _); [spare|]. destruct (negb _); [spare|].
  destruct (Rpc.resp_body r); [apply spares_handle_pong|by apply spares_handle_nodes|apply spares_handle_talk].
Qed.

Lemma spares_rpc_failure id' e : id' <> id -> spares (rpc_failure env id' e).
Proof.
  intros Hne. unfold rpc_failure. apply spares_bind; [spare|]. intros s. destruct (_ !! _) as [a|]; [|spare].
  apply spares_bind; [spare|]. intros _. destruct (callback a); [spare|]. apply spares_bind; [|spare].
  destruct (request_body a); [spare| |spare]. apply spares_self_with. intros s' w w' x <-.
  destruct (_ !! _) as [nr|]; [|match goal with |- ?m _ = _ -> _ => assert (spares m) as Hm by spare; apply Hm end].
  apply spares_forget; [done|]. intros _. destruct (received_nodes nr); spare.
Qed.

Lemma spares_step e : unrelated e -> spares (step env e).
Proof.
  intros He. destruct e as [r|o| | | | |]; [spare| |spare..].
  destruct o; [spare|spare|by apply spares_handle_rpc_response|spare|by apply spares_rpc_failure].
Qed.

Lemma spares_start evs : Forall unrelated evs -> spares (start env evs).
Proof.
  unfold start. induction 1 as [|e evs He _ IH]; cbn [Handler.for_each]; [apply spares_ret|].
  apply spares_bind; [by apply spares_step|]. by intros [].
Qed.
End Kept.
