(* ===== verification/NodesHandover.v ===== *)
(** * NODES responses from one service to another

    The handler in between: it hands every response of a request on to its
    service and forgets the request with the last one, at the same time as the
    service does.  When a peer changes the total it announced, the two disagree. *)

From stdpp Require Import strings.
From S2P Require Import Prelude Bytes Key Bucket Table TableProofs FindNode QueryPool Rpc QueryInfo Maps LruTimeCache.
From S2P Require Import Packet PacketProofs NodeInfo Crypto ActiveRequests Session Globals Config Handler HandlerSample.
From S2P Require Import Service ServiceNodes ServiceSample NodesExchange.
Import NodeInfo RequestCall ActiveRequests Handler.


Section Handover.
Context {Enr D C SM OM : Type} `{!K256} `{!EnrCrate Enr} `{!Primitives} `{!Packet.EnrCodec Enr} `{!Packet.ProtocolIdentity}.
Context `{!Rlp Enr} `{!HashMapDelay D Packet.MessageNonce NodeAddress} `{!HashMapDelay C NodeAddress (Challenge Enr)}.
Context `{!LinkedHashMap SM NodeAddress (Session.Session * Z)}.
Context `{!LinkedHashMap OM NodeAddress ((Rpc.RequestId * Session.Session) * Z)}.
Variable env : Env Enr.
Notation W := (World Enr D C SM OM).
Implicit Types (w : W) (addr : NodeAddress) (id : Rpc.RequestId) (rest : list (RequestCall Enr)).

(** The calls to [addr] in flight, and what the service was told (last first). *)
Definition calls_to w addr : list (RequestCall Enr) :=
  default [] (active_requests_mapping (active_requests (handler w)) !! addr).
Definition told w : list (HandlerOut Enr) :=
  omap (fun s => match s with ToService o true => Some o | _ => None end) (sent w).

Definition has_id id (c : RequestCall Enr) : Prop := to_request_id (request_id c) = id.

(** One call with the identifier [id] is in flight, besides [rest]. *)
Definition in_flight w addr id (remaining : option Z) rest : Prop :=
  exists l1 c l2, calls_to w addr = l1 ++ c :: l2 /\ l1 ++ l2 = rest /\ has_id id c /\ remaining_responses c = remaining.

Definition call_states (l : list (RequestCall Enr)) : list (Rpc.RequestId * option Z) :=
  map (fun c => (to_request_id (request_id c), remaining_responses c)) l.

Lemma in_flight_alone w addr id remaining :
  call_states (calls_to w addr) = [(id, remaining)] -> in_flight w addr id remaining [].
Proof.
  destruct (calls_to w addr) as [|c [|? ?]] eqn:Ec; [discriminate| |discriminate].
  intros [= Hid Hr]. by exists [], c, [].
Qed.

Lemma position_id_middle id l1 c l2 :
  has_id id c -> Forall (fun c => ~ has_id id c) l1 -> position_id id (l1 ++ c :: l2) = Some (length l1).
Proof.
  intros Hc Hl. unfold position_id. rewrite list_find_app_r by (by apply list_find_None).
  simpl. by rewrite decide_True by done.
Qed.

Lemma remove_in_flight w addr id remaining rest :
  in_flight w addr id remaining rest -> Forall (fun c => ~ has_id id c) rest ->
  exists c a, remove_request (active_requests (handler w)) addr id = (a, Some c) /\
    default [] (active_requests_mapping a !! addr) = rest /\ has_id id c /\ remaining_responses c = remaining.
Proof.
  intros (l1 & c & l2 & Hl & Hrest & Hc & Hr) Hno. unfold calls_to in Hl. unfold remove_request.
  destruct (_ !! addr) as [l|] eqn:El; [|by destruct l1]. simpl in Hl. subst l.
  rewrite position_id_middle, list_lookup_middle; [|done|done|subst rest; by apply Forall_app in Hno as [? _]].
  eexists c, _. split; [done|]. split_and!; [|done..]. simpl. rewrite delete_middle, Hrest. unfold put_requests.
  case_decide as He; [by rewrite lookup_delete_eq, He|by rewrite lookup_insert_eq].
Qed.

(** The service listens. *)
Hypothesis listens : forall n, channel_open env n = true.

Lemma told_log w o h n t m p : told (mkWorld h (ToService o (channel_open env n) :: sent w) t m p) = o :: told w.
Proof. unfold told. simpl. by rewrite listens. Qed.

(** The two ways to go on with a response. *)
Lemma finish_spec w addr response :
  exists w', (_ ← remove_expected_response (socket_addr addr); _ ← service_send env (OutResponse addr response); run_ret ()) w =
      Ret (w', ()) /\ told w' = OutResponse addr response :: told w /\ calls_to w' addr = calls_to w addr.
Proof. eexists. split; [done|]. split; [apply (told_log w)|done]. Qed.

Lemma add_back_spec w addr response c id remaining :
  has_id id c ->
  exists w', (_ ← active_insert env addr (set_remaining_responses c remaining);
              _ ← service_send env (OutResponse addr response); run_ret ()) w = Ret (w', ()) /\
    told w' = OutResponse addr response :: told w /\ in_flight w' addr id remaining (calls_to w addr).
Proof.
  intros Hc. eexists. split; [done|]. split; [apply (told_log w)|]. exists (calls_to w addr), (set_remaining_responses c remaining), [].
  split; [|by rewrite app_nil_r]. unfold calls_to. simpl. by rewrite lookup_insert_eq.
Qed.

(** What one response does. *)
Lemma hand_on w addr id remaining rest total nodes :
  in_flight w addr id remaining rest -> Forall (fun c => ~ has_id id c) rest ->
  (1 <= total)%Z -> (forall r, remaining = Some r -> 1 <= r < 2 ^ 64)%Z ->
  let response := Rpc.mkResponse id (Rpc.Nodes total nodes) in
  exists w', handle_response env addr response w = Ret (w', ()) /\ told w' = OutResponse addr response :: told w /\
    let left := default (total - 1)%Z ((fun r => r - 1)%Z <$> remaining) in
    if decide (total = 1 \/ left = 0)%Z then calls_to w' addr = rest else in_flight w' addr id (Some left) rest.
Proof.
  intros Hin Hno Ht Hrem response. destruct (remove_in_flight w addr id remaining rest Hin Hno) as (c & a & E & <- & Hc & Hr).
  set (w1 := mkWorld (with_active a (handler w)) (sent w) (ticks w) (metric_active_sessions w) (permit_ban_list w)).
  change (default [] (active_requests_mapping a !! addr)) with (calls_to w1 addr). change (told w) with (told w1).
  unfold handle_response. unfold mbind, run_bind at 1. cbn [Handler.self]. change (Rpc.resp_id response) with id.
  rewrite E. cbn beta iota. unfold run_bind at 1. cbn [Handler.modify Rpc.resp_body response]. fold w1. rewrite Hr.
  destruct (finish_spec w1 addr response) as (wf & Ef & Tf & Cf).
  destruct (decide (1 < total)%Z) as [H1t|H1t].
  2: { exists wf. split_and!; [exact Ef|done|]. rewrite decide_True by (left; lia). done. }
  destruct remaining as [r|]; cbn [fmap option_fmap option_map default].
  - specialize (Hrem r eq_refl). unfold lift, run_bind at 1. rewrite arith_ok by lia.
    destruct (decide (r - 1 = 0)%Z) as [Hz|Hz].
    + rewrite decide_False by lia. exists wf. split_and!; [exact Ef|done|]. rewrite decide_True by (simpl; auto). done.
    + rewrite decide_True by done. destruct (add_back_spec w1 addr response c id (Some (r - 1)%Z) Hc) as (w' & E' & T' & F').
      exists w'. split_and!; [exact E'|done|]. rewrite decide_False by (simpl; lia). done.
  - destruct (add_back_spec w1 addr response c id (Some (total - 1)%Z) Hc) as (w' & E' & T' & F').
    exists w'. split_and!; [exact E'|done|]. rewrite decide_False by (simpl; lia). done.
Qed.


(** The handler hands [l] on, and forgets the request with the last of them. *)
Definition handed_over w addr id rest (l : list (Rpc.Response Enr)) : Prop :=
  (forall k, k < length l -> exists wk remaining,
     for_each (firstn k l) (handle_response env addr) w = Ret (wk, ()) /\ in_flight wk addr id remaining rest) /\
  exists w', for_each l (handle_response env addr) w = Ret (w', ()) /\ calls_to w' addr = rest /\
    told w' = rev (map (OutResponse addr) l) ++ told w.

Lemma handed_cons w w' addr id remaining rest r l :
  in_flight w addr id remaining rest -> handle_response env addr r w = Ret (w', ()) -> told w' = OutResponse addr r :: told w ->
  (if decide (l = []) then calls_to w' addr = rest else handed_over w' addr id rest l) ->
  handed_over w addr id rest (r :: l).
Proof.
  intros Hin E Ht Hl. assert (forall l', for_each (r :: l') (handle_response env addr) w = for_each l' (handle_response env addr) w') as Hstep
    by (intros l'; simpl; unfold mbind, run_bind; by rewrite E).
  case_decide as He.
  - subst l. split.
    + intros [|k] Hk; [by eexists w, remaining|simpl in Hk; lia].
    + exists w'. rewrite Hstep. by split_and!.
  - destruct Hl as [Hpre (w2 & E2 & Hc2 & Ht2)]. split.
    + intros [|k] Hk; [by eexists w, remaining|]. simpl in Hk. change (firstn (S k) (r :: l)) with (r :: firstn k l).
      rewrite Hstep. apply Hpre. lia.
    + exists w2. rewrite Hstep. split_and!; [done|done|]. rewrite Ht2, Ht. simpl. by rewrite <-app_assoc.
Qed.

Lemma hand_rest w addr id rest total chunks :
  in_flight w addr id (Some (Z.of_nat (length chunks))) rest -> Forall (fun c => ~ has_id id c) rest ->
  (1 < total)%Z -> chunks <> [] -> (Z.of_nat (length chunks) < 2 ^ 64)%Z ->
  handed_over w addr id rest (map (fun nodes => Rpc.mkResponse id (Rpc.Nodes total nodes)) chunks).
Proof.
  revert w. induction chunks as [|c chunks IH]; intros w Hin Hno Ht Hne Hb; [done|]. simpl map.
  destruct (hand_on w addr id _ rest total c Hin Hno ltac:(lia) ltac:(intros r [= <-]; simpl in *; lia)) as (w' & E & Htold & Hw').
  eapply handed_cons; [done|exact E|done|]. cbn [fmap option_fmap option_map default length] in Hw'.
  replace (Z.of_nat (S (length chunks)) - 1)%Z with (Z.of_nat (length chunks)) in Hw' by lia.
  destruct chunks as [|c' chunks].
  - rewrite decide_True in Hw' by (simpl; auto). by rewrite decide_True.
  - rewrite decide_False in Hw' by (simpl; lia). rewrite decide_False by done. apply IH; [done|done|done|done|simpl in *; lia].
Qed.



Lemma hand_all w addr id rest chunks :
  in_flight w addr id None rest -> Forall (fun c => ~ has_id id c) rest ->
  chunks <> [] -> (Z.of_nat (length chunks) < 2 ^ 64)%Z -> handed_over w addr id rest (responses_of id chunks).
Proof.
  intros Hin Hno Hne Hb. destruct chunks as [|c chunks]; [done|]. unfold responses_of. cbn [map].
  destruct (hand_on w addr id None rest (Z.of_nat (length (c :: chunks))) c Hin Hno ltac:(simpl; lia) ltac:(done)) as (w' & E & Htold & Hw').
  eapply handed_cons; [done|exact E|done|]. simpl default in Hw'.
  destruct chunks as [|c' chunks].
  - rewrite decide_True in Hw' by (simpl; auto). by rewrite decide_True.
  - rewrite decide_False in Hw' by (simpl; lia). rewrite decide_False by done.
    apply hand_rest; [|done|simpl; lia|done|simpl in *; lia].
    by replace (Z.of_nat (length (c' :: chunks))) with (Z.of_nat (length (c :: c' :: chunks)) - 1)%Z by (simpl; lia).
Qed.
End Handover.

Section Delivery.
Context {Enr PS D C SM OM : Type} `{!EqDecision Enr} `{!K256} `{!EnrCrate Enr} `{!Packet.EnrCodec Enr} `{!Service.EnrUpdate Enr}.
Context `{!Service.HashSetDelay PS NodeId} `{!Primitives} `{!Packet.ProtocolIdentity} `{!Rlp Enr}.
Context `{!HashMapDelay D Packet.MessageNonce NodeAddress} `{!HashMapDelay C NodeAddress (Challenge Enr)}.
Context `{!LinkedHashMap SM NodeAddress (Session.Session * Z)}.
Context `{!LinkedHashMap OM NodeAddress ((Rpc.RequestId * Session.Session) * Z)}.

(** Events of responses are handled as the responses. *)
Lemma handle_responses (env : Service.Env Enr) addr l (w : Service.World Enr PS) :
  for_each (map (OutResponse addr) l) (Service.handle_event env) w = for_each l (Service.handle_rpc_response env addr) w.
Proof.
  revert w. induction l as [|r l IH]; intros w; [done|]. simpl. unfold mbind, run_bind.
  destruct (Service.handle_rpc_response env addr r w) as [[w' []]|]; [|done]. apply IH.
Qed.

(** C13: Composition.  A service answers a FINDNODE request, one that the other
    service made of its own (without a callback of the user), with NODES
    responses that it splits its records over.  The records are at the distances
    asked for, no more than [max_nodes_response], in at most
    [MAX_NODES_RESPONSES] responses, and the channel to the service is open.  The
    handler of the node that asked takes them in order and passes every one on to
    its service, keeps the request in flight until the last one and then forgets
    it; and the service, with the events it is told, does exactly what it would
    do with all the records at once, and is left without the request.  Nothing is
    lost, nothing is handled twice, and both forget the request together. *)
Theorem nodes_delivered (henv : Env Enr) (senv : Service.Env Enr) (wh : World Enr D C SM OM) (ws : Service.World Enr PS)
    addr id ar distances nodes responses rest :
  (forall n, channel_open henv n = true) ->
  in_flight wh addr id None rest -> Forall (fun c => ~ has_id id c) rest ->
  Service.active_requests (Service.service ws) !! id = Some ar ->
  Service.active_nodes_responses (Service.service ws) !! id = None ->
  NodeInfo.node_address (Service.contact ar) = addr -> Service.request_body ar = Rpc.FindNode distances ->
  Service.callback ar = None ->
  solicited (NodeInfo.node_id addr) distances nodes ->
  length nodes <= Config.max_nodes_response (Service.config (Service.service ws)) ->
  Service.nodes_responses id nodes = Ret responses -> length responses <= Service.MAX_NODES_RESPONSES ->
  (forall k, k < length responses -> exists wk remaining,
     for_each (firstn k responses) (handle_response henv addr) wh = Ret (wk, ()) /\ in_flight wk addr id remaining rest) /\
  exists wh' events, for_each responses (handle_response henv addr) wh = Ret (wh', ()) /\ calls_to wh' addr = rest /\
    told wh' = rev events ++ told wh /\
    for_each events (Service.handle_event senv) ws =
    Service.discovered senv (NodeInfo.node_id addr) nodes (Service.query_id ar) (settled id ws).
Proof.
  intros Hopen Hin Hno Ha Hn Haddr Hbody Hcb Hs Hmax E Hlen.
  pose proof (nodes_exchange senv ws addr id ar distances nodes responses Ha Hn Haddr Hbody Hcb Hs Hmax E Hlen) as Hex.
  destruct (nodes_responses_ok id nodes) as (chunks & E' & _ & _ & Hl & _). rewrite E in E'. injection E' as ->.
  unfold responses_of in Hlen. rewrite length_map in Hlen. unfold Service.MAX_NODES_RESPONSES in Hlen.
  destruct (hand_all henv Hopen wh addr id rest chunks Hin Hno) as [Hpre (wh' & Ew & Hc & Ht)];
    [by intros ->; simpl in Hl; lia|simpl in Hlen; lia|].
  split; [exact Hpre|]. exists wh', (map (OutResponse addr) (responses_of id chunks)).
  split_and!; [done|done|done|]. by rewrite handle_responses.
Qed.

End Delivery.

(** ** A node that asked the node with the key 2 *)

Import HandlerSample ServiceSample.

Definition asked : Event (list byte) :=
  EvService (InRequest peer_contact (Rpc.mkRequest [x09] (Rpc.FindNode [249; 251]%Z))).

Definition peer_address : NodeAddress := NodeInfo.node_address peer_contact.

Lemma asked_calls :
  match start env_a [asked] world_a with Ret (w, _) => call_states (calls_to w peer_address) | Panic => [] end = [([x09], None)].
Proof. by vm_compute. Qed.

Lemma asked_in_flight : exists w, start env_a [asked] world_a = Ret (w, ()) /\ in_flight w peer_address [x09] None [].
Proof.
  pose proof asked_calls as Hc. destruct (start env_a [asked] world_a) as [[w []]|]; [|discriminate].
  exists w. split; [done|]. by apply in_flight_alone.
Qed.

Lemma nodes_delivered_witness :
  exists s wh responses wh' events, sample_service = Ret s /\ start env_a [asked] world_a = Ret (wh, ()) /\
    Service.nodes_responses [x09] two_records = Ret responses /\ length responses = 2 /\
    for_each responses (handle_response env_a peer_address) wh = Ret (wh', ()) /\ calls_to wh' peer_address = [] /\
    told wh' = rev events ++ told wh /\
    for_each events (Service.handle_event ServiceSample.sample_env) (asking None s) =
    Service.discovered ServiceSample.sample_env (NodeInfo.node_id peer_address) two_records None (settled [x09] (asking None s)).
Proof.
  destruct sample_fresh as (s & Es & Hm & Hn). destruct two_responses as (responses & E & Hl).
  destruct asked_in_flight as (wh & Ew & Hin).
  destruct (nodes_delivered env_a ServiceSample.sample_env wh (asking None s) peer_address [x09] (peer_request None)
    [249; 251]%Z two_records responses []) as [_ (wh' & events & Eh & Hc & Ht & Hd)].
  - done.
  - exact Hin.
  - constructor.
  - apply lookup_singleton_eq.
  - simpl. by rewrite Hn, lookup_empty.
  - reflexivity.
  - reflexivity.
  - reflexivity.
  - exact two_solicited.
  - simpl. rewrite Hm. simpl. lia.
  - exact E.
  - rewrite Hl. vm_compute. lia.
  - exists s, wh, responses, wh', events. by split_and!.
Defined.


