(* ===== verification/ServiceLogic.v ===== *)
(** * Runs of the service

    A run from a world with the invariant returns and keeps the invariant.  The
    balance of a world counts the callbacks: those that were answered or
    dropped, those the active requests hold, and those of the queries; a run
    changes it by a known amount. *)

From S2P Require Import Prelude Bytes Key Bucket BucketSpec BucketProofs BucketTrace Table TableProofs Closest ClosestProofs TableTrace.
From S2P Require Import FindNode FindNodeProofs FindNodeTrace Predicate PredicateProofs QueryPool Rpc QueryInfo IpVote.
From S2P Require Import Packet NodeInfo Crypto Maps ActiveRequests Session Globals Config Handler HandlerLogic Service.
Import NodeInfo KBucket TableTrace Closest Config Service.

(** The keys the service stores are those of node ids. *)
Definition of_node_id (k : Key NodeId) : Prop := k = Key.from_node_id (Key.preimage k).

Lemma of_node_id_from n : of_node_id (Key.from_node_id n).
Proof. done. Qed.

Section Keyed.
Context {Enr : Type} `{!EqDecision Enr}.
Implicit Types (t : Table.KBucketsTable NodeId Enr).

Definition keyed t : Prop := table_inv t /\ table_keys of_node_id t.

(** An operation on the table that returns, keeps the invariant and answers as [R] says. *)
Definition table_total {A} (f : Table.KBucketsTable NodeId Enr -> outcome (Table.KBucketsTable NodeId Enr * A))
    (R : A -> Prop) : Prop :=
  forall t, keyed t -> exists t' a, f t = Ret (t', a) /\ keyed t' /\ R a.

Lemma update_node_total now now' k v st : table_total (fun t => Table.update_node now now' t k v st) (fun _ => True).
Proof.
  intros t [Hi Hk]. destruct (update_node_ok now now' t k v st Hi) as (t' & r & E & Hc). exists t', r.
  split; [done|]. split; [|done]. split; [|by eapply update_node_keys].
  destruct (Table.index_of t k); [by destruct Hc as (b & (? & _) & _)|by destruct Hc as [-> _]].
Qed.

Lemma insert_or_update_total now now' k v s :
  of_node_id k -> table_total (fun t => Table.insert_or_update now now' t k v s) (fun _ => True).
Proof.
  intros Hn t [Hi Hk]. destruct (insert_or_update_ok now now' t k v s Hi) as (t' & r & E & Hc). exists t', r.
  split; [done|]. split; [|done]. split; [|by eapply insert_or_update_keys].
  destruct (Table.index_of t k); [by destruct Hc as (b & (? & _) & _)|by destruct Hc as [-> _]].
Qed.

Lemma update_node_status_total now now' k st dir :
  table_total (fun t => Table.update_node_status now now' t k st dir) (fun _ => True).
Proof.
  intros t [Hi Hk]. destruct (update_node_status_ok now now' t k st dir Hi) as (t' & r & E & Hi' & _). exists t', r.
  split; [done|]. by split; [split; [|by eapply update_node_status_keys]|].
Qed.

Lemma entry_total now k :
  table_total (fun t => Table.entry now t k) (fun e => e = Entry.SelfEntry \/ exists b, e = Entry.new b k).
Proof.
  intros t [Hi Hk]. destruct (entry_ok now t k Hi) as (t' & e & E & Hc). exists t', e.
  split; [done|]. split; [split; [|by eapply entry_keys]|].
  - destruct (Table.index_of t k); [by destruct Hc as (b & (? & _) & _)|by destruct Hc as [-> _]].
  - destruct (Table.index_of t k); [right; destruct Hc as (b & _ & ->); by exists b|by destruct Hc as [_ ->]; left].
Qed.

Lemma iter_total clock : table_total (Table.iter clock) (fun _ => True).
Proof.
  intros t [Hi Hk]. destruct (iter_from_ok clock t (seq 0 (length (Table.buckets t))) Hi) as (t' & l & E & Hi' & _).
  - rewrite (inv_buckets t Hi). apply Forall_forall. intros i Hin%elem_of_seq. lia.
  - exists t', l. split; [done|]. by split; [split; [|by eapply iter_from_keys]|].
Qed.

Lemma nodes_by_distances_total clock ds m : table_total (fun t => Table.nodes_by_distances clock t ds m) (fun _ => True).
Proof.
  intros t [Hi Hk]. destruct (nodes_by_distances_ok clock t ds m Hi) as (t' & l & E & Hi' & _). exists t', l.
  split; [done|]. by split; [split; [|by eapply nodes_by_distances_keys]|].
Qed.

Lemma take_applied_total : table_total (fun t => Ret (Table.take_applied_pending t)) (fun _ => True).
Proof.
  intros t [Hi Hk]. destruct (Table.take_applied_pending t) as [t' r] eqn:E. exists t', r. split; [done|]. split; [split|done].
  - unfold Table.take_applied_pending in E. destruct (Table.applied_pending t); simplify_eq; [done|]. by destruct Hi.
  - pose proof (take_applied_keys of_node_id t Hk) as H. by rewrite E in H.
Qed.

Lemma table_op_total clock op :
  table_op_keys of_node_id op -> table_total (fun t => t ← run_table_op clock op t; Ret (t, ())) (fun _ => True).
Proof.
  intros Ho t [Hi Hk]. destruct (run_table_op_ok clock op t Hi) as (t' & E & Hi' & _). exists t', ().
  rewrite E. split; [done|]. by split; [split; [|by eapply run_table_op_keys]|].
Qed.

(** A [for] loop over the nodes closest to a target ends, and lists keys of node ids. *)
Lemma list_closest_total {Out} clock tg (f : Node NodeId Enr -> Out) (key_of : Out -> Key NodeId) :
  (forall n, key_of (f n) = key n) ->
  table_total (fun t => list_closest clock (closest_by (fun b => f <$> nodes b) key_of t tg))
    (Forall (fun o => of_node_id (key_of o))).
Proof.
  intros Hf t [Hi Hk].
  destruct (closest_by_listing clock tg f key_of Hf t Hi) as (l & t' & Hi' & _ & _ & Hlen & _ & _ & Hrun).
  destruct (Hrun CLOSEST_FUEL) as (it' & E & Ht). unfold list_closest. unfold map_bucket in E. rewrite E. cbn [mbind outcome_bind].
  exists (table it'), (firstn CLOSEST_FUEL l). split; [done|].
  pose proof (closest_by_keys of_node_id f key_of t tg Hk Hf) as Hit.
  destruct (take_next_keys of_node_id _ _ _ _ _ Hit E) as [Hk' Hl]. split; [|exact Hl]. split; [|done].
  rewrite Ht; [done|]. unfold CLOSEST_FUEL. lia.
Qed.
End Keyed.

(** ** Polls of the queries *)

Section Poll.
Context {G N R : Type} `{QueryPool.TargetKey G N} `{IntoKeyLaw N}.
Implicit Types (q : QueryPool.Query G N R) (qs : gmap Z (QueryPool.Query G N R)).

Definition targets qs : gmap Z G := QueryPool.target <$> qs.

Lemma targets_insert qs i q : QueryPool.target <$> qs !! i = Some (QueryPool.target q) -> targets (<[i := q]> qs) = targets qs.
Proof. intros E. unfold targets. rewrite fmap_insert. apply insert_id. by rewrite lookup_fmap. Qed.

Lemma query_next_target now q q' st :
  QueryPool.query_next now q = Ret (q', st) -> QueryPool.target q' = QueryPool.target q.
Proof. unfold QueryPool.query_next. intros E. split_run. by simplify_eq. Qed.

Lemma poll_loop_targets now timeout qs order qs' ev :
  QueryPool.poll_loop now timeout qs order = Ret (qs', ev) -> targets qs' = targets qs.
Proof.
  revert qs. induction order as [|i order IH]; intros qs E; simpl in E; [by simplify_eq|].
  destruct (qs !! i) as [q0|] eqn:Ei; [|done]. simpl in E. split_run.
  assert (targets (<[i := q]> qs) = targets qs) as Ht.
  { apply targets_insert. apply query_next_target in H2. rewrite Ei. simpl. by rewrite H2. }
  rewrite <-Ht. repeat case_match; simplify_eq; eauto.
Qed.

(** A poll returns; the query it ends, if any, leaves the pool. *)
Lemma poll_total now order (pool : QueryPool.QueryPool G N R) :
  queries_inv (QueryPool.queries pool) -> iteration_order (QueryPool.queries pool) order ->
  exists qs st, targets qs = targets (QueryPool.queries pool) /\ queries_inv qs /\
    let leave qs := QueryPool.mkPool (QueryPool.next_id pool) (QueryPool.query_timeout pool) qs in
    match st with
    | QueryPool.PoolFinished q | QueryPool.Timeout q =>
        qs !! QueryPool.id q = Some q /\
        QueryPool.poll now order pool = Ret (leave (delete (QueryPool.id q) qs), st)
    | QueryPool.PoolWaiting (Some (i, _)) => is_Some (qs !! i) /\ QueryPool.poll now order pool = Ret (leave qs, st)
    | _ => QueryPool.poll now order pool = Ret (leave qs, st)
    end.
Proof.
  intros Hinv [Hnd Hdom]%iteration_order_spec. unfold QueryPool.poll.
  destruct (poll_loop_ok now (QueryPool.query_timeout pool) (QueryPool.queries pool) order Hinv Hnd)
    as (qs & ev & E & Hinv' & _ & _ & Hres); [by apply Forall_forall; intros i; rewrite Hdom|].
  pose proof (poll_loop_targets _ _ _ _ _ _ E) as Ht. rewrite E. exists qs. cbn [mbind outcome_bind].
  destruct ev as [|i|i n|i]; simpl in Hres.
  - case_decide; [exists QueryPool.Idle|exists (QueryPool.PoolWaiting None)]; done.
  - destruct Hres as (_ & q & Hq & _). destruct (Hinv' i q Hq) as [<- _]. rewrite Hq. by exists (QueryPool.PoolFinished q).
  - destruct Hres as (_ & _ & q & _ & Hq & _). rewrite Hq. exists (QueryPool.PoolWaiting (Some (i, n))).
    split_and!; [done|done|by eexists|done].
  - destruct Hres as (_ & q & Hq & _). destruct (Hinv' i q Hq) as [<- _]. rewrite Hq. by exists (QueryPool.Timeout q).
Qed.

(** Results keep the invariant and the target of a query. *)
Lemma query_on_failure_total q (peer : N) :
  iter_inv (QueryPool.peer_iter q) ->
  exists q', QueryPool.on_failure q peer = Ret q' /\ iter_inv (QueryPool.peer_iter q') /\
    QueryPool.id q' = QueryPool.id q /\ QueryPool.target q' = QueryPool.target q.
Proof.
  unfold QueryPool.on_failure. destruct (QueryPool.peer_iter q) as [fq|pq]; intros Hi; simpl in Hi.
  - destruct (on_failure_ok fq peer Hi) as (fq' & -> & Hs). eexists. split; [done|]. split_and!; [|done..].
    simpl. by eapply step_ok_inv.
  - destruct (on_failure_pok pq peer Hi) as (pq' & -> & Hs). eexists. split; [done|]. split_and!; [|done..].
    simpl. by eapply pstep_inv.
Qed.

Lemma query_on_success_total (into_id : R -> N) q (peer : N) rs :
  iter_inv (QueryPool.peer_iter q) ->
  exists q', QueryPool.on_success into_id q peer rs = Ret q' /\ iter_inv (QueryPool.peer_iter q') /\
    QueryPool.id q' = QueryPool.id q /\ QueryPool.target q' = QueryPool.target q.
Proof.
  unfold QueryPool.on_success. destruct (QueryPool.peer_iter q) as [fq|pq]; intros Hi; simpl in Hi.
  - destruct (on_success_ok fq peer (into_id <$> rs) Hi) as (fq' & -> & Hs). eexists. split; [done|]. split_and!; [|done..].
    simpl. by eapply step_ok_inv.
  - destruct (on_success_pok into_id pq peer rs Hi) as (pq' & -> & Hs). eexists. split; [done|]. split_and!; [|done..].
    simpl. by eapply pstep_inv.
Qed.
End Poll.
