(* ===== verification/ServiceInv.v ===== *)
(** * The invariant of the service

    Every branch of the loop of the service returns and keeps the invariant of
    the routing table and of the queries, and neither loses nor invents a
    callback. *)

From S2P Require Import Prelude Bytes Key Bucket BucketSpec BucketProofs BucketTrace Table TableProofs Closest TableTrace.
From S2P Require Import FindNode FindNodeProofs FindNodeTrace Predicate PredicateProofs QueryPool Rpc QueryInfo IpVote.
From S2P Require Import Packet NodeInfo Crypto Maps ActiveRequests Session Globals Config Handler HandlerLogic Service ServiceNodes ServiceLogic.
Import NodeInfo KBucket TableTrace Closest Config Service.

Create HintDb runs.

Section Inv.
Context {Enr PS : Type} `{!EqDecision Enr} `{!K256} `{!EnrCrate Enr} `{!Packet.EnrCodec Enr} `{!EnrUpdate Enr}.
Context `{!HashSetDelay PS NodeId}.
Variable env : Env Enr.
(** A release build; the hash map of queries is iterated in some order. *)
Hypothesis release : debug_assertions env = false.
Hypothesis orders : forall n qs, iteration_order qs (query_order env n qs).
(** The weights of the callbacks, and of those that are dropped: no callback of a
    query is dropped by the loop of the service. *)
Variables g d : Sender -> nat.
Hypothesis dropped : forall c, d (sender c) = g (sender c).
Notation W := (World Enr PS).
Notation M := (Handler.Run W).
Notation ret := (Handler.run_ret (W := W)).
Notation Query := (QueryPool.Query (QueryInfo.QueryInfo Enr) NodeId Enr).
Implicit Types (w : W) (b n : Z).

(** ** The balance *)

(** The sender an answer goes through. *)
Definition answered_by (c : Channel) (a : Answer Enr) : Sender :=
  match a with
  | AnsQuery _ => SendQuery c
  | AnsNodes _ => SendNodes c
  | AnsTalk _ => SendTalk c
  | AnsPong _ => SendPong c
  | AnsStream => SendStream c
  end.

Definition out_weight (o : Output Enr) : nat :=
  match o with
  | Answered c a => g (answered_by c a)
  | Dropped s => d s
  | _ => 0
  end.

Definition cb_weight (c : option CallbackResponse) : nat :=
  match c with Some c => g (sender c) | None => 0 end.

Definition request_weight (id : Rpc.RequestId) (a : ActiveRequest Enr) : nat := cb_weight (callback a).
Definition target_weight (i : Z) (t : QueryInfo.QueryInfo Enr) : nat := g (SendQuery (QueryInfo.callback t)).

Definition balance w : Z :=
  Z.of_nat (sum_list_with out_weight (out w) + msum request_weight (active_requests (service w)) +
            msum target_weight (targets (QueryPool.queries (queries (service w))))).

(** ** The invariant *)

(** A query under the identifier [i] of a pool. *)
Definition query_ok (next_id i : Z) (q : Query) : Prop :=
  QueryPool.id q = i /\ iter_inv (QueryPool.peer_iter q) /\
  QueryInfo.distances_to_request (QueryPool.target q) <= 127 /\ (0 <= i < next_id)%Z.

(** At most [b] queries were started. *)
Record inv b w : Prop := {
  inv_table : keyed (kbuckets (service w));
  inv_queries i q : QueryPool.queries (queries (service w)) !! i = Some q ->
    query_ok (QueryPool.next_id (queries (service w))) i q;
  inv_next : (0 <= QueryPool.next_id (queries (service w)) <= b)%Z;
}.

(** [m] returns from [w], changes the balance by [n] and answers as [Q] says. *)
Definition runs_at b n {A} (Q : A -> Prop) (m : M A) w : Prop :=
  exists w' a, m w = Ret (w', a) /\ inv b w' /\ balance w' = (balance w + n)%Z /\ Q a.

Definition runs b n {A} (Q : A -> Prop) (m : M A) : Prop := forall w, inv b w -> runs_at b n Q m w.

(** Returns and keeps the balance. *)
Notation safe b m := (runs b 0 (fun _ => True) m).

Lemma at_bind {A B} b b' n n1 n2 (P : A -> Prop) (Q : B -> Prop) (m : M A) (k : A -> M B) w :
  runs_at b n1 P m w -> n = (n1 + n2)%Z ->
  (forall a w', inv b w' -> P a -> runs_at b' n2 Q (k a) w') -> runs_at b' n Q (m ≫= k) w.
Proof.
  intros (w1 & a & E1 & I1 & B1 & Pa) -> Hk. destruct (Hk a w1 I1 Pa) as (w2 & c & E2 & I2 & B2 & Qc).
  exists w2, c. split_and!; [|done|lia|done]. unfold mbind, Handler.run_bind. by rewrite E1.
Qed.

Lemma at_bind0 {A B} b n (P : A -> Prop) (Q : B -> Prop) (m : M A) (k : A -> M B) w :
  runs b 0 P m -> inv b w -> (forall a, P a -> runs b n Q (k a)) -> runs_at b n Q (m ≫= k) w.
Proof. intros Hm Hw Hk. eapply at_bind; [by apply Hm|done|]. intros a w' Hw' Pa. by apply Hk. Qed.

Lemma at_self {B} b n (Q : B -> Prop) (k : Service Enr PS -> M B) w :
  runs_at b n Q (k (service w)) w -> runs_at b n Q (self ≫= k) w.
Proof. done. Qed.

Lemma runs_bind {A B} b n (P : A -> Prop) (Q : B -> Prop) (m : M A) (k : A -> M B) :
  runs b 0 P m -> (forall a, P a -> runs b n Q (k a)) -> runs b n Q (m ≫= k).
Proof. intros Hm Hk w Hw. by eapply at_bind0. Qed.

(** The first operation changes the balance. *)
Lemma runs_bind_n {A B} b n (Q : B -> Prop) (m : M A) (k : A -> M B) :
  runs b n (fun _ => True) m -> (forall a, runs b 0 Q (k a)) -> runs b n Q (m ≫= k).
Proof.
  intros Hm Hk w Hw. eapply (at_bind _ _ _ n 0); [by apply Hm|lia|]. intros a w' Hw' _. by apply Hk.
Qed.

Lemma runs_weaken {A} b n (P Q : A -> Prop) (m : M A) : runs b n P m -> (forall a, P a -> Q a) -> runs b n Q m.
Proof. intros Hm HPQ w Hw. destruct (Hm w Hw) as (w' & a & ? & ? & ? & ?). exists w', a. auto. Qed.

Lemma runs_ret {A} b (a : A) : safe b (ret a).
Proof. intros w Hw. exists w, a. split_and!; [done|done|lia|done]. Qed.

Lemma runs_self b : safe b self.
Proof. intros w Hw. exists w, (service w). split_and!; [done|done|lia|done]. Qed.

Lemma runs_take_with {A} b (f : nat -> A) (P : A -> Prop) : (forall i, P (f i)) -> runs b 0 P (take f).
Proof. intros Hf w Hw. eexists _, _. split; [done|]. split; [by destruct Hw; split|]. split; [|apply Hf]. unfold balance. simpl. lia. Qed.

Lemma runs_take {A} b (f : nat -> A) : safe b (take f).
Proof. by apply runs_take_with. Qed.

Lemma runs_bans b f : safe b (update_bans f).
Proof. intros w Hw. eexists _, _. split; [done|]. split; [by destruct Hw; split|]. split; [|done]. unfold balance. simpl. lia. Qed.

Lemma runs_lift {A} b (m : outcome A) (P : A -> Prop) a : m = Ret a -> P a -> runs b 0 P (lift m).
Proof. intros -> Pa w Hw. exists w, a. split_and!; [done|done|lia|done]. Qed.

Lemma runs_log b o : runs b (Z.of_nat (out_weight o)) (fun _ => True) (log o).
Proof.
  intros w Hw. eexists _, (). split; [done|]. split; [by destruct Hw; split|]. split; [|done].
  unfold balance. simpl. lia.
Qed.

(** Writes to fields that neither the invariant nor the balance mentions. *)
Definition inert (f : Service Enr PS -> Service Enr PS) : Prop :=
  forall s, kbuckets (f s) = kbuckets s /\ queries (f s) = queries s /\ active_requests (f s) = active_requests s.

Lemma runs_modify b f : inert f -> safe b (modify f).
Proof.
  intros Hf w Hw. eexists _, (). split; [done|]. destruct (Hf (service w)) as (E1 & E2 & E3).
  split; [destruct Hw; split; simpl; by rewrite ?E1, ?E2|]. split; [|done]. unfold balance. simpl. rewrite E2, E3. lia.
Qed.

Lemma runs_for_each {A} b (l : list A) (f : A -> M unit) : (forall a, safe b (f a)) -> safe b (Handler.for_each l f).
Proof.
  intros Hf. induction l as [|a l IH]; simpl; [apply runs_ret|]. eapply runs_bind; [apply Hf|]. by intros _ _.
Qed.

Lemma runs_on_table {A} b (f : Table.KBucketsTable NodeId Enr -> outcome (Table.KBucketsTable NodeId Enr * A)) R :
  table_total f R -> runs b 0 R (on_table f).
Proof.
  intros Hf w [Ht Hq Hn]. destruct (Hf _ Ht) as (t' & a & E & Ht' & Ra). exists (mkWorld (with_kbuckets t' (service w)) (out w) (ticks w) (permit_ban_list w)), a. split.
  { unfold on_table, mbind, Handler.run_bind, self, lift. simpl. by rewrite E. }
  split; [by split|]. split; [|done]. unfold balance. simpl. lia.
Qed.

Lemma runs_log0 b o : out_weight o = 0 -> safe b (log o).
Proof. intros E. pose proof (runs_log b o) as Hl. by rewrite E in Hl. Qed.

Hint Resolve update_node_total insert_or_update_total update_node_status_total iter_total nodes_by_distances_total : runs.
Hint Resolve take_applied_total of_node_id_from : runs.
Hint Resolve runs_ret runs_self runs_take runs_bans runs_for_each runs_on_table : runs.
Hint Extern 1 (runs _ _ _ (modify _)) => (apply runs_modify; done) : runs.
Hint Extern 1 (runs _ _ _ (log _)) => (apply runs_log0; done) : runs.

(** Goes through an operation: sequences, case distinctions, known operations. *)
Ltac go :=
  repeat (intros; cbv beta zeta;
    lazymatch goal with
    | |- runs _ _ _ (mbind _ _) =>
        first [ eapply runs_bind; [solve [eauto 3 with runs nocore]|intros]
              | eapply (runs_bind _ _ (fun _ => True)); [solve [go]|intros] ]
    | |- runs _ _ _ (match ?x with _ => _ end) => destruct x eqn:?
    | |- runs _ _ _ _ => solve [eauto 3 with runs nocore]
    end).

(** ** Records of the table *)

Lemma runs_entry b k : runs b 0 (fun e => e = Entry.SelfEntry \/ exists bk, e = Entry.new bk k) (Service.entry env k).
Proof. unfold Service.entry. go. apply runs_on_table, entry_total. Qed.
Hint Resolve runs_entry : runs.

Lemma present_value_total (bk : KBucket NodeId Enr) k e st :
  Entry.new bk k = Entry.Present e st -> exists v, Entry.present_value e = Ret v.
Proof.
  unfold Entry.new, Entry.present_value. intros E. destruct (position_of bk k) as [pos|] eqn:Ep;
    [|by destruct (as_pending bk k)]. simplify_eq. simpl.
  destruct (position_lookup _ _ _ Ep) as (n & Hn & _). unfold get. rewrite find_position.
  unfold position_of in Ep. rewrite Ep. simpl. rewrite Hn. by eexists.
Qed.

Lemma pending_value_total (bk : KBucket NodeId Enr) k e st :
  Entry.new bk k = Entry.PendingEntry e st -> exists v, pending_record e = Ret v.
Proof.
  unfold Entry.new, pending_record, as_pending. intros E. destruct (position_of bk k); [done|].
  destruct (pending bk) as [p|] eqn:Ep; [|done]. destruct (Key.eqb _ _); [|done]. simplify_eq. simpl. rewrite Ep. by eexists.
Qed.

Lemma runs_present_record b k : safe b (present_record env k).
Proof.
  unfold present_record. eapply runs_bind; [apply runs_entry|]. intros e He. destruct e; go.
  destruct He as [?|[bk He]]; [done|]. destruct (present_value_total _ _ _ _ (eq_sym He)) as [v Ev].
  eapply runs_bind; [by apply (runs_lift _ _ (fun _ => True) v)|]. go.
Qed.

Lemma runs_known_record b k : safe b (known_record env k).
Proof.
  unfold known_record. eapply runs_bind; [apply runs_entry|]. intros e He. destruct e; go.
  - destruct He as [?|[bk He]]; [done|]. destruct (present_value_total _ _ _ _ (eq_sym He)) as [v Ev].
    eapply runs_bind; [by apply (runs_lift _ _ (fun _ => True) v)|]. go.
  - destruct He as [?|[bk He]]; [done|]. destruct (pending_value_total _ _ _ _ (eq_sym He)) as [v Ev].
    eapply runs_bind; [by apply (runs_lift _ _ (fun _ => True) v)|]. go.
Qed.
Hint Resolve runs_present_record runs_known_record : runs.

Lemma runs_ping_insert b node_id : safe b (ping_insert env node_id).
Proof. unfold ping_insert. go. Qed.
Lemma runs_ping_remove b node_id : safe b (ping_remove node_id).
Proof. unfold ping_remove. go. Qed.
Hint Resolve runs_ping_insert runs_ping_remove : runs.

Lemma runs_find_enr b node_id : safe b (find_enr env node_id).
Proof. unfold find_enr. go. Qed.
Hint Resolve runs_find_enr : runs.

(** ** Channels *)

Lemma runs_send_handler b i : safe b (send_handler env i).
Proof. unfold send_handler. go. Qed.
Hint Resolve runs_send_handler : runs.

Lemma runs_send_event b e : safe b (send_event env e).
Proof. unfold send_event, drop_event, drop_talk. go. Qed.
Hint Resolve runs_send_event : runs.

Lemma runs_drop_callback b c : runs b (Z.of_nat (cb_weight c)) (fun _ => True) (drop_callback c).
Proof.
  destruct c as [c|]; [|apply runs_ret]. pose proof (runs_log b (Dropped (sender c))) as Hl. simpl in *. by rewrite dropped in Hl.
Qed.

(** ** Requests *)

Lemma runs_insert_active b id a : runs b (Z.of_nat (cb_weight (callback a))) (fun _ => True) (insert_active id a).
Proof.
  intros w Hw. unfold insert_active. apply at_self. pose proof (msum_insert request_weight (active_requests (service w)) id a) as Hm.
  assert (at_key request_weight (active_requests (service w)) id = cb_weight (active_requests (service w) !! id ≫= callback))
    as Ha by (unfold at_key, request_weight; by destruct (active_requests (service w) !! id)).
  rewrite Ha in Hm. change (request_weight id a) with (cb_weight (callback a)) in Hm.
  destruct (active_requests (service w) !! id ≫= callback) as [c|]; [pose proof (dropped c)|]; eexists _, ();
    (split; [reflexivity|]); (split; [by destruct Hw; split|]); (split; [|done]); unfold balance; simpl in *; lia.
Qed.

(** A request that is taken out of the active ones is worth its callback. *)
Lemma at_taken {B} b id a (Q : B -> Prop) (k : unit -> M B) w :
  inv b w -> active_requests (service w) !! id = Some a -> runs b (Z.of_nat (cb_weight (callback a))) Q (k ()) ->
  runs_at b 0 Q (modify (fun s => with_active (delete id (active_requests s)) s) ≫= k) w.
Proof.
  intros Hw Ha Hk. pose proof (msum_delete request_weight (active_requests (service w)) id) as Hm.
  unfold at_key in Hm. rewrite Ha in Hm. change (request_weight id a) with (cb_weight (callback a)) in Hm.
  apply (at_bind b b 0 (- Z.of_nat (cb_weight (callback a))) (Z.of_nat (cb_weight (callback a))) (fun _ => True)); [|lia|].
  - eexists _, (). split; [reflexivity|]. split; [by destruct Hw; split|]. split; [|done]. unfold balance. simpl. lia.
  - intros [] w' Hw' _. by apply Hk.
Qed.

Lemma runs_send_rpc_request b a : runs b (Z.of_nat (cb_weight (callback a))) (fun _ => True) (send_rpc_request env a).
Proof. unfold send_rpc_request. go; [apply runs_insert_active|apply runs_drop_callback]. Qed.

Lemma runs_insert_active0 b id a : callback a = None -> safe b (insert_active id a).
Proof. intros E. pose proof (runs_insert_active b id a) as Hr. by rewrite E in Hr. Qed.
Hint Extern 1 (runs _ _ _ (insert_active _ _)) => (apply runs_insert_active0; done) : runs.

(** A request without a callback. *)
Lemma runs_send_request0 b a : callback a = None -> safe b (send_rpc_request env a).
Proof. intros E. pose proof (runs_send_rpc_request b a) as Hr. by rewrite E in Hr. Qed.
Hint Extern 1 (runs _ _ _ (send_rpc_request _ _)) => (apply runs_send_request0; done) : runs.

Lemma runs_send_ping b enr cb : runs b (Z.of_nat (cb_weight (CbPong <$> cb))) (fun _ => True) (send_ping env enr cb).
Proof. unfold send_ping. go; [apply runs_send_rpc_request|apply runs_drop_callback]. Qed.
Lemma runs_send_ping0 b enr : safe b (send_ping env enr None).
Proof. apply (runs_send_ping b enr None). Qed.
Hint Resolve runs_send_ping0 : runs.

Lemma runs_ping_connected_peers b : safe b (ping_connected_peers env).
Proof.
  unfold ping_connected_peers. go.
Qed.
Hint Resolve runs_ping_connected_peers : runs.

(** ** Queries *)

Lemma runs_on_query b i (f : Query -> outcome Query) :
  (forall next q, query_ok next i q -> exists q', f q = Ret q' /\ query_ok next i q' /\
     QueryInfo.callback (QueryPool.target q') = QueryInfo.callback (QueryPool.target q)) ->
  safe b (on_query i f).
Proof.
  intros Hf w Hw. unfold on_query. apply at_self. unfold QueryPool.get_mut.
  destruct (QueryPool.queries (queries (service w)) !! i) as [q|] eqn:Ei; [|by apply runs_ret].
  destruct Hw as [Ht Hq Hn]. destruct (Hf _ q (Hq i q Ei)) as (q' & -> & Hok & Hcb).
  eexists _, (). split; [reflexivity|]. split; [split; [done| |done]|].
  - intros j qj. simpl. intros [[<- <-]|[_ Hj]]%lookup_insert_Some; [done|by apply Hq].
  - split; [|done]. unfold balance. simpl. unfold targets. rewrite fmap_insert.
    pose proof (msum_insert target_weight (QueryPool.target <$> QueryPool.queries (queries (service w))) i (QueryPool.target q')) as Hm.
    unfold at_key in Hm. rewrite lookup_fmap, Ei in Hm. simpl in Hm. assert (target_weight i (QueryPool.target q') = target_weight i (QueryPool.target q)) as Hw by (unfold target_weight; by rewrite Hcb). lia.
Qed.

Lemma runs_query_failed b i node_id : safe b (on_query i (fun q => QueryPool.on_failure q node_id)).
Proof.
  apply runs_on_query. intros next q (Hid & Hi & Hd & Hr). destruct (query_on_failure_total q node_id Hi) as (q' & E & Hi' & Hid' & Ht).
  exists q'. split; [done|]. unfold query_ok. by rewrite Hid', Ht.
Qed.
Hint Resolve runs_query_failed : runs.

Lemma runs_send_rpc_query b i peer body : safe b (send_rpc_query env i peer body).
Proof. unfold send_rpc_query. go. Qed.
Hint Resolve runs_send_rpc_query : runs.

Lemma inv_mono b b' w : (b <= b')%Z -> inv b w -> inv b' w.
Proof. intros Hb [Ht Hq Hn]. split; [done|done|lia]. Qed.

(** A new query gets a fresh identifier, as long as they last. *)
Lemma at_add b w (it : Service Enr PS -> QueryPool.QueryPeerIter NodeId Enr) tg :
  inv b w -> (b + 1 < QueryPool.USIZE_MODULUS)%Z -> iter_inv (it (service w)) -> QueryInfo.distances_to_request tg <= 127 ->
  runs_at (b + 1) (Z.of_nat (g (SendQuery (QueryInfo.callback tg)))) (fun _ => True)
    (modify (fun s => with_queries (QueryPool.add (queries s) (it s) tg).1 s)) w.
Proof.
  intros [Ht Hq Hn] Hb Hit Hd. set (pool := queries (service w)) in *.
  assert (QueryPool.queries pool !! QueryPool.next_id pool = None) as Hfresh.
  { destruct (QueryPool.queries pool !! QueryPool.next_id pool) as [q|] eqn:E; [|done]. destruct (Hq _ _ E) as (_ & _ & _ & ?). lia. }
  eexists _, (). split; [reflexivity|]. split; [split; [done|..]|split; [|done]]; simpl; fold pool.
  - intros i q. rewrite Z.mod_small by (unfold QueryPool.USIZE_MODULUS in *; lia).
    intros [[<- <-]|[_ Hi]]%lookup_insert_Some; [split_and!; [done|done|done|lia..]|].
    destruct (Hq i q Hi) as (? & ? & ? & ?). split_and!; [done|done|done|lia..].
  - rewrite Z.mod_small by (unfold QueryPool.USIZE_MODULUS in *; lia). lia.
  - unfold balance. simpl. fold pool. unfold targets. rewrite fmap_insert.
    change (QueryPool.target (QueryPool.query_new _ _ tg)) with tg.
    pose proof (msum_insert target_weight (QueryPool.target <$> QueryPool.queries pool) (QueryPool.next_id pool) tg) as Hm.
    unfold at_key in Hm. rewrite lookup_fmap, Hfresh in Hm. change (QueryPool.target <$> None) with (@None (QueryInfo.QueryInfo Enr)) in Hm. cbn iota in Hm.
    change (target_weight (QueryPool.next_id pool) tg) with (g (SendQuery (QueryInfo.callback tg))) in Hm.
    lia.
Qed.

Lemma at_start_findnode b w target_node cb :
  inv b w -> (b + 1 < QueryPool.USIZE_MODULUS)%Z ->
  runs_at (b + 1) (Z.of_nat (g (SendQuery cb))) (fun _ => True) (start_findnode_query env target_node cb) w.
Proof.
  intros Hw Hb. unfold start_findnode_query. eapply (at_bind b); [by apply runs_take|done|]. intros clock w1 Hw1 _.
  eapply (at_bind b).
  { apply runs_on_table; [|done]. by apply (list_closest_total clock _ (fun m : Node NodeId Enr => mkCV (key m) (value m)) cv_key). }
  { done. }
  intros closest w2 Hw2 Hc. destruct closest as [|c closest].
  - apply (runs_log (b + 1) (Answered cb (AnsQuery []))). apply (inv_mono b); [lia|done].
  - apply (at_add b w2 (fun s => QueryPool.IterFindNode (FindNode.with_config _ _ (cv_key <$> c :: closest)))
      (QueryInfo.mkInfo (QueryInfo.FindNode target_node) _ cb DISTANCES_TO_REQUEST_PER_PEER)); [done|done| |].
    + apply FindNodeTrace.with_config_inv. unfold FindNodeTrace.known_ok. by apply Forall_fmap.
    + unfold DISTANCES_TO_REQUEST_PER_PEER. simpl. lia.
Qed.

Lemma at_start_predicate b w target_node num predicate cb :
  inv b w -> (b + 1 < QueryPool.USIZE_MODULUS)%Z ->
  runs_at (b + 1) (Z.of_nat (g (SendQuery cb))) (fun _ => True) (start_predicate_query env target_node num predicate cb) w.
Proof.
  intros Hw Hb. unfold start_predicate_query. eapply (at_bind b); [by apply runs_take|done|]. intros clock w1 Hw1 _.
  eapply (at_bind b).
  { apply runs_on_table; [|done].
    by apply (list_closest_total clock _ (fun m : Node NodeId Enr => mkPV (key m) (predicate (value m)) (value m)) pv_key). }
  { done. }
  intros closest w2 Hw2 Hc. cbv zeta. destruct closest as [|c closest].
  - apply (runs_log (b + 1) (Answered cb (AnsQuery []))). apply (inv_mono b); [lia|done].
  - apply (at_add b w2 (fun s => QueryPool.IterPredicate (Predicate.with_config _ _ (map to_key_value (c :: closest)).*1 predicate))
      (QueryInfo.mkInfo (QueryInfo.FindNode target_node) _ cb DISTANCES_TO_REQUEST_PER_PEER)); [done|done| |].
    + apply PredicateTrace.with_config_pinv. unfold PredicateTrace.pknown_ok, FindNodeTrace.known_ok. apply Forall_fmap, Forall_fmap.
      change (map to_key_value (c :: closest)) with (to_key_value <$> (c :: closest)). by apply Forall_fmap.
    + unfold DISTANCES_TO_REQUEST_PER_PEER. simpl. lia.
Qed.

(** ** Requests of other nodes *)

Lemma runs_send_nodes_response b addr id distances : safe b (send_nodes_response env addr id distances).
Proof.
  unfold send_nodes_response. eapply runs_bind; [apply runs_self|]. intros s _. cbv zeta.
  set (p := match dedup (merge_sort Z.le distances) with [] => _ | _ => _ end). destruct p as [own ds].
  eapply (runs_bind _ _ (fun _ => True)).
  { destruct ds; [go|]. eapply runs_bind; [apply runs_take|]. intros clock _. apply runs_on_table, nodes_by_distances_total. }
  intros nodes _. destruct (nodes_responses_ok id (own ++ (value <$> filter (fun m => Key.preimage (key m) <> NodeInfo.node_id addr) nodes)))
    as (chunks & E & _).
  eapply runs_bind; [by apply (runs_lift _ _ (fun _ => True) _ E)|]. intros rs _. apply runs_for_each. go.
Qed.
Hint Resolve runs_send_nodes_response : runs.

Lemma runs_debug_unreachable b : safe b (lift (debug_unreachable (debug_assertions env))).
Proof. by apply (runs_lift _ _ (fun _ => True) ()); [rewrite release|]. Qed.
Hint Resolve runs_debug_unreachable : runs.

Lemma runs_handle_rpc_request b addr req : safe b (handle_rpc_request env addr req).
Proof. unfold handle_rpc_request, request_find_node_designated_peer. go. Qed.
Hint Resolve runs_handle_rpc_request : runs.

(** ** Discovered records *)

Lemma runs_retain b source local_id enr : safe b (retain_discovered env source local_id enr).
Proof. unfold retain_discovered. go. Qed.
Hint Resolve runs_retain : runs.

Lemma runs_retain_all b source local_id enrs : safe b (retain_all env source local_id enrs).
Proof. induction enrs as [|enr enrs IH]; simpl; go. Qed.
Hint Resolve runs_retain_all : runs.

Lemma runs_discovered b source enrs i : safe b (discovered env source enrs i).
Proof.
  unfold discovered. go. apply runs_on_query. intros next q (Hid & Hi & Hd & Hr). cbv zeta.
  destruct (query_on_success_total enr_node_id
    (QueryPool.mkQuery (QueryPool.id q) (QueryPool.peer_iter q) (QueryPool.started q)
      (QueryInfo.mkInfo (QueryInfo.query_type (QueryPool.target q)) (add_untrusted a0 (QueryInfo.untrusted_enrs (QueryPool.target q)))
        (QueryInfo.callback (QueryPool.target q)) (QueryInfo.distances_to_request (QueryPool.target q))))
    source a0 Hi) as (q' & E & Hi' & Hid' & Ht).
  exists q'. split; [exact E|]. unfold query_ok. rewrite Hid', Ht. done.
Qed.
Hint Resolve runs_discovered : runs.

(** ** Connections *)

Lemma runs_connection_updated b node_id st : safe b (connection_updated env node_id st).
Proof. unfold connection_updated. go. Qed.
Hint Resolve runs_connection_updated : runs.

Lemma runs_inject_session b enr dir : safe b (inject_session_established env enr dir).
Proof.
  intros w Hw. unfold inject_session_established. apply at_self.
  destruct (IpMode.get_contactable_addr _ _); [|by apply runs_ret].
  assert (exists o, Table.get_bucket (kbuckets (service w)) (Key.from_node_id (enr_node_id enr)) = Ret o) as [o E].
  { unfold Table.get_bucket. destruct (Table.index_of _ _) as [i|] eqn:Ei; [|by eexists].
    destruct (lookup_bucket (kbuckets (service w)) i) as [bk Eb]; [apply Hw|by eapply index_of_lt|]. rewrite Eb. by eexists. }
  eapply at_bind0; [by apply (runs_lift _ _ (fun _ => True) _ E)|done|]. go.
Qed.
Hint Resolve runs_inject_session : runs.

(** ** Responses *)

Lemma runs_ban_address b addr : safe b (ban_address env addr).
Proof. unfold ban_address. go. Qed.
Hint Resolve runs_ban_address : runs.

Lemma runs_count_vote b node_id socket : safe b (count_vote env node_id socket).
Proof. unfold count_vote, update_socket. go. Qed.
Hint Resolve runs_count_vote : runs.

Lemma runs_handle_nodes b addr id a total nodes distances :
  request_body a = Rpc.FindNode distances ->
  runs b (Z.of_nat (cb_weight (callback a))) (fun _ => True) (handle_nodes env addr id a total nodes).
Proof.
  intros Hb. unfold handle_nodes. rewrite Hb. eapply runs_bind; [by apply (runs_lift _ _ (fun _ => True) distances)|].
  intros ds _. destruct (callback a) as [[c|c|c]|] eqn:Ec; [apply (runs_log b (Answered c (AnsNodes (Ok nodes))))|..];
    (eapply runs_bind_n; [apply runs_drop_callback|]); go.
Qed.

Lemma runs_handle_pong b addr a seq ip port :
  runs b (Z.of_nat (cb_weight (callback a))) (fun _ => True) (handle_pong env addr a seq ip port).
Proof.
  unfold handle_pong. destruct (callback a) as [[c|c|c]|] eqn:Ec;
    [| |apply (runs_log b (Answered c (AnsPong (Ok (mkPong seq ip port)))))|];
    (eapply runs_bind_n; [apply runs_drop_callback|]); go.
Qed.

Lemma runs_handle_talk b a response : runs b (Z.of_nat (cb_weight (callback a))) (fun _ => True) (handle_talk a response).
Proof.
  unfold handle_talk. destruct (callback a) as [[c|c|c]|] eqn:Ec;
    [| apply (runs_log b (Answered c (AnsTalk (Ok response))))| |]; apply runs_drop_callback.
Qed.

Lemma runs_handle_rpc_response b addr response : safe b (handle_rpc_response env addr response).
Proof.
  intros w Hw. unfold handle_rpc_response. cbv zeta. apply at_self.
  destruct (active_requests (service w) !! Rpc.resp_id response) as [a|] eqn:Ea; [|by apply runs_ret].
  apply (at_taken _ _ a); [done|done|]. case_decide; [go; apply runs_drop_callback|].
  destruct (negb _) eqn:Em; [apply runs_drop_callback|]. destruct (Rpc.resp_body response) as [seq ip port|total nodes|r] eqn:Er.
  - apply runs_handle_pong.
  - unfold Rpc.match_request in Em. rewrite Er in Em. destruct (request_body a) eqn:Eb; try done. by eapply runs_handle_nodes.
  - apply runs_handle_talk.
Qed.
Hint Resolve runs_handle_rpc_response : runs.

Lemma runs_rpc_failure b id error : safe b (rpc_failure env id error).
Proof.
  intros w Hw. unfold rpc_failure. apply at_self. destruct (active_requests (service w) !! id) as [a|] eqn:Ea; [|by apply runs_ret].
  apply (at_taken _ _ a); [done|done|]. destruct (callback a) as [[c|c|c]|]; cbn [answer_failure].
  - apply (runs_log b (Answered c (AnsNodes (Err error)))).
  - apply (runs_log b (Answered c (AnsTalk (Err error)))).
  - apply (runs_log b (Answered c (AnsPong (Err error)))).
  - go.
Qed.
Hint Resolve runs_rpc_failure : runs.

(** ** The loop *)

Lemma runs_maintenance b : safe b bucket_maintenance_poll.
Proof. unfold bucket_maintenance_poll. go. Qed.
Hint Resolve runs_maintenance : runs.

Lemma runs_found_enrs b peers untrusted : safe b (found_enrs env peers untrusted).
Proof. revert untrusted. induction peers as [|p peers IH]; intros untrusted; simpl; go. Qed.

Lemma runs_query_ended b q : runs b (Z.of_nat (g (SendQuery (QueryInfo.callback (QueryPool.target q))))) (fun _ => True) (query_ended env q).
Proof.
  unfold query_ended. destruct (QueryPool.query_into_result q) as [tg peers] eqn:E. injection E as <- _.
  eapply runs_bind; [apply runs_found_enrs|]. intros l _. apply (runs_log b (Answered _ (AnsQuery l))).
Qed.

(** What a poll leaves of the queries. *)
Definition polled w (qs : gmap Z Query) : Prop :=
  targets qs = targets (QueryPool.queries (queries (service w))) /\ queries_inv qs.

Definition set_queries (qs : gmap Z Query) w : W :=
  mkWorld (with_queries (QueryPool.mkPool (QueryPool.next_id (queries (service w))) (QueryPool.query_timeout (queries (service w))) qs)
             (service w)) (out w) (ticks w) (permit_ban_list w).

Lemma polled_ok b w qs i q :
  inv b w -> polled w qs -> qs !! i = Some q -> query_ok (QueryPool.next_id (queries (service w))) i q.
Proof.
  intros [_ Hq _] [Ht Hqs] Hi. destruct (Hqs i q Hi) as [Hid Hit].
  pose proof (f_equal (fun m => m !! i) Ht) as Hti. unfold targets in Hti. simpl in Hti. rewrite !lookup_fmap, Hi in Hti.
  destruct (QueryPool.queries (queries (service w)) !! i) as [q0|] eqn:E; [|done]. simpl in Hti. injection Hti as Hti.
  destruct (Hq i q0 E) as (_ & _ & Hd & Hr). unfold query_ok. by rewrite Hti.
Qed.

Lemma polled_inv b w qs : inv b w -> polled w qs -> inv b (set_queries qs w) /\ balance (set_queries qs w) = balance w.
Proof.
  intros Hw Hp. split.
  - split; [apply Hw| |apply Hw]. intros i q Hi. exact (polled_ok b w qs i q Hw Hp Hi).
  - unfold balance. simpl. by rewrite (proj1 Hp).
Qed.

Lemma polled_delete b w qs i q :
  inv b w -> polled w qs -> qs !! i = Some q ->
  inv b (set_queries (delete i qs) w) /\
  balance (set_queries (delete i qs) w) = (balance w - Z.of_nat (g (SendQuery (QueryInfo.callback (QueryPool.target q)))))%Z.
Proof.
  intros Hw Hp Hi. split.
  - split; [apply Hw| |apply Hw]. intros j q'. simpl. intros [_ Hj]%lookup_delete_Some. exact (polled_ok b w qs j q' Hw Hp Hj).
  - unfold balance. simpl. rewrite <-(proj1 Hp). unfold targets. rewrite fmap_delete.
    pose proof (msum_delete target_weight (QueryPool.target <$> qs) i) as Hm. unfold at_key in Hm. rewrite lookup_fmap, Hi in Hm.
    change (msum target_weight (delete i (QueryPool.target <$> qs)) + g (SendQuery (QueryInfo.callback (QueryPool.target q))) =
      msum target_weight (QueryPool.target <$> qs)) in Hm. lia.
Qed.

(** An operation that goes on with other queries. *)
Lemma at_set_queries b n n1 {B} (Q : B -> Prop) (m : M B) w w1 :
  inv b w1 -> balance w1 = (balance w + n1)%Z -> runs b n Q m -> n1 = (- n)%Z ->
  exists w' a, m w1 = Ret (w', a) /\ inv b w' /\ balance w' = (balance w + 0)%Z /\ Q a.
Proof.
  intros Hw1 Hb Hm ->. destruct (Hm w1 Hw1) as (w' & a & ? & ? & ? & ?). exists w', a. split_and!; [done|done|lia|done].
Qed.

Lemma runs_query_event b : safe b (query_event env).
Proof.
  unfold query_event. eapply runs_bind; [apply runs_take|]. intros t _.
  eapply (runs_bind _ _ (fun order => forall qs, iteration_order qs (order qs))); [by apply runs_take_with|]. intros order Ho.
  intros w Hw. apply at_self.
  destruct (poll_total t (order (QueryPool.queries (queries (service w)))) (queries (service w)))
    as (qs & st & Ht & Hqs & Hst); [|apply Ho|].
  { intros i q Hi. destruct Hw as [_ Hq _]. by destruct (Hq i q Hi) as (? & ? & _). }
  assert (polled w qs) as Hp by done. destruct (polled_inv b w qs Hw Hp) as [Hi Hb].
  unfold runs_at, mbind, Handler.run_bind, lift. destruct st as [|[[i peer]|]|q|q].
  - rewrite Hst. apply (at_set_queries b 0 0 _ (ret ()) w (set_queries qs w) Hi); [lia|apply runs_ret|done].
  - destruct Hst as [[q Hq] ->]. simpl. rewrite Hq. simpl.
    destruct (polled_ok b w qs i q Hw Hp Hq) as (_ & _ & Hd & _).
    destruct (rpc_request_total (QueryPool.target q) peer Hd) as [distances ->].
    apply (at_set_queries b 0 0 _ (send_rpc_query env i peer (Rpc.FindNode distances)) w (set_queries qs w) Hi); [lia|apply runs_send_rpc_query|done].
  - rewrite Hst. apply (at_set_queries b 0 0 _ (ret ()) w (set_queries qs w) Hi); [lia|apply runs_ret|done].
  - destruct Hst as [Hq ->]. destruct (polled_delete b w qs _ q Hw Hp Hq) as [Hi' Hb'].
    eapply (at_set_queries b _ _ _ (query_ended env q) w (set_queries (delete (QueryPool.id q) qs) w) Hi'); [exact Hb'|apply runs_query_ended|done].
  - destruct Hst as [Hq ->]. destruct (polled_delete b w qs _ q Hw Hp Hq) as [Hi' Hb'].
    eapply (at_set_queries b _ _ _ (query_ended env q) w (set_queries (delete (QueryPool.id q) qs) w) Hi'); [exact Hb'|apply runs_query_ended|done].
Qed.
Hint Resolve runs_query_event : runs.

Lemma runs_ping_due b : safe b (ping_due env).
Proof. unfold ping_due. go. Qed.
Hint Resolve runs_ping_due : runs.

(** The weight of the callback an event brings. *)
Definition submitted (e : SEvent Enr) : nat :=
  match e with
  | EvRequest r => match request_sender r with Some s => g s | None => 0 end
  | _ => 0
  end.

(** Other tasks insert keys of node ids. *)
Definition event_ok (e : SEvent Enr) : Prop :=
  match e with EvTable _ op => table_op_keys of_node_id op | _ => True end.

Lemma runs_handle_event b o : safe b (handle_event env o).
Proof. unfold handle_event. go. Qed.

Lemma runs_handle_request b r :
  (forall q c, r <> StartQuery q c) -> runs b (Z.of_nat (submitted (EvRequest r))) (fun _ => True) (handle_request env r).
Proof.
  intros Hr. destruct r as [q c|contact distances c|contact protocol request c|enr cb|c]; cbn [handle_request submitted].
  - by destruct (Hr q c).
  - apply (runs_send_rpc_request b (mkActive contact (Rpc.FindNode distances) None (Some (CbNodes c)))).
  - apply (runs_send_rpc_request b (mkActive contact (Rpc.Talk protocol request) None (Some (CbTalk c)))).
  - destruct cb; apply (runs_send_ping b enr).
  - go. apply (runs_log b (Answered c AnsStream)).
Qed.

Lemma at_step b w e :
  inv b w -> (b + 1 < QueryPool.USIZE_MODULUS)%Z -> event_ok e ->
  runs_at (b + 1) (Z.of_nat (submitted e)) (fun _ => True) (step env e) w.
Proof.
  intros Hw Hb He. destruct e as [r|o| | | |clock op|enr].
  1: destruct r as [[target|target num predicate] c|contact distances c|contact protocol request c|enr cb|c];
    [by apply at_start_findnode|by apply at_start_predicate|
     apply runs_handle_request; [done|]; apply (inv_mono b); [lia|done]..].
  all: cbn [step submitted]; apply (inv_mono b (b + 1)) in Hw; [|lia]; revert w Hw;
    match goal with |- forall w, inv ?b w -> runs_at ?b ?n ?Q ?m w => change (runs b n Q m) end.
  - apply runs_handle_event.
  - go.
  - go.
  - go.
  - apply runs_on_table. by apply table_op_total.
  - go.
Qed.

Lemma at_start b w events :
  inv b w -> (b + Z.of_nat (length events) < QueryPool.USIZE_MODULUS)%Z -> Forall event_ok events ->
  runs_at (b + Z.of_nat (length events)) (Z.of_nat (sum_list_with submitted events)) (fun _ => True) (start env events) w.
Proof.
  intros Hw Hb He. revert b w Hw Hb. induction He as [|e events He _ IH]; intros b w Hw Hb; simpl.
  - rewrite Z.add_0_r. by apply runs_ret.
  - simpl in Hb. eapply (at_bind (b + 1)); [by apply at_step; [|lia|]| |].
    { rewrite Nat2Z.inj_add. done. }
    intros [] w' Hw' _. replace (b + Z.of_nat (S (length events)))%Z with (b + 1 + Z.of_nat (length events))%Z by lia.
    apply IH; [done|lia].
Qed.
End Inv.
