(* ===== verification/ServiceRun.v ===== *)
(** * The properties of the service

    A service that [spawn] started runs forever, keeps the routing table and the
    queries well-formed, and resolves every callback of the user once. *)

From S2P Require Import Prelude Bytes Key Bucket Table TableProofs TableTrace FindNode QueryPool Rpc QueryInfo IpVote.
From S2P Require Import Packet NodeInfo Crypto Maps ActiveRequests Session Errors Globals Config Handler HandlerLogic.
From S2P Require Import Service ServiceNodes ServiceSample ServiceLogic ServiceInv.
Import NodeInfo Config Service.

(** ** Counting *)

Lemma sum_countb {A} (f : A -> nat) (p : A -> bool) l :
  (forall x, f x = if p x then 1 else 0) -> sum_list_with f l = countb p l.
Proof. intros Hf. induction l as [|x l IH]; simpl; [done|]. rewrite Hf, IH. by destruct (p x). Qed.

Lemma msum_size {K A} `{Countable K} (f : K -> A -> nat) (p : A -> bool) (m : gmap K A) :
  (forall k x, f k x = if p x then 1 else 0) -> msum f m = size (filter (fun kx => p kx.2 = true) m).
Proof.
  intros Hf. induction m as [|k x m Hk IH] using map_ind; [by rewrite msum_empty, map_filter_empty, map_size_empty|].
  pose proof (msum_insert f m k x) as Hm. unfold at_key in Hm. rewrite Hk, Hf in Hm.
  destruct (p x) eqn:Ep.
  - rewrite map_filter_insert_True, map_size_insert_None by (done || by apply map_lookup_filter_None; left). lia.
  - rewrite map_filter_insert_False by (simpl; congruence). rewrite delete_id by done. lia.
Qed.

Lemma msum_zero {K A} `{Countable K} (f : K -> A -> nat) (m : gmap K A) : (forall k x, f k x = 0) -> msum f m = 0.
Proof.
  intros Hf. induction m as [|k x m Hk IH] using map_ind; [apply msum_empty|].
  pose proof (msum_insert f m k x) as Hm. unfold at_key in Hm. rewrite Hk, Hf in Hm. lia.
Qed.

Section Run.
Context {Enr PS : Type} `{!EqDecision Enr} `{!K256} `{!EnrCrate Enr} `{!Packet.EnrCodec Enr} `{!EnrUpdate Enr}.
Context `{!HashSetDelay PS NodeId}.
Implicit Types (c : Channel) (s : Service Enr PS).

Definition one_query c : Sender -> nat :=
  fun x => match x with SendQuery c' => if bool_decide (c' = c) then 1 else 0 | _ => 0 end.
Definition other_channel (x : Sender) : option Channel :=
  match x with SendQuery _ => None | SendNodes c | SendTalk c | SendPong c | SendStream c => Some c end.
Definition one_other c : Sender -> nat := fun x => if bool_decide (other_channel x = Some c) then 1 else 0.

(** Events that bring the callback [c] of a query, or of another request. *)
Definition starts_query c (e : SEvent Enr) : bool :=
  match e with EvRequest (StartQuery _ c') => bool_decide (c' = c) | _ => false end.
Definition starts_request c (e : SEvent Enr) : bool :=
  match e with
  | EvRequest (FindNodeDesignated _ _ c') | EvRequest (TalkReq _ _ _ c') | EvRequest (PingReq _ (Some c'))
  | EvRequest (RequestEventStream c') => bool_decide (c' = c)
  | _ => false
  end.

(** Outputs that resolve the callback [c]. *)
Definition answers_query c (o : Output Enr) : bool :=
  match o with Answered c' (AnsQuery _) => bool_decide (c' = c) | _ => false end.
Definition ends_request c (o : Output Enr) : bool :=
  match o with
  | Answered _ (AnsQuery _) | Dropped (SendQuery _) => false
  | Answered c' _ | Dropped (SendNodes c') | Dropped (SendTalk c') | Dropped (SendPong c') | Dropped (SendStream c') =>
      bool_decide (c' = c)
  | _ => false
  end.

Definition request_holds c (a : ActiveRequest Enr) : bool :=
  match callback a with Some (CbNodes c') | Some (CbTalk c') | Some (CbPong c') => bool_decide (c' = c) | None => false end.

(** What holds the callback [c]. *)
Definition held_by_queries c s : nat :=
  size (filter (fun it => bool_decide (QueryInfo.callback it.2 = c) = true) (targets (QueryPool.queries (queries s)))).
Definition held_by_requests c s : nat := size (filter (fun ia => request_holds c ia.2 = true) (active_requests s)).

Lemma one_other_eq c x c' : other_channel x = Some c' -> one_other c x = if bool_decide (c' = c) then 1 else 0.
Proof. intros E. unfold one_other. rewrite E. repeat case_bool_decide; congruence. Qed.

Lemma balance_query c (w : World Enr PS) :
  balance (one_query c) (fun _ => 0) w = Z.of_nat (countb (answers_query c) (out w) + held_by_queries c (service w)).
Proof.
  unfold balance. rewrite (sum_countb _ (answers_query c)) by (by intros [| |c' [| | | |]|[| | | |]]).
  rewrite msum_zero by (intros id a; unfold request_weight, cb_weight; by destruct (callback a) as [[]|]).
  rewrite (msum_size _ (fun t => bool_decide (QueryInfo.callback t = c))) by done. by rewrite Nat.add_0_r.
Qed.

Lemma balance_request c (w : World Enr PS) :
  balance (one_other c) (one_other c) w = Z.of_nat (countb (ends_request c) (out w) + held_by_requests c (service w)).
Proof.
  unfold balance. rewrite (sum_countb _ (ends_request c))
    by (intros [| |c' [| | | |]|[| | | |]]; simpl; (done || by apply one_other_eq)).
  rewrite (msum_zero (target_weight (one_other c))) by done. rewrite (msum_size _ (request_holds c)); [by rewrite Nat.add_0_r|].
  intros id a. unfold request_weight, cb_weight, request_holds. destruct (callback a) as [[]|]; [by apply one_other_eq..|done].
Qed.

(** A service that was started. *)
Definition started (env : Env Enr) (events : list (SEvent Enr)) s : Prop :=
  debug_assertions env = false /\ (forall i qs, iteration_order qs (query_order env i qs)) /\
  (exists local_enr enr_key t config, Service.new local_enr enr_key t config = Ret s /\ keyed t) /\
  Forall event_ok events /\ (Z.of_nat (length events) < QueryPool.USIZE_MODULUS)%Z.

Lemma started_runs g d env events s :
  (forall cb, d (sender cb) = g (sender cb)) ->
  started env events s ->
  exists w, start env events (initial s) = Ret (w, ()) /\ inv (Z.of_nat (length events)) w /\
    balance g d w = Z.of_nat (sum_list_with (submitted g) events).
Proof.
  intros Hd (Hr & Ho & (local_enr & enr_key & t & config & Hn & Ht) & He & Hl).
  assert (inv 0 (initial s) /\ balance g d (initial s) = 0%Z) as [Hi Hb].
  { unfold Service.new in Hn. split_run. simplify_eq. split; [split; simpl; [done| |lia]|].
    - intros i q. by rewrite lookup_empty.
    - unfold balance, targets. simpl. by rewrite fmap_empty, !msum_empty. }
  destruct (at_start env Hr Ho g d Hd 0 (initial s) events Hi ltac:(lia) He) as (w & [] & E & Hi' & Hb' & _).
  exists w. split_and!; [done|done|lia].
Qed.
End Run.

(** Safety and invariant.  In a release build, a service that [spawn] started
    over a routing table with the invariant handles every sequence of requests of
    the user, messages of the handler, polls and calls of other tasks on the
    table without a panic (the [unreachable]s are not reached, the [expect]s and
    the indices hold, the loops over the table and the queries end), and leaves a
    routing table with its invariant and queries with theirs. *)
Theorem service_never_panics {Enr PS : Type} `{!EqDecision Enr} `{!K256} `{!EnrCrate Enr} `{!Packet.EnrCodec Enr}
    `{!EnrUpdate Enr} `{!HashSetDelay PS NodeId} (env : Env Enr) (events : list (SEvent Enr)) (s : Service Enr PS) :
  started env events s ->
  exists w, start env events (initial s) = Ret (w, ()) /\ table_inv (kbuckets (service w)) /\
    table_keys of_node_id (kbuckets (service w)) /\ queries_inv (QueryPool.queries (queries (service w))).
Proof.
  intros Hs. destruct (started_runs (fun _ => 0) (fun _ => 0) env events s (fun _ => eq_refl) Hs) as (w & E & [[Ht Hk] Hq _] & _).
  exists w. split_and!; [done|done|done|]. intros i q Hi. by destruct (Hq i q Hi) as (? & ? & _).
Qed.

(** Accounting.  At any time, for every callback, the queries started with it
    are those that were answered with it and those that still hold it: a query is
    answered exactly once, when it ends.  The other requests made with it are those whose callback was answered or
    dropped, and those still active: no callback is lost, and none is used
    twice. *)
Theorem service_callbacks_resolved {Enr PS : Type} `{!EqDecision Enr} `{!K256} `{!EnrCrate Enr} `{!Packet.EnrCodec Enr}
    `{!EnrUpdate Enr} `{!HashSetDelay PS NodeId} (env : Env Enr) (events : list (SEvent Enr)) (s : Service Enr PS) (c : Channel) :
  started env events s ->
  exists w, start env events (initial s) = Ret (w, ()) /\
    countb (starts_query c) events = countb (answers_query c) (out w) + held_by_queries c (service w) /\
    countb (starts_request c) events = countb (ends_request c) (out w) + held_by_requests c (service w).
Proof.
  intros Hs. destruct (started_runs (one_query c) (fun _ => 0) env events s ltac:(by intros []) Hs) as (w & E & _ & Hq).
  destruct (started_runs (one_other c) (one_other c) env events s (fun _ => eq_refl) Hs) as (w' & E' & _ & Hr). rewrite E in E'. injection E' as <-.
  exists w. split; [done|]. rewrite balance_query in Hq. rewrite balance_request in Hr.
  rewrite (sum_countb _ (starts_query c)) in Hq
    by (intros [[| | |? []|]| | | | | |]; reflexivity).
  rewrite (sum_countb _ (starts_request c)) in Hr
    by (intros [[| | |? []|]| | | | | |]; try reflexivity; by apply one_other_eq). lia.
Qed.

Import ServiceSample.

(** Requests of the user and messages of the handler for the sample service. *)
Definition sample_events : list (SEvent (list byte)) :=
  [EvHandler (Handler.OutEstablished [x02; x05; x02] (SockV4 (mkSocketAddrV4 [# x7f; x00; x00; x02] 9000)) Outgoing);
   EvRequest (StartQuery (KindFindNode (vreplicate 32 x07)) 3);
   EvQuery;
   EvRequest (TalkReq (mkContact (PubSecp256k1 x02) (SockV4 (mkSocketAddrV4 [# x7f; x00; x00; x02] 9000)) None) [x01] [x02] 4);
   EvHandler (Handler.OutRequestFailed [x0a] Errors.Timeout);
   EvPing; EvBucketMaintenance].

Lemma sample_started s : sample_service = Ret s -> started sample_env sample_events s.
Proof.
  intros Hs. split; [done|]. split; [by intros; unfold iteration_order|]. split; [|split; [by repeat constructor|done]]. unfold sample_service in Hs. split_run.
  eexists _, _, _, _. split; [exact Hs|]. split; [apply new_inv|apply new_keys].
Qed.

Lemma service_never_panics_witness :
  match sample_service with
  | Ret s => exists w, start sample_env sample_events (initial s) = Ret (w, ()) /\ table_inv (kbuckets (service w))
  | Panic => False
  end.
Proof.
  destruct sample_service as [s|] eqn:Es; [|vm_compute in Es; discriminate].
  destruct (service_never_panics sample_env sample_events s (sample_started s Es)) as (w & E & Ht & _).
  exists w. split; [exact E|exact Ht].
Defined.

Lemma service_callbacks_resolved_witness :
  match sample_service with
  | Ret s => exists w, start sample_env sample_events (initial s) = Ret (w, ()) /\
      1 = countb (answers_query 3) (out w) + held_by_queries 3 (service w)
  | Panic => False
  end.
Proof.
  destruct sample_service as [s|] eqn:Es; [|vm_compute in Es; discriminate].
  destruct (service_callbacks_resolved sample_env sample_events s 3 (sample_started s Es)) as (w & E & Hq & _).
  exists w. split; [exact E|exact Hq].
Defined.
