(* ===== verification/ServiceLive.v ===== *)
(** * Every query is answered

    The polls of the queries alone, with no message from the network, end every
    query: once its time is over, a poll either contacts one of its remaining
    peers, of which there are finitely many, or ends it.  So each [find_node] of
    the user is answered, whatever the network does not answer. *)

From S2P Require Import Prelude Bytes Key BTree FindNode FindNodeProofs FindNodeTrace QueryLive Predicate PredicateProofs.
From S2P Require Import Bucket Table TableProofs TableTrace QueryPool Rpc QueryInfo IpVote Packet NodeInfo Crypto.
From S2P Require Import Maps ActiveRequests Session Errors Globals Config Handler HandlerLogic.
From S2P Require Import Service ServiceNodes ServiceSample ServiceLogic ServiceInv ServiceRun.

(** ** The peers a query has still to contact *)

#[export] Instance peer_state_eq_dec : EqDecision FindNode.QueryPeerState.
Proof. solve_decision. Defined.

Section Left.
Context {N R : Type} `{IntoKeyLaw N}.
Import BTree.
Implicit Types (m : BTreeMap (FindNode.QueryPeer N)) (it : QueryPool.QueryPeerIter N R).

Definition idle m : BTreeMap (FindNode.QueryPeer N) := filter (fun e => FindNode.state e.2 = FindNode.NotContacted) m.
Definition left_of it : nat := length (idle (FindNode.closest_peers (iter_erase it))).

Lemma idle_key m d : d ∈ (idle m).*1 <-> exists p, (d, p) ∈ m /\ FindNode.state p = FindNode.NotContacted.
Proof.
  unfold idle. rewrite list_elem_of_fmap. split.
  - intros ([d' p] & -> & [Hp Hin]%list_elem_of_filter). eauto.
  - intros (p & Hin & Hp). exists (d, p). split; [done|]. by apply list_elem_of_filter.
Qed.

Lemma idle_NoDup m : sorted m -> NoDup (idle m).*1.
Proof.
  intros Hs. apply (sublist_NoDup _ (keys m)); [by apply sorted_NoDup|]. apply fmap_sublist, sublist_filter.
Qed.

(** No peer goes back to not being contacted. *)
Lemma evolves_idle m m' : sorted m' -> keys m' = keys m -> evolves m m' -> (idle m').*1 ⊆ (idle m).*1.
Proof.
  intros Hs Hk He d (p' & Hin' & Hp')%idle_key. apply idle_key.
  assert (d ∈ keys m) as [p Hin]%elem_of_keys by (rewrite <-Hk; apply elem_of_keys; eauto).
  exists p. split; [done|]. destruct (He d p Hin) as (p1 & Hin1 & _ & Hc & _).
  rewrite <-get_elem in Hin', Hin1 by done. assert (p1 = p') as -> by congruence.
  destruct (decide (FindNode.state p = FindNode.NotContacted)) as [|Hn]; [done|]. by destruct (Hc Hn).
Qed.

Lemma evolves_left m m' :
  sorted m' -> keys m' = keys m -> evolves m m' -> length (idle m') <= length (idle m).
Proof.
  intros Hs Hk He. rewrite <-!(length_fmap fst). apply submseteq_length, NoDup_submseteq; [by apply idle_NoDup|].
  by apply evolves_idle.
Qed.

Lemma contact_left m m' d p p' :
  sorted m' -> keys m' = keys m -> evolves m m' ->
  (d, p) ∈ m -> FindNode.state p = FindNode.NotContacted -> (d, p') ∈ m' -> FindNode.state p' <> FindNode.NotContacted ->
  length (idle m') < length (idle m).
Proof.
  intros Hs Hk He Hin Hp Hin' Hp'. rewrite <-!(length_fmap fst).
  change (length (d :: (idle m').*1) <= length (idle m).*1). apply submseteq_length, NoDup_submseteq.
  - constructor; [|by apply idle_NoDup]. intros (p1 & Hin1 & Hp1)%idle_key.
    rewrite <-get_elem in Hin', Hin1 by done. congruence.
  - intros x [->|Hx]%elem_of_cons; [|by eapply evolves_idle]. apply idle_key. eauto.
Qed.

Lemma pscan_keys now cfg at_cap cnt nw (m m' : BTreeMap (Predicate.QueryPeer N)) nw' r :
  Predicate.scan now cfg at_cap cnt nw m = Ret (m', nw', r) -> keys m' = keys m.
Proof.
  revert cnt nw m' nw' r. induction m as [|[d p] m IH]; intros cnt nw m' nw' r E; simpl in E; [by simplify_eq|].
  repeat case_match; split_run; simplify_eq; try done;
    match goal with E' : Predicate.scan _ _ _ _ _ m = _ |- _ => apply IH in E' end; unfold keys in *; csimpl; congruence.
Qed.

Lemma pnext_keys now (q q' : Predicate.PredicateQuery N R) st :
  Predicate.next now q = Ret (q', st) -> keys (Predicate.closest_peers q') = keys (Predicate.closest_peers q).
Proof.
  unfold Predicate.next. destruct (Predicate.progress q); intros E; try (by simplify_eq);
    split_run; repeat case_match; simplify_eq; simpl; by eapply pscan_keys.
Qed.

Lemma pfailure_keys (q q' : Predicate.PredicateQuery N R) n :
  Predicate.on_failure q n = Ret q' -> keys (Predicate.closest_peers q') = keys (Predicate.closest_peers q).
Proof.
  unfold Predicate.on_failure. intros E. repeat case_match; split_run; simplify_eq; simpl; by rewrite ?keys_update.
Qed.
End Left.

Section Queries.
Context {G N R : Type} `{QueryPool.TargetKey G N} `{IntoKeyLaw N}.
Implicit Types (q : QueryPool.Query G N R) (qs : gmap Z (QueryPool.Query G N R)) (it : QueryPool.QueryPeerIter N R).

Lemma step_left (q q' : FindNode.FindNodeQuery N) :
  BTree.keys (FindNode.closest_peers q') = BTree.keys (FindNode.closest_peers q) -> step_base q q' ->
  length (idle (FindNode.closest_peers q')) <= length (idle (FindNode.closest_peers q)) /\
  forall n, FindNodeTrace.contacts q q' n ->
    length (idle (FindNode.closest_peers q')) < length (idle (FindNode.closest_peers q)).
Proof.
  intros Hk (Hb & _ & _ & He). split; [by apply evolves_left; [apply Hb|..]|].
  intros n (p & p' & Hin & Hp & Hin' & Hp'). eapply contact_left; [apply Hb|done..].
Qed.

Lemma query_next_left now q q' st :
  iter_inv (QueryPool.peer_iter q) -> QueryPool.query_next now q = Ret (q', st) ->
  left_of (QueryPool.peer_iter q') <= left_of (QueryPool.peer_iter q) /\
  forall n, st = FindNode.QWaiting (Some n) ->
    left_of (QueryPool.peer_iter q') < left_of (QueryPool.peer_iter q).
Proof.
  intros Hi E. destruct (query_next_ok now q Hi) as (q1 & st1 & E1 & _ & _ & _ & _ & _ & Hc).
  rewrite E in E1. injection E1 as <- <-.
  assert (step_base (iter_erase (QueryPool.peer_iter q)) (iter_erase (QueryPool.peer_iter q')) /\
    BTree.keys (FindNode.closest_peers (iter_erase (QueryPool.peer_iter q'))) =
    BTree.keys (FindNode.closest_peers (iter_erase (QueryPool.peer_iter q)))) as [Hs Hk].
  { unfold QueryPool.query_next in E. destruct (QueryPool.peer_iter q) as [fq|pq]; simpl in Hi.
    - destruct (next_ok now fq Hi) as (fq' & st' & En & [Hs _] & _). rewrite En in E. injection E as <- <-.
      split; [done|]. by destruct (Lookup.next_ranks now fq fq' st' Hi En) as (_ & ? & _).
    - destruct (next_pok now pq Hi) as (pq' & st' & En & [Hs _] & _). rewrite En in E. injection E as <- <-.
      split; [done|]. simpl. rewrite !keys_erase. by eapply pnext_keys. }
  destruct (step_left _ _ Hk Hs) as [Hle Hlt]. split; [exact Hle|]. intros n ->. by apply (Hlt n), Hc.
Qed.

Lemma query_failure_left q q' (peer : N) :
  iter_inv (QueryPool.peer_iter q) -> QueryPool.on_failure q peer = Ret q' ->
  left_of (QueryPool.peer_iter q') <= left_of (QueryPool.peer_iter q) /\ QueryPool.started q' = QueryPool.started q.
Proof.
  intros Hi E. unfold QueryPool.on_failure in E. destruct (QueryPool.peer_iter q) as [fq|pq]; simpl in Hi.
  - destruct (on_failure_ok fq peer Hi) as (fq' & En & [Hs _]). rewrite En in E. injection E as <-. split; [|done].
    apply (step_left fq fq'); [|done].
    apply Lookup.on_failure_shape in En as [[-> _]|(p & _ & _ & ->)]; [done|]. by rewrite BTree.keys_update.
  - destruct (on_failure_pok pq peer Hi) as (pq' & En & [Hs _]). rewrite En in E. injection E as <-. split; [|done].
    apply (step_left (erase pq) (erase pq')); [|done]. simpl. rewrite !keys_erase. by eapply pfailure_keys.
Qed.

(** The polls a query can take: one to start, one per peer, one to end. *)
Definition query_work (_ : Z) q : nat :=
  match QueryPool.started q with None => 2 | Some _ => 1 end + left_of (QueryPool.peer_iter q).

Definition overdue (now timeout : Z) q : Prop :=
  match QueryPool.started q with Some t => (t + timeout <= now)%Z | None => True end.

(** The queries of [qs'] were there before, and have not been started since. *)
Definition keeps_started qs qs' : Prop :=
  forall i q', qs' !! i = Some q' -> exists q, qs !! i = Some q /\ QueryPool.started q' = QueryPool.started q.

(** Less is left to do, or the same with no query started. *)
Definition goes_on qs qs' : Prop :=
  msum query_work qs' < msum query_work qs \/ (msum query_work qs' <= msum query_work qs /\ keeps_started qs qs').

Lemma keeps_started_refl qs : keeps_started qs qs.
Proof. intros i q Hq. eauto. Qed.

Lemma goes_on_refl qs : goes_on qs qs.
Proof. right. split; [done|apply keeps_started_refl]. Qed.

Lemma goes_on_trans qs1 qs2 qs3 : goes_on qs1 qs2 -> goes_on qs2 qs3 -> goes_on qs1 qs3.
Proof.
  intros [L1|[L1 K1]] [L2|[L2 K2]]; [left; lia..|]. right. split; [lia|].
  intros i q3 (q2 & (q1 & Hq1 & E1)%K1 & E2)%K2. exists q1. split; [done|congruence].
Qed.

(** One query of a poll. *)
Lemma poll_query now timeout i q :
  iter_inv (QueryPool.peer_iter q) ->
  exists q2 st,
    QueryPool.query_next now (QueryPool.mkQuery (QueryPool.id q) (QueryPool.peer_iter q)
      (Some (stdpp.option.default now (QueryPool.started q))) (QueryPool.target q)) = Ret (q2, st) /\
    iter_inv (QueryPool.peer_iter q2) /\ QueryPool.id q2 = QueryPool.id q /\
    QueryPool.started q2 = Some (stdpp.option.default now (QueryPool.started q)) /\
    0 < query_work i q2 <= query_work i q /\
    (QueryPool.started q = None -> query_work i q2 < query_work i q) /\
    (forall n, st = FindNode.QWaiting (Some n) -> query_work i q2 < query_work i q) /\
    (overdue now timeout q -> (QueryPool.elapsed now q2 < timeout)%Z -> query_work i q2 < query_work i q).
Proof.
  intros Hit. match goal with |- context [QueryPool.query_next now ?x] => set (q1 := x) end.
  destruct (query_next_ok now q1 Hit) as (q2 & st & En & Hit2 & Hid2 & Hst2 & _).
  destruct (query_next_left now q1 q2 st Hit En) as [Hle Hlt]. exists q2, st.
  unfold query_work, QueryPool.elapsed, overdue in *. rewrite Hst2. simpl in *.
  split_and!; [done..|lia|destruct (QueryPool.started q); lia| | |].
  - intros ->. lia.
  - intros n Hn. specialize (Hlt n Hn). destruct (QueryPool.started q); lia.
  - destruct (QueryPool.started q); simpl; lia.
Qed.

(** The queries that a poll leaves in the pool. *)
Definition left_by (ev : QueryPool.poll_event (N := N)) qs : gmap Z (QueryPool.Query G N R) :=
  match ev with QueryPool.EvFinished i | QueryPool.EvTimeout i => delete i qs | _ => qs end.

(** A poll goes on; with every query overdue and one in the pool there is less to do. *)
Lemma poll_loop_work now timeout qs order qs' ev :
  queries_inv qs -> NoDup order -> QueryPool.poll_loop now timeout qs order = Ret (qs', ev) ->
  goes_on qs (left_by ev qs') /\
  ((forall i q, i ∈ order -> qs !! i = Some q -> overdue now timeout q) -> order <> [] ->
   msum query_work (left_by ev qs') < msum query_work qs).
Proof.
  revert qs. induction order as [|i order IH]; intros qs Hinv Hnd E; simpl in E.
  { injection E as <- <-. split; [apply goes_on_refl|done]. }
  apply NoDup_cons in Hnd as [Hni Hnd].
  destruct (qs !! i) as [q|] eqn:Eq; [|done]. simpl in E. destruct (Hinv i q Eq) as [Hid Hit].
  destruct (poll_query now timeout i q Hit) as (q2 & st & En & Hit2 & Hid2 & Hst2 & Hw & Hw0 & Hw1 & Hw2).
  rewrite En in E. cbn [mbind outcome_bind] in E.
  pose proof (msum_insert query_work qs i q2) as Hm. unfold at_key in Hm. rewrite Eq in Hm.
  pose proof (msum_delete query_work (<[i := q2]> qs) i) as Hd. unfold at_key in Hd. rewrite lookup_insert_eq in Hd.
  assert (goes_on qs (<[i := q2]> qs)) as Hone.
  { destruct (QueryPool.started q) as [t|] eqn:Es; [|left; specialize (Hw0 eq_refl); lia]. right. split; [lia|].
    intros j q' [[<- <-]|[_ Hj]]%lookup_insert_Some; [|by eauto]. exists q. split; [done|]. by rewrite Hst2, Es. }
  assert (QueryPool.poll_loop now timeout (<[i := q2]> qs) order = Ret (qs', ev) -> goes_on qs (left_by ev qs') /\
    (query_work i q2 < query_work i q -> msum query_work (left_by ev qs') < msum query_work qs)) as Hgo.
  { intros E'. destruct (IH (<[i := q2]> qs)) as [Hs _]; [|exact Hnd|exact E'|].
    - intros j q' [[<- <-]|[_ Hj]]%lookup_insert_Some; [|by apply Hinv]. split; [congruence|done].
    - split; [by eapply goes_on_trans|]. intros Hlt. destruct Hs as [|[? _]]; lia. }
  assert (goes_on qs (delete i (<[i := q2]> qs)) /\ msum query_work (delete i (<[i := q2]> qs)) < msum query_work qs) as [Hdel Hdlt]
    by (split; [left|]; lia).
  destruct st as [[n|]| |]; [|case_decide as Ht|case_decide as Ht|]; try (injection E as <- <-; by split).
  - injection E as <- <-. split; [done|]. intros _ _. specialize (Hw1 n eq_refl). simpl. lia.
  - destruct (Hgo E) as [? Hlt]. split; [done|]. intros Hdue _. apply Hlt, Hw2; [|lia]. apply (Hdue i q); [left|done].
  - destruct (Hgo E) as [? Hlt]. split; [done|]. intros Hdue _. apply Hlt, Hw2; [|lia]. apply (Hdue i q); [left|done].
Qed.
End Queries.

(** ** The service *)

Import NodeInfo Config Service.

Section Live.
Context {Enr PS : Type} `{!EqDecision Enr} `{!K256} `{!EnrCrate Enr} `{!Packet.EnrCodec Enr} `{!EnrUpdate Enr}.
Context `{!HashSetDelay PS NodeId}.
Variable env : Env Enr.
Notation W := (World Enr PS).
Notation M := (Handler.Run W).
Notation Query := (QueryPool.Query (QueryInfo.QueryInfo Enr) NodeId Enr).
Implicit Types (w : W) (qs : gmap Z Query).

Definition pool_of w : gmap Z Query := QueryPool.queries (queries (service w)).
Definition timeout_of w : Z := QueryPool.query_timeout (queries (service w)).

(** The polls that can still be needed. *)
Definition work w : nat := msum query_work (pool_of w).

(** The time of every query that runs is over by [t]. *)
Definition over_by (t : Z) w : Prop := forall i q, pool_of w !! i = Some q -> overdue t (timeout_of w) q.

(** The rest of an event: it needs no more polls than before. *)
Definition eases w w' : Prop :=
  timeout_of w' = timeout_of w /\ ticks w <= ticks w' /\ work w' <= work w /\ keeps_started (pool_of w) (pool_of w').

Definition easy {A} (m : M A) : Prop := forall w w' a, m w = Ret (w', a) -> eases w w'.

#[export] Instance eases_refl : Reflexive eases.
Proof. intros w. split_and!; [done..|]. apply keeps_started_refl. Qed.
#[export] Instance eases_trans : Transitive eases.
Proof.
  intros w1 w2 w3 (E1 & T1 & K1 & S1) (E2 & T2 & K2 & S2). split_and!; [congruence|lia..|].
  intros i q3 (q2 & (q1 & Hq1 & Es1)%S1 & Es2)%S2. exists q1. split; [done|congruence].
Qed.

Lemma easy_ret {A} (a : A) : easy (Handler.run_ret a).
Proof. by intros w w' a' [= <- <-]. Qed.
Lemma run_bind_inv {A B} (m : M A) (k : A -> M B) w w' b :
  (m ≫= k) w = Ret (w', b) -> exists w1 a, m w = Ret (w1, a) /\ k a w1 = Ret (w', b).
Proof. unfold mbind, Handler.run_bind. destruct (m w) as [[w1 a]|]; [|done]. eauto. Qed.
Lemma easy_bind {A B} (m : M A) (k : A -> M B) : easy m -> (forall a, easy (k a)) -> easy (m ≫= k).
Proof. intros Hm Hk w w' b (w1 & a & E1 & E2)%run_bind_inv. etransitivity; [by eapply Hm|by eapply Hk]. Qed.
Lemma lift_inv {A} (m : outcome A) w w' a : lift m w = Ret (w', a) -> w' = w /\ m = Ret a.
Proof. unfold lift. destruct m; [|done]. by intros [= <- <-]. Qed.
Lemma easy_lift {A} (m : outcome A) : easy (lift m).
Proof. by intros w w' a [-> _]%lift_inv. Qed.
Lemma easy_self : easy self.
Proof. by intros w w' a [= <- _]. Qed.
Lemma easy_take {A} (f : nat -> A) : easy (take f).
Proof. intros w w' a [= <- _]. split_and!; simpl; [done|lia|done|]. apply keeps_started_refl. Qed.
Lemma easy_log o : easy (log o).
Proof. intros w w' a [= <- _]. split_and!; simpl; [done|lia|done|]. apply keeps_started_refl. Qed.
Lemma easy_modify f : (forall s, queries (f s) = queries s) -> easy (modify f).
Proof.
  intros Hf w w' a [= <- _]. unfold eases, work, pool_of, timeout_of. simpl. rewrite Hf. split_and!; [done..|]. apply keeps_started_refl.
Qed.
End Live.

Create HintDb easy discriminated.
#[export] Hint Resolve easy_ret easy_lift easy_self easy_take easy_log : easy.

(** Goes through the operations of a program. *)
Ltac ease :=
  repeat (intros; cbv beta zeta;
    lazymatch goal with
    | |- easy (mbind _ _) => apply easy_bind; [|intros]
    | |- easy (match ?x with _ => _ end) => destruct x eqn:?
    | |- easy (modify _) => by apply easy_modify
    | |- easy _ => solve [eauto 3 with easy nocore]
    end).

Section Drain.
Context {Enr PS : Type} `{!EqDecision Enr} `{!K256} `{!EnrCrate Enr} `{!Packet.EnrCodec Enr} `{!EnrUpdate Enr}.
Context `{!HashSetDelay PS NodeId}.
Variable env : Env Enr.
Notation W := (World Enr PS).
Notation M := (Handler.Run W).
Notation Query := (QueryPool.Query (QueryInfo.QueryInfo Enr) NodeId Enr).
Implicit Types (w : W) (qs : gmap Z Query).

Lemma easy_find_enr node_id : easy (PS := PS) (find_enr env node_id).
Proof. unfold find_enr, present_record, Service.entry, on_table. ease. Qed.
Hint Resolve easy_find_enr : easy.

Lemma easy_send_rpc_request a : easy (PS := PS) (send_rpc_request env a).
Proof. unfold send_rpc_request, send_handler, insert_active, drop_callback. ease. Qed.
Hint Resolve easy_send_rpc_request : easy.

Lemma easy_found_enrs peers untrusted : easy (PS := PS) (found_enrs env peers untrusted).
Proof. revert untrusted. induction peers as [|p peers IH]; intros untrusted; simpl; ease; apply IH. Qed.
Hint Resolve easy_found_enrs : easy.

Lemma easy_query_ended q : easy (PS := PS) (query_ended env q).
Proof. unfold query_ended. ease. Qed.

(** A peer that cannot be contacted is a failure of the query. *)
Lemma query_failure_eases b w w' i peer :
  inv b w -> on_query i (fun q => QueryPool.on_failure q peer) w = Ret (w', ()) -> eases w w'.
Proof.
  intros [_ Hq _] E. unfold on_query, QueryPool.get_mut in E. apply run_bind_inv in E as (w1 & s & [= <- <-] & E).
  destruct (QueryPool.queries (queries (service w)) !! i) as [q|] eqn:Ei; [|by injection E as <-].
  destruct (Hq i q Ei) as (_ & Hit & _). destruct (query_on_failure_total q peer Hit) as (q' & Ef & _).
  rewrite Ef in E. injection E as <-. destruct (query_failure_left q q' peer Hit Ef) as [Hl Hs].
  unfold eases, work, timeout_of, pool_of. simpl. split_and!; [done..| |].
  - pose proof (msum_insert query_work (QueryPool.queries (queries (service w))) i q') as Hm. unfold at_key in Hm.
    rewrite Ei in Hm. assert (query_work i q' <= query_work i q) by (unfold query_work; rewrite Hs; lia). lia.
  - intros j q1 [[<- <-]|[_ Hj]]%lookup_insert_Some; eauto.
Qed.

Lemma send_query_eases b w w' i peer body :
  inv b w -> send_rpc_query env i peer body w = Ret (w', ()) -> eases w w'.
Proof.
  intros Hw E. unfold send_rpc_query in E. apply run_bind_inv in E as (w1 & r & E1 & E).
  destruct (runs_find_enr env (fun _ => 0) (fun _ => 0) b peer w Hw) as (w2 & r2 & E2 & Hw1 & _). rewrite E1 in E2. injection E2 as <- <-.
  apply easy_find_enr in E1. etransitivity; [exact E1|]. apply run_bind_inv in E as (w2 & s & [= <- <-] & E).
  destruct (_ ≫= _); [by eapply easy_send_rpc_request|by eapply query_failure_eases].
Qed.

(** What a poll leaves. *)
Lemma poll_work t order (pool pool' : QueryPool.QueryPool (QueryInfo.QueryInfo Enr) NodeId Enr) st :
  queries_inv (QueryPool.queries pool) -> iteration_order (QueryPool.queries pool) order ->
  QueryPool.poll t order pool = Ret (pool', st) ->
  QueryPool.query_timeout pool' = QueryPool.query_timeout pool /\
  goes_on (QueryPool.queries pool) (QueryPool.queries pool') /\
  ((forall i q, QueryPool.queries pool !! i = Some q -> overdue t (QueryPool.query_timeout pool) q) -> QueryPool.queries pool <> ∅ ->
   msum query_work (QueryPool.queries pool') < msum query_work (QueryPool.queries pool)).
Proof.
  intros Hinv Hord E. pose proof (iteration_order_spec _ _ Hord) as [Hnd Hdom]. unfold QueryPool.poll in E.
  apply bind_ret_inv in E as ([qs ev] & El & E).
  destruct (poll_loop_work _ _ _ _ _ _ Hinv Hnd El) as [Hs Hw].
  assert (QueryPool.queries pool <> ∅ -> order <> []) as Hne.
  { intros Hne ->. apply Hne, map_empty. intros i. apply eq_None_not_Some. rewrite <-Hdom. set_solver. }
  assert ((forall i q, QueryPool.queries pool !! i = Some q -> overdue t (QueryPool.query_timeout pool) q) -> QueryPool.queries pool <> ∅ ->
    msum query_work (left_by ev qs) < msum query_work (QueryPool.queries pool)) as Hlt
    by (intros Hdue ?; apply Hw; [intros i q _; apply Hdue|by apply Hne]).
  destruct ev as [|i|i n|i]; [case_decide| | |]; split_run; simplify_eq; simpl in *; by split_and!.
Qed.

(** The world after the poll of a query event. *)
Lemma polled_pool b w t order pool i peer :
  inv b w -> iteration_order (pool_of w) order ->
  QueryPool.poll t order (queries (service w)) = Ret (pool, QueryPool.PoolWaiting (Some (i, peer))) ->
  pool = QueryPool.mkPool (QueryPool.next_id (queries (service w))) (timeout_of w) (QueryPool.queries pool) /\
  polled w (QueryPool.queries pool).
Proof.
  intros Hw Ho E. destruct (poll_total t order (queries (service w))) as (qs & st & Ht & Hqs & Hst); [|done|].
  { intros j q Hj. destruct Hw as [_ Hq _]. by destruct (Hq j q Hj) as (? & ? & _). }
  destruct st as [|[[j p]|]|q|q]; simpl in Hst; try (match type of Hst with _ /\ _ => apply proj2 in Hst end);
    rewrite E in Hst; simplify_eq. done.
Qed.

Lemma query_event_work b w w' :
  (forall n qs, iteration_order qs (query_order env n qs)) ->
  inv b w -> query_event env w = Ret (w', ()) ->
  timeout_of w' = timeout_of w /\ ticks w < ticks w' /\
  (work w' < work w \/ (work w' <= work w /\ keeps_started (pool_of w) (pool_of w'))) /\
  (over_by (now env (ticks w)) w -> pool_of w <> ∅ -> work w' < work w).
Proof.
  intros Ho Hw E. unfold query_event in E.
  apply run_bind_inv in E as (w1 & t & [= <- <-] & E). apply run_bind_inv in E as (w1 & order & [= <- <-] & E).
  apply run_bind_inv in E as (w1 & s & [= <- <-] & E). simpl in E.
  apply run_bind_inv in E as (w1 & [pool st] & E1 & E). unfold lift in E1.
  destruct (QueryPool.poll _ _ _) as [[pool1 st1]|] eqn:Ep; [|done]. injection E1 as <- <- <-.
  apply run_bind_inv in E as (w1 & [] & Em & E).
  destruct (poll_work _ _ _ _ _ ltac:(intros i q Hi; by destruct (inv_queries _ _ Hw i q Hi) as (? & ? & _))
    (Ho _ _) Ep) as (Et & Hs & Hlt).
  assert (timeout_of w1 = timeout_of w /\ pool_of w1 = QueryPool.queries pool1 /\ S (ticks w) < ticks w1) as (Et1 & Ep1 & Htk)
    by (injection Em as <-; by simpl; split_and!; [..|lia]).
  assert (eases w1 w') as (Et2 & Htk2 & Hw2 & Hs2).
  { destruct st1 as [|[[i peer]|]|q|q]; try (by injection E as <-); try (by eapply easy_query_ended).
    apply run_bind_inv in E as (w2 & q & [-> _]%lift_inv & E). apply run_bind_inv in E as (w3 & body & [-> _]%lift_inv & E).
    apply (send_query_eases b) in E; [done|]. destruct (polled_pool b w _ _ _ _ _ Hw (Ho _ _) Ep) as [Epool Hp].
    rewrite Epool in Em. injection Em as <-.
    apply (polled_inv (fun _ => 0) (fun _ => 0) b (mkWorld (service w) (out w) (S (S (ticks w))) (permit_ban_list w))); [|done].
    by destruct Hw; split. }
  unfold work in *. rewrite Ep1 in Hw2, Hs2. split_and!; [congruence|lia| |].
  - destruct (goes_on_trans (pool_of w) (QueryPool.queries pool1) (pool_of w')) as [|[? ?]]; [done|by right|by left|by right].
  - intros Hdue Hne. specialize (Hlt Hdue Hne). unfold pool_of at 2. lia.
Qed.

(** The queries that run are over at some time. *)
Lemma over_exists w : exists t, over_by t w.
Proof.
  unfold over_by. generalize (timeout_of w) as timeout. generalize (pool_of w) as qs. intros qs timeout.
  induction qs as [|i q qs Hi [t IH]] using map_ind; [exists 0%Z; intros i q; by rewrite lookup_empty|].
  exists (Z.max t (stdpp.option.default 0%Z (QueryPool.started q) + timeout)). intros j q' [[<- <-]|[_ Hj]]%lookup_insert_Some.
  - unfold overdue. destruct (QueryPool.started q); simpl; [lia|done].
  - specialize (IH j q' Hj). unfold overdue in *. destruct (QueryPool.started q'); [lia|done].
Qed.

Lemma over_later t t' w : (t <= t')%Z -> over_by t w -> over_by t' w.
Proof. intros Ht Ho i q Hq. specialize (Ho i q Hq). unfold overdue in *. destruct (QueryPool.started q); [lia|done]. Qed.

Lemma over_kept t w w' : timeout_of w' = timeout_of w -> keeps_started (pool_of w) (pool_of w') -> over_by t w -> over_by t w'.
Proof. intros Et Hk Ho i q' (q & Hq & Es)%Hk. specialize (Ho i q Hq). unfold overdue in *. by rewrite Es, Et. Qed.

(** What polls keep. *)
Definition polls_to b w n w' : Prop :=
  start env (replicate n EvQuery) w = Ret (w', ()) /\ inv b w' /\
  forall g d, (forall cb, d (sender cb) = g (sender cb)) -> balance g d w' = balance g d w.

Lemma polls_refl b w : inv b w -> polls_to b w 0 w.
Proof. intros Hw. unfold polls_to. by split_and!. Qed.

Lemma polls_step b w w1 n w' :
  (forall n qs, iteration_order qs (query_order env n qs)) -> inv b w ->
  query_event env w = Ret (w1, ()) -> polls_to b w1 n w' -> polls_to b w (S n) w'.
Proof.
  intros Ho Hw E (E' & Hw' & Hb). unfold polls_to. split_and!; [|done|].
  - change ((query_event env ≫= fun _ => start env (replicate n EvQuery)) w = Ret (w', ())). unfold mbind, Handler.run_bind. by rewrite E.
  - intros g d Hd. rewrite (Hb g d Hd).
    destruct (runs_query_event env Ho g d Hd b w Hw) as (w2 & [] & E2 & _ & Hb2 & _). rewrite E in E2. simplify_eq. lia.
Qed.

Lemma polls_trans b w n w1 m w2 : polls_to b w n w1 -> polls_to b w1 m w2 -> polls_to b w (n + m) w2.
Proof.
  intros (E1 & _ & Hb1) (E2 & Hw2 & Hb2). unfold polls_to. split_and!; [|done|intros g d Hd; by rewrite (Hb2 g d Hd), (Hb1 g d Hd)].
  clear Hb1 Hb2 Hw2. revert w E1. induction n as [|n IH]; intros w; simpl; [by intros [= <-]|]. unfold start in *. simpl.
  unfold mbind, Handler.run_bind. destruct (query_event env w) as [[w3 []]|]; [|done]. apply IH.
Qed.

(** While the clock does not stop, there is less to do after some polls. *)
Lemma drain_some b w t k :
  (forall n qs, iteration_order qs (query_order env n qs)) -> (forall m, k <= m -> (t <= now env m)%Z) ->
  inv b w -> over_by t w -> pool_of w <> ∅ ->
  exists n w', polls_to b w n w' /\ work w' < work w.
Proof.
  intros Ho Hk. remember (k - ticks w) as f eqn:Ef. revert w Ef. induction (lt_wf f) as [f _ IH]. intros w -> Hw Hov Hne.
  destruct (runs_query_event env Ho (fun _ => 0) (fun _ => 0) (fun _ => eq_refl) b w Hw) as (w1 & [] & E & Hw1 & _).
  destruct (query_event_work b w w1 Ho Hw E) as (Et & Htk & Hgo & Hlt).
  destruct (decide (work w1 < work w)) as [Hl|Hl].
  { exists 1, w1. split; [|done]. eapply polls_step; [done|done|exact E|by apply polls_refl]. }
  destruct Hgo as [?|[Hle Hks]]; [lia|]. destruct (decide (k <= ticks w)) as [Hkt|Hkt].
  { exfalso. apply Hl, Hlt; [|done]. by eapply over_later; [apply Hk|]. }
  assert (pool_of w1 <> ∅) as Hne1.
  { intros He. apply Hl. unfold work. rewrite He, msum_empty. destruct (map_choose (pool_of w) Hne) as (i & q & Hi).
    pose proof (msum_delete query_work (pool_of w) i) as Hd. unfold at_key in Hd. rewrite Hi in Hd. unfold query_work in Hd at 2.
    destruct (QueryPool.started q); lia. }
  destruct (IH (k - ticks w1) ltac:(lia) w1 eq_refl Hw1 (over_kept _ _ _ Et Hks Hov) Hne1) as (n & w' & Hp & Hlt').
  exists (S n), w'. split; [by eapply polls_step|lia].
Qed.

(** The polls end every query, and lose no callback. *)
Lemma drain b w :
  (forall n qs, iteration_order qs (query_order env n qs)) ->
  (forall t, exists k, forall m, k <= m -> (t <= now env m)%Z) -> inv b w ->
  exists n w', polls_to b w n w' /\ pool_of w' = ∅.
Proof.
  intros Ho Hclock. remember (work w) as m eqn:Em. revert w Em. induction (lt_wf m) as [m _ IH]. intros w -> Hw.
  destruct (decide (pool_of w = ∅)) as [He|He]; [exists 0, w; split; [by apply polls_refl|done]|].
  destruct (over_exists w) as [t Ht]. destruct (Hclock t) as [k Hk].
  destruct (drain_some b w t k Ho Hk Hw Ht He) as (n & w1 & Hp & Hlt).
  destruct (IH (work w1) Hlt w1 eq_refl (proj1 (proj2 Hp))) as (n' & w' & Hp' & He'). exists (n + n'), w'.
  split; [by eapply polls_trans|done].
Qed.
End Drain.

(** C3: Liveness.  After any events, when nothing more comes from the network or
    the user and the clock does not stop (it passes every time and stays past
    it, in steps of any size), the polls of the queries end all of them: after
    finitely many polls no query is left, and every [find_node] or predicate
    query that was ever started has been answered, exactly once. *)
Theorem service_queries_answered {Enr PS : Type} `{!EqDecision Enr} `{!K256} `{!EnrCrate Enr} `{!Packet.EnrCodec Enr}
    `{!EnrUpdate Enr} `{!HashSetDelay PS NodeId} (env : Env Enr) (events : list (SEvent Enr)) (s : Service Enr PS) :
  started env events s -> (forall t, exists k, forall m, k <= m -> (t <= now env m)%Z) ->
  exists w n w', start env events (initial s) = Ret (w, ()) /\ start env (replicate n EvQuery) w = Ret (w', ()) /\
    QueryPool.queries (queries (service w')) = ∅ /\
    forall c, countb (answers_query c) (out w') = countb (starts_query c) events.
Proof.
  intros Hs Hclock. destruct (started_runs (fun _ => 0) (fun _ => 0) env events s (fun _ => eq_refl) Hs) as (w & E & Hi & _).
  pose proof Hs as (_ & Ho & _).
  destruct (drain env _ w Ho Hclock Hi) as (n & w' & (E' & _ & Hb) & He). exists w, n, w'. split_and!; [done..|]. intros c.
  destruct (started_runs (one_query c) (fun _ => 0) env events s ltac:(by intros []) Hs) as (w1 & E1 & _ & Hq).
  rewrite E in E1. injection E1 as <-. rewrite <-(Hb (one_query c) (fun _ => 0)) in Hq by (by intros []).
  rewrite balance_query in Hq. unfold held_by_queries, targets in Hq. unfold pool_of in He.
  rewrite He, fmap_empty, map_filter_empty, map_size_empty in Hq. rewrite (sum_countb _ (starts_query c)) in Hq
    by (intros [[| | |? []|]| | | | | |]; reflexivity). lia.
Qed.

Import ServiceSample.

(** After the sample events one query waits for its only peer; the sample clock
    runs on by one unit per reading. *)
Lemma service_queries_answered_witness :
  match sample_service with
  | Ret s => exists w n w', start sample_env sample_events (initial s) = Ret (w, ()) /\
      start sample_env (replicate n EvQuery) w = Ret (w', ()) /\ countb (answers_query 3) (out w') = 1
  | Panic => False
  end.
Proof.
  destruct sample_service as [s|] eqn:Es; [|vm_compute in Es; discriminate].
  destruct (service_queries_answered sample_env sample_events s (sample_started s Es)) as (w & n & w' & E & E' & _ & Ha).
  - intros t. exists (Z.to_nat t). intros m Hm. simpl. lia.
  - exists w, n, w'. split_and!; [exact E|exact E'|exact (Ha 3)].
Defined.
