(* ===== verification/Tasks.v ===== *)
(** * The tasks of the handler and of the service, and their channels

    A node runs the handler (src/src/handler/mod.rs) and the service
    (src/src/service.rs) as tasks that talk over two channels and share the list
    of bans.  A state has both worlds and how far each task has read what the
    other one sent; a turn is an event of one task, or the receipt of a message.
    The channel to the service has 50 places; a handler that waits for a place
    takes its turn later, so the channel is unbounded here.

    First, what the two owe each other: what the handler has sent stays sent
    ([hgrows]), the service makes a request active only with an order to the
    handler ([pays]), and a failure that the handler reports settles it.  Then
    the runs: in any order of turns nothing panics, and each active request of
    the service is on its way, in flight, waiting, failed or answered; when only
    time passes, the requests in flight end and their failures are told. *)

From stdpp Require Import strings.
From S2P Require Import Prelude Bytes Key Bucket Table TableProofs TableTrace FindNode QueryPool Rpc QueryInfo IpVote.
From S2P Require Import Maps LruTimeCache Packet PacketProofs NodeInfo Crypto ActiveRequests ActiveRequestsProofs Session Errors.
From S2P Require Import Globals Config Handler HandlerLogic HandlerAccount HandlerInv HandlerSample HandlerTriples HandlerSync.
From S2P Require Import HandlerRun HandlerSettle Service ServiceNodes ServiceSample NodesExchange NodesHandover ServiceLogic.
From S2P Require Import ServiceInv ServiceRun.

(** ** What a step of a task does to its channels *)

Import NodeInfo.

Create HintDb grows discriminated.
Create HintDb pays discriminated.

(** ** What was sent stays sent *)

Section HandlerGrows.
Import Packet RequestCall ActiveRequests Handler.
Context {Enr D C SM OM : Type} `{!K256} `{!EnrCrate Enr} `{!Primitives} `{!EnrCodec Enr} `{!ProtocolIdentity}.
Context `{!Rlp Enr} `{!HashMapDelay D MessageNonce NodeAddress} `{!HashMapDelay C NodeAddress (Challenge Enr)}.
Context `{!LinkedHashMap SM NodeAddress (Session.Session * Z)}.
Context `{!LinkedHashMap OM NodeAddress ((Rpc.RequestId * Session.Session) * Z)}.
Variable env : Env Enr.
Notation W := (World Enr D C SM OM).
Notation M := (Run W).

(** The channel took it. *)
Definition delivered (x : Sent Enr) : Prop := match x with ToService _ ok | ToSocket _ _ ok => ok = true end.

Definition hgrows {A} (m : M A) : Prop := forall w w' a, m w = Ret (w', a) ->
  exists l, sent w' = l ++ sent w /\ ((forall n, channel_open env n = true) -> Forall delivered l).

Lemma hgrows_same {A} (m : M A) : (forall w w' a, m w = Ret (w', a) -> sent w' = sent w) -> hgrows m.
Proof. intros Hm w w' a E. exists []. split; [by eapply Hm|done]. Qed.
Lemma hgrows_bind {A A'} (m : M A) (k : A -> M A') : hgrows m -> (forall a, hgrows (k a)) -> hgrows (m ≫= k).
Proof.
  intros Hm Hk w w' b. unfold mbind, run_bind. destruct (m w) as [[w1 a]|] eqn:E; [|done]. intros E2.
  apply Hm in E as (l1 & E1 & Hd1). apply Hk in E2 as (l2 & -> & Hd2). exists (l2 ++ l1).
  split; [by rewrite E1, app_assoc|]. intros Ho. apply Forall_app. auto.
Qed.
Lemma hgrows_ret {A} (a : A) : hgrows (run_ret a).
Proof. apply hgrows_same. by intros w w' a' [= <- <-]. Qed.
Lemma hgrows_for_each {A} (l : list A) (f : A -> M unit) : (forall a, hgrows (f a)) -> hgrows (for_each l f).
Proof. intros Hf. induction l as [|a l IH]; simpl; [apply hgrows_ret|]. by apply hgrows_bind. Qed.
Lemma hgrows_lift {A} (o : outcome A) : hgrows (Handler.lift o : M A).
Proof. apply hgrows_same. intros w w' a. unfold Handler.lift. destruct o; [|done]. by intros [= <- <-]. Qed.
Lemma hgrows_take {A} (f : nat -> A) : hgrows (Handler.take f : M A).
Proof. apply hgrows_same. by intros w w' a [= <- <-]. Qed.
Lemma hgrows_self : hgrows (self : M _).
Proof. apply hgrows_same. by intros w w' a [= <- <-]. Qed.
Lemma hgrows_modify f : hgrows (modify f : M unit).
Proof. apply hgrows_same. by intros w w' a [= <- <-]. Qed.
Lemma hgrows_service_send o : hgrows (service_send env o : M bool).
Proof. intros w w' a [= <- <-]. eexists [_]. split; [reflexivity|]. intros Ho. constructor; [apply Ho|constructor]. Qed.
Lemma hgrows_send addr p : hgrows (send env addr p : M unit).
Proof. intros w w' a [= <- <-]. eexists [_]. split; [reflexivity|]. intros Ho. constructor; [apply Ho|constructor]. Qed.
Lemma hgrows_set_metric n : hgrows (set_metric n : M unit).
Proof. apply hgrows_same. by intros w w' a [= <- <-]. Qed.
Lemma hgrows_update_bans f : hgrows (update_bans f : M unit).
Proof. apply hgrows_same. by intros w w' a [= <- <-]. Qed.
Hint Resolve hgrows_ret hgrows_lift hgrows_take hgrows_self hgrows_modify hgrows_service_send hgrows_send hgrows_set_metric hgrows_update_bans : grows.

Ltac grow :=
  repeat (intros; first
    [ solve [eauto 2 with grows] | lazymatch goal with |- hgrows (mbind _ _) => apply hgrows_bind end
    | lazymatch goal with |- hgrows (for_each _ _) => apply hgrows_for_each end | case_match
    | match goal with |- hgrows ?m => unfold_head m end ]).

Lemma hgrows_replayed s l : hgrows (replayed env s l : M _).
Proof. revert s. induction l; intros s; cbn [replayed]; grow. Qed.
Hint Resolve hgrows_replayed : grows.
Lemma hgrows_send_request c i r : hgrows (send_request env c i r : M _).
Proof. grow. Qed.
Lemma hgrows_fail_session addr e b : hgrows (fail_session env addr e b : M unit).
Proof. grow. Qed.
Hint Resolve hgrows_send_request hgrows_fail_session : grows.
Lemma hgrows_new_session addr s k : hgrows (new_session env addr s k : M unit).
Proof. grow. Qed.
Hint Resolve hgrows_new_session : grows.
Lemma hgrows_step e : hgrows (step env e : M unit).
Proof. grow. Qed.
End HandlerGrows.

(** ** Active requests are paid for with orders to the handler *)

Section ServicePays.
Import Service.
Context {Enr PS : Type} `{!EqDecision Enr} `{!K256} `{!EnrCrate Enr} `{!Packet.EnrCodec Enr} `{!EnrUpdate Enr}.
Context `{!HashSetDelay PS NodeId}.
Variable env : Env Enr.
Notation W := (World Enr PS).
Notation M := (Handler.Run W).
Notation ret := (Handler.run_ret (W := W)).
Implicit Types (w : W) (id : Rpc.RequestId).

(** Whether an output is a request with this id that the handler gets. *)
Definition orders_request id (o : Output Enr) : nat :=
  match o with ToHandler (Handler.InRequest _ r) true => one_if (Rpc.req_id r = id) | _ => 0 end.

Definition ordered w id : nat := sum_list_with (orders_request id) (out w).
Definition is_active w id : nat := one_if (is_Some (active_requests (service w) !! id)).

(** [m] makes at most [f id] requests active without an order. *)
Definition pays (f : Rpc.RequestId -> nat) {A} (m : M A) : Prop :=
  forall w w' a, m w = Ret (w', a) ->
    (exists l, out w' = l ++ out w) /\ forall id, is_active w' id + ordered w id <= is_active w id + ordered w' id + f id.

Notation free := (fun _ : Rpc.RequestId => 0).

Lemma pays_bind {A B} f g (m : M A) (k : A -> M B) : pays f m -> (forall a, pays g (k a)) -> pays (fun id => f id + g id) (m ≫= k).
Proof.
  intros Hm Hk w w' b. unfold mbind, Handler.run_bind. destruct (m w) as [[w1 a]|] eqn:E; [|done]. intros E2.
  apply Hm in E as [[l1 E1] H1]. apply Hk in E2 as [[l2 ->] H2]. split.
  - exists (l2 ++ l1). by rewrite E1, app_assoc.
  - intros id. specialize (H1 id). specialize (H2 id). lia.
Qed.

Lemma pays_weaken {A} f g (m : M A) : (forall id, f id <= g id) -> pays f m -> pays g m.
Proof.
  intros Hfg Hm w w' a E. apply Hm in E as [Hl Hp]. split; [done|]. intros id. specialize (Hp id). specialize (Hfg id). lia.
Qed.

Lemma pays_bind0 {A B} f (m : M A) (k : A -> M B) : pays free m -> (forall a, pays f (k a)) -> pays f (m ≫= k).
Proof. intros Hm Hk. eapply pays_weaken; [|by apply pays_bind]. done. Qed.

(** The active requests and the orders are as they were. *)
Lemma pays_same {A} f (m : M A) :
  (forall w w' a, m w = Ret (w', a) -> out w' = out w /\ active_requests (service w') = active_requests (service w)) -> pays f m.
Proof.
  intros Hm w w' a E. apply Hm in E as [Ho Ha]. split; [by exists []|]. intros id. unfold is_active, ordered. rewrite Ho, Ha. lia.
Qed.

Lemma pays_ret {A} f (a : A) : pays f (ret a).
Proof. apply pays_same. by intros w w' a' [= <- <-]. Qed.
Lemma pays_lift {A} f (o : outcome A) : pays f (lift o).
Proof. apply pays_same. intros w w' a. unfold lift. destruct o; [|done]. by intros [= <- <-]. Qed.
Lemma pays_take {A} f (v : nat -> A) : pays f (take v).
Proof. apply pays_same. by intros w w' a [= <- <-]. Qed.
Lemma pays_self f : pays f self.
Proof. apply pays_same. by intros w w' a [= <- <-]. Qed.
Lemma pays_modify f g : (forall s, active_requests (g s) = active_requests s) -> pays f (modify g).
Proof. intros Hg. apply pays_same. intros w w' a [= <- <-]. simpl. auto. Qed.
Lemma pays_bans f g : pays f (update_bans g).
Proof. apply pays_same. by intros w w' a [= <- <-]. Qed.
Lemma pays_log f o : pays f (log o).
Proof. intros w w' a [= <- <-]. split; [by exists [o]|]. intros id. unfold is_active, ordered. simpl. lia. Qed.
Lemma pays_for_each {A} (l : list A) (m : A -> M unit) : (forall a, pays free (m a)) -> pays free (Handler.for_each l m).
Proof. intros Hm. induction l as [|a l IH]; simpl; [apply pays_ret|]. by apply pays_bind0. Qed.
Hint Resolve pays_ret pays_lift pays_take pays_self pays_bans pays_log pays_for_each : pays.
Hint Extern 1 (pays _ (modify _)) => (apply pays_modify; done) : pays.

Lemma is_active_insert w id a o t p i :
  is_active (mkWorld (with_active (<[id := a]> (active_requests (service w))) (service w)) o t p) i <= is_active w i + one_if (id = i).
Proof.
  unfold is_active. simpl. unfold one_if. destruct (decide (id = i)) as [->|Hne]; [repeat case_decide; lia|].
  rewrite lookup_insert_ne by done. lia.
Qed.

Lemma pays_insert_active id a : pays (fun i => one_if (id = i)) (insert_active id a).
Proof.
  unfold insert_active. apply pays_bind0; [apply pays_self|]. intros s. apply pays_bind0.
  { unfold drop_callback. case_match; auto with pays. }
  intros _ w w' u [= <- <-]. split; [by exists []|]. intros i. pose proof (is_active_insert w id a (out w) (ticks w) (permit_ban_list w) i).
  unfold ordered. cbn [out]. lia.
Qed.

Lemma pays_send_rpc_request a : pays free (send_rpc_request env a).
Proof.
  unfold send_rpc_request. apply pays_bind0; [apply pays_take|]. intros id. intros w w' u E.
  unfold send_handler, take, log, mbind, Handler.run_bind in E. cbn [Handler.run_ret] in E.
  destruct (handler_open env (ticks w)).
  - apply pays_insert_active in E as [[l E] Hp]. split; [exists (l ++ [ToHandler (Handler.InRequest (contact a) (Rpc.mkRequest id (request_body a))) true])|].
    + rewrite E. simpl. by rewrite <-app_assoc.
    + intros i. specialize (Hp i). unfold is_active, ordered in *. simpl in *. lia.
  - assert (pays free (drop_callback (callback a))) as Hd by (unfold drop_callback; case_match; auto with pays).
    apply Hd in E as [[l E] Hp]. split; [exists (l ++ [ToHandler (Handler.InRequest (contact a) (Rpc.mkRequest id (request_body a))) false])|].
    + rewrite E. simpl. by rewrite <-app_assoc.
    + intros i. specialize (Hp i). unfold is_active, ordered in *. simpl in *. lia.
Qed.
Hint Resolve pays_insert_active pays_send_rpc_request : pays.

Ltac pay :=
  repeat (intros; first
    [ solve [eauto 2 with pays] | lazymatch goal with |- pays _ (mbind _ _) => apply pays_bind0 end
    | lazymatch goal with |- pays _ (Handler.for_each _ _) => apply pays_for_each end | case_match
    | match goal with |- pays _ ?m => unfold_head m end ]).

Lemma pays_retain_all source local_id enrs : pays free (retain_all env source local_id enrs).
Proof. induction enrs; cbn [retain_all]; pay. Qed.
Hint Resolve pays_retain_all : pays.
Lemma pays_found_enrs peers untrusted : pays free (found_enrs env peers untrusted).
Proof. revert untrusted. induction peers; intros untrusted; cbn [found_enrs]; pay. Qed.
Hint Resolve pays_found_enrs : pays.

Lemma pays_connection_updated node_id st : pays free (connection_updated env node_id st).
Proof. pay. Qed.
Hint Resolve pays_connection_updated : pays.
Lemma pays_discovered f source enrs i : pays f (discovered env source enrs i).
Proof. pay. Qed.
Hint Resolve pays_discovered : pays.
Lemma pays_handle_nodes addr id a total nodes : pays (fun i => one_if (id = i)) (handle_nodes env addr id a total nodes).
Proof. pay. Qed.
Lemma pays_handle_pong addr a seq ip port : pays free (handle_pong env addr a seq ip port).
Proof. pay. Qed.
Lemma pays_handle_talk a r : pays free (handle_talk a r).
Proof. pay. Qed.

(** The request is taken out before its response is handled. *)
Lemma pays_taken {A} id a (k : unit -> M A) w w' x :
  active_requests (service w) !! id = Some a -> pays (fun i => one_if (id = i)) (k ()) ->
  (modify (fun s => with_active (delete id (active_requests s)) s) ≫= k) w = Ret (w', x) ->
  (exists l, out w' = l ++ out w) /\ forall i, is_active w' i + ordered w i <= is_active w i + ordered w' i.
Proof.
  intros Ha Hk E. unfold modify, mbind, Handler.run_bind in E. apply Hk in E as [Hl Hp]. split; [exact Hl|].
  intros i. specialize (Hp i). unfold is_active in *. unfold ordered in *. simpl in *. unfold one_if in *.
  destruct (decide (id = i)) as [->|Hne]; [|by rewrite lookup_delete_ne in Hp; [lia|]].
  rewrite Ha. rewrite lookup_delete_eq in Hp. rewrite (decide_True (P := is_Some (Some a))) by by eexists.
  rewrite (decide_False (P := is_Some None)) in Hp by by intros []. lia.
Qed.

Lemma pays_any {A} f (m : M A) : pays free m -> pays f m.
Proof. apply pays_weaken. lia. Qed.

Lemma pays_handle_rpc_response addr r : pays free (handle_rpc_response env addr r).
Proof.
  intros w w' u E. unfold handle_rpc_response in E. unfold mbind at 1, Handler.run_bind at 1 in E. cbn [self] in E.
  destruct (active_requests (service w) !! Rpc.resp_id r) as [a|] eqn:Ea; [|by eapply (pays_ret free); exact E].
  eapply pays_taken in E; [|exact Ea|].
  - destruct E as [Hl Hp]. split; [exact Hl|]. intros id. specialize (Hp id). lia.
  - destruct (decide _); [pay|]. destruct (negb _); [pay|]. destruct (Rpc.resp_body r).
    + apply pays_any, pays_handle_pong.
    + apply pays_handle_nodes.
    + apply pays_any, pays_handle_talk.
Qed.

(** A failure settles the request. *)
Lemma rpc_failure_settles id e w w' u :
  rpc_failure env id e w = Ret (w', u) ->
  (exists l, out w' = l ++ out w) /\
  forall i, is_active w' i + ordered w i + (if decide (id = i) then is_active w i else 0) <= is_active w i + ordered w' i.
Proof.
  intros E. unfold rpc_failure in E. unfold mbind at 1, Handler.run_bind at 1 in E. cbn [self] in E.
  destruct (active_requests (service w) !! id) as [a|] eqn:Ea.
  - unfold mbind at 1, Handler.run_bind at 1 in E. cbn [modify] in E.
    match type of E with ?m _ = _ => assert (pays free m) as Hm end.
    { destruct (callback a); [pay|]. apply pays_bind0; [|intros; apply pays_connection_updated]. pay. }
    apply Hm in E as [Hl Hp]. split; [exact Hl|]. intros i. specialize (Hp i). unfold is_active in *. unfold ordered in *. simpl in *.
    destruct (decide (id = i)) as [->|Hne]; [|rewrite lookup_delete_ne in Hp by done; lia].
    rewrite Ea. rewrite lookup_delete_eq in Hp. unfold one_if in *. rewrite (decide_True (P := is_Some (Some a))) by by eexists.
    rewrite (decide_False (P := is_Some None)) in Hp by by intros []. lia.
  - injection E as <- <-. split; [by exists []|]. intros i. destruct (decide (id = i)) as [->|]; [|lia].
    unfold is_active, one_if. rewrite Ea, decide_False by by intros []. lia.
Qed.

(** What the loop does, failures apart. *)
Lemma pays_step e : (forall id err, e <> EvHandler (Handler.OutRequestFailed id err)) -> pays free (step env e).
Proof.
  intros He. destruct e as [r|o| | | | |]; [pay| |pay..].
  destruct o; [pay|pay|apply pays_handle_rpc_response|pay|by edestruct He].
Qed.
End ServicePays.

(** ** The tasks *)

Module Tasks.
Section Tasks.
Context {Enr D C SM OM PS : Type} `{!EqDecision Enr} `{!K256} `{!EnrCrate Enr} `{!Primitives} `{!Packet.EnrCodec Enr} `{!Packet.ProtocolIdentity}.
Context `{!Rlp Enr} `{!HashMapDelay D Packet.MessageNonce NodeAddress} `{!HashMapDelay C NodeAddress (Challenge Enr)}.
Context `{!LinkedHashMap SM NodeAddress (Session.Session * Z)}.
Context `{!LinkedHashMap OM NodeAddress ((Rpc.RequestId * Session.Session) * Z)}.
Context `{!Service.EnrUpdate Enr} `{!Service.HashSetDelay PS NodeId}.
Notation HW := (Handler.World Enr D C SM OM).
Notation SW := (Service.World Enr PS).

(** What each task has put into the channel to the other, oldest first. *)
Definition heard (w : HW) : list (Handler.HandlerOut Enr) := rev (told w).
Definition orders (w : SW) : list (Handler.HandlerIn Enr) :=
  rev (omap (fun o => match o with Service.ToHandler i true => Some i | _ => None end) (Service.out w)).

Record Tasks := mkTasks {
  handler_task : HW;
  service_task : SW;
  orders_read : nat;
  heard_read : nat;
}.

Inductive turn :=
  | AtHandler (e : Handler.Event Enr)
  | HandlerReceives
  | AtService (e : Service.SEvent Enr)
  | ServiceReceives.

(** [PERMIT_BAN_LIST] is one list. *)
Definition handler_bans (l : PermitBan.PermitBanList) (w : HW) : HW :=
  Handler.mkWorld (Handler.handler w) (Handler.sent w) (Handler.ticks w) (Handler.metric_active_sessions w) l.
Definition service_bans (l : PermitBan.PermitBanList) (w : SW) : SW :=
  Service.mkWorld (Service.service w) (Service.out w) (Service.ticks w) l.

Variables (henv : Handler.Env Enr) (senv : Service.Env Enr).

Definition handler_turn (e : Handler.Event Enr) (s : Tasks) (read : nat) : outcome Tasks :=
  '(w, _) ← Handler.step henv e (handler_task s);
  Ret (mkTasks w (service_bans (Handler.permit_ban_list w) (service_task s)) read (heard_read s)).

Definition service_turn (e : Service.SEvent Enr) (s : Tasks) (read : nat) : outcome Tasks :=
  '(w, _) ← Service.step senv e (service_task s);
  Ret (mkTasks (handler_bans (Service.permit_ban_list w) (handler_task s)) w (orders_read s) read).

Definition take_turn (t : turn) (s : Tasks) : outcome Tasks :=
  match t with
  | AtHandler e => handler_turn e s (orders_read s)
  | HandlerReceives =>
      match orders (service_task s) !! orders_read s with
      | Some i => handler_turn (Handler.EvService i) s (orders_read s + 1)
      | None => Ret s
      end
  | AtService e => service_turn e s (heard_read s)
  | ServiceReceives =>
      match heard (handler_task s) !! heard_read s with
      | Some o => service_turn (Service.EvHandler o) s (heard_read s + 1)
      | None => Ret s
      end
  end.

Fixpoint run (l : list turn) (s : Tasks) : outcome Tasks :=
  match l with
  | [] => Ret s
  | t :: l => s ← take_turn t s; run l s
  end.

(** Messages come over the channels only; packets come from the decoder, keys of the table from node ids. *)
Definition turn_ok (t : turn) : Prop :=
  match t with
  | AtHandler (Handler.EvService _) => False
  | AtHandler e => HandlerLogic.event_ok e
  | AtService (Service.EvHandler _) => False
  | AtService e => ServiceInv.event_ok e
  | HandlerReceives | ServiceReceives => True
  end.
End Tasks.
Arguments Tasks Enr D C SM OM PS {_}.
Arguments turn Enr {_}.
End Tasks.

(** ** The runs *)

Import Tasks.

Lemma sum_list_rev {A} (f : A -> nat) l : sum_list_with f (rev l) = sum_list_with f l.
Proof. symmetry. apply sum_perm, Permutation_rev. Qed.

Lemma sum_take_S {A} (f : A -> nat) l n x : l !! n = Some x -> sum_list_with f (take (n + 1) l) = sum_list_with f (take n l) + f x.
Proof. intros Hx. rewrite Nat.add_1_r, (take_S_r _ _ _ Hx), sum_list_with_app. simpl. lia. Qed.

Lemma sum_take_drop {A} (f : A -> nat) n l : sum_list_with f l = sum_list_with f (take n l) + sum_list_with f (drop n l).
Proof. by rewrite <-sum_list_with_app, take_drop. Qed.

Section Run.
Context {Enr D C SM OM PS : Type} `{!EqDecision Enr} `{!K256} `{!EnrCrate Enr} `{!Primitives} `{!Packet.EnrCodec Enr} `{!Packet.ProtocolIdentity}.
Context `{!Rlp Enr} `{!HashMapDelay D Packet.MessageNonce NodeAddress} `{!HashMapDelay C NodeAddress (Challenge Enr)}.
Context `{!HashMapDelayLaws D Packet.MessageNonce NodeAddress} `{!HashMapDelayExpiry D Packet.MessageNonce NodeAddress} `{!HashMapDelayLaws C NodeAddress (Challenge Enr)}.
Context `{!LinkedHashMap SM NodeAddress (Session.Session * Z)}.
Context `{!LinkedHashMap OM NodeAddress ((Rpc.RequestId * Session.Session) * Z)}.
Context `{!LinkedHashMapLaws OM NodeAddress ((Rpc.RequestId * Session.Session) * Z)}.
Context `{!Service.EnrUpdate Enr} `{!Service.HashSetDelay PS NodeId}.
Notation HW := (Handler.World Enr D C SM OM).
Notation SW := (Service.World Enr PS).
Notation State := (Tasks Enr D C SM OM PS).
Variables (henv : Handler.Env Enr) (senv : Service.Env Enr).
Hypothesis hrelease : Handler.debug_assertions henv = false.
Hypothesis srelease : Service.debug_assertions senv = false.
Hypothesis hfresh : fresh henv.
Hypothesis iteration : forall n qs, iteration_order qs (Service.query_order senv n qs).
Implicit Types (id : Rpc.RequestId).

(** Messages about the request [id]. *)
Definition order_of id (i : Handler.HandlerIn Enr) : nat :=
  match i with Handler.InRequest _ r => one_if (Rpc.req_id r = id) | _ => 0 end.
Definition failure_of id (o : Handler.HandlerOut Enr) : nat :=
  match o with Handler.OutRequestFailed i _ => one_if (i = id) | _ => 0 end.

Lemma orders_sum id (w : SW) : sum_list_with (order_of id) (orders w) = ordered w id.
Proof.
  unfold orders, ordered. rewrite sum_list_rev. induction (Service.out w) as [|o l IH]; [done|].
  destruct o as [[] []| | |]; simpl; try exact IH. f_equal. exact IH.
Qed.

Lemma heard_sum id (w : HW) : sum_list_with (failure_of id) (heard w) <= failures w id.
Proof.
  unfold heard, told, failures. rewrite sum_list_rev. induction (Handler.sent w) as [|x l IH]; [done|].
  destruct x as [o []|]; [|destruct o; simpl; (etrans; [exact IH|lia])|exact IH].
  destruct o; simpl; try exact IH. by apply Nat.add_le_mono_l.
Qed.

Lemma orders_app (w w' : SW) l : Service.out w' = l ++ Service.out w -> exists l', orders w' = orders w ++ l'.
Proof. intros E. unfold orders. rewrite E, omap_app, rev_app_distr. by eexists. Qed.

Lemma heard_app (w w' : HW) l : Handler.sent w' = l ++ Handler.sent w -> exists l', heard w' = heard w ++ l'.
Proof. intros E. unfold heard, told. rewrite E, omap_app, rev_app_distr. by eexists. Qed.

(** ** The invariant *)

Notation none := (fun _ : SocketAddr => 0%Z).

(** The orders that the handler has read. *)
Definition processed (s : State) id : nat := sum_list_with (order_of id) (take (orders_read s) (orders (service_task s))).
(** The failures that the service has read. *)
Definition learned (s : State) id : nat := sum_list_with (failure_of id) (take (heard_read s) (heard (handler_task s))).

(** The service is well-formed and the channels have what was read. *)
Record sound (b : Z) (s : State) : Prop := mkSound {
  snd_service : ServiceInv.inv b (service_task s);
  snd_orders : orders_read s <= length (orders (service_task s));
  snd_heard : heard_read s <= length (heard (handler_task s));
  snd_delivered : (forall n, Handler.channel_open henv n = true) -> Forall delivered (Handler.sent (handler_task s));
}.

(** The handler reports no failure without an order, and the service holds no
    request active without an order that has not failed. *)
Record ledger (s : State) : Prop := mkLedger {
  led_failures id : sum_list_with (failure_of id) (heard (handler_task s)) <= processed s id;
  led_active id : is_active (service_task s) id + learned s id <= ordered (service_task s) id;
}.

Definition owes (s : State) : Prop := Inv 0 (fun id => Z.of_nat (processed s id)) none (handler_task s).

Lemma processed_ordered (s : State) id : processed s id <= ordered (service_task s) id.
Proof. rewrite <-orders_sum. unfold processed. rewrite (sum_take_drop (order_of id) (orders_read s) (orders _)). lia. Qed.

Lemma owes_failures (s : State) id : owes s -> sum_list_with (failure_of id) (heard (handler_task s)) <= processed s id.
Proof.
  intros Ha. pose proof (inv_owed _ _ _ _ Ha id) as Ho. cbv beta in Ho. unfold open in Ho.
  pose proof (heard_sum id (handler_task s)). lia.
Qed.

Lemma Inv_bans l owed (w : HW) : Inv 0 owed none w -> Inv 0 owed none (handler_bans l w).
Proof. apply framed_Inv. by split_and!. Qed.

Lemma inv_bans l b (w : SW) : ServiceInv.inv b w -> ServiceInv.inv b (service_bans l w).
Proof. intros []. by split. Qed.

(** ** Turns of the handler *)

Lemma handler_turn_ok b (s : State) e read (message : option (Handler.HandlerIn Enr)) :
  sound b s -> HandlerLogic.event_ok e ->
  match message with
  | Some i => e = Handler.EvService i /\ orders (service_task s) !! orders_read s = Some i /\ read = orders_read s + 1
  | None => (forall i, e <> Handler.EvService i) /\ read = orders_read s
  end ->
  exists s', handler_turn henv e s read = Ret s' /\ sound b s' /\ Handler.ticks (handler_task s) <= Handler.ticks (handler_task s') /\
    (Handler.ticks (handler_task s') < B -> owes s -> synced henv (handler_task s) -> ledger s ->
     owes s' /\ synced henv (handler_task s') /\ ledger s').
Proof.
  intros Hs He Hcase. destruct (sane_step henv hrelease e He (handler_task s)) as (w & [] & E & Ht).
  unfold handler_turn. rewrite E. eexists. split; [reflexivity|].
  destruct (hgrows_step henv e _ _ _ E) as (l & Hl & Hdel). destruct (heard_app _ _ _ Hl) as [l' Hh].
  set (s' := mkTasks _ _ _ _). split; [split; simpl|].
  - apply inv_bans, Hs.
  - change (orders (service_bans _ _)) with (orders (service_task s)).
    destruct message as [i|]; [destruct Hcase as (_ & Hi%lookup_lt_Some & ->); lia|]. destruct Hcase as [_ ->]. apply Hs.
  - rewrite Hh, length_app. pose proof (snd_heard _ _ Hs). lia.
  - intros Hopen. rewrite Hl. apply Forall_app. split; [by apply Hdel|by apply Hs].
  - split; [done|]. intros HB Ho Hsy Hled. simpl in HB.
    assert (owes s') as Ho'.
    { pose proof (triple_step henv hrelease e _ _ _ _ Ho E HB) as HI.
      eapply Inv_weaken; [exact HI|lia| |done]. intros id. unfold processed. simpl. change (orders (service_bans _ _)) with (orders (service_task s)).
      destruct message as [i|]; [destruct Hcase as (-> & Hi & ->); rewrite (sum_take_S _ _ _ _ Hi); destruct i; simpl; lia|].
      destruct Hcase as [Hno ->]. destruct e; simpl; [by edestruct Hno|lia..]. }
    split; [done|]. split; [by eapply (keeps_step henv hrelease hfresh e)|]. split; intros id; [by apply owes_failures|].
    unfold learned. simpl. rewrite Hh, take_app_le by apply Hs. apply (led_active _ Hled id).
Qed.

(** ** Turns of the service *)

(** What an event of the service is worth. *)
Lemma service_step_pays (w w' : SW) e :
  Service.step senv e w = Ret (w', ()) ->
    (exists l, Service.out w' = l ++ Service.out w) /\
    forall id, is_active w' id + ordered w id +
      (match e with Service.EvHandler (Handler.OutRequestFailed i _) => if decide (i = id) then is_active w id else 0 | _ => 0 end)
      <= is_active w id + ordered w' id.
Proof.
  intros E. assert ((exists i err, e = Service.EvHandler (Handler.OutRequestFailed i err)) \/
          ~ exists i err, e = Service.EvHandler (Handler.OutRequestFailed i err)) as [(i & err & ->)|Hno]
    by (destruct e as [|[]| | | | |]; (left; by eauto) || (right; by intros (? & ? & ?))).
  - by apply rpc_failure_settles in E.
  - destruct (pays_step senv e ltac:(intros i err ->; by destruct Hno; eauto) w w' () E) as [Hl Hp]. split; [exact Hl|].
    intros id. specialize (Hp id). destruct e as [|[]| | | | |]; try lia. by destruct Hno; eauto.
Qed.

Lemma service_turn_ok b b' (s : State) e read (message : option (Handler.HandlerOut Enr)) w :
  sound b s -> Service.step senv e (service_task s) = Ret (w, ()) -> ServiceInv.inv b' w ->
  match message with
  | Some o => e = Service.EvHandler o /\ heard (handler_task s) !! heard_read s = Some o /\ read = heard_read s + 1
  | None => (forall o, e <> Service.EvHandler o) /\ read = heard_read s
  end ->
  let s' := mkTasks (handler_bans (Service.permit_ban_list w) (handler_task s)) w (orders_read s) read in
  service_turn senv e s read = Ret s' /\ sound b' s' /\ (forall id, processed s' id = processed s id) /\ (ledger s -> ledger s').
Proof.
  intros Hs E Hi Hcase s'. unfold service_turn. rewrite E. split; [reflexivity|].
  destruct (service_step_pays _ _ _ E) as [[l Hl] Hp]. destruct (orders_app _ _ _ Hl) as [l' Ho].
  assert (forall id, processed s' id = processed s id) as Hpr
    by (intros id; unfold processed; simpl; by rewrite Ho, take_app_le by apply Hs).
  split; [split; simpl; try change (heard (handler_bans _ _)) with (heard (handler_task s))|].
  - done.
  - rewrite Ho, length_app. pose proof (snd_orders _ _ Hs). lia.
  - destruct message as [o|]; [destruct Hcase as (_ & Hlt%lookup_lt_Some & ->); lia|]. destruct Hcase as [_ ->]. apply Hs.
  - apply Hs.
  - split; [done|]. intros Hled. split; intros id; [rewrite Hpr; apply (led_failures _ Hled)|].
    specialize (Hp id). pose proof (led_active _ Hled id) as Hact. pose proof (led_failures _ Hled id) as Hlp.
    pose proof (processed_ordered s id) as Hpo. unfold learned in *. simpl. change (heard (handler_bans _ _)) with (heard (handler_task s)).
    destruct message as [o|]; [destruct Hcase as (-> & Hh & ->)|destruct Hcase as [Hno ->]; destruct e as [|o'| | | | |]; lia].
    rewrite (sum_take_drop (failure_of id) (heard_read s + 1)), (sum_take_S _ _ _ _ Hh) in Hlp. rewrite (sum_take_S _ _ _ _ Hh).
    destruct o as [| | | |i err]; simpl in *; try lia. unfold one_if in *. destruct (decide (i = id)); lia.
Qed.

(** ** Runs *)

Record accounted (b : Z) (s : State) : Prop := mkAccounted {
  acc_sound : sound b s;
  acc_owes : Handler.ticks (handler_task s) < B -> owes s /\ synced henv (handler_task s) /\ ledger s;
}.

Lemma handler_turn_accounted b (s s' : State) :
  accounted b s -> sound b s' -> Handler.ticks (handler_task s) <= Handler.ticks (handler_task s') ->
  (Handler.ticks (handler_task s') < B -> owes s -> synced henv (handler_task s) -> ledger s ->
     owes s' /\ synced henv (handler_task s') /\ ledger s') -> accounted (b + 1) s'.
Proof.
  intros [_ Ha] Hs Ht Hstep. split.
  - destruct Hs. split; try done. eapply inv_mono; [|done]. lia.
  - intros HB. destruct Ha as (? & ? & ?); [lia|]. by apply Hstep.
Qed.

Lemma turn_accounted b (s : State) t :
  accounted b s -> (b + 1 < QueryPool.USIZE_MODULUS)%Z -> turn_ok t ->
  exists s', take_turn henv senv t s = Ret s' /\ accounted (b + 1) s' /\ Handler.ticks (handler_task s) <= Handler.ticks (handler_task s').
Proof.
  intros Ha Hb Ht. pose proof (acc_sound _ _ Ha) as Hs.
  assert (accounted (b + 1) s) as Hmono by (by eapply (handler_turn_accounted b s s)).
  assert (forall e read message, ServiceInv.event_ok e ->
    match message with
    | Some o => e = Service.EvHandler o /\ heard (handler_task s) !! heard_read s = Some o /\ read = heard_read s + 1
    | None => (forall o, e <> Service.EvHandler o) /\ read = heard_read s
    end -> exists s', service_turn senv e s read = Ret s' /\ accounted (b + 1) s' /\
      Handler.ticks (handler_task s) <= Handler.ticks (handler_task s')) as Hservice.
  { intros e read message He Hcase.
    destruct (ServiceInv.at_step senv srelease iteration (fun _ => 0) (fun _ => 0) (fun _ => eq_refl) b _ e (snd_service _ _ Hs) Hb He)
      as (w & [] & E & Hi & _).
    destruct (service_turn_ok b (b + 1) s e read message w Hs E Hi Hcase) as (E' & Hs' & Hpr & Hled). eexists. split; [exact E'|].
    split; [|done]. split; [done|]. simpl. intros HB. destruct (acc_owes _ _ Ha HB) as (Ho & Hsy & Hl). split_and!; [|done|by apply Hled].
    apply Inv_bans. eapply Inv_weaken; [exact Ho|lia| |done]. intros id. by rewrite Hpr. }
  destruct t as [e| |e|]; simpl in *.
  - destruct (handler_turn_ok b s e (orders_read s) None Hs) as (s' & E & ? & ? & ?); [by destruct e|split; [by intros i ->|done]|].
    exists s'. split; [done|]. split; [by eapply handler_turn_accounted|done].
  - destruct (orders _ !! _) as [i|] eqn:Ei; [|eauto].
    destruct (handler_turn_ok b s (Handler.EvService i) (orders_read s + 1) (Some i) Hs) as (s' & E & ? & ? & ?); [done|done|].
    exists s'. split; [done|]. split; [by eapply handler_turn_accounted|done].
  - apply (Hservice e _ None); [by destruct e|]. split; [|done]. by intros o ->.
  - destruct (heard _ !! _) as [o|] eqn:Eo; [|eauto]. by apply (Hservice _ _ (Some o)).
Qed.

Lemma run_accounted b (s : State) turns :
  accounted b s -> (b + Z.of_nat (length turns) < QueryPool.USIZE_MODULUS)%Z -> Forall turn_ok turns ->
  exists s', run henv senv turns s = Ret s' /\ accounted (b + Z.of_nat (length turns)) s'.
Proof.
  intros Ha Hb Hok. revert b s Ha Hb. induction Hok as [|t turns Ht _ IH]; intros b s Ha Hb.
  - exists s. simpl. rewrite Z.add_0_r. auto.
  - cbn [length] in *. destruct (turn_accounted b s t Ha ltac:(lia) Ht) as (s1 & E1 & Ha1 & Ht1).
    destruct (IH (b + 1)%Z s1 Ha1 ltac:(lia)) as (s' & E & Ha'). exists s'. split; [cbn [run]; by rewrite E1|].
    by replace (b + Z.of_nat (S (length turns)))%Z with (b + 1 + Z.of_nat (length turns))%Z by lia.
Qed.

(** Both tasks as [spawn] starts them. *)
Definition spawned_tasks (s : State) : Prop :=
  exists hw sv local_enr enr_key t config, spawned hw /\ Service.new local_enr enr_key t config = Ret sv /\ keyed t /\
    s = mkTasks hw (Service.initial sv) 0 0.

Lemma spawned_accounted (s : State) : spawned_tasks s -> accounted 0 s.
Proof.
  intros (hw & sv & local_enr & enr_key & t & config & Hh & Hn & Ht & ->). split; [split; simpl; try lia|].
  - unfold Service.new in Hn. split_run. simplify_eq. split; simpl; [done| |lia]. intros i q. by rewrite lookup_empty.
  - intros _. destruct Hh as (? & ? & ? & ? & ? & ? & ? & ->). constructor.
  - intros _. assert (owes (mkTasks hw (Service.initial sv) 0 0)) as Ho by by apply spawned_Inv.
    split_and!; [done|by apply spawned_synced|]. split; intros id; [by apply owes_failures|].
    unfold Service.new in Hn. split_run. simplify_eq. unfold is_active, one_if. simpl.
    rewrite lookup_empty, decide_False by by intros []. unfold learned. simpl. lia.
Qed.

(** ** Requests of the service *)

Lemma heard_all id (w : HW) : Forall delivered (Handler.sent w) -> sum_list_with (failure_of id) (heard w) = failures w id.
Proof.
  unfold heard, told, failures. rewrite sum_list_rev. induction 1 as [|x l Hx _ IH]; [done|].
  destruct x as [o ok|]; [|exact IH]. simpl in Hx. subst ok. destruct o; simpl; try exact IH. f_equal. exact IH.
Qed.

(** Where a request that is active in the service can be. *)
Definition unread_orders (s : State) id : nat := sum_list_with (order_of id) (drop (orders_read s) (orders (service_task s))).
Definition unread_failures (s : State) id : nat := sum_list_with (failure_of id) (drop (heard_read s) (heard (handler_task s))).
Definition in_flight_at (s : State) id : nat := weight (call_ext id) (calls (handler_task s)).
Definition waiting_at (s : State) id : nat := weight (pending_ext id) (queued (handler_task s)).

Lemma ledger_active (s : State) id :
  Forall delivered (Handler.sent (handler_task s)) -> ledger s ->
  (Z.of_nat (processed s id) <= open (handler_task s) id + Z.of_nat (responses (handler_task s) id))%Z ->
  is_active (service_task s) id <= unread_orders s id + in_flight_at s id + waiting_at s id + unread_failures s id +
    responses (handler_task s) id.
Proof.
  intros Hd Hled Ho. pose proof (led_active _ Hled id) as Hact. unfold open in Ho. rewrite <-(heard_all id _ Hd) in Ho.
  rewrite (sum_take_drop (failure_of id) (heard_read s)) in Ho. rewrite <-orders_sum in Hact.
  rewrite (sum_take_drop (order_of id) (orders_read s)) in Hact.
  unfold processed, learned, unread_orders, unread_failures, in_flight_at, waiting_at in *. lia.
Qed.

(** C8: Safety.  The handler and the service of a node as [spawn] starts them, in a
    release build with fresh nonces, over their two channels, in any order of
    turns (fewer than 2^64, any packets, any requests of the application, any
    timers): nothing panics.  If
    the service takes what the handler sends, a request the service holds as
    active is on its way to the handler, or in flight there, or waits for a
    session there, or its failure is on its way back, or a response to it was
    handed to the service. *)
Theorem tasks_requests_accounted (s : State) turns :
  spawned_tasks s -> Forall turn_ok turns -> (Z.of_nat (length turns) < QueryPool.USIZE_MODULUS)%Z ->
  exists s', run henv senv turns s = Ret s' /\
    ((forall n, Handler.channel_open henv n = true) -> (Z.of_nat (Handler.ticks (handler_task s')) < 2 ^ 64)%Z ->
     forall id, is_Some (Service.active_requests (Service.service (service_task s')) !! id) ->
       0 < unread_orders s' id + in_flight_at s' id + waiting_at s' id + unread_failures s' id + responses (handler_task s') id).
Proof.
  intros Hs Hok Hlen. destruct (run_accounted 0 s turns (spawned_accounted s Hs) ltac:(lia) Hok) as (s' & E & Ha).
  exists s'. split; [done|]. intros Hopen Ht%B_spec id Hid. destruct (acc_owes _ _ Ha Ht) as (Ho & _ & Hled).
  pose proof (ledger_active s' id (snd_delivered _ _ (acc_sound _ _ Ha) Hopen) Hled (proj2 (inv_owed _ _ _ _ Ho id))) as Hle.
  unfold is_active, one_if in Hle. rewrite decide_True in Hle by done. lia.
Qed.

(** ** Runs in which only time passes *)

Lemma turns_app l1 l2 (s s1 : State) : run henv senv l1 s = Ret s1 -> run henv senv (l1 ++ l2) s = run henv senv l2 s1.
Proof.
  revert s. induction l1 as [|t l1 IH]; intros s; simpl; [by intros [= ->]|].
  destruct (take_turn henv senv t s) as [s2|]; [apply IH|done].
Qed.

(** The handler polls its timers. *)
Lemma run_polls n (s : State) w :
  Handler.start henv (polls n) (handler_task s) = Ret (w, ()) ->
  exists l, run henv senv (replicate n (AtHandler Handler.EvPollRequests)) s =
    Ret (mkTasks w (service_bans l (service_task s)) (orders_read s) (heard_read s)).
Proof.
  revert s. induction n as [|n IH]; intros s E.
  - injection E as <-. exists (Service.permit_ban_list (service_task s)). by destruct s as [? [] ? ?].
  - cbn [replicate run take_turn]. unfold handler_turn, Handler.start, polls in *. cbn [replicate Handler.for_each] in E.
    unfold mbind at 1, Handler.run_bind at 1 in E. destruct (Handler.step henv Handler.EvPollRequests _) as [[w1 []]|]; [|done].
    destruct (IH (mkTasks w1 (service_bans (Handler.permit_ban_list w1) (service_task s)) (orders_read s) (heard_read s)) E) as [l Hl].
    exists l. exact Hl.
Qed.

(** The service takes what the handler has sent. *)
Lemma run_hears b (s : State) :
  sound b s -> ledger s ->
  exists n s', run henv senv (replicate n ServiceReceives) s = Ret s' /\ sound b s' /\ ledger s' /\
    heard_read s' = length (heard (handler_task s')) /\ (forall id, processed s' id = processed s id) /\
    exists l, handler_task s' = handler_bans l (handler_task s).
Proof.
  remember (length (heard (handler_task s)) - heard_read s) as n eqn:Hn. revert s Hn.
  induction n as [|n IH]; intros s Hn Hs Hled; pose proof (snd_heard _ _ Hs) as Hr.
  - exists 0, s. split_and!; [done..|lia|done|]. exists (Handler.permit_ban_list (handler_task s)). by destruct (handler_task s).
  - destruct (lookup_lt_is_Some_2 (heard (handler_task s)) (heard_read s) ltac:(lia)) as [o Eo].
    destruct (runs_handle_event senv srelease (fun _ => 0) (fun _ => 0) (fun _ => eq_refl) b o (service_task s) (snd_service _ _ Hs)) as (w & [] & E & Hi & _).
    destruct (service_turn_ok b b s (Service.EvHandler o) (heard_read s + 1) (Some o) w Hs E Hi) as (E1 & Hs1 & Hpr1 & Hled1); [done|].
    set (s1 := mkTasks _ _ _ _) in *.
    destruct (IH s1) as (m & s' & E2 & ? & ? & ? & Hpr2 & l & Hl); [|exact Hs1|by apply Hled1|].
    { simpl. change (heard (handler_bans _ _)) with (heard (handler_task s)). lia. }
    exists (S m), s'. cbn [replicate run take_turn]. rewrite Eo, E1. split_and!; [done..| |].
    + intros id. by rewrite Hpr2, Hpr1.
    + exists l. by rewrite Hl.
Qed.

Lemma polls_ledger b n (s : State) w l :
  accounted b s -> Handler.ticks (handler_task s) < B -> settling (handler_task s) w ->
  Handler.start henv (polls n) (handler_task s) = Ret (w, ()) ->
  let s' := mkTasks w (service_bans l (service_task s)) (orders_read s) (heard_read s) in sound b s' /\ ledger s'.
Proof.
  intros [Hs Ha] Ht Hst E s'. destruct (Ha Ht) as (Ho & _ & Hled).
  destruct (hgrows_for_each henv (polls n) (Handler.step henv) (hgrows_step henv) _ _ _ E) as (l1 & Hl & Hdel).
  destruct (heard_app _ _ _ Hl) as [l2 Hh]. split; split; simpl.
  - apply inv_bans, Hs.
  - apply Hs.
  - rewrite Hh, length_app. pose proof (snd_heard _ _ Hs). lia.
  - intros Hopen. rewrite Hl. apply Forall_app. split; [by apply Hdel|by apply Hs].
  - intros id. pose proof (inv_owed _ _ _ _ Ho id) as Hle. cbv beta in Hle. destruct (st_open _ _ Hst id) as [Hop _]. rewrite <-Hop in Hle.
    unfold open in Hle. pose proof (heard_sum id w). unfold processed in *. simpl.
    change (orders (service_bans _ _)) with (orders (service_task s)). lia.
  - intros id. unfold learned. simpl. rewrite Hh, take_app_le by apply Hs. apply (led_active _ Hled id).
Qed.

(** What is left after the handler's timers have run and the service has read everything. *)
Lemma accounted_settles b (s : State) :
  (forall t, exists n, forall m, n <= m -> (t <= Handler.now henv m)%Z) -> (forall n, Handler.channel_open henv n = true) ->
  (Handler.request_retries (Handler.handler (handler_task s)) < 256)%Z -> Handler.ticks (handler_task s) < B -> accounted b s ->
  exists n m s', run henv senv (replicate n (AtHandler Handler.EvPollRequests) ++ replicate m ServiceReceives) s = Ret s' /\
    calls (handler_task s') = ∅ /\ (forall id, unread_failures s' id = 0) /\
    forall id, is_active (service_task s') id <= unread_orders s' id + waiting_at s' id + responses (handler_task s') id.
Proof.
  intros Hclock Hopen Hlt Ht Ha. destruct (acc_owes _ _ Ha Ht) as (Ho & Hsy & _).
  assert (settling (handler_task s) (handler_task s)) as Hst0.
  { split; [apply Hsy|apply Ho| |done..]. intros addr l Hl. split; [done|]. destruct (calls _ !! addr); [right; by eexists|by left]. }
  destruct (all_settled henv hrelease Hclock _ _ Hst0 Hlt) as (n & w & E & Hst & Hc).
  destruct (run_polls n s w E) as [l El]. destruct (polls_ledger b n s w l Ha Ht Hst E) as [Hs1 Hl1].
  destruct (run_hears b _ Hs1 Hl1) as (m & s' & Em & Hs' & Hl' & Hr & Hpr & l' & Hh).
  assert (forall id, unread_failures s' id = 0) as Hno by (intros id; unfold unread_failures; by rewrite drop_ge by lia).
  assert (calls (handler_task s') = ∅) as Hc' by (rewrite Hh; exact Hc).
  exists n, m, s'. split_and!; [by rewrite (turns_app _ _ _ _ El)|done|done|]. intros id.
  pose proof (ledger_active s' id (snd_delivered _ _ Hs' Hopen) Hl') as Hle. rewrite Hno in Hle. unfold in_flight_at in Hle.
  rewrite Hc', weight_empty in Hle. rewrite Hpr, Hh in Hle. destruct (st_open _ _ Hst id) as [Hop Hre].
  pose proof (proj2 (inv_owed _ _ _ _ Ho id)) as Hpo. cbv beta in Hpo. rewrite Hh.
  change (open (handler_bans l' _) id) with (open w id) in Hle. change (responses (handler_bans l' _) id) with (responses w id) in *.
  rewrite Hop, Hre in *. specialize (Hle Hpo). lia.
Qed.

(** C9: Liveness.  After any such run, if from then on only time passes: the
    handler polls its timers and the service reads its channel, and after
    finitely many turns no request is in flight and no failure is unread.  A
    request the service still holds as active then is an order the handler has
    not read, or waits for a session the handler does not establish, or had a
    response. *)
Theorem tasks_requests_settle (s s' : State) turns :
  (forall t, exists n, forall m, n <= m -> (t <= Handler.now henv m)%Z) -> (forall n, Handler.channel_open henv n = true) ->
  spawned_tasks s -> Forall turn_ok turns -> (Z.of_nat (length turns) < QueryPool.USIZE_MODULUS)%Z ->
  run henv senv turns s = Ret s' -> (Z.of_nat (Handler.ticks (handler_task s')) < 2 ^ 64)%Z ->
  (Handler.request_retries (Handler.handler (handler_task s')) < 2 ^ 8)%Z ->
  exists n m s'', run henv senv (replicate n (AtHandler Handler.EvPollRequests) ++ replicate m ServiceReceives) s' = Ret s'' /\
    calls (handler_task s'') = ∅ /\ (forall id, unread_failures s'' id = 0) /\
    forall id, is_Some (Service.active_requests (Service.service (service_task s'')) !! id) ->
      0 < unread_orders s'' id + waiting_at s'' id + responses (handler_task s'') id.
Proof.
  intros Hclock Hopen Hs Hok Hlen E Ht%B_spec Hlt.
  destruct (run_accounted 0 s turns (spawned_accounted s Hs) ltac:(lia) Hok) as (s1 & E1 & Ha).
  rewrite E in E1. injection E1 as <-. destruct (accounted_settles _ s' Hclock Hopen Hlt Ht Ha) as (n & m & s'' & E' & Hc & Hno & Hact).
  exists n, m, s''. split_and!; [done..|]. intros id Hid. specialize (Hact id).
  unfold is_active, one_if in Hact. rewrite decide_True in Hact by done. lia.
Qed.
End Run.

(** ** At a concrete run *)
Import ServiceSample HandlerSample.

(** The application asks the other node twice: the handler reads both orders,
    and the second one waits for the session of the first. *)
Definition sample_turns : list (turn (list byte)) :=
  let ask n := AtService (Service.EvRequest (Service.TalkReq contact_b [x01] [x02] n)) in
  [ask 3; ask 4; HandlerReceives; HandlerReceives; AtHandler Handler.EvPollRequests; ServiceReceives].

Definition sample_tasks (s : Service.Service (list byte) TimedSet) : Tasks (list byte) D C SM OM TimedSet :=
  mkTasks world_a (Service.initial s) 0 0.

Lemma sample_spawned s : sample_service = Ret s -> spawned_tasks (sample_tasks s).
Proof.
  intros Hs. unfold sample_service in Hs. split_run. eexists _, _, _, _, _, _. split; [by eexists _, _, _, _, _, _, _|].
  split; [exact Hs|]. split; [|done]. split; [apply new_inv|apply new_keys].
Qed.

Lemma sample_turns_run s :
  sample_service = Ret s -> exists s', run env_a ServiceSample.sample_env sample_turns (sample_tasks s) = Ret s' /\
    (Z.of_nat (Handler.ticks (handler_task s')) < 2 ^ 64)%Z /\ (Handler.request_retries (Handler.handler (handler_task s')) < 2 ^ 8)%Z /\
    is_Some (Service.active_requests (Service.service (service_task s')) !! [x02]).
Proof.
  intros Es. set (summary (s' : Tasks (list byte) D C SM OM TimedSet) := (bool_decide (Handler.ticks (handler_task s') < 1000),
      bool_decide (Handler.request_retries (Handler.handler (handler_task s')) < 256)%Z,
      bool_decide (is_Some (Service.active_requests (Service.service (service_task s')) !! [x02])))).
  assert (summary <$> run env_a ServiceSample.sample_env sample_turns (sample_tasks s) = Ret (true, true, true)) as Hrun.
  { assert (summary <$> (s ← sample_service; run env_a ServiceSample.sample_env sample_turns (sample_tasks s)) = Ret (true, true, true))
      as Hs by (vm_compute; reflexivity). rewrite Es in Hs. exact Hs. }
  destruct (run env_a _ _ _) as [s'|]; [|discriminate].
  injection Hrun as Ht%bool_decide_eq_true Hr%bool_decide_eq_true Ha%bool_decide_eq_true. exists s'. split_and!; [done|lia|done|done].
Qed.

Lemma tasks_requests_accounted_witness :
  match sample_service with
  | Ret s => exists s', run env_a ServiceSample.sample_env sample_turns (sample_tasks s) = Ret s' /\
      0 < unread_orders s' [x02] + in_flight_at s' [x02] + waiting_at s' [x02] + unread_failures s' [x02] + responses (handler_task s') [x02]
  | Panic => False
  end.
Proof.
  destruct sample_service as [s|] eqn:Es; [|vm_compute in Es; discriminate].
  destruct (sample_turns_run s Es) as (s1 & E1 & Ht & Hr & Hid).
  destruct (tasks_requests_accounted env_a ServiceSample.sample_env eq_refl eq_refl (sample_fresh_env x01)
    (fun _ _ => reflexivity _) (sample_tasks s) sample_turns) as (s' & E & Hacc).
  - by apply sample_spawned.
  - repeat constructor.
  - done.
  - rewrite E1 in E. injection E as <-. exists s1. split; [exact E1|]. exact (Hacc (fun _ => eq_refl) Ht [x02] Hid).
Defined.

Lemma tasks_requests_settle_witness :
  match sample_service with
  | Ret s => exists s' n m s'', run env_a ServiceSample.sample_env sample_turns (sample_tasks s) = Ret s' /\
      run env_a ServiceSample.sample_env (replicate n (AtHandler Handler.EvPollRequests) ++ replicate m ServiceReceives) s' = Ret s'' /\
      calls (handler_task s'') = ∅
  | Panic => False
  end.
Proof.
  destruct sample_service as [s|] eqn:Es; [|vm_compute in Es; discriminate].
  destruct (sample_turns_run s Es) as (s' & E & Ht & Hr & _).
  destruct (tasks_requests_settle env_a ServiceSample.sample_env eq_refl eq_refl (sample_fresh_env x01)
    (fun _ _ => reflexivity _) (sample_tasks s) s' sample_turns) as (n & m & s'' & E' & Hc & _).
  - intros t. exists (Z.to_nat t). intros i Hi. simpl. lia.
  - done.
  - by apply sample_spawned.
  - repeat constructor.
  - done.
  - exact E.
  - exact Ht.
  - exact Hr.
  - exists s', n, m, s''. split; [exact E|]. split; [exact E'|exact Hc].
Defined.
