(* ===== verification/Discv5.v ===== *)
(** * The API of a node (src/src/discv5.rs)

    [Discv5] shares the routing table and the local record with the tasks it
    spawns, and [PERMIT_BAN_LIST] is global: an operation takes them and returns
    them, with the readings of the clock as arguments.  The operations that
    return a future are in System.v. *)

From stdpp Require Import strings.
From S2P Require Import Prelude Bytes Key Bucket IpFilter Table TableTrace Rpc Packet NodeInfo Crypto Session Errors Globals.
From S2P Require Import Config Service.
Import NodeInfo KBucket Config.

(** What [enr::Enr] and [enr::CombinedKey] offer besides [EnrCrate] and [EnrUpdate]:
    the TCP sockets, the insertion of an arbitrary field (its former value is
    returned; an error leaves the record), and the public part of a key. *)
Class EnrEdit (Enr : Type) `{!K256} := {
  enr_ip4 : Enr -> option Ipv4Addr;
  enr_tcp4_socket : Enr -> option SocketAddrV4;
  enr_tcp6_socket : Enr -> option SocketAddrV6;
  enr_set_tcp_socket : Enr -> SocketAddr -> CombinedKey -> option Enr;
  enr_insert_value : Enr -> string -> list byte -> CombinedKey -> result string (Enr * option (list byte));
  key_public : CombinedKey -> CombinedPublicKey;
  public_key_eq_dec :: EqDecision CombinedPublicKey;
}.

Module Discv5.

(** The channels lead to a task, by its number; they are written together. *)
Record Discv5 (Enr : Type) `{!K256} := mkDiscv5 {
  config : Config Enr;
  service_channel : option nat;
  service_exit : option nat;
  kbuckets : Table.KBucketsTable NodeId Enr;
  local_enr : Enr;
  enr_key : CombinedKey;
  ip_mode : IpMode.IpMode;
}.
Arguments mkDiscv5 {Enr _} config service_channel service_exit kbuckets local_enr enr_key ip_mode.
Arguments config {Enr _} d : rename.
Arguments service_channel {Enr _} d : rename.
Arguments service_exit {Enr _} d : rename.
Arguments kbuckets {Enr _} d : rename.
Arguments local_enr {Enr _} d : rename.
Arguments enr_key {Enr _} d : rename.
Arguments ip_mode {Enr _} d : rename.

Section Api.
Context {Enr : Type} `{!EqDecision Enr} `{!K256} `{!EnrCrate Enr} `{!EnrUpdate Enr} `{!EnrEdit Enr}.
Notation D := (Discv5 Enr).
Notation Bans := PermitBan.PermitBanList.
Implicit Types (d : D) (node_id : NodeId) (bans : Bans).

(** The filters of the table and of its buckets. *)
Definition filters (c : Config Enr) : option (Filter Enr) * option (Filter Enr) :=
  if ip_limit c then (Some (IpFilter.IpTableFilter enr_ip4), Some (IpFilter.IpBucketFilter enr_ip4)) else (None, None).

Definition new (local_enr : Enr) (enr_key : CombinedKey) (config : Config Enr) : result string (D * Bans) :=
  if decide (enr_public_key local_enr <> key_public enr_key) then Err "Provided keypair does not match the provided ENR"%string
  else
    let config := match executor config with Some _ => config | None => set_executor TokioExecutor config end in
    let '(table_filter, bucket_filter) := filters config in
    let kbuckets := Table.new (Key.from_node_id (enr_node_id local_enr)) (from_secs 60) (incoming_bucket_limit config)
                      table_filter bucket_filter in
    Ok (mkDiscv5 config None None kbuckets local_enr enr_key (IpMode.new_from_listen_config (listen_config config)),
        permit_ban_list config).

Definition with_kbuckets t d : D :=
  mkDiscv5 (config d) (service_channel d) (service_exit d) t (local_enr d) (enr_key d) (ip_mode d).
Definition with_local_enr (e : Enr) d : D :=
  mkDiscv5 (config d) (service_channel d) (service_exit d) (kbuckets d) e (enr_key d) (ip_mode d).
Definition with_service (channel exit : option nat) d : D :=
  mkDiscv5 (config d) channel exit (kbuckets d) (local_enr d) (enr_key d) (ip_mode d).

(** An operation on the table behind its lock. *)
Definition on_table {A} (f : Table.KBucketsTable NodeId Enr -> outcome (Table.KBucketsTable NodeId Enr * A)) d
    : outcome (D * A) :=
  '(t, a) ← f (kbuckets d);
  Ret (with_kbuckets t d, a).

(** ** The routing table *)

Definition add_result (r : Table.TableInsertResult NodeId) : result string unit :=
  match r with
  | Table.TInserted | Table.TPending _ | Table.TStatusUpdated _ | Table.TValueUpdated | Table.TUpdated _
  | Table.TUpdatedPending => Ok ()
  | Table.TFailed Reason_BucketFull => Err "Table full"%string
  | Table.TFailed Reason_BucketFilter => Err "Failed bucket filter"%string
  | Table.TFailed Reason_TableFilter => Err "Failed table filter"%string
  | Table.TFailed Reason_InvalidSelfUpdate => Err "Invalid self update"%string
  | Table.TFailed _ => Err "Failed to insert ENR"%string
  end.

Definition add_enr (clock : nat -> Z) (enr : Enr) d : outcome (D * result string unit) :=
  match IpMode.get_contactable_addr (ip_mode d) enr with
  | None => Ret (d, Err "ENR has no compatible UDP socket to connect to"%string)
  | Some _ =>
      if negb (Config.table_filter (config d) enr) then Ret (d, Err "ENR banned by table filter"%string)
      else
        '(d, r) ← on_table (fun t => Table.insert_or_update (clock 0) (clock 1) t (Key.from_node_id (enr_node_id enr)) enr
                                      (mkStatus Incoming Disconnected)) d;
        Ret (d, add_result r)
  end.

Definition remove_node (clock : nat -> Z) node_id d : outcome (D * bool) :=
  on_table (fun t => Table.table_remove (clock 0) (clock 1) t (Key.from_node_id node_id)) d.

Definition nodes_by_distance (clock : nat -> Z) (distances : list Z) d : outcome (D * list Enr) :=
  let distances := Service.dedup (merge_sort Z.le distances) in
  let '(own, distances) := match distances with
                           | x :: rest => if decide (x = 0%Z) then ([local_enr d], rest) else ([], distances)
                           | [] => ([], [])
                           end in
  match distances with
  | [] => Ret (d, own)
  | _ =>
      '(d, nodes) ← on_table (fun t => Table.nodes_by_distances clock t distances (max_nodes_response (config d))) d;
      Ret (d, own ++ map value nodes)
  end.

Definition disconnect_node (clock : nat -> Z) node_id d : outcome (D * bool) :=
  '(d, r) ← on_table (fun t => Table.update_node_status (clock 0) (clock 1) t (Key.from_node_id node_id) Disconnected None) d;
  Ret (d, negb (failed r)).

Definition connected_peers (clock : nat -> Z) d : outcome (D * nat) :=
  '(d, l) ← on_table (Table.iter clock) d;
  Ret (d, length (filter (fun n => is_connected (status n)) l)).

Definition find_enr (clock : nat -> Z) node_id d : outcome (D * option Enr) :=
  '(d, e) ← on_table (fun t => Table.entry (clock 0) t (Key.from_node_id node_id)) d;
  match e with
  | Entry.Present e _ => v ← Entry.present_value e; Ret (d, Some v)
  | _ => Ret (d, None)
  end.

Definition table_entries_id (clock : nat -> Z) d : outcome (D * list NodeId) :=
  '(d, l) ← on_table (Table.iter clock) d;
  Ret (d, map (fun n => Key.preimage (key n)) l).

Definition table_entries_enr (clock : nat -> Z) d : outcome (D * list Enr) :=
  '(d, l) ← on_table (Table.iter clock) d;
  Ret (d, map value l).

Definition table_entries (clock : nat -> Z) d : outcome (D * list (NodeId * Enr * NodeStatus)) :=
  '(d, l) ← on_table (Table.iter clock) d;
  Ret (d, map (fun n => (Key.preimage (key n), value n, status n)) l).

(** ** Bans and permits *)

Definition set_ban_nodes (f : gmap NodeId (option Z) -> gmap NodeId (option Z)) bans : Bans :=
  PermitBan.mkPermitBan (PermitBan.permit_ips bans) (PermitBan.ban_ips bans) (PermitBan.permit_nodes bans)
    (f (PermitBan.ban_nodes bans)).
Definition set_permit_nodes (f : gset NodeId -> gset NodeId) bans : Bans :=
  PermitBan.mkPermitBan (PermitBan.permit_ips bans) (PermitBan.ban_ips bans) (f (PermitBan.permit_nodes bans))
    (PermitBan.ban_nodes bans).
Definition set_ban_ips (f : gmap IpAddr (option Z) -> gmap IpAddr (option Z)) bans : Bans :=
  PermitBan.mkPermitBan (PermitBan.permit_ips bans) (f (PermitBan.ban_ips bans)) (PermitBan.permit_nodes bans)
    (PermitBan.ban_nodes bans).
Definition set_permit_ips (f : gset IpAddr -> gset IpAddr) bans : Bans :=
  PermitBan.mkPermitBan (f (PermitBan.permit_ips bans)) (PermitBan.ban_ips bans) (PermitBan.permit_nodes bans)
    (PermitBan.ban_nodes bans).

(** The first reading of the clock is that of the ban. *)
Definition ban_node (clock : nat -> Z) node_id (duration_of_ban : option Z) d bans : outcome (D * Bans) :=
  time_to_unban ← ban_expiry (clock 0) duration_of_ban;
  '(d, _) ← remove_node (fun i => clock (S i)) node_id d;
  Ret (d, set_ban_nodes (fun m => <[node_id := time_to_unban]> m) bans).

Definition ban_node_remove node_id bans : Bans := set_ban_nodes (delete node_id) bans.
Definition permit_node node_id bans : Bans := set_permit_nodes (fun s => {[node_id]} ∪ s) bans.
Definition permit_node_remove node_id bans : Bans := set_permit_nodes (fun s => s ∖ {[node_id]}) bans.
Definition ban_ip (now : Z) (ip : IpAddr) (duration_of_ban : option Z) bans : outcome Bans :=
  time_to_unban ← ban_expiry now duration_of_ban;
  Ret (set_ban_ips (fun m => <[ip := time_to_unban]> m) bans).
Definition ban_ip_remove (ip : IpAddr) bans : Bans := set_ban_ips (delete ip) bans.
Definition permit_ip (ip : IpAddr) bans : Bans := set_permit_ips (fun s => {[ip]} ∪ s) bans.
Definition permit_ip_remove (ip : IpAddr) bans : Bans := set_permit_ips (fun s => s ∖ {[ip]}) bans.

(** ** The local record *)

(** A write that keeps the record when it fails. *)
Definition write_enr (e : option Enr) d : D * bool :=
  match e with Some e => (with_local_enr e d, true) | None => (d, false) end.

Definition update_local_enr_socket (socket_addr : SocketAddr) (is_tcp : bool) d : D * bool :=
  let enr := local_enr d in
  match is_tcp, socket_addr with
  | false, SockV4 a =>
      if decide (Some a <> enr_udp4_socket enr) then write_enr (enr_set_udp_socket enr socket_addr (enr_key d)) d else (d, false)
  | true, SockV4 a =>
      if decide (Some a <> enr_tcp4_socket enr) then write_enr (enr_set_tcp_socket enr socket_addr (enr_key d)) d else (d, false)
  | false, SockV6 a =>
      if decide (Some a <> enr_udp6_socket enr) then write_enr (enr_set_udp_socket enr socket_addr (enr_key d)) d else (d, false)
  | true, SockV6 a =>
      if decide (Some a <> enr_tcp6_socket enr) then write_enr (enr_set_tcp_socket enr socket_addr (enr_key d)) d else (d, false)
  end.

(** The value is the encoding of the field. *)
Definition enr_insert (key : string) (value : list byte) d : D * result string (option (list byte)) :=
  match enr_insert_value (local_enr d) key value (enr_key d) with
  | Ok (e, previous) => (with_local_enr e d, Ok previous)
  | Err error => (d, Err error)
  end.

(** ** The service *)

Definition clone_channel d : result (Error.Error Enr) nat :=
  match service_channel d with Some channel => Ok channel | None => Err Error.ServiceNotStarted end.

(** [shutdown], and [Drop]: the task that is told to exit. *)
Definition shutdown d : D * option nat :=
  match service_exit d with
  | Some exit => (with_service None None d, Some exit)
  | None => (d, None)
  end.

(** ** Calls *)

(** A call that does not return a future.  [ClWithKbuckets] is what the closure of
    [with_kbuckets] does to the table, [ClExternalEnr] a write through the handle
    of [external_enr]; the plain readers are left out. *)
Inductive call :=
  | ClAddEnr (enr : Enr)
  | ClRemoveNode (node_id : NodeId)
  | ClNodesByDistance (distances : list Z)
  | ClDisconnectNode (node_id : NodeId)
  | ClConnectedPeers
  | ClFindEnr (node_id : NodeId)
  | ClTableEntriesId
  | ClTableEntriesEnr
  | ClTableEntries
  | ClBanNode (node_id : NodeId) (duration_of_ban : option Z)
  | ClBanNodeRemove (node_id : NodeId)
  | ClPermitNode (node_id : NodeId)
  | ClPermitNodeRemove (node_id : NodeId)
  | ClBanIp (ip : IpAddr) (duration_of_ban : option Z)
  | ClBanIpRemove (ip : IpAddr)
  | ClPermitIp (ip : IpAddr)
  | ClPermitIpRemove (ip : IpAddr)
  | ClUpdateLocalEnrSocket (socket_addr : SocketAddr) (is_tcp : bool)
  | ClEnrInsert (key : string) (value : list byte)
  | ClWithKbuckets (op : TableTrace.table_op NodeId Enr)
  | ClExternalEnr (enr : Enr).

(** What a call leaves; [clock] gives its readings of the clock. *)
Definition run_call (clock : nat -> Z) (c : call) d bans : outcome (D * Bans) :=
  let keep {A} (r : outcome (D * A)) := '(d, _) ← r; Ret (d, bans) in
  match c with
  | ClAddEnr enr => keep (add_enr clock enr d)
  | ClRemoveNode node_id => keep (remove_node clock node_id d)
  | ClNodesByDistance distances => keep (nodes_by_distance clock distances d)
  | ClDisconnectNode node_id => keep (disconnect_node clock node_id d)
  | ClConnectedPeers => keep (connected_peers clock d)
  | ClFindEnr node_id => keep (find_enr clock node_id d)
  | ClTableEntriesId => keep (table_entries_id clock d)
  | ClTableEntriesEnr => keep (table_entries_enr clock d)
  | ClTableEntries => keep (table_entries clock d)
  | ClBanNode node_id duration_of_ban => ban_node clock node_id duration_of_ban d bans
  | ClBanNodeRemove node_id => Ret (d, ban_node_remove node_id bans)
  | ClPermitNode node_id => Ret (d, permit_node node_id bans)
  | ClPermitNodeRemove node_id => Ret (d, permit_node_remove node_id bans)
  | ClBanIp ip duration_of_ban => bans ← ban_ip (clock 0) ip duration_of_ban bans; Ret (d, bans)
  | ClBanIpRemove ip => Ret (d, ban_ip_remove ip bans)
  | ClPermitIp ip => Ret (d, permit_ip ip bans)
  | ClPermitIpRemove ip => Ret (d, permit_ip_remove ip bans)
  | ClUpdateLocalEnrSocket socket_addr is_tcp => Ret (fst (update_local_enr_socket socket_addr is_tcp d), bans)
  | ClEnrInsert key value => Ret (fst (enr_insert key value d), bans)
  | ClWithKbuckets op => keep (on_table (fun t => t ← TableTrace.run_table_op clock op t; Ret (t, ())) d)
  | ClExternalEnr enr => Ret (with_local_enr enr d, bans)
  end.
End Api.
Arguments call Enr : clear implicits.
End Discv5.
