(* ===== verification/System.v ===== *)
(** * A node and its tasks (src/src/discv5.rs, service.rs)

    [Discv5] together with the services it has spawned and the futures its
    methods returned.  The table, the local record and [PERMIT_BAN_LIST] are
    shared by all; a task has the rest of its [Service], the queue of the channel
    [discv5_recv] and the state of its [exit] channel.  The futures are numbered,
    and the one-shot channel a future waits for has the number of the future.  An
    event is a call of the user, a poll of a future, or a turn of the loop of a
    task; several tasks can be there, when a node is restarted before the task
    that was told to exit does so. *)

From stdpp Require Import strings.
From S2P Require Import Prelude Bytes Key Bucket Table TableTrace FindNode QueryPool Rpc QueryInfo Packet NodeInfo Crypto Session Errors.
From S2P Require Import Globals Config Maps Handler Service Discv5.
Import NodeInfo Config Service.

Module System.

Export Discv5.

(** The capacity of the channel to the service. *)
Definition CHANNEL_CAPACITY : nat := 30.

Section Types.
Context (Enr PS : Type) `{!K256}.

(** The methods that return a future; a multiaddress that cannot be converted is [None]. *)
Inductive request :=
  | CallPing (enr : Enr)
  | CallRequestEnr (multiaddr : option (list Multiaddr.Protocol))
  | CallTalk (enr : Enr) (protocol body : list byte)
  | CallFindNodeDesignated (enr : Enr) (distances : list Z)
  | CallFindNode (target_node : NodeId)
  | CallFindNodePredicate (target_node : NodeId) (predicate : Enr -> bool) (target_peer_no : nat)
  | CallEventStream.

(** What a future resolves to. *)
Inductive response :=
  | RetPong (r : result (RequestError Enr) PongInfo)
  | RetEnr (r : result (RequestError Enr) Enr)
  | RetTalk (r : result (RequestError Enr) (list byte))
  | RetNodes (r : result (RequestError Enr) (list Enr))
  | RetQuery (r : result QueryError.QueryError (list Enr))
  | RetStream (r : result (Error.Error Enr) unit).

(** Not polled yet, resolved before anything was sent, waiting for the callback, or
    resolved by it. *)
Inductive future_state :=
  | Created
  | Refused (r : response)
  | Awaiting
  | Completed (r : response).

(** A future holds a clone of the channel. *)
Record future := mkFuture {
  future_call : request;
  future_channel : result (Error.Error Enr) nat;
  future_mode : IpMode.IpMode;
  future_state_of : future_state;
}.

Record task := mkTask {
  task_service : Service Enr PS;
  task_requests : list (ServiceRequest Enr);
  task_exit : bool;
}.

(** The branches of the loop that do not come from the channel of requests. *)
Inductive task_event :=
  | OnHandler (o : Handler.HandlerOut Enr)
  | OnBucketMaintenance
  | OnQuery
  | OnPing.

Inductive event :=
  | EvCall (clock : nat -> Z) (c : Discv5.call Enr)
  | EvStart (bound : result string unit)
  | EvShutdown
  | EvFuture (r : request)
  | EvPoll (i : nat)
  | EvTaskRequest (i : nat)
  | EvTask (i : nat) (e : task_event)
  | EvTaskExit (i : nat).
End Types.
Arguments CallPing {Enr} enr.
Arguments CallRequestEnr {Enr} multiaddr.
Arguments CallTalk {Enr} enr protocol body.
Arguments CallFindNodeDesignated {Enr} enr distances.
Arguments CallFindNode {Enr} target_node.
Arguments CallFindNodePredicate {Enr} target_node predicate target_peer_no.
Arguments CallEventStream {Enr}.
Arguments RetPong {Enr} r.
Arguments RetEnr {Enr} r.
Arguments RetTalk {Enr} r.
Arguments RetNodes {Enr} r.
Arguments RetQuery {Enr} r.
Arguments RetStream {Enr} r.
Arguments Created {Enr}.
Arguments Refused {Enr} r.
Arguments Awaiting {Enr}.
Arguments Completed {Enr} r.
Arguments mkFuture {Enr} future_call future_channel future_mode future_state_of.
Arguments future_call {Enr} f : rename.
Arguments future_channel {Enr} f : rename.
Arguments future_mode {Enr} f : rename.
Arguments future_state_of {Enr} f : rename.
Arguments mkTask {Enr PS _} task_service task_requests task_exit.
Arguments task_service {Enr PS _} t : rename.
Arguments task_requests {Enr PS _} t : rename.
Arguments task_exit {Enr PS _} t : rename.
Arguments OnHandler {Enr} o.
Arguments OnBucketMaintenance {Enr}.
Arguments OnQuery {Enr}.
Arguments OnPing {Enr}.
Arguments EvCall {Enr} clock c.
Arguments EvStart {Enr} bound.
Arguments EvShutdown {Enr}.
Arguments EvFuture {Enr} r.
Arguments EvPoll {Enr} i.
Arguments EvTaskRequest {Enr} i.
Arguments EvTask {Enr} i e.
Arguments EvTaskExit {Enr} i.

(** A task that has ended is [None]; [outputs] is what all the tasks have put out. *)
Record System (Enr PS : Type) `{!K256} := mkSystem {
  discv5 : Discv5.Discv5 Enr;
  tasks : list (option (task Enr PS));
  futures : list (future Enr);
  outputs : list (Output Enr);
  clock_ticks : nat;
  bans : PermitBan.PermitBanList;
}.
Arguments mkSystem {Enr PS _} discv5 tasks futures outputs clock_ticks bans.
Arguments discv5 {Enr PS _} s : rename.
Arguments tasks {Enr PS _} s : rename.
Arguments futures {Enr PS _} s : rename.
Arguments outputs {Enr PS _} s : rename.
Arguments clock_ticks {Enr PS _} s : rename.
Arguments bans {Enr PS _} s : rename.

(** ** Futures *)

(** The channel of a sender. *)
Definition channel_of (s : Sender) : Channel :=
  match s with SendQuery c | SendNodes c | SendTalk c | SendPong c | SendStream c => c end.

Section Futures.
Context {Enr : Type} `{!K256} `{!EnrCrate Enr} `{!Multiaddr.Libp2p}.
Implicit Types (r : request Enr) (f : future Enr).

(** The service is not started. *)
Definition not_started r : response Enr :=
  match r with
  | CallPing _ => RetPong (Err ServiceNotStarted)
  | CallRequestEnr _ => RetEnr (Err ServiceNotStarted)
  | CallTalk _ _ _ => RetTalk (Err ServiceNotStarted)
  | CallFindNodeDesignated _ _ => RetNodes (Err ServiceNotStarted)
  | CallFindNode _ | CallFindNodePredicate _ _ _ => RetQuery (Err QueryError.ServiceNotStarted)
  | CallEventStream => RetStream (Err Error.ServiceNotStarted)
  end.

(** The channel to the service failed with a message. *)
Definition channel_failed r (msg : string) : response Enr :=
  match r with
  | CallPing _ => RetPong (Err (ChannelFailed msg))
  | CallRequestEnr _ => RetEnr (Err (ChannelFailed msg))
  | CallTalk _ _ _ => RetTalk (Err (ChannelFailed msg))
  | CallFindNodeDesignated _ _ => RetNodes (Err (ChannelFailed msg))
  | CallFindNode _ | CallFindNodePredicate _ _ _ => RetQuery (Err (QueryError.ChannelFailed msg))
  | CallEventStream => RetStream (Err Error.ServiceChannelClosed)
  end.

(** A method up to the send: its error, or the task and the request it sends. *)
Definition prepare (callback : Channel) f : outcome (response Enr + nat * ServiceRequest Enr) :=
  let r := future_call f in
  let to_service (request : ServiceRequest Enr) :=
    match future_channel f with Ok channel => inr (channel, request) | Err _ => inl (not_started r) end in
  match r with
  | CallPing enr => Ret (to_service (PingReq enr (Some callback)))
  | CallRequestEnr multiaddr =>
      match future_channel f with
      | Err _ => Ret (inl (not_started r))
      | Ok channel =>
          match multiaddr with
          | None => Ret (inl (RetEnr (Err (InvalidMultiaddr "Could not convert to multiaddr"))))
          | Some multiaddr =>
              contact ← Multiaddr.try_from_multiaddr multiaddr;
              Ret (match contact with
                   | Ok node_contact => inr (channel, FindNodeDesignated node_contact [0%Z] callback)
                   | Err e => inl (RetEnr (Err (InvalidMultiaddr e)))
                   end)
          end
      end
  | CallTalk enr protocol request =>
      match try_from_enr enr (future_mode f) with
      | Err e => Ret (inl (RetTalk (Err (from_non_contactable e))))
      | Ok node_contact => Ret (to_service (TalkReq node_contact protocol request callback))
      end
  | CallFindNodeDesignated enr distances =>
      match try_from_enr enr (future_mode f) with
      | Err e => Ret (inl (RetNodes (Err (from_non_contactable e))))
      | Ok node_contact => Ret (to_service (FindNodeDesignated node_contact distances callback))
      end
  | CallFindNode target_node => Ret (to_service (StartQuery (KindFindNode target_node) callback))
  | CallFindNodePredicate target_node predicate target_peer_no =>
      Ret (to_service (StartQuery (KindPredicate target_node target_peer_no predicate) callback))
  | CallEventStream => Ret (to_service (RequestEventStream callback))
  end.

(** What a method makes of the answer; [None] if the answer is not of the type of
    its channel. *)
Definition receive r (a : Answer Enr) : option (response Enr) :=
  match r, a with
  | CallPing _, AnsPong a => Some (RetPong a)
  | CallRequestEnr _, AnsNodes (Ok nodes) =>
      Some (RetEnr (match last nodes with
                    | Some enr => Ok enr
                    | None => Err (Errors.InvalidEnr "Peer did not return an ENR")
                    end))
  | CallRequestEnr _, AnsNodes (Err err) => Some (RetEnr (Err err))
  | CallTalk _ _ _, AnsTalk a => Some (RetTalk a)
  | CallFindNodeDesignated _ _, AnsNodes a => Some (RetNodes a)
  | CallFindNode _, AnsQuery enrs | CallFindNodePredicate _ _ _, AnsQuery enrs => Some (RetQuery (Ok enrs))
  | CallEventStream, AnsStream => Some (RetStream (Ok ()))
  | _, _ => None
  end.

(** What was sent through the channel [c], or that its sender was dropped. *)
Fixpoint resolution (c : Channel) (out : list (Output Enr)) : option (option (Answer Enr)) :=
  match out with
  | Answered c' a :: out => if decide (c' = c) then Some (Some a) else resolution c out
  | Dropped s :: out => if decide (channel_of s = c) then Some None else resolution c out
  | _ :: out => resolution c out
  | [] => None
  end.

Definition with_state (s : future_state Enr) f : future Enr :=
  mkFuture (future_call f) (future_channel f) (future_mode f) s.
End Futures.

(** ** Steps *)

Section System.
Context {Enr PS : Type} `{!EqDecision Enr} `{!K256} `{!EnrCrate Enr} `{!Packet.EnrCodec Enr} `{!EnrUpdate Enr} `{!EnrEdit Enr}.
Context `{!HashSetDelay PS NodeId} `{!Multiaddr.Libp2p}.
Variable env : Env Enr.
Notation Sys := (System Enr PS).
Implicit Types (sys : Sys) (t : task Enr PS).

Definition with_discv5 d sys : Sys := mkSystem d (tasks sys) (futures sys) (outputs sys) (clock_ticks sys) (bans sys).
Definition with_tasks l sys : Sys := mkSystem (discv5 sys) l (futures sys) (outputs sys) (clock_ticks sys) (bans sys).
Definition with_futures l sys : Sys := mkSystem (discv5 sys) (tasks sys) l (outputs sys) (clock_ticks sys) (bans sys).

Definition live sys (i : nat) : option (task Enr PS) := mjoin (tasks sys !! i).

Definition start (bound : result string unit) sys : outcome (Sys * result (Error.Error Enr) unit) :=
  let d := discv5 sys in
  match service_channel d with
  | Some _ => Ret (sys, Err Error.ServiceAlreadyStarted)
  | None =>
      s ← Service.new (local_enr d) (enr_key d) (kbuckets d) (config d);
      match bound with
      | Err e => Ret (sys, Err (Error.from_io e))
      | Ok _ =>
          let i := length (tasks sys) in
          Ret (with_tasks (tasks sys ++ [Some (mkTask s [] false)]) (with_discv5 (Discv5.with_service (Some i) (Some i) d) sys), Ok ())
      end
  end.

Definition shutdown sys : Sys :=
  let '(d, exit) := Discv5.shutdown (discv5 sys) in
  let sys := with_discv5 d sys in
  match exit with
  | None => sys
  | Some i =>
      match live sys i with
      | Some t => with_tasks (<[i := Some (mkTask (task_service t) (task_requests t) true)]> (tasks sys)) sys
      | None => sys
      end
  end.

(** A method that returns a future clones the channel. *)
Definition new_future (r : request Enr) sys : Sys :=
  with_futures (futures sys ++ [mkFuture r (clone_channel (discv5 sys)) (Discv5.ip_mode (discv5 sys)) Created]) sys.

Definition set_future (i : nat) (f : future Enr) sys : Sys := with_futures (<[i := f]> (futures sys)) sys.

(** [channel.send(event).await]: waits while the channel is full. *)
Definition send (i : nat) (f : future Enr) (channel : nat) (r : ServiceRequest Enr) sys : Sys :=
  match live sys channel with
  | None => set_future i (with_state (Refused (channel_failed (future_call f) "Service channel closed")) f) sys
  | Some t =>
      if decide (length (task_requests t) < CHANNEL_CAPACITY) then
        set_future i (with_state Awaiting f)
          (with_tasks (<[channel := Some (mkTask (task_service t) (task_requests t ++ [r]) (task_exit t))]> (tasks sys)) sys)
      else sys
  end.

Definition poll_future (i : nat) sys : outcome Sys :=
  match futures sys !! i with
  | None => Ret sys
  | Some f =>
      match future_state_of f with
      | Refused _ | Completed _ => Ret sys
      | Created =>
          r ← prepare i f;
          Ret (match r with
               | inl response => set_future i (with_state (Refused response) f) sys
               | inr (channel, request) => send i f channel request sys
               end)
      | Awaiting =>
          Ret (match resolution i (outputs sys) with
               | None => sys
               | Some None => set_future i (with_state (Completed (channel_failed (future_call f) "channel closed")) f) sys
               | Some (Some a) =>
                   match receive (future_call f) a with
                   | Some response => set_future i (with_state (Completed response) f) sys
                   | None => sys
                   end
               end)
      end
  end.

(** The service of a task sees the shared table and record, and writes them back. *)
Definition attach (d : Discv5 Enr) (s : Service Enr PS) : Service Enr PS :=
  Service.with_kbuckets (kbuckets d) (Service.with_local_enr (local_enr d) s).
Definition detach (s : Service Enr PS) (d : Discv5 Enr) : Discv5 Enr :=
  Discv5.with_kbuckets (Service.kbuckets s) (Discv5.with_local_enr (Service.local_enr s) d).

Definition world_of sys t : World Enr PS := mkWorld (attach (discv5 sys) (task_service t)) (outputs sys) (clock_ticks sys) (bans sys).

(** A turn of the loop of the task [i], with [requests] left in its channel. *)
Definition turn (i : nat) (e : SEvent Enr) (requests : list (ServiceRequest Enr)) t sys : outcome Sys :=
  '(w, _) ← Service.step env e (world_of sys t);
  Ret (mkSystem (detach (service w) (discv5 sys)) (<[i := Some (mkTask (service w) requests (task_exit t))]> (tasks sys))
         (futures sys) (out w) (ticks w) (permit_ban_list w)).

Definition service_event (e : task_event Enr) : SEvent Enr :=
  match e with
  | OnHandler o => EvHandler o
  | OnBucketMaintenance => EvBucketMaintenance
  | OnQuery => EvQuery
  | OnPing => Service.EvPing
  end.

(** The callbacks that go out of scope with a task. *)
Definition senders t : list Sender :=
  map (fun iq => SendQuery (QueryInfo.callback (QueryPool.target iq.2))) (map_to_list (QueryPool.queries (queries (task_service t)))) ++
  omap (fun ia => sender <$> callback ia.2) (map_to_list (active_requests (task_service t))) ++
  omap request_sender (task_requests t).

Definition step (e : event Enr) sys : outcome Sys :=
  match e with
  | EvCall clock c =>
      '(d, l) ← Discv5.run_call clock c (discv5 sys) (bans sys);
      Ret (mkSystem d (tasks sys) (futures sys) (outputs sys) (clock_ticks sys) l)
  | EvStart bound => '(sys, _) ← start bound sys; Ret sys
  | EvShutdown => Ret (shutdown sys)
  | EvFuture r => Ret (new_future r sys)
  | EvPoll i => poll_future i sys
  | EvTaskRequest i =>
      match live sys i with
      | Some t =>
          match task_requests t with
          | r :: requests => turn i (EvRequest r) requests t sys
          | [] => Ret sys
          end
      | None => Ret sys
      end
  | EvTask i e =>
      match live sys i with
      | Some t => turn i (service_event e) (task_requests t) t sys
      | None => Ret sys
      end
  | EvTaskExit i =>
      match live sys i with
      | Some t =>
          if task_exit t then
            Ret (mkSystem (discv5 sys) (<[i := None]> (tasks sys)) (futures sys) (map Dropped (senders t) ++ outputs sys)
                   (clock_ticks sys) (bans sys))
          else Ret sys
      | None => Ret sys
      end
  end.

Fixpoint run (events : list (event Enr)) sys : outcome Sys :=
  match events with
  | [] => Ret sys
  | e :: events => sys ← step e sys; run events sys
  end.

(** The node [Discv5::new] returns. *)
Definition init (d : Discv5 Enr) (l : PermitBan.PermitBanList) : Sys := mkSystem d [] [] [] 0 l.
End System.
End System.
