(* ===== verification/SystemInv.v ===== *)
(** * The invariant of a node and its tasks

    Every event keeps the routing table, the queries of every task and the
    channels well-formed, and every request that a future has sent is accounted
    for: its callback is in the queue of a task, held by one of its queries or
    active requests, or has been answered or dropped. *)

From stdpp Require Import strings.
From S2P Require Import Prelude Bytes Key Bucket Table TableProofs TableTrace FindNode QueryPool Rpc QueryInfo IpVote.
From S2P Require Import Packet NodeInfo Crypto Maps ActiveRequests Session Errors Globals Config Handler HandlerLogic.
From S2P Require Import Service ServiceNodes ServiceLogic ServiceInv Discv5 System.
Import NodeInfo Config Service System.

(** ** Sums over lists and maps *)

Lemma sum_insert {A} (f : A -> nat) (l : list A) i x y :
  l !! i = Some x -> sum_list_with f (<[i := y]> l) + f x = sum_list_with f l + f y.
Proof.
  intros Hi. rewrite <-(take_drop_middle l i x Hi) at 2. rewrite insert_take_drop by (by eapply lookup_lt_Some).
  rewrite !sum_list_with_app. simpl. lia.
Qed.

(** A sum over a list with the positions. *)
Fixpoint isum {A} (f : nat -> A -> nat) (i : nat) (l : list A) : nat :=
  match l with [] => 0 | x :: l => f i x + isum f (S i) l end.

Lemma isum_app {A} (f : nat -> A -> nat) i l k : isum f i (l ++ k) = isum f i l + isum f (i + length l) k.
Proof.
  revert i. induction l as [|x l IH]; intros i; simpl; [by rewrite Nat.add_0_r|]. rewrite IH, <-Nat.add_succ_comm. lia.
Qed.

Lemma isum_insert {A} (f : nat -> A -> nat) n l i x y :
  l !! i = Some x -> isum f n (<[i := y]> l) + f (n + i) x = isum f n l + f (n + i) y.
Proof.
  intros Hi. pose proof (lookup_lt_Some _ _ _ Hi). rewrite <-(take_drop_middle l i x Hi) at 2.
  rewrite insert_take_drop by done. rewrite !isum_app. simpl. rewrite length_take, Nat.min_l by lia. lia.
Qed.

Lemma msum_to_list {K A} `{Countable K} (f : K -> A -> nat) (m : gmap K A) :
  msum f m = sum_list_with (fun kx => f kx.1 kx.2) (map_to_list m).
Proof. unfold msum. rewrite map_fold_foldr, sum_list_with_foldr. induction (map_to_list m) as [|[k x] l IH]; simpl; [done|]. by rewrite IH. Qed.

Lemma sum_omap {A B} (f : A -> option B) (g : B -> nat) l :
  sum_list_with g (omap f l) = sum_list_with (fun x => from_option g 0 (f x)) l.
Proof.
  induction l as [|x l IH]; [done|].
  change (omap f (x :: l)) with (match f x with Some y => y :: omap f l | None => omap f l end).
  simpl. rewrite <-IH. by destruct (f x).
Qed.

Lemma sum_map {A B} (f : A -> B) (g : B -> nat) l : sum_list_with g (map f l) = sum_list_with (fun x => g (f x)) l.
Proof. induction l as [|x l IH]; simpl; [done|]. by rewrite IH. Qed.

Lemma sum_ext {A} (f g : A -> nat) l : (forall x, f x = g x) -> sum_list_with f l = sum_list_with g l.
Proof. intros E. induction l as [|x l IH]; simpl; [done|]. by rewrite E, IH. Qed.

(** ** The libraries of multiaddresses *)

(** A decoded key of a supported type is a key of its curve. *)
Class Libp2pLaws `{!K256} `{!Multiaddr.Libp2p} : Prop := {
  decoded_secp256k1 b u :
    Multiaddr.try_decode_protobuf b = Some (Multiaddr.KeySecp256k1 u) -> is_Some (Multiaddr.secp256k1_from_sec1_bytes u);
  decoded_ed25519 b u :
    Multiaddr.try_decode_protobuf b = Some (Multiaddr.KeyEd25519 u) -> is_Some (Multiaddr.ed25519_from_bytes u);
}.

(** A peer id is a multihash: a code, a length and a digest. *)
Definition protocol_ok (p : Multiaddr.Protocol) : Prop :=
  match p with Multiaddr.P2p peer_id => 2 <= length peer_id | _ => True end.

Section Multiaddr.
Context {Enr : Type} `{!K256} `{!Multiaddr.Libp2p} `{!Libp2pLaws}.

Lemma fill_ok l acc :
  Forall protocol_ok l -> (forall peer_id, acc.2 = Some peer_id -> 2 <= length peer_id) ->
  forall peer_id, (foldl Multiaddr.fill acc l).2 = Some peer_id -> 2 <= length peer_id.
Proof.
  intros Hl. revert acc. induction Hl as [|p l Hp _ IH]; intros [[ip port] p2p] Hacc; simpl; [done|].
  apply IH. destruct p; simpl in *; try done. by intros ? [= <-].
Qed.

Lemma try_from_multiaddr_total l :
  Forall protocol_ok l -> exists r : result string (NodeContact Enr), Multiaddr.try_from_multiaddr l = Ret r.
Proof.
  intros Hl. unfold Multiaddr.try_from_multiaddr. pose proof (fill_ok l (None, None, None) Hl ltac:(done)) as Hp.
  destruct (foldl Multiaddr.fill (None, None, None) l) as [[[ip|] [port|]] [p2p|]]; try (by eexists).
  specialize (Hp p2p eq_refl). unfold Multiaddr.convert_key. rewrite decide_False by lia.
  destruct (Multiaddr.try_decode_protobuf (drop 2 p2p)) as [[u|u|]|] eqn:Ed; try (by eexists).
  - destruct (decoded_secp256k1 _ _ Ed) as [pk ->]. by eexists.
  - destruct (decoded_ed25519 _ _ Ed) as [pk ->]. by eexists.
Qed.
End Multiaddr.

(** ** Calls *)

Section Calls.
Context {Enr : Type} `{!EqDecision Enr} `{!K256} `{!EnrCrate Enr} `{!EnrUpdate Enr} `{!EnrEdit Enr}.
Implicit Types d : Discv5 Enr.

Lemma table_remove_total now now' k : table_total (Enr := Enr) (fun t => Table.table_remove now now' t k) (fun _ => True).
Proof.
  intros t [Hi Hk]. destruct (table_remove_ok now now' t k Hi) as (t' & r & E & Hc). exists t', r.
  split; [done|]. split; [|done]. split; [|by eapply table_remove_keys].
  destruct (Table.index_of t k); [by destruct Hc as (b & (? & _) & _)|by destruct Hc as [-> _]].
Qed.

(** What a call does not write. *)
Definition same_handle d d' : Prop :=
  Discv5.config d' = Discv5.config d /\ service_channel d' = service_channel d /\ service_exit d' = service_exit d /\
  Discv5.ip_mode d' = Discv5.ip_mode d.

Lemma on_table_total {A} (f : Table.KBucketsTable NodeId Enr -> outcome (Table.KBucketsTable NodeId Enr * A)) R d :
  table_total f R -> keyed (kbuckets d) ->
  exists d' a, Discv5.on_table f d = Ret (d', a) /\ keyed (kbuckets d') /\ same_handle d d' /\ R a.
Proof.
  intros Hf Hd. destruct (Hf _ Hd) as (t' & a & E & Ht & Ra). unfold Discv5.on_table. rewrite E. by eexists _, a.
Qed.

Definition call_ok (c : Discv5.call Enr) : Prop :=
  match c with ClWithKbuckets op => table_op_keys of_node_id op | _ => True end.

(** A call that only works on the table. *)
Definition api_total {A} (m : Discv5 Enr -> outcome (Discv5 Enr * A)) : Prop :=
  forall d, keyed (kbuckets d) -> exists d' a, m d = Ret (d', a) /\ keyed (kbuckets d') /\ same_handle d d'.

Lemma api_on_table {A B} (f : Table.KBucketsTable NodeId Enr -> outcome (Table.KBucketsTable NodeId Enr * A)) R
    (k : Discv5 Enr -> A -> outcome (Discv5 Enr * B)) :
  table_total f R -> (forall d a, R a -> exists b, k d a = Ret (d, b)) ->
  api_total (fun d => '(d, a) ← Discv5.on_table f d; k d a).
Proof.
  intros Hf Hk d Hd. destruct (on_table_total f R d Hf Hd) as (d' & a & E & Ht & Hs & Ra). rewrite E. simpl.
  destruct (Hk d' a Ra) as [b Eb]. exists d', b. done.
Qed.

Lemma add_enr_total clock enr : api_total (add_enr clock enr).
Proof.
  intros d Hd. unfold add_enr. destruct (IpMode.get_contactable_addr _ _); [|by eexists _, _].
  destruct (negb _); [by eexists _, _|].
  apply (api_on_table _ (fun _ => True) (fun d r => Ret (d, add_result r))); [by apply insert_or_update_total|by eexists|done].
Qed.

Lemma remove_node_total clock node_id : api_total (remove_node clock node_id).
Proof.
  intros d Hd. destruct (on_table_total _ (fun _ => True) d (table_remove_total (clock 0) (clock 1) (Key.from_node_id node_id)) Hd)
    as (d' & a & E & Ht & Hs & _). by exists d', a.
Qed.

Lemma nodes_by_distance_total clock distances : api_total (nodes_by_distance clock distances).
Proof.
  intros d Hd. unfold nodes_by_distance. cbv zeta.
  set (p := match dedup (merge_sort Z.le distances) with [] => _ | _ => _ end). destruct p as [own [|x ds]]; [by eexists _, _|].
  apply (api_on_table _ (fun _ => True) (fun d r => Ret (d, own ++ map KBucket.value r))); [apply nodes_by_distances_total|by eexists|done].
Qed.

Lemma disconnect_node_total clock node_id : api_total (disconnect_node clock node_id).
Proof.
  apply (api_on_table _ (fun _ => True) (fun d r => Ret (d, negb (KBucket.failed r)))); [apply update_node_status_total|by eexists].
Qed.

Lemma find_enr_total clock node_id : api_total (Discv5.find_enr clock node_id).
Proof.
  apply (api_on_table _ _ (fun d e => match e with Entry.Present e _ => v ← Entry.present_value e; Ret (d, Some v) | _ => Ret (d, None) end)
    (entry_total (clock 0) (Key.from_node_id node_id))).
  intros d e He. destruct e; try by eexists. destruct He as [?|[bk He]]; [done|].
  destruct (present_value_total _ _ _ _ (eq_sym He)) as [v ->]. by eexists.
Qed.

Lemma iter_api_total {B} clock (g : list (KBucket.Node NodeId Enr) -> B) :
  api_total (fun d => '(d, l) ← Discv5.on_table (Table.iter clock) d; Ret (d, g l)).
Proof. apply (api_on_table _ (fun _ => True) (fun d l => Ret (d, g l))); [apply iter_total|by eexists]. Qed.

(** The end of a ban the application asks for is an instant. *)
Definition ban_in_range (clock : nat -> Z) (c : Discv5.call Enr) : Prop :=
  match c with
  | Discv5.ClBanNode _ duration | Discv5.ClBanIp _ duration => ban_representable (clock 0) duration
  | _ => True
  end.

Lemma run_call_total clock c d (l : PermitBan.PermitBanList) :
  call_ok c -> ban_in_range clock c -> keyed (kbuckets d) ->
  exists d' l', Discv5.run_call clock c d l = Ret (d', l') /\ keyed (kbuckets d') /\ same_handle d d'.
Proof.
  intros Hc Hr Hd.
  assert (forall A (m : Discv5 Enr -> outcome (Discv5 Enr * A)), api_total m ->
    exists d' l', (('(d, _) ← m d; Ret (d, l)) : outcome (Discv5 Enr * PermitBan.PermitBanList)) = Ret (d', l') /\
      keyed (kbuckets d') /\ same_handle d d') as Hkeep.
  { intros A m Hm. destruct (Hm d Hd) as (d' & a & -> & ? & ?). by eexists _, _. }
  destruct c; cbn [run_call]; try (by eexists _, _).
  - apply Hkeep, add_enr_total.
  - apply Hkeep, remove_node_total.
  - apply Hkeep, nodes_by_distance_total.
  - apply Hkeep, disconnect_node_total.
  - apply Hkeep, (iter_api_total clock (fun l => length (filter (fun n => is_connected (KBucket.status n)) l))).
  - apply Hkeep, find_enr_total.
  - apply Hkeep, (iter_api_total clock (fun l => map (fun n => Key.preimage (KBucket.key n)) l)).
  - apply Hkeep, (iter_api_total clock (fun l => map KBucket.value l)).
  - apply Hkeep, (iter_api_total clock (fun l => map (fun n => (Key.preimage (KBucket.key n), KBucket.value n, KBucket.status n)) l)).
  - unfold ban_node. rewrite ban_expiry_ok by done. cbn [mbind outcome_bind].
    destruct (remove_node_total (fun i => clock (S i)) node_id0 d Hd) as (d' & a & -> & ? & ?). by eexists _, _.
  - unfold ban_ip. rewrite ban_expiry_ok by done. by eexists _, _.
  - unfold update_local_enr_socket, write_enr.
    destruct is_tcp, socket_addr0; case_decide; try (by eexists _, _); (destruct (enr_set_udp_socket _ _ _) || destruct (enr_set_tcp_socket _ _ _)); by eexists _, _.
  - unfold enr_insert. destruct (enr_insert_value _ _ _ _) as [[e p]|e]; by eexists _, _.
  - apply Hkeep. intros d' Hd'. destruct (on_table_total _ (fun _ => True) d' (table_op_total clock op Hc) Hd') as (d2 & a & E & ? & ? & _).
    by exists d2, a.
Qed.
End Calls.

(** ** The invariant *)

Section Inv.
Context {Enr PS : Type} `{!EqDecision Enr} `{!K256} `{!EnrCrate Enr} `{!Packet.EnrCodec Enr} `{!EnrUpdate Enr} `{!EnrEdit Enr}.
Context `{!HashSetDelay PS NodeId} `{!Multiaddr.Libp2p} `{!Libp2pLaws}.
Variable env : Env Enr.
Hypothesis release : debug_assertions env = false.
Hypothesis orders : forall n qs, iteration_order qs (query_order env n qs).
Implicit Types (sys : System Enr PS) (t : task Enr PS) (f : future Enr) (r : request Enr) (b : Z) (g : Sender -> nat).

(** The callback of a method that returns a future. *)
Definition call_sender r (c : Channel) : Sender :=
  match r with
  | CallPing _ => SendPong c
  | CallRequestEnr _ | CallFindNodeDesignated _ _ => SendNodes c
  | CallTalk _ _ _ => SendTalk c
  | CallFindNode _ | CallFindNodePredicate _ _ _ => SendQuery c
  | CallEventStream => SendStream c
  end.

(** The request of the future was sent. *)
Definition sent f : bool := match future_state_of f with Awaiting | Completed _ => true | _ => false end.

Definition future_weight g (i : nat) f : nat := if sent f then g (call_sender (future_call f) i) else 0.

Definition queue_weight g (l : list (ServiceRequest Enr)) : nat :=
  sum_list_with (fun x => from_option g 0 (request_sender x)) l.

Definition task_weight g t : nat :=
  msum (request_weight g) (active_requests (task_service t)) +
  msum (target_weight g) (targets (QueryPool.queries (queries (task_service t)))) +
  queue_weight g (task_requests t).

Definition slot_weight g (o : option (task Enr PS)) : nat := from_option (task_weight g) 0 o.

(** A response of the type of the method. *)
Definition response_typed r (x : response Enr) : bool :=
  match r, x with
  | CallPing _, RetPong _ | CallRequestEnr _, RetEnr _ | CallTalk _ _ _, RetTalk _
  | CallFindNodeDesignated _ _, RetNodes _ | CallFindNode _, RetQuery _ | CallFindNodePredicate _ _ _, RetQuery _
  | CallEventStream, RetStream _ => true
  | _, _ => false
  end.

Definition future_typed f : Prop :=
  match future_state_of f with Refused x | Completed x => response_typed (future_call f) x = true | _ => True end.

(** The peer ids of a multiaddress are well-formed. *)
Definition request_ok r : Prop :=
  match r with CallRequestEnr (Some m) => Forall protocol_ok m | _ => True end.

(** The queries of a task, of which at most [b] were started. *)
Definition task_ok b t : Prop :=
  (forall i q, QueryPool.queries (queries (task_service t)) !! i = Some q ->
     query_ok (QueryPool.next_id (queries (task_service t))) i q) /\
  (0 <= QueryPool.next_id (queries (task_service t)) <= b)%Z.

Record sys_inv b sys : Prop := {
  si_table : keyed (kbuckets (discv5 sys));
  si_config : valid (Discv5.config (discv5 sys));
  si_handles : service_exit (discv5 sys) = service_channel (discv5 sys);
  si_task i t : live sys i = Some t -> task_ok b t;
  si_exit i t : live sys i = Some t -> task_exit t = false -> service_channel (discv5 sys) = Some i;
  si_future i f : futures sys !! i = Some f -> request_ok (future_call f);
  si_typed i f : futures sys !! i = Some f -> future_typed f;
  si_bound : (0 <= b)%Z;
  si_count g :
    sum_list_with (out_weight g g) (outputs sys) + sum_list_with (slot_weight g) (tasks sys) =
    isum (future_weight g) 0 (futures sys);
}.

Lemma live_Some sys i t : live sys i = Some t <-> tasks sys !! i = Some (Some t).
Proof. unfold live. destruct (tasks sys !! i) as [[t'|]|]; simpl; naive_solver. Qed.

(** What a task drops when it ends is what it holds. *)
Lemma senders_weight g t : sum_list_with g (senders t) = task_weight g t.
Proof.
  unfold senders, task_weight, queue_weight. rewrite !sum_list_with_app, sum_map, !sum_omap, !msum_to_list. unfold targets.
  rewrite map_to_list_fmap. rewrite sum_map.
  rewrite (sum_ext (fun ia => from_option g 0 (sender <$> callback ia.2)) (fun ia => request_weight g ia.1 ia.2)).
  { rewrite (sum_ext (fun x => target_weight g _ _) (fun iq => g (SendQuery (QueryInfo.callback (QueryPool.target iq.2))))) by done. lia. }
  intros [id a]. unfold request_weight, cb_weight. simpl. by destruct (callback a).
Qed.

Lemma task_ok_mono b b' t : (b <= b')%Z -> task_ok b t -> task_ok b' t.
Proof. intros Hb [Hq Hn]. split; [done|lia]. Qed.

(** Another state of a task in its slot. *)
Lemma lookup_slot sys l i t j t' :
  live sys i = Some t -> live (with_tasks (<[i := l]> (tasks sys)) sys) j = Some t' ->
  (j = i /\ l = Some t') \/ (j <> i /\ live sys j = Some t').
Proof.
  intros Hi%live_Some Hj%live_Some. simpl in Hj. destruct (decide (j = i)) as [->|Hne].
  - rewrite list_lookup_insert_eq in Hj by (by eapply lookup_lt_Some). left. split; congruence.
  - rewrite list_lookup_insert_ne in Hj by done. right. split; [done|]. by apply live_Some.
Qed.

Lemma slot_sum g sys i t l :
  live sys i = Some t ->
  sum_list_with (slot_weight g) (<[i := l]> (tasks sys)) + task_weight g t =
  sum_list_with (slot_weight g) (tasks sys) + slot_weight g l.
Proof. intros Hi%live_Some. apply (sum_insert (slot_weight g) (tasks sys) i (Some t) l Hi). Qed.

Lemma future_sum g sys i f f' :
  futures sys !! i = Some f ->
  isum (future_weight g) 0 (<[i := f']> (futures sys)) + future_weight g i f =
  isum (future_weight g) 0 (futures sys) + future_weight g i f'.
Proof. intros Hi. apply (isum_insert (future_weight g) 0 (futures sys) i f f' Hi). Qed.

(** ** Methods *)

Lemma prepare_total i f :
  request_ok (future_call f) ->
  exists p, prepare i f = Ret p /\
    (forall channel x, p = inr (channel, x) ->
      request_sender x = Some (call_sender (future_call f) i) /\ future_channel f = Ok channel) /\
    (forall x, p = inl x -> response_typed (future_call f) x = true).
Proof.
  intros Hf. unfold prepare. destruct (future_call f) as [enr|[m|]|enr p body|enr ds|tg|tg p n|];
    destruct (future_channel f) as [channel|e] eqn:Ec; try (destruct (try_from_enr enr (future_mode f)));
    try (eexists; split; [reflexivity|]; split; intros; by simplify_eq).
  destruct (try_from_multiaddr_total (Enr := Enr) m Hf) as [[c|e] ->]; eexists; (split; [reflexivity|]); split; intros; by simplify_eq.
Qed.

Lemma channel_failed_typed r msg : response_typed r (channel_failed r msg) = true.
Proof. by destruct r. Qed.

Lemma receive_response_typed r (a : Answer Enr) x : receive r a = Some x -> response_typed r x = true.
Proof. destruct r, a as [|[]| | |]; simpl; intros ?; by simplify_eq. Qed.

(** An answer of the type of the callback is received. *)
Lemma receive_typed r (a : Answer Enr) c : answered_by c a = call_sender r c -> is_Some (receive r a).
Proof. destruct r, a as [|[]| | |]; simpl; intros E; (done || by eexists). Qed.

(** ** Events *)

Definition event_good (e : event Enr) : Prop :=
  match e with EvCall clock c => call_ok c /\ ban_in_range clock c | EvFuture r => request_ok r | _ => True end.

(** The service [spawn] builds from a valid configuration. *)
Lemma service_new_total (e : Enr) k table (c : Config Enr) :
  valid c -> exists s : Service Enr PS, Service.new e k table c = Ret s /\
    queries s = QueryPool.new (query_timeout c) /\ active_requests s = ∅.
Proof.
  intros [_ Hm [ex Hex]]. unfold Service.new, IpVote.new. rewrite Hex. destruct (enr_update c).
  - rewrite decide_False by lia. by eexists.
  - by eexists.
Qed.

Lemma at_call b sys clock c :
  sys_inv b sys -> call_ok c -> ban_in_range clock c -> exists sys', System.step env (EvCall clock c) sys = Ret sys' /\ sys_inv b sys'.
Proof.
  intros [Ht Hc Hh Hk He Hf Hy Hb Hs] Hok Hr. destruct (run_call_total clock c (discv5 sys) (bans sys) Hok Hr Ht) as (d & l & E & Hd & Hsame).
  simpl. rewrite E. eexists. split; [reflexivity|]. destruct Hsame as (E1 & E2 & E3 & _).
  split; simpl; rewrite ?E1, ?E2, ?E3; done.
Qed.

Lemma fresh_task_ok b s timeout : (0 <= b)%Z -> queries s = QueryPool.new timeout -> task_ok b (mkTask s [] false).
Proof. intros Hb Eq. split; simpl; rewrite Eq; simpl; [intros j q; by rewrite lookup_empty|lia]. Qed.

Lemma fresh_task_weight g s timeout :
  queries s = QueryPool.new timeout -> active_requests s = ∅ -> task_weight g (mkTask s [] false) = 0.
Proof. intros Eq Ea. unfold task_weight. simpl. rewrite Eq, Ea. unfold targets. simpl. by rewrite fmap_empty, !msum_empty. Qed.

Lemma at_start_task b sys bound :
  sys_inv b sys -> exists sys', System.step env (EvStart bound) sys = Ret sys' /\ sys_inv b sys'.
Proof.
  intros Hinv. pose proof Hinv as [Ht Hc Hh Hk He Hf Hy Hb Hs]. simpl. unfold System.start. set (d := discv5 sys) in *.
  destruct (service_channel d) eqn:Ec; [by eexists|].
  destruct (service_new_total (local_enr d) (enr_key d) (kbuckets d) (Discv5.config d) Hc) as (s & -> & Eq & Ea). simpl.
  destruct bound as [[]|e]; [|by eexists]. eexists. split; [reflexivity|].
  assert (forall i t, (tasks sys ++ [Some (mkTask s [] false)]) !! i = Some (Some t) ->
    live sys i = Some t \/ (i = length (tasks sys) /\ t = mkTask s [] false)) as Hl.
  { intros i t [Hi|[Hlen Hi]]%lookup_app_Some; [left; by apply live_Some|].
    apply list_lookup_singleton_Some in Hi as [Hz [= <-]]. right. split; [lia|done]. }
  split; simpl; [done|done|done| | |done|done|done|].
  - intros i t [Hi|[-> ->]]%live_Some%Hl; [by eapply Hk|by eapply fresh_task_ok].
  - intros i t [Hi|[-> ->]]%live_Some%Hl Hx; [|done]. specialize (He i t Hi Hx). congruence.
  - intros g. rewrite sum_list_with_app. simpl. rewrite (fresh_task_weight g s _ Eq Ea), <-Hs. lia.
Qed.

Lemma at_shutdown b sys : sys_inv b sys -> sys_inv b (System.shutdown sys).
Proof.
  intros Hinv. pose proof Hinv as [Ht Hc Hh Hk He Hf Hy Hb Hs]. unfold System.shutdown, Discv5.shutdown.
  destruct (service_exit (discv5 sys)) as [i|] eqn:Ex; [|by destruct sys].
  change (live (with_discv5 _ sys) i) with (live sys i). destruct (live sys i) as [t|] eqn:Ei.
  - set (t' := mkTask (task_service t) (task_requests t) true).
    split; simpl; [done|done|done| | |done|done|done|].
    + intros j u Hj. apply (lookup_slot sys (Some t') i t) in Hj as [[-> [= <-]]|[_ Hj]]; [exact (Hk i t Ei)|by eapply Hk|done].
    + intros j u Hj Hu. apply (lookup_slot sys (Some t') i t) in Hj as [[-> [= <-]]|[Hne Hj]]; [done| |done].
      specialize (He j u Hj Hu). congruence.
    + intros g. pose proof (slot_sum g sys i t (Some t') Ei) as Hsum. specialize (Hs g).
      change (slot_weight g (Some t')) with (task_weight g t) in Hsum. lia.
  - split; simpl; [done|done|done|done| |done|done|done|done]. intros j u Hj Hu.
    change (live sys j = Some u) in Hj. specialize (He j u Hj Hu). congruence.
Qed.

Lemma at_future b sys r : sys_inv b sys -> request_ok r -> sys_inv b (new_future r sys).
Proof.
  intros [Ht Hc Hh Hk He Hf Hy Hb Hs] Hr. split; simpl; [done|done|done|done|done| | |done|].
  - intros i f [Hi|[_ Hi]]%lookup_app_Some; [by eapply Hf|]. by apply list_lookup_singleton_Some in Hi as [_ <-].
  - intros i f [Hi|[_ Hi]]%lookup_app_Some; [by eapply Hy|]. by apply list_lookup_singleton_Some in Hi as [_ <-].
  - intros g. rewrite isum_app. simpl. rewrite Hs. lia.
Qed.

(** A future that goes on without a send. *)
Lemma at_set_future b sys i f st :
  sys_inv b sys -> futures sys !! i = Some f -> sent (with_state st f) = sent f -> future_typed (with_state st f) ->
  sys_inv b (set_future i (with_state st f) sys).
Proof.
  intros [Ht Hc Hh Hk He Hf Hy Hb Hs] Hi Hst Hty. split; simpl; [done|done|done|done|done| | |done|].
  - intros j f' [(<- & <- & _)|[_ Hj]]%list_lookup_insert_Some; [|by eapply Hf]. exact (Hf i f Hi).
  - intros j f' [(<- & <- & _)|[_ Hj]]%list_lookup_insert_Some; [done|by eapply Hy].
  - intros g. pose proof (future_sum g sys i f (with_state st f) Hi) as Hsum. specialize (Hs g).
    assert (future_weight g i (with_state st f) = future_weight g i f) as E by (unfold future_weight; by rewrite Hst). lia.
Qed.

Lemma at_send b sys i f channel x :
  sys_inv b sys -> futures sys !! i = Some f -> future_state_of f = Created ->
  request_sender x = Some (call_sender (future_call f) i) -> sys_inv b (send i f channel x sys).
Proof.
  intros Hinv Hi Hst Hx. unfold send. destruct (live sys channel) as [t|] eqn:El.
  2: { apply at_set_future; [done|done| |apply channel_failed_typed]. unfold sent. by rewrite Hst. }
  case_decide; [|done]. pose proof Hinv as [Ht Hc Hh Hk He Hf Hy Hb Hs].
  set (t' := mkTask (task_service t) (task_requests t ++ [x]) (task_exit t)).
  split; simpl; [done|done|done| | | | |done|].
  - intros j u Hj. apply (lookup_slot sys (Some t') channel t) in Hj as [[-> [= <-]]|[_ Hj]]; [exact (Hk channel t El)|by eapply Hk|done].
  - intros j u Hj Hu. apply (lookup_slot sys (Some t') channel t) in Hj as [[-> [= <-]]|[Hne Hj]]; [by apply (He channel t)|by eapply He|done].
  - intros j f' [(<- & <- & _)|[_ Hj]]%list_lookup_insert_Some; [|by eapply Hf]. exact (Hf i f Hi).
  - intros j f' [(<- & <- & _)|[_ Hj]]%list_lookup_insert_Some; [done|by eapply Hy].
  - intros g. pose proof (slot_sum g sys channel t (Some t') El) as Hslot. pose proof (future_sum g sys i f (with_state Awaiting f) Hi) as Hfut.
    specialize (Hs g).
    assert (future_weight g i f = 0) as E0 by (unfold future_weight, sent; by rewrite Hst).
    change (future_weight g i (with_state Awaiting f)) with (g (call_sender (future_call f) i)) in Hfut.
    assert (slot_weight g (Some t') = task_weight g t + g (call_sender (future_call f) i)) as Ew.
    { unfold slot_weight, t', task_weight, queue_weight. simpl. rewrite sum_list_with_app. simpl. rewrite Hx. simpl. lia. }
    lia.
Qed.

Lemma at_poll b sys i : sys_inv b sys -> exists sys', poll_future i sys = Ret sys' /\ sys_inv b sys'.
Proof.
  intros Hinv. unfold poll_future. destruct (futures sys !! i) as [f|] eqn:Hi; [|by eexists].
  destruct (future_state_of f) eqn:Hst; [|by eexists| |by eexists].
  - destruct (prepare_total i f (si_future _ _ Hinv i f Hi)) as (p & -> & Hp & Hr). simpl. eexists. split; [reflexivity|].
    destruct p as [response|[channel x]].
    + apply at_set_future; [done|done| |by apply Hr]. unfold sent. by rewrite Hst.
    + destruct (Hp channel x eq_refl) as [Hx _]. by apply at_send.
  - eexists. split; [reflexivity|]. destruct (resolution i (outputs sys)) as [[a|]|]; [|apply at_set_future; [done|done| |apply channel_failed_typed]|done].
    + destruct (receive (future_call f) a) as [x|] eqn:Er; [|done].
      apply at_set_future; [done|done| |by eapply receive_response_typed]. unfold sent. by rewrite Hst.
    + unfold sent. by rewrite Hst.
Qed.

(** ** Turns of the tasks *)

Lemma world_balance g sys t :
  balance g g (world_of sys t) =
  (Z.of_nat (sum_list_with (out_weight g g) (outputs sys) + task_weight g t) -
   Z.of_nat (queue_weight g (task_requests t)))%Z.
Proof. unfold balance, task_weight, world_of. simpl. lia. Qed.

Lemma world_inv b sys t : sys_inv b sys -> task_ok b t -> inv b (world_of sys t).
Proof. intros Hinv [Hq Hn]. split; simpl; [apply Hinv|exact Hq|exact Hn]. Qed.

(** A turn takes from the queue what the event brings. *)
Lemma at_turn b sys i t e requests :
  sys_inv b sys -> (b + 1 < QueryPool.USIZE_MODULUS)%Z -> live sys i = Some t -> event_ok e ->
  (forall g, queue_weight g (task_requests t) =
     submitted g e + queue_weight g requests) ->
  exists sys', turn env i e requests t sys = Ret sys' /\ sys_inv (b + 1) sys'.
Proof.
  intros Hinv Hb Hi He Hq. pose proof Hinv as [Ht Hc Hh Hk Hx Hf Hy Hb0 Hs].
  pose proof (world_inv b sys t Hinv (Hk i t Hi)) as Hw.
  destruct (at_step env release orders (fun _ => 0) (fun _ => 0) (fun _ => eq_refl) b (world_of sys t) e Hw Hb He)
    as (w & [] & E & [Iw Iq In] & _ & _).
  unfold turn. rewrite E. eexists. split; [reflexivity|]. set (t' := mkTask (service w) requests (task_exit t)).
  split; simpl; [exact Iw|done|done| | |done|done|lia|].
  - intros j u Hj. apply (lookup_slot sys (Some t') i t) in Hj as [[-> [= <-]]|[_ Hj]]; [done| |done].
    apply (task_ok_mono b); [lia|by eapply Hk].
  - intros j u Hj Hu. apply (lookup_slot sys (Some t') i t) in Hj as [[-> [= <-]]|[Hne Hj]]; [by apply (Hx i t)|by eapply Hx|done].
  - intros g. destruct (at_step env release orders g g (fun _ => eq_refl) b (world_of sys t) e Hw Hb He) as (w' & [] & E' & _ & Hbal & _).
    rewrite E in E'. injection E' as <-. rewrite (world_balance g sys t) in Hbal. unfold balance in Hbal.
    pose proof (slot_sum g sys i t (Some t') Hi) as Hslot. specialize (Hs g). specialize (Hq g).
    change (slot_weight g (Some t')) with (task_weight g t') in Hslot. unfold task_weight in Hslot at 2. simpl in Hslot.
    assert (queue_weight g (task_requests t) <= task_weight g t) as Hle
      by (unfold task_weight; lia). lia.
Qed.

Lemma at_exit b sys i : sys_inv b sys -> exists sys', System.step env (EvTaskExit i) sys = Ret sys' /\ sys_inv b sys'.
Proof.
  intros Hinv. simpl. destruct (live sys i) as [t|] eqn:Hi; [|by eexists]. destruct (task_exit t) eqn:Et; [|by eexists].
  eexists. split; [reflexivity|]. destruct Hinv as [Ht Hc Hh Hk Hx Hf Hy Hb Hs].
  split; simpl; [done|done|done| | |done|done|done|].
  - intros j u Hj. apply (lookup_slot sys None i t) in Hj as [[_ ?]|[_ Hj]]; [done|by eapply Hk|done].
  - intros j u Hj Hu. apply (lookup_slot sys None i t) in Hj as [[_ ?]|[_ Hj]]; [done|by eapply Hx|done].
  - intros g. pose proof (slot_sum g sys i t None Hi) as Hslot. specialize (Hs g). simpl in Hslot.
    rewrite sum_list_with_app, sum_map. simpl. pose proof (senders_weight g t) as Hw.
    rewrite (sum_ext (fun x => g x) g) by done. lia.
Qed.

Lemma inv_weaken b sys : sys_inv b sys -> sys_inv (b + 1) sys.
Proof. intros [Ht Hc Hh Hk Hx Hf Hy Hb Hs]. split; [done..| |done|done|done|lia|done]. intros i t Hi. apply (task_ok_mono b); [lia|by eapply Hk]. Qed.

Lemma at_event b sys e :
  sys_inv b sys -> (b + 1 < QueryPool.USIZE_MODULUS)%Z -> event_good e ->
  exists sys', System.step env e sys = Ret sys' /\ sys_inv (b + 1) sys'.
Proof.
  intros Hinv Hb He.
  assert (forall e, (exists sys', System.step env e sys = Ret sys' /\ sys_inv b sys') ->
    exists sys', System.step env e sys = Ret sys' /\ sys_inv (b + 1) sys') as Hw.
  { intros e' (sys' & E & Hi). exists sys'. split; [done|by apply inv_weaken]. }
  destruct e as [clock c|bound| |r|i|i|i e|i].
  - destruct He. by apply Hw, at_call.
  - by apply Hw, at_start_task.
  - apply Hw. eexists. split; [reflexivity|by apply at_shutdown].
  - apply Hw. eexists. split; [reflexivity|by apply at_future].
  - by apply Hw, at_poll.
  - simpl. destruct (live sys i) as [t|] eqn:Hi; [|by eexists; split; [|by apply inv_weaken]].
    destruct (task_requests t) as [|x requests] eqn:Er; [by eexists; split; [|by apply inv_weaken]|].
    apply (at_turn b); [done|done|done|done|]. intros g. rewrite Er. simpl. by destruct (request_sender x).
  - simpl. destruct (live sys i) as [t|] eqn:Hi; [|by eexists; split; [|by apply inv_weaken]].
    apply (at_turn b); [done|done|done|by destruct e|]. intros g. by destruct e.
  - by apply Hw, at_exit.
Qed.

Lemma at_run b sys events :
  sys_inv b sys -> (b + Z.of_nat (length events) < QueryPool.USIZE_MODULUS)%Z -> Forall event_good events ->
  exists sys', System.run env events sys = Ret sys' /\ sys_inv (b + Z.of_nat (length events)) sys'.
Proof.
  intros Hinv Hb He. revert b sys Hinv Hb. induction He as [|e events He _ IH]; intros b sys Hinv Hb; simpl.
  - exists sys. split; [done|]. by rewrite Z.add_0_r.
  - simpl in Hb. destruct (at_event b sys e Hinv ltac:(lia) He) as (sys1 & -> & Hinv1). simpl.
    replace (b + Z.of_nat (S (length events)))%Z with (b + 1 + Z.of_nat (length events))%Z by lia. apply IH; [done|lia].
Qed.
End Inv.
