(* ===== verification/SystemRun.v ===== *)
(** * The properties of a node and its tasks

    A node that was built from a valid configuration never panics, whatever the
    user, the handler and the schedule of its tasks do; every future it returns
    resolves at most once and with its type, and once the tasks have exited all
    of them resolve. *)

From stdpp Require Import strings.
From S2P Require Import Prelude Bytes Key Bucket Table TableProofs TableTrace FindNode QueryPool Rpc QueryInfo IpVote.
From S2P Require Import Packet NodeInfo Crypto Maps ActiveRequests Session Errors Globals Config Handler HandlerLogic.
From S2P Require Import Service ServiceNodes ServiceSample ServiceLogic ServiceInv ServiceRun Discv5 System SystemInv.
Import NodeInfo Config Service System.

Section Run.
Context {Enr PS : Type} `{!EqDecision Enr} `{!K256} `{!EnrCrate Enr} `{!Packet.EnrCodec Enr} `{!EnrUpdate Enr} `{!EnrEdit Enr}.
Context `{!HashSetDelay PS NodeId} `{!Multiaddr.Libp2p} `{!Libp2pLaws}.
Implicit Types (sys : System Enr PS) (f : future Enr) (c : Channel) (d : Discv5 Enr).

(** A node from the builder of configurations, in a release build. *)
Definition node_built (env : Env Enr) d (l : PermitBan.PermitBanList) (events : list (event Enr)) : Prop :=
  debug_assertions env = false /\ (forall i qs, iteration_order qs (query_order env i qs)) /\
  (exists now listen_config settings config local_enr enr_key,
     built now listen_config settings = Ret config /\ Discv5.new local_enr enr_key config = Ok (d, l)) /\
  Forall event_good events /\ (Z.of_nat (length events) < QueryPool.USIZE_MODULUS)%Z.


Lemma init_inv d l local_enr enr_key config :
  valid config -> Discv5.new local_enr enr_key config = Ok (d, l) -> sys_inv 0 (init (PS := PS) d l).
Proof.
  intros Hv. unfold Discv5.new. case_decide; [done|].
  assert (valid (match executor config with Some _ => config | None => set_executor TokioExecutor config end)) as Hv'.
  { destruct (executor config); [done|]. destruct Hv as [? ? _]. split; [done|done|by eexists]. }
  set (config' := match executor config with Some _ => _ | None => _ end) in *.
  destruct (filters config') as [tf bf]. intros [= <- <-].
  split; simpl; [split; [apply new_inv|apply new_keys]|done|done|by intros ? ? ?%live_Some..|by intros ? ?|by intros ? ?|lia|done].
Qed.

Lemma built_runs env d l events :
  node_built env d l events ->
  exists sys, System.run env events (init (PS := PS) d l) = Ret sys /\ sys_inv (Z.of_nat (length events)) sys.
Proof.
  intros (Hr & Ho & (now & lc & settings & config & local_enr & enr_key & Hb & Hn) & He & Hl).
  pose proof (init_inv d l local_enr enr_key config (built_valid _ _ _ _ Hb) Hn) as Hinv.
  by apply (at_run env Hr Ho 0 (init d l) events Hinv).
Qed.

(** ** Counting the resolutions of a channel *)

(** Outputs that resolve the channel [c]. *)
Definition resolves c (o : Output Enr) : bool :=
  match o with Answered c' _ => bool_decide (c' = c) | Dropped s => bool_decide (channel_of s = c) | _ => false end.

(** The callbacks of the channel [c] that the tasks hold, in their queues, their
    queries and their active requests. *)
Definition held c sys : nat :=
  sum_list_with (from_option (fun t => countb (fun s => bool_decide (channel_of s = c)) (senders t)) 0) (tasks sys).

Definition on_channel c : Sender -> nat := fun s => if bool_decide (channel_of s = c) then 1 else 0.

Lemma channel_answered c (a : Answer Enr) : channel_of (answered_by c a) = c.
Proof. by destruct a. Qed.

Lemma channel_call r c : channel_of (call_sender (Enr := Enr) r c) = c.
Proof. by destruct r. Qed.

Lemma resolves_weight c (out : list (Output Enr)) :
  sum_list_with (out_weight (on_channel c) (on_channel c)) out = countb (resolves c) out.
Proof. apply sum_countb. intros [| |c' a|s]; simpl; [done|done| |done]. unfold on_channel. by rewrite channel_answered. Qed.

Lemma held_weight c sys : sum_list_with (slot_weight (on_channel c)) (tasks sys) = held c sys.
Proof.
  apply sum_ext. intros [t|]; simpl; [|done]. rewrite <-senders_weight. by apply sum_countb.
Qed.

Lemma isum_single {A} (w : nat -> A -> nat) i n l :
  (forall j x, j <> i -> w j x = 0) ->
  isum w n l = if decide (n <= i) then from_option (w i) 0 (l !! (i - n)) else 0.
Proof.
  intros Hw. revert n. induction l as [|x l IH]; intros n; simpl; [by case_decide|]. rewrite IH.
  destruct (decide (n = i)) as [->|Hne].
  - rewrite Nat.sub_diag, decide_False, decide_True by lia. simpl. lia.
  - rewrite Hw by done. destruct (decide (n <= i)) as [Hle|Hgt].
    + rewrite decide_True by lia. replace (i - n) with (S (i - S n)) by lia. done.
    + by rewrite decide_False by lia.
Qed.

(** A weight on one channel only sees the future of that channel. *)
Lemma future_sum_single (g : Sender -> nat) i (l : list (future Enr)) :
  (forall s, channel_of s <> i -> g s = 0) -> isum (future_weight g) 0 l = from_option (future_weight g i) 0 (l !! i).
Proof.
  intros Hg. rewrite (isum_single _ i), decide_True, Nat.sub_0_r by (try lia; intros j f Hj; unfold future_weight;
    rewrite Hg by (by rewrite channel_call); by destruct (sent f)). done.
Qed.

Lemma channel_count b sys i f :
  sys_inv b sys -> futures sys !! i = Some f ->
  countb (resolves i) (outputs sys) + held i sys = if sent f then 1 else 0.
Proof.
  intros Hinv Hi. rewrite <-resolves_weight, <-held_weight. rewrite (si_count _ _ Hinv).
  rewrite (future_sum_single _ i), Hi.
  - simpl. unfold future_weight, on_channel. rewrite channel_call, bool_decide_true by done. done.
  - intros s Hs. unfold on_channel. by rewrite bool_decide_false.
Qed.

(** ** What a future receives *)

Lemma resolution_in c (out : list (Output Enr)) a : resolution c out = Some (Some a) -> Answered c a ∈ out.
Proof.
  induction out as [|o out IH]; simpl; [done|]. rewrite elem_of_cons. destruct o as [| |c' a'|s]; auto.
  - case_decide as Hc; [|auto]. intros [= <-]. left. by rewrite Hc.
  - case_decide; [done|auto].
Qed.

Lemma resolution_None c (out : list (Output Enr)) : resolution c out = None -> countb (resolves c) out = 0.
Proof.
  induction out as [|o out IH]; simpl; [done|]. destruct o as [| |c' a|s]; simpl; auto;
    (case_decide; [done|]; by rewrite bool_decide_false).
Qed.

(** An answer for a future whose request was sent has the type of its channel. *)
Lemma answer_typed b sys i f a :
  sys_inv b sys -> futures sys !! i = Some f -> resolution i (outputs sys) = Some (Some a) ->
  answered_by i a = call_sender (future_call f) i.
Proof.
  intros Hinv Hi Ha%resolution_in.
  destruct (decide (answered_by i a = call_sender (future_call f) i)) as [|Hne]; [done|exfalso].
  set (g := fun s => if decide (s = answered_by i a) then 1 else 0).
  pose proof (si_count _ _ Hinv g) as Hs. rewrite (future_sum_single g i), Hi in Hs.
  - assert (from_option (future_weight g i) 0 (Some f) = 0) as E0.
    { simpl. unfold future_weight, g. rewrite decide_False by congruence. by destruct (sent f). }
    assert (1 <= sum_list_with (out_weight g g) (outputs sys)) as Hle; [|lia].
    etrans; [|by apply sum_list_with_in]. simpl. unfold g. by rewrite decide_True.
  - intros s Hs'. unfold g. rewrite decide_False; [done|]. intros ->. by rewrite channel_answered in Hs'.
Qed.

(** ** After a shutdown *)

Definition finished f : bool := match future_state_of f with Refused _ | Completed _ => true | _ => false end.

Definition all_exited sys : Prop := forall i, live sys i = None.

Lemma no_channel_exits b sys i t :
  sys_inv b sys -> service_channel (discv5 sys) = None -> live sys i = Some t -> task_exit t = true.
Proof.
  intros Hinv Hc Hi. destruct (task_exit t) eqn:Et; [done|]. pose proof (si_exit _ _ Hinv i t Hi Et). congruence.
Qed.

Lemma shutdown_channel sys : service_exit (discv5 sys) = service_channel (discv5 sys) -> service_channel (discv5 (System.shutdown sys)) = None.
Proof.
  intros E. unfold System.shutdown, Discv5.shutdown. destruct (service_exit (discv5 sys)) as [i|]; [|by simpl].
  by destruct (live _ i).
Qed.

Lemma shutdown_sizes sys :
  length (tasks (System.shutdown sys)) = length (tasks sys) /\ futures (System.shutdown sys) = futures sys.
Proof.
  unfold System.shutdown, Discv5.shutdown. destruct (service_exit (discv5 sys)) as [i|]; [|done].
  destruct (live _ i); simpl; [by rewrite length_insert|done].
Qed.

(** A task without a channel exits. *)
Lemma exit_one env b sys i :
  sys_inv b sys -> service_channel (discv5 sys) = None ->
  exists sys', System.step env (EvTaskExit i) sys = Ret sys' /\ sys_inv b sys' /\
    service_channel (discv5 sys') = None /\ futures sys' = futures sys /\ live sys' i = None /\
    (forall j, live sys j = None -> live sys' j = None).
Proof.
  intros Hinv Hc. destruct (at_exit env b sys i Hinv) as (sys' & E & Hinv'). exists sys'. split; [done|]. split; [done|].
  simpl in E. destruct (live sys i) as [t|] eqn:Hi; [|by injection E as <-].
  rewrite (no_channel_exits b sys i t Hinv Hc Hi) in E. injection E as <-. simpl. split; [done|]. split; [done|].
  apply live_Some in Hi as Hi'. unfold live. simpl. split.
  - by rewrite list_lookup_insert_eq by (by eapply lookup_lt_Some).
  - intros j Hj. destruct (decide (j = i)) as [->|Hne].
    + by rewrite list_lookup_insert_eq by (by eapply lookup_lt_Some).
    + by rewrite list_lookup_insert_ne.
Qed.

Lemma exit_all env b l sys :
  sys_inv b sys -> service_channel (discv5 sys) = None ->
  exists sys', System.run env (map EvTaskExit l) sys = Ret sys' /\ sys_inv b sys' /\ futures sys' = futures sys /\
    (forall j, j ∈ l \/ live sys j = None -> live sys' j = None).
Proof.
  revert sys. induction l as [|i l IH]; intros sys Hinv Hc.
  { exists sys. split_and!; [done..|]. intros j [Hj|Hj]; [by apply elem_of_nil in Hj|done]. }
  destruct (exit_one env b sys i Hinv Hc) as (sys1 & E1 & Hinv1 & Hc1 & Hf1 & Hi1 & Hl1).
  destruct (IH sys1 Hinv1 Hc1) as (sys2 & E2 & Hinv2 & Hf2 & Hl2).
  exists sys2. split_and!; [|done|congruence|].
  - cbn [map System.run]. rewrite E1. exact E2.
  - intros j [[->|Hj]%elem_of_cons|Hj]; apply Hl2; auto.
Qed.

Lemma held_exited c sys : all_exited sys -> held c sys = 0.
Proof.
  intros Hx. unfold held. assert (Forall (fun o => o = None) (tasks sys)) as Hn.
  { apply Forall_forall. intros o [j Hj]%list_elem_of_lookup_1. specialize (Hx j). unfold live in Hx. rewrite Hj in Hx. by destruct o. }
  induction Hn as [|o l -> _ IH]; simpl; [done|exact IH].
Qed.

(** Without tasks a poll resolves its future. *)
Lemma poll_one b sys i :
  sys_inv b sys -> all_exited sys ->
  exists sys', poll_future i sys = Ret sys' /\ sys_inv b sys' /\ all_exited sys' /\
    length (futures sys') = length (futures sys) /\
    (forall j f, futures sys' !! j = Some f -> finished f = true \/ (j <> i /\ futures sys !! j = Some f)).
Proof.
  intros Hinv Hx. destruct (at_poll b sys i Hinv) as (sys' & E & Hinv'). exists sys'. split; [done|]. split; [done|].
  unfold poll_future in E. destruct (futures sys !! i) as [f|] eqn:Hi.
  2: { injection E as <-. split_and!; [done..|]. intros j f Hj. right. split; [congruence|done]. }
  assert (forall st, finished (with_state st f) = true -> sys' = set_future i (with_state st f) sys ->
    all_exited sys' /\ length (futures sys') = length (futures sys) /\
    forall j f', futures sys' !! j = Some f' -> finished f' = true \/ (j <> i /\ futures sys !! j = Some f')) as Hdone.
  { intros st Hst ->. split; [done|]. split; [simpl; by rewrite length_insert|]. simpl.
    intros j f' [(<- & <- & _)|[Hne Hj]]%list_lookup_insert_Some; [by left|right; by split]. }
  destruct (future_state_of f) eqn:Hst.
  - destruct (prepare_total i f (si_future _ _ Hinv i f Hi)) as (p & Ep & _). rewrite Ep in E. simpl in E. injection E as E.
    symmetry in E.
    destruct p as [x|[ch x]]; [eapply Hdone; [|exact E]; done|]. unfold send in E. rewrite Hx in E. eapply Hdone; [|exact E]; done.
  - injection E as <-. split_and!; [done..|]. intros j f' Hj. destruct (decide (j = i)) as [->|]; [left|by right].
    rewrite Hi in Hj. injection Hj as <-. unfold finished. by rewrite Hst.
  - pose proof (channel_count b sys i f Hinv Hi) as Hcount. rewrite (held_exited i sys Hx) in Hcount.
    unfold sent in Hcount. rewrite Hst in Hcount. injection E as E. symmetry in E.
    destruct (resolution i (outputs sys)) as [[a|]|] eqn:Er; [|eapply Hdone; [|exact E]; done|apply resolution_None in Er; lia].
    destruct (receive_typed (future_call f) a i (answer_typed b sys i f a Hinv Hi Er)) as [x Ex]. rewrite Ex in E.
    eapply Hdone; [|exact E]; done.
  - injection E as <-. split_and!; [done..|]. intros j f' Hj. destruct (decide (j = i)) as [->|]; [left|by right].
    rewrite Hi in Hj. injection Hj as <-. unfold finished. by rewrite Hst.
Qed.

Lemma poll_all env b l sys :
  sys_inv b sys -> all_exited sys ->
  exists sys', System.run env (map EvPoll l) sys = Ret sys' /\ length (futures sys') = length (futures sys) /\
    (forall j f, futures sys' !! j = Some f -> finished f = true \/ (j ∉ l /\ futures sys !! j = Some f)).
Proof.
  revert sys. induction l as [|i l IH]; intros sys Hinv Hx.
  { exists sys. split_and!; [done..|]. intros j f Hj. right. split; [apply not_elem_of_nil|done]. }
  destruct (poll_one b sys i Hinv Hx) as (sys1 & E1 & Hinv1 & Hx1 & Hl1 & Hf1).
  destruct (IH sys1 Hinv1 Hx1) as (sys2 & E2 & Hl2 & Hf2).
  exists sys2. split_and!; [|congruence|].
  - cbn [map System.run System.step]. rewrite E1. exact E2.
  - intros j f [Hj|[Hn Hj]]%Hf2; [by left|]. apply Hf1 in Hj as [Hj|[Hne Hj]]; [by left|]. right. split; [|done].
    by apply not_elem_of_cons.
Qed.

(** The user shuts the node down, the tasks exit, the futures are polled. *)
Definition shutdown_events sys : list (event Enr) :=
  EvShutdown :: map EvTaskExit (seq 0 (length (tasks sys))) ++ map EvPoll (seq 0 (length (futures sys))).

Lemma run_app env l1 l2 sys : System.run env (l1 ++ l2) sys = (sys ← System.run env l1 sys; System.run env l2 sys).
Proof. revert sys. induction l1 as [|e l1 IH]; intros sys; simpl; [done|]. destruct (System.step env e sys); simpl; [apply IH|done]. Qed.

Lemma shutdown_all env b sys :
  sys_inv b sys ->
  exists sys', System.run env (shutdown_events sys) sys = Ret sys' /\ length (futures sys') = length (futures sys) /\
    Forall (fun f => finished f = true) (futures sys').
Proof.
  intros Hinv. unfold shutdown_events. cbn [System.run System.step mbind outcome_bind].
  set (sys1 := System.shutdown sys). pose proof (at_shutdown b sys Hinv) as Hinv1. fold sys1 in Hinv1.
  pose proof (shutdown_channel sys (si_handles _ _ Hinv)) as Hc1. fold sys1 in Hc1.
  destruct (shutdown_sizes sys) as [Ht1 Hf1]. fold sys1 in Ht1, Hf1.
  destruct (exit_all env b (seq 0 (length (tasks sys))) sys1 Hinv1 Hc1) as (sys2 & E2 & Hinv2 & Hf2 & Hl2).
  assert (all_exited sys2) as Hx2.
  { intros j. apply Hl2. destruct (decide (j < length (tasks sys))); [left; apply elem_of_seq; lia|right].
    unfold live. by rewrite lookup_ge_None_2 by lia. }
  destruct (poll_all env b (seq 0 (length (futures sys))) sys2 Hinv2 Hx2) as (sys3 & E3 & Hl3 & Hf3).
  exists sys3. rewrite run_app, E2. simpl. split; [done|]. split; [congruence|].
  apply Forall_lookup. intros j f Hj. destruct (Hf3 j f Hj) as [|[Hn Hj']]; [done|]. destruct Hn. apply elem_of_seq.
  apply lookup_lt_Some in Hj'. rewrite Hf2, Hf1 in Hj'. lia.
Qed.
End Run.


(** C2: Accounting and types of the futures.  At any time, a future whose request
    was sent is resolved by exactly one output of the tasks, or its callback is
    held exactly once, in the queue, in a query or in an active request of a
    task; a future whose request was not sent has neither.  An answer that
    arrives for it has the type of its channel, and what a future resolves to has
    the type of its method. *)
Theorem discv5_futures_accounted {Enr PS : Type} `{!EqDecision Enr} `{!K256} `{!EnrCrate Enr} `{!Packet.EnrCodec Enr}
    `{!EnrUpdate Enr} `{!EnrEdit Enr} `{!HashSetDelay PS NodeId} `{!Multiaddr.Libp2p} `{!Libp2pLaws}
    (env : Env Enr) (d : Discv5 Enr) (l : PermitBan.PermitBanList) (events : list (event Enr)) :
  node_built env d l events ->
  exists sys : System Enr PS, System.run env events (init d l) = Ret sys /\
    forall i f, futures sys !! i = Some f ->
      countb (resolves i) (outputs sys) + held i sys = (if sent f then 1 else 0) /\
      (forall a, resolution i (outputs sys) = Some (Some a) -> is_Some (receive (future_call f) a)) /\
      future_typed f.
Proof.
  intros Hb. destruct (built_runs env d l events Hb) as (sys & E & Hinv). exists sys. split; [done|].
  intros i f Hi. split_and!; [by eapply channel_count| |by eapply si_typed].
  intros a Ha. apply (receive_typed _ _ i). by eapply answer_typed.
Qed.

(** C4: Liveness.  From any reachable state, once the user shuts the node down and
    the tasks have exited, one poll of each future resolves it: no caller waits
    forever for a service that is gone, whether its request was never sent, was
    in the queue, or was held by a query or an active request. *)
Theorem discv5_shutdown_resolves {Enr PS : Type} `{!EqDecision Enr} `{!K256} `{!EnrCrate Enr} `{!Packet.EnrCodec Enr}
    `{!EnrUpdate Enr} `{!EnrEdit Enr} `{!HashSetDelay PS NodeId} `{!Multiaddr.Libp2p} `{!Libp2pLaws}
    (env : Env Enr) (d : Discv5 Enr) (l : PermitBan.PermitBanList) (events : list (event Enr)) :
  node_built env d l events ->
  exists sys sys' : System Enr PS, System.run env events (init d l) = Ret sys /\
    System.run env (shutdown_events sys) sys = Ret sys' /\
    length (futures sys') = length (futures sys) /\ Forall (fun f => finished f = true) (futures sys').
Proof.
  intros Hb. destruct (built_runs env d l events Hb) as (sys & E & Hinv).
  destruct (shutdown_all env _ sys Hinv) as (sys' & E' & Hl & Hf). by exists sys, sys'.
Qed.

Import ServiceSample.

(** ** A concrete node *)

#[export] Instance sample_enr_edit : EnrEdit (list byte) := {|
  enr_ip4 e := (fun b => [# x7f; x00; x00; b]) <$> (e !! 2);
  enr_tcp4_socket _ := None;
  enr_tcp6_socket _ := None;
  enr_set_tcp_socket _ _ _ := None;
  enr_insert_value e _ v _ := Ok (e ++ v, None);
  key_public k := match k with Secp256k1 k => PubSecp256k1 k | Ed25519 _ => PubEd25519 () end;
  public_key_eq_dec := ltac:(intros [a|[]] [b|[]]; [destruct (decide (a = b)); [left|right]; congruence|right; done..|left; done]);
|}.

(** Keys of one byte. *)
#[export] Instance sample_libp2p : Multiaddr.Libp2p := {|
  Multiaddr.try_decode_protobuf b := match b with [x] => Some (Multiaddr.KeySecp256k1 [x]) | _ => None end;
  Multiaddr.secp256k1_from_sec1_bytes b := head b;
  Multiaddr.ed25519_from_bytes _ := Some ();
|}.

#[export] Instance sample_libp2p_laws : Libp2pLaws.
Proof.
  split; intros b u; simpl; (destruct b as [|x [|y b]]; try done); intros [= <-]; by eexists.
Qed.

Definition sample_node : outcome (Discv5 (list byte) * PermitBan.PermitBanList) :=
  config ← sample_config;
  match Discv5.new own_record (Secp256k1 x01) config with Ok r => Ret r | Err _ => Panic end.

(** A record is added, the node is started, a query and a ping are asked for; the
    query is sent, the ping is left in the queue. *)
Definition sample_node_events : list (event (list byte)) :=
  [EvCall (fun _ => 0%Z) (ClAddEnr [x02; x05; x02]);
   EvStart (Ok ());
   EvFuture (CallFindNode (vreplicate 32 x07)); EvFuture (CallPing [x02; x05; x02]);
   EvFuture (CallRequestEnr (Some [Multiaddr.Ip4 [# x7f; x00; x00; x03]; Multiaddr.Udp 9000; Multiaddr.P2p [x00; x01; x03]]));
   EvPoll 0; EvPoll 1; EvTaskRequest 0; EvTask 0 OnQuery].

Lemma sample_node_good : Forall event_good sample_node_events.
Proof. by repeat constructor; simpl; lia. Qed.


Lemma sample_node_built env d l events :
  debug_assertions env = false -> query_order env = query_order sample_env ->
  sample_node = Ret (d, l) -> Forall event_good events -> (Z.of_nat (length events) < QueryPool.USIZE_MODULUS)%Z ->
  node_built env d l events.
Proof.
  intros Hd Ho Hs Hg Hl. split; [done|]. split; [intros; rewrite Ho; by unfold iteration_order|]. split; [|done].
  unfold sample_node in Hs. split_run. eexists _, _, _, _, _, _. split; [exact H|].
  match type of Hs with match ?m with _ => _ end = _ => destruct m as [r|] eqn:E; [|done] end. injection Hs as ->. exact E.
Qed.


Lemma discv5_futures_accounted_witness :
  match sample_node with
  | Ret (d, l) => exists sys : System (list byte) TimedSet, System.run sample_env sample_node_events (init d l) = Ret sys /\
      forall f, futures sys !! 1 = Some f -> countb (resolves 1) (outputs sys) + held 1 sys = if sent f then 1 else 0
  | Panic => False
  end.
Proof.
  destruct sample_node as [[d l]|] eqn:Es; [|vm_compute in Es; discriminate].
  destruct (discv5_futures_accounted (PS := TimedSet) sample_env d l sample_node_events (sample_node_built sample_env d l _ eq_refl eq_refl Es sample_node_good eq_refl)) as (sys & E & Hf).
  exists sys. split; [exact E|]. intros f Hi. exact (proj1 (Hf 1 f Hi)).
Defined.

Lemma discv5_shutdown_resolves_witness :
  match sample_node with
  | Ret (d, l) => exists sys sys' : System (list byte) TimedSet,
      System.run sample_env sample_node_events (init d l) = Ret sys /\
      System.run sample_env (shutdown_events sys) sys = Ret sys' /\ Forall (fun f => finished f = true) (futures sys')
  | Panic => False
  end.
Proof.
  destruct sample_node as [[d l]|] eqn:Es; [|vm_compute in Es; discriminate].
  destruct (discv5_shutdown_resolves (PS := TimedSet) sample_env d l sample_node_events (sample_node_built sample_env d l _ eq_refl eq_refl Es sample_node_good eq_refl))
    as (sys & sys' & E & E' & _ & Hf).
  exists sys, sys'. split; [exact E|]. split; [exact E'|exact Hf].
Defined.
