(* ===== verification/Discv5Spec.v ===== *)
(** * What the calls of the API promise

    [add_enr] against the routing table, [ban_node] against the table and the
    packet filter, and the node that a ban leaves waiting. *)

From stdpp Require Import strings.
From S2P Require Import Prelude Bytes Key Bucket BucketSpec BucketProofs BucketRefine BucketTrace BucketPost.
From S2P Require Import Table TableProofs TableTrace Closest ClosestProofs Rpc Packet NodeInfo Crypto Session Errors Globals Maps Filter FilterProofs.
From S2P Require Import Config Handler Service ServiceNodes ServiceSample Discv5 System SystemInv SystemRun CryptoSample.
Import NodeInfo KBucket Config Discv5.
#[local] Existing Instance PermitBan.still_banned_dec.

Section Spec.
Context {Enr : Type} `{!EqDecision Enr} `{!K256} `{!EnrCrate Enr} `{!EnrUpdate Enr} `{!EnrEdit Enr}.
Implicit Types (d : Discv5 Enr) (bans : PermitBan.PermitBanList).
Notation T := (Table.KBucketsTable NodeId Enr).
Implicit Types (t : T).

(** ** Members of the table *)

(** No bucket holds the node [node_id]. *)
Definition not_member t (node_id : NodeId) : Prop :=
  Forall (fun n => Key.hash (key n) <> Key.hash (Key.from_node_id node_id)) (Table.iter_ref t).

Lemma index_of_hash t (k k' : Key NodeId) : Key.hash k = Key.hash k' -> Table.index_of t k = Table.index_of t k'.
Proof. unfold Table.index_of, Key.distance. by intros ->. Qed.

Lemma member_index t i b n : table_inv t -> Table.buckets t !! i = Some b -> n ∈ nodes b -> Table.index_of t (key n) = Some i.
Proof. intros Hinv Hb Hn. destruct (inv_bucket t Hinv i b Hb) as [_ [Hp _]]. rewrite Forall_forall in Hp. by apply Hp. Qed.

(** The bucket of the key decides. *)
Lemma not_member_iff t node_id :
  table_inv t ->
  not_member t node_id <->
  forall i b, Table.index_of t (Key.from_node_id node_id) = Some i -> Table.buckets t !! i = Some b ->
    absent b (Key.from_node_id node_id).
Proof.
  intros Hinv. unfold not_member, absent. rewrite Forall_forall. split.
  - intros Hn i b _ Hb. apply Forall_forall. intros n Hin. apply Hn. apply list_elem_of_bind. exists b.
    split; [done|]. by eapply list_elem_of_lookup_2.
  - intros Hb n (b & Hin & [i Hi]%list_elem_of_lookup)%list_elem_of_bind Hk.
    assert (Table.index_of t (Key.from_node_id node_id) = Some i) as Hx
      by (rewrite <-(index_of_hash t (key n)) by done; by eapply member_index).
    specialize (Hb i b Hx Hi). rewrite Forall_forall in Hb. by apply (Hb n Hin).
Qed.

Lemma self_not_member t node_id : table_inv t -> Table.index_of t (Key.from_node_id node_id) = None -> not_member t node_id.
Proof. intros Hinv Hn. apply not_member_iff; [done|]. intros i b Hi. congruence. Qed.

Lemma step_not_member t t' i b node_id :
  table_inv t -> Table.index_of t (Key.from_node_id node_id) = Some i -> bucket_step t i t' b -> absent b (Key.from_node_id node_id) ->
  not_member t' node_id.
Proof.
  intros Hinv Hi (Hinv' & [Hk _] & Hb & _ & _) Ha. apply not_member_iff; [done|]. intros j b' Hj Hb'.
  unfold Table.index_of in Hj, Hi. rewrite Hk in Hj. by simplify_eq.
Qed.

(** ** [add_enr] *)

(** Only a connected node waits for a place. *)
Lemma insert_pending now (b b' : KBucket NodeId Enr) n k :
  bucket_inv b -> insert now b n = Ret (b', Pending k) -> is_connected (status n) = true.
Proof.
  intros (s & -> & Hwf)%inv_concrete. rewrite sim_insert by done. unfold BucketSpec.spec_insert.
  repeat case_match; by intros [= <- <-].
Qed.

Lemma disconnected_not_pending now now' t k v dir t' k' :
  table_inv t -> Table.insert_or_update now now' t k v (mkStatus dir Disconnected) = Ret (t', Table.TPending k') -> False.
Proof.
  intros Hinv E. unfold Table.insert_or_update in E. split_run. destruct (Table.index_of t k) as [i|] eqn:Ei; [|done].
  split_run. destruct (apply_index_ok now t k i Hinv Ei) as (t1 & b1 & E1 & (_ & _ & _ & [Hb _] & _)).
  match goal with H : Table.apply_bucket _ _ _ = _ |- _ => rewrite E1 in H; injection H as -> -> end.
  destruct (negb _); [by split_run; simplify_eq|]. destruct (position_of _ _).
  - split_run. destruct (failed _); [done|]. split_run. simplify_eq.
    match goal with H : Table.from_updates ?a ?b = _ |- _ => by destruct a, b end.
  - split_run. simplify_eq. match goal with H : Table.from_bucket_insert ?a = _ |- _ => destruct a; try done end.
    match goal with H : insert _ _ _ = _ |- _ => by apply insert_pending in H end.
Qed.

(** ** [ban_node] *)

(** The list of bans after some periodic checks, at the readings given. *)
Definition sweep_all (sweeps : list ((IpAddr -> Z) * (NodeId -> Z))) bans : PermitBan.PermitBanList :=
  fold_left (fun l '(now_ip, now_node) => PermitBan.unban_nodes_check l now_ip now_node) sweeps bans.

Lemma sweep_permits sweeps bans : PermitBan.permit_nodes (sweep_all sweeps bans) = PermitBan.permit_nodes bans.
Proof. revert bans. induction sweeps as [|[a b] sweeps IH]; intros bans; [done|]. unfold sweep_all in *. simpl. by rewrite IH. Qed.

Lemma sweep_gone sweeps bans (node_id : NodeId) :
  PermitBan.ban_nodes bans !! node_id = None -> PermitBan.ban_nodes (sweep_all sweeps bans) !! node_id = None.
Proof.
  revert bans. induction sweeps as [|[a b] sweeps IH]; intros bans Hl; [done|]. apply IH. apply map_lookup_filter_None. by left.
Qed.

Lemma sweep_ban sweeps bans (node_id : NodeId) until :
  PermitBan.ban_nodes bans !! node_id = Some until ->
  PermitBan.ban_nodes (sweep_all sweeps bans) !! node_id =
    if decide (Forall (fun sw => PermitBan.still_banned (sw.2 node_id) until) sweeps) then Some until else None.
Proof.
  revert bans. induction sweeps as [|[a b] sweeps IH]; intros bans Hb; [by rewrite decide_True|].
  change (sweep_all ((a, b) :: sweeps) bans) with (sweep_all sweeps (PermitBan.unban_nodes_check bans a b)).
  destruct (decide (PermitBan.still_banned (b node_id) until)) as [Hs|Hs].
  - rewrite IH by (by apply map_lookup_filter_Some). apply decide_ext. rewrite Forall_cons. naive_solver.
  - rewrite sweep_gone; [rewrite decide_False; [done|]|].
    + by intros [? _]%Forall_cons.
    + apply map_lookup_filter_None. right. intros x Hx. simplify_eq. done.
Qed.

Lemma ban_node_ok clock node_id duration d bans :
  table_inv (kbuckets d) -> ban_representable (clock 0) duration ->
  exists d', ban_node clock node_id duration d bans =
      Ret (d', set_ban_nodes (fun m => <[node_id := Z.add (clock 0) <$> duration]> m) bans) /\
    table_inv (kbuckets d') /\ not_member (kbuckets d') node_id.
Proof.
  intros Hinv Hr. unfold ban_node, remove_node, on_table. rewrite ban_expiry_ok by done. cbn [mbind outcome_bind].
  destruct (table_remove_ok (clock 1) (clock 2) (kbuckets d) (Key.from_node_id node_id) Hinv) as (t' & r & -> & Hcase).
  eexists. split; [done|]. simpl. destruct (Table.index_of _ _) as [i|] eqn:Ei.
  - destruct Hcase as (b & Hstep & Ha). split; [by destruct Hstep|]. by eapply step_not_member.
  - destruct Hcase as [-> _]. split; [done|]. by apply self_not_member.
Qed.
End Spec.

(** C20: [add_enr] on a table with the invariant returns.  When it answers [Ok], the
    record has an address this node can contact and passed the table filter, and
    the table holds exactly it, as an incoming and disconnected node: it is
    never left waiting.  When it answers an error, nothing changed or the node
    of the record is not a member. *)
Theorem add_enr_spec {Enr : Type} `{!EqDecision Enr} `{!K256} `{!EnrCrate Enr} `{!EnrUpdate Enr} `{!EnrEdit Enr}
    (clock : nat -> Z) (enr : Enr) (d : Discv5 Enr) :
  table_inv (kbuckets d) ->
  exists d' r, add_enr clock enr d = Ret (d', r) /\ table_inv (kbuckets d') /\
    match r with
    | Ok _ => is_Some (IpMode.get_contactable_addr (ip_mode d) enr) /\ Config.table_filter (config d) enr = true /\
        exists n, n ∈ Table.iter_ref (kbuckets d') /\ Key.hash (key n) = enr_node_id enr /\ value n = enr /\
          status n = mkStatus Incoming Disconnected
    | Err _ => d' = d \/ not_member (kbuckets d') (enr_node_id enr)
    end.
Proof.
  intros Hinv. unfold add_enr. destruct (IpMode.get_contactable_addr _ _) as [a|] eqn:Ea; [|by eexists _, _; auto].
  destruct (Config.table_filter (config d) enr) eqn:Ef; simpl; [|by eexists _, _; auto].
  set (k := Key.from_node_id (enr_node_id enr)). unfold on_table.
  destruct (insert_or_update_ok (clock 0) (clock 1) (kbuckets d) k enr (mkStatus Incoming Disconnected) Hinv)
    as (t' & r & E & Hcase). rewrite E. cbn [mbind outcome_bind].
  destruct (Table.index_of (kbuckets d) k) as [i|] eqn:Ei.
  2: { destruct Hcase as [-> ->]. eexists _, _. split; [done|]. split; [done|]. left. by destruct d. }
  destruct Hcase as (b & Hstep & Hr). eexists _, _. split; [done|]. pose proof Hstep as (Hinv' & _ & Hb & _). split; [done|].
  assert (forall n, holds b k n -> value n = enr -> status n = mkStatus Incoming Disconnected ->
    is_Some (Some a) /\ true = true /\ exists n, n ∈ Table.iter_ref t' /\ Key.hash (key n) = enr_node_id enr /\
      value n = enr /\ status n = mkStatus Incoming Disconnected) as Hok.
  { intros n [Hn Hk] Hv Hs. split_and!; [by eexists|done|]. exists n. split_and!; [|done..].
    apply list_elem_of_bind. exists b. split; [done|]. by eapply list_elem_of_lookup_2. }
  destruct r as [|k'|p| |p| |reason]; simpl in Hr; cbn [add_result]; simpl.
  - by eapply Hok.
  - by apply disconnected_not_pending in E.
  - destruct Hr as (n & ? & ? & ?). by eapply Hok.
  - destruct Hr as (n & ? & ? & ?). by eapply Hok.
  - destruct Hr as (n & ? & ? & ?). by eapply Hok.
  - done.
  - assert (not_member t' (enr_node_id enr)) by (eapply step_not_member; [exact Hinv|exact Ei|exact Hstep|exact Hr]). destruct reason; by right.
Qed.


(** C21: [ban_node] on a table with the invariant.  The node is a member no more, and
    as long as no periodic check of the bans was made at or after the end of the
    ban, the filter refuses every packet of the node, unless it is permitted; a
    check at or after the end lifts the ban, and a ban with no end is never
    lifted.  The call panics exactly when the end of the ban is no instant. *)
Theorem ban_node_blocks {Enr KA BA : Type} `{!EqDecision Enr} `{!K256} `{!EnrCrate Enr} `{!EnrUpdate Enr} `{!EnrEdit Enr}
    `{!LruCache KA IpAddr (gset NodeId)} `{!LruCache BA IpAddr nat}
    (clock : nat -> Z) (id : NodeId) (duration : option Z) (d : Discv5 Enr) (bans : PermitBan.PermitBanList) :
  table_inv (kbuckets d) -> id ∉ PermitBan.permit_nodes bans ->
  match ban_node clock id duration d bans with
  | Ret (d', bans') =>
      ban_representable (clock 0) duration /\ table_inv (kbuckets d') /\ not_member (kbuckets d') id /\
      forall sweeps (s : Filter.State KA BA) r addr, Filter.bans s = sweep_all sweeps bans' -> node_id addr = id ->
        if decide (Forall (fun sw => PermitBan.still_banned (sw.2 id) (Z.add (clock 0) <$> duration)) sweeps)
        then Filter.final_pass s r addr = Ret (s, false)
        else PermitBan.ban_nodes (Filter.bans s) !! id = None
  | Panic => ~ ban_representable (clock 0) duration
  end.
Proof.
  intros Hinv Hp. destruct (decide (ban_representable (clock 0) duration)) as [Hr|Hr];
    [|unfold ban_node; by rewrite ban_expiry_overflow].
  destruct (ban_node_ok clock id duration d bans Hinv Hr) as (d' & E & Hinv' & Hn). rewrite E.
  split_and!; [done..|]. intros sweeps s r addr Hs <-.
  pose proof (sweep_ban sweeps (set_ban_nodes (fun m => <[node_id addr := Z.add (clock 0) <$> duration]> m) bans)
    (node_id addr) _ (lookup_insert_eq _ _ _)) as Hb. rewrite <-Hs in Hb. case_decide; [|done].
  unfold Filter.final_pass. rewrite decide_False by (rewrite Hs, sweep_permits; done).
  rewrite decide_True by (by rewrite Hb; eexists). done.
Qed.

(** ** A ban and a node that waits *)

Section Waits.
Context {Enr : Type} `{!EqDecision Enr} `{!K256} `{!EnrCrate Enr} `{!EnrUpdate Enr} `{!EnrEdit Enr}.
Implicit Types (d : Discv5 Enr) (b : KBucket NodeId Enr) (p : PendingNode NodeId Enr) (t : Table.KBucketsTable NodeId Enr).

(** A full bucket whose oldest node is disconnected has a place for its pending node. *)
Definition admits b p : bool :=
  is_full MAX_NODES_PER_BUCKET (nodes b) &&
  match nodes b !! 0 with Some first => negb (is_connected (status first)) | None => false end &&
  passes_filter b (value (node p)) && is_connected (pending_status p) &&
  negb (is_incoming (pending_status p) && is_max_incoming b).

Lemma apply_pending_admits now b p :
  pending b = Some p -> (replace_at p <= now)%Z -> admits b p = true ->
  exists b' a, apply_pending now b = Ret (b', a) /\ node p ∈ nodes b'.
Proof.
  intros Hp Ht. unfold admits. rewrite !andb_true_iff. intros ((((Hf & Hd) & Hpass) & Hc) & Hi).
  unfold apply_pending. rewrite Hp, (proj2 (Z.leb_le _ _) Ht). cbn [set_pending nodes]. rewrite Hf.
  destruct (nodes b) as [|first l] eqn:En; [done|]. cbn [lookup list_lookup] in *. cbn [unwrap mbind outcome_bind].
  destruct (is_connected (status first)); [done|]. change (passes_filter (set_pending b None)) with (passes_filter b).
  change (is_max_incoming (set_pending b None)) with (is_max_incoming b). rewrite Hpass, Hc. cbn [negb andb].
  destruct (is_incoming _ && is_max_incoming b); [done|]. unfold array_remove, array_push. cbn. rewrite decide_True.
  - eexists _, _. split; [done|]. simpl. apply elem_of_app. right. by left.
  - unfold is_full in Hf. apply bool_decide_eq_true in Hf. simpl in Hf. lia.
Qed.

Lemma apply_pending_waits now b p : pending b = Some p -> (now < replace_at p)%Z -> apply_pending now b = Ret (b, None).
Proof. intros Hp Ht. unfold apply_pending. rewrite Hp, (proj2 (Z.leb_gt _ _) Ht). destruct b. simpl in *. by subst. Qed.

(** The listing of the table has the nodes of each bucket after its pending node is applied. *)
Lemma iter_from_lists clock t idxs i b b' a n :
  table_inv t -> NoDup idxs -> Forall (fun j => j < Table.NUM_BUCKETS) idxs -> i ∈ idxs ->
  Table.buckets t !! i = Some b -> apply_pending (clock i) b = Ret (b', a) -> n ∈ nodes b' ->
  exists t' l, Table.iter_from clock t idxs = Ret (t', l) /\ n ∈ l.
Proof.
  revert t. induction idxs as [|j idxs IH]; intros t Hinv Hnd Hlt Hi Hb E Hn; [by apply elem_of_nil in Hi|].
  apply NoDup_cons in Hnd as [Hj Hnd]. apply Forall_cons in Hlt as [Hjlt Hlt]. cbn [Table.iter_from].
  destruct (decide (i = j)) as [->|Hne].
  - destruct (apply_bucket_ok (clock j) t j Hinv Hjlt) as (t1 & b1 & E1 & Hinv1 & _). rewrite E1.
    unfold Table.apply_bucket in E1. rewrite Hb in E1. cbn [unwrap mbind outcome_bind] in E1. rewrite E in E1. injection E1 as _ <-.
    destruct (iter_from_ok clock t1 idxs Hinv1 Hlt) as (t2 & l & E2 & _). cbn [mbind outcome_bind]. rewrite E2.
    eexists _, _. split; [done|]. apply elem_of_app. by left.
  - destruct (apply_bucket_ok (clock j) t j Hinv Hjlt) as (t1 & b1 & -> & Hinv1 & _ & _ & _ & Hother). cbn [mbind outcome_bind].
    apply elem_of_cons in Hi as [?|Hi]; [done|].
    destruct (IH t1 Hinv1 Hnd Hlt Hi) as (t2 & l & -> & Hl); [by rewrite Hother|done|done|].
    eexists _, _. split; [done|]. apply elem_of_app. by right.
Qed.

(** C34: a ban does not reach a node that waits for a place in its bucket.  Whatever
    the table, when [ban_node] is called for a node that is pending and not yet
    due, the ban is recorded, the node is no member, and its bucket is left as it
    is, with the node still pending.  Once the pending timeout is over and the
    bucket has a place for it, the next listing of the table holds the node,
    banned as it is. *)
Theorem banned_node_enters (clock clock' : nat -> Z) id duration d (bans : PermitBan.PermitBanList) i b p :
  table_inv (kbuckets d) -> Table.index_of (kbuckets d) (Key.from_node_id id) = Some i ->
  Table.buckets (kbuckets d) !! i = Some b -> pending b = Some p -> key (node p) = Key.from_node_id id ->
  (clock 1%nat < replace_at p)%Z -> ban_representable (clock 0) duration ->
  exists d' bans', ban_node clock id duration d bans = Ret (d', bans') /\
    PermitBan.ban_nodes bans' !! id = Some (Z.add (clock 0) <$> duration) /\
    not_member (kbuckets d') id /\ Table.buckets (kbuckets d') !! i = Some b /\
    ((replace_at p <= clock' i)%Z -> admits b p = true ->
     exists d'' l, table_entries_id clock' d' = Ret (d'', l) /\ id ∈ l).
Proof.
  intros Hinv Hi Hb Hp Hk Hw Hr. pose proof (proj1 (inv_bucket _ Hinv i b Hb)) as Hbi.
  destruct (ban_node_ok clock id duration d bans Hinv Hr) as (d' & E & Hinv' & Hn). eexists d', _. split; [exact E|].
  split; [apply lookup_insert_eq|]. split; [done|].
  assert (Table.buckets (kbuckets d') !! i = Some b) as Hb'.
  { unfold ban_node, remove_node, on_table, Table.table_remove in E. rewrite ban_expiry_ok in E by done. rewrite Hi in E.
    unfold Table.apply_bucket in E. rewrite Hb in E. cbn [unwrap mbind outcome_bind] in E.
    rewrite (apply_pending_waits _ b p Hp Hw) in E. cbn [mbind outcome_bind] in E. unfold remove in E.
    assert (position_of b (Key.from_node_id id) = None) as Hpos.
    { apply position_absent. apply Forall_forall. intros n Hin. rewrite <-Hk. by apply (inv_pending _ Hbi). }
    rewrite Hpos in E. injection E as <-. simpl. rewrite list_lookup_insert_eq; [done|]. rewrite length_insert. by eapply lookup_lt_Some. }
  split; [done|]. intros Ht Ha. destruct (apply_pending_admits _ b p Hp Ht Ha) as (b' & a & Eb & Hin).
  assert (i < Table.NUM_BUCKETS) as Hlt by (rewrite <-(inv_buckets _ Hinv); by eapply lookup_lt_Some).
  destruct (iter_from_lists clock' (kbuckets d') (seq 0 (length (Table.buckets (kbuckets d')))) i b b' a (node p)) as (t' & l & El & Hl);
    [done|apply NoDup_seq| |by rewrite (inv_buckets _ Hinv'); apply elem_of_seq; lia|done..|].
  - rewrite (inv_buckets _ Hinv'). apply Forall_forall. intros j Hj%elem_of_seq. lia.
  - unfold table_entries_id, on_table, Table.iter. rewrite El. eexists _, _. split; [done|].
    apply list_elem_of_In, in_map_iff. exists (node p). rewrite Hk. split; [done|]. by apply list_elem_of_In.
Qed.
End Waits.

Import System CryptoSample ServiceSample.

Definition peer_record (i : nat) : list byte := let b := byte_of_Z (128 + Z.of_nat i) in [b; x05; b].

(** Sixteen records of one bucket are added, the node is started and a session with
    the node of a seventeenth is established. *)
Definition ban_events : list (event (list byte)) :=
  map (fun i => EvCall (fun _ => 0%Z) (ClAddEnr (peer_record i))) (seq 0 16) ++
  [EvStart (Ok ());
   EvTask 0 (OnHandler (Handler.OutEstablished (peer_record 16) (SockV4 (mkSocketAddrV4 [# x7f; x00; x00; x90] 9000)) Outgoing))].

Definition waiting_id : NodeId := enr_node_id (peer_record 16).

(** The node it waits on, in the run that leads there. *)
Definition waiting_node : outcome (Discv5 (list byte) * PermitBan.PermitBanList) :=
  '(d, l) ← sample_node;
  sys ← System.run (PS := TimedSet) sample_env ban_events (init d l);
  Ret (discv5 sys, bans sys).

(** It is pending, due 61 seconds later, and its bucket has a place for it. *)
Definition waits (d : Discv5 (list byte)) : bool :=
  match Table.index_of (kbuckets d) (Key.from_node_id waiting_id) with
  | Some i =>
      match Table.buckets (kbuckets d) !! i with
      | Some b =>
          match pending b with
          | Some p =>
              bool_decide (Key.preimage (key (node p)) = waiting_id) && bool_decide (Key.hash (key (node p)) = waiting_id) &&
              (100 <? replace_at p)%Z && (replace_at p <=? from_secs 61)%Z && admits b p
          | None => false
          end
      | None => false
      end
  | None => false
  end.

(** Banned for good at 100, listed 61 seconds later. *)
Lemma banned_node_enters_witness :
  exists d l d' bans' d'' ids, waiting_node = Ret (d, l) /\
    ban_node (fun _ => 100%Z) waiting_id None d l = Ret (d', bans') /\
    PermitBan.ban_nodes bans' !! waiting_id = Some None /\
    table_entries_id (fun _ => from_secs 61) d' = Ret (d'', ids) /\ waiting_id ∈ ids.
Proof.
  assert (exists d l, waiting_node = Ret (d, l) /\ table_inv (kbuckets d)) as (d & l & E & Hinv).
  { unfold waiting_node. destruct sample_node as [[d l]|] eqn:Es; [|vm_compute in Es; discriminate]. cbn [mbind outcome_bind].
    destruct (built_runs (PS := TimedSet) sample_env d l ban_events) as (sys & -> & Hs);
      [apply sample_node_built; [done|done|exact Es|by repeat constructor|done]|]. eexists _, _. split; [done|]. apply (si_table _ _ Hs). }
  assert (match waiting_node with Ret (d, _) => waits d | Panic => false end = true) as Hw by (by vm_compute).
  rewrite E in Hw. unfold waits in Hw. destruct (Table.index_of _ _) as [i|] eqn:Ei; [|done].
  destruct (Table.buckets (kbuckets d) !! i) as [b|] eqn:Eb; [|done]. destruct (pending b) as [p|] eqn:Ep; [|done].
  apply andb_true_iff in Hw as [[[[H1 H2]%andb_true_iff H3]%andb_true_iff H4]%andb_true_iff H5].
  apply bool_decide_eq_true in H1, H2. apply Z.ltb_lt in H3. apply Z.leb_le in H4.
  destruct (banned_node_enters (fun _ => 100%Z) (fun _ => from_secs 61) waiting_id None d l i b p) as (d' & bans' & E1 & Hban & _ & _ & Hin).
  - exact Hinv.
  - exact Ei.
  - exact Eb.
  - exact Ep.
  - destruct (key (node p)). simpl in *. by subst.
  - exact H3.
  - exact I.
  - destruct (Hin H4 H5) as (d'' & ids & E2 & Hids). exists d, l, d', bans', d'', ids. split_and!; [exact E|exact E1|exact Hban|exact E2|exact Hids].
Defined.

Lemma add_enr_spec_witness :
  match sample_node with
  | Ret (d, _) => exists d', add_enr (fun _ => 0%Z) (peer_record 3) d = Ret (d', Ok ()) /\ table_inv (kbuckets d')
  | Panic => False
  end.
Proof.
  destruct sample_node as [[d l]|] eqn:Es; [|vm_compute in Es; discriminate].
  destruct (add_enr_spec (fun _ => 0%Z) (peer_record 3) d) as (d' & r & E & Hinv & _).
  { vm_compute in Es. injection Es as <- _. apply new_inv. }
  exists d'. split; [|exact Hinv]. destruct r as [[]|e]; [exact E|]. exfalso.
  vm_compute in Es. injection Es as <- _. vm_compute in E. discriminate.
Defined.

#[local] Existing Instance RecencyList.recency_list.

(** A ban of ten units, and a check at five. *)
Lemma ban_node_blocks_witness :
  match sample_node with
  | Ret (d, l) =>
      let id := vreplicate 32 x83 in
      exists d' bans' f, ban_node (fun _ => 0%Z) id (Some 10%Z) d l = Ret (d', bans') /\ not_member (kbuckets d') id /\
        Filter.new true FilterSample.unlimited None = Ret f /\
        let s := Filter.mkState (f : Filter.Filter FilterSample.KA FilterSample.BA)
                   (sweep_all [(fun _ => 5%Z, fun _ => 5%Z)] bans') 0 in
        Filter.final_pass s (FilterSample.at_time 5) (FilterSample.sender x83) = Ret (s, false)
  | Panic => False
  end.
Proof.
  destruct sample_node as [[d l]|] eqn:Es; [|vm_compute in Es; discriminate]. intros id.
  pose proof (ban_node_blocks (KA := FilterSample.KA) (BA := FilterSample.BA) (fun _ => 0%Z) id (Some 10%Z) d l) as Hb.
  destruct (ban_node _ _ _ _ _) as [[d' bans']|] eqn:E.
  - destruct (new_returns (KA := FilterSample.KA) (BA := FilterSample.BA) true FilterSample.unlimited None) as [f Ef]; [by vm_compute|].
    destruct Hb as (_ & _ & Hn & Hf); [vm_compute in Es; injection Es as <- _; apply new_inv|
      vm_compute in Es; injection Es as _ <-; apply not_elem_of_empty|].
    exists d', bans', f. split; [reflexivity|]. split; [exact Hn|]. split; [exact Ef|]. intros s.
    specialize (Hf [(fun _ => 5%Z, fun _ => 5%Z)] s (FilterSample.at_time 5) (FilterSample.sender x83) eq_refl eq_refl).
    rewrite decide_True in Hf by (repeat constructor). exact Hf.
  - exfalso. apply Hb; [vm_compute in Es; injection Es as <- _; apply new_inv|
      vm_compute in Es; injection Es as _ <-; apply not_elem_of_empty|by vm_compute].
Defined.
